(* ===== verification/_CoqProject ===== *)
-Q . S2P
Prelude.v
BTree.v
RustStr.v
Utf8.v
Constants.v
Error.v
Labels.v
Security.v
Config.v
Graph.v
Protocol.v
Logs.v
Watch.v
Reaper.v
Runtime.v
FileWatch.v
World.v
Logic.v
Trace.v
EnvFile.v
Service.v
Liveness.v
Store.v
Console.v
Supervisor.v
EarlyBoot.v
LogIO.v
Version.v
ElfFile.v
OtelEnv.v
DaemonInfo.v
Monitor.v
Describe.v
Isolation.v
Timing.v
Acts.v
MonitorSpec.v
Spawning.v
Processes.v
Persistence.v
Commands.v
Loading.v
Sequencing.v
Reload.v
Events.v
Requests.v
Answers.v
Replies.v
Init.v
InitSpec.v
DepTree.v
Cli.v
Client.v
Main.v
Session.v
Float64.v
Otel.v
Steps.v
Invariant.v
Delivery.v
OtelSpec.v
System.v
