(* ===== verification/Prelude.v ===== *)
(** * microinit: a verification library

    microinit is an init system and service supervisor: one process that runs an
    early-boot script, reads a JSON configuration, starts the configured services in
    the order of their dependencies, watches and restarts them, serves requests on a
    Unix socket, reloads the configuration when it changes, and shuts the machine
    down.  This library models the Rust crate under [src/src/] (Linux builds with the
    default features [init] and [otel]) as executable definitions and proves what
    makes it correct.

    ** How the code is modelled

    - Pure functions are Rocq functions; [Result] is [result] (below), with [let?] for
      [?].  Strings are the bytes of their UTF-8 encoding ([RustStr.v], [Utf8.v]);
      ordered sets and maps iterate in key order ([BTree.v]); hash maps are [gmap]s
      whose iteration order is a parameter ([HashOrder]).  Integers are [N] or [Z]
      with saturation, wrapping, and panics of unchecked additions written out.
    - Stateful code is written in the monad [M] of [World.v]: one thread, over the
      state all threads share ([Shared]: runtimes, configuration, control channels,
      exits, log hub, watch hub, files, signals, caches) and the history of effects.
      An access under a mutex is one atomic section; before each, the other threads
      may have changed the state in any way ([interfere]), and theorems assume of it
      only what they name.  The history records the state each section found and left,
      so what every section of a program guarantees is stated of any interleaving.  The
      clock and every answer of the operating system are functions of the history.
      [None] is a panic (the release profile aborts) or a wait that never ends.
    - The threads together: [Steps.v] has the abstract steps of the shared state, one
      constructor for each thing a section may do ([shared_step]), and each thread of
      [System.v] implements them.  A schedule lists the sections of all threads in the
      order in which they happen; invariants of it go by cases on the steps.
    - What a program does is stated of the events it adds to the history: [Trace.v] has
      sequences of the visible steps, [Acts.v] predicates on events that are composed in
      sequence ([R ⨾ S]), so a specification names the processes spawned, the exits
      seen, the signals and messages sent, and the states found.
    - Loops whose end depends on the machine take a number of rounds: the main loop
      and the streams do not return when it is used up.  The waits of [Service.v] take
      as many rounds as their deadline allows, and [Timing.v] shows that is enough;
      the graph search, the topological sort and the dependency tree take as many as
      there are names, and their theorems show that they always end with a result.
      Directory walks are bounded by [Store.dir_depth].

    ** Parts and files

    - [Prelude.v], [BTree.v], [RustStr.v], [Utf8.v]: what the components share;
      [Constants.v] is [constants.rs], [Error.v] is [error.rs], [Protocol.v] is
      [protocol.rs].
    - [Labels.v] ([labels.rs]): selectors.  [Security.v] ([security.rs]): identities,
      capabilities and the privilege drop, refining its plan of system calls.
    - [Config.v], [Store.v] ([config.rs]): the configuration, its validation, drop-ins
      and overrides; loading and saving.  [EnvFile.v] ([envfile.rs]).
    - [Graph.v] ([graph.rs]): boot and shutdown order, equal to the greedy
      topological order.
    - [Logs.v] ([logs.rs]), [Watch.v] ([watch.rs]): the hubs.  [Reaper.v] ([reaper.rs],
      [signals.rs]): exits, zombies and the shutdown flag.
    - [Runtime.v], [Supervisor.v], [Monitor.v], [Describe.v], [DaemonInfo.v]
      ([supervisor.rs]): the state of the services, the requests, boot,
      reload and shutdown; the monitor thread of a service; [describe]; [info].
      [Service.v] ([service.rs]) runs commands and [Liveness.v] ([liveness.rs]) probes.
    - [EarlyBoot.v] ([early_boot.rs], [unmount.rs]): the scripts and the bounded
      capture of their output.  [Version.v] ([version.rs]): the ELF section with the
      version, and [ElfFile.v] a writer of ELF files from the tables of the format, to
      check it against.  [OtelEnv.v] ([otelenv.rs]): the settings of the metrics.
    - [Requests.v] ([ipc.rs], [handle_ipc] of [init.rs]): the control socket.
      [Init.v] ([init.rs], [shutdown.rs], the starts in [config_watch.rs] and
      [otel.rs], the loop of the reaper thread in [reaper.rs]): the daemon's procedure
      and main loop.  [FileWatch.v]
      ([config_watch.rs]): what the watcher watches.
    - [Console.v] ([console.rs]): the boot console.  [LogIO.v] ([logs.rs],
      [log_bridge.rs]): opening the terminals of the log hub, copying the output of
      services into it, and the bridge of the [log] crate.
    - [DepTree.v], [Cli.v] ([cli.rs], [bin/shutdown.rs]): the texts of the client and
      the arguments of [shutdown].  [Client.v] ([ipc.rs], [cli.rs],
      [bin/shutdown.rs]): connections, the commands and the [shutdown] program.
      [Main.v] ([main.rs]): the main program, as daemon or client, up to its exit code.
    - [Float64.v], [Otel.v] ([otel.rs]): the metrics exporter and its numbers.
    - [Steps.v], [System.v]: the atomic steps of the daemon and its threads (main,
      monitors, reaper, clients, captures, metrics, getty, log bridge, signal handlers),
      interleaved.  [Delivery.v]: the queues of the followers of the logs.

    The rules for computations are in [Logic.v] (what each section guarantees, as a
    relation between the states it finds and leaves; invariants, events, Hoare triples,
    termination), [Trace.v] (sequences of steps) and [Acts.v] (what events tell of the
    processes run), each over the lemmas of the one before; [Logic.v] has the hint
    databases and solver tactics.

    ** What the theorems show

    - Orders ([Graph.v], [Describe.v], [DepTree.v]): the boot order is the greedy
      topological order and exists exactly for known acyclic dependencies; shutdown
      reverses it; the subgraph and the tree of [describe] are exactly what is
      reachable.
    - Data ([Config.v], [Security.v], [Logs.v], [Watch.v], [Reaper.v], [EnvFile.v] with
      [Commands.v], [EarlyBoot.v], [Version.v], [ElfFile.v], [OtelEnv.v], [Labels.v]): validation
      accepts exactly the well-formed configurations, resolved identities are well
      formed, buffers are bounded and keep the newest lines, the sections of an ELF file
      are found as the format has them, and where unchecked arithmetic or a bad byte panics.
    - Shared state: [Steps.v] (each section of each thread is an abstract step),
      [Invariant.v] (the well-formedness of the shared state, and that each step keeps
      it), [System.v] (every state that an interleaving of all threads reaches is well
      formed and descriptions of services agree with themselves), [Isolation.v] (no
      section of a monitor changes what is not its own), [Reload.v] (exactly the
      configured services are served).
    - Queues: [Delivery.v] (what a step does to a follower's channel) and [System.v]
      (under any interleaving all followers of the logs see the same lines, once and in
      order).
    - Services: [MonitorSpec.v] (the result, the state and the tracked pid of a start are
      those of the process that was spawned; stops, quits and restarts end the process
      before they report it; probes decide by what was probed; a raised stop flag ends
      the service and its monitor), [Spawning.v] (nothing else is spawned),
      [Processes.v] (between two starts the first process has exited or was told to end),
      [Timing.v] (waits end in time; termination escalates).
    - Files: [Persistence.v] (they are replaced atomically and overrides are read
      back), [Loading.v] (a configuration that loads is the one its files hold, with
      exactly the drop-ins in the directory tree).
    - Sequences: [Sequencing.v] (boot, with the waits that decide what it shows, and
      shutdown), [Reload.v] (the messages of a reload), [InitSpec.v] (the order of the
      daemon's start, a required early boot, a reload signal, and that a requested
      shutdown is carried out: the messages go out in order, while the monitors stop
      their services concurrently).
    - Requests: [Events.v], [Answers.v] and [Replies.v] (the replies to each request are
      those of what the daemon did: the states it found, the messages it delivered, the
      lines it received; and requests whose work is bounded are always answered),
      [Session.v] (the daemon and a client put together: the only frame a command writes
      is its request, and when the daemon dispatches what that frame carries, the
      command's output and exit code are those of the replies, and for operations of
      what the supervisor did; no reply is unexpected), [Main.v] (what a process runs for its arguments).
    - Output of services: [LogIO.v] (the lines logged are those of the text the pipe
      gives, up to the first that is not UTF-8).
    - Metrics: [OtelSpec.v] (what a document says, where it goes, and how far apart
      documents are).

    ** Not modelled

    JSON text (parsing and printing are derived code; they are parameters, [Json],
    [Wire], [Client] and [print_document]), the socket server and its frames, inotify with its debouncing,
    the argument parser and the HTTP client: third-party crates, parameters or answers
    of the host.  The kernel, libc and the user database: parameters ([Host],
    [Kernel], [Nss]).
    [Drop] order, memory and the poisoning of mutexes ([panic = abort] excludes it).
    Code for Android ([cfg(target_os = "android")]) is not built on Linux.  [lib.rs],
    [datadir.rs] and [syncutil.rs] have no logic of their own. *)

From stdpp Require Export base tactics option list gmap strings pretty sorting.
From Stdlib Require Export Lia.

#[global] Unset Program Cases.

(** ** Results *)

Declare Scope microinit_scope.
Delimit Scope microinit_scope with microinit.
Open Scope microinit_scope.

(** Rust's [Result<A, E>]. *)
Inductive result (A E : Type) : Type :=
  | Ok (a : A)
  | Err (e : E).
Arguments Ok {A E} a.
Arguments Err {A E} e.

(** The [?] operator. *)
Notation "'let?' x := m 'in' k" :=
  (match m with Ok x => k | Err e => Err e end)
  (at level 10, x name, m at level 100, k at level 200) : microinit_scope.
Notation "'let?' ' p := m 'in' k" :=
  (match m with Ok p => k | Err e => Err e end)
  (at level 10, p pattern, m at level 100, k at level 200) : microinit_scope.

Section result_ops.
Context {A B E F : Type}.

Definition is_ok (r : result A E) : bool := match r with Ok _ => true | Err _ => false end.

Definition result_ok (r : result A E) : option A :=
  match r with Ok a => Some a | Err _ => None end.

Definition map_err (f : E → F) (r : result A E) : result A F :=
  match r with Ok a => Ok a | Err e => Err (f e) end.

Definition ok_or (o : option A) (e : E) : result A E :=
  match o with Some a => Ok a | None => Err e end.

(** A loop over a list whose body may leave the function with [?]. *)
Fixpoint try_fold (f : B → A → result B E) (b : B) (l : list A) : result B E :=
  match l with
  | [] => Ok b
  | a :: l' => match f b a with Ok b' => try_fold f b' l' | Err e => Err e end
  end.

Lemma try_fold_app f b l1 l2 :
  try_fold f b (l1 ++ l2) =
  match try_fold f b l1 with Ok b' => try_fold f b' l2 | Err e => Err e end.
Proof.
  revert b; induction l1 as [|a l1 IH]; intros b; simpl; [done|].
  by destruct (f b a).
Qed.

(** Invariant rule for [try_fold]: it relates the elements consumed so far
    to the accumulator. *)
Lemma try_fold_inv (I : list A → B → Prop) f b l b' :
  I [] b →
  (∀ l1 a l2 c c', l = l1 ++ a :: l2 → I l1 c → f c a = Ok c' → I (l1 ++ [a]) c') →
  try_fold f b l = Ok b' → I l b'.
Proof.
  intros H0 Hstep.
  assert (∀ l2 l1 c, l = l1 ++ l2 → I l1 c → try_fold f c l2 = Ok b' → I l b') as Hgen.
  { induction l2 as [|a l2 IH]; intros l1 c Hl HI; simpl.
    - intros [= <-]. by rewrite Hl, app_nil_r.
    - destruct (f c a) as [c'|] eqn:Hf; [|done].
      apply (IH (l1 ++ [a])); [by rewrite <-app_assoc|]. by eapply Hstep. }
  by apply (Hgen l []).
Qed.

Lemma try_fold_err f b l e :
  try_fold f b l = Err e →
  ∃ l1 a l2 c, l = l1 ++ a :: l2 ∧ try_fold f b l1 = Ok c ∧ f c a = Err e.
Proof.
  revert b; induction l as [|a l IH]; intros b; simpl; [done|].
  destruct (f b a) as [c|e'] eqn:Hf.
  - intros (l1 & a' & l2 & c' & -> & Hl1 & Hc')%IH.
    exists (a :: l1), a', l2, c'. simpl. by rewrite Hf.
  - intros [= <-]. by exists [], a, l, b.
Qed.
End result_ops.

(** A loop that only checks. *)
Lemma try_fold_check {A E} (f : A → result unit E) (l : list A) :
  try_fold (λ _ a, f a) tt l = Ok tt ↔ ∀ a, a ∈ l → f a = Ok tt.
Proof.
  induction l as [|a l IH]; simpl; [split; [set_solver|done]|].
  destruct (f a) as [[]|e] eqn:Hf.
  - rewrite IH. set_solver.
  - split; [done|]. intros Hall. rewrite Hall in Hf by set_solver. done.
Qed.

(** A loop that appends one result per element. *)
Lemma try_fold_collect {A B E} (f : A → result B E) (l : list A) (acc out : list B) :
  try_fold (λ acc a, let? b := f a in Ok (acc ++ [b])) acc l = Ok out →
  ∃ bs, out = acc ++ bs ∧ Forall2 (λ a b, f a = Ok b) l bs.
Proof.
  revert acc. induction l as [|a l IH]; intros acc; simpl.
  - intros [= <-]. exists []. by rewrite app_nil_r.
  - destruct (f a) as [b|e] eqn:Hf; [|done]. intros (bs & -> & Hbs)%IH.
    exists (b :: bs). split; [by rewrite <-(assoc_L (++))|by constructor].
Qed.

#[export] Instance result_eq_dec `{EqDecision A, EqDecision E} : EqDecision (result A E).
Proof. solve_decision. Defined.

(** ** Machine-width integers

    Unsigned Rust integers are [N], signed ones [Z], lengths and indices [nat]. *)

Definition u8_max : N := 255.
Definition u16_max : N := 65535.
Definition u32_max : N := 4294967295.
Definition u64_max : N := 18446744073709551615.

(** [saturating_add] at a given maximum. *)
Definition sat_add (max x y : N) : N := N.min max (x + y).
(** [wrapping_add] on [u64]. *)
Definition wrap_add_u64 (x y : N) : N := ((x + y) mod (u64_max + 1))%N.

Lemma sat_add_le max x y : (sat_add max x y ≤ max)%N.
Proof. unfold sat_add; lia. Qed.
Lemma sat_add_ge max x y : (x ≤ max)%N → (x ≤ sat_add max x y)%N.
Proof. unfold sat_add; lia. Qed.
Lemma sat_add_exact max x y : (x + y ≤ max)%N → sat_add max x y = (x + y)%N.
Proof. unfold sat_add; lia. Qed.

(** ** Hint databases and tactics *)

Create HintDb microinit discriminated.
Create Rewrite HintDb microinit.
#[export] Hint Resolve sat_add_le sat_add_ge : microinit.

(** Split on every [match] of the goal, closing impossible branches. *)
Ltac case_all := repeat case_match; simplify_eq/=; try done.

(** Prove a decidable, closed proposition by evaluating its decision. *)
Ltac by_compute := apply (bool_decide_unpack _); vm_compute; exact I.

(** Decidable equality of records whose fields have it, maps included: the
    argument is an injective view of the record as a tuple. *)
Lemma view_eq_dec {A B} `{EqDecision B} (view : A → B) :
  (∀ x y, view x = view y → x = y) → EqDecision A.
Proof.
  intros Hinj x y. destruct (decide (view x = view y)) as [Heq|Hne].
  - left. by apply Hinj.
  - right. intros ->. by apply Hne.
Defined.

(** Introduce and split a function result [f x = Ok y]. *)
Ltac inv_ok H := repeat (case_match; simplify_eq H; simpl in H).

(** ** Lists *)

Section lists.
Context {A B : Type}.
Implicit Types l : list A.

Lemma foldl_inv (I : list A → B → Prop) (f : B → A → B) b l :
  I [] b →
  (∀ l1 a l2 c, l = l1 ++ a :: l2 → I l1 c → I (l1 ++ [a]) (f c a)) →
  I l (foldl f b l).
Proof.
  intros H0 Hstep.
  assert (∀ l2 l1 c, l = l1 ++ l2 → I l1 c → I l (foldl f c l2)) as Hgen.
  { induction l2 as [|a l2 IH]; intros l1 c Hl HI; simpl.
    - by rewrite Hl, app_nil_r.
    - apply (IH (l1 ++ [a])); [by rewrite <-app_assoc|]. by eapply Hstep. }
  by apply (Hgen l []).
Qed.

(** [a] occurs strictly before every occurrence of [b]. *)
Definition before (a b : A) l : Prop :=
  ∀ l1 l2, l = l1 ++ b :: l2 → a ∈ l1.

(** The last [n] elements: Rust's [iter().skip(len.saturating_sub(n))]. *)
Definition last_n (n : nat) l : list A := drop (length l - n) l.

Lemma length_last_n n l : length (last_n n l) = min n (length l).
Proof. unfold last_n. rewrite length_drop. lia. Qed.

Lemma last_n_suffix n l : last_n n l `suffix_of` l.
Proof. exists (take (length l - n) l). unfold last_n. by rewrite take_drop. Qed.

Lemma last_n_all n l : length l ≤ n → last_n n l = l.
Proof. intros. unfold last_n. by replace (length l - n) with 0 by lia. Qed.

Lemma last_n_snoc n l a : last_n (S n) (l ++ [a]) = last_n n l ++ [a].
Proof.
  unfold last_n. rewrite length_app; simpl.
  replace (length l + 1 - S n) with (length l - n) by lia.
  rewrite drop_app_le by lia. done.
Qed.
End lists.

(** [find] of a slice: the first element the predicate accepts. *)
Definition find_first {A} (p : A → bool) (l : list A) : option A := List.find p l.

Lemma find_first_Some {A} (p : A → bool) l a :
  find_first p l = Some a → a ∈ l ∧ p a = true.
Proof. intros [??]%find_some. by rewrite list_elem_of_In. Qed.

Lemma find_first_None {A} (p : A → bool) l :
  find_first p l = None ↔ ∀ a, a ∈ l → p a = false.
Proof.
  split.
  - intros Hn a Ha%list_elem_of_In. by eapply find_none in Hn.
  - intros Hall. induction l as [|x l IH]; simpl; [done|].
    rewrite (Hall x) by set_solver. apply IH. set_solver.
Qed.

(** ** Hash maps

    The iteration order of [std::collections::HashMap] is unspecified: it is a
    parameter of the model, which lists each entry once. *)
Class HashOrder := {
  hash_iter {V : Type} : gmap string V → list (string * V);
  hash_iter_perm {V : Type} (m : gmap string V) : hash_iter m ≡ₚ map_to_list m;
}.

Lemma elem_of_hash_iter `{HashOrder} {V} (m : gmap string V) k v :
  (k, v) ∈ hash_iter m ↔ m !! k = Some v.
Proof. by rewrite hash_iter_perm, elem_of_map_to_list. Qed.

#[export] Hint Rewrite @elem_of_hash_iter : microinit.

(** One possible order, used to evaluate the definitions on concrete inputs. *)
Definition canonical_hash_order : HashOrder := {|
  hash_iter V m := map_to_list m;
  hash_iter_perm V m := Permutation_refl _;
|}.

(** ** Finite relations without minimal elements have cycles *)

Section cycles.
Context `{EqDecision A, !Countable A} (R : relation A).

(** A list [xs] of elements leading up to [x]: each is related to the next. *)
Fixpoint chain (xs : list A) (x : A) : Prop :=
  match xs with
  | [] => True
  | y :: ys => R y (default x (head ys)) ∧ chain ys x
  end.

Lemma chain_app_tc l1 y l2 x : chain (l1 ++ y :: l2) x → rtc R y x.
Proof.
  assert (∀ l z, chain (z :: l) x → rtc R z x) as Hc.
  { induction l as [|w l IH]; intros z; simpl.
    - intros [? _]. by apply rtc_once.
    - intros [Hz Hw]. eapply rtc_l; [done|]. by apply IH. }
  induction l1 as [|z l1 IH]; simpl; [apply Hc|]. intros [_ ?]; auto.
Qed.

Lemma chain_dup_tc l1 y l2 l3 x : chain (l1 ++ y :: l2 ++ y :: l3) x → tc R y y.
Proof.
  assert (∀ l z, chain (z :: l ++ y :: l3) x → tc R z y) as Hc.
  { induction l as [|w l IH]; intros z; simpl.
    - intros [? _]. by apply tc_once.
    - intros [Hz Hw]. eapply tc_l; [done|]. by apply IH. }
  induction l1 as [|z l1 IH]; simpl; [apply Hc|]. intros [_ ?]; auto.
Qed.

Lemma chain_exists (X : gset A) x n :
  x ∈ X → (∀ y, y ∈ X → ∃ z, z ∈ X ∧ R z y) →
  ∃ xs, length xs = n ∧ chain xs x ∧ ∀ y, y ∈ xs → y ∈ X.
Proof.
  intros Hx Hpred. induction n as [|n (xs & Hlen & Hch & Hin)].
  - exists []. split_and!; [done|done|set_solver].
  - destruct (Hpred (default x (head xs))) as (z & HzX & HR).
    { destruct xs; simpl; [done|]. apply Hin. set_solver. }
    exists (z :: xs). simpl. split_and!; [lia|done|done|set_solver].
Qed.

(** If every element of a finite set has a predecessor in the set, every
    element of the set is reachable from a cycle. *)
Lemma no_minimal_cycle (X : gset A) x :
  x ∈ X → (∀ y, y ∈ X → ∃ z, z ∈ X ∧ R z y) → ∃ y, tc R y y ∧ rtc R y x.
Proof.
  intros Hx Hpred. destruct (chain_exists X x (S (size X)) Hx Hpred) as (xs & Hlen & Hch & Hin).
  destruct (decide (NoDup xs)) as [Hnd|Hdup].
  - exfalso. assert (size (list_to_set xs : gset A) = length xs) as Hsz.
    { by apply size_list_to_set. }
    assert ((list_to_set xs : gset A) ⊆ X) as Hsub by set_solver.
    apply subseteq_size in Hsub. lia.
  - assert (∃ y l1 l2 l3, xs = l1 ++ y :: l2 ++ y :: l3) as (y & l1 & l2 & l3 & ->).
    { clear Hlen Hch Hin. induction xs as [|z xs IH]; [by destruct Hdup; constructor|].
      destruct (decide (z ∈ xs)) as [Hz|Hz].
      - apply list_elem_of_split in Hz as (l2 & l3 & ->). by exists z, [], l2, l3.
      - destruct IH as (y & l1 & l2 & l3 & ->).
        { intros ?. apply Hdup. by constructor. }
        by exists y, (z :: l1), l2, l3. }
    exists y. split; [by eapply chain_dup_tc|by eapply chain_app_tc].
Qed.
End cycles.

(** [before] composes along duplicate-free lists. *)
Section before.
Context {A : Type}.
Implicit Types l : list A.

Lemma before_split a b l : before a b l → b ∈ l → ∃ l1 l2 l3, l = l1 ++ a :: l2 ++ b :: l3.
Proof.
  intros Hab (l1 & l2 & ->)%list_elem_of_split.
  destruct (list_elem_of_split l1 a) as (k1 & k2 & ->); [by eapply Hab|].
  exists k1, k2, l2. by rewrite <-app_assoc.
Qed.

Lemma before_trans a b c l : c ∈ l → before a b l → before b c l → before a c l.
Proof.
  intros _ Hab Hbc l1 l2 ->.
  assert (b ∈ l1) as (k1 & k2 & ->)%list_elem_of_split by by eapply Hbc.
  assert (a ∈ k1); [|set_solver]. eapply Hab. by rewrite <-app_assoc.
Qed.

Lemma before_irrefl a l : NoDup l → a ∈ l → before a a l → False.
Proof.
  intros Hnd (l1 & l2 & ->)%list_elem_of_split Haa.
  assert (a ∈ l1) by by eapply Haa.
  apply NoDup_app in Hnd as (_ & Hdis & _). eapply Hdis; [done|]. set_solver.
Qed.

Lemma before_reverse a b l :
  NoDup l → b ∈ l → a ≠ b → before a b l → before b a (reverse l).
Proof.
  intros Hnd Hb Hne Hab l1 l2 Hl.
  apply (f_equal reverse) in Hl. rewrite reverse_involutive, reverse_app, reverse_cons in Hl.
  rewrite <-(assoc_L (++)) in Hl; simpl in Hl. subst l.
  apply elem_of_app in Hb as [(k1 & k2 & Hk)%list_elem_of_split|Hb]; [|set_solver].
  assert (a ∈ k1) as Hak1.
  { eapply (Hab k1 (k2 ++ a :: reverse l1)). by rewrite Hk, <-(assoc_L (++)). }
  apply NoDup_app in Hnd as (_ & Hdis & _). destruct (Hdis a); [rewrite Hk|]; set_solver.
Qed.
End before.

(** ** Repeated neighbours *)

(** [Vec::dedup]: repeated neighbours are removed. *)
Fixpoint dedup `{EqDecision A} (l : list A) : list A :=
  match l with
  | [] => []
  | x :: l' =>
      match l' with
      | y :: _ => if decide (x = y) then dedup l' else x :: dedup l'
      | [] => [x]
      end
  end.

Section dedup.
Context `{EqDecision A}.
Implicit Types (x y : A) (l : list A).

Lemma dedup_cons_cons x y l : dedup (x :: y :: l) = if decide (x = y) then dedup (y :: l) else x :: dedup (y :: l).
Proof. done. Qed.

Lemma elem_of_dedup x l : x ∈ dedup l ↔ x ∈ l.
Proof.
  induction l as [|y l IH]; [done|]. destruct l as [|z l]; [done|]. rewrite dedup_cons_cons.
  case_decide; subst; rewrite ?elem_of_cons, IH, !elem_of_cons; naive_solver.
Qed.
End dedup.
