(* ===== verification/BTree.v ===== *)
(** Ordered sets and maps: [std::collections::BTreeSet] and [BTreeMap].

    The contents are a [gset] or a [gmap]; iteration lists them in ascending
    key order.  Keys are strings (compared bytewise, as [str] is) or pairs
    compared lexicographically. *)

From S2P Require Import Prelude.

Class BOrd (K : Type) := ord_le : relation K.
#[export] Hint Mode BOrd ! : typeclass_instances.

Class BOrdLaws (K : Type) `{BOrd K} := {
  ord_dec :: RelDecision (@ord_le K _);
  ord_po :: PartialOrder (@ord_le K _);
  ord_total :: Total (@ord_le K _);
}.

#[export] Instance string_ord : BOrd string := String.le.
#[export] Instance string_ord_laws : BOrdLaws string.
Proof. split; unfold ord_le, string_ord; apply _. Defined.

#[export] Instance N_ord : BOrd N := N.le.
#[export] Instance N_ord_laws : BOrdLaws N.
Proof. split; unfold ord_le, N_ord; apply _. Defined.

(** Tuples compare lexicographically. *)
#[export] Instance prod_ord `{BOrd A, BOrd B} : BOrd (A * B) :=
  λ p q, ord_le p.1 q.1 ∧ (p.1 = q.1 → ord_le p.2 q.2).

#[export] Instance prod_ord_laws `{BOrdLaws A, BOrdLaws B, EqDecision A} : BOrdLaws (A * B).
Proof.
  split.
  - intros [a b] [a' b']. unfold ord_le, prod_ord; simpl.
    destruct (decide (ord_le a a')); [|right; tauto].
    destruct (decide (a = a')) as [->|]; [|left; tauto].
    destruct (decide (ord_le b b')); [left|right]; tauto.
  - split; [split|].
    + intros [a b]. split; intros; reflexivity.
    + intros [a1 b1] [a2 b2] [a3 b3] [H12 H12'] [H23 H23']; simpl in *.
      split; simpl; [by trans a2|]. intros ->.
      assert (a3 = a2) as -> by (by apply (anti_symm ord_le)).
      trans b2; auto.
    + intros [a1 b1] [a2 b2] [H12 H12'] [H21 H21']; simpl in *.
      assert (a1 = a2) as -> by (by apply (anti_symm ord_le)).
      f_equal. apply (anti_symm ord_le); auto.
  - intros [a1 b1] [a2 b2]. unfold ord_le, prod_ord; simpl.
    destruct (decide (a1 = a2)) as [->|Hne].
    + destruct (total ord_le b1 b2); [left|right]; split; auto; reflexivity.
    + destruct (total ord_le a1 a2); [left|right]; split; auto; congruence.
Defined.

Section btree.
Context {K : Type} `{EqDecision K, Countable K, BOrd K, !BOrdLaws K}.
Implicit Types X : gset K.

(** [BTreeSet::iter] *)
Definition bset_iter X : list K := merge_sort ord_le (elements X).

(** [BTreeSet::pop_first] *)
Definition bset_pop_first X : option (K * gset K) :=
  match bset_iter X with
  | [] => None
  | k :: _ => Some (k, X ∖ {[ k ]})
  end.

(** [BTreeMap::iter] *)
Definition bmap_iter {V} (m : gmap K V) : list (K * V) :=
  omap (λ k, pair k <$> m !! k) (bset_iter (dom m)).

Lemma bset_iter_perm X : bset_iter X ≡ₚ elements X.
Proof. apply merge_sort_Permutation. Qed.

Lemma elem_of_bset_iter X k : k ∈ bset_iter X ↔ k ∈ X.
Proof. by rewrite bset_iter_perm, elem_of_elements. Qed.

Lemma bset_iter_sorted X : StronglySorted ord_le (bset_iter X).
Proof. apply StronglySorted_merge_sort; apply _. Qed.

Lemma bset_iter_NoDup X : NoDup (bset_iter X).
Proof. rewrite bset_iter_perm. apply NoDup_elements. Qed.

Lemma bset_pop_first_None X : bset_pop_first X = None ↔ X = ∅.
Proof.
  unfold bset_pop_first. destruct (bset_iter X) as [|k l] eqn:Hl; split; try done.
  - intros _. apply set_eq. intros k. rewrite <-elem_of_bset_iter, Hl. set_solver.
  - intros ->. assert (k ∈ (∅ : gset K)); [|set_solver].
    apply elem_of_bset_iter. rewrite Hl. set_solver.
Qed.

Lemma bset_pop_first_Some X k Y :
  bset_pop_first X = Some (k, Y) →
  k ∈ X ∧ Y = X ∖ {[ k ]} ∧ ∀ k', k' ∈ X → ord_le k k'.
Proof.
  unfold bset_pop_first. destruct (bset_iter X) as [|k0 l] eqn:Hl; [done|].
  intros [= -> <-].
  assert (k ∈ X) by (apply elem_of_bset_iter; rewrite Hl; set_solver).
  split_and!; [done..|]. intros k' Hk'.
  apply elem_of_bset_iter in Hk'. rewrite Hl in Hk'.
  pose proof (bset_iter_sorted X) as Hs. rewrite Hl in Hs.
  apply StronglySorted_inv in Hs as [_ Hall].
  apply elem_of_cons in Hk' as [->|Hin]; [reflexivity|].
  rewrite Forall_forall in Hall. by apply Hall.
Qed.

Lemma elem_of_bmap_iter {V} (m : gmap K V) k v :
  (k, v) ∈ bmap_iter m ↔ m !! k = Some v.
Proof.
  unfold bmap_iter. rewrite list_elem_of_omap. split.
  - intros (k' & _ & Hk'). destruct (m !! k') eqn:Hm; naive_solver.
  - intros Hm. exists k. rewrite elem_of_bset_iter, elem_of_dom, Hm. simpl. eauto.
Qed.
End btree.

#[export] Hint Resolve bset_iter_sorted bset_iter_NoDup : microinit.
#[export] Hint Rewrite @elem_of_bset_iter @elem_of_bmap_iter : microinit.
