(* ===== verification/RustStr.v ===== *)
(** Rust string operations used by the crate.

    A Rust [str] is a [string] of the bytes of its UTF-8 encoding.  Functions
    that look at [char]s (trimming, [chars]) work on the encodings. *)

From Stdlib Require Import Ascii.
From S2P Require Import Prelude.
#[local] Open Scope stdpp_scope.

(** ** Bytes *)

Definition byte_val (c : ascii) : N := N_of_ascii c.

(** The string with the given bytes. *)
Definition bytes (l : list N) : string :=
  foldr (λ b s, String (ascii_of_N b) s) "" l.

(** [char::is_ascii_uppercase] and friends, on a byte. *)
Definition in_range (lo hi : N) (c : ascii) : bool :=
  bool_decide (lo ≤ byte_val c)%N && bool_decide (byte_val c ≤ hi)%N.
Definition is_ascii_digit : ascii → bool := in_range 48 57.
Definition is_ascii_upper : ascii → bool := in_range 65 90.
Definition is_ascii_lower : ascii → bool := in_range 97 122.
Definition is_ascii_alphanumeric (c : ascii) : bool :=
  is_ascii_digit c || is_ascii_upper c || is_ascii_lower c.

Definition ascii_to_upper (c : ascii) : ascii :=
  if is_ascii_lower c then ascii_of_N (byte_val c - 32) else c.
Definition ascii_to_lower (c : ascii) : ascii :=
  if is_ascii_upper c then ascii_of_N (byte_val c + 32) else c.

Fixpoint string_map (f : ascii → ascii) (s : string) : string :=
  match s with "" => "" | String c s => String (f c) (string_map f s) end.
Fixpoint string_forallb (f : ascii → bool) (s : string) : bool :=
  match s with "" => true | String c s => f c && string_forallb f s end.
Definition string_existsb (f : ascii → bool) (s : string) : bool :=
  negb (string_forallb (λ c, negb (f c)) s).

Definition to_ascii_uppercase : string → string := string_map ascii_to_upper.
Definition to_ascii_lowercase : string → string := string_map ascii_to_lower.

(** ** Prefixes and splitting *)

Fixpoint strip_prefix (p s : string) : option string :=
  match p, s with
  | "", _ => Some s
  | String c p, String d s => if decide (c = d) then strip_prefix p s else None
  | String _ _, "" => None
  end.
Definition starts_with (p s : string) : bool := bool_decide (is_Some (strip_prefix p s)).
Definition ends_with (p s : string) : bool := starts_with (String.rev p) (String.rev s).

(** [str::contains] for an ASCII character. *)
Definition contains_char (c : ascii) (s : string) : bool :=
  string_existsb (λ d, bool_decide (c = d)) s.

(** [str::split_once] for an ASCII separator. *)
Fixpoint split_once (sep : ascii) (s : string) : option (string * string) :=
  match s with
  | "" => None
  | String c s =>
      if decide (c = sep) then Some ("", s)
      else match split_once sep s with
           | Some (a, b) => Some (String c a, b)
           | None => None
           end
  end.

(** [str::rsplit_once]: split at the last separator. *)
Definition rsplit_once (sep : ascii) (s : string) : option (string * string) :=
  match split_once sep (String.rev s) with
  | Some (b, a) => Some (String.rev a, String.rev b)
  | None => None
  end.

(** [str::split] for an ASCII separator: never empty. *)
Fixpoint split (sep : ascii) (s : string) : list string :=
  match s with
  | "" => [""]
  | String c s =>
      if decide (c = sep) then "" :: split sep s
      else match split sep s with
           | [] => [String c ""]
           | a :: l => String c a :: l
           end
  end.

Definition newline : ascii := ascii_of_N 10.
Definition carriage_return : ascii := ascii_of_N 13.

(** Drop one trailing carriage return. *)
Definition strip_cr (s : string) : string :=
  match String.rev s with
  | String c r => if decide (c = carriage_return) then String.rev r else s
  | "" => s
  end.

(** [str::lines]: lines end with LF or CRLF; a final empty line is not listed.
    A carriage return is part of the line end only when a LF follows it. *)
Definition lines (s : string) : list string :=
  let parts := split newline s in
  match reverse parts with
  | "" :: complete => strip_cr <$> reverse complete
  | last :: complete => (strip_cr <$> reverse complete) ++ [last]
  | [] => []
  end.

(** [join] *)
Definition join (sep : string) (l : list string) : string := String.concat sep l.

(** ** Trimming *)

(** UTF-8 encodings of the characters with the Unicode property [White_Space]. *)
Definition whitespace_codes : list string :=
  (bytes <$> [[9]; [10]; [11]; [12]; [13]; [32];
    [194; 133]; [194; 160]; [225; 154; 128];
    [226; 128; 128]; [226; 128; 129]; [226; 128; 130]; [226; 128; 131];
    [226; 128; 132]; [226; 128; 133]; [226; 128; 134]; [226; 128; 135];
    [226; 128; 136]; [226; 128; 137]; [226; 128; 138];
    [226; 128; 168]; [226; 128; 169]; [226; 128; 175];
    [226; 129; 159]; [227; 128; 128]])%N.

(** Remove one leading code of [codes]. *)
Fixpoint strip_code (codes : list string) (s : string) : option string :=
  match codes with
  | [] => None
  | p :: codes =>
      match strip_prefix p s with Some r => Some r | None => strip_code codes s end
  end.

(** Remove leading codes until none matches; every code is at least one byte
    long, so the length of [s] bounds the number of rounds. *)
Fixpoint trim_start_go (codes : list string) (fuel : nat) (s : string) : string :=
  match fuel with
  | O => s
  | S fuel =>
      match strip_code codes s with Some r => trim_start_go codes fuel r | None => s end
  end.
Definition trim_start_codes codes (s : string) : string :=
  trim_start_go codes (String.length s) s.
Definition trim_end_codes codes (s : string) : string :=
  String.rev (trim_start_codes (String.rev <$> codes) (String.rev s)).

(** [str::trim]: in a UTF-8 string a suffix that equals an encoding is the last
    character. *)
Definition trim (s : string) : string :=
  trim_end_codes whitespace_codes (trim_start_codes whitespace_codes s).

(** [trim_matches] with a set of ASCII characters. *)
Definition trim_matches (cs : list ascii) (s : string) : string :=
  let codes := (λ c, String c "") <$> cs in
  trim_end_codes codes (trim_start_codes codes s).

Definition trim_end_matches (cs : list ascii) (s : string) : string :=
  trim_end_codes ((λ c, String c "") <$> cs) s.
Definition trim_start_matches (p s : string) : string :=
  trim_start_codes [p] s.

(** [split_whitespace]: maximal runs without white space. *)
Fixpoint split_whitespace_go (fuel : nat) (cur : string) (s : string) : list string :=
  let flush := if decide (cur = "") then [] else [String.rev cur] in
  match fuel with
  | O => flush
  | S fuel =>
      match strip_code whitespace_codes s with
      | Some r => flush ++ split_whitespace_go fuel "" r
      | None =>
          match s with
          | "" => flush
          | String c s => split_whitespace_go fuel (String c cur) s
          end
      end
  end.
Definition split_whitespace (s : string) : list string :=
  split_whitespace_go (S (String.length s)) "" s.

(** ** Numbers *)

Definition digit_val (c : ascii) : option N :=
  if is_ascii_digit c then Some (byte_val c - 48)%N else None.

Fixpoint parse_digits (max acc : N) (s : string) : option N :=
  match s with
  | "" => Some acc
  | String c s =>
      match digit_val c with
      | Some d =>
          let acc' := (10 * acc + d)%N in
          if decide (acc' ≤ max)%N then parse_digits max acc' s else None
      | None => None
      end
  end.

(** [str::parse] for an unsigned type with the given maximum: an optional [+]
    and at least one digit, no overflow. *)
Definition parse_uint (max : N) (s : string) : option N :=
  let digits := match s with String "+"%char r => r | _ => s end in
  if decide (digits = "") then None else parse_digits max 0 digits.

(** ** Characters *)

(** UTF-8 continuation bytes: 0b10xxxxxx. *)
Definition is_continuation (c : ascii) : bool := in_range 128 191 c.

(** [s.chars().take(n).collect()]: the first [n] characters. *)
Fixpoint take_chars (n : nat) (s : string) : string :=
  match s with
  | "" => ""
  | String c r =>
      if is_continuation c then String c (take_chars n r)
      else match n with O => "" | S n => String c (take_chars n r) end
  end.

(** ** Lemmas *)

Lemma strip_prefix_Some p s r : strip_prefix p s = Some r ↔ s = p +:+ r.
Proof.
  revert s; induction p as [|c p IH]; intros s; simpl.
  - split; [by intros [= ->]|by intros ->].
  - destruct s as [|d s]; [by split|]. change (String c p +:+ r) with (String c (p +:+ r)).
    case_decide as Hcd; [subst d; rewrite IH|]; split; [by intros ->|by intros [=]|done|].
    intros [=]; congruence.
Qed.

Lemma contains_char_cons c d s :
  contains_char c (String d s) = bool_decide (c = d) || contains_char c s.
Proof. unfold contains_char, string_existsb. simpl. by case_bool_decide. Qed.

#[export] Hint Rewrite contains_char_cons : microinit.

Lemma split_once_Some sep s a b :
  split_once sep s = Some (a, b) ↔ s = a +:+ String sep b ∧ contains_char sep a = false.
Proof.
  split.
  - revert a b; induction s as [|c s IH]; intros a b; simpl; [done|].
    case_decide as Hc; [intros [= <- <-]; by subst|].
    destruct (split_once sep s) as [[a' b']|]; [|done]. intros [= <- <-].
    destruct (IH a' b') as [-> Ha]; [done|]. split; [done|].
    rewrite contains_char_cons, Ha. by rewrite bool_decide_false by congruence.
  - intros [-> Ha]. induction a as [|c a IH]; simpl.
    { change ("" +:+ String sep b) with (String sep b). simpl. by case_decide. }
    change (String c a +:+ String sep b) with (String c (a +:+ String sep b)). simpl.
    rewrite contains_char_cons in Ha. apply orb_false_iff in Ha as [?%bool_decide_eq_false Ha].
    rewrite decide_False by congruence. by rewrite IH.
Qed.

Lemma split_once_None sep s :
  split_once sep s = None ↔ contains_char sep s = false.
Proof.
  induction s as [|c s IH]; simpl; [done|]. rewrite contains_char_cons.
  case_decide as Hc.
  - subst c. by rewrite bool_decide_true.
  - rewrite bool_decide_false by congruence. simpl. rewrite <-IH.
    by destruct (split_once sep s) as [[]|].
Qed.

(** Concatenation and reversal. *)
Lemma rev_app_acc s t : String.rev_app s t = String.rev s +:+ t.
Proof.
  unfold String.rev. revert t. 
  assert (∀ u t, String.rev_app s (u +:+ t) = String.rev_app s u +:+ t) as H; [|intros t; apply (H "" t)].
  induction s as [|c s IH]; intros u t; simpl; [done|].
  change (String c (u +:+ t)) with (String c u +:+ t). apply IH.
Qed.
Lemma string_app_assoc (a b c : string) : (a +:+ b) +:+ c = a +:+ (b +:+ c).
Proof. induction a as [|x a IH]; [done|]. change (String x ((a +:+ b) +:+ c) = String x (a +:+ (b +:+ c))). by rewrite IH. Qed.
Lemma string_app_nil (a : string) : a +:+ "" = a.
Proof. induction a as [|x a IH]; [done|]. change (String x (a +:+ "") = String x a). by rewrite IH. Qed.
Lemma rev_string_app a b : String.rev (a +:+ b) = String.rev b +:+ String.rev a.
Proof.
  induction a as [|x a IH].
  - change (String.rev b = String.rev b +:+ ""). by rewrite string_app_nil.
  - change (String.rev_app (a +:+ b) (String x "") = String.rev b +:+ String.rev_app a (String x "")).
    by rewrite !rev_app_acc, IH, string_app_assoc.
Qed.
Lemma rev_rev a : String.rev (String.rev a) = a.
Proof.
  induction a as [|x a IH]; [done|]. change (String.rev (String x a)) with (String.rev_app a (String x "")).
  rewrite rev_app_acc, rev_string_app, IH. done.
Qed.
Lemma rsplit_once_Some sep s a b : rsplit_once sep s = Some (a, b) → s = a +:+ String sep b ∧ contains_char sep (String.rev b) = false.
Proof.
  unfold rsplit_once. destruct (split_once sep (String.rev s)) as [[x y]|] eqn:Hs; [|done].
  intros [= <- <-]. apply split_once_Some in Hs as [Hs Hx]. rewrite rev_rev. split; [|done].
  apply (f_equal String.rev) in Hs. rewrite rev_rev in Hs. rewrite Hs, rev_string_app.
  change (String.rev (String sep y)) with (String.rev_app y (String sep "")).
  rewrite rev_app_acc, string_app_assoc. done.
Qed.
Lemma app_inj_r (a b c : string) : a +:+ b = a +:+ c → b = c.
Proof. induction a as [|x a IH]; [done|]. intros [= ?]. auto. Qed.
Lemma length_string_app a b : String.length (a +:+ b) = String.length a + String.length b.
Proof. induction a as [|x a IH]; [done|]. change (S (String.length (a +:+ b)) = S (String.length a) + String.length b). by rewrite IH. Qed.
