(* ===== verification/Utf8.v ===== *)
(** UTF-8 decoding of bytes that need not be text: [String::from_utf8_lossy] and
    [std::str::from_utf8]. *)

From Stdlib Require Import Ascii.
From S2P Require Import Prelude RustStr.
#[local] Open Scope stdpp_scope.

(** The second bytes allowed after a lead byte of a three or four byte sequence. *)
Definition second_of_three (b c : ascii) : bool :=
  if bool_decide (byte_val b = 224)%N then in_range 160 191 c
  else if bool_decide (byte_val b = 237)%N then in_range 128 159 c
  else is_continuation c.
Definition second_of_four (b c : ascii) : bool :=
  if bool_decide (byte_val b = 240)%N then in_range 144 191 c
  else if bool_decide (byte_val b = 244)%N then in_range 128 143 c
  else is_continuation c.

(** The characters of a byte string, from the end: [good] takes the bytes of a
    character, [bad] stands for a maximal ill-formed sequence. *)
Fixpoint utf8_fold {A} (good : string → A → A) (bad : A → A) (nil : A) (s : string) : A :=
  let go := utf8_fold good bad nil in
  match s with
  | "" => nil
  | String b s1 =>
      if in_range 0 127 b then good (String b "") (go s1)
      else if in_range 194 223 b then
        match s1 with
        | String c s2 =>
            if is_continuation c then good (String b (String c "")) (go s2) else bad (go s1)
        | "" => bad (go s1)
        end
      else if in_range 224 239 b then
        match s1 with
        | String c s2 =>
            if second_of_three b c then
              match s2 with
              | String d s3 =>
                  if is_continuation d then good (String b (String c (String d ""))) (go s3)
                  else bad (go s2)
              | "" => bad (go s2)
              end
            else bad (go s1)
        | "" => bad (go s1)
        end
      else if in_range 240 244 b then
        match s1 with
        | String c s2 =>
            if second_of_four b c then
              match s2 with
              | String d s3 =>
                  if is_continuation d then
                    match s3 with
                    | String e s4 =>
                        if is_continuation e
                        then good (String b (String c (String d (String e "")))) (go s4)
                        else bad (go s3)
                    | "" => bad (go s3)
                    end
                  else bad (go s2)
              | "" => bad (go s2)
              end
            else bad (go s1)
        | "" => bad (go s1)
        end
      else bad (go s1)
  end.

(** U+FFFD *)
Definition REPLACEMENT : string := bytes [239; 191; 189]%N.

Definition from_utf8_lossy (s : string) : string :=
  utf8_fold (λ c r, c +:+ r) (λ r, REPLACEMENT +:+ r) "" s.

Definition is_utf8 (s : string) : bool := utf8_fold (λ _ r, r) (λ _, false) true s.

(** [std::str::from_utf8] *)
Definition from_utf8 (s : string) : option string := if is_utf8 s then Some s else None.

(** Induction over the characters of a byte string. *)
Lemma utf8_fold_ind {A} (good : string → A → A) (bad : A → A) (nil : A) (P : string → A → Prop) :
  P "" nil →
  (∀ c s a, c ≠ "" → P s a → P (c +:+ s) (good c a)) →
  (∀ c s a, c ≠ "" → String.length c ≤ 3 → P s a → P (c +:+ s) (bad a)) →
  ∀ s, P s (utf8_fold good bad nil s).
Proof.
  intros Hnil Hgood Hbad s. remember (String.length s) as n eqn:Hn.
  assert (String.length s ≤ n) as Hle by lia. clear Hn. revert s Hle.
  induction n as [|n IH]; intros s Hle; destruct s as [|b s1]; simpl in Hle; try done; [lia|].
  assert (∀ t, String.length t ≤ n → P t (utf8_fold good bad nil t)) as Hgo by auto. clear IH.
  cbn [utf8_fold]. repeat case_match; subst; simpl in Hle;
    lazymatch goal with
    | |- P _ (good ?c (utf8_fold _ _ _ ?t)) => apply (Hgood c t); [done|apply Hgo; simpl; lia]
    | |- P (String ?x ?t) (bad (utf8_fold _ _ _ ?t)) =>
        apply (Hbad (String x "") t); [done|simpl; lia|apply Hgo; simpl; lia]
    | |- P (String ?x (String ?y ?t)) (bad (utf8_fold _ _ _ ?t)) =>
        apply (Hbad (String x (String y "")) t); [done|simpl; lia|apply Hgo; simpl; lia]
    | |- P (String ?x (String ?y (String ?z ?t))) (bad (utf8_fold _ _ _ ?t)) =>
        apply (Hbad (String x (String y (String z ""))) t); [done|simpl; lia|apply Hgo; simpl; lia]
    end.
Qed.

(** Decoding at most triples the length. *)
Lemma from_utf8_lossy_length s : String.length (from_utf8_lossy s) ≤ 3 * String.length s.
Proof.
  unfold from_utf8_lossy. apply (utf8_fold_ind _ _ _ (λ s r, String.length r ≤ 3 * String.length s)).
  - done.
  - intros c t a _ Ha. rewrite !length_string_app. lia.
  - intros [|x c] t a Hc _ Ha; [done|]. rewrite !length_string_app. simpl. lia.
Qed.

(** Two folds at once. *)
Lemma utf8_fold_pair {A B} (g1 : string → A → A) b1 n1 (g2 : string → B → B) b2 n2 s :
  utf8_fold (λ c r, (g1 c r.1, g2 c r.2)) (λ r, (b1 r.1, b2 r.2)) (n1, n2) s
  = (utf8_fold g1 b1 n1 s, utf8_fold g2 b2 n2 s).
Proof.
  assert (∀ n s, String.length s ≤ n →
    utf8_fold (λ c r, (g1 c r.1, g2 c r.2)) (λ r, (b1 r.1, b2 r.2)) (n1, n2) s
    = (utf8_fold g1 b1 n1 s, utf8_fold g2 b2 n2 s)) as H by
  (clear s; intros n; induction n as [|n IH]; intros [|b s1] Hle; simpl in Hle; try done; try lia;
   cbn [utf8_fold]; repeat case_match; subst; simpl in Hle;
   rewrite ?IH by (simpl; lia); reflexivity).
  by apply (H (String.length s)).
Qed.

(** Text is left as it is. *)
Lemma from_utf8_lossy_valid s : is_utf8 s = true → from_utf8_lossy s = s.
Proof.
  pose proof (utf8_fold_pair (λ _ r, r) (λ _, false) true (λ c r, c +:+ r) (λ r, REPLACEMENT +:+ r) "" s) as Hp.
  assert (∀ s, let r := utf8_fold (λ c (r : bool * string), (r.1, c +:+ r.2)) (λ r, (false, REPLACEMENT +:+ r.2)) (true, "") s in
    r.1 = true → r.2 = s) as Hind.
  { clear s Hp. intros s'. apply (utf8_fold_ind _ _ _ (λ s (r : bool * string), r.1 = true → r.2 = s)); [done| |done].
    intros c t r _ IH Hr. simpl in *. by rewrite IH. }
  specialize (Hind s). rewrite Hp in Hind. exact Hind.
Qed.

Example lossy_example :
  from_utf8_lossy (bytes [97; 240; 159; 146; 128; 255; 195; 169; 226; 130]%N)
  = "a" +:+ bytes [240; 159; 146; 128]%N +:+ REPLACEMENT +:+ bytes [195; 169]%N +:+ REPLACEMENT.
Proof. vm_compute. reflexivity. Qed.
