(* ===== verification/Constants.v ===== *)
(** Timing and size constants: [constants.rs].

    Durations are nanoseconds; sizes are [nat] or [N]. *)

From S2P Require Import Prelude.

Definition from_millis (ms : N) : N := (ms * 1000000)%N.
Definition from_secs (s : N) : N := (s * 1000000000)%N.

Definition BOOT_FG_SETTLE : N := from_secs 120.
Definition BOOT_BG_SETTLE : N := from_secs 60.
Definition DEP_WAIT : N := from_secs 120.
Definition DAEMONIZE_GRACE : N := from_millis 300.
Definition CTL_POLL : N := from_millis 200.
Definition STOP_GRACE_SECS : N := 5.
Definition SHUTDOWN_STOP_WAIT : N := from_secs 2.
Definition SHUTDOWN_QUIT_WAIT : N := from_secs 1.
Definition INIT_LOOP_SLEEP : N := from_millis 200.
Definition GETTY_RESPAWN_DELAY : N := from_secs 1.
Definition MAX_IPC_FRAME_BYTES : N := 16 * 1024 * 1024.
Definition MAX_IPC_CLIENTS : nat := 32.
Definition MAX_EXIT_REGISTRY_ENTRIES : nat := Nat.pow 2 12.
Definition MAX_LOG_FOLLOWERS : nat := 16.
Definition MAX_WATCH_FOLLOWERS : nat := 8.
Definition WATCH_HEARTBEAT : N := from_secs 10.
Definition TERMINATE_POLL : N := from_millis 100.
Definition CHILD_WAIT_POLL : N := from_millis 50.
Definition REAP_AFTER_KILL : N := from_millis 500.
Definition CHILD_WAIT_SLICE : N := from_secs 60.
Definition EVENT_RING_CAP : nat := 16.
Definition EVENT_RETURN : nat := EVENT_RING_CAP.
Definition MAX_EARLY_BOOT_CAPTURE_LINES : N := 2000.
Definition MAX_EARLY_BOOT_CAPTURE_BYTES : N := 256 * 1024.
Definition MAX_EARLY_BOOT_LINE_BYTES : N := 4096.

(** [std::time::Instant] on Linux holds seconds as an [i64]: adding a duration
    beyond it panics. *)
Definition INSTANT_MAX : N := from_secs (2 ^ 63 - 1) + 999999999.

Lemma ctl_poll_pos : (0 < CTL_POLL)%N.
Proof. reflexivity. Qed.
#[export] Hint Resolve ctl_poll_pos : microinit.
