(* ===== verification/Error.v ===== *)
(** Error values: [error.rs], with their [Display] text and IPC codes. *)

From S2P Require Import Prelude.
#[local] Open Scope stdpp_scope.

(** [std::io::Error], as its kind and its [Display] text. *)
Inductive io_kind := NotFound | Interrupted | OtherIo.
Record io_error := mkIoError { io_kind_of : io_kind; io_msg : string }.

#[export] Instance io_kind_eq_dec : EqDecision io_kind.
Proof. solve_decision. Defined.
#[export] Instance io_error_eq_dec : EqDecision io_error.
Proof. solve_decision. Defined.

Module Error.
(** [enum Error]; foreign error values are kept as their [Display] text. *)
Inductive t :=
  | Io (source : io_error)
  | IoPath (path : string) (source : io_error)
  | Json (source : string)
  | Config (msg : string)
  | Service (name msg : string)
  | Cycle (name : string)
  | UnknownService (name : string)
  | Disabled (name : string)
  | EarlyBoot (code : Z)
  | Unmount (code : Z)
  | Ipc (msg : string)
  | Busy (msg : string)
  | Nix (source : string)
  | Security (msg : string)
  | Other (msg : string).

#[global] Instance eq_dec : EqDecision t.
Proof. solve_decision. Defined.

(** [Display]: the [#[error(...)]] attributes. *)
Definition to_string (e : t) : string :=
  match e with
  | Io e => "I/O error: " +:+ io_msg e
  | IoPath path e => "I/O error on " +:+ path +:+ ": " +:+ io_msg e
  | Json e => "JSON error: " +:+ e
  | Config m => "config: " +:+ m
  | Service n m => "service '" +:+ n +:+ "': " +:+ m
  | Cycle n => "dependency cycle involving '" +:+ n +:+ "'"
  | UnknownService n => "unknown service '" +:+ n +:+ "'"
  | Disabled n => "service '" +:+ n +:+ "' is disabled"
  | EarlyBoot c => "early-boot failed with exit code " +:+ pretty c
  | Unmount c => "unmount script failed with exit code " +:+ pretty c
  | Ipc m => "IPC error: " +:+ m
  | Busy m => m
  | Nix e => "nix error: " +:+ e
  | Security m => "security: " +:+ m
  | Other m => m
  end.

Definition io_at (path : string) (source : io_error) : t := IoPath path source.

(** [Error::code] *)
Definition code (e : t) : option string :=
  match e with
  | UnknownService _ => Some "not_found"
  | Disabled _ => Some "disabled"
  | Cycle _ => Some "cycle"
  | Busy _ => Some "busy"
  | _ => None
  end.
End Error.

(** [error::Result] *)
Abbreviation Result A := (result A Error.t).
