(* ===== verification/Labels.v ===== *)
(** Label selectors: [labels.rs]. *)

From Stdlib Require Import Ascii.
From S2P Require Import Prelude BTree RustStr Error.
#[local] Open Scope stdpp_scope.

Definition equals_sign : ascii := ascii_of_N 61.

Section selectors.
(** The [Debug] rendering of a string ([{s:?}]). *)
Context (fmt_debug : string → string).

(** [parse_selector] *)
Definition parse_selector (s : string) : Result (string * string) :=
  match split_once equals_sign s with
  | None => Err (Error.Config ("invalid label selector " +:+ fmt_debug s +:+ ": want key=value"))
  | Some (key, value) =>
      if decide (key = "" ∨ value = "") then
        Err (Error.Config ("invalid label selector " +:+ fmt_debug s
                           +:+ ": key and value must be non-empty"))
      else if contains_char equals_sign key then
        Err (Error.Config ("invalid label selector " +:+ fmt_debug s +:+ ": want key=value"))
      else Ok (key, value)
  end.
End selectors.

(** [matches_selectors]: conjunction of the selectors. *)
Definition matches_selectors (labels : gmap string string) (want : list (string * string)) : bool :=
  forallb (λ '(k, v), match labels !! k with Some have => bool_decide (have = v) | None => false end)
    want.

(** [has_keys]: presence, any value. *)
Definition has_keys (labels : gmap string string) (keys : list string) : bool :=
  forallb (λ k, bool_decide (is_Some (labels !! k))) keys.

(** [format_labels]: [k=v,k=v] in key order. *)
Definition format_labels (labels : gmap string string) : string :=
  join "," ((λ '(k, v), k +:+ "=" +:+ v) <$> bmap_iter labels).

Lemma matches_selectors_spec labels want :
  matches_selectors labels want = true ↔ ∀ k v, (k, v) ∈ want → labels !! k = Some v.
Proof.
  unfold matches_selectors. rewrite forallb_forall. split.
  - intros Hall k v Hin%list_elem_of_In. specialize (Hall _ Hin). simpl in Hall.
    destruct (labels !! k); [|done]. by apply bool_decide_eq_true in Hall as ->.
  - intros Hall [k v] Hin%list_elem_of_In. rewrite (Hall _ _ Hin). by apply bool_decide_eq_true.
Qed.

Lemma has_keys_spec labels keys :
  has_keys labels keys = true ↔ ∀ k, k ∈ keys → is_Some (labels !! k).
Proof.
  unfold has_keys. rewrite forallb_forall. split.
  - intros Hall k Hin%list_elem_of_In. by apply Hall, bool_decide_eq_true in Hin.
  - intros Hall k Hin%list_elem_of_In. by apply bool_decide_eq_true, Hall.
Qed.

(** A label selector parses to the key and value around its first [=], both
    non-empty, and nothing else parses.  A value may itself contain [=]. *)
Theorem parse_selector_spec fmt_debug s k v :
  parse_selector fmt_debug s = Ok (k, v) ↔
  s = k +:+ "=" +:+ v ∧ k ≠ "" ∧ v ≠ "" ∧ contains_char equals_sign k = false.
Proof.
  unfold parse_selector. destruct (split_once equals_sign s) as [[k' v']|] eqn:Hs.
  - apply split_once_Some in Hs as [Hs Hk].
    assert (s = k +:+ "=" +:+ v → contains_char equals_sign k = false → k = k' ∧ v = v') as Huniq.
    { intros -> Hkk. assert (split_once equals_sign (k +:+ "=" +:+ v) = Some (k, v)) as H1.
      { apply split_once_Some. by split. }
      assert (split_once equals_sign (k +:+ "=" +:+ v) = Some (k', v')) as H2.
      { apply split_once_Some. by split. }
      rewrite H1 in H2. by simplify_eq. }
    case_decide as He; [split; [done|]; intros (Heq & ? & ? & Hkk); destruct (Huniq Heq Hkk); naive_solver|].
    rewrite Hk. split; [|naive_solver]. intros [= <- <-]. naive_solver.
  - split; [done|]. intros (-> & _ & _ & Hk).
    assert (split_once equals_sign (k +:+ "=" +:+ v) = Some (k, v)) as H1; [|congruence].
    apply split_once_Some. by split.
Qed.

(** The value may contain the separator, although the documentation of
    [parse_selector] asks for exactly one. *)
Lemma parse_selector_two_separators fmt_debug :
  parse_selector fmt_debug "a=b=c" = Ok ("a", "b=c").
Proof. reflexivity. Qed.
