(* ===== verification/Security.v ===== *)
(** Privilege drop and capabilities of supervised services: [security.rs]
    (Linux builds), with the [SecurityContext] of [config.rs].

    System calls are the letters of a trace; the kernel is a parameter that
    answers each call from the calls made before it. *)

From S2P Require Import Prelude RustStr Error BTree.
#[local] Open Scope stdpp_scope.

(** ** Capability table *)

Definition CAP_TABLE : list (string * N) := [
  ("CHOWN", 0); ("DAC_OVERRIDE", 1); ("DAC_READ_SEARCH", 2); ("FOWNER", 3); ("FSETID", 4);
  ("KILL", 5); ("SETGID", 6); ("SETUID", 7); ("SETPCAP", 8); ("LINUX_IMMUTABLE", 9);
  ("NET_BIND_SERVICE", 10); ("NET_BROADCAST", 11); ("NET_ADMIN", 12); ("NET_RAW", 13);
  ("IPC_LOCK", 14); ("IPC_OWNER", 15); ("SYS_MODULE", 16); ("SYS_RAWIO", 17);
  ("SYS_CHROOT", 18); ("SYS_PTRACE", 19); ("SYS_PACCT", 20); ("SYS_ADMIN", 21);
  ("SYS_BOOT", 22); ("SYS_NICE", 23); ("SYS_RESOURCE", 24); ("SYS_TIME", 25);
  ("SYS_TTY_CONFIG", 26); ("MKNOD", 27); ("LEASE", 28); ("AUDIT_WRITE", 29);
  ("AUDIT_CONTROL", 30); ("SETFCAP", 31); ("MAC_OVERRIDE", 32); ("MAC_ADMIN", 33);
  ("SYSLOG", 34); ("WAKE_ALARM", 35); ("BLOCK_SUSPEND", 36); ("AUDIT_READ", 37);
  ("PERFMON", 38); ("BPF", 39); ("CHECKPOINT_RESTORE", 40)]%N.

Definition CAP_LAST : N := 40.

Definition KNOWN_CAPABILITIES : list string := [
  "AUDIT_CONTROL"; "AUDIT_READ"; "AUDIT_WRITE"; "BLOCK_SUSPEND"; "BPF"; "CHECKPOINT_RESTORE";
  "CHOWN"; "DAC_OVERRIDE"; "DAC_READ_SEARCH"; "FOWNER"; "FSETID"; "IPC_LOCK"; "IPC_OWNER";
  "KILL"; "LEASE"; "LINUX_IMMUTABLE"; "MAC_ADMIN"; "MAC_OVERRIDE"; "MKNOD"; "NET_ADMIN";
  "NET_BIND_SERVICE"; "NET_BROADCAST"; "NET_RAW"; "PERFMON"; "SETFCAP"; "SETGID"; "SETPCAP";
  "SETUID"; "SYS_ADMIN"; "SYS_BOOT"; "SYS_CHROOT"; "SYSLOG"; "SYS_MODULE"; "SYS_NICE";
  "SYS_PACCT"; "SYS_PTRACE"; "SYS_RAWIO"; "SYS_RESOURCE"; "SYS_TIME"; "SYS_TTY_CONFIG";
  "WAKE_ALARM"].

Definition normalize_cap_name (raw : string) : string :=
  let s := trim raw in
  let s := match strip_prefix "CAP_" s with
           | Some r => r
           | None => match strip_prefix "cap_" s with Some r => r | None => s end
           end in
  to_ascii_uppercase s.

Definition validate_cap_name (raw : string) : Result unit :=
  let n := normalize_cap_name raw in
  if decide (n = "") then Err (Error.Config "empty capability name")
  else if negb (existsb (λ '(name, _), bool_decide (name = n)) CAP_TABLE) then
    Err (Error.Config ("unknown capability '" +:+ raw +:+ "'"))
  else Ok tt.

Definition cap_number (normalized : string) : Result N :=
  match find_first (λ '(name, _), bool_decide (name = normalized)) CAP_TABLE with
  | Some (_, n) => Ok n
  | None => Err (Error.Security ("unknown capability '" +:+ normalized +:+ "'"))
  end.

(** ** Identities *)

(** [config.rs]: [SecurityContext]. *)
Record SecurityContext := mkSecurityContext {
  run_as_user : option string;
  run_as_group : option string;
  capabilities : list string;
}.

Record ResolvedIdentity := mkResolvedIdentity {
  ri_uid : option N;
  ri_gid : option N;
  ri_caps : list N;
  ri_home : option string;
  ri_username : option string;
  ri_named_user : bool;
}.

#[export] Instance SecurityContext_eq_dec : EqDecision SecurityContext.
Proof. solve_decision. Defined.
#[export] Instance ResolvedIdentity_eq_dec : EqDecision ResolvedIdentity.
Proof. solve_decision. Defined.

(** The name service (passwd and group databases) and the process's own ids. *)
Record passwd := mkPasswd { pw_name : string; pw_uid : N; pw_gid : N; pw_dir : string }.
Record group := mkGroup { gr_name : string; gr_gid : N }.
Class Nss := {
  user_from_name : string → result (option passwd) string;
  user_from_uid : N → result (option passwd) string;
  group_from_name : string → result (option group) string;
  group_from_gid : N → result (option group) string;
  current_uid : N;
  current_gid : N;
}.

Definition is_noop (i : ResolvedIdentity) : bool :=
  bool_decide (ri_uid i = None) && bool_decide (ri_gid i = None) && bool_decide (ri_caps i = []).

Definition drops_identity (i : ResolvedIdentity) : bool :=
  bool_decide (is_Some (ri_uid i)) || bool_decide (is_Some (ri_gid i)).

(** [sort_unstable] then [dedup]. *)
Definition sort_dedup (l : list N) : list N := dedup (merge_sort N.le l).

Definition non_blank (o : option string) : bool :=
  match o with Some s => negb (bool_decide (trim s = "")) | None => false end.

Section identity.
Context `{Nss}.

Definition already_current_without_caps (i : ResolvedIdentity) : bool :=
  if negb (bool_decide (ri_caps i = [])) then false
  else
    let uid_ok := match ri_uid i with None => true | Some u => bool_decide (u = current_uid) end in
    let gid_ok := match ri_gid i with None => true | Some g => bool_decide (g = current_gid) end in
    uid_ok && gid_ok.

(** The [runAsUser] part of [resolve]: uid, primary gid, home, user name and
    whether the user was given by name. *)
Definition resolve_user (has_group : bool) (user_spec : string) :
    Result (option N * option N * option string * option string * bool) :=
  let spec := trim user_spec in
  if decide (spec = "") then Err (Error.Security "runAsUser is empty")
  else match parse_uint u32_max spec with
  | Some n =>
      match user_from_uid n with
      | Ok (Some u) => Ok (Some n, Some (pw_gid u), Some (pw_dir u), Some (pw_name u), false)
      | _ =>
          if has_group then Ok (Some n, None, None, None, false)
          else Err (Error.Security ("runAsUser '" +:+ spec
                 +:+ "' has no passwd entry; set runAsGroup explicitly"))
      end
  | None =>
      match user_from_name spec with
      | Err e => Err (Error.Security ("lookup user '" +:+ spec +:+ "': " +:+ e))
      | Ok None => Err (Error.Security ("unknown user '" +:+ spec +:+ "'"))
      | Ok (Some u) =>
          Ok (Some (pw_uid u), Some (pw_gid u), Some (pw_dir u), Some (pw_name u), true)
      end
  end.

(** The [runAsGroup] part of [resolve]. *)
Definition resolve_group (group_spec : string) : Result N :=
  let spec := trim group_spec in
  if decide (spec = "") then Err (Error.Security "runAsGroup is empty")
  else match parse_uint u32_max spec with
  | Some n => Ok n
  | None =>
      match group_from_name spec with
      | Err e => Err (Error.Security ("lookup group '" +:+ spec +:+ "': " +:+ e))
      | Ok None => Err (Error.Security ("unknown group '" +:+ spec +:+ "'"))
      | Ok (Some g) => Ok (gr_gid g)
      end
  end.

Definition resolve_caps (raws : list string) : Result (list N) :=
  let? caps := try_fold (λ acc raw,
      let? n := cap_number (normalize_cap_name raw) in Ok (acc ++ [n])) [] raws in
  Ok (sort_dedup caps).

Definition resolve (ctx : SecurityContext) : Result (option ResolvedIdentity) :=
  let has_user := non_blank (run_as_user ctx) in
  let has_group := non_blank (run_as_group ctx) in
  if negb has_user && negb has_group && bool_decide (capabilities ctx = []) then Ok None
  else
    let? '(uid, primary_gid, home, username, named_user) :=
      match run_as_user ctx with
      | Some user_spec => resolve_user has_group user_spec
      | None => Ok (None, None, None, None, false)
      end in
    let? gid :=
      match run_as_group ctx with
      | Some group_spec => let? g := resolve_group group_spec in Ok (Some g)
      | None => Ok primary_gid
      end in
    let? caps := resolve_caps (capabilities ctx) in
    let ident := mkResolvedIdentity uid gid caps home username named_user in
    if is_noop ident then Ok None else Ok (Some ident).
End identity.

(** ** System calls of the child between fork and exec *)

Inductive syscall :=
  | SetKeepCaps
  | CapBsetDrop (cap : N)
  | InitGroups (user : string) (gid : N)
  | SetGroupsEmpty
  | SetGid (gid : N)
  | SetUid (uid : N)
  | CapSet (low high : N)
  | AmbientClearAll
  | AmbientRaise (cap : N)
  | SetNoNewPrivs.

#[export] Instance syscall_eq_dec : EqDecision syscall.
Proof. solve_decision. Defined.

(** The kernel's answer to a call, given the calls before it: [Some] text is
    the error. *)
Class Kernel := kernel : list syscall → syscall → option string.

(** A computation that appends to the trace and may fail. *)
Definition sys (A : Type) : Type := list syscall → Result A * list syscall.

#[export] Instance sys_ret : MRet sys := λ A a tr, (Ok a, tr).
#[export] Instance sys_bind : MBind sys := λ A B f m tr,
  match m tr with (Ok a, tr') => f a tr' | (Err e, tr') => (Err e, tr') end.
Definition sys_err {A} (e : Error.t) : sys A := λ tr, (Err e, tr).

Section apply.
Context `{Nss, Kernel}.

(** A call whose failure leaves the function. *)
Definition must (c : syscall) (describe : string → string) : sys unit := λ tr,
  (match kernel tr c with
   | None => Ok tt
   | Some e => Err (Error.Security (describe e))
   end, tr ++ [c]).

(** A call whose failure is ignored ([let _ = ...]). *)
Definition best_effort (c : syscall) : sys unit := λ tr, (Ok tt, tr ++ [c]).

Fixpoint for_each {A} (l : list A) (body : A → sys unit) : sys unit :=
  match l with
  | [] => mret tt
  | a :: l => body a ≫= λ _, for_each l body
  end.

(** [0..=CAP_LAST] *)
Definition all_caps : list N := N.of_nat <$> seq 0 (S (N.to_nat CAP_LAST)).

Definition drop_bounding_set (keep : list N) : sys unit :=
  for_each all_caps (λ cap,
    if decide (cap ∈ keep) then mret tt else best_effort (CapBsetDrop cap)).

Definition apply_groups (i : ResolvedIdentity) : sys unit :=
  if ri_named_user i then
    match ri_username i, ri_gid i with
    | Some name, Some gid =>
        if contains_char (Ascii.ascii_of_N 0) name then
          sys_err (Error.Security ("username '" +:+ name +:+ "' contains NUL"))
        else must (InitGroups name gid) (λ e,
          "initgroups(" +:+ name +:+ ", " +:+ pretty gid +:+ "): " +:+ e
          +:+ " (required when runAsUser/runAsGroup is set)")
    | _, _ => sys_err (Error.Security
        "named_user set but username/gid missing (invariant violated)")
    end
  else must SetGroupsEmpty (λ e,
    "setgroups: " +:+ e +:+ " (required when runAsUser/runAsGroup is set)").

(** The two 32-bit capability words; [None]: number out of range. *)
Definition cap_words_step (acc : N * N) (c : N) : Result (N * N) :=
  let '(low, high) := acc in
  if decide (c < 32)%N then Ok (N.lor low (N.shiftl 1 c), high)
  else if decide (c < 64)%N then Ok (low, N.lor high (N.shiftl 1 (c - 32)))
  else Err (Error.Security ("capability number " +:+ pretty c +:+ " out of range")).
Definition cap_words (caps : list N) : Result (N * N) := try_fold cap_words_step (0%N, 0%N) caps.

Definition set_capabilities (caps : list N) : sys unit :=
  match cap_words caps with
  | Err e => sys_err e
  | Ok (low, high) =>
      must (CapSet low high) (λ e, "capset: " +:+ e) ≫= λ _,
      must AmbientClearAll (λ e, "PR_CAP_AMBIENT_CLEAR_ALL: " +:+ e) ≫= λ _,
      for_each caps (λ c,
        must (AmbientRaise c) (λ e, "PR_CAP_AMBIENT_RAISE(" +:+ pretty c +:+ "): " +:+ e))
  end.

Definition apply_pre_exec (i : ResolvedIdentity) : sys unit :=
  if is_noop i || already_current_without_caps i then mret tt
  else
    let want_caps := negb (bool_decide (ri_caps i = [])) in
    let drop_id := drops_identity i in
    (if want_caps then must SetKeepCaps (λ e, "PR_SET_KEEPCAPS: " +:+ e) else mret tt) ≫= λ _,
    drop_bounding_set (ri_caps i) ≫= λ _,
    (if drop_id then apply_groups i else mret tt) ≫= λ _,
    (match ri_gid i with
     | Some gid => must (SetGid gid) (λ e, "setgid(" +:+ pretty gid +:+ "): " +:+ e)
     | None => mret tt
     end) ≫= λ _,
    (match ri_uid i with
     | Some uid => must (SetUid uid) (λ e, "setuid(" +:+ pretty uid +:+ "): " +:+ e)
     | None => mret tt
     end) ≫= λ _,
    (if want_caps || drop_id then set_capabilities (ri_caps i) else mret tt) ≫= λ _,
    must SetNoNewPrivs (λ e, "PR_SET_NO_NEW_PRIVS: " +:+ e).

(** The hook installed on the command, if any; its error reaches the parent
    as text. *)
Definition attach_pre_exec (i : ResolvedIdentity) : option (list syscall → result unit string * list syscall) :=
  if is_noop i || already_current_without_caps i then None
  else Some (λ tr, let '(r, tr') := apply_pre_exec i tr in (map_err Error.to_string r, tr')).
End apply.

(** ** Capability lemmas *)

Lemma cap_table_NoDup : NoDup CAP_TABLE.*1 ∧ NoDup CAP_TABLE.*2.
Proof. split; by_compute. Qed.

Lemma cap_number_Ok n k : cap_number n = Ok k ↔ (n, k) ∈ CAP_TABLE.
Proof.
  unfold cap_number. split.
  - destruct (find_first _ CAP_TABLE) as [[m j]|] eqn:Hf; [|done]. intros [= <-].
    apply find_first_Some in Hf as [Hin ->%bool_decide_eq_true]. done.
  - intros Hin. destruct (find_first _ CAP_TABLE) as [[m j]|] eqn:Hf.
    + apply find_first_Some in Hf as [Hin' ->%bool_decide_eq_true]. f_equal.
      apply list_elem_of_lookup in Hin as [i Hi], Hin' as [i' Hi'].
      assert (i = i') as ->; [|congruence].
      eapply (NoDup_lookup CAP_TABLE.*1); [apply cap_table_NoDup|..]; rewrite list_lookup_fmap;
        [by rewrite Hi|by rewrite Hi'].
    + rewrite find_first_None in Hf. specialize (Hf _ Hin). simpl in Hf.
      by rewrite bool_decide_true in Hf.
Qed.

Lemma validate_cap_name_ok raw :
  validate_cap_name raw = Ok tt ↔ normalize_cap_name raw ∈ CAP_TABLE.*1.
Proof.
  unfold validate_cap_name. set (n := normalize_cap_name raw).
  assert (existsb (λ '(name, _), bool_decide (name = n)) CAP_TABLE = true ↔ n ∈ CAP_TABLE.*1) as Hex.
  { rewrite existsb_exists, list_elem_of_fmap. split.
    - intros ([name k] & Hin%list_elem_of_In & Heq%bool_decide_eq_true). by exists (name, k).
    - intros ([name k] & -> & Hin%list_elem_of_In). exists (name, k). by rewrite bool_decide_true. }
  case_decide as He.
  - split; [done|]. rewrite He. intros Hin. exfalso. revert Hin. apply (bool_decide_unpack _). by vm_compute.
  - destruct (existsb _ _); simpl; naive_solver.
Qed.

Lemma cap_table_bound n k : (n, k) ∈ CAP_TABLE → (k ≤ CAP_LAST)%N.
Proof.
  assert (Forall (λ nk, nk.2 ≤ CAP_LAST)%N CAP_TABLE) as Hall by by_compute.
  rewrite Forall_forall in Hall. apply Hall.
Qed.

Lemma cap_number_bound n k : cap_number n = Ok k → (k ≤ CAP_LAST)%N.
Proof. intros Hin%cap_number_Ok. by eapply cap_table_bound. Qed.

Lemma dedup_sorted l : StronglySorted N.le l → StronglySorted N.lt (dedup l).
Proof.
  induction 1 as [|y l Hs IH Hall]; [constructor|]. destruct l as [|z l]; [repeat constructor|].
  rewrite dedup_cons_cons.
  case_decide as Hyz; [done|]. constructor; [done|].
  rewrite Forall_forall. intros x Hx. rewrite elem_of_dedup in Hx. rewrite Forall_forall in Hall.
  apply StronglySorted_inv in Hs as [_ Hz]. rewrite Forall_forall in Hz.
  assert (y ≤ z)%N by (apply Hall; set_solver).
  apply elem_of_cons in Hx as [->|Hx]; [lia|]. specialize (Hz x Hx). lia.
Qed.

Lemma sort_dedup_spec l :
  StronglySorted N.lt (sort_dedup l) ∧ ∀ x, x ∈ sort_dedup l ↔ x ∈ l.
Proof.
  unfold sort_dedup. split.
  - apply dedup_sorted, StronglySorted_merge_sort; apply _.
  - intros x. by rewrite elem_of_dedup, merge_sort_Permutation.
Qed.

Lemma resolve_caps_Ok raws caps :
  resolve_caps raws = Ok caps →
  StronglySorted N.lt caps ∧
  ∀ k, k ∈ caps ↔ ∃ raw, raw ∈ raws ∧ (normalize_cap_name raw, k) ∈ CAP_TABLE.
Proof.
  unfold resolve_caps. destruct (try_fold _ [] raws) as [ks|] eqn:Hf; [|done]. intros [= <-].
  apply (try_fold_collect (λ raw, cap_number (normalize_cap_name raw))) in Hf as (bs & -> & Hbs).
  destruct (sort_dedup_spec ([] ++ bs)) as [Hs Hin]. split; [done|]. intros k. rewrite Hin. simpl.
  split.
  - intros [i Hi]%list_elem_of_lookup. destruct (Forall2_lookup_r _ _ _ _ _ Hbs Hi) as (raw & Hr & Hk).
    exists raw. split; [by eapply list_elem_of_lookup_2|by apply cap_number_Ok].
  - intros (raw & [i Hi]%list_elem_of_lookup & Hk%cap_number_Ok).
    destruct (Forall2_lookup_l _ _ _ _ _ Hbs Hi) as (k' & Hk' & Heq).
    rewrite Hk in Heq. injection Heq as ->. by eapply list_elem_of_lookup_2.
Qed.

(** ** Capability words *)

Lemma cap_words_inv caps :
  (∀ c, c ∈ caps → (c < 64)%N) →
  ∃ low high, cap_words caps = Ok (low, high) ∧
    ∀ b, (b < 32)%N →
      (N.testbit low b = true ↔ b ∈ caps) ∧ (N.testbit high b = true ↔ (b + 32)%N ∈ caps).
Proof.
  induction caps as [|c caps IH] using rev_ind; intros Hb.
  { exists 0%N, 0%N. split; [done|]. intros b _. by rewrite !N.bits_0, !elem_of_nil. }
  destruct IH as (low & high & Hw & Hbits); [intros; apply Hb; set_solver|].
  assert (c < 64)%N as Hc by (apply Hb; set_solver).
  unfold cap_words in *. rewrite try_fold_app, Hw. simpl.
  assert (∀ x j b, N.testbit (N.lor x (N.shiftl 1 j)) b = true ↔ N.testbit x b = true ∨ b = j) as Hor.
  { intros x j b. rewrite N.lor_spec, N.shiftl_1_l, N.pow2_bits_eqb, orb_true_iff, N.eqb_eq. naive_solver. }
  case_decide as H32; [|rewrite decide_True by done]; do 2 eexists; (split; [done|]);
    intros b Hlt; rewrite Hor, !elem_of_app, !list_elem_of_singleton;
    destruct (Hbits b Hlt) as [-> ->].
  - split; [done|]. split; [tauto|]. intros [?|?]; [done|lia].
  - assert (b = c - 32 ↔ b + 32 = c)%N as -> by lia. split; [|done].
    split; [tauto|]. intros [?|?]; [done|lia].
Qed.

(** The two words passed to [capset] hold exactly the requested capabilities:
    bit [b] of the low word stands for capability [b], bit [b] of the high word
    for capability [b + 32]; a number of 64 or more is refused. *)
Theorem cap_words_spec caps :
  match cap_words caps with
  | Ok (low, high) =>
      ∀ b, (b < 32)%N →
        (N.testbit low b = true ↔ b ∈ caps) ∧ (N.testbit high b = true ↔ (b + 32)%N ∈ caps)
  | Err _ => ∃ c, c ∈ caps ∧ (64 ≤ c)%N
  end.
Proof.
  destruct (decide (Forall (λ c, c < 64)%N caps)) as [Hall|Hno].
  - rewrite Forall_forall in Hall. destruct (cap_words_inv caps Hall) as (low & high & -> & Hbits).
    exact Hbits.
  - destruct (cap_words caps) as [[low high]|e] eqn:Hw.
    + exfalso. apply Hno. apply Forall_forall. intros c (l1 & l2 & ->)%list_elem_of_split.
      unfold cap_words in Hw. rewrite try_fold_app in Hw. destruct (try_fold _ _ l1) as [[x y]|]; [|done].
      simpl in Hw. repeat case_decide; try done; lia.
    + apply not_Forall_Exists, Exists_exists in Hno as (c & Hc & Hlt); [|apply _].
      exists c. split; [done|]. simpl in Hlt. lia.
Qed.

(** ** Identities that [resolve] produces *)

(** What the later steps rely on: a user given by name comes with its name and
    a group, a user never comes without a group, and the capability numbers are
    in range, ascending and distinct. *)
Definition wf_identity (i : ResolvedIdentity) : Prop :=
  (ri_named_user i = true → ∃ name, ri_username i = Some name ∧
     contains_char (Ascii.ascii_of_N 0) name = false) ∧
  (is_Some (ri_uid i) → is_Some (ri_gid i)) ∧
  (ri_named_user i = true → is_Some (ri_uid i)) ∧
  StronglySorted N.lt (ri_caps i) ∧ ∀ k, k ∈ ri_caps i → (k ≤ CAP_LAST)%N.

Lemma resolve_user_Ok `{Nss} has_group spec uid gid home name named :
  resolve_user has_group spec = Ok (uid, gid, home, name, named) →
  is_Some uid ∧ (is_Some gid ∨ has_group = true) ∧
  (named = true → ∃ u, user_from_name (trim spec) = Ok (Some u) ∧ name = Some (pw_name u) ∧
                       uid = Some (pw_uid u) ∧ gid = Some (pw_gid u)).
Proof.
  unfold resolve_user. case_decide; [done|].
  destruct (parse_uint u32_max (trim spec)) as [n|].
  - destruct (user_from_uid n) as [[u|]|]; [|destruct has_group; [|done]..];
      intros [= <- <- <- <- <-]; naive_solver.
  - destruct (user_from_name (trim spec)) as [[u|]|] eqn:Hu; [|done..].
    intros [= <- <- <- <- <-]. naive_solver.
Qed.

Section resolve.
Context `{Nss}.
(** Account names are C strings. *)
Hypothesis nss_names : ∀ n u, user_from_name n = Ok (Some u) →
  contains_char (Ascii.ascii_of_N 0) (pw_name u) = false.

(** C30: Every identity [resolve] produces is well formed (so the "invariant
    violated" error of the privilege drop cannot occur, and a user is never
    dropped to without a group), changes something, and carries exactly the
    capabilities listed in the context. *)
Theorem resolve_wf ctx i :
  resolve ctx = Ok (Some i) →
  wf_identity i ∧ is_noop i = false ∧
  (∀ k, k ∈ ri_caps i ↔
    ∃ raw, raw ∈ capabilities ctx ∧ (normalize_cap_name raw, k) ∈ CAP_TABLE) ∧
  (run_as_user ctx = None ↔ ri_uid i = None).
Proof.
  unfold resolve. case_match; [done|].
  destruct (match run_as_user ctx with Some _ => _ | None => _ end)
    as [[[[[uid pgid] home] name] named]|] eqn:Hu; [|done].
  destruct (match run_as_group ctx with Some _ => _ | None => _ end) as [gid|] eqn:Hg; [|done].
  destruct (resolve_caps (capabilities ctx)) as [caps|] eqn:Hc; [|done].
  destruct (is_noop _) eqn:Hnoop; [done|]. intros [= <-]. apply resolve_caps_Ok in Hc as [Hs Hin].
  assert (∀ k, k ∈ caps → (k ≤ CAP_LAST)%N) as Hb.
  { intros k (raw & _ & Hk)%Hin. by eapply cap_table_bound. }
  assert (is_Some pgid ∨ non_blank (run_as_group ctx) = true ∨ uid = None) as Hgid.
  { destruct (run_as_user ctx); [|naive_solver].
    apply resolve_user_Ok in Hu as (_ & [?|?] & _); auto. }
  assert (is_Some uid → is_Some gid) as Hug.
  { intros [u ->]. destruct (run_as_group ctx) as [g|] eqn:Hgrp.
    - destruct (resolve_group g); naive_solver.
    - injection Hg as <-. destruct Hgid as [?|[Hn|?]]; [done|by unfold non_blank in Hn|done]. }
  split_and!; [split_and!|done|done|]; simpl; try done.
  - intros ->. destruct (run_as_user ctx) as [spec|]; [|done].
    apply resolve_user_Ok in Hu as (_ & _ & Hu). destruct (Hu eq_refl) as (u & Hu' & -> & _).
    exists (pw_name u). split; [done|]. by eapply nss_names.
  - intros ->. destruct (run_as_user ctx) as [spec|]; [|done].
    by apply resolve_user_Ok in Hu as (? & _).
  - destruct (run_as_user ctx) as [spec|]; [|naive_solver].
    apply resolve_user_Ok in Hu as ([u ->] & _). naive_solver.
Qed.
End resolve.

(** ** The plan of the child *)

Section plan.
Context `{Nss, Kernel}.

(** The calls in order; the flag marks those that must succeed. *)
Definition plan (i : ResolvedIdentity) : list (bool * syscall) :=
  if is_noop i || already_current_without_caps i then [] else
  (if decide (ri_caps i = []) then [] else [(true, SetKeepCaps)]) ++
  ((λ cap, (false, CapBsetDrop cap)) <$> filter (λ cap, cap ∉ ri_caps i) all_caps) ++
  (if drops_identity i then
     [(true, if ri_named_user i
             then InitGroups (default "" (ri_username i)) (default 0%N (ri_gid i))
             else SetGroupsEmpty)]
   else []) ++
  (match ri_gid i with Some g => [(true, SetGid g)] | None => [] end) ++
  (match ri_uid i with Some u => [(true, SetUid u)] | None => [] end) ++
  (if decide (ri_caps i ≠ [] ∨ drops_identity i = true) then
     match cap_words (ri_caps i) with
     | Ok (low, high) => (true, CapSet low high) :: (true, AmbientClearAll) ::
                         ((λ c, (true, AmbientRaise c)) <$> ri_caps i)
     | Err _ => []
     end
   else []) ++
  [(true, SetNoNewPrivs)].

(** The kernel accepts every mandatory call of [p] made after [tr]. *)
Fixpoint accepted (tr : list syscall) (p : list (bool * syscall)) : Prop :=
  match p with
  | [] => True
  | (m, c) :: p => (m = true → kernel tr c = None) ∧ accepted (tr ++ [c]) p
  end.

(** A computation that makes the calls of [p] in order, stops at the first
    mandatory call the kernel refuses, and succeeds when there is none. *)
Definition performs (m : sys unit) (p : list (bool * syscall)) : Prop :=
  ∀ tr, ∃ d, d `prefix_of` p ∧ (m tr).2 = tr ++ d.*2 ∧
    (is_ok (m tr).1 = true ↔ accepted tr p) ∧ (is_ok (m tr).1 = true → d = p).

Lemma accepted_app tr p q :
  accepted tr (p ++ q) ↔ accepted tr p ∧ accepted (tr ++ p.*2) q.
Proof.
  revert tr. induction p as [|[m c] p IH]; intros tr; csimpl; [by rewrite app_nil_r; tauto|].
  rewrite IH, <-(assoc_L (++)). simpl. tauto.
Qed.

Lemma performs_ret : performs (mret tt) [].
Proof. intros tr. exists []. simpl. by rewrite app_nil_r. Qed.

Lemma performs_best_effort c : performs (best_effort c) [(false, c)].
Proof. intros tr. exists [(false, c)]. simpl. split_and!; try done. Qed.

Lemma performs_must c f : performs (must c f) [(true, c)].
Proof.
  intros tr. exists [(true, c)]. unfold must. simpl. split_and!; [done|done| |done].
  destruct (kernel tr c); simpl; naive_solver.
Qed.

Lemma performs_bind m1 m2 p1 p2 :
  performs m1 p1 → performs m2 p2 → performs (m1 ≫= λ _, m2) (p1 ++ p2).
Proof.
  intros H1 H2 tr. destruct (H1 tr) as (d1 & Hp1 & Ht1 & Ha1 & Hd1).
  unfold mbind, sys_bind. destruct (m1 tr) as [[[]|e] tr1]; simpl in *.
  - rewrite Hd1 in * by done. subst tr1.
    destruct (H2 (tr ++ p1.*2)) as (d2 & Hp2 & Ht2 & Ha2 & Hd2).
    exists (p1 ++ d2). rewrite accepted_app, fmap_app, (assoc_L (++)). split_and!.
    + by apply prefix_app.
    + done.
    + tauto.
    + intros Hok. by rewrite Hd2.
  - exists d1. rewrite accepted_app. split_and!; [by apply prefix_app_r|done| |done]. naive_solver.
Qed.

Lemma performs_for_each {A} (l : list A) body p :
  (∀ a, a ∈ l → performs (body a) (p a)) → performs (for_each l body) (l ≫= p).
Proof.
  induction l as [|a l IH]; intros Hb; simpl; [apply performs_ret|].
  apply performs_bind; [apply Hb; set_solver|]. apply IH. set_solver.
Qed.

Lemma performs_drop_bounding_set keep :
  performs (drop_bounding_set keep)
    ((λ cap, (false, CapBsetDrop cap)) <$> filter (λ cap, cap ∉ keep) all_caps).
Proof.
  unfold drop_bounding_set.
  assert (∀ l : list N, (λ cap, (false, CapBsetDrop cap)) <$> filter (λ cap, cap ∉ keep) l =
    l ≫= λ cap, if decide (cap ∈ keep) then [] else [(false, CapBsetDrop cap)]) as ->.
  { induction l as [|c l IH]; [done|]. csimpl. rewrite filter_cons, <-IH.
    by destruct (decide (c ∈ keep)), (decide (c ∉ keep)). }
  apply performs_for_each. intros cap _.
  case_decide; [apply performs_ret|apply performs_best_effort].
Qed.

Lemma performs_groups i :
  wf_identity i → drops_identity i = true →
  performs (apply_groups i)
    [(true, if ri_named_user i
            then InitGroups (default "" (ri_username i)) (default 0%N (ri_gid i))
            else SetGroupsEmpty)].
Proof.
  intros (Hn & Hg & Hu & _) _. unfold apply_groups.
  destruct (ri_named_user i); [|apply performs_must].
  destruct Hn as (name & -> & Hnul); [done|]. destruct Hg as [g ->]; [auto|].
  cbn beta iota. rewrite Hnul. apply performs_must.
Qed.

(** C29: The privilege drop makes its system calls in a fixed order: keep-caps,
    bounding set, supplementary groups, gid, uid, capability sets, and last
    no-new-privs.  It stops at the first mandatory call the kernel refuses and
    succeeds exactly when it refuses none, so a partial drop is never reported
    as success. *)
Theorem apply_pre_exec_performs i :
  wf_identity i → performs (apply_pre_exec i) (plan i).
Proof.
  intros Hwf. unfold apply_pre_exec, plan. destruct (_ || _); [apply performs_ret|].
  apply performs_bind; [case_bool_decide; case_decide; try done;
    [apply performs_ret|apply performs_must]|].
  apply performs_bind; [apply performs_drop_bounding_set|].
  apply performs_bind.
  { destruct (drops_identity i) eqn:Hd; [by apply performs_groups|apply performs_ret]. }
  apply performs_bind; [destruct (ri_gid i); [apply performs_must|apply performs_ret]|].
  apply performs_bind; [destruct (ri_uid i); [apply performs_must|apply performs_ret]|].
  apply performs_bind; [|apply performs_must].
  destruct Hwf as (_ & _ & _ & _ & Hb).
  destruct (cap_words_inv (ri_caps i)) as (low & high & Hw & _).
  { intros c Hc%Hb. unfold CAP_LAST in Hc. lia. }
  assert (performs (set_capabilities (ri_caps i)) ((true, CapSet low high) ::
    (true, AmbientClearAll) :: ((λ c, (true, AmbientRaise c)) <$> ri_caps i))) as Hset.
  { unfold set_capabilities. rewrite Hw.
    assert (∀ l : list N, (λ c, (true, AmbientRaise c)) <$> l = l ≫= λ c, [(true, AmbientRaise c)]) as ->.
    { induction l as [|c l IH]; [done|]. csimpl. by rewrite IH. }
    apply (performs_bind _ _ [_] (_ :: _)); [apply performs_must|].
    apply (performs_bind _ _ [_]); [apply performs_must|].
    apply performs_for_each. intros c _. apply performs_must. }
  rewrite Hw. destruct (drops_identity i); case_bool_decide; case_decide; simpl; try naive_solver;
    apply performs_ret.
Qed.
End plan.

(** The capability table is consistent: validation accepts exactly the names
    with a number, the numbers are exactly 0 to [CAP_LAST], no two names share
    one, the documented list names the same capabilities, and each is accepted
    with and without the [CAP_] prefix. *)
Theorem capability_table_spec :
  (∀ raw, validate_cap_name raw = Ok tt ↔ ∃ k, cap_number (normalize_cap_name raw) = Ok k) ∧
  (∀ k, (k ≤ CAP_LAST)%N ↔ ∃ n, cap_number n = Ok k) ∧
  (∀ n m k, cap_number n = Ok k → cap_number m = Ok k → n = m) ∧
  (∀ n, n ∈ KNOWN_CAPABILITIES ↔ ∃ k, cap_number n = Ok k) ∧
  (∀ n, n ∈ KNOWN_CAPABILITIES →
     normalize_cap_name n = n ∧ normalize_cap_name ("CAP_" +:+ n) = n).
Proof.
  assert (∀ n, n ∈ CAP_TABLE.*1 ↔ ∃ k, cap_number n = Ok k) as Hnames.
  { intros n. rewrite list_elem_of_fmap. setoid_rewrite cap_number_Ok. split.
    - intros ([m k] & -> & Hin). eauto.
    - intros [k Hin]. by exists (n, k). }
  split_and!.
  - intros raw. by rewrite validate_cap_name_ok, Hnames.
  - intros k. split; [|intros [n Hn]; by eapply cap_number_bound].
    intros Hk. assert (k ∈ CAP_TABLE.*2) as ([n k'] & -> & Hin)%list_elem_of_fmap.
    + assert (CAP_TABLE.*2 = all_caps) as -> by by vm_compute.
      apply list_elem_of_fmap. exists (N.to_nat k). rewrite N2Nat.id. split; [done|].
      apply elem_of_seq. unfold CAP_LAST in *. lia.
    + exists n. by apply cap_number_Ok.
  - intros n m k Hn%cap_number_Ok Hm%cap_number_Ok.
    apply list_elem_of_lookup in Hn as [i Hi], Hm as [j Hj].
    assert (i = j) as ->; [|congruence].
    eapply (NoDup_lookup CAP_TABLE.*2); [apply cap_table_NoDup|..]; rewrite list_lookup_fmap;
      [by rewrite Hi|by rewrite Hj].
  - intros n. rewrite <-Hnames.
    assert (KNOWN_CAPABILITIES ≡ₚ CAP_TABLE.*1) as -> by by_compute. done.
  - apply Forall_forall. by_compute.
Qed.

(** ** Concrete runs *)

(** One account, [nobody] (65534), and a process that runs as root. *)
Definition example_nss : Nss := {|
  user_from_name n := Ok (if decide (n = "nobody") then Some (mkPasswd "nobody" 65534 65534 "/") else None);
  user_from_uid u := Ok (if decide (u = 65534%N) then Some (mkPasswd "nobody" 65534 65534 "/") else None);
  group_from_name n := Ok (if decide (n = "nogroup") then Some (mkGroup "nogroup" 65534) else None);
  group_from_gid g := Ok (if decide (g = 65534%N) then Some (mkGroup "nogroup" 65534) else None);
  current_uid := 0;
  current_gid := 0;
|}.

Definition example_context : SecurityContext := {|
  run_as_user := Some "nobody"; run_as_group := None; capabilities := ["CAP_NET_RAW"; "chown"];
|}.

Definition example_identity : ResolvedIdentity := {|
  ri_uid := Some 65534%N; ri_gid := Some 65534%N; ri_caps := [0; 13]%N;
  ri_home := Some "/"; ri_username := Some "nobody"; ri_named_user := true;
|}.

Lemma example_nss_names n u :
  user_from_name (Nss := example_nss) n = Ok (Some u) →
  contains_char (Ascii.ascii_of_N 0) (pw_name u) = false.
Proof. simpl. case_decide; [|done]. by intros [= <-]. Qed.

Lemma resolve_wf_witness :
  resolve (H := example_nss) example_context = Ok (Some example_identity) ∧
  wf_identity example_identity.
Proof.
  assert (resolve (H := example_nss) example_context = Ok (Some example_identity)) as Hr
    by (vm_compute; reflexivity).
  split; [exact Hr|]. exact (proj1 (resolve_wf example_nss_names _ _ Hr)).
Defined.

(** A kernel that refuses [initgroups]: the drop stops there. *)
Definition strict_kernel : Kernel := λ _ c,
  match c with InitGroups _ _ => Some "EPERM" | _ => None end.

Lemma apply_pre_exec_performs_witness :
  is_ok (apply_pre_exec (H := example_nss) (H0 := strict_kernel) example_identity []).1 = false ∧
  performs (H0 := strict_kernel) (apply_pre_exec (H := example_nss) (H0 := strict_kernel) example_identity)
    (plan (H := example_nss) example_identity).
Proof.
  split; [vm_compute; reflexivity|].
  apply (apply_pre_exec_performs (H := example_nss) (H0 := strict_kernel) example_identity).
  split_and!.
  - intros _. exists "nobody". split; reflexivity.
  - intros _. eexists. reflexivity.
  - intros _. eexists. reflexivity.
  - repeat (constructor; try by_compute).
  - apply Forall_forall. by_compute.
Defined.
