(* ===== verification/Config.v ===== *)
(** The configuration model, its validation and the assembly of the effective
    service list: [config.rs] (Linux builds), with [IpcAllow] of [ipc.rs]. *)

From Stdlib Require Import Ascii.
From S2P Require Import Prelude RustStr BTree Error Security.
#[local] Open Scope stdpp_scope.

Definition DEFAULT_SOCKET : string := "/data/run/microinit.sock".
Definition DEFAULT_CONSOLE : string := "/dev/tty1".
Definition DEFAULT_LOGS_TTY : string := "/dev/tty2".
Definition DEFAULT_INIT_LOGS_TTY : string := "/dev/tty3".
Definition DEFAULT_LOG_LINES : N := 300.
Definition DEFAULT_EARLY_BOOT : string := "/etc/microinit/early-boot.sh".
Definition DEFAULT_UNMOUNT : string := "/etc/microinit/unmount.sh".
Definition DEFAULT_EARLY_BOOT_LOGS_PATH : string := "/var/log/early-boot.log".
Definition DEFAULT_CONFIG_PATH : string := "/data/etc/microinit.json".
(** [envfile.rs] *)
Definition IMAGE_ENV_PATH : string := "/etc/microinit/microinit.env".

(** [bigfred_shared_daemon::datadir]: the data root and paths under it. *)
Class DataDir := { data_root : string; data_path : list string → string }.

Section data_paths.
Context `{DataDir}.
Definition default_config_path : string := data_path ["etc"; "microinit.json"].
Definition default_socket_path : string := data_path ["run"; "microinit.sock"].
Definition default_example_path : string := data_path ["etc"; "microinit.json.example"].
Definition default_override_path : string :=
  data_path ["etc"; "microinit.services.enabled-override.json"].
Definition default_dropins_dir : string := data_path ["etc"; "microinit.d"; "services"].
Definition default_early_boot_override_path : string :=
  data_path ["etc"; "microinit"; "early-boot.sh"].
Definition default_unmount_override_path : string :=
  data_path ["etc"; "microinit"; "unmount.sh"].
Definition default_logs_dir : string := data_path ["logs"].
(** [envfile::data_env_path], [envfile::default_paths] *)
Definition data_env_path : string := data_path ["etc"; "microinit.env"].
Definition envfile_default_paths : list string := [IMAGE_ENV_PATH; data_env_path].
End data_paths.

(** ** Data *)

Record LogsConfig := mkLogsConfig {
  lg_tty : string;
  lg_init_tty : string;
  lg_lines : N;
  lg_dir : option string;
  lg_log_to_files : bool;
}.

Definition default_logs_config `{DataDir} : LogsConfig := {|
  lg_tty := DEFAULT_LOGS_TTY;
  lg_init_tty := DEFAULT_INIT_LOGS_TTY;
  lg_lines := DEFAULT_LOG_LINES;
  lg_dir := Some default_logs_dir;
  lg_log_to_files := false;
|}.

Definition effective_log_dir (l : LogsConfig) : option string :=
  if lg_log_to_files l then lg_dir l else None.

Record EarlyBootConfig := mkEarlyBootConfig { eb_capture_logs : bool; eb_logs_path : string }.

Definition default_early_boot_config : EarlyBootConfig := {|
  eb_capture_logs := false;
  eb_logs_path := DEFAULT_EARLY_BOOT_LOGS_PATH;
|}.

Inductive EarlyBootCapturePeek :=
  | PeekAbsent
  | PeekDisabled
  | PeekEnabled (path : string).

Record LivenessProbe := mkLivenessProbe {
  lp_cmd : option string;
  lp_http_url : option string;
  lp_tcp_addr : option string;
  lp_success_exit_codes : list Z;
  lp_http_accepted_codes : list N;
  lp_http_method : string;
  lp_interval : N;
  lp_timeout : N;
  lp_failure_threshold : N;
}.

(** The field defaults of an empty [livenessProbe] object. *)
Definition default_liveness_probe : LivenessProbe := {|
  lp_cmd := None; lp_http_url := None; lp_tcp_addr := None;
  lp_success_exit_codes := [0%Z];
  lp_http_accepted_codes := [200%N];
  lp_http_method := "GET";
  lp_interval := 60;
  lp_timeout := 5;
  lp_failure_threshold := 1;
|}.

Definition probe_is_success (p : LivenessProbe) (code : Z) : bool :=
  bool_decide (code ∈ lp_success_exit_codes p).

Definition non_empty (o : option string) : bool :=
  match o with Some s => negb (bool_decide (trim s = "")) | None => false end.

Definition kind_count (p : LivenessProbe) : N :=
  N.b2n (non_empty (lp_cmd p)) + N.b2n (non_empty (lp_http_url p))
  + N.b2n (non_empty (lp_tcp_addr p)).

Module RestartPolicy.
Inductive t := Always | OnError | Never.
#[global] Instance eq_dec : EqDecision t.
Proof. solve_decision. Defined.

Definition should_restart (p : t) (success : bool) : bool :=
  match p with
  | Always => true
  | OnError => negb success
  | Never => false
  end.

Definition requires_daemon (p : t) : bool := negb (bool_decide (p = Never)).
End RestartPolicy.

Record ServiceConfig := mkServiceConfig {
  sc_name : string;
  sc_enabled : bool;
  sc_daemon : bool;
  sc_restart_policy : RestartPolicy.t;
  sc_restart_backoff : N;
  sc_success_exit_codes : list Z;
  sc_start_wait_secs : N;
  sc_shutdown_wait_secs : N;
  sc_background : bool;
  sc_order_priority : N;
  sc_depends_on : list string;
  sc_cmd : option string;
  sc_start_cmd : option string;
  sc_stop_cmd : option string;
  sc_restart_cmd : option string;
  sc_env : gmap string string;
  sc_cwd : string;
  sc_liveness_probe : option LivenessProbe;
  sc_labels : gmap string string;
  sc_security_context : option SecurityContext;
  sc_resolved_security : option ResolvedIdentity;
}.

(** [default_restart_policy] *)
Definition default_restart_policy : RestartPolicy.t := RestartPolicy.OnError.

(** The service an object with only a [name] deserializes to: every other
    field takes its serde default. *)
Definition default_service (name : string) : ServiceConfig := {|
  sc_name := name;
  sc_enabled := true;
  sc_daemon := true;
  sc_restart_policy := default_restart_policy;
  sc_restart_backoff := 2;
  sc_success_exit_codes := [0%Z];
  sc_start_wait_secs := 0;
  sc_shutdown_wait_secs := 5;
  sc_background := false;
  sc_order_priority := 100;
  sc_depends_on := [];
  sc_cmd := None; sc_start_cmd := None; sc_stop_cmd := None; sc_restart_cmd := None;
  sc_env := ∅;
  sc_cwd := "/";
  sc_liveness_probe := None;
  sc_labels := ∅;
  sc_security_context := None;
  sc_resolved_security := None;
|}.

Record OpenTelemetryConfig := mkOpenTelemetryConfig {
  ot_enable : bool;
  ot_endpoint : string;
  ot_protocol : string;
  ot_service_name : string;
  ot_export_interval_secs : N;
  ot_headers : gmap string string;
}.

Definition default_open_telemetry : OpenTelemetryConfig := {|
  ot_enable := false;
  ot_endpoint := "http://127.0.0.1:4318";
  ot_protocol := "http";
  ot_service_name := "microinit";
  ot_export_interval_secs := 15;
  ot_headers := ∅;
|}.

Record Config := mkConfig {
  cf_version : N;
  cf_logs : LogsConfig;
  cf_early_boot : EarlyBootConfig;
  cf_socket : string;
  cf_console : string;
  cf_socket_allow_users : list string;
  cf_open_telemetry : OpenTelemetryConfig;
  cf_env_file : list string;
  cf_services : list ServiceConfig;
}.

Definition default_config `{DataDir} : Config := {|
  cf_version := 1;
  cf_logs := default_logs_config;
  cf_early_boot := default_early_boot_config;
  cf_socket := default_socket_path;
  cf_console := DEFAULT_CONSOLE;
  cf_socket_allow_users := [];
  cf_open_telemetry := default_open_telemetry;
  cf_env_file := envfile_default_paths;
  cf_services := [];
|}.

#[export] Instance LogsConfig_eq_dec : EqDecision LogsConfig.
Proof. solve_decision. Defined.
#[export] Instance EarlyBootConfig_eq_dec : EqDecision EarlyBootConfig.
Proof. solve_decision. Defined.
#[export] Instance LivenessProbe_eq_dec : EqDecision LivenessProbe.
Proof. solve_decision. Defined.
#[export] Instance ServiceConfig_eq_dec : EqDecision ServiceConfig.
Proof.
  apply (view_eq_dec (λ s,
    ((sc_name s, sc_enabled s, sc_daemon s, sc_restart_policy s, sc_restart_backoff s,
      sc_success_exit_codes s, sc_start_wait_secs s),
     (sc_shutdown_wait_secs s, sc_background s, sc_order_priority s, sc_depends_on s, sc_cmd s,
      sc_start_cmd s, sc_stop_cmd s),
     (sc_restart_cmd s, sc_env s, sc_cwd s, sc_liveness_probe s, sc_labels s,
      sc_security_context s, sc_resolved_security s)))).
  intros [] []; simpl; intros ?; by simplify_eq.
Defined.
#[export] Instance OpenTelemetryConfig_eq_dec : EqDecision OpenTelemetryConfig.
Proof.
  apply (view_eq_dec (λ o, (ot_enable o, ot_endpoint o, ot_protocol o, ot_service_name o,
    ot_export_interval_secs o, ot_headers o))).
  intros [] []; simpl; intros ?; by simplify_eq.
Defined.

(** *** Field updates *)

Definition set_sc_enabled (b : bool) (s : ServiceConfig) : ServiceConfig :=
  mkServiceConfig (sc_name s) b (sc_daemon s) (sc_restart_policy s) (sc_restart_backoff s)
    (sc_success_exit_codes s) (sc_start_wait_secs s) (sc_shutdown_wait_secs s) (sc_background s)
    (sc_order_priority s) (sc_depends_on s) (sc_cmd s) (sc_start_cmd s) (sc_stop_cmd s)
    (sc_restart_cmd s) (sc_env s) (sc_cwd s) (sc_liveness_probe s) (sc_labels s)
    (sc_security_context s) (sc_resolved_security s).

Definition set_sc_resolved_security (r : option ResolvedIdentity) (s : ServiceConfig) : ServiceConfig :=
  mkServiceConfig (sc_name s) (sc_enabled s) (sc_daemon s) (sc_restart_policy s)
    (sc_restart_backoff s) (sc_success_exit_codes s) (sc_start_wait_secs s)
    (sc_shutdown_wait_secs s) (sc_background s) (sc_order_priority s) (sc_depends_on s) (sc_cmd s)
    (sc_start_cmd s) (sc_stop_cmd s) (sc_restart_cmd s) (sc_env s) (sc_cwd s)
    (sc_liveness_probe s) (sc_labels s) (sc_security_context s) r.

Definition set_cf_services (l : list ServiceConfig) (c : Config) : Config :=
  mkConfig (cf_version c) (cf_logs c) (cf_early_boot c) (cf_socket c) (cf_console c)
    (cf_socket_allow_users c) (cf_open_telemetry c) (cf_env_file c) l.

Definition set_cf_socket (s : string) (c : Config) : Config :=
  mkConfig (cf_version c) (cf_logs c) (cf_early_boot c) s (cf_console c)
    (cf_socket_allow_users c) (cf_open_telemetry c) (cf_env_file c) (cf_services c).

(** ** Service commands *)

Definition resolve_start (s : ServiceConfig) : Result string :=
  match sc_start_cmd s with
  | Some c => Ok c
  | None =>
      match sc_cmd s with
      | Some c => Ok (c +:+ " start")
      | None => Err (Error.Service (sc_name s) "no startCmd or cmd defined")
      end
  end.

Definition resolve_stop (s : ServiceConfig) : Result string :=
  match sc_stop_cmd s with
  | Some c => Ok c
  | None =>
      match sc_cmd s with
      | Some c => Ok (c +:+ " stop")
      | None => Err (Error.Service (sc_name s) "no stopCmd or cmd defined")
      end
  end.

Definition resolve_restart (s : ServiceConfig) : Result string :=
  match sc_restart_cmd s with
  | Some c => Ok c
  | None =>
      match sc_cmd s with
      | Some c => Ok (c +:+ " restart")
      | None =>
          let? stop := resolve_stop s in
          let? start := resolve_start s in
          Ok (stop +:+ " && " +:+ start)
      end
  end.

Definition is_success (s : ServiceConfig) (code : Z) : bool :=
  bool_decide (code ∈ sc_success_exit_codes s).

(** ** Labels *)

Definition LABEL_KEY_MAX : nat := 63.
Definition LABEL_VALUE_MAX : nat := 253.

Definition is_label_char (c : ascii) : bool :=
  is_ascii_alphanumeric c || bool_decide (c = "."%char) || bool_decide (c = "_"%char)
  || bool_decide (c = "-"%char).

Definition is_valid_label_key (key : string) : bool :=
  match key with
  | "" => false
  | String c rest => is_ascii_alphanumeric c && string_forallb is_label_char rest
  end.

Definition service_error (service msg : string) : Error.t :=
  Error.Config ("service '" +:+ service +:+ "': " +:+ msg).

Definition validate_label (service : string) (kv : string * string) : Result unit :=
  let '(key, value) := kv in
  if decide (key = "") then Err (service_error service "label key must not be empty")
  else if decide (LABEL_KEY_MAX < String.length key) then
    Err (service_error service ("label key '" +:+ key +:+ "' exceeds " +:+ pretty LABEL_KEY_MAX
                                +:+ " characters"))
  else if negb (is_valid_label_key key) then
    Err (service_error service ("invalid label key '" +:+ key
                                +:+ "' (want [A-Za-z0-9][A-Za-z0-9._-]*)"))
  else if decide (value = "") then
    Err (service_error service ("label '" +:+ key +:+ "' value must not be empty"))
  else if decide (LABEL_VALUE_MAX < String.length value) then
    Err (service_error service ("label '" +:+ key +:+ "' value exceeds " +:+ pretty LABEL_VALUE_MAX
                                +:+ " characters"))
  else Ok tt.

(** [validate_labels]: labels in key order, the first problem is reported. *)
Definition validate_labels (service : string) (labels : gmap string string) : Result unit :=
  try_fold (λ _ kv, validate_label service kv) tt (bmap_iter labels).

(** ** Validation *)

(** [Path::is_absolute] on Unix. *)
Definition path_is_absolute (p : string) : bool := starts_with "/" p.

Definition validate_early_boot (e : EarlyBootConfig) : Result unit :=
  let p := trim (eb_logs_path e) in
  if eb_capture_logs e && (bool_decide (p = "") || negb (path_is_absolute p)) then
    Err (Error.Config "earlyBoot.logsPath must be an absolute path")
  else Ok tt.

Definition validate_probe (service : string) (p : LivenessProbe) : Result unit :=
  if negb (bool_decide (kind_count p = 1%N)) then
    Err (service_error service "livenessProbe needs exactly one of cmd, httpUrl, tcpAddr")
  else if non_empty (lp_cmd p) && bool_decide (lp_success_exit_codes p = []) then
    Err (service_error service "livenessProbe.successExitCodes must not be empty")
  else if non_empty (lp_http_url p) && bool_decide (lp_http_accepted_codes p = []) then
    Err (service_error service "livenessProbe.httpAcceptedCodes must not be empty")
  else if non_empty (lp_http_url p) && bool_decide (trim (lp_http_method p) = "") then
    Err (service_error service "livenessProbe.httpMethod must not be empty")
  else if bool_decide (lp_interval p = 0%N) then
    Err (service_error service "livenessProbe.interval must be >= 1")
  else if bool_decide (lp_timeout p = 0%N) then
    Err (service_error service "livenessProbe.timeout must be >= 1")
  else if bool_decide (lp_failure_threshold p < 1)%N then
    Err (service_error service "livenessProbe.failureThreshold must be >= 1")
  else Ok tt.

(** A present but blank name. *)
Definition is_blank (o : option string) : bool :=
  match o with Some s => bool_decide (trim s = "") | None => false end.

Definition validate_security_context (service : string) (sec : SecurityContext) : Result unit :=
  if is_blank (run_as_user sec) then
    Err (service_error service "securityContext.runAsUser must not be empty")
  else if is_blank (run_as_group sec) then
    Err (service_error service "securityContext.runAsGroup must not be empty")
  else
    try_fold (λ _ cap, map_err (λ e,
        service_error service ("securityContext." +:+ Error.to_string e)) (validate_cap_name cap))
      tt (capabilities sec).

(** One round of the first loop of [validate]; the accumulator is the set of
    names seen so far. *)
Definition validate_service (names : gset string) (svc : ServiceConfig) : Result (gset string) :=
  if decide (sc_name svc = "") then Err (Error.Config "service with empty name")
  else if decide (sc_name svc ∈ names) then
    Err (Error.Config ("duplicate service name '" +:+ sc_name svc +:+ "'"))
  else if bool_decide (sc_restart_policy svc = RestartPolicy.Always) && negb (sc_daemon svc) then
    Err (service_error (sc_name svc) "restartPolicy=always requires daemon=true")
  else if bool_decide (sc_start_cmd svc = None) && bool_decide (sc_cmd svc = None) then
    Err (service_error (sc_name svc) "need startCmd or cmd")
  else
    let? _ := match sc_liveness_probe svc with
              | Some probe => validate_probe (sc_name svc) probe
              | None => Ok tt
              end in
    let? _ := validate_labels (sc_name svc) (sc_labels svc) in
    let? _ := match sc_security_context svc with
              | Some sec => validate_security_context (sc_name svc) sec
              | None => Ok tt
              end in
    Ok ({[ sc_name svc ]} ∪ names).

Definition validate_depends_on (names : gset string) (svc : ServiceConfig) : Result unit :=
  try_fold (λ _ dep,
      if decide (dep ∈ names) then Ok tt
      else Err (service_error (sc_name svc) ("dependsOn unknown service '" +:+ dep +:+ "'")))
    tt (sc_depends_on svc).

(** [ipc.rs]: peer allowlist of the control socket. *)
Record IpcAllow := mkIpcAllow {
  ia_daemon_uid : N;
  ia_allow_uids : list N;
  ia_socket_gid : option N;
}.

Section with_nss.
Context `{Nss}.

(** One round of the loop of [resolved_ipc_allow]. *)
Definition resolve_allow_user (acc : list N * option N) (raw : string) :
    Result (list N * option N) :=
  let '(allow_uids, socket_gid) := acc in
  let name := trim raw in
  if decide (name = "") then Err (Error.Config "socketAllowUsers entry must not be empty")
  else match user_from_name name with
  | Err e => Err (Error.Config ("socketAllowUsers lookup '" +:+ name +:+ "': " +:+ e))
  | Ok None => Err (Error.Config ("socketAllowUsers: unknown user '" +:+ name +:+ "'"))
  | Ok (Some u) =>
      let socket_gid :=
        match socket_gid with
        | Some g => Some g
        | None =>
            Some (match group_from_name name with Ok (Some g) => gr_gid g | _ => pw_gid u end)
        end in
      Ok (allow_uids ++ [pw_uid u], socket_gid)
  end.

Definition resolved_ipc_allow (c : Config) : Result IpcAllow :=
  let? '(allow_uids, socket_gid) :=
    try_fold resolve_allow_user ([], None) (cf_socket_allow_users c) in
  Ok (mkIpcAllow current_uid allow_uids socket_gid).

(** [Config::validate] *)
Definition validate (c : Config) : Result unit :=
  let? _ := validate_early_boot (cf_early_boot c) in
  let? names := try_fold validate_service ∅ (cf_services c) in
  let? _ := try_fold (λ _ svc, validate_depends_on names svc) tt (cf_services c) in
  let? _ := resolved_ipc_allow c in
  Ok tt.

(** [Config::prepare_security] *)
Definition prepare_security (c : Config) : Result Config :=
  let? services := try_fold (λ acc svc,
      let? r := match sc_security_context svc with
                | Some ctx => resolve ctx
                | None => Ok None
                end in
      Ok (acc ++ [set_sc_resolved_security r svc])) [] (cf_services c) in
  Ok (set_cf_services services c).
End with_nss.

(** ** Lookup, overrides and drop-ins *)

(** [Config::get] *)
Definition cf_get (name : string) (c : Config) : option ServiceConfig :=
  find_first (λ s, bool_decide (sc_name s = name)) (cf_services c).

(** Update the first service with the given name ([get_mut], [iter_mut().find]). *)
Fixpoint update_first (name : string) (f : ServiceConfig → ServiceConfig)
    (l : list ServiceConfig) : list ServiceConfig :=
  match l with
  | [] => []
  | s :: l => if decide (sc_name s = name) then f s :: l else s :: update_first name f l
  end.

(** [apply_enabled_override] *)
Definition apply_override_service (m : gmap string bool) (s : ServiceConfig) : ServiceConfig :=
  match m !! sc_name s with Some enabled => set_sc_enabled enabled s | None => s end.
Definition apply_enabled_override (c : Config) (m : gmap string bool) : Config :=
  set_cf_services (apply_override_service m <$> cf_services c) c.

(** The merge of one drop-in service: replace the service of that name, or append. *)
Definition merge_service (services : list ServiceConfig) (svc : ServiceConfig) : list ServiceConfig :=
  match find_first (λ s, bool_decide (sc_name s = sc_name svc)) services with
  | Some _ => update_first (sc_name svc) (λ _, svc) services
  | None => services ++ [svc]
  end.

(** The merge loops of [merge_service_dropins], over the parsed files in path order. *)
Definition merge_dropins (services : list ServiceConfig) (files : list (list ServiceConfig)) :
    list ServiceConfig :=
  foldl (λ acc file, foldl merge_service acc file) services files.

(** ** The example configuration *)

Definition example_config `{DataDir} : Config := {|
  cf_version := 1;
  cf_logs := {| lg_tty := DEFAULT_LOGS_TTY; lg_init_tty := DEFAULT_INIT_LOGS_TTY;
                lg_lines := DEFAULT_LOG_LINES; lg_dir := Some default_logs_dir;
                lg_log_to_files := false |};
  cf_early_boot := default_early_boot_config;
  cf_socket := DEFAULT_SOCKET;
  cf_console := DEFAULT_CONSOLE;
  cf_socket_allow_users := [];
  cf_open_telemetry := default_open_telemetry;
  cf_env_file := envfile_default_paths;
  cf_services := [
    {| sc_name := "network"; sc_enabled := true; sc_daemon := false;
       sc_restart_policy := RestartPolicy.Never; sc_restart_backoff := 2;
       sc_success_exit_codes := [0%Z]; sc_start_wait_secs := 0; sc_shutdown_wait_secs := 5;
       sc_background := false; sc_order_priority := 30; sc_depends_on := [];
       sc_cmd := Some "/etc/init.d/network"; sc_start_cmd := None; sc_stop_cmd := None;
       sc_restart_cmd := None; sc_env := ∅; sc_cwd := "/";
       sc_liveness_probe := Some {|
         lp_cmd := Some "/usr/sbin/configure-ethernet check"; lp_http_url := None;
         lp_tcp_addr := None; lp_success_exit_codes := [0%Z];
         lp_http_accepted_codes := [200%N]; lp_http_method := "GET"; lp_interval := 30;
         lp_timeout := 5; lp_failure_threshold := 1 |};
       sc_labels := ∅; sc_security_context := None; sc_resolved_security := None |};
    {| sc_name := "redis"; sc_enabled := true; sc_daemon := true;
       sc_restart_policy := RestartPolicy.OnError; sc_restart_backoff := 2;
       sc_success_exit_codes := [0%Z]; sc_start_wait_secs := 0; sc_shutdown_wait_secs := 5;
       sc_background := false; sc_order_priority := 100; sc_depends_on := ["network"];
       sc_cmd := Some "/etc/init.d/redis"; sc_start_cmd := None; sc_stop_cmd := None;
       sc_restart_cmd := None; sc_env := ∅; sc_cwd := "/"; sc_liveness_probe := None;
       sc_labels := ∅; sc_security_context := None; sc_resolved_security := None |};
    {| sc_name := "remote-icmp"; sc_enabled := true; sc_daemon := true;
       sc_restart_policy := RestartPolicy.OnError; sc_restart_backoff := 5;
       sc_success_exit_codes := [0%Z]; sc_start_wait_secs := 0; sc_shutdown_wait_secs := 5;
       sc_background := true; sc_order_priority := 210; sc_depends_on := ["network"];
       sc_cmd := None;
       sc_start_cmd := Some ("/usr/bin/bigfred-remote-icmp --config " +:+ data_root
                             +:+ "/etc/loco-server.conf");
       sc_stop_cmd := Some "killall bigfred-remote-icmp"; sc_restart_cmd := None;
       sc_env := ∅; sc_cwd := "/"; sc_liveness_probe := None; sc_labels := ∅;
       sc_security_context := Some {| run_as_user := Some "nobody"; run_as_group := None;
                                      capabilities := ["CAP_NET_RAW"] |};
       sc_resolved_security := None |}];
|}.

(** Paths used at runtime. *)
Record Paths := mkPaths {
  ps_config : string;
  ps_example : string;
  ps_override_file : string;
  ps_dropins_dir : string;
  ps_early_boot : string;
  ps_early_boot_override : string;
  ps_unmount : string;
  ps_unmount_override : string;
}.

Definition default_paths `{DataDir} : Paths := {|
  ps_config := default_config_path;
  ps_example := default_example_path;
  ps_override_file := default_override_path;
  ps_dropins_dir := default_dropins_dir;
  ps_early_boot := DEFAULT_EARLY_BOOT;
  ps_early_boot_override := default_early_boot_override_path;
  ps_unmount := DEFAULT_UNMOUNT;
  ps_unmount_override := default_unmount_override_path;
|}.

(** ** Specification *)

Definition known_deps (services : list ServiceConfig) : Prop :=
  ∀ s d, s ∈ services → d ∈ sc_depends_on s → d ∈ (sc_name <$> services).

Definition valid_label (k v : string) : Prop :=
  k ≠ "" ∧ String.length k ≤ 63 ∧ is_valid_label_key k = true ∧ v ≠ "" ∧ String.length v ≤ 253.

(** A field that is present and not blank. *)
Definition present (o : option string) : Prop := ∃ s, o = Some s ∧ trim s ≠ "".

(** Exactly one kind of check, with what that kind needs. *)
Definition valid_probe (p : LivenessProbe) : Prop :=
  ((present (lp_cmd p) ∧ ¬ present (lp_http_url p) ∧ ¬ present (lp_tcp_addr p)
      ∧ lp_success_exit_codes p ≠ []) ∨
   (¬ present (lp_cmd p) ∧ present (lp_http_url p) ∧ ¬ present (lp_tcp_addr p)
      ∧ lp_http_accepted_codes p ≠ [] ∧ trim (lp_http_method p) ≠ "") ∨
   (¬ present (lp_cmd p) ∧ ¬ present (lp_http_url p) ∧ present (lp_tcp_addr p))) ∧
  (1 ≤ lp_interval p ∧ 1 ≤ lp_timeout p ∧ 1 ≤ lp_failure_threshold p)%N.

Definition valid_security (sec : SecurityContext) : Prop :=
  (∀ u, run_as_user sec = Some u → trim u ≠ "") ∧
  (∀ g, run_as_group sec = Some g → trim g ≠ "") ∧
  ∀ cap, cap ∈ capabilities sec → normalize_cap_name cap ∈ CAP_TABLE.*1.

Definition valid_service (s : ServiceConfig) : Prop :=
  sc_name s ≠ "" ∧
  (sc_restart_policy s = RestartPolicy.Always → sc_daemon s = true) ∧
  (is_Some (sc_start_cmd s) ∨ is_Some (sc_cmd s)) ∧
  (∀ p, sc_liveness_probe s = Some p → valid_probe p) ∧
  (∀ k v, sc_labels s !! k = Some v → valid_label k v) ∧
  (∀ sec, sc_security_context s = Some sec → valid_security sec).

Definition valid_config `{Nss} (c : Config) : Prop :=
  (eb_capture_logs (cf_early_boot c) = true → ∃ r, trim (eb_logs_path (cf_early_boot c)) = "/" +:+ r) ∧
  (∀ s, s ∈ cf_services c → valid_service s) ∧
  NoDup (sc_name <$> cf_services c) ∧
  known_deps (cf_services c) ∧
  (∀ raw, raw ∈ cf_socket_allow_users c →
    trim raw ≠ "" ∧ ∃ u, user_from_name (trim raw) = Ok (Some u)).

(** ** Validation *)

Lemma non_empty_spec o : non_empty o = true ↔ present o.
Proof.
  unfold non_empty, present. destruct o as [s|]; [|naive_solver].
  rewrite negb_true_iff, bool_decide_eq_false. naive_solver.
Qed.

Lemma is_blank_spec o : is_blank o = false ↔ ∀ s, o = Some s → trim s ≠ "".
Proof.
  unfold is_blank. destruct o as [s|]; [|naive_solver].
  rewrite bool_decide_eq_false. naive_solver.
Qed.

Lemma validate_label_ok service k v : validate_label service (k, v) = Ok tt ↔ valid_label k v.
Proof.
  unfold validate_label, valid_label, LABEL_KEY_MAX, LABEL_VALUE_MAX.
  destruct (is_valid_label_key k) eqn:Hk; simpl; repeat case_decide; naive_solver lia.
Qed.

Lemma validate_labels_ok service labels :
  validate_labels service labels = Ok tt ↔ ∀ k v, labels !! k = Some v → valid_label k v.
Proof.
  unfold validate_labels. rewrite try_fold_check. split.
  - intros Hall k v Hkv%elem_of_bmap_iter. by apply validate_label_ok with service, Hall.
  - intros Hall [k v] Hkv%elem_of_bmap_iter. by apply validate_label_ok, Hall.
Qed.

Lemma validate_probe_ok service p : validate_probe service p = Ok tt ↔ valid_probe p.
Proof.
  unfold validate_probe, valid_probe, kind_count. rewrite <-!non_empty_spec.
  destruct (non_empty (lp_cmd p)), (non_empty (lp_http_url p)), (non_empty (lp_tcp_addr p));
    simpl; repeat (case_bool_decide; simpl); naive_solver lia.
Qed.

Lemma map_err_ok {A E F} (f : E → F) (r : result A E) a : map_err f r = Ok a ↔ r = Ok a.
Proof. destruct r; simpl; naive_solver. Qed.

Lemma validate_security_context_ok service sec :
  validate_security_context service sec = Ok tt ↔ valid_security sec.
Proof.
  unfold validate_security_context, valid_security. rewrite <-!is_blank_spec.
  destruct (is_blank (run_as_user sec)), (is_blank (run_as_group sec));
    try (split; [done|by intros (? & ? & _)]).
  rewrite try_fold_check. setoid_rewrite map_err_ok. setoid_rewrite validate_cap_name_ok. naive_solver.
Qed.

Lemma validate_service_ok names s names' :
  validate_service names s = Ok names' ↔
  (sc_name s ∉ names) ∧ valid_service s ∧ names' = {[ sc_name s ]} ∪ names.
Proof.
  unfold validate_service, valid_service.
  destruct (decide (sc_name s = "")) as [?|Hne]; [naive_solver|].
  destruct (decide (sc_name s ∈ names)) as [?|Hnew]; [naive_solver|].
  destruct (bool_decide (sc_restart_policy s = _) && negb (sc_daemon s)) eqn:Hpol.
  { apply andb_true_iff in Hpol as [?%bool_decide_eq_true ?%negb_true_iff].
    split; [done|]. intros (_ & (_ & Hd & _) & _). rewrite Hd in *; done. }
  assert (sc_restart_policy s = RestartPolicy.Always → sc_daemon s = true) as Hpol'.
  { intros Hp. rewrite bool_decide_true in Hpol by done. by destruct (sc_daemon s). }
  destruct (bool_decide (sc_start_cmd s = None) && bool_decide (sc_cmd s = None)) eqn:Hcmd.
  { apply andb_true_iff in Hcmd as [Hs%bool_decide_eq_true Hc%bool_decide_eq_true].
    split; [done|]. rewrite Hs, Hc. intros (_ & (_ & _ & [[]|[]] & _) & _); done. }
  assert (is_Some (sc_start_cmd s) ∨ is_Some (sc_cmd s)) as Hcmd'.
  { apply andb_false_iff in Hcmd as [H%bool_decide_eq_false|H%bool_decide_eq_false];
      apply not_eq_None_Some in H; auto. }
  assert (match sc_liveness_probe s with Some p => validate_probe (sc_name s) p | None => Ok tt end
    = Ok tt ↔ ∀ p, sc_liveness_probe s = Some p → valid_probe p) as <-.
  { destruct (sc_liveness_probe s) as [p|]; [rewrite validate_probe_ok|]; naive_solver. }
  assert (match sc_security_context s with
          | Some sec => validate_security_context (sc_name s) sec | None => Ok tt end
    = Ok tt ↔ ∀ sec, sc_security_context s = Some sec → valid_security sec) as <-.
  { destruct (sc_security_context s) as [c|]; [rewrite validate_security_context_ok|]; naive_solver. }
  rewrite <-(validate_labels_ok (sc_name s)).
  destruct (match sc_liveness_probe s with Some _ => _ | None => _ end) as [[]|]; [|naive_solver].
  destruct (validate_labels _ _) as [[]|]; [|naive_solver].
  destruct (match sc_security_context s with Some _ => _ | None => _ end) as [[]|]; naive_solver.
Qed.

Lemma validate_services_ok services names names' :
  try_fold validate_service names services = Ok names' ↔
  Forall valid_service services ∧ NoDup (sc_name <$> services) ∧
  (∀ n, n ∈ sc_name <$> services → n ∉ names) ∧
  names' = list_to_set (sc_name <$> services) ∪ names.
Proof.
  revert names. induction services as [|s services IH]; intros names; csimpl.
  { rewrite Forall_nil, NoDup_nil, (left_id_L ∅ (∪)). split; [|naive_solver].
    intros [= <-]. split_and!; try done. intros n Hn. by apply elem_of_nil in Hn. }
  rewrite Forall_cons, NoDup_cons.
  assert (∀ X : gset string, list_to_set (sc_name <$> services) ∪ ({[sc_name s]} ∪ X) =
    {[sc_name s]} ∪ list_to_set (sc_name <$> services) ∪ X) as Hun by (intros; clear; set_solver).
  destruct (validate_service names s) as [names1|e] eqn:Hs.
  - apply validate_service_ok in Hs as (Hnew & Hval & ->). rewrite IH, Hun.
    setoid_rewrite elem_of_cons. setoid_rewrite not_elem_of_union.
    setoid_rewrite not_elem_of_singleton. split.
    + intros (Hall & Hnd & Hd & ->). split_and!; try done; [by intros [? _]%Hd|].
      intros n [->|Hn]; [done|]. by apply Hd.
    + intros ([_ Hall] & [Hni Hnd] & Hd & ->). split_and!; try done.
      intros n Hn. split; [by intros ->|]. auto.
  - split; [done|]. intros ([Hval _] & _ & Hd & _). exfalso.
    assert (validate_service names s = Ok ({[ sc_name s ]} ∪ names)) as Hok; [|congruence].
    apply validate_service_ok. split_and!; [|done|done]. apply Hd. by left.
Qed.

Lemma validate_early_boot_ok e :
  validate_early_boot e = Ok tt ↔
  (eb_capture_logs e = true → ∃ r, trim (eb_logs_path e) = "/" +:+ r).
Proof.
  unfold validate_early_boot, path_is_absolute. destruct (eb_capture_logs e); simpl; [|naive_solver].
  destruct (trim (eb_logs_path e)) as [|c r].
  - rewrite bool_decide_true by done. simpl. naive_solver.
  - rewrite bool_decide_false by done. simpl.
    destruct (starts_with "/" (String c r)) eqn:Hs; simpl; unfold starts_with in Hs.
    + apply bool_decide_eq_true in Hs as [r' Hr%strip_prefix_Some]. split; [|done]. by exists r'.
    + apply bool_decide_eq_false in Hs. split; [done|]. intros [r' Hr]; [done|].
      destruct Hs. exists r'. by apply strip_prefix_Some.
Qed.

Section validate.
Context `{Nss}.

Lemma resolved_ipc_allow_ok c :
  (∃ a, resolved_ipc_allow c = Ok a) ↔
  ∀ raw, raw ∈ cf_socket_allow_users c →
    trim raw ≠ "" ∧ ∃ u, user_from_name (trim raw) = Ok (Some u).
Proof.
  unfold resolved_ipc_allow. rewrite <-Forall_forall. generalize (@nil N, @None N) as acc.
  induction (cf_socket_allow_users c) as [|raw l IH]; intros [uids gid]; simpl.
  { split; [by constructor|eauto]. }
  rewrite Forall_cons. destruct (decide (trim raw = "")) as [Hb|Hb].
  { split; [by intros []|by intros [[] _]]. }
  destruct (user_from_name (trim raw)) as [[u|]|e].
  - rewrite IH. split; [|by intros [_ ?]]. intros ?. split; eauto.
  - split; [by intros []|by intros [(_ & ? & ?) _]].
  - split; [by intros []|by intros [(_ & ? & ?) _]].
Qed.

Lemma validate_ok c : validate c = Ok tt ↔ valid_config c.
Proof.
  unfold validate, valid_config. rewrite <-validate_early_boot_ok.
  destruct (validate_early_boot (cf_early_boot c)) as [[]|]; [|naive_solver].
  rewrite <-resolved_ipc_allow_ok.
  destruct (try_fold validate_service ∅ (cf_services c)) as [names|e] eqn:Hsv.
  - apply validate_services_ok in Hsv as (Hall & Hnd & _ & ->). rewrite <-Forall_forall. rewrite (right_id_L ∅ (∪)).
    set (names := list_to_set _ : gset string).
    assert (try_fold (λ _ svc, validate_depends_on names svc) tt (cf_services c) = Ok tt
      ↔ known_deps (cf_services c)) as Hdeps.
    { rewrite try_fold_check. unfold validate_depends_on, known_deps. split.
      - intros Hd s d Hs Hsd. specialize (Hd s Hs). rewrite try_fold_check in Hd.
        specialize (Hd d Hsd). case_decide; [set_solver|done].
      - intros Hd s Hs. apply try_fold_check. intros d Hsd.
        rewrite decide_True; [done|]. subst names. rewrite elem_of_list_to_set. eauto. }
    rewrite <-Hdeps. destruct (try_fold _ tt _) as [[]|]; [|naive_solver].
    destruct (resolved_ipc_allow c); naive_solver.
  - split; [done|]. intros (_ & Hall & Hnd & _). exfalso.
    assert (try_fold validate_service ∅ (cf_services c)
      = Ok (list_to_set (sc_name <$> cf_services c) ∪ ∅)) as Hok; [|congruence].
    apply validate_services_ok. split_and!; [|done|set_solver|done].
    by apply Forall_forall.
Qed.
End validate.

(** ** Overrides and drop-ins *)

Definition named (name : string) (s : ServiceConfig) : bool := bool_decide (sc_name s = name).

Lemma named_true name s : named name s = true ↔ sc_name s = name.
Proof. apply bool_decide_eq_true. Qed.

Lemma find_named_cons name s l :
  find_first (named name) (s :: l) =
  if decide (sc_name s = name) then Some s else find_first (named name) l.
Proof. simpl. unfold named at 1. by case_bool_decide; case_decide. Qed.

Lemma find_update_first name n f l :
  (∀ s, sc_name (f s) = sc_name s) →
  find_first (named name) (update_first n f l) =
  if decide (n = name) then f <$> find_first (named name) l else find_first (named name) l.
Proof.
  intros Hf. induction l as [|s l IH]; cbn [update_first]; [by case_decide|].
  destruct (decide (sc_name s = n)) as [Hs|Hs]; rewrite !find_named_cons, ?Hf, ?IH;
    repeat case_decide; subst; try done; congruence.
Qed.

Lemma names_update_first n f l :
  (∀ s, sc_name s = n → sc_name (f s) = n) → sc_name <$> update_first n f l = sc_name <$> l.
Proof.
  intros Hf. induction l as [|s l IH]; csimpl; [done|].
  case_decide as Hs; csimpl; [by rewrite Hf, Hs|by rewrite IH].
Qed.

Lemma find_first_app {A} (p : A → bool) l1 l2 :
  find_first p (l1 ++ l2) =
  match find_first p l1 with Some a => Some a | None => find_first p l2 end.
Proof. induction l1 as [|a l1 IH]; simpl; [done|]. by destruct (p a). Qed.

Lemma find_named_None name l : find_first (named name) l = None ↔ name ∉ (sc_name <$> l).
Proof.
  rewrite find_first_None, list_elem_of_fmap. setoid_rewrite bool_decide_eq_false. naive_solver.
Qed.

Lemma find_replace_first name svc l :
  sc_name svc ∈ sc_name <$> l →
  find_first (named name) (update_first (sc_name svc) (λ _, svc) l) =
  if decide (sc_name svc = name) then Some svc else find_first (named name) l.
Proof.
  induction l as [|s l IH]; cbn [update_first fmap list_fmap]; [by intros ?%elem_of_nil|]. intros Hin.
  destruct (decide (sc_name s = sc_name svc)) as [Hs|Hs]; rewrite !find_named_cons;
    rewrite ?IH by set_solver; repeat case_decide; subst; try done; congruence.
Qed.

Lemma merge_service_find name services svc :
  find_first (named name) (merge_service services svc) =
  if decide (sc_name svc = name) then Some svc else find_first (named name) services.
Proof.
  unfold merge_service. fold (named (sc_name svc)).
  destruct (find_first (named (sc_name svc)) services) as [old|] eqn:Hold.
  - apply find_replace_first. apply find_first_Some in Hold as [Hin <-%named_true].
    apply list_elem_of_fmap. eauto.
  - rewrite find_first_app, find_named_cons. case_decide as Hn.
    + by rewrite <-Hn, Hold.
    + by destruct (find_first (named name) services).
Qed.

Lemma merge_service_names services svc :
  sc_name <$> merge_service services svc =
  if decide (sc_name svc ∈ sc_name <$> services) then sc_name <$> services
  else (sc_name <$> services) ++ [sc_name svc].
Proof.
  unfold merge_service. fold (named (sc_name svc)).
  destruct (find_first (named (sc_name svc)) services) as [old|] eqn:Hold.
  - rewrite names_update_first by done. rewrite decide_True; [done|].
    apply find_first_Some in Hold as [Hin <-%named_true]. apply list_elem_of_fmap. eauto.
  - apply find_named_None in Hold. by rewrite decide_False, fmap_app.
Qed.

(** The last definition of a name in the drop-in files. *)
Definition last_named (name : string) (l : list ServiceConfig) : option ServiceConfig :=
  find_first (named name) (reverse l).

(** What merging a list of definitions does. *)
Definition merged (services defs r : list ServiceConfig) : Prop :=
  (∃ new, sc_name <$> r = (sc_name <$> services) ++ new ∧ NoDup new ∧
          ∀ n, n ∈ new ↔ (n ∉ (sc_name <$> services)) ∧ n ∈ sc_name <$> defs) ∧
  ∀ name, find_first (named name) r =
    match last_named name defs with Some s => Some s | None => find_first (named name) services end.

Lemma foldl_merge_merged services defs : merged services defs (foldl merge_service services defs).
Proof.
  apply (foldl_inv (λ l r, merged services l r)).
  { split; [|done]. exists []. rewrite app_nil_r. split_and!; [done|constructor|]. intros n. simpl.
    split; [by intros ?%elem_of_nil|by intros [_ ?%elem_of_nil]]. }
  intros l1 s l2 r _ [(new & Hnames & Hnd & Hnew) Hfind]. split.
  - rewrite merge_service_names, Hnames. setoid_rewrite fmap_app. csimpl.
    destruct (decide (sc_name s ∈ (sc_name <$> services) ++ new)) as [Hin|Hno].
    + exists new. split_and!; [done|done|]. intros n. rewrite Hnew.
      apply elem_of_app in Hin. rewrite Hnew in Hin. set_solver.
    + exists (new ++ [sc_name s]). rewrite <-(assoc_L (++)). split_and!; [done| |].
      * apply NoDup_app. split_and!; [done|set_solver|apply NoDup_singleton].
      * intros n. rewrite !elem_of_app, Hnew, list_elem_of_singleton. set_solver.
  - intros name. rewrite merge_service_find, Hfind. unfold last_named. rewrite reverse_snoc, find_named_cons.
    by case_decide.
Qed.

Lemma foldl_concat {A B} (f : B → A → B) (ls : list (list A)) b :
  foldl (λ acc l, foldl f acc l) b ls = foldl f b (mjoin ls).
Proof. revert b. induction ls as [|l ls IH]; intros b; simpl; [done|]. by rewrite IH, foldl_app. Qed.

Lemma find_apply_override name m l :
  find_first (named name) (apply_override_service m <$> l) =
  (λ s, set_sc_enabled (default (sc_enabled s) (m !! name)) s) <$> find_first (named name) l.
Proof.
  induction l as [|s l IH]; [done|]. cbn [fmap list_fmap]. rewrite !find_named_cons.
  assert (sc_name (apply_override_service m s) = sc_name s) as ->.
  { unfold apply_override_service. by destruct (m !! sc_name s). }
  case_decide as Hn; [|done]. simpl. unfold apply_override_service. rewrite Hn.
  destruct (m !! name); [done|]. by destruct s.
Qed.

Lemma names_apply_override m (l : list ServiceConfig) : sc_name <$> (apply_override_service m <$> l) = sc_name <$> l.
Proof.
  rewrite <-list_fmap_compose. apply list_fmap_ext. intros i s _. simpl.
  unfold apply_override_service. by destruct (m !! sc_name s).
Qed.

(** ** Properties *)

Section properties.
Context `{Nss}.

(** C31: [Config::validate] accepts exactly the well-formed configurations: an
    absolute log path when capture is on, distinct non-empty names, a start
    command per service, [always] only for daemons, well-formed probes,
    labels and security contexts, known dependencies and known socket users. *)
Theorem validate_correct c : validate c = Ok tt ↔ valid_config c.
Proof. apply validate_ok. Qed.

(** [prepare_security] resolves the security context of every service and
    changes nothing else; it succeeds exactly when every context resolves. *)
Theorem prepare_security_spec c :
  match prepare_security c with
  | Ok c' => ∃ services, c' = set_cf_services services c ∧
      Forall2 (λ s s', ∃ r, s' = set_sc_resolved_security r s ∧
        match sc_security_context s with Some ctx => resolve ctx = Ok r | None => r = None end)
        (cf_services c) services
  | Err e => ∃ s ctx, s ∈ cf_services c ∧ sc_security_context s = Some ctx ∧ resolve ctx = Err e
  end.
Proof.
  unfold prepare_security. set (f := λ svc, let? r := match sc_security_context svc with
    | Some ctx => resolve ctx | None => Ok None end in Ok (set_sc_resolved_security r svc)).
  assert (∀ l acc, try_fold (λ acc svc,
      let? r := match sc_security_context svc with Some ctx => resolve ctx | None => Ok None end in
      Ok (acc ++ [set_sc_resolved_security r svc])) acc l =
    try_fold (λ acc svc, let? b := f svc in Ok (acc ++ [b])) acc l) as ->.
  { induction l as [|s l IH]; intros acc; [done|]. simpl. unfold f at 1.
    destruct (match sc_security_context s with Some _ => _ | None => _ end); [apply IH|done]. }
  destruct (try_fold _ _ _) as [services|e] eqn:Hf.
  - apply try_fold_collect in Hf as (bs & -> & Hbs). exists bs. split; [done|].
    eapply Forall2_impl; [done|]. intros s s'. unfold f. intros Hs.
    destruct (sc_security_context s) as [ctx|]; [destruct (resolve ctx) as [r|]|]; naive_solver.
  - apply try_fold_err in Hf as (l1 & s & l2 & acc & Hl & _ & Hs). exists s. rewrite Hl.
    unfold f in Hs. destruct (sc_security_context s) as [ctx|] eqn:Hctx; [|done].
    exists ctx. split; [set_solver|]. split; [done|]. destruct (resolve ctx); naive_solver.
Qed.

(** The effective services after drop-ins and enabled overrides: the base
    names keep their positions and new ones follow, each once; the definition
    of a name is its last one in the drop-in files, else the base one; only
    its [enabled] flag is taken from the override file. *)
Theorem effective_services_spec c files overrides :
  let services := cf_services
    (apply_enabled_override (set_cf_services (merge_dropins (cf_services c) files) c) overrides) in
  (∃ new, sc_name <$> services = (sc_name <$> cf_services c) ++ new ∧ NoDup new ∧
    ∀ n, n ∈ new ↔ (n ∉ (sc_name <$> cf_services c)) ∧ n ∈ sc_name <$> mjoin files) ∧
  ∀ name, cf_get name (set_cf_services services c) =
    (λ s, set_sc_enabled (default (sc_enabled s) (overrides !! name)) s) <$>
    match last_named name (mjoin files) with
    | Some s => Some s
    | None => cf_get name c
    end.
Proof.
  simpl. unfold merge_dropins. rewrite foldl_concat.
  destruct (foldl_merge_merged (cf_services c) (mjoin files)) as [Hnames Hfind]. split.
  - by rewrite names_apply_override.
  - intros name. unfold cf_get; simpl. fold (named name).
    by rewrite find_apply_override, Hfind.
Qed.

(** A valid service always has a start command, and the restart command is
    [restartCmd], [cmd restart] or the stop and start commands in sequence;
    only a service with neither a stop nor a restart command lacks one. *)
Theorem service_commands_spec s :
  valid_service s →
  (∃ start, resolve_start s = Ok start ∧
    (sc_start_cmd s = Some start ∨ sc_start_cmd s = None ∧
      ∃ c, sc_cmd s = Some c ∧ start = c +:+ " start")) ∧
  ((∃ restart, resolve_restart s = Ok restart) ↔
    is_Some (sc_restart_cmd s) ∨ is_Some (sc_cmd s) ∨ is_Some (sc_stop_cmd s)) ∧
  (∀ stop start, sc_restart_cmd s = None → sc_cmd s = None →
    sc_stop_cmd s = Some stop → sc_start_cmd s = Some start →
    resolve_restart s = Ok (stop +:+ " && " +:+ start)).
Proof.
  intros (_ & _ & Hcmd & _). unfold resolve_restart, resolve_start, resolve_stop.
  destruct (sc_start_cmd s), (sc_cmd s), (sc_restart_cmd s), (sc_stop_cmd s); simpl;
    split_and!; try (by naive_solver); try (by destruct Hcmd as [[]|[]]);
    split; intros; eauto; try (by destruct_or!; destruct H0); by destruct H0.
Qed.
End properties.

Definition example_command_service : ServiceConfig := {|
  sc_name := "db";
  sc_enabled := true;
  sc_daemon := true;
  sc_restart_policy := RestartPolicy.OnError;
  sc_restart_backoff := 2;
  sc_success_exit_codes := [0%Z];
  sc_start_wait_secs := 0;
  sc_shutdown_wait_secs := 5;
  sc_background := false;
  sc_order_priority := 100;
  sc_depends_on := [];
  sc_cmd := None; sc_start_cmd := Some "dbd"; sc_stop_cmd := Some "dbctl stop";
  sc_restart_cmd := None;
  sc_env := ∅;
  sc_cwd := "/";
  sc_liveness_probe := None;
  sc_labels := {[ "tier" := "data" ]};
  sc_security_context := None;
  sc_resolved_security := None;
|}.

Lemma service_commands_spec_witness :
  valid_service example_command_service ∧
  resolve_restart example_command_service = Ok ("dbctl stop" +:+ " && " +:+ "dbd").
Proof.
  assert (valid_service example_command_service) as Hv.
  { eapply (validate_service_ok ∅ _ ({["db"]} ∪ ∅)). vm_compute. reflexivity. }
  split; [exact Hv|].
  apply (proj2 (proj2 (service_commands_spec _ Hv))); reflexivity.
Defined.
