(* ===== verification/Graph.v ===== *)
(** Dependency graph and topological sort: [graph.rs].

    Kahn's algorithm with an ordered ready set.  The main theorems show that
    the result is the unique greedy topological order of the services, that an
    order exists exactly when the dependencies are known and acyclic, and that
    boot and shutdown orders are derived from it as documented. *)

From S2P Require Import Prelude BTree Error Config.
#[local] Open Scope stdpp_scope.

(** Names, priorities, in-degrees and the reverse adjacency lists. *)
Definition service_names (services : list ServiceConfig) : gset string :=
  list_to_set (sc_name <$> services).

(** [collect] into a map: a later entry replaces an earlier one. *)
Definition service_prios (services : list ServiceConfig) : gmap string N :=
  foldl (λ m s, <[sc_name s := sc_order_priority s]> m) ∅ services.

(** [entry(k).or_insert(v)] *)
Definition or_insert {V} (k : string) (v : V) (m : gmap string V) : gmap string V :=
  match m !! k with Some _ => m | None => <[k := v]> m end.

Record edges := mkEdges {
  indegree : gmap string nat;
  adj : gmap string (list string);
}.

Definition init_edges (services : list ServiceConfig) : edges :=
  foldl (λ e s, mkEdges (or_insert (sc_name s) 0 (indegree e)) (or_insert (sc_name s) [] (adj e)))
    (mkEdges ∅ ∅) services.

(** One [dep -> s] edge; the entries are inserted when absent. *)
Definition add_edge (names : gset string) (s : ServiceConfig) (e : edges) (dep : string) :
    Result edges :=
  if decide (dep ∈ names) then
    Ok (mkEdges
      (<[sc_name s := S (default 0 (indegree e !! sc_name s))]> (indegree e))
      (<[dep := default [] (adj e !! dep) ++ [sc_name s]]> (adj e)))
  else Err (Error.Config ("service '" +:+ sc_name s +:+ "': unknown dependency '" +:+ dep +:+ "'")).

Definition add_edges (names : gset string) (e : edges) (s : ServiceConfig) : Result edges :=
  try_fold (add_edge names s) e (sc_depends_on s).

Definition build_edges (services : list ServiceConfig) : Result edges :=
  try_fold (add_edges (service_names services)) (init_edges services) services.

(** The key of a ready service. *)
Definition ready_key (prio : gmap string N) (n : string) : N * string := (default 100%N (prio !! n), n).

Definition initial_ready (prio : gmap string N) (indeg : gmap string nat) : gset (N * string) :=
  list_to_set (ready_key prio ∘ fst <$> filter (λ nd, nd.2 = 0) (map_to_list indeg)).

(** The loop over the children of an emitted service. *)
Definition release (prio : gmap string N) (st : gmap string nat * gset (N * string)) (c : string) :
    gmap string nat * gset (N * string) :=
  let '(indeg, ready) := st in
  match indeg !! c with
  | None => (indeg, ready)
  | Some d =>
      let d := pred d in
      (<[c := d]> indeg, if decide (d = 0) then {[ ready_key prio c ]} ∪ ready else ready)
  end.

(** The [while let] loop; each name becomes ready at most once, so one round
    per name and a last one suffice. *)
Fixpoint kahn (prio : gmap string N) (adj : gmap string (list string)) (fuel : nat)
    (indeg : gmap string nat) (ready : gset (N * string)) (order : list string) :
    list string * gmap string nat :=
  match fuel with
  | O => (order, indeg)
  | S fuel =>
      match bset_pop_first ready with
      | None => (order, indeg)
      | Some ((_, n), ready) =>
          let '(indeg, ready) := foldl (release prio) (indeg, ready) (default [] (adj !! n)) in
          kahn prio adj fuel indeg ready (order ++ [n])
      end
  end.

Section with_hash_order.
Context `{HashOrder}.

Definition topological_sort (services : list ServiceConfig) : Result (list string) :=
  let prio := service_prios services in
  let? e := build_edges services in
  let ready := initial_ready prio (indegree e) in
  let '(order, indeg) := kahn prio (adj e) (S (size (indegree e))) (indegree e) ready [] in
  if decide (length order ≠ length services) then
    let leftover := fst <$> filter (λ nd, 0 < nd.2) (hash_iter indeg) in
    Err (Error.Cycle (default "unknown" (head leftover)))
  else Ok order.

(** The service with a given name; a later entry replaces an earlier one. *)
Definition by_name (services : list ServiceConfig) : gmap string ServiceConfig :=
  foldl (λ m s, <[sc_name s := s]> m) ∅ services.

Definition partition_boot (services : list ServiceConfig) :
    Result (list string * list string) :=
  let? order := topological_sort services in
  let m := by_name services in
  Ok (foldl (λ '(fg, bg) name,
        match m !! name with
        | None => (fg, bg)
        | Some svc =>
            if negb (sc_enabled svc) then (fg, bg)
            else if sc_background svc then (fg, bg ++ [name]) else (fg ++ [name], bg)
        end) ([], []) order).

Definition shutdown_order (services : list ServiceConfig) : Result (list string) :=
  let? order := topological_sort services in
  Ok (reverse order).
End with_hash_order.

(** ** Specification *)

(** [d] is listed in the [dependsOn] of a service named [n]. *)
Definition depends (services : list ServiceConfig) (d n : string) : Prop :=
  ∃ s, s ∈ services ∧ sc_name s = n ∧ d ∈ sc_depends_on s.

Definition acyclic (services : list ServiceConfig) : Prop :=
  ∀ n, ¬ tc (depends services) n n.

(** All dependencies of [s] are among [started]. *)
Definition startable (started : list string) (s : ServiceConfig) : Prop :=
  ∀ d, d ∈ sc_depends_on s → d ∈ started.

(** The order documented for boot: every position holds, among the services
    not placed yet whose dependencies are all placed, the one with the least
    [(orderPriority, name)]. *)
Definition greedy_order (services : list ServiceConfig) (order : list string) : Prop :=
  order ≡ₚ (sc_name <$> services) ∧
  ∀ l1 n l2 s, order = l1 ++ n :: l2 → s ∈ services → sc_name s = n →
    startable l1 s ∧
    ∀ t, t ∈ services → sc_name t ∉ l1 → startable l1 t →
      ord_le (sc_order_priority s, sc_name s) (sc_order_priority t, sc_name t).

(** ** Edges *)

Definition edge_list (services : list ServiceConfig) : list (string * string) :=
  services ≫= λ s, (λ d, (d, sc_name s)) <$> sc_depends_on s.

Lemma elem_of_edge_list services d n :
  (d, n) ∈ edge_list services ↔ depends services d n.
Proof.
  unfold edge_list, depends. rewrite list_elem_of_bind. split.
  - intros (s & (d' & [= -> ->] & Hd)%list_elem_of_fmap & Hs). eauto.
  - intros (s & Hs & <- & Hd). exists s. split; [|done]. apply list_elem_of_fmap. eauto.
Qed.

Definition in_count (n : string) (E : list (string * string)) : nat :=
  length (filter (λ e, e.2 = n) E).
Definition succs (n : string) (E : list (string * string)) : list string :=
  snd <$> filter (λ e, e.1 = n) E.

Lemma in_count_app n E1 E2 : in_count n (E1 ++ E2) = in_count n E1 + in_count n E2.
Proof. unfold in_count. by rewrite filter_app, length_app. Qed.
Lemma succs_app n E1 E2 : succs n (E1 ++ E2) = succs n E1 ++ succs n E2.
Proof. unfold succs. by rewrite filter_app, fmap_app. Qed.

Definition ind (e : edges) (n : string) : nat := default 0 (indegree e !! n).
Definition adjl (e : edges) (n : string) : list string := default [] (adj e !! n).

(** What adding the edges [E] does to an edge state. *)
Definition extends (e : edges) (E : list (string * string)) (e' : edges) : Prop :=
  dom (indegree e') = dom (indegree e) ∧
  (∀ n, ind e' n = ind e n + in_count n E) ∧ (∀ n, adjl e' n = adjl e n ++ succs n E).

Lemma extends_trans e1 E1 e2 E2 e3 :
  extends e1 E1 e2 → extends e2 E2 e3 → extends e1 (E1 ++ E2) e3.
Proof.
  intros (D1 & I1 & A1) (D2 & I2 & A2). split_and!.
  - congruence.
  - intros n. rewrite I2, I1, in_count_app. lia.
  - intros n. by rewrite A2, A1, succs_app, <-(assoc_L (++)).
Qed.

Lemma extends_refl e : extends e [] e.
Proof. split_and!; [done| |]; intros n; [unfold in_count; simpl; lia|by rewrite app_nil_r]. Qed.

Lemma add_edge_extends names s e d e' :
  sc_name s ∈ dom (indegree e) → add_edge names s e d = Ok e' →
  d ∈ names ∧ extends e [(d, sc_name s)] e'.
Proof.
  intros Hs. unfold add_edge. case_decide as Hd; [|done]. intros [= <-]. split; [done|].
  split_and!; simpl.
  - rewrite dom_insert_L. set_solver.
  - intros n. unfold ind, in_count; simpl. rewrite lookup_insert, filter_cons. simpl.
    repeat case_decide; subst; simpl; try done; lia.
  - intros n. unfold adjl, succs; simpl. rewrite lookup_insert, filter_cons. simpl.
    repeat case_decide; subst; simpl; try done; by rewrite app_nil_r.
Qed.

Lemma add_edges_extends names s e e' :
  sc_name s ∈ dom (indegree e) → add_edges names e s = Ok e' →
  (∀ d, d ∈ sc_depends_on s → d ∈ names) ∧
  extends e ((λ d, (d, sc_name s)) <$> sc_depends_on s) e'.
Proof.
  intros Hs. unfold add_edges.
  apply (try_fold_inv (λ ds c, (∀ d, d ∈ ds → d ∈ names) ∧
    extends e ((λ d, (d, sc_name s)) <$> ds) c)).
  - split; [set_solver|]. apply extends_refl.
  - intros ds d ds' c c' _ [Hds Hext] Hc.
    apply add_edge_extends in Hc as [Hd Hext']; [|destruct Hext as [-> _]; done].
    rewrite fmap_app. split; [set_solver|]. by eapply extends_trans.
Qed.

Lemma init_edges_spec services :
  dom (indegree (init_edges services)) = service_names services ∧
  (∀ n, ind (init_edges services) n = 0) ∧ (∀ n, adjl (init_edges services) n = []).
Proof.
  unfold init_edges.
  apply (foldl_inv (λ l e, dom (indegree e) = service_names l ∧
    (∀ n, ind e n = 0) ∧ (∀ n, adjl e n = []))).
  { unfold ind, adjl; simpl. split_and!; [by rewrite dom_empty_L|..]; done. }
  intros l1 s l2 e _ (Hdom & Hind & Hadj). unfold service_names in *. split_and!.
  - rewrite fmap_app, list_to_set_app_L. simpl. rewrite <-Hdom. unfold or_insert.
    case_match eqn:Hl; [apply elem_of_dom_2 in Hl|rewrite dom_insert_L]; set_solver.
  - intros n. specialize (Hind n). unfold ind, or_insert in *; simpl.
    case_match; [done|]. rewrite lookup_insert. by case_decide.
  - intros n. specialize (Hadj n). unfold adjl, or_insert in *; simpl.
    case_match; [done|]. rewrite lookup_insert. by case_decide.
Qed.

Lemma build_edges_Ok services e :
  build_edges services = Ok e →
  known_deps services ∧ dom (indegree e) = service_names services ∧
  (∀ n, ind e n = in_count n (edge_list services)) ∧
  (∀ n, adjl e n = succs n (edge_list services)).
Proof.
  destruct (init_edges_spec services) as (Hdom & Hind & Hadj). unfold build_edges. intros He.
  assert ((∀ s d, s ∈ services → d ∈ sc_depends_on s → d ∈ service_names services) ∧
    extends (init_edges services) (edge_list services) e) as (Hk & D & I & A).
  { revert He. apply (try_fold_inv (λ l c,
      (∀ s d, s ∈ l → d ∈ sc_depends_on s → d ∈ service_names services) ∧
      extends (init_edges services) (edge_list l) c)).
    - split; [set_solver|]. apply extends_refl.
    - intros l1 s l2 c c' Hl [Hk Hext] Hc.
      apply add_edges_extends in Hc as [Hds Hext'].
      2:{ destruct Hext as [-> _]. rewrite Hdom, Hl. unfold service_names. set_solver. }
      split; [set_solver|]. unfold edge_list. rewrite bind_app. simpl. rewrite app_nil_r.
      by eapply extends_trans. }
  split_and!.
  - intros s d Hs Hd. specialize (Hk s d Hs Hd). unfold service_names in Hk. set_solver.
  - congruence.
  - intros n. by rewrite I, Hind.
  - intros n. by rewrite A, Hadj.
Qed.

Lemma add_edge_Err names s e d err :
  add_edge names s e d = Err err →
  (d ∉ names) ∧ err = Error.Config ("service '" +:+ sc_name s +:+ "': unknown dependency '"
                                  +:+ d +:+ "'").
Proof. unfold add_edge. case_decide; [done|]. by intros [= <-]. Qed.

Lemma build_edges_Err services err :
  build_edges services = Err err →
  ∃ s d, s ∈ services ∧ d ∈ sc_depends_on s ∧ (d ∉ (sc_name <$> services)) ∧
    err = Error.Config ("service '" +:+ sc_name s +:+ "': unknown dependency '" +:+ d +:+ "'").
Proof.
  intros (l1 & s & l2 & c & Hl & _ & Hs)%try_fold_err.
  apply try_fold_err in Hs as (k1 & d & k2 & c' & Hk & _ & [Hd ->]%add_edge_Err).
  exists s, d. split_and!; [rewrite Hl; set_solver|rewrite Hk; set_solver| |done].
  unfold service_names in Hd. set_solver.
Qed.

(** ** The loop *)

Section kahn.
Context (prio : gmap string N) (names : gset string) (E : list (string * string)).
Implicit Types (indeg : gmap string nat) (ready : gset (N * string)) (order : list string).

Definition deg indeg (n : string) : nat := default 0 (indeg !! n).

(** Edges into [n] whose source is not emitted yet. *)
Definition pending order (n : string) : nat :=
  length (filter (λ e, e.2 = n ∧ e.1 ∉ order) E).

Definition kahn_inv indeg order : Prop :=
  dom indeg = names ∧ NoDup order ∧ (∀ n, n ∈ order → n ∈ names ∧ pending order n = 0) ∧
  (∀ n, n ∈ names → deg indeg n = pending order n).

Definition kahn_ready ready order : Prop :=
  ∀ k, k ∈ ready ↔ ∃ n, k = ready_key prio n ∧ n ∈ names ∧ (n ∉ order) ∧ pending order n = 0.

(** [n] is the least name that can be emitted after [order]. *)
Definition next order n : Prop :=
  n ∈ names ∧ (n ∉ order) ∧ pending order n = 0 ∧
  ∀ m, m ∈ names → (m ∉ order) → pending order m = 0 → ord_le (ready_key prio n) (ready_key prio m).

Lemma release_spec indeg ready cs :
  (∀ c, c ∈ cs → c ∈ dom indeg) →
  (∀ c, length (filter (eq c) cs) ≤ deg indeg c) →
  let st := foldl (release prio) (indeg, ready) cs in
  dom st.1 = dom indeg ∧
  (∀ c, deg st.1 c = deg indeg c - length (filter (eq c) cs)) ∧
  (∀ k, k ∈ st.2 ↔ k ∈ ready ∨ ∃ c, c ∈ cs ∧ k = ready_key prio c ∧ deg st.1 c = 0).
Proof.
  intros Hdom Hcount.
  apply (foldl_inv (λ l st, dom st.1 = dom indeg ∧
    (∀ c, deg st.1 c = deg indeg c - length (filter (eq c) l)) ∧
    (∀ k, k ∈ st.2 ↔ k ∈ ready ∨ ∃ c, c ∈ l ∧ k = ready_key prio c ∧ deg st.1 c = 0))).
  { simpl. split_and!; [done|intros; lia|]. set_solver. }
  intros l1 c l2 [indeg1 ready1] Hcs (Hd & Hdeg & Hready); simpl in *.
  assert (c ∈ dom indeg1) as [d Hc]%elem_of_dom by (rewrite Hd; apply Hdom; set_solver).
  assert (deg indeg1 c = d) as Hdc by (unfold deg; by rewrite Hc).
  assert (0 < d) as Hpos.
  { specialize (Hcount c). specialize (Hdeg c).
    rewrite Hcs, filter_app, length_app, filter_cons_True in Hcount by done.
    simpl in Hcount. lia. }
  rewrite Hc; simpl.
  assert (∀ x, deg (<[c:=pred d]> indeg1) x = if decide (x = c) then pred d else deg indeg1 x) as Hx.
  { intros x. unfold deg. rewrite lookup_insert. repeat case_decide; naive_solver. }
  split_and!.
  - rewrite dom_insert_L. apply elem_of_dom_2 in Hc. set_solver.
  - intros x. rewrite Hx, filter_app, length_app, filter_cons. specialize (Hdeg x).
    repeat case_decide; subst; simpl; try done; lia.
  - intros k.
    assert (k ∈ (if decide (pred d = 0) then {[ready_key prio c]} ∪ ready1 else ready1) ↔
            (pred d = 0 ∧ k = ready_key prio c) ∨ k ∈ ready1) as ->.
    { case_decide; set_solver. }
    rewrite Hready. split.
    + intros [[Hp ->]|[?|(x & Hin & -> & Hx0)]]; [|by left|].
      * right. exists c. rewrite Hx, decide_True by done. set_solver.
      * right. exists x. rewrite Hx. case_decide; [subst; lia|set_solver].
    + intros [?|(x & Hin & -> & Hx0)]; [by right; left|]. rewrite Hx in Hx0.
      case_decide; [subst; by left|]. right; right. exists x. set_solver.
Qed.

Lemma pending_snoc order n m :
  n ∉ order →
  pending order m = pending (order ++ [n]) m + length (filter (eq m) (succs n E)).
Proof.
  intros Hn. unfold pending, succs.
  induction E as [|[d x] E' IH]; csimpl; [done|].
  rewrite !filter_cons; csimpl. destruct (decide (d = n)) as [->|Hdn]; csimpl.
  - rewrite (decide_False (P := x = m ∧ n ∉ order ++ [n])) by set_solver.
    rewrite filter_cons. repeat case_decide; simpl; first [lia|exfalso; naive_solver].
  - assert (d ∉ order ++ [n] ↔ d ∉ order) as Hiff by set_solver.
    repeat case_decide; simpl; first [lia|exfalso; naive_solver].
Qed.

Lemma pending_zero order n : pending order n = 0 ↔ ∀ d, (d, n) ∈ E → d ∈ order.
Proof.
  unfold pending. rewrite length_zero_iff_nil. split.
  - intros Hnil d Hd. destruct (decide (d ∈ order)) as [|Hno]; [done|]. exfalso.
    assert ((d, n) ∈ filter (λ e, e.2 = n ∧ e.1 ∉ order) E) as Hin.
    { by apply list_elem_of_filter. }
    rewrite Hnil in Hin. set_solver.
  - intros Hall. destruct (filter _ E) as [|[d x] l] eqn:Hf; [done|]. exfalso.
    assert ((d, x) ∈ filter (λ e, e.2 = n ∧ e.1 ∉ order) E) as Hin by (rewrite Hf; set_solver).
    apply list_elem_of_filter in Hin as [[Hx Hd] Hin]; simpl in *; subst. by apply Hd, Hall.
Qed.

Lemma inv_length indeg order : kahn_inv indeg order → length order ≤ size names.
Proof.
  intros (_ & Hnd & Hsub & _). rewrite <-(size_list_to_set (C:=gset string) order) by done.
  apply subseteq_size. set_solver.
Qed.

Context (adjm : gmap string (list string)).
Hypothesis Hadj : ∀ n, default [] (adjm !! n) = succs n E.
Hypothesis HE : ∀ d n, (d, n) ∈ E → n ∈ names.

Lemma succs_elem n c : c ∈ succs n E ↔ (n, c) ∈ E.
Proof.
  unfold succs. rewrite list_elem_of_fmap. split.
  - intros ([d x] & -> & [? ?]%list_elem_of_filter); simpl in *; by subst.
  - intros ?. exists (n, c). by rewrite list_elem_of_filter.
Qed.

(** The ready set after a round. *)
Lemma ready_step (ready : gset (N * string)) order n (z : string → nat) k :
  kahn_ready ready order → n ∉ order → (∀ m, m ∈ order → pending order m = 0) →
  pending order n = 0 → (∀ c, c ∈ succs n E → c ∈ names) →
  (∀ m, m ∈ names → z m = pending (order ++ [n]) m) →
  (k ∈ ready ∖ {[ready_key prio n]} ∨ ∃ c, c ∈ succs n E ∧ k = ready_key prio c ∧ z c = 0) ↔
  ∃ m, k = ready_key prio m ∧ m ∈ names ∧ (m ∉ order ++ [n]) ∧ pending (order ++ [n]) m = 0.
Proof.
  intros Hrd Hno Hemit Hn0 Hcs Hz. rewrite elem_of_difference, (Hrd k), elem_of_singleton.
  pose proof (λ m, pending_snoc order n m Hno) as Hsnoc. split.
  - intros [[(m & -> & Hm & Hmo & Hm0) Hne]|(m & Hmc & -> & Hm0)]; exists m.
    + assert (m ≠ n) by (intros ->; done). specialize (Hsnoc m).
      split_and!; [done|done|set_solver|lia].
    + rewrite Hz in Hm0 by auto. split_and!; [done|auto| |done].
      intros Hmo. assert (pending order m = 0) as Hp by set_solver.
      apply succs_elem in Hmc. by eapply pending_zero in Hmc.
  - intros (m & -> & Hm & Hmo & Hm0).
    destruct (decide (pending order m = 0)) as [Hp|Hp].
    + left. split; [exists m; set_solver|]. intros [= _ ->]. set_solver.
    + right. exists m. rewrite Hz by done. split_and!; [|done|done].
      assert (0 < length (filter (eq m) (succs n E))) as Hlen by (specialize (Hsnoc m); lia).
      destruct (filter (eq m) (succs n E)) as [|x l] eqn:Hf; [simpl in Hlen; lia|].
      assert (x ∈ filter (eq m) (succs n E)) as [-> ?]%list_elem_of_filter; [|done].
      rewrite Hf; set_solver.
Qed.

Lemma succs_count indeg order n c :
  kahn_inv indeg order → n ∉ order → length (filter (eq c) (succs n E)) ≤ deg indeg c.
Proof.
  intros (_ & _ & _ & Hdeg) Hno. pose proof (pending_snoc order n c Hno).
  destruct (decide (c ∈ names)) as [Hc|Hc]; [rewrite Hdeg by done; lia|].
  destruct (filter (eq c) (succs n E)) as [|x l] eqn:Hf; [simpl; lia|].
  assert (x ∈ filter (eq c) (succs n E)) as [-> Hx]%list_elem_of_filter by (rewrite Hf; set_solver).
  destruct Hc. by eapply HE, succs_elem.
Qed.

(** One round keeps the invariant and emits the least ready name. *)
Lemma kahn_step indeg ready order p n ready' :
  kahn_inv indeg order → kahn_ready ready order →
  bset_pop_first ready = Some ((p, n), ready') →
  let st := foldl (release prio) (indeg, ready') (default [] (adjm !! n)) in
  kahn_inv st.1 (order ++ [n]) ∧ kahn_ready st.2 (order ++ [n]) ∧ next order n.
Proof.
  intros Hinv Hrd (Hin & -> & Hmin)%bset_pop_first_Some.
  pose proof Hinv as (Hdom & Hnd & Hsub & Hdeg).
  apply Hrd in Hin as (n' & [= -> <-] & Hn & Hno & Hp0). rewrite Hadj.
  pose proof (λ m, pending_snoc order n m Hno) as Hsnoc.
  assert (∀ c, c ∈ succs n E → c ∈ names) as Hcs by (intros c ?%succs_elem; by eapply HE).
  destruct (release_spec indeg (ready ∖ {[ready_key prio n]}) (succs n E)) as (Hd & Hdg & Hr).
  { by rewrite Hdom. }
  { intros c. by apply (succs_count _ order). }
  set (st := foldl _ _ _) in *.
  assert (∀ m, m ∈ names → deg st.1 m = pending (order ++ [n]) m) as Hdeg'.
  { intros m Hm. rewrite Hdg, Hdeg by done. specialize (Hsnoc m). lia. }
  split; [split_and!|split].
  - congruence.
  - apply NoDup_app. split_and!; [done|set_solver|apply NoDup_singleton].
  - intros m [Hm| ->%list_elem_of_singleton]%elem_of_app; (split; [naive_solver|]).
    + specialize (Hsnoc m). apply Hsub in Hm as [_ ?]. lia.
    + specialize (Hsnoc n). lia.
  - done.
  - intros k. rewrite Hr. apply (ready_step _ _ _ (deg st.1)); try done. set_solver.
  - split_and!; [done..|]. intros m Hm Hmo Hm0. apply Hmin, Hrd. by exists m.
Qed.

(** A greedy run: every name is the least one that could come next. *)
Definition greedy order : Prop := ∀ l1 n l2, order = l1 ++ n :: l2 → next l1 n.

Lemma greedy_snoc order n : greedy order → next order n → greedy (order ++ [n]).
Proof.
  intros Hg Hn l1 x l2 Heq.
  destruct l2 as [|y l2 _] using rev_ind.
  - by apply app_inj_tail in Heq as [-> ->].
  - rewrite app_comm_cons, (assoc_L (++)) in Heq. apply app_inj_tail in Heq as [-> _].
    by eapply Hg.
Qed.

(** The loop ends with nothing left to emit: the fuel suffices. *)
Lemma kahn_spec fuel indeg ready order :
  kahn_inv indeg order → kahn_ready ready order → greedy order →
  size names < fuel + length order →
  let r := kahn prio adjm fuel indeg ready order in
  kahn_inv r.2 r.1 ∧ greedy r.1 ∧
  ∀ n, n ∈ names → (n ∉ r.1) → ∃ d, (d ∉ r.1) ∧ (d, n) ∈ E.
Proof.
  revert indeg ready order. induction fuel as [|fuel IH]; intros indeg ready order Hinv Hrd Hg Hf.
  { apply inv_length in Hinv. simpl in Hf. lia. }
  simpl. destruct (bset_pop_first ready) as [[[p n] ready']|] eqn:Hpop.
  - destruct (kahn_step _ _ _ _ _ _ Hinv Hrd Hpop) as (Hinv' & Hrd' & Hn).
    destruct (foldl _ _ _) as [indeg' ready'']. apply IH; [done|done|by apply greedy_snoc|].
    rewrite length_app; simpl. lia.
  - apply bset_pop_first_None in Hpop as ->. split_and!; [done..|]. intros n Hn Hno.
    destruct (decide (pending order n = 0)) as [Hp|Hp].
    + destruct (Hrd (ready_key prio n)) as [_ Hr]. set_solver.
    + unfold pending in Hp. destruct (filter _ E) as [|[d x] l] eqn:Hfl; [done|].
      assert ((d, x) ∈ filter (λ e, e.2 = n ∧ e.1 ∉ order) E) as Hin by (rewrite Hfl; set_solver).
      apply list_elem_of_filter in Hin as [[Hx Hd] Hin]; simpl in *; subst. by exists d.
Qed.

(** Two greedy runs agree as far as both go. *)
Lemma greedy_prefix o1 o2 :
  greedy o1 → greedy o2 → o1 `prefix_of` o2 ∨ o2 `prefix_of` o1.
Proof.
  intros Hg1 Hg2. induction o1 as [|n o IH] using rev_ind.
  { left. apply prefix_nil. }
  destruct IH as [[l ->]|Hp].
  { intros l1 x l2 ->. apply (Hg1 l1 x (l2 ++ [n])). by rewrite <-(assoc_L (++)). }
  - destruct l as [|m l]; [right|left].
    { rewrite app_nil_r. by apply prefix_app_r. }
    assert (next o n) as (Hn & Hno & Hn0 & Hnm) by by apply (Hg1 o n []).
    assert (next o m) as (Hm & Hmo & Hm0 & Hmn) by by apply (Hg2 o m l).
    assert (ready_key prio n = ready_key prio m) as [= _ ->].
    { by apply (anti_symm ord_le); auto. }
    exists l. by rewrite <-(assoc_L (++)).
  - right. by apply prefix_app_r.
Qed.
End kahn.

(** ** The sort *)

Lemma initial_ready_spec services e :
  build_edges services = Ok e →
  kahn_ready (service_prios services) (service_names services) (edge_list services)
    (initial_ready (service_prios services) (indegree e)) [].
Proof.
  intros (_ & Hdom & Hind & _)%build_edges_Ok k. unfold initial_ready.
  rewrite elem_of_list_to_set, list_elem_of_fmap.
  assert (∀ n, pending (edge_list services) [] n = ind e n) as Hp.
  { intros n. rewrite Hind. unfold pending, in_count. f_equal. apply list_filter_iff. set_solver. }
  split.
  - intros ([n d] & -> & [Hd Hin%elem_of_map_to_list]%list_elem_of_filter); simpl in *.
    exists n. rewrite Hp, <-Hdom. unfold ind. rewrite Hin. split_and!; [done| |set_solver|done].
    by eapply elem_of_dom_2.
  - intros (n & -> & Hn & _ & H0). rewrite <-Hdom in Hn. apply elem_of_dom in Hn as [d Hd].
    exists (n, d). rewrite Hp in H0. unfold ind in H0. rewrite Hd in H0. simpl in *. split; [done|].
    apply list_elem_of_filter. by rewrite elem_of_map_to_list.
Qed.

Definition all_greedy (services : list ServiceConfig) : list string → Prop :=
  greedy (service_prios services) (service_names services) (edge_list services).

(** The run of the loop inside [topological_sort]. *)
Lemma kahn_run services e :
  build_edges services = Ok e →
  let r := kahn (service_prios services) (adj e) (S (size (indegree e))) (indegree e)
             (initial_ready (service_prios services) (indegree e)) [] in
  kahn_inv (service_names services) (edge_list services) r.2 r.1 ∧ all_greedy services r.1 ∧
  ∀ n, n ∈ service_names services → (n ∉ r.1) →
    ∃ d, (d ∉ r.1) ∧ depends services d n.
Proof.
  intros He. pose proof (initial_ready_spec _ _ He) as Hrd.
  apply build_edges_Ok in He as (Hk & Hdom & Hind & Hadj).
  destruct (kahn_spec (service_prios services) (service_names services) (edge_list services)
    (adj e) Hadj) with (fuel := S (size (indegree e))) (indeg := indegree e)
    (ready := initial_ready (service_prios services) (indegree e)) (order := @nil string)
    as (Hinv & Hg & Hstuck).
  - intros d n (s & Hs & <- & _)%elem_of_edge_list. unfold service_names. set_solver.
  - split_and!; [done|by constructor|set_solver|]. intros n Hn.
    fold (ind e n). change (deg (indegree e) n) with (ind e n). rewrite Hind.
    unfold pending, in_count. f_equal. apply list_filter_iff. set_solver.
  - done.
  - intros [] ???; discriminate.
  - rewrite <-Hdom, size_dom. simpl. lia.
  - split_and!; [done..|]. intros n Hn Hno. destruct (Hstuck n Hn Hno) as (d & ? & ?).
    exists d. by rewrite <-elem_of_edge_list.
Qed.

(** ** Meaning of the greedy runs *)

Section unique_names.
Context (services : list ServiceConfig).
Hypothesis Hnd : NoDup (sc_name <$> services).

Lemma by_unique_name s t : s ∈ services → t ∈ services → sc_name s = sc_name t → s = t.
Proof.
  intros [i Hi]%list_elem_of_lookup [j Hj]%list_elem_of_lookup Heq.
  assert (i = j) as ->; [|congruence].
  apply (NoDup_lookup (sc_name <$> services) _ _ (sc_name s)); [done|..];
    rewrite list_lookup_fmap; [by rewrite Hi|by rewrite Hj, Heq].
Qed.

Lemma service_prios_lookup s :
  s ∈ services → ready_key (service_prios services) (sc_name s) = (sc_order_priority s, sc_name s).
Proof.
  intros Hs. unfold ready_key, service_prios.
  enough (foldl (λ m s, <[sc_name s:=sc_order_priority s]> m) (∅ : gmap string N) services
    !! sc_name s = Some (sc_order_priority s)) as -> by done.
  revert s Hs. apply (foldl_inv (λ l (m : gmap string N), ∀ s, s ∈ l →
    m !! sc_name s = Some (sc_order_priority s))); [set_solver|].
  intros l1 t l2 m Heq IH s [Hs| ->%list_elem_of_singleton]%elem_of_app.
  - rewrite lookup_insert_ne; [by apply IH|]. intros Heqn. apply by_unique_name in Heqn; [|set_solver..].
    subst t. rewrite Heq, fmap_app in Hnd. apply NoDup_app in Hnd as (_ & Hdis & _).
    apply (Hdis (sc_name s)); csimpl; set_solver.
  - by rewrite lookup_insert, decide_True.
Qed.

Lemma depends_name s d : s ∈ services → depends services d (sc_name s) ↔ d ∈ sc_depends_on s.
Proof.
  intros Hs. split; [|by exists s]. intros (t & Ht & Heq & Hd).
  by rewrite <-(by_unique_name t s).
Qed.

Lemma pending_startable order s :
  s ∈ services → pending (edge_list services) order (sc_name s) = 0 ↔ startable order s.
Proof.
  intros Hs. rewrite pending_zero. unfold startable. apply forall_proper; intros d.
  by rewrite elem_of_edge_list, depends_name.
Qed.

Lemma elem_of_service_names n : n ∈ service_names services ↔ ∃ s, s ∈ services ∧ sc_name s = n.
Proof. unfold service_names. set_solver. Qed.

Lemma size_service_names : size (service_names services) = length services.
Proof. unfold service_names. by rewrite size_list_to_set, length_fmap. Qed.

Lemma greedy_order_all_greedy order : greedy_order services order → all_greedy services order.
Proof.
  intros [Hperm Hg] l1 n l2 ->.
  assert (n ∈ sc_name <$> services) as (s & -> & Hs)%list_elem_of_fmap.
  { rewrite <-Hperm. set_solver. }
  destruct (Hg l1 (sc_name s) l2 s) as [Hst Hmin]; [done..|].
  assert (sc_name s ∉ l1) as Hno.
  { rewrite <-Hperm in Hnd. apply NoDup_app in Hnd as (_ & Hdis & _).
    intros ?. eapply Hdis; [done|]. set_solver. }
  split_and!; [apply elem_of_service_names; eauto|done|by apply pending_startable|].
  intros m (t & Ht & <-)%elem_of_service_names Hmo Hm0%pending_startable; [|done].
  rewrite !service_prios_lookup by done. by apply Hmin.
Qed.

Lemma all_greedy_greedy_order order :
  all_greedy services order → NoDup order → (∀ n, n ∈ order → n ∈ service_names services) →
  length order = length services → greedy_order services order.
Proof.
  intros Hg Hndo Hsub Hlen. split.
  - apply submseteq_length_Permutation; [|by rewrite length_fmap, Hlen].
    apply NoDup_submseteq; [done|]. intros n Hn. apply Hsub in Hn. unfold service_names in Hn.
    set_solver.
  - intros l1 n l2 s Ho Hs <-. destruct (Hg _ _ _ Ho) as (Hn & Hno & Hn0 & Hmin).
    split; [by apply pending_startable|]. intros t Ht Hto Hst.
    rewrite <-!service_prios_lookup by done. apply Hmin; [|done|by apply pending_startable].
    apply elem_of_service_names; eauto.
Qed.

Lemma greedy_order_known order : greedy_order services order → known_deps services.
Proof.
  intros [Hperm Hg] s d Hs Hd.
  assert (sc_name s ∈ order) as (l1 & l2 & Ho)%list_elem_of_split.
  { rewrite Hperm. set_solver. }
  destruct (Hg _ _ _ _ Ho Hs) as [Hst _]; [done|].
  rewrite <-Hperm, Ho. apply Hst in Hd. set_solver.
Qed.

Lemma greedy_order_before order d n :
  greedy_order services order → depends services d n → before d n order.
Proof.
  intros [Hperm Hg] (s & Hs & <- & Hd) l1 l2 Ho.
  by apply (Hg _ _ _ _ Ho Hs).
Qed.

Lemma greedy_order_acyclic order : greedy_order services order → acyclic services.
Proof.
  intros Hg n Hn. assert (before n n order) as Hb.
  { assert (∀ a b, tc (depends services) a b → before a b order) as Htc; [|by apply Htc].
    induction 1 as [a b Hab|a b c Hab _ IH]; [by eapply greedy_order_before|].
    intros l1 l2 ->. destruct (list_elem_of_split l1 b) as (k1 & k2 & ->).
    { by eapply IH. }
    assert (a ∈ k1); [|set_solver]. eapply greedy_order_before; [done..|].
    by rewrite <-(assoc_L (++)). }
  destruct Hg as [Hperm _].
  apply before_irrefl in Hb; [done|by rewrite Hperm|].
  rewrite Hperm. assert (∀ a b, tc (depends services) a b → b ∈ sc_name <$> services) as Hin.
  { induction 1 as [a b (s & Hs & <- & _)|]; set_solver. }
  by eapply Hin.
Qed.
End unique_names.

Section sort.
Context `{HashOrder}.
Implicit Types services : list ServiceConfig.

Lemma topological_sort_unfold services e :
  build_edges services = Ok e →
  let r := kahn (service_prios services) (adj e) (S (size (indegree e))) (indegree e)
             (initial_ready (service_prios services) (indegree e)) [] in
  topological_sort services =
  if decide (length r.1 ≠ length services) then
    Err (Error.Cycle (default "unknown" (head (fst <$> filter (λ nd, 0 < nd.2) (hash_iter r.2)))))
  else Ok r.1.
Proof. intros He. unfold topological_sort. rewrite He. by destruct (kahn _ _ _ _ _ _). Qed.

Lemma topological_sort_sound services order :
  NoDup (sc_name <$> services) → topological_sort services = Ok order →
  greedy_order services order.
Proof.
  intros Hnd Hsort. destruct (build_edges services) as [e|] eqn:He.
  2:{ unfold topological_sort in Hsort. by rewrite He in Hsort. }
  rewrite (topological_sort_unfold _ _ He) in Hsort.
  destruct (kahn_run _ _ He) as ((_ & Hndo & Hsub & _) & Hg & _).
  destruct (kahn _ _ _ _ _ _) as [o i]; simpl in *.
  case_decide; [done|]. injection Hsort as ->.
  apply all_greedy_greedy_order; [done..|naive_solver|lia].
Qed.

Lemma topological_sort_complete services order :
  NoDup (sc_name <$> services) → greedy_order services order →
  topological_sort services = Ok order.
Proof.
  intros Hnd Hgo. destruct (build_edges services) as [e|] eqn:He.
  2:{ apply build_edges_Err in He as (s & d & Hs & Hd & Hno & _).
      destruct Hno. by eapply greedy_order_known. }
  rewrite (topological_sort_unfold _ _ He).
  destruct (kahn_run _ _ He) as ((_ & Hndo & Hsub & _) & Hg & Hstuck).
  destruct (kahn _ _ _ _ _ _) as [o i]; simpl in *.
  assert (length order = length services) as Hlen.
  { destruct Hgo as [Hp _]. by rewrite Hp, length_fmap. }
  assert (o = order) as ->; [|by rewrite decide_False by lia].
  pose proof (greedy_order_all_greedy _ Hnd _ Hgo) as Hgo'.
  assert (∀ n, n ∈ order ↔ n ∈ service_names services) as Hin.
  { intros n. destruct Hgo as [-> _]. unfold service_names. set_solver. }
  destruct (greedy_prefix _ _ _ _ _ Hg Hgo') as [[[|m l] ->]|[l ->]].
  - by rewrite app_nil_r.
  - exfalso. assert (next (service_prios services) (service_names services)
      (edge_list services) o m) as (Hm & Hmo & Hm0 & _) by by apply (Hgo' o m l).
    destruct (Hstuck m Hm Hmo) as (d & Hd & Hdm). apply Hd.
    eapply pending_zero; [done|]. by apply elem_of_edge_list.
  - assert (length (order ++ l) ≤ length services) as Hle.
    { rewrite <-size_service_names, <-(size_list_to_set (C:=gset string) (order ++ l)) by done.
      apply subseteq_size. set_solver. }
    rewrite length_app in Hle. destruct l; simpl in Hle; [by rewrite app_nil_r|lia].
Qed.

(** What each result says of the services. *)
Definition sort_verdict services (r : Result (list string)) : Prop :=
  match r with
  | Ok order => known_deps services ∧ acyclic services ∧ order ≡ₚ (sc_name <$> services)
  | Err (Error.Config msg) =>
      ∃ s d, s ∈ services ∧ d ∈ sc_depends_on s ∧ (d ∉ (sc_name <$> services)) ∧
        msg = "service '" +:+ sc_name s +:+ "': unknown dependency '" +:+ d +:+ "'"
  | Err (Error.Cycle x) =>
      known_deps services ∧ x ∈ (sc_name <$> services) ∧
      ∃ y, tc (depends services) y y ∧ rtc (depends services) y x
  | Err _ => False
  end.

Lemma leftover_cycle services e order indeg n :
  build_edges services = Ok e →
  kahn_inv (service_names services) (edge_list services) indeg order →
  (∀ n, n ∈ service_names services → (n ∉ order) → ∃ d, (d ∉ order) ∧ depends services d n) →
  n ∈ service_names services → n ∉ order →
  let x := default "unknown" (head (fst <$> filter (λ nd, 0 < nd.2) (hash_iter indeg))) in
  x ∈ service_names services ∧ ∃ y, tc (depends services) y y ∧ rtc (depends services) y x.
Proof.
  intros He (Hdom & _ & Hsub & Hdeg) Hstuck Hn Hno.
  assert (∀ m d, (m, d) ∈ filter (λ nd, 0 < nd.2) (hash_iter indeg) →
    m ∈ service_names services ∧ (m ∉ order)) as Hpos.
  { intros m d [Hd Hm%elem_of_hash_iter]%list_elem_of_filter; simpl in *.
    assert (m ∈ service_names services) by (rewrite <-Hdom; by eapply elem_of_dom_2).
    split; [done|]. intros [_ Hp]%Hsub. rewrite <-Hdeg in Hp by done.
    unfold deg in Hp. rewrite Hm in Hp. simpl in Hp. lia. }
  destruct (filter _ (hash_iter indeg)) as [|[x d] l] eqn:Hf; simpl.
  - exfalso. pose proof Hn as Hn'. rewrite <-Hdom in Hn'. apply elem_of_dom in Hn' as [k Hk].
    assert ((n, k) ∈ filter (λ nd, 0 < nd.2) (hash_iter indeg)); [|rewrite Hf in *; set_solver].
    apply list_elem_of_filter. split; [|by apply elem_of_hash_iter]. simpl.
    destruct (Hstuck n Hn Hno) as (d & Hd & Hdn).
    specialize (Hdeg n Hn). unfold deg in Hdeg. rewrite Hk in Hdeg. simpl in Hdeg. subst k.
    destruct (pending (edge_list services) order n) eqn:Hp; [|lia].
    destruct Hd. eapply pending_zero; [done|]. by apply elem_of_edge_list.
  - destruct (Hpos x d) as [Hx Hxo]; [set_solver|]. split; [done|].
    apply (no_minimal_cycle (depends services) (service_names services ∖ list_to_set order)).
    + set_solver.
    + intros y [Hy Hyo]%elem_of_difference.
      destruct (Hstuck y) as (m & Hm & Hmy); [done|set_solver|]. exists m. split; [|done].
      apply build_edges_Ok in He as (Hk & _). pose proof Hmy as (s & Hs & _ & Hms).
      apply elem_of_difference. split; [|set_solver].
      specialize (Hk s m Hs Hms). unfold service_names. set_solver.
Qed.

Lemma topological_sort_verdict services :
  NoDup (sc_name <$> services) → sort_verdict services (topological_sort services).
Proof.
  intros Hnd. destruct (build_edges services) as [e|err] eqn:He.
  2:{ unfold topological_sort. rewrite He. apply build_edges_Err in He as (s & d & ? & ? & ? & ->).
      by exists s, d. }
  destruct (topological_sort services) as [order|err] eqn:Hsort.
  { apply topological_sort_sound in Hsort; [|done].
    split_and!; [by eapply greedy_order_known|by eapply greedy_order_acyclic|apply Hsort]. }
  rewrite (topological_sort_unfold _ _ He) in Hsort.
  destruct (kahn_run _ _ He) as (Hinv & _ & Hstuck).
  destruct (kahn _ _ _ _ _ _) as [o i]; simpl in *.
  case_decide as Hlen; [|done]. injection Hsort as <-.
  assert (∃ n, n ∈ service_names services ∧ (n ∉ o)) as (n & Hn & Hno).
  { destruct (decide (service_names services ⊆ list_to_set o)) as [Hsub|Hns].
    - apply subseteq_size in Hsub. pose proof (inv_length _ _ _ _ Hinv) as Hle.
      destruct Hinv as (_ & Hndo & _). rewrite size_list_to_set in Hsub by done.
      rewrite size_service_names in Hsub, Hle by done. lia.
    - destruct (set_choose_L (service_names services ∖ list_to_set o)) as [n Hn]; [|set_solver].
      intros Hemp. apply Hns. intros n Hn. destruct (decide (n ∈ o)); set_solver. }
  destruct (leftover_cycle _ _ _ _ _ He Hinv Hstuck Hn Hno) as [Hx Hy].
  apply build_edges_Ok in He as (Hk & _). unfold service_names in Hx.
  split_and!; [done|set_solver|done].
Qed.
End sort.

Lemma greedy_order_Permutation services services' order :
  services ≡ₚ services' → greedy_order services order → greedy_order services' order.
Proof.
  intros Hp [Hperm Hg]. split; [by rewrite <-Hp|].
  intros l1 n l2 s Ho Hs Hn. rewrite <-Hp in Hs. destruct (Hg _ _ _ _ Ho Hs Hn) as [Hst Hmin].
  split; [done|]. intros t Ht. rewrite <-Hp in Ht. by apply Hmin.
Qed.

(** ** Boot partition *)

(** A service named [n] is enabled and in the given group. *)
Definition boots (background : bool) (services : list ServiceConfig) (n : string) : Prop :=
  ∃ s, s ∈ services ∧ sc_name s = n ∧ sc_enabled s = true ∧ sc_background s = background.

Lemma by_name_lookup services n s :
  NoDup (sc_name <$> services) →
  by_name services !! n = Some s ↔ s ∈ services ∧ sc_name s = n.
Proof.
  unfold by_name.
  apply (foldl_inv (λ l (m : gmap string ServiceConfig), NoDup (sc_name <$> l) →
    m !! n = Some s ↔ s ∈ l ∧ sc_name s = n)).
  { intros _. rewrite lookup_empty. set_solver. }
  intros l1 t l2 m _ IH Hnd. rewrite fmap_app in Hnd. apply NoDup_app in Hnd as (Hnd & Hdis & _).
  assert (∀ u, u ∈ l1 → sc_name u ≠ sc_name t) as Hne.
  { intros u Hu Heq. apply (Hdis (sc_name u)); csimpl; set_solver. }
  rewrite lookup_insert. case_decide as Ht.
  - split; [intros [= <-]; set_solver|]. intros [[Hs| ->%list_elem_of_singleton]%elem_of_app <-].
    + by destruct (Hne s).
    + done.
  - rewrite IH by done. set_solver.
Qed.

(** The test of [partition_boot]. *)
Definition in_group (background : bool) (services : list ServiceConfig) (n : string) : bool :=
  match by_name services !! n with
  | None => false
  | Some svc => sc_enabled svc && bool_decide (sc_background svc = background)
  end.

Lemma in_group_boots b services n :
  NoDup (sc_name <$> services) → in_group b services n ↔ boots b services n.
Proof.
  intros Hnd. unfold in_group, boots. split.
  - destruct (by_name services !! n) as [s|] eqn:Hs; [|done].
    apply by_name_lookup in Hs as [??]; [|done]. rewrite andb_True, bool_decide_spec. exists s.
    destruct (sc_enabled s); naive_solver.
  - intros (s & Hs & Hn & He & Hb). rewrite (proj2 (by_name_lookup services n s Hnd)) by done.
    by rewrite He, bool_decide_eq_true_2.
Qed.

Lemma partition_boot_unfold `{HashOrder} services :
  partition_boot services =
  let? order := topological_sort services in
  Ok (filter (in_group false services) order, filter (in_group true services) order).
Proof.
  unfold partition_boot. destruct (topological_sort services) as [order|]; [|done]. f_equal.
  apply (foldl_inv (λ l r, r = (filter (in_group false services) l,
                                filter (in_group true services) l))); [done|].
  intros l1 n l2 r _ ->. rewrite !filter_app, !filter_cons, !filter_nil. unfold in_group.
  destruct (by_name services !! n) as [s|]; [|simpl; by rewrite !app_nil_r].
  destruct (sc_enabled s), (sc_background s); simpl; by rewrite ?app_nil_r.
Qed.

(** ** Properties *)

Section properties.
Context `{HashOrder}.
Implicit Types services : list ServiceConfig.

Lemma shutdown_order_sound services order :
  NoDup (sc_name <$> services) → shutdown_order services = Ok order →
  order ≡ₚ (sc_name <$> services) ∧
  ∀ d n, depends services d n → before n d order.
Proof.
  intros Hnd. unfold shutdown_order.
  destruct (topological_sort services) as [o|] eqn:Hs; [|done]. intros [= <-].
  apply topological_sort_sound in Hs; [|done]. pose proof Hs as [Hperm _]. split.
  - by rewrite reverse_Permutation.
  - intros d n Hdn. apply before_reverse.
    + by rewrite Hperm.
    + rewrite Hperm. destruct Hdn as (s & ? & <- & _). set_solver.
    + intros ->. apply (greedy_order_acyclic _ Hnd _ Hs n). by apply tc_once.
    + by eapply greedy_order_before.
Qed.

(** C27: For services with distinct names, [topological_sort] returns exactly the
    greedy topological order: every dependency precedes its dependents, and
    among the services that could come next the one with the least
    [(orderPriority, name)] does. *)
Theorem topological_sort_correct services order :
  NoDup (sc_name <$> services) →
  topological_sort services = Ok order ↔ greedy_order services order.
Proof.
  intros Hnd. split; [by apply topological_sort_sound|by apply topological_sort_complete].
Qed.

(** Every outcome of [topological_sort] is justified, and none is missed: an
    order means that all dependencies are known and acyclic; a configuration
    error names a service and a dependency that does not exist; a cycle error
    names a service that is on a dependency cycle or downstream of one; and
    known, acyclic dependencies always give an order. *)
Theorem topological_sort_outcome services :
  NoDup (sc_name <$> services) →
  sort_verdict services (topological_sort services) ∧
  (known_deps services → acyclic services → is_ok (topological_sort services) = true).
Proof.
  intros Hnd. pose proof (topological_sort_verdict services Hnd) as Hv. split; [done|].
  intros Hk Ha. destruct (topological_sort services) as [order|err]; [done|exfalso].
  destruct err; simpl in Hv; try done; [naive_solver|].
  destruct Hv as (_ & _ & y & Hy & _). by apply (Ha y).
Qed.

(** The boot order depends only on the set of services, not on the order in
    which the configuration and its drop-ins list them. *)
Theorem topological_sort_Permutation services services' order :
  NoDup (sc_name <$> services) → services ≡ₚ services' →
  topological_sort services = Ok order → topological_sort services' = Ok order.
Proof.
  intros Hnd Hp Hs%topological_sort_sound; [|done].
  apply topological_sort_complete; [by rewrite <-Hp|]. by eapply greedy_order_Permutation.
Qed.

(** [partition_boot] splits the boot order: the foreground and background
    lists hold exactly the enabled services of each kind, both as
    subsequences of the topological order, and a sort error is passed on. *)
Theorem partition_boot_spec services :
  NoDup (sc_name <$> services) →
  match topological_sort services, partition_boot services with
  | Ok order, Ok (foreground, background) =>
      foreground `sublist_of` order ∧ background `sublist_of` order ∧
      (∀ n, n ∈ foreground ↔ boots false services n) ∧
      (∀ n, n ∈ background ↔ boots true services n)
  | Err e, Err e' => e = e'
  | _, _ => False
  end.
Proof.
  intros Hnd. rewrite partition_boot_unfold.
  destruct (topological_sort services) as [order|] eqn:Hs; [|done].
  apply topological_sort_sound in Hs as [Hperm _]; [|done].
  assert (∀ b n, n ∈ filter (in_group b services) order ↔ boots b services n) as Hg.
  { intros b n. rewrite list_elem_of_filter, in_group_boots by done. split; [tauto|].
    intros Hb. split; [done|]. rewrite Hperm. destruct Hb as (s & ? & <- & _). set_solver. }
  split_and!; [apply sublist_filter..|apply Hg|apply Hg].
Qed.

(** C28: [shutdown_order] stops every service exactly once and every dependent
    before the services it depends on. *)
Theorem shutdown_order_reverses services order :
  NoDup (sc_name <$> services) → shutdown_order services = Ok order →
  order ≡ₚ (sc_name <$> services) ∧
  ∀ d n, depends services d n → before n d order.
Proof. apply shutdown_order_sound. Qed.
End properties.

(** ** Concrete runs *)

Definition example_service (name : string) (deps : list string) (prio : N) (background : bool) :
    ServiceConfig := {|
  sc_name := name;
  sc_enabled := true;
  sc_daemon := true;
  sc_restart_policy := RestartPolicy.OnError;
  sc_restart_backoff := 2;
  sc_success_exit_codes := [0%Z];
  sc_start_wait_secs := 0;
  sc_shutdown_wait_secs := 5;
  sc_background := background;
  sc_order_priority := prio;
  sc_depends_on := deps;
  sc_cmd := Some "run"; sc_start_cmd := None; sc_stop_cmd := None; sc_restart_cmd := None;
  sc_env := ∅;
  sc_cwd := "/";
  sc_liveness_probe := None;
  sc_labels := ∅;
  sc_security_context := None;
  sc_resolved_security := None;
|}.

Definition example_services : list ServiceConfig := [
  example_service "web" ["db"; "net"] 100 false;
  example_service "db" [] 50 true;
  example_service "net" [] 10 false;
  example_service "log" ["net"] 100 false ].

Definition example_order : list string := ["net"; "db"; "log"; "web"].

(** [a] and [b] depend on each other; [c] is only downstream of them. *)
Definition example_cycle : list ServiceConfig := [
  example_service "a" ["b"] 100 false;
  example_service "b" ["a"] 100 false;
  example_service "c" ["a"] 100 false ].

Section witnesses.
#[local] Existing Instance canonical_hash_order.

Lemma topological_sort_correct_witness :
  NoDup (sc_name <$> example_services) ∧ greedy_order example_services example_order.
Proof.
  assert (NoDup (sc_name <$> example_services)) as Hnd by by_compute.
  split; [exact Hnd|]. apply (topological_sort_correct _ _ Hnd). vm_compute. reflexivity.
Defined.

Lemma topological_sort_outcome_witness :
  NoDup (sc_name <$> example_cycle) ∧ sort_verdict example_cycle (Err (Error.Cycle "c")).
Proof.
  assert (NoDup (sc_name <$> example_cycle)) as Hnd by by_compute.
  split; [exact Hnd|]. exact (proj1 (topological_sort_outcome example_cycle Hnd)).
Defined.

Lemma topological_sort_Permutation_witness :
  example_services ≡ₚ reverse example_services ∧
  topological_sort (reverse example_services) = Ok example_order.
Proof.
  assert (NoDup (sc_name <$> example_services)) as Hnd by by_compute.
  split; [symmetry; apply reverse_Permutation|].
  apply (topological_sort_Permutation example_services _ _ Hnd);
    [symmetry; apply reverse_Permutation|vm_compute; reflexivity].
Defined.

Lemma partition_boot_spec_witness :
  partition_boot example_services = Ok (["net"; "log"; "web"], ["db"]) ∧
  ∀ n, n ∈ ["db"] ↔ boots true example_services n.
Proof.
  assert (NoDup (sc_name <$> example_services)) as Hnd by by_compute.
  split; [vm_compute; reflexivity|].
  exact (proj2 (proj2 (proj2 (partition_boot_spec example_services Hnd)))).
Defined.

Lemma shutdown_order_reverses_witness :
  shutdown_order example_services = Ok (reverse example_order) ∧
  before "web" "db" (reverse example_order).
Proof.
  assert (NoDup (sc_name <$> example_services)) as Hnd by by_compute.
  assert (shutdown_order example_services = Ok (reverse example_order)) as Hs by (vm_compute; reflexivity).
  split; [exact Hs|]. apply (proj2 (shutdown_order_reverses _ _ Hnd Hs) "db" "web").
  exists (example_service "web" ["db"; "net"] 100 false). split; [by_compute|split; [reflexivity|by_compute]].
Defined.
End witnesses.

(** The cycle error can name a service that is not on a cycle: with the hash
    order above it blames [c], which nothing depends on. *)
Lemma cycle_error_downstream :
  topological_sort (H := canonical_hash_order) example_cycle = Err (Error.Cycle "c") ∧
  ¬ tc (depends example_cycle) "c" "c".
Proof.
  split; [vm_compute; reflexivity|].
  intros Hc. assert (∃ n, depends example_cycle "c" n) as (n & s & Hs & _ & Hd).
  { inversion Hc; eauto. }
  repeat (apply elem_of_cons in Hs as [->|Hs]; [by revert Hd; apply (bool_decide_unpack _)|]).
  set_solver.
Qed.
