(* ===== verification/Protocol.v ===== *)
(** IPC messages and the data they carry: [protocol.rs].

    JSON values are opaque; the JSON encoding itself is not modelled. *)

From S2P Require Import Prelude Security.
#[local] Open Scope stdpp_scope.

Module ServiceState.
Inductive t :=
  | Pending | Starting | Running | Succeeded | Failed | Stopping | Stopped | Restarting
  | Disabled | WaitingForDependency.
#[global] Instance eq_dec : EqDecision t.
Proof. solve_decision. Defined.

(** [Display] *)
Definition to_string (s : t) : string :=
  match s with
  | Pending => "pending"
  | Starting => "starting"
  | Running => "running"
  | Succeeded => "succeeded"
  | Failed => "failed"
  | Stopping => "stopping"
  | Stopped => "stopped"
  | Restarting => "restarting"
  | Disabled => "disabled"
  | WaitingForDependency => "waiting_for_dependency"
  end.
End ServiceState.

Record ServiceStatus := mkServiceStatus {
  ss_name : string;
  ss_state : ServiceState.t;
  ss_pid : option Z;
  ss_restarts : N;
  ss_liveness_failures : N;
  ss_enabled : bool;
  ss_labels : gmap string string;
}.

Module ServiceEventKind.
Inductive t := StateChange | Restart | LivenessFailed.
#[global] Instance eq_dec : EqDecision t.
Proof. solve_decision. Defined.

(** [Display] *)
Definition to_string (k : t) : string :=
  match k with
  | StateChange => "state_change"
  | Restart => "restart"
  | LivenessFailed => "liveness_failed"
  end.
End ServiceEventKind.

Record ServiceEvent := mkServiceEvent {
  se_ts : string;
  se_kind : ServiceEventKind.t;
  se_from : option ServiceState.t;
  se_to : option ServiceState.t;
  se_detail : option string;
}.

Record DepNode := mkDepNode { dn_name : string; dn_state : ServiceState.t }.

Record RunningIdentity := mkRunningIdentity {
  id_uid : N;
  id_gid : N;
  id_user : option string;
  id_group : option string;
}.

Inductive DescribeOutput := Human | Json.

Module DaemonMode.
Inductive t := Init | Supervise.
#[global] Instance eq_dec : EqDecision t.
Proof. solve_decision. Defined.

Definition as_str (m : t) : string :=
  match m with Init => "init" | Supervise => "supervise" end.
End DaemonMode.

Record DaemonInfo := mkDaemonInfo {
  di_version : string;
  di_tag_commit : string;
  di_build_commit : string;
  di_build_time : string;
  di_pid : N;
  di_hostname : string;
  di_uptime_secs : N;
  di_socket : string;
  di_mode : DaemonMode.t;
  di_services_total : nat;
  di_services_running : nat;
  di_otel_enabled : bool;
  di_otel_endpoint : string;
  di_otel_protocol : string;
  di_otel_service_name : string;
  di_otel_export_interval_secs : N;
}.

Module LogLevel.
Inductive t := Stdout | Stderr | Info | Warn | Error.
#[global] Instance eq_dec : EqDecision t.
Proof. solve_decision. Defined.

Definition as_str (l : t) : string :=
  match l with
  | Stdout => "stdout"
  | Stderr => "stderr"
  | Info => "info"
  | Warn => "warn"
  | Error => "error"
  end.
End LogLevel.

Record LogLine := mkLogLine {
  ln_ts : string;
  ln_service : string;
  ln_level : LogLevel.t;
  ln_msg : string;
}.

Module ShutdownMode.
Inductive t := Reboot | Poweroff | Halt.
#[global] Instance eq_dec : EqDecision t.
Proof. solve_decision. Defined.

(** [Display] *)
Definition to_string (m : t) : string :=
  match m with Reboot => "reboot" | Poweroff => "poweroff" | Halt => "halt" end.
End ShutdownMode.

#[export] Instance ServiceEvent_eq_dec : EqDecision ServiceEvent.
Proof. solve_decision. Defined.
#[export] Instance DepNode_eq_dec : EqDecision DepNode.
Proof. solve_decision. Defined.
#[export] Instance RunningIdentity_eq_dec : EqDecision RunningIdentity.
Proof. solve_decision. Defined.
#[export] Instance DescribeOutput_eq_dec : EqDecision DescribeOutput.
Proof. solve_decision. Defined.
#[export] Instance DaemonInfo_eq_dec : EqDecision DaemonInfo.
Proof. solve_decision. Defined.
#[export] Instance LogLine_eq_dec : EqDecision LogLine.
Proof. solve_decision. Defined.
#[export] Instance ServiceStatus_eq_dec : EqDecision ServiceStatus.
Proof.
  apply (view_eq_dec (λ s, (ss_name s, ss_state s, ss_pid s, ss_restarts s,
    ss_liveness_failures s, ss_enabled s, ss_labels s))).
  intros [] []; simpl; intros ?; by simplify_eq.
Defined.

Section json.
(** [serde_json::Value] *)
Context (json_value : Type).

Record ServiceSource := mkServiceSource { src_path : string; src_json : json_value }.

Record ServiceDescribe := mkServiceDescribe {
  sd_status : ServiceStatus;
  sd_uptime_secs : option N;
  sd_depends_on : list DepNode;
  sd_dependents : list DepNode;
  sd_dep_nodes : list DepNode;
  sd_dep_edges : list (string * string);
  sd_events : list ServiceEvent;
  sd_running_as : option RunningIdentity;
  sd_security_context : option SecurityContext;
  sd_source : option ServiceSource;
}.

Inductive Request :=
  | RqList
  | RqStart (name : string) (force : bool)
  | RqStop (name : string)
  | RqRestart (name : string)
  | RqStatus (name : string)
  | RqDescribe (name : string) (output : DescribeOutput)
  | RqEnable (name : string) (enabled : bool)
  | RqLogs (name : option string) (follow : bool) (lines : option nat)
  | RqInfo
  | RqShutdown (mode : ShutdownMode.t)
  | RqWatch (label_keys : list string).

Inductive Response :=
  | RsOk (message : option string)
  | RsError (message : string) (code : option string)
  | RsList (services : list ServiceStatus)
  | RsStatus (status : ServiceStatus)
  | RsDescribe (describe : ServiceDescribe)
  | RsInfo (info : DaemonInfo)
  | RsLog (line : LogLine)
  | RsHeartbeat.
End json.

Arguments mkServiceSource {json_value}.
Arguments src_path {json_value}.
Arguments src_json {json_value}.
Arguments mkServiceDescribe {json_value}.
Arguments sd_status {json_value}.
Arguments sd_uptime_secs {json_value}.
Arguments sd_depends_on {json_value}.
Arguments sd_dependents {json_value}.
Arguments sd_dep_nodes {json_value}.
Arguments sd_dep_edges {json_value}.
Arguments sd_events {json_value}.
Arguments sd_running_as {json_value}.
Arguments sd_security_context {json_value}.
Arguments sd_source {json_value}.
Arguments RsOk {json_value}.
Arguments RsError {json_value}.
Arguments RsList {json_value}.
Arguments RsStatus {json_value}.
Arguments RsDescribe {json_value}.
Arguments RsInfo {json_value}.
Arguments RsLog {json_value}.
Arguments RsHeartbeat {json_value}.
