(* ===== verification/Logs.v ===== *)
(** Log ring buffers and fan-out: [logs.rs].

    The hub is its state; writes to terminals, stderr and log files are
    returned as outputs.  A follower is a channel: the receiver is alive while
    its queue is in [lh_channels]. *)

From S2P Require Import Prelude Constants Protocol.
#[local] Open Scope stdpp_scope.

Definition INIT_SERVICE : string := "microinit".

(** ** Ring buffer *)

Record RingBuffer := mkRingBuffer { rb_capacity : nat; rb_lines : list LogLine }.

Definition ring_new (capacity : nat) : RingBuffer := mkRingBuffer (Nat.max capacity 1) [].

(** [while len >= capacity { pop_front }]: the loop removes what exceeds. *)
Fixpoint pop_until (capacity : nat) (l : list LogLine) : list LogLine :=
  match l with
  | [] => []
  | _ :: l' => if decide (capacity ≤ length l) then pop_until capacity l' else l
  end.

Definition ring_push (line : LogLine) (b : RingBuffer) : RingBuffer :=
  mkRingBuffer (rb_capacity b) (pop_until (rb_capacity b) (rb_lines b) ++ [line]).

Definition ring_last_n (n : nat) (b : RingBuffer) : list LogLine :=
  drop (length (rb_lines b) - n) (rb_lines b).

Definition ring_all (b : RingBuffer) : list LogLine := rb_lines b.

(** ** Hub *)

Inductive LogOutput :=
  | OutServiceTty (line : string)
  | OutInitTty (line : string)
  | OutStderr (line : string)
  | OutFile (path line : string).

#[export] Instance LogOutput_eq_dec : EqDecision LogOutput.
Proof. solve_decision. Defined.

Record LogHub := mkLogHub {
  lh_capacity : nat;
  lh_per_service : gmap string RingBuffer;
  lh_mixed : RingBuffer;
  lh_service_tty : bool;
  lh_init_tty : bool;
  lh_log_dir : option string;
  lh_followers : list nat;
  lh_channels : gmap nat (list LogLine);
  lh_next_channel : nat;
  lh_boot_tee_stderr : bool;
}.

(** The hub [LogHub::new] makes, with the terminals that could be opened. *)
Definition hub_new (capacity : nat) (service_tty init_tty : bool) (log_dir : option string) : LogHub := {|
  lh_capacity := capacity;
  lh_per_service := ∅;
  lh_mixed := ring_new capacity;
  lh_service_tty := service_tty;
  lh_init_tty := init_tty;
  lh_log_dir := log_dir;
  lh_followers := [];
  lh_channels := ∅;
  lh_next_channel := 0;
  lh_boot_tee_stderr := true;
|}.

Definition end_boot_tee (h : LogHub) : LogHub :=
  mkLogHub (lh_capacity h) (lh_per_service h) (lh_mixed h) (lh_service_tty h) (lh_init_tty h)
    (lh_log_dir h) (lh_followers h) (lh_channels h) (lh_next_channel h) false.

Definition boot_tee_enabled (h : LogHub) : bool := lh_boot_tee_stderr h.

Definition set_followers (followers : list nat) (channels : gmap nat (list LogLine)) (next : nat)
    (h : LogHub) : LogHub :=
  mkLogHub (lh_capacity h) (lh_per_service h) (lh_mixed h) (lh_service_tty h) (lh_init_tty h)
    (lh_log_dir h) followers channels next (lh_boot_tee_stderr h).

(** Create a channel and register its sender. *)
Definition add_follower (followers : list nat) (h : LogHub) : nat * LogHub :=
  let id := lh_next_channel h in
  (id, set_followers (followers ++ [id]) (<[id := []]> (lh_channels h)) (S id) h).

(** [LogHub::try_subscribe] *)
Definition hub_try_subscribe (h : LogHub) : option nat * LogHub :=
  if decide (MAX_LOG_FOLLOWERS ≤ length (lh_followers h)) then (None, h)
  else let '(id, h) := add_follower (lh_followers h) h in (Some id, h).

(** [while len >= MAX { remove(0) }] *)
Fixpoint drop_oldest (max : nat) (l : list nat) : list nat :=
  match l with
  | [] => []
  | _ :: l' => if decide (max ≤ length l) then drop_oldest max l' else l
  end.

(** [LogHub::subscribe] *)
Definition hub_subscribe (h : LogHub) : nat * LogHub :=
  add_follower (drop_oldest MAX_LOG_FOLLOWERS (lh_followers h)) h.

(** The receiver of a channel is dropped. *)
Definition hub_close (id : nat) (h : LogHub) : LogHub :=
  set_followers (lh_followers h) (delete id (lh_channels h)) (lh_next_channel h) h.

(** [followers.retain(|tx| tx.send(line).is_ok())] *)
Definition send_all (line : LogLine) (followers : list nat) (channels : gmap nat (list LogLine)) :
    list nat * gmap nat (list LogLine) :=
  foldl (λ '(kept, chans) id,
      match chans !! id with
      | Some q => (kept ++ [id], <[id := q ++ [line]]> chans)
      | None => (kept, chans)
      end) ([], channels) followers.

Definition format_line (l : LogLine) : string :=
  "[" +:+ ln_ts l +:+ "] " +:+ ln_service l +:+ ": " +:+ ln_msg l.

Definition outputs_of (h : LogHub) (line : LogLine) (tee_stderr : bool) : list LogOutput :=
  let formatted := format_line line in
  (if decide (ln_service line = INIT_SERVICE) then
     (if lh_init_tty h then [OutInitTty formatted] else []) ++
     (if tee_stderr then [OutStderr formatted] else [])
   else if lh_service_tty h then [OutServiceTty formatted] else []) ++
  match lh_log_dir h with
  | Some dir => [OutFile (dir +:+ "/" +:+ ln_service line +:+ ".log")
      ("[" +:+ ln_ts line +:+ "] " +:+ LogLevel.as_str (ln_level line) +:+ ": " +:+ ln_msg line)]
  | None => []
  end.

(** The three critical sections of [publish_inner]: the service's buffer, the
    mixed buffer and the followers. *)
Definition push_service (line : LogLine) (h : LogHub) : LogHub :=
  let buf := default (ring_new (lh_capacity h)) (lh_per_service h !! ln_service line) in
  mkLogHub (lh_capacity h) (<[ln_service line := ring_push line buf]> (lh_per_service h))
    (lh_mixed h) (lh_service_tty h) (lh_init_tty h) (lh_log_dir h) (lh_followers h)
    (lh_channels h) (lh_next_channel h) (lh_boot_tee_stderr h).

Definition push_mixed (line : LogLine) (h : LogHub) : LogHub :=
  mkLogHub (lh_capacity h) (lh_per_service h) (ring_push line (lh_mixed h)) (lh_service_tty h)
    (lh_init_tty h) (lh_log_dir h) (lh_followers h) (lh_channels h) (lh_next_channel h)
    (lh_boot_tee_stderr h).

Definition send_line (line : LogLine) (h : LogHub) : LogHub :=
  let '(followers, channels) := send_all line (lh_followers h) (lh_channels h) in
  set_followers followers channels (lh_next_channel h) h.

(** [LogHub::publish_inner] *)
Definition publish_inner (line : LogLine) (tee_stderr : bool) (h : LogHub) :
    LogHub * list LogOutput :=
  (send_line line (push_mixed line (push_service line h)), outputs_of h line tee_stderr).

(** [LogHub::publish] *)
Definition hub_publish (line : LogLine) (h : LogHub) : LogHub * list LogOutput :=
  publish_inner line (bool_decide (ln_service line = INIT_SERVICE) && boot_tee_enabled h) h.

(** [LogHub::emit]; [ts] is the formatted current time. *)
Definition hub_emit (ts service : string) (level : LogLevel.t) (msg : string) (h : LogHub) :
    LogHub * list LogOutput :=
  hub_publish (mkLogLine ts service level msg) h.

(** [LogHub::emit_init_console_mirror] *)
Definition emit_init_console_mirror (ts : string) (level : LogLevel.t) (msg : string) (h : LogHub) :
    LogHub * list LogOutput :=
  publish_inner (mkLogLine ts INIT_SERVICE level msg) false h.

Definition snapshot_service (name : string) (lines : nat) (h : LogHub) : list LogLine :=
  from_option (ring_last_n lines) [] (lh_per_service h !! name).

Definition snapshot_mixed (lines : nat) (h : LogHub) : list LogLine :=
  ring_last_n lines (lh_mixed h).

(** ** Lemmas *)

Lemma pop_until_last_n c l : 1 ≤ c → pop_until c l = last_n (c - 1) l.
Proof.
  intros Hc. unfold last_n. induction l as [|x l IH]; [done|]. cbn [pop_until length].
  case_decide.
  - rewrite IH. replace (S (length l) - (c - 1)) with (S (length l - (c - 1))) by lia. done.
  - replace (S (length l) - (c - 1)) with 0 by lia. done.
Qed.

Lemma drop_oldest_spec max l :
  1 ≤ max → length (drop_oldest max l) < max ∧ drop_oldest max l `suffix_of` l.
Proof.
  intros Hm. induction l as [|x l [IH1 IH2]]; [simpl; split; [lia|done]|].
  cbn [drop_oldest length]. case_decide.
  - split; [done|]. by apply suffix_cons_r.
  - split; [simpl; lia|done].
Qed.

(** A ring that holds the last lines of what was pushed into it. *)
Definition ring_holds (cap : nat) (ls : list LogLine) (b : RingBuffer) : Prop :=
  rb_capacity b = cap ∧ rb_lines b = last_n cap ls.

Lemma ring_holds_push cap ls b line :
  1 ≤ cap → ring_holds cap ls b → ring_holds cap (ls ++ [line]) (ring_push line b).
Proof.
  intros Hc [Hcap Hl]. split; [done|]. simpl. rewrite Hcap, Hl, pop_until_last_n by done.
  destruct cap as [|c]; [lia|]. rewrite last_n_snoc. f_equal.
  replace (S c - 1) with c by lia.
  unfold last_n. rewrite drop_drop, length_drop. f_equal. lia.
Qed.

Lemma last_n_last_n n m (ls : list LogLine) : last_n n (last_n m ls) = last_n (Nat.min n m) ls.
Proof. unfold last_n. rewrite drop_drop, length_drop. f_equal. lia. Qed.

(** The lines of one service. *)
Definition of_service (name : string) (ls : list LogLine) : list LogLine :=
  filter (λ l, ln_service l = name) ls.

Definition hub_holds (cap : nat) (ls : list LogLine) (h : LogHub) : Prop :=
  Nat.max (lh_capacity h) 1 = cap ∧ ring_holds cap ls (lh_mixed h) ∧
  ∀ s, match lh_per_service h !! s with
       | Some b => ring_holds cap (of_service s ls) b
       | None => of_service s ls = []
       end.

Lemma hub_holds_publish cap ls h line tee :
  hub_holds cap ls h → hub_holds cap (ls ++ [line]) (publish_inner line tee h).1.
Proof.
  intros (Hc & Hm & Hs). unfold publish_inner, send_line.
  cbn [fst]. destruct (send_all line _ _) as [fs cs]. simpl. split_and!; [done|apply ring_holds_push; [lia|done]|].
  intros s. simpl. unfold of_service. rewrite filter_app, lookup_insert. specialize (Hs s).
  unfold of_service in Hs. case_decide as Hsn; subst.
  - rewrite filter_cons_True by done. simpl. apply ring_holds_push; [lia|].
    destruct (lh_per_service h !! ln_service line); [done|]. simpl. rewrite Hs. split; done.
  - rewrite filter_cons_False by congruence. simpl. by rewrite app_nil_r.
Qed.

Lemma send_all_kept line followers channels :
  NoDup followers →
  let r := send_all line followers channels in
  r.1 = filter (λ id, id ∈ dom channels) followers ∧ dom r.2 = dom channels ∧
  ∀ id, r.2 !! id =
    (λ q, if decide (id ∈ followers) then q ++ [line] else q) <$> channels !! id.
Proof.
  intros Hnd. unfold send_all.
  enough (∀ l, NoDup l → let r := foldl (λ '(kept, chans) id,
      match chans !! id with
      | Some q => (kept ++ [id], <[id := q ++ [line]]> chans)
      | None => (kept, chans)
      end) ([], channels) l in
    r.1 = filter (λ id, id ∈ dom channels) l ∧ dom r.2 = dom channels ∧
    ∀ id, r.2 !! id = (λ q, if decide (id ∈ l) then q ++ [line] else q) <$> channels !! id) as H
    by by apply H.
  intros l. induction l as [|x l IH] using rev_ind; intros Hl.
  { simpl. split_and!; [done..|]. intros id. by destruct (channels !! id). }
  apply NoDup_app in Hl as (Hl & Hdis & _). specialize (IH Hl).
  rewrite foldl_app. simpl. destruct (foldl _ _ l) as [kept chans]; simpl in IH.
  destruct IH as (-> & Hdom & Hch). rewrite filter_app.
  assert (x ∉ l) as Hx by (intros Hx; apply (Hdis x Hx); set_solver).
  rewrite (Hch x). destruct (channels !! x) as [q|] eqn:Hq; simpl.
  - rewrite filter_cons_True by (by eapply elem_of_dom_2). rewrite filter_nil.
    rewrite (decide_False (P := x ∈ l)) by done. split_and!; [done| |].
    + rewrite dom_insert_L, Hdom. apply elem_of_dom_2 in Hq. set_solver.
    + intros id. rewrite lookup_insert. case_decide; subst.
      * rewrite Hq. simpl. by rewrite decide_True by set_solver.
      * rewrite Hch. destruct (channels !! id); simpl; [|done].
        f_equal. destruct (decide (id ∈ l)).
        -- by rewrite decide_True by set_solver.
        -- by rewrite decide_False by set_solver.
  - apply not_elem_of_dom in Hq as Hnd'. rewrite filter_cons_False by done.
    rewrite filter_nil, app_nil_r. split_and!; [done..|]. intros id. rewrite Hch.
    destruct (decide (id = x)) as [->|Hne]; [by rewrite Hq|].
    destruct (channels !! id); simpl; [|done]. f_equal. destruct (decide (id ∈ l)).
    + by rewrite decide_True by set_solver.
    + by rewrite decide_False by set_solver.
Qed.

(** ** Reachable hubs *)

Inductive hub_step : LogHub → LogHub → Prop :=
  | step_publish h line tee : hub_step h (publish_inner line tee h).1
  | step_subscribe h : hub_step h (hub_subscribe h).2
  | step_try_subscribe h : hub_step h (hub_try_subscribe h).2
  | step_close h id : hub_step h (hub_close id h)
  | step_end_tee h : hub_step h (end_boot_tee h).

Definition hub_reachable (h : LogHub) : Prop :=
  ∃ capacity service_tty init_tty log_dir,
    rtc hub_step (hub_new capacity service_tty init_tty log_dir) h.

Definition hub_wf (h : LogHub) : Prop :=
  length (lh_followers h) ≤ MAX_LOG_FOLLOWERS ∧ NoDup (lh_followers h) ∧
  ∀ id, id ∈ lh_followers h → id < lh_next_channel h.

Lemma add_follower_wf fs h :
  hub_wf h → fs `sublist_of` lh_followers h → length fs < MAX_LOG_FOLLOWERS →
  hub_wf (add_follower fs h).2.
Proof.
  intros (Hl & Hnd & Hid) Hsub Hlen. unfold hub_wf, add_follower; simpl.
  assert (∀ id, id ∈ fs → id < lh_next_channel h) as Hfs.
  { intros id Hin. apply Hid. by eapply elem_of_sublist. }
  split_and!.
  - rewrite length_app. simpl. lia.
  - apply NoDup_app. split_and!; [by eapply (sublist_NoDup _ _ Hnd)| |apply NoDup_singleton].
    intros id Hin Heq%list_elem_of_singleton. specialize (Hfs id Hin). lia.
  - intros id [Hin| ->%list_elem_of_singleton]%elem_of_app; [|lia]. specialize (Hfs id Hin). lia.
Qed.

Lemma hub_step_wf h h' : hub_step h h' → hub_wf h → hub_wf h'.
Proof.
  intros Hstep Hwf. pose proof Hwf as (Hl & Hnd & Hid). destruct Hstep; try done.
  - unfold publish_inner, send_line. cbn [fst]. pose proof (send_all_kept line (lh_followers h) (lh_channels h) Hnd) as Hs.
    cbn [push_mixed push_service lh_followers lh_channels].
    destruct (send_all _ _ _) as [fs cs]. destruct Hs as (Hfs & _); simpl in Hfs; subst fs.
    unfold hub_wf, set_followers, push_mixed, push_service; cbn [lh_followers lh_next_channel lh_channels fst].
    pose proof (sublist_filter (λ id, id ∈ dom (lh_channels h)) (lh_followers h)) as Hsub.
    split_and!.
    + apply sublist_length in Hsub. lia.
    + by eapply (sublist_NoDup _ _ Hnd).
    + intros id Hin. apply Hid. by eapply elem_of_sublist.
  - unfold hub_subscribe. destruct (drop_oldest_spec MAX_LOG_FOLLOWERS (lh_followers h)) as [Hlt Hsuf].
    { unfold MAX_LOG_FOLLOWERS. lia. }
    apply add_follower_wf; [done| |done]. destruct Hsuf as [k Hk]. rewrite Hk at 2. apply sublist_inserts_l. reflexivity.
  - unfold hub_try_subscribe. case_decide as Hd; [done|].
    change (hub_wf (add_follower (lh_followers h) h).2). apply add_follower_wf; [done|done|lia].
Qed.

(** ** Properties *)

(** C33: The log buffers hold exactly the most recent lines: after any sequence of
    lines, the mixed snapshot is the last lines of the sequence and the snapshot
    of a service the last lines of that service, up to the configured capacity
    (at least 1) and in order. *)
Theorem hub_snapshots capacity service_tty init_tty log_dir ls s n :
  let h := foldl (λ h l, (hub_publish l h).1)
             (hub_new capacity service_tty init_tty log_dir) ls in
  let cap := Nat.max capacity 1 in
  snapshot_mixed n h = last_n (Nat.min n cap) ls ∧
  snapshot_service s n h = last_n (Nat.min n cap) (of_service s ls).
Proof.
  simpl. set (h := foldl _ _ _).
  assert (hub_holds (Nat.max capacity 1) ls h) as (_ & [_ Hm] & Hs).
  { apply (foldl_inv (λ l h, hub_holds (Nat.max capacity 1) l h)).
    - split_and!; [done|split; done|]. intros x. done.
    - intros l1 l l2 h' _ Hh. by apply (hub_holds_publish _ _ _ _ true Hh). }
  unfold snapshot_mixed, snapshot_service, ring_last_n. split.
  - rewrite Hm. apply last_n_last_n.
  - specialize (Hs s). destruct (lh_per_service h !! s) as [b|]; simpl.
    + destruct Hs as [_ ->]. apply last_n_last_n.
    + rewrite Hs. by unfold last_n.
Qed.

(** Every reachable hub has at most [MAX_LOG_FOLLOWERS] followers, and a
    published line is appended to the channel of each live follower, to no other
    channel, while followers whose receiver is gone are forgotten. *)
Theorem hub_fan_out h line :
  hub_reachable h →
  let h' := (hub_publish line h).1 in
  length (lh_followers h) ≤ MAX_LOG_FOLLOWERS ∧
  lh_followers h' = filter (λ id, id ∈ dom (lh_channels h)) (lh_followers h) ∧
  ∀ id, lh_channels h' !! id =
    (λ q, if decide (id ∈ lh_followers h) then q ++ [line] else q) <$> lh_channels h !! id.
Proof.
  intros (c & st & it & d & Hr). assert (hub_wf h) as (Hl & Hnd & _).
  { revert h Hr. apply rtc_ind_r; [|intros; by eapply hub_step_wf].
    split_and!; simpl; [lia|constructor|by intros id ?%elem_of_nil]. }
  unfold hub_publish, publish_inner, send_line. cbn [push_mixed push_service lh_followers lh_channels fst].
  pose proof (send_all_kept line (lh_followers h) (lh_channels h) Hnd) as Hsend.
  destruct (send_all _ _ _) as [fs cs]. simpl in *. naive_solver.
Qed.

Definition example_line (s m : string) : LogLine := mkLogLine "t" s LogLevel.Info m.

Lemma hub_fan_out_witness :
  ∃ h, hub_reachable h ∧ lh_channels (hub_publish (example_line "web" "up") h).1 !! 0
    = Some [example_line "web" "up"].
Proof.
  exists (hub_subscribe (hub_new 3 false false None)).2.
  assert (hub_reachable (hub_subscribe (hub_new 3 false false None)).2) as Hr.
  { exists 3, false, false, None. eapply rtc_once. apply step_subscribe. }
  split; [exact Hr|].
  rewrite (proj2 (proj2 (hub_fan_out _ (example_line "web" "up") Hr)) 0). vm_compute. reflexivity.
Defined.
