(* ===== verification/Watch.v ===== *)
(** Service-list watch fan-out: [watch.rs].

    A subscription is the identity of its follower.  Waiting is driven by the
    list of wakeups of the condition variable, each with the slot it finds. *)

From S2P Require Import Prelude Constants Labels Protocol.
#[local] Open Scope stdpp_scope.

Record Slot := mkSlot { sl_gen : N; sl_snapshot : option (list ServiceStatus) }.

Inductive WaitOutcome :=
  | Snapshot (gen : N) (services : list ServiceStatus)
  | Timeout.

Record Follower := mkFollower { fo_id : nat; fo_keys : list string; fo_slot : Slot }.

(** [WatchHubInner]; [wh_count] is the atomic copy of the number of followers. *)
Record WatchHub := mkWatchHub {
  wh_followers : list Follower;
  wh_count : nat;
  wh_next : nat;
}.

Definition watch_new : WatchHub := mkWatchHub [] 0 0.

Definition follower_count (h : WatchHub) : nat := wh_count h.

(** [WatchHub::try_subscribe] *)
Definition watch_try_subscribe (label_keys : list string) (h : WatchHub) : option nat * WatchHub :=
  if decide (MAX_WATCH_FOLLOWERS ≤ length (wh_followers h)) then (None, h)
  else
    let followers := wh_followers h ++ [mkFollower (wh_next h) label_keys (mkSlot 0 None)] in
    (Some (wh_next h), mkWatchHub followers (length followers) (S (wh_next h))).

Definition filter_snapshot (services : list ServiceStatus) (keys : list string) :
    list ServiceStatus :=
  match keys with
  | [] => services
  | _ => filter (λ s, has_keys (ss_labels s) keys) services
  end.

(** [views_eq]: names, states and labels only. *)
Definition views_eq (a b : list ServiceStatus) : bool :=
  if decide (length a ≠ length b) then false
  else forallb (λ '(x, y), bool_decide (ss_name x = ss_name y) &&
                           bool_decide (ss_state x = ss_state y) &&
                           bool_decide (ss_labels x = ss_labels y)) (zip a b).

(** The update of one follower in [publish]. *)
Definition publish_one (services : list ServiceStatus) (f : Follower) : Follower :=
  let filtered := filter_snapshot services (fo_keys f) in
  let replace := mkFollower (fo_id f) (fo_keys f)
    (mkSlot (wrap_add_u64 (sl_gen (fo_slot f)) 1) (Some filtered)) in
  match sl_snapshot (fo_slot f) with
  | Some old => if views_eq old filtered then f else replace
  | None => replace
  end.

(** [WatchHub::publish] *)
Definition watch_publish (services : list ServiceStatus) (h : WatchHub) : WatchHub :=
  if decide (wh_count h = 0) then h
  else mkWatchHub (publish_one services <$> wh_followers h) (wh_count h) (wh_next h).

(** A wakeup of the condition variable: the slot and whether the wait timed out. *)
Record wakeup := mkWakeup { wk_slot : Slot; wk_timed_out : bool }.

(** [WatchSub::wait_timeout].  The deadline has passed when no wakeup is left. *)
Fixpoint watch_wait (seen_gen : N) (slot : Slot) (wakes : list wakeup) : WaitOutcome :=
  match (if decide (sl_gen slot ≠ seen_gen) then sl_snapshot slot else None) with
  | Some snap => Snapshot (sl_gen slot) snap
  | None =>
      match wakes with
      | [] => Timeout
      | w :: wakes =>
          if wk_timed_out w && bool_decide (sl_gen (wk_slot w) = seen_gen) then Timeout
          else watch_wait seen_gen (wk_slot w) wakes
      end
  end.

(** [Drop for WatchSub] *)
Definition watch_drop (id : nat) (h : WatchHub) : WatchHub :=
  let followers := filter (λ f, fo_id f ≠ id) (wh_followers h) in
  mkWatchHub followers (length followers) (wh_next h).

(** ** Lemmas *)

(** What a watcher sees of a list. *)
Definition view (l : list ServiceStatus) : list (string * ServiceState.t * gmap string string) :=
  (λ s, (ss_name s, ss_state s, ss_labels s)) <$> l.

Lemma views_eq_spec a b : views_eq a b = true ↔ view a = view b.
Proof.
  unfold views_eq, view. revert b. induction a as [|x a IH]; intros [|y b];
    [by split..|].
  specialize (IH b). cbn [length zip zip_with forallb fmap list_fmap].
  destruct (decide (length a = length b)) as [Hl|Hl].
  - rewrite decide_False in IH by lia. rewrite decide_False by lia.
    rewrite !andb_true_iff, !bool_decide_eq_true, IH. split.
    + by intros [[[-> ->] ->] ->].
    + by intros [= -> -> -> ->].
  - rewrite decide_True by lia. split; [done|]. intros [= _ _ _ Heq]. exfalso. apply Hl.
    apply (f_equal length) in Heq. by rewrite !length_fmap in Heq.
Qed.

Lemma publish_one_view services f :
  ∃ snap, sl_snapshot (fo_slot (publish_one services f)) = Some snap ∧
    view snap = view (filter_snapshot services (fo_keys f)).
Proof.
  unfold publish_one. destruct (sl_snapshot (fo_slot f)) as [old|] eqn:Hold; simpl; [|eauto].
  destruct (views_eq old _) eqn:Hv; simpl; [|eauto].
  apply views_eq_spec in Hv. eauto.
Qed.

(** ** Reachable hubs *)

Inductive watch_step : WatchHub → WatchHub → Prop :=
  | wstep_subscribe h keys : watch_step h (watch_try_subscribe keys h).2
  | wstep_publish h services : watch_step h (watch_publish services h)
  | wstep_drop h id : watch_step h (watch_drop id h).

Definition watch_reachable (h : WatchHub) : Prop := rtc watch_step watch_new h.

Definition watch_wf (h : WatchHub) : Prop :=
  wh_count h = length (wh_followers h) ∧ length (wh_followers h) ≤ MAX_WATCH_FOLLOWERS ∧
  NoDup (fo_id <$> wh_followers h) ∧ ∀ f, f ∈ wh_followers h → fo_id f < wh_next h.

Lemma publish_ids services (l : list Follower) : fo_id <$> (publish_one services <$> l) = fo_id <$> l.
Proof.
  rewrite <-list_fmap_compose. apply list_fmap_ext. intros i f _. simpl. unfold publish_one.
  destruct (sl_snapshot (fo_slot f)); [|done]. by destruct (views_eq _ _).
Qed.

Lemma watch_step_wf h h' : watch_step h h' → watch_wf h → watch_wf h'.
Proof.
  intros Hstep (Hc & Hl & Hnd & Hid). destruct Hstep as [h keys|h services|h id].
  - unfold watch_try_subscribe. case_decide as Hd; [by split_and!|].
    unfold watch_wf; simpl. rewrite length_app, fmap_app. simpl. split_and!; [done|lia| |].
    + apply NoDup_app. split_and!; [done| |apply NoDup_singleton].
      intros n (f & -> & Hf)%list_elem_of_fmap Heq%list_elem_of_singleton.
      specialize (Hid f Hf). lia.
    + intros f [Hf| ->%list_elem_of_singleton]%elem_of_app; simpl; [|lia]. specialize (Hid f Hf). lia.
  - unfold watch_publish. case_decide; [by split_and!|]. unfold watch_wf; simpl.
    rewrite length_fmap, publish_ids. split_and!; [done..|].
    intros f (g & -> & Hg)%list_elem_of_fmap. unfold publish_one.
    destruct (sl_snapshot _); [destruct (views_eq _ _)|]; simpl; by apply Hid.
  - unfold watch_drop, watch_wf; simpl.
    pose proof (sublist_filter (λ f, fo_id f ≠ id) (wh_followers h)) as Hsub. split_and!; [done| | |].
    + apply sublist_length in Hsub. lia.
    + eapply (sublist_NoDup _ _ Hnd). by apply (fmap_sublist fo_id).
    + intros f [_ Hf]%list_elem_of_filter. by apply Hid.
Qed.

Lemma watch_reachable_wf h : watch_reachable h → watch_wf h.
Proof.
  revert h. apply rtc_ind_r; [|intros; by eapply watch_step_wf].
  split_and!; simpl; [done|lia|constructor|by intros f ?%elem_of_nil].
Qed.

(** ** Properties *)

(** C34: Every reachable watch hub keeps its atomic follower count equal to the
    number of followers, at most [MAX_WATCH_FOLLOWERS] and distinct; and after a
    publication every follower holds a snapshot that shows the filtered list,
    with a new generation exactly when what it shows has changed, so a watcher
    is never more than one snapshot behind. *)
Theorem watch_publish_spec h services :
  watch_reachable h →
  wh_count h = length (wh_followers h) ∧ length (wh_followers h) ≤ MAX_WATCH_FOLLOWERS ∧
  NoDup (fo_id <$> wh_followers h) ∧
  Forall2 (λ f f',
    fo_id f' = fo_id f ∧ fo_keys f' = fo_keys f ∧
    let shown := view (filter_snapshot services (fo_keys f)) in
    (view <$> sl_snapshot (fo_slot f') = Some shown) ∧
    (if decide (view <$> sl_snapshot (fo_slot f) = Some shown) then fo_slot f' = fo_slot f
     else sl_gen (fo_slot f') = wrap_add_u64 (sl_gen (fo_slot f)) 1))
    (wh_followers h) (wh_followers (watch_publish services h)).
Proof.
  intros (Hc & Hl & Hnd & _)%watch_reachable_wf. split_and!; [done..|].
  unfold watch_publish. case_decide as H0.
  { rewrite Hc in H0. apply nil_length_inv in H0 as ->. constructor. }
  simpl. apply Forall2_fmap_r.
  assert (∀ (P : Follower → Follower → Prop) l, (∀ f, P f f) → Forall2 P l l) as Hdiag.
  { intros P l HP. induction l; constructor; auto. }
  apply Hdiag. clear Hdiag. intros f.
  destruct (publish_one_view services f) as (snap & Hs & Hv). unfold compose. rewrite Hs.
  revert Hs Hv. unfold publish_one. destruct (sl_snapshot (fo_slot f)) as [old|] eqn:Hold; simpl.
  - destruct (views_eq old _) eqn:He; simpl; rewrite ?Hold; intros [= <-] Hv.
    + split_and!; [done..|by f_equal|]. rewrite decide_True by by f_equal. done.
    + split_and!; [done..|]. rewrite decide_False; [done|]. intros [= Heq%views_eq_spec]. congruence.
  - intros [= <-] _. done.
Qed.

(** Waiting returns a snapshot only with a generation other than the one the
    caller has seen, taken from the slot or from what a wakeup found; when the
    slot already holds an unseen snapshot it is returned at once, whatever the
    wakeups, so a new subscriber gets the snapshot published for it. *)
Theorem watch_wait_spec seen slot wakes :
  match watch_wait seen slot wakes with
  | Snapshot gen services =>
      gen ≠ seen ∧ ∃ s, s ∈ slot :: (wk_slot <$> wakes) ∧ s = mkSlot gen (Some services)
  | Timeout =>
      sl_gen slot = seen ∨ sl_snapshot slot = None
  end ∧
  (∀ services, sl_gen slot ≠ seen → sl_snapshot slot = Some services →
    watch_wait seen slot wakes = Snapshot (sl_gen slot) services).
Proof.
  split; [|intros services Hg Hs; destruct wakes; simpl; by rewrite decide_True, Hs by done].
  revert slot. induction wakes as [|w wakes IH]; intros slot; simpl.
  - destruct (decide (sl_gen slot ≠ seen)) as [Hg|Hg].
    + destruct (sl_snapshot slot) as [snap|] eqn:Hs; [|by right].
      split; [done|]. exists slot. split; [by left|]. destruct slot; simpl in *; congruence.
    + left. by apply dec_stable.
  - destruct (decide (sl_gen slot ≠ seen)) as [Hg|Hg].
    + destruct (sl_snapshot slot) as [snap|] eqn:Hs.
      * split; [done|]. exists slot. split; [by left|]. destruct slot; simpl in *; congruence.
      * destruct (_ && _); [by right|]. specialize (IH (wk_slot w)).
        destruct (watch_wait _ _ _) as [gen services|]; [|by right].
        destruct IH as (? & s & Hin & ->). split; [done|]. eexists. split; [by right|done].
    + apply dec_stable in Hg. destruct (_ && _); [by left|]. specialize (IH (wk_slot w)).
      destruct (watch_wait _ _ _) as [gen services|]; [|by left].
      destruct IH as (? & s & Hin & ->). split; [done|]. eexists. split; [by right|done].
Qed.

Definition example_status (name : string) (st : ServiceState.t) : ServiceStatus :=
  mkServiceStatus name st None 0 0 true {[ "role" := "web" ]}.

Lemma watch_publish_spec_witness :
  ∃ h, watch_reachable h ∧ wh_count h = 1 ∧
    wh_count h = length (wh_followers h).
Proof.
  exists (watch_try_subscribe ["role"] watch_new).2.
  assert (watch_reachable (watch_try_subscribe ["role"] watch_new).2) as Hr.
  { eapply rtc_once. apply wstep_subscribe. }
  split; [exact Hr|]. split; [reflexivity|].
  exact (proj1 (watch_publish_spec _ [example_status "web" ServiceState.Running] Hr)).
Defined.
