(* ===== verification/Reaper.v ===== *)
(** The registry of child exits: [reaper.rs], and the signal state and zombie
    reaping of [signals.rs].

    The entry dropped from a full registry is whichever the hash map yields
    first: a parameter. *)

From S2P Require Import Prelude Constants Protocol.
#[local] Open Scope stdpp_scope.

(** ** Exit registry *)

(** [map.keys().next()] of a [HashMap]. *)
Class FirstKey := {
  first_key : gmap Z Z → option Z;
  first_key_None m : first_key m = None ↔ m = ∅;
  first_key_Some m k : first_key m = Some k → k ∈ dom m;
}.

(** One possible choice. *)
#[export] Program Instance canonical_first_key : FirstKey := {|
  first_key m := fst <$> head (map_to_list m);
|}.
Next Obligation.
  intros m. destruct (map_to_list m) as [|[k v] l] eqn:Hl; rewrite Hl; simpl.
  - apply map_to_list_empty_iff in Hl. by split.
  - split; intros Hm; [by simplify_eq|]. subst. by rewrite map_to_list_empty in Hl.
Qed.
Next Obligation.
  intros m k. destruct (map_to_list m) as [|[k' v] l] eqn:Hl; rewrite Hl; simpl; intros Hk; [done|]. injection Hk as ->.
  apply (elem_of_dom_2 _ _ v), elem_of_map_to_list. rewrite Hl. by left.
Qed.

Section registry.
Context `{FirstKey}.
Implicit Types exits : gmap Z Z.

(** [ExitRegistry::publish] *)
Definition exits_publish (pid code : Z) exits : gmap Z Z :=
  let exits :=
    if decide (MAX_EXIT_REGISTRY_ENTRIES ≤ size exits ∧ exits !! pid = None) then
      match first_key exits with Some victim => delete victim exits | None => exits end
    else exits in
  <[pid := code]> exits.

(** [ExitRegistry::take] *)
Definition exits_take (pid : Z) exits : option Z * gmap Z Z := (exits !! pid, delete pid exits).

Lemma exits_publish_lookup pid code exits : exits_publish pid code exits !! pid = Some code.
Proof. unfold exits_publish. by rewrite lookup_insert, decide_True. Qed.

Lemma exits_publish_size pid code exits :
  size exits ≤ MAX_EXIT_REGISTRY_ENTRIES →
  size (exits_publish pid code exits) ≤ MAX_EXIT_REGISTRY_ENTRIES.
Proof.
  intros Hs. unfold exits_publish. case_decide as Hfull.
  - destruct Hfull as [Hf Hpid]. destruct (first_key exits) as [v|] eqn:Hv.
    + apply first_key_Some, elem_of_dom in Hv as [c Hv].
      assert (size exits ≠ 0) by (apply map_size_ne_0_lookup; eauto).
      assert (size (delete v exits) = pred (size exits)) as Hd by by rewrite map_size_delete, Hv.
      rewrite map_size_insert_None; [lia|]. rewrite lookup_delete. by case_decide.
    + apply first_key_None in Hv as ->. rewrite map_size_empty in Hf.
      unfold MAX_EXIT_REGISTRY_ENTRIES in Hf. simpl in Hf. lia.
  - destruct (exits !! pid) eqn:Hpid.
    + by rewrite map_size_insert_Some by eauto.
    + rewrite map_size_insert_None by done. destruct (decide (MAX_EXIT_REGISTRY_ENTRIES ≤ size exits)).
      * naive_solver.
      * lia.
Qed.

(** The registry's operations, by any thread. *)
Inductive registry_op := Publish (pid code : Z) | Take (pid : Z).

Definition registry_run (ops : list registry_op) : gmap Z Z :=
  foldl (λ m op, match op with
    | Publish pid code => exits_publish pid code m
    | Take pid => (exits_take pid m).2
    end) ∅ ops.

(** The exit registry never exceeds [MAX_EXIT_REGISTRY_ENTRIES]; publishing an
    exit makes it the one the next [take] of that pid returns, exactly once, and
    loses at most one other entry, and none while the registry is not full. *)
Theorem exit_registry_spec ops pid code :
  let m := registry_run ops in
  let m' := exits_publish pid code m in
  size m ≤ MAX_EXIT_REGISTRY_ENTRIES ∧
  (exits_take pid m').1 = Some code ∧
  (exits_take pid (exits_take pid m').2).1 = None ∧
  (∃ victim, ∀ k, k ≠ pid → k ≠ victim → m' !! k = m !! k) ∧
  (size m < MAX_EXIT_REGISTRY_ENTRIES → ∀ k, k ≠ pid → m' !! k = m !! k).
Proof.
  simpl. set (m := registry_run ops). split_and!.
  - unfold m, registry_run. apply (foldl_inv (λ _ m, size m ≤ MAX_EXIT_REGISTRY_ENTRIES)).
    + rewrite map_size_empty. lia.
    + intros _ [p c|p] _ x _ Hx; [by apply exits_publish_size|]. simpl.
      etransitivity; [|done]. apply map_subseteq_size, delete_subseteq.
  - apply exits_publish_lookup.
  - rewrite lookup_delete. by case_decide.
  - unfold exits_publish. case_decide; [destruct (first_key m) as [v|]|].
    + exists v. intros k Hk Hv. rewrite lookup_insert, decide_False, lookup_delete, decide_False; done.
    + exists 0%Z. intros k Hk _. by rewrite lookup_insert, decide_False.
    + exists 0%Z. intros k Hk _. by rewrite lookup_insert, decide_False.
  - intros Hlt k Hk. unfold exits_publish. rewrite decide_False by lia.
    by rewrite lookup_insert, decide_False.
Qed.
End registry.

(** ** Signals *)

Definition SHUT_NONE : N := 0.
Definition SHUT_REBOOT : N := 1.
Definition SHUT_POWEROFF : N := 2.
Definition SHUT_HALT : N := 3.

(** The two atomics written by the handlers. *)
Record SignalState := mkSignalState { shutdown_flag : N; got_sigchld : bool }.

Inductive signal := SIGCHLD | SIGTERM | SIGINT | SIGUSR1 | SIGUSR2.

Definition handle_sigchld (s : SignalState) : SignalState := mkSignalState (shutdown_flag s) true.
Definition handle_reboot (s : SignalState) : SignalState := mkSignalState SHUT_REBOOT (got_sigchld s).
Definition handle_halt (s : SignalState) : SignalState := mkSignalState SHUT_HALT (got_sigchld s).
Definition handle_poweroff (s : SignalState) : SignalState :=
  mkSignalState SHUT_POWEROFF (got_sigchld s).

(** The handler registered for each signal, in order. *)
Definition handlers : list (signal * (SignalState → SignalState)) := [
  (SIGCHLD, handle_sigchld); (SIGTERM, handle_reboot); (SIGINT, handle_reboot);
  (SIGUSR1, handle_halt); (SIGUSR2, handle_poweroff) ].

(** [install_handlers]: the handlers in place, and the error of the first
    [sigaction] that fails, which leaves the later signals alone. *)
Fixpoint install_handlers (sigaction : signal → option string)
    (hs : list (signal * (SignalState → SignalState))) :
    list (signal * (SignalState → SignalState)) * option string :=
  match hs with
  | [] => ([], None)
  | (s, h) :: hs =>
      match sigaction s with
      | Some e => ([], Some e)
      | None => let '(installed, e) := install_handlers sigaction hs in ((s, h) :: installed, e)
      end
  end.

Definition mode_to_flag (m : ShutdownMode.t) : N :=
  match m with
  | ShutdownMode.Reboot => SHUT_REBOOT
  | ShutdownMode.Poweroff => SHUT_POWEROFF
  | ShutdownMode.Halt => SHUT_HALT
  end.

Definition flag_to_mode (flag : N) : option ShutdownMode.t :=
  if decide (flag = SHUT_REBOOT) then Some ShutdownMode.Reboot
  else if decide (flag = SHUT_POWEROFF) then Some ShutdownMode.Poweroff
  else if decide (flag = SHUT_HALT) then Some ShutdownMode.Halt
  else None.

Definition take_shutdown (s : SignalState) : option ShutdownMode.t * SignalState :=
  (flag_to_mode (shutdown_flag s), mkSignalState SHUT_NONE (got_sigchld s)).

Definition request_shutdown (m : ShutdownMode.t) (s : SignalState) : SignalState :=
  mkSignalState (mode_to_flag m) (got_sigchld s).

Definition sigchld_pending (s : SignalState) : bool * SignalState :=
  (got_sigchld s, mkSignalState (shutdown_flag s) false).

(** [128i32.saturating_add(sig)] *)
Definition signal_exit_code (sig : Z) : Z := Z.min 2147483647 (128 + sig).

(** The answers of [waitpid(-1, WNOHANG)]. *)
Inductive WaitStatus :=
  | Exited (pid code : Z)
  | Signaled (pid sig : Z)
  | StillAlive
  | OtherStatus
  | NoChild
  | OtherError.

(** [reap_zombies]: the loop over the successive answers of [waitpid]; it
    returns what it collected and the answers left. *)
Fixpoint reap_zombies (answers : list WaitStatus) : list (Z * Z) * list WaitStatus :=
  match answers with
  | [] => ([], [])
  | Exited pid code :: rest => let '(out, rest) := reap_zombies rest in ((pid, code) :: out, rest)
  | Signaled pid sig :: rest =>
      let '(out, rest) := reap_zombies rest in ((pid, signal_exit_code sig) :: out, rest)
  | StillAlive :: rest | NoChild :: rest => ([], rest)
  | OtherStatus :: rest => reap_zombies rest
  | OtherError :: rest => ([], rest)
  end.

(** What can change the pending shutdown. *)
Inductive signal_op :=
  | OpSignal (s : signal)
  | OpRequest (m : ShutdownMode.t)
  | OpPoll.

#[export] Instance signal_eq_dec : EqDecision signal.
Proof. solve_decision. Defined.

Definition signal_run (s : SignalState) (op : signal_op) : SignalState :=
  match op with
  | OpSignal sig =>
      match find_first (λ h, bool_decide (h.1 = sig)) handlers with
      | Some (_, h) => h s
      | None => s
      end
  | OpRequest m => request_shutdown m s
  | OpPoll => (sigchld_pending s).2
  end.

(** The shutdown an operation asks for. *)
Definition op_mode (op : signal_op) : option ShutdownMode.t :=
  match op with
  | OpSignal SIGTERM | OpSignal SIGINT => Some ShutdownMode.Reboot
  | OpSignal SIGUSR1 => Some ShutdownMode.Halt
  | OpSignal SIGUSR2 => Some ShutdownMode.Poweroff
  | OpRequest m => Some m
  | _ => None
  end.

Lemma flag_to_mode_to_flag m : flag_to_mode (mode_to_flag m) = Some m.
Proof. by destruct m. Qed.

(** The main loop takes exactly the last shutdown requested since it last
    took one, by a signal ([SIGTERM] and [SIGINT] reboot, [SIGUSR1] halts,
    [SIGUSR2] powers off) or over the control socket, and takes it once. *)
Theorem take_shutdown_last ops s :
  let s' := foldl signal_run (take_shutdown s).2 ops in
  (take_shutdown s').1 = last (omap op_mode ops) ∧
  (take_shutdown (take_shutdown s').2).1 = None.
Proof.
  simpl. split; [|done].
  enough (∀ s0, flag_to_mode (shutdown_flag s0) = None →
    flag_to_mode (shutdown_flag (foldl signal_run s0 ops)) = last (omap op_mode ops)) as H by by apply H.
  intros s0 H0. induction ops as [|op ops IH] using rev_ind; [done|].
  rewrite foldl_app, omap_app. simpl.
  destruct op as [[]|m|]; simpl; rewrite ?last_snoc, ?app_nil_r, ?flag_to_mode_to_flag; try done.
Qed.
