(* ===== verification/Runtime.v ===== *)
(** Per-service runtime records and their transitions: the [Runtime] of
    [supervisor.rs] and the methods of [Shared] that update the runtime map.

    The current time is an argument: [now] is the monotonic clock in
    nanoseconds and [utc] the wall clock. *)

From S2P Require Import Prelude Constants Error Config Protocol.
#[local] Open Scope stdpp_scope.

Record RuntimeEvent := mkRuntimeEvent {
  re_ts : N;
  re_kind : ServiceEventKind.t;
  re_from : option ServiceState.t;
  re_to : option ServiceState.t;
  re_detail : option string;
}.

Section protocol.
(** [DateTime::to_rfc3339_opts(Millis, true)] *)
Context (rfc3339_millis : N → string).

(** [RuntimeEvent::to_protocol] *)
Definition to_protocol (e : RuntimeEvent) : ServiceEvent :=
  mkServiceEvent (rfc3339_millis (re_ts e)) (re_kind e) (re_from e) (re_to e) (re_detail e).
End protocol.

Record Runtime := mkRuntime {
  rt_state : ServiceState.t;
  rt_pid : option Z;
  rt_restarts : N;
  rt_liveness_failures : N;
  rt_enabled : bool;
  rt_running_since : option N;
  rt_events : list RuntimeEvent;
}.

Definition new_runtime (enabled : bool) : Runtime := {|
  rt_state := if enabled then ServiceState.Pending else ServiceState.Disabled;
  rt_pid := None;
  rt_restarts := 0;
  rt_liveness_failures := 0;
  rt_enabled := enabled;
  rt_running_since := None;
  rt_events := [];
|}.

Definition set_rt_events (l : list RuntimeEvent) (rt : Runtime) : Runtime :=
  mkRuntime (rt_state rt) (rt_pid rt) (rt_restarts rt) (rt_liveness_failures rt) (rt_enabled rt)
    (rt_running_since rt) l.

Definition push_event_into (utc : N) (kind : ServiceEventKind.t) (from to : option ServiceState.t)
    (detail : option string) (rt : Runtime) : Runtime :=
  let events := if decide (EVENT_RING_CAP ≤ length (rt_events rt)) then tail (rt_events rt)
                else rt_events rt in
  set_rt_events (events ++ [mkRuntimeEvent utc kind from to detail]) rt.

(** The states that keep the pid when none is given. *)
Definition keeps_pid (st : ServiceState.t) : bool :=
  match st with
  | ServiceState.Running | ServiceState.Starting | ServiceState.Restarting
  | ServiceState.WaitingForDependency => true
  | _ => false
  end.

(** [Shared::set_state] on the entry of the service. *)
Definition set_state_rt (now utc : N) (st : ServiceState.t) (pid : option Z) (rt : Runtime) : Runtime :=
  let rt1 := if decide (rt_state rt ≠ st)
             then push_event_into utc ServiceEventKind.StateChange (Some (rt_state rt)) (Some st) None rt
             else rt in
  mkRuntime st
    (match pid with
     | Some p => Some p
     | None => if keeps_pid st then rt_pid rt else None
     end)
    (rt_restarts rt1) (rt_liveness_failures rt1) (rt_enabled rt1)
    (match st with
     | ServiceState.Running =>
         match rt_running_since rt with Some t => Some t | None => Some now end
     | _ => None
     end)
    (rt_events rt1).

(** [Shared::bump_restarts] *)
Definition bump_restarts_rt (utc : N) (rt : Runtime) : Runtime :=
  push_event_into utc ServiceEventKind.Restart None None None
    (mkRuntime (rt_state rt) (rt_pid rt) (sat_add u32_max (rt_restarts rt) 1)
       (rt_liveness_failures rt) (rt_enabled rt) (rt_running_since rt) (rt_events rt)).

(** [Shared::bump_liveness_failures] *)
Definition bump_liveness_rt (utc : N) (detail : option string) (rt : Runtime) : Runtime :=
  push_event_into utc ServiceEventKind.LivenessFailed None None detail
    (mkRuntime (rt_state rt) (rt_pid rt) (rt_restarts rt)
       (sat_add u32_max (rt_liveness_failures rt) 1) (rt_enabled rt) (rt_running_since rt)
       (rt_events rt)).

Definition set_enabled_rt (enabled : bool) (rt : Runtime) : Runtime :=
  mkRuntime (rt_state rt) (rt_pid rt) (rt_restarts rt) (rt_liveness_failures rt) enabled
    (rt_running_since rt) (rt_events rt).

(** The state [Shared::set_enabled] moves to after setting the flag. *)
Definition enabled_next (enabled : bool) (st : ServiceState.t) : option ServiceState.t :=
  if negb enabled then Some ServiceState.Disabled
  else if decide (st = ServiceState.Disabled) then Some ServiceState.Pending
  else None.

(** *** Queries on the runtime map *)

Section queries.
Implicit Types runtimes : gmap string Runtime.

(** [Shared::is_enabled] *)
Definition is_enabled (name : string) runtimes : Result bool :=
  ok_or (rt_enabled <$> runtimes !! name) (Error.UnknownService name).

(** [Shared::current_state] *)
Definition current_state (name : string) runtimes : option ServiceState.t :=
  rt_state <$> runtimes !! name.

(** The dependency states that count as met. *)
Definition is_ready (st : ServiceState.t) : bool :=
  match st with ServiceState.Running | ServiceState.Succeeded => true | _ => false end.

(** [Shared::unmet_deps] *)
Definition unmet_deps (deps : list string) runtimes : Result (list string) :=
  try_fold (λ out dep,
      match runtimes !! dep with
      | None => Err (Error.UnknownService dep)
      | Some rt => Ok (if is_ready (rt_state rt) then out else out ++ [dep])
      end) [] deps.

(** [Shared::deps_ready] *)
Definition deps_ready (deps : list string) runtimes : Result bool :=
  let? unmet := unmet_deps deps runtimes in Ok (bool_decide (unmet = [])).

(** The states [wait_settled] returns at once. *)
Definition is_settled (st : ServiceState.t) : bool :=
  match st with
  | ServiceState.Running | ServiceState.Succeeded | ServiceState.Failed | ServiceState.Stopped
  | ServiceState.Disabled | ServiceState.WaitingForDependency => true
  | _ => false
  end.
End queries.

(** ** Invariant *)

(** An event without its time and detail: its kind and the states it tells of. *)
Definition Step : Type := ServiceEventKind.t * option ServiceState.t * option ServiceState.t.
Definition step_of (e : RuntimeEvent) : Step := (re_kind e, re_from e, re_to e).

(** The steps lead from one state to another: each change starts where the service
    was and goes elsewhere, and the other events tell of no change. *)
Fixpoint leads (from : ServiceState.t) (steps : list Step) (to : ServiceState.t) : Prop :=
  match steps with
  | [] => from = to
  | (ServiceEventKind.StateChange, Some a, Some b) :: steps => a = from ∧ a ≠ b ∧ leads b steps to
  | (ServiceEventKind.StateChange, _, _) :: _ => False
  | (_, None, None) :: steps => leads from steps to
  | _ :: _ => False
  end.

Lemma leads_app from l1 l2 to : leads from (l1 ++ l2) to ↔ ∃ st, leads from l1 st ∧ leads st l2 to.
Proof.
  revert from. induction l1 as [|[[[] [a|]] [b|]] l1 IH]; intros from; simpl; rewrite ?IH; naive_solver.
Qed.

(** The history kept leads to the state of the service. *)
Definition history_wf (events : list RuntimeEvent) (st : ServiceState.t) : Prop :=
  ∃ from, leads from (step_of <$> events) st.

Lemma history_wf_drop n events st : history_wf events st → history_wf (drop n events) st.
Proof.
  intros [from Hl]. rewrite <-(take_drop n events), fmap_app in Hl. apply leads_app in Hl as (st' & _ & Hl).
  by exists st'.
Qed.

Lemma history_wf_snoc events st e st' :
  history_wf events st → leads st [step_of e] st' → history_wf (events ++ [e]) st'.
Proof. intros [from Hl] He. exists from. rewrite fmap_app. apply leads_app. by exists st. Qed.

(** The event ring is bounded and leads to the state, an uptime is kept exactly while
    running, a pid only while the service is or may still be up, and the counters fit
    their width. *)
Definition wf_runtime (rt : Runtime) : Prop :=
  length (rt_events rt) ≤ EVENT_RING_CAP ∧
  (is_Some (rt_running_since rt) ↔ rt_state rt = ServiceState.Running) ∧
  (is_Some (rt_pid rt) → keeps_pid (rt_state rt) = true) ∧
  (rt_restarts rt ≤ u32_max)%N ∧ (rt_liveness_failures rt ≤ u32_max)%N ∧
  history_wf (rt_events rt) (rt_state rt).

Definition wf_runtimes (m : gmap string Runtime) : Prop := map_Forall (λ _, wf_runtime) m.

Lemma length_push_event utc kind from to detail rt :
  length (rt_events rt) ≤ EVENT_RING_CAP →
  length (rt_events (push_event_into utc kind from to detail rt)) ≤ EVENT_RING_CAP.
Proof.
  intros Hl. unfold push_event_into, EVENT_RING_CAP in *. simpl. case_decide.
  - destruct (rt_events rt); simpl in *; rewrite ?length_app; simpl; lia.
  - rewrite length_app. simpl. lia.
Qed.

Lemma history_push_event utc kind from to detail rt st :
  history_wf (rt_events rt) (rt_state rt) → leads (rt_state rt) [(kind, from, to)] st →
  history_wf (rt_events (push_event_into utc kind from to detail rt)) st.
Proof.
  intros Hh Hs. unfold push_event_into. simpl. eapply history_wf_snoc; [|exact Hs]. case_decide; [|done].
  by apply (history_wf_drop 1) in Hh.
Qed.

Lemma new_runtime_wf enabled : wf_runtime (new_runtime enabled).
Proof.
  unfold wf_runtime, new_runtime, u32_max; simpl. split_and!; try lia.
  - split; [by intros []|by destruct enabled].
  - by intros [].
  - by eexists.
Qed.

(** A pid is only given with a state that keeps it. *)
Lemma set_state_rt_wf now utc st pid rt :
  (is_Some pid → keeps_pid st = true) → wf_runtime rt → wf_runtime (set_state_rt now utc st pid rt).
Proof.
  intros Hpid (Hev & Hrun & Hp & Hr & Hl & Hh). unfold wf_runtime, set_state_rt; simpl. split_and!.
  - case_decide; [by apply length_push_event|done].
  - destruct st; simpl; (split; [by intros []|done]) || (split; [done|]).
    intros _. by destruct (rt_running_since rt).
  - destruct pid as [p|]; [intros _; apply Hpid; eauto|]. by destruct (keeps_pid st); [|intros []].
  - by case_decide.
  - by case_decide.
  - case_decide as Hne; [by eapply history_push_event|by subst].
Qed.

Lemma bump_restarts_rt_wf utc rt : wf_runtime rt → wf_runtime (bump_restarts_rt utc rt).
Proof.
  intros (Hev & Hrun & Hp & Hr & Hl & Hh). split_and!; try done; [by apply length_push_event| |].
  - apply sat_add_le.
  - by apply history_push_event.
Qed.

Lemma bump_liveness_rt_wf utc d rt : wf_runtime rt → wf_runtime (bump_liveness_rt utc d rt).
Proof.
  intros (Hev & Hrun & Hp & Hr & Hl & Hh). split_and!; try done; [by apply length_push_event| |].
  - apply sat_add_le.
  - by apply history_push_event.
Qed.

Lemma set_enabled_rt_wf b rt : wf_runtime rt → wf_runtime (set_enabled_rt b rt).
Proof. done. Qed.

#[export] Hint Resolve new_runtime_wf bump_restarts_rt_wf bump_liveness_rt_wf set_enabled_rt_wf
  : microinit.

(** A dependency that is known and ready. *)
Definition dep_met (runtimes : gmap string Runtime) (d : string) : bool :=
  match runtimes !! d with Some rt => is_ready (rt_state rt) | None => false end.

Lemma unmet_deps_spec deps runtimes :
  match unmet_deps deps runtimes with
  | Ok out => out = filter (λ d, dep_met runtimes d = false) deps ∧ ∀ d, d ∈ deps → d ∈ dom runtimes
  | Err e => ∃ d, d ∈ deps ∧ (d ∉ dom runtimes) ∧ e = Error.UnknownService d
  end.
Proof.
  unfold unmet_deps. destruct (try_fold _ _ _) as [out|e] eqn:Hf.
  - revert Hf. apply (try_fold_inv (λ l out,
      out = filter (λ d, dep_met runtimes d = false) l ∧ ∀ d, d ∈ l → d ∈ dom runtimes)).
    { split; [done|]. by intros d ?%elem_of_nil. }
    intros l1 d l2 out1 out2 _ [-> Hdom] Hd. destruct (runtimes !! d) as [rt|] eqn:Hrt; [|done].
    injection Hd as <-. rewrite filter_app. split.
    + assert (dep_met runtimes d = is_ready (rt_state rt)) as Hm by (unfold dep_met; by rewrite Hrt).
      destruct (is_ready (rt_state rt)).
      * rewrite filter_cons_False by congruence. by rewrite app_nil_r.
      * by rewrite filter_cons_True.
    + intros x [Hx| ->%list_elem_of_singleton]%elem_of_app; [by apply Hdom|by eapply elem_of_dom_2].
  - apply try_fold_err in Hf as (l1 & d & l2 & out & -> & _ & Hd).
    destruct (runtimes !! d) eqn:Hrt; [done|]. injection Hd as <-. exists d.
    split_and!; [set_solver|by apply not_elem_of_dom|done].
Qed.

Lemma deps_ready_spec deps runtimes :
  match deps_ready deps runtimes with
  | Ok b => b = forallb (dep_met runtimes) deps ∧ ∀ d, d ∈ deps → d ∈ dom runtimes
  | Err e => ∃ d, d ∈ deps ∧ (d ∉ dom runtimes) ∧ e = Error.UnknownService d
  end.
Proof.
  unfold deps_ready. pose proof (unmet_deps_spec deps runtimes) as Hs.
  destruct (unmet_deps deps runtimes) as [out|]; [|done]. destruct Hs as [-> Hdom].
  split; [|done]. clear Hdom. induction deps as [|d deps IH]; [done|]. simpl.
  destruct (dep_met runtimes d) eqn:Hm.
  - rewrite filter_cons_False by congruence. done.
  - by rewrite filter_cons_True.
Qed.
