(* ===== verification/FileWatch.v ===== *)
(** What the configuration watcher watches: [config_watch.rs].

    Watching is a library's; the directories and the filter it is given are the
    program's. *)

From S2P Require Import Prelude Constants.
#[local] Open Scope stdpp_scope.

Definition DEBOUNCE : N := from_millis 300.

(** [PathFilter::Any] *)
Record PathFilter := mkPathFilter {
  pf_extensions : list string;
  pf_extra_names : list string;
  pf_ignore_suffixes : list string;
}.

Definition microinit_filter : PathFilter :=
  mkPathFilter ["json"] ["microinit.json"; "microinit.services.enabled-override.json"; "microinit.d"] [].

(** [is_relevant_path], for the library's function of that name. *)
Definition is_relevant_path (relevant : string → PathFilter → bool) (path : string) : bool :=
  relevant path microinit_filter.

Record WatchSpec := mkWatchSpec {
  ws_path : string;
  ws_recursive : bool;
  ws_filter : PathFilter;
}.

(** The directories [spawn] watches. *)
Definition watch_specs (etc_dir dropins_dir : string) : list WatchSpec :=
  [mkWatchSpec etc_dir false microinit_filter; mkWatchSpec dropins_dir true microinit_filter].
