(* ===== verification/World.v ===== *)
(** The machine the daemon runs on: the state its threads share, the effects a
    thread performs, and the monad its code is written in.

    A computation of one thread is a function of the world.  Each access to the
    shared state is one atomic section (the code holds the mutex), and before
    each one the other threads may have changed the state: [interfere].  Every
    effect is recorded in the history, most recent first, and the answers of the
    operating system are functions of the history, so a host describes any
    behaviour of the environment.  A computation that does not return either
    panics, which aborts the process ([panic = abort]), or waits forever. *)

From S2P Require Import Prelude Constants Error Security Config Protocol Logs Watch Reaper.
From S2P Require Import Runtime FileWatch.
#[local] Open Scope stdpp_scope.

(** [supervisor.rs]: messages to a monitor thread. *)
Inductive CtlMsg := CtlStart (force : bool) | CtlStop | CtlRestart | CtlQuit.

#[export] Instance CtlMsg_eq_dec : EqDecision CtlMsg.
Proof. solve_decision. Defined.

(** An [mpsc] channel: the messages not received yet and whether each end lives. *)
Record Chan := mkChan { ch_queue : list CtlMsg; ch_sender : bool; ch_receiver : bool }.

(** The command built for the shell. *)
Record ShellCommand := mkShellCommand {
  cm_args : list string;
  cm_cwd : string;
  cm_env : gmap string string;
  cm_quiet : bool;
  cm_pre_exec : option ResolvedIdentity;
}.

Inductive KillSignal := KillTerm | KillKill | KillProbe.

(** [otelenv.rs]: the contents of the settings file as of a modification time. *)
Record FileCache := mkFileCache { fc_mtime : option N; fc_data : gmap string string }.

(** [version.rs]: [Info] *)
Record Info := mkInfo {
  vi_version : string;
  vi_tag_commit : string;
  vi_build_commit : string;
  vi_build_time : string;
}.

(** The state shared by the threads: the fields of [Supervisor] and [Shared], the
    process-wide exit registry, environment cache, signal flags, environment,
    settings cache and version, the files, and whether the bridge of the [log] crate
    knows the hub. *)
Record Shared := mkShared {
  sh_runtimes : gmap string Runtime;
  sh_stop_all : bool;
  sh_config : Config;
  sh_ctl : gmap string nat;
  sh_chans : gmap nat Chan;
  sh_next_chan : nat;
  sh_exits : gmap Z Z;
  sh_reaper_started : bool;
  sh_hub : LogHub;
  sh_watch : WatchHub;
  sh_env : gmap string string;
  sh_files : gmap string string;
  sh_signals : SignalState;
  sh_process_env : gmap string string;
  sh_otel_cache : FileCache;
  sh_version : option Info;
  sh_bridge : bool;
}.

Definition set_runtimes (m : gmap string Runtime) (s : Shared) : Shared :=
  mkShared m (sh_stop_all s) (sh_config s) (sh_ctl s) (sh_chans s) (sh_next_chan s) (sh_exits s)
    (sh_reaper_started s) (sh_hub s) (sh_watch s) (sh_env s) (sh_files s)
    (sh_signals s) (sh_process_env s) (sh_otel_cache s) (sh_version s) (sh_bridge s).
Definition set_stop_all (b : bool) (s : Shared) : Shared :=
  mkShared (sh_runtimes s) b (sh_config s) (sh_ctl s) (sh_chans s) (sh_next_chan s) (sh_exits s)
    (sh_reaper_started s) (sh_hub s) (sh_watch s) (sh_env s) (sh_files s)
    (sh_signals s) (sh_process_env s) (sh_otel_cache s) (sh_version s) (sh_bridge s).
Definition set_config (c : Config) (s : Shared) : Shared :=
  mkShared (sh_runtimes s) (sh_stop_all s) c (sh_ctl s) (sh_chans s) (sh_next_chan s) (sh_exits s)
    (sh_reaper_started s) (sh_hub s) (sh_watch s) (sh_env s) (sh_files s)
    (sh_signals s) (sh_process_env s) (sh_otel_cache s) (sh_version s) (sh_bridge s).
Definition set_channels (ctl : gmap string nat) (chans : gmap nat Chan) (next : nat) (s : Shared) :
    Shared :=
  mkShared (sh_runtimes s) (sh_stop_all s) (sh_config s) ctl chans next (sh_exits s)
    (sh_reaper_started s) (sh_hub s) (sh_watch s) (sh_env s) (sh_files s)
    (sh_signals s) (sh_process_env s) (sh_otel_cache s) (sh_version s) (sh_bridge s).
Definition set_exits (m : gmap Z Z) (s : Shared) : Shared :=
  mkShared (sh_runtimes s) (sh_stop_all s) (sh_config s) (sh_ctl s) (sh_chans s) (sh_next_chan s) m
    (sh_reaper_started s) (sh_hub s) (sh_watch s) (sh_env s) (sh_files s)
    (sh_signals s) (sh_process_env s) (sh_otel_cache s) (sh_version s) (sh_bridge s).
Definition set_reaper_started (b : bool) (s : Shared) : Shared :=
  mkShared (sh_runtimes s) (sh_stop_all s) (sh_config s) (sh_ctl s) (sh_chans s) (sh_next_chan s)
    (sh_exits s) b (sh_hub s) (sh_watch s) (sh_env s) (sh_files s)
    (sh_signals s) (sh_process_env s) (sh_otel_cache s) (sh_version s) (sh_bridge s).
Definition set_hub (h : LogHub) (s : Shared) : Shared :=
  mkShared (sh_runtimes s) (sh_stop_all s) (sh_config s) (sh_ctl s) (sh_chans s) (sh_next_chan s)
    (sh_exits s) (sh_reaper_started s) h (sh_watch s) (sh_env s) (sh_files s)
    (sh_signals s) (sh_process_env s) (sh_otel_cache s) (sh_version s) (sh_bridge s).
Definition set_watch (h : WatchHub) (s : Shared) : Shared :=
  mkShared (sh_runtimes s) (sh_stop_all s) (sh_config s) (sh_ctl s) (sh_chans s) (sh_next_chan s)
    (sh_exits s) (sh_reaper_started s) (sh_hub s) h (sh_env s) (sh_files s)
    (sh_signals s) (sh_process_env s) (sh_otel_cache s) (sh_version s) (sh_bridge s).
Definition set_env (m : gmap string string) (s : Shared) : Shared :=
  mkShared (sh_runtimes s) (sh_stop_all s) (sh_config s) (sh_ctl s) (sh_chans s) (sh_next_chan s)
    (sh_exits s) (sh_reaper_started s) (sh_hub s) (sh_watch s) m (sh_files s)
    (sh_signals s) (sh_process_env s) (sh_otel_cache s) (sh_version s) (sh_bridge s).
Definition set_files (m : gmap string string) (s : Shared) : Shared :=
  mkShared (sh_runtimes s) (sh_stop_all s) (sh_config s) (sh_ctl s) (sh_chans s) (sh_next_chan s)
    (sh_exits s) (sh_reaper_started s) (sh_hub s) (sh_watch s) (sh_env s) m
    (sh_signals s) (sh_process_env s) (sh_otel_cache s) (sh_version s) (sh_bridge s).
Definition set_signals (g : SignalState) (s : Shared) : Shared :=
  mkShared (sh_runtimes s) (sh_stop_all s) (sh_config s) (sh_ctl s) (sh_chans s) (sh_next_chan s)
    (sh_exits s) (sh_reaper_started s) (sh_hub s) (sh_watch s) (sh_env s) (sh_files s)
    g (sh_process_env s) (sh_otel_cache s) (sh_version s) (sh_bridge s).
Definition set_process_env (m : gmap string string) (s : Shared) : Shared :=
  mkShared (sh_runtimes s) (sh_stop_all s) (sh_config s) (sh_ctl s) (sh_chans s) (sh_next_chan s)
    (sh_exits s) (sh_reaper_started s) (sh_hub s) (sh_watch s) (sh_env s) (sh_files s)
    (sh_signals s) m (sh_otel_cache s) (sh_version s) (sh_bridge s).
Definition set_otel_cache (c : FileCache) (s : Shared) : Shared :=
  mkShared (sh_runtimes s) (sh_stop_all s) (sh_config s) (sh_ctl s) (sh_chans s) (sh_next_chan s)
    (sh_exits s) (sh_reaper_started s) (sh_hub s) (sh_watch s) (sh_env s) (sh_files s)
    (sh_signals s) (sh_process_env s) c (sh_version s) (sh_bridge s).
Definition set_version (v : option Info) (s : Shared) : Shared :=
  mkShared (sh_runtimes s) (sh_stop_all s) (sh_config s) (sh_ctl s) (sh_chans s) (sh_next_chan s)
    (sh_exits s) (sh_reaper_started s) (sh_hub s) (sh_watch s) (sh_env s) (sh_files s)
    (sh_signals s) (sh_process_env s) (sh_otel_cache s) v (sh_bridge s).
Definition set_bridge (b : bool) (s : Shared) : Shared :=
  mkShared (sh_runtimes s) (sh_stop_all s) (sh_config s) (sh_ctl s) (sh_chans s) (sh_next_chan s)
    (sh_exits s) (sh_reaper_started s) (sh_hub s) (sh_watch s) (sh_env s) (sh_files s)
    (sh_signals s) (sh_process_env s) (sh_otel_cache s) (sh_version s) b.

(** What a thread does.  An atomic section records the state it found and the one it
    left; [EvPoll] is a question to the machine without any effect. *)
Inductive Event :=
  | EvStep (before after : Shared)
  | EvPoll
  | EvNow
  | EvUtc
  | EvSleep (d : N)
  | EvTimedWait (d : N)
  | EvRecv (d : N)
  | EvSpawn (c : ShellCommand)
  | EvKill (pid : Z) (sig : KillSignal)
  | EvChildWait (pid : Z)
  | EvTryWait (pid : Z)
  | EvLog (out : LogOutput)
  | EvCapture (service : string) (level : LogLevel.t) (pid : Z)
  | EvConsole (device : option string) (text : string)
  | EvSend (name : string) (msg : CtlMsg) (sent : bool)
  | EvMonitor (name : string) (chan : nat)
  | EvReaperThread
  | EvRead (path : string)
  | EvWrite (path data : string)
  | EvRename (from to : string)
  | EvMkdirs (path : string)
  | EvReadDir (path : string)
  | EvConnect (addr : string)
  | EvHttp (method url : string)
  | EvFrame (payload : string)
  | EvSigaction
  | EvBootNote (tty : string) (text : string)
  | EvScript (source : string) (env : list (string * string))
  | EvReap
  | EvReloadSignal
  | EvListen (path : string)
  | EvRemove (path : string)
  | EvMetadata (path : string)
  | EvThread (name : string)
  | EvOpen (path : string) (create : bool)
  | EvWatchConfig (specs : list WatchSpec) (debounce : N)
  | EvDial (path : string)
  | EvReadFrame
  | EvStdout (text : string)
  | EvSync
  | EvReboot (mode : ShutdownMode.t)
  | EvProgram (argv : list string)
  | EvPost (url : string) (headers : list (string * string)) (body : string)
  | EvExit (code : Z)
  | EvStderr (text : string).

(** The type of a directory entry; links are not followed. *)
Inductive FileType := IsDir | IsFile | IsOther.

Record World := mkWorld { shared : Shared; hist : list Event }.

(** The environment: the other threads, the clocks and the operating system. *)
Class Host := {
  interfere : list Event → Shared → Shared;
  clock : list Event → N;
  utc_clock : list Event → N;
  rfc3339_secs : N → string;
  rfc3339_ms : N → string;
  (** wakeups of a timed wait before it times out *)
  wakeups : list Event → nat;
  spawn_answer : list Event → ShellCommand → result Z string;
  (** [Child::wait]: the exit code, if any *)
  child_wait_answer : list Event → Z → result (option Z) string;
  (** [Child::try_wait]: [None] while it runs *)
  try_wait_answer : list Event → Z → result (option (option Z)) string;
  (** rounds of waiting for a child without a bound, before its exit is seen *)
  patience : list Event → nat;
  (** whether [kill] reports that there is no such process *)
  kill_no_process : list Event → Z → bool;
  thread_fault : list Event → option string;
  fs_fault : list Event → option io_error;
  (** what a failed write leaves in the file, if it touched it *)
  fs_partial : list Event → option string;
  (** the readable entries of a directory, with their types *)
  read_dir_answer : list Event → string → result (list (string * result FileType io_error)) io_error;
  (** a bound on the depth of the directory trees *)
  dir_depth : nat;
  resolve_answer : list Event → string → result (list string) string;
  connect_answer : list Event → string → option string;
  http_answer : list Event → string → string → result N string;
  proc_status : list Event → Z → option string;
  (** whether a path can be opened for writing, or else created *)
  opens : list Event → string → bool → bool;
}.

(** A computation of one thread; [None] means that it does not return. *)
Definition M (A : Type) : Type := World → option A * World.

#[export] Instance M_ret : MRet M := λ A a w, (Some a, w).
#[export] Instance M_bind : MBind M := λ A B f m w,
  match m w with (Some a, w') => f a w' | (None, w') => (None, w') end.

Definition no_return {A} : M A := λ w, (None, w).

(** The [?] operator in the monad. *)
Notation "x '<-?' m ; k" :=
  (mbind (M := M) (λ r, match r with Ok x => k | Err e => mret (Err e) end) m)
  (at level 20, m at level 100, k at level 200, only parsing) : microinit_scope.

Section primitives.
Context `{Host}.

(** One atomic section on the shared state. *)
Definition atomic {A} (f : Shared → A * Shared) : M A := λ w,
  let s0 := interfere (hist w) (shared w) in
  let '(a, s) := f s0 in (Some a, mkWorld s (EvStep s0 s :: hist w)).

(** An atomic section that reads the clocks: [now] and [utc]. *)
Definition atomic_at {A} (f : N → N → Shared → A * Shared) : M A := λ w,
  let s0 := interfere (hist w) (shared w) in
  let '(a, s) := f (clock (hist w)) (utc_clock (hist w)) s0 in (Some a, mkWorld s (EvStep s0 s :: hist w)).

Definition reads {A} (f : Shared → A) : M A := atomic (λ s, (f s, s)).
Definition updates (f : Shared → Shared) : M unit := atomic (λ s, (tt, f s)).

(** An effect and its answer. *)
Definition effect (e : Event) : M unit := λ w, (Some tt, mkWorld (shared w) (e :: hist w)).
Definition asks {A} (answer : list Event → A) (e : Event) : M A := λ w,
  (Some (answer (hist w)), mkWorld (shared w) (e :: hist w)).

(** [Instant::now], [Utc::now], [thread::sleep] *)
Definition instant_now : M N := asks clock EvNow.
Definition utc_now : M N := asks utc_clock EvUtc.
Definition sleep (d : N) : M unit := effect (EvSleep d).

(** [Instant + Duration] *)
Definition instant_add (t d : N) : M N :=
  if decide (t + d ≤ INSTANT_MAX)%N then mret (t + d)%N else no_return.

(** The writes of the hub, in order. *)
Definition write_logs (outs : list LogOutput) : M unit := λ w,
  (Some tt, mkWorld (shared w) (reverse (EvLog <$> outs) ++ hist w)).

(** [LogHub::publish_inner]: each buffer and the followers have their own lock. *)
Definition publish_line (line : LogLine) (tee_stderr : bool) : M unit :=
  updates (λ s, set_hub (push_service line (sh_hub s)) s) ≫= λ _,
  atomic (λ s, (outputs_of (sh_hub s) line tee_stderr,
                set_hub (push_mixed line (sh_hub s)) s)) ≫= λ outs,
  write_logs outs ≫= λ _,
  updates (λ s, set_hub (send_line line (sh_hub s)) s).

(** [LogHub::emit] *)
Definition emit (service : string) (level : LogLevel.t) (msg : string) : M unit :=
  utc_now ≫= λ ts,
  reads (λ s, boot_tee_enabled (sh_hub s)) ≫= λ tee,
  publish_line (mkLogLine (rfc3339_secs ts) service level msg)
    (bool_decide (service = INIT_SERVICE) && tee).

Definition emit_init (level : LogLevel.t) (msg : string) : M unit := emit INIT_SERVICE level msg.

(** Files.  A failed write may leave the file truncated or partly written. *)
Definition fs_exists (path : string) : M bool :=
  reads (λ s, bool_decide (is_Some (sh_files s !! path))).

Definition fs_read (path : string) : M (result string io_error) :=
  asks fs_fault (EvRead path) ≫= λ fault,
  reads (λ s, match fault with
    | Some e => Err e
    | None => ok_or (sh_files s !! path) (mkIoError NotFound "No such file or directory (os error 2)")
    end).

Definition fs_write (path data : string) : M (result unit io_error) :=
  asks (λ h, (fs_fault h, fs_partial h)) (EvWrite path data) ≫= λ '(fault, partial),
  atomic (λ s, match fault with
    | None => (Ok tt, set_files (<[path := data]> (sh_files s)) s)
    | Some e =>
        (Err e, match partial with
                | Some c => set_files (<[path := c]> (sh_files s)) s
                | None => s
                end)
    end).

Definition fs_rename (from to : string) : M (result unit io_error) :=
  asks fs_fault (EvRename from to) ≫= λ fault,
  atomic (λ s, match fault with
    | Some e => (Err e, s)
    | None =>
        match sh_files s !! from with
        | Some c => (Ok tt, set_files (<[to := c]> (delete from (sh_files s))) s)
        | None => (Err (mkIoError NotFound "No such file or directory (os error 2)"), s)
        end
    end).

Definition fs_mkdirs (path : string) : M (result unit io_error) :=
  asks fs_fault (EvMkdirs path) ≫= λ fault,
  mret (match fault with Some e => Err e | None => Ok tt end).

(** Opening a terminal or a device for writing, or creating the file. *)
Definition fs_open (path : string) (create : bool) : M bool :=
  asks (λ h, opens h path create) (EvOpen path create).

Fixpoint for_each_m {A} (l : list A) (body : A → M unit) : M unit :=
  match l with
  | [] => mret tt
  | a :: l => body a ≫= λ _, for_each_m l body
  end.

(** A loop whose body may leave with [?]. *)
Fixpoint try_each_m {A} (l : list A) (body : A → M (Result unit)) : M (Result unit) :=
  match l with
  | [] => mret (Ok tt)
  | a :: l => body a ≫= λ r, match r with Ok _ => try_each_m l body | Err e => mret (Err e) end
  end.
End primitives.
