(* ===== verification/Logic.v ===== *)
(** Rules for the computations of [World.v].

    - [guarantees G m]: every atomic section of [m], whether or not [m] returns,
      changes the shared state as the relation [G] allows; [keeps I m]: it leaves the
      state satisfying [I] when it found it so, and when the other threads keep [I]
      too, it survives [m] ([keeps_survives]);
    - [emits P m]: [m] only adds events satisfying [P] to the history;
    - [triple P m Q]: when [m] returns from a world satisfying [P], [Q] holds;
    - [returning m Q]: [m] returns from any world, with [Q]. *)

From S2P Require Import Prelude Constants Error Config Protocol Logs Watch Runtime World.
#[local] Open Scope stdpp_scope.

(** [I] holds after [m], whether or not it returns, if it did before. *)
Definition survives (I : Shared → Prop) {A} (m : M A) : Prop :=
  ∀ w, I (shared w) → I (shared (m w).2).

Definition emits (P : Event → Prop) {A} (m : M A) : Prop :=
  ∀ w, ∃ new, hist (m w).2 = new ++ hist w ∧ Forall P new.

Definition triple {A} (P : World → Prop) (m : M A) (Q : A → World → Prop) : Prop :=
  ∀ w a w', P w → m w = (Some a, w') → Q a w'.

(** [w'] comes after [w]. *)
Definition later (w w' : World) : Prop := ∃ new, hist w' = new ++ hist w.

(** The computation always returns, with a result and a world satisfying [Q]. *)
Definition returning {A} (m : M A) (Q : A → World → Prop) : Prop :=
  ∀ w, ∃ a w', m w = (Some a, w') ∧ later w w' ∧ Q a w'.
#[global] Abbreviation returns m := (returning m (λ _ _, True)).

(** The results of a computation, whatever the world. *)
Definition yields {A} (P : A → Prop) (m : M A) : Prop :=
  ∀ w a w', m w = (Some a, w') → P a.

(** The state an atomic section finds. *)
Definition entered `{Host} (w : World) : Shared := interfere (hist w) (shared w).

(** The world after an atomic section that leaves this state. *)
#[global] Abbreviation stepped w s := (mkWorld s (EvStep (entered w) s :: hist w)).

(** After a section that only reads. *)
Definition looked `{Host} (w : World) : World := stepped w (entered w).

(** The state the thread left last among new events. *)
Fixpoint state_after (s : Shared) (new : list Event) : Shared :=
  match new with
  | [] => s
  | EvStep _ s' :: _ => s'
  | _ :: new => state_after s new
  end.

(** Each section found what the other threads made of what this one left before. *)
Fixpoint linked `{Host} (w : World) (new : list Event) : Prop :=
  match new with
  | [] => True
  | e :: new =>
      linked w new ∧
      match e with EvStep s _ => s = interfere (new ++ hist w) (state_after (shared w) new) | _ => True end
  end.

(** The events of a run from one world to another. *)
Definition ran `{Host} (w : World) (new : list Event) (w' : World) : Prop :=
  hist w' = new ++ hist w ∧ shared w' = state_after (shared w) new ∧ linked w new.

(** What an atomic section does is allowed. *)
Definition within (G : Shared → Shared → Prop) (e : Event) : Prop :=
  match e with EvStep s s' => G s s' | _ => True end.

Definition guarantees `{Host} (G : Shared → Shared → Prop) {A} (m : M A) : Prop :=
  ∀ w, ∃ new, ran w new (m w).2 ∧ Forall (within G) new.

(** [I] is kept; [f] of the state is left as it was. *)
Definition kept (I : Shared → Prop) (s s' : Shared) : Prop := I s → I s'.
Definition same {X} (f : Shared → X) (s s' : Shared) : Prop := f s' = f s.

#[global] Abbreviation keeps I := (guarantees (kept I)).
#[global] Abbreviation respects I := (within (kept I)).

#[export] Instance kept_refl I : Reflexive (kept I).
Proof. by intros s Hs. Qed.
#[export] Instance same_refl {X} (f : Shared → X) : Reflexive (same f).
Proof. by intros s. Qed.

(** The state an atomic section found satisfies [I]. *)
Definition finds (I : Shared → Prop) (e : Event) : Prop := match e with EvStep s _ => I s | _ => True end.

(** No atomic section. *)
Definition stepless (e : Event) : bool := match e with EvStep _ _ => false | _ => true end.

Lemma later_refl w : later w w.
Proof. by exists []. Qed.

Lemma later_trans w1 w2 w3 : later w1 w2 → later w2 w3 → later w1 w3.
Proof. intros [n1 H1] [n2 H2]. exists (n2 ++ n1). by rewrite H2, H1, app_assoc. Qed.

Lemma bind_Some {A B} (m : M A) (f : A → M B) w b w' :
  (m ≫= f) w = (Some b, w') ↔ ∃ a w1, m w = (Some a, w1) ∧ f a w1 = (Some b, w').
Proof.
  unfold mbind, M_bind. destruct (m w) as [[a|] w1]; split.
  - eauto.
  - by intros (? & ? & [= <- <-] & ?).
  - done.
  - by intros (? & ? & ? & ?).
Qed.

Lemma bind_step {A B} (m : M A) (f : A → M B) w a w1 :
  m w = (Some a, w1) → (m ≫= f) w = f a w1.
Proof. intros Hm. unfold mbind, M_bind. by rewrite Hm. Qed.

Lemma bind_ret {A B} (a : A) (f : A → M B) w : (mret a ≫= f) w = f a w.
Proof. done. Qed.

Section rules.
Context `{Host}.

(** An atomic section followed by the rest. *)
Lemma atomic_bind {A B} (f : Shared → A * Shared) (k : A → M B) w :
  (atomic f ≫= k) w = let '(a, s) := f (entered w) in k a (stepped w s).
Proof. unfold mbind, M_bind, atomic. fold (entered w). by destruct (f _). Qed.

Lemma reads_bind {A B} (f : Shared → A) (k : A → M B) w :
  (reads f ≫= k) w = k (f (entered w)) (stepped w (entered w)).
Proof. done. Qed.

(** ** Runs *)

Lemma state_after_app s new1 new2 : state_after s (new2 ++ new1) = state_after (state_after s new1) new2.
Proof. induction new2 as [|[] new2 IH]; done. Qed.

Lemma ran_nil w : ran w [] w.
Proof. done. Qed.

Lemma ran_app w new1 w1 new2 w2 : ran w new1 w1 → ran w1 new2 w2 → ran w (new2 ++ new1) w2.
Proof.
  intros (Hh1 & Hs1 & Hl1) (Hh2 & Hs2 & Hl2). split; [by rewrite Hh2, Hh1, (assoc_L (++))|].
  split; [by rewrite Hs2, Hs1, state_after_app|]. clear Hs2 Hh2.
  induction new2 as [|e new2 IH]; [done|]. destruct Hl2 as [Hl2 He]. split; [by apply IH|].
  destruct e; try done. by rewrite He, <-(assoc_L (++)), <-Hh1, Hs1, state_after_app.
Qed.

Lemma ran_stepless w new : forallb stepless new → ran w new (mkWorld (shared w) (new ++ hist w)).
Proof.
  intros Hn. split; [done|]. induction new as [|e new IH]; [done|]. simpl in Hn. apply andb_prop_elim in Hn as [He Hn].
  destruct (IH Hn) as [Hs Hl]. by destruct e.
Qed.

Lemma ran_atomic {A} (f : Shared → A * Shared) w :
  ran w [EvStep (entered w) (f (entered w)).2] (atomic f w).2.
Proof. unfold atomic. fold (entered w). destruct (f _) as [a s]. by repeat split. Qed.

Lemma ran_atomic_at {A} (f : N → N → Shared → A * Shared) w :
  ran w [EvStep (entered w) (f (clock (hist w)) (utc_clock (hist w)) (entered w)).2] (atomic_at f w).2.
Proof. unfold atomic_at. fold (entered w). destruct (f _ _ _) as [a s]. by repeat split. Qed.

(** ** Invariants *)

(** What the other threads keep too survives. *)
Lemma ran_shared (I : Shared → Prop) w new w' :
  (∀ h s, I s → I (interfere h s)) → ran w new w' → Forall (respects I) new → I (shared w) → I (shared w').
Proof.
  intros Hrely (_ & -> & Hl) Hn Hw. induction Hn as [|e new He _ IH]; [done|]. destruct Hl as [Hl Hs].
  specialize (IH Hl). destruct e; try done. apply He. rewrite Hs. by apply Hrely.
Qed.

Lemma keeps_survives (I : Shared → Prop) {A} (m : M A) :
  (∀ h s, I s → I (interfere h s)) → keeps I m → survives I m.
Proof. intros Hrely Hm w. destruct (Hm w) as (new & Hr & Hn). by eapply ran_shared. Qed.

Lemma guarantees_weaken (G G' : Shared → Shared → Prop) {A} (m : M A) :
  (∀ s s', G s s' → G' s s') → guarantees G m → guarantees G' m.
Proof.
  intros Hw Hm w. destruct (Hm w) as (new & Hr & Hn). exists new. split; [done|].
  eapply Forall_impl; [exact Hn|]. intros []; try done. apply Hw.
Qed.

(** What sections that leave [f] of the state alone keep. *)
Lemma guarantees_same_kept {X} (f : Shared → X) (P : X → Prop) {A} (m : M A) :
  guarantees (same f) m → keeps (λ s, P (f s)) m.
Proof. apply guarantees_weaken. intros s s' Heq. unfold kept. by rewrite Heq. Qed.

Section keeps.
Context (G : Shared → Shared → Prop).

Lemma keeps_stepless {A} (m : M A) new :
  forallb stepless new → (∀ w, (m w).2 = mkWorld (shared w) (new ++ hist w)) → guarantees G m.
Proof.
  intros Hn Hm w. exists new. rewrite Hm. split; [by apply ran_stepless|].
  apply forallb_True in Hn. eapply Forall_impl; [exact Hn|]. by intros [].
Qed.

Lemma keeps_ret {A} (a : A) : guarantees G (mret a).
Proof. apply (keeps_stepless _ []); [done|]. by intros []. Qed.

Lemma keeps_no_return {A} : guarantees G (no_return (A := A)).
Proof. apply (keeps_stepless _ []); [done|]. by intros []. Qed.

Lemma keeps_bind_yields {A B} (P : A → Prop) (m : M A) (f : A → M B) :
  guarantees G m → yields P m → (∀ a, P a → guarantees G (f a)) → guarantees G (m ≫= f).
Proof.
  intros Hm Hp Hf w. destruct (Hm w) as (new & Hr & Hn). unfold mbind, M_bind.
  destruct (m w) as [[a|] w1] eqn:Hw; [|by exists new].
  destruct (Hf a (Hp _ _ _ Hw) w1) as (new' & Hr' & Hn'). exists (new' ++ new).
  split; [by eapply ran_app|by apply Forall_app].
Qed.

Lemma keeps_bind {A B} (m : M A) (f : A → M B) :
  guarantees G m → (∀ a, guarantees G (f a)) → guarantees G (m ≫= f).
Proof. intros Hm Hf. by apply (keeps_bind_yields (λ _, True)). Qed.

Lemma keeps_effect e : stepless e → guarantees G (effect e).
Proof. intros He. apply (keeps_stepless _ [e]); [simpl; by rewrite andb_true_r|done]. Qed.

Lemma keeps_asks {A} (answer : list Event → A) e : stepless e → guarantees G (asks answer e).
Proof. intros He. apply (keeps_stepless _ [e]); [simpl; by rewrite andb_true_r|done]. Qed.

Lemma keeps_write_logs outs : guarantees G (write_logs outs).
Proof.
  apply (keeps_stepless _ (reverse (EvLog <$> outs))); [|done]. apply forallb_True, Forall_reverse, Forall_fmap.
  by apply Forall_true.
Qed.

Lemma keeps_instant_add t d : guarantees G (instant_add t d).
Proof. unfold instant_add. case_decide; [apply keeps_ret|apply keeps_no_return]. Qed.

Lemma keeps_for_each {A} (l : list A) body :
  (∀ a, a ∈ l → guarantees G (body a)) → guarantees G (for_each_m l body).
Proof.
  intros Hb. induction l as [|a l IH]; [apply keeps_ret|].
  apply keeps_bind; [apply Hb; by left|]. intros _. apply IH. intros x Hx. apply Hb. by right.
Qed.

Lemma keeps_try_each {A} (l : list A) body :
  (∀ a, a ∈ l → guarantees G (body a)) → guarantees G (try_each_m l body).
Proof.
  intros Hb. induction l as [|a l IH]; [apply keeps_ret|].
  apply keeps_bind; [apply Hb; by left|].
  intros [[]|e]; [apply IH; intros x Hx; apply Hb; by right|apply keeps_ret].
Qed.

Lemma keeps_atomic {A} (f : Shared → A * Shared) : (∀ s, G s (f s).2) → guarantees G (atomic f).
Proof.
  intros Hf w. eexists. split; [apply ran_atomic|]. constructor; [apply Hf|constructor].
Qed.

Lemma keeps_atomic_at {A} (f : N → N → Shared → A * Shared) :
  (∀ now utc s, G s (f now utc s).2) → guarantees G (atomic_at f).
Proof.
  intros Hf w. eexists. split; [apply ran_atomic_at|]. constructor; [apply Hf|constructor].
Qed.

Lemma keeps_reads `{!Reflexive G} {A} (f : Shared → A) : guarantees G (reads f).
Proof. by apply keeps_atomic. Qed.

Lemma keeps_updates (f : Shared → Shared) : (∀ s, G s (f s)) → guarantees G (updates f).
Proof. intros Hf. by apply keeps_atomic. Qed.
End keeps.

(** ** Events *)

Section emits.
Context (P : Event → Prop).

Lemma emits_none {A} (m : M A) : (∀ w, hist (m w).2 = hist w) → emits P m.
Proof. intros Hm w. exists []. rewrite Hm. by split; [|constructor]. Qed.

Lemma emits_one {A} (m : M A) e : P e → (∀ w, hist (m w).2 = e :: hist w) → emits P m.
Proof. intros He Hm w. exists [e]. rewrite Hm. by split; [|constructor]. Qed.

Lemma emits_ret {A} (a : A) : emits P (mret a).
Proof. by apply emits_none. Qed.

Lemma emits_no_return {A} : emits P (no_return (A := A)).
Proof. by apply emits_none. Qed.

Lemma emits_bind_yields {A B} (R : A → Prop) (m : M A) (f : A → M B) :
  emits P m → yields R m → (∀ a, R a → emits P (f a)) → emits P (m ≫= f).
Proof.
  intros Hm Hr Hf w. unfold mbind, M_bind. specialize (Hr w).
  destruct (Hm w) as (new & Hh & Hn). destruct (m w) as [[a|] w']; [|by exists new]. simpl in Hh.
  destruct (Hf a (Hr a w' eq_refl) w') as (new' & Hh' & Hn'). exists (new' ++ new).
  rewrite Hh', Hh, <-app_assoc. split; [done|]. by apply Forall_app.
Qed.

Lemma emits_bind {A B} (m : M A) (f : A → M B) :
  emits P m → (∀ a, emits P (f a)) → emits P (m ≫= f).
Proof. intros Hm Hf. by apply (emits_bind_yields (λ _, True)). Qed.

Lemma emits_effect e : P e → emits P (effect e).
Proof. intros He. by apply (emits_one _ e). Qed.

Lemma emits_asks {A} (answer : list Event → A) e : P e → emits P (asks answer e).
Proof. intros He. by apply (emits_one _ e). Qed.

Lemma emits_instant_add t d : emits P (instant_add t d).
Proof. unfold instant_add. case_decide; [apply emits_ret|apply emits_no_return]. Qed.

Lemma emits_write_logs outs : (∀ o, P (EvLog o)) → emits P (write_logs outs).
Proof.
  intros Ho w. exists (reverse (EvLog <$> outs)). split; [done|].
  apply Forall_reverse, Forall_fmap, Forall_true. intros o. apply Ho.
Qed.

Lemma emits_for_each {A} (l : list A) body :
  (∀ a, a ∈ l → emits P (body a)) → emits P (for_each_m l body).
Proof.
  intros Hb. induction l as [|a l IH]; [apply emits_ret|].
  apply emits_bind; [apply Hb; by left|]. intros _. apply IH. intros x Hx. apply Hb. by right.
Qed.

Lemma emits_try_each {A} (l : list A) body :
  (∀ a, a ∈ l → emits P (body a)) → emits P (try_each_m l body).
Proof.
  intros Hb. induction l as [|a l IH]; [apply emits_ret|].
  apply emits_bind; [apply Hb; by left|].
  intros [[]|e]; [apply IH; intros x Hx; apply Hb; by right|apply emits_ret].
Qed.

Hypothesis step : ∀ s s', P (EvStep s s').

Lemma emits_atomic {A} (f : Shared → A * Shared) : emits P (atomic f).
Proof.
  intros w. destruct (ran_atomic f w) as [Hh _]. eexists. split; [exact Hh|]. constructor; [apply step|constructor].
Qed.

Lemma emits_atomic_at {A} (f : N → N → Shared → A * Shared) : emits P (atomic_at f).
Proof.
  intros w. destruct (ran_atomic_at f w) as [Hh _]. eexists. split; [exact Hh|]. constructor; [apply step|constructor].
Qed.

Lemma emits_reads {A} (f : Shared → A) : emits P (reads f).
Proof. apply emits_atomic. Qed.

Lemma emits_updates (f : Shared → Shared) : emits P (updates f).
Proof. apply emits_atomic. Qed.
End emits.

(** Without atomic sections the state stays as it is, whatever the other threads do. *)
Lemma stepless_survives (I : Shared → Prop) {A} (m : M A) :
  keeps I m → emits (λ e, Is_true (stepless e)) m → survives I m.
Proof.
  intros Hk Hm w Hw. destruct (Hk w) as (new & (Hh & Hs & _) & _). destruct (Hm w) as (new' & Hh' & Hn).
  rewrite Hh in Hh'. apply app_inv_tail in Hh' as <-. rewrite Hs. clear Hh Hs.
  by induction Hn as [|[] new He _ IH].
Qed.

Lemma emits_weaken (P Q : Event → Prop) {A} (m : M A) : (∀ e, P e → Q e) → emits P m → emits Q m.
Proof. intros HPQ Hm w. destruct (Hm w) as (new & Hh & Hn). exists new. split; [done|]. by eapply Forall_impl. Qed.

(** ** Results *)

Lemma yields_ret {A} (P : A → Prop) a : P a → yields P (mret a).
Proof. by intros Ha w b w' [= <- _]. Qed.

Lemma yields_bind {A B} (P : A → Prop) (Q : B → Prop) (m : M A) (f : A → M B) :
  yields P m → (∀ a, P a → yields Q (f a)) → yields Q (m ≫= f).
Proof. intros Hm Hf w b w' (a & w1 & Ha & Hb)%bind_Some. by eapply Hf; [eapply Hm|]. Qed.

Lemma yields_reads {A} (P : A → Prop) (f : Shared → A) : (∀ s, P (f s)) → yields P (reads f).
Proof. intros Hf w a w' [= <- _]. apply Hf. Qed.

(** ** Partial correctness *)

Section triple.
Context {A B : Type}.

Lemma triple_ret (a : A) (P : World → Prop) (Q : A → World → Prop) :
  (∀ w, P w → Q a w) → triple P (mret a) Q.
Proof. intros Hq w b w' Hw [= <- <-]. by apply Hq. Qed.

Lemma triple_bind (P : World → Prop) (m : M A) (R : A → World → Prop) (f : A → M B)
    (Q : B → World → Prop) :
  triple P m R → (∀ a, triple (R a) (f a) Q) → triple P (m ≫= f) Q.
Proof. intros Hm Hf w b w' Hw (a & w1 & Ha & Hb)%bind_Some. eapply Hf; [by eapply Hm|done]. Qed.

Lemma triple_weaken (P P' : World → Prop) (m : M A) (Q Q' : A → World → Prop) :
  triple P' m Q' → (∀ w, P w → P' w) → (∀ a w, Q' a w → Q a w) → triple P m Q.
Proof. intros Hm Hp Hq w a w' Hw Ha. by eapply Hq, Hm, Ha; eauto. Qed.

Lemma triple_pre (P P' : World → Prop) (m : M A) (Q : A → World → Prop) :
  triple P' m Q → (∀ w, P w → P' w) → triple P m Q.
Proof. intros Hm Hp. by eapply triple_weaken. Qed.

Lemma triple_keeps (I : Shared → Prop) (m : M A) :
  (∀ h s, I s → I (interfere h s)) → keeps I m → triple (λ w, I (shared w)) m (λ _ w, I (shared w)).
Proof. intros Hrely Hm w a w' Hw Ha. pose proof (keeps_survives _ _ Hrely Hm w Hw) as Hk. by rewrite Ha in Hk. Qed.

Lemma triple_no_return (P : World → Prop) (Q : A → World → Prop) : triple P no_return Q.
Proof. by intros w a w' _ ?. Qed.
End triple.

(** ** Termination *)

Section returns.

Lemma returning_ret {A} (a : A) (Q : A → World → Prop) : (∀ w, Q a w) → returning (mret a) Q.
Proof. intros HQ w. exists a, w. split; [done|]. split; [apply later_refl|done]. Qed.

Lemma returning_bind {A B} (m : M A) (f : A → M B) R Q :
  returning m R → (∀ a, returning (f a) Q) → returning (m ≫= f) Q.
Proof.
  intros Hm Hf w. destruct (Hm w) as (a & w1 & Ha & Hl & _). destruct (Hf a w1) as (b & w2 & Hb & Hl2 & HQ).
  exists b, w2. split; [apply bind_Some; eauto|]. split; [by eapply later_trans|done].
Qed.

Lemma returns_ret {A} (a : A) : returns (mret a).
Proof. by apply returning_ret. Qed.

Lemma returns_bind {A B} (m : M A) (f : A → M B) :
  returns m → (∀ a, returns (f a)) → returns (m ≫= f).
Proof. apply returning_bind. Qed.

Lemma returns_atomic {A} (f : Shared → A * Shared) : returns (atomic f).
Proof.
  intros w. unfold atomic. destruct (f _) as [a s]. eexists _, _. split; [done|]. split; [|done].
  by eexists [_].
Qed.

Lemma returns_atomic_at {A} (f : N → N → Shared → A * Shared) : returns (atomic_at f).
Proof.
  intros w. unfold atomic_at. destruct (f _ _ _) as [a s]. eexists _, _. split; [done|]. split; [|done].
  by eexists [_].
Qed.

Lemma returns_asks {A} (answer : list Event → A) e : returns (asks answer e).
Proof. intros w. eexists _, _. split; [done|]. split; [|done]. by exists [e]. Qed.

Lemma returns_effect e : returns (effect e).
Proof. intros w. eexists _, _. split; [done|]. split; [|done]. by exists [e]. Qed.

Lemma returns_write_logs outs : returns (write_logs outs).
Proof. intros w. eexists _, _. split; [done|]. split; [|done]. by eexists. Qed.

Lemma returns_for_each {A} (l : list A) body : (∀ a, returns (body a)) → returns (for_each_m l body).
Proof. intros Hb. induction l as [|a l IH]; [apply returns_ret|]. apply returns_bind; auto. Qed.
End returns.
End rules.

(** ** Automation *)

Create HintDb keeps discriminated.
Create HintDb emits discriminated.

Ltac keeps_step :=
  lazymatch goal with
  | |- guarantees _ (mret _) => apply keeps_ret
  | |- guarantees _ no_return => apply keeps_no_return
  | |- guarantees _ (effect _) => apply keeps_effect; exact I
  | |- guarantees _ (sleep _) => apply keeps_effect; exact I
  | |- guarantees _ (asks _ _) => apply keeps_asks; exact I
  | |- guarantees _ instant_now => apply keeps_asks; exact I
  | |- guarantees _ utc_now => apply keeps_asks; exact I
  | |- guarantees _ (instant_add _ _) => apply keeps_instant_add
  | |- guarantees _ (write_logs _) => apply keeps_write_logs
  | |- guarantees _ (reads _) => apply keeps_reads; try exact _
  | |- guarantees _ (atomic _) => apply keeps_atomic
  | |- guarantees _ (atomic_at _) => apply keeps_atomic_at
  | |- guarantees _ (updates _) => apply keeps_updates
  | |- guarantees _ (for_each_m _ _) => apply keeps_for_each; intros ? ?
  | |- guarantees _ (try_each_m _ _) => apply keeps_try_each; intros ? ?
  | |- guarantees _ (match ?x with _ => _ end) => destruct x
  | |- guarantees _ (mbind _ _) => first [solve [eauto with keeps] | apply keeps_bind; [|intros ?]]
  | |- guarantees _ _ => solve [eauto with keeps]
  end.
Ltac keeps_solve := repeat (keeps_step || match goal with |- ∀ _, guarantees _ _ => intro end).

Ltac emits_step :=
  lazymatch goal with
  | |- emits _ (mret _) => apply emits_ret
  | |- emits _ no_return => apply emits_no_return
  | |- emits _ (effect _) => apply emits_effect; try done
  | |- emits _ (sleep _) => apply emits_effect; try done
  | |- emits _ (asks _ _) => apply emits_asks; try done
  | |- emits _ instant_now => apply emits_asks; try done
  | |- emits _ utc_now => apply emits_asks; try done
  | |- emits _ (instant_add _ _) => apply emits_instant_add
  | |- emits _ (write_logs _) => apply emits_write_logs; try done
  | |- emits _ (reads _) => apply emits_reads; try done
  | |- emits _ (updates _) => apply emits_updates; try done
  | |- emits _ (atomic _) => apply emits_atomic; try done
  | |- emits _ (atomic_at _) => apply emits_atomic_at; try done
  | |- emits _ (for_each_m _ _) => apply emits_for_each; intros ? ?
  | |- emits _ (try_each_m _ _) => apply emits_try_each; intros ? ?
  | |- emits _ (match ?x with _ => _ end) => destruct x
  | |- emits _ (mbind _ _) => first [solve [eauto with emits] | apply emits_bind; [|intros ?]]
  | |- emits _ _ => solve [eauto with emits]
  end.
Ltac emits_solve := repeat (emits_step || match goal with |- ∀ _, emits _ _ => intro end).

Create HintDb returns discriminated.

Ltac returns_step :=
  lazymatch goal with
  | |- returning (mret _) _ => apply returns_ret
  | |- returning (effect _) _ => apply returns_effect
  | |- returning (sleep _) _ => apply returns_effect
  | |- returning (asks _ _) _ => apply returns_asks
  | |- returning instant_now _ => apply returns_asks
  | |- returning utc_now _ => apply returns_asks
  | |- returning (write_logs _) _ => apply returns_write_logs
  | |- returning (reads _) _ => apply returns_atomic
  | |- returning (updates _) _ => apply returns_atomic
  | |- returning (atomic _) _ => apply returns_atomic
  | |- returning (atomic_at _) _ => apply returns_atomic_at
  | |- returning (for_each_m _ _) _ => apply returns_for_each; intros ?
  | |- returning (match ?x with _ => _ end) _ => destruct x
  | |- returning (mbind _ _) _ => first [solve [eauto with returns] | apply returns_bind; [|intros ?]]
  | |- returning _ _ => solve [eauto with returns]
  end.
Ltac returns_solve := repeat (returns_step || match goal with |- ∀ _, returning _ _ => intro end).

(** ** A host

    Used to evaluate the definitions on concrete inputs: time passes while
    sleeping or waiting, and every call of the operating system succeeds. *)

Fixpoint elapsed (h : list Event) : N :=
  match h with
  | [] => 0
  | EvSleep d :: h | EvTimedWait d :: h | EvRecv d :: h => d + elapsed h
  | _ :: h => elapsed h
  end.

Definition example_host (others : list Event → Shared → Shared) : Host := {|
  interfere := others;
  clock := elapsed;
  utc_clock := elapsed;
  rfc3339_secs := pretty;
  rfc3339_ms := pretty;
  wakeups _ := 0;
  spawn_answer _ _ := Ok 100%Z;
  child_wait_answer _ _ := Ok (Some 0%Z);
  try_wait_answer _ _ := Ok (Some (Some 0%Z));
  patience _ := 1;
  kill_no_process _ _ := true;
  thread_fault _ := None;
  fs_fault _ := None;
  fs_partial _ := None;
  read_dir_answer _ _ := Ok [];
  dir_depth := 8;
  resolve_answer _ a := Ok [a];
  connect_answer _ _ := None;
  http_answer _ _ _ := Ok 200%N;
  proc_status _ _ := None;
  opens _ _ _ := true;
|}.

(** No other thread does anything. *)
Definition quiet_host : Host := example_host (λ _ s, s).
