(* ===== verification/Trace.v ===== *)
(** Traces: what a computation does, as the sequence of the steps that a view of
    its events shows. *)

From S2P Require Import Prelude World Logic.
#[local] Open Scope stdpp_scope.

(** The steps among new events, oldest first. *)
Definition steps_by {S} (view : Event → option S) (new : list Event) : list S := omap view (reverse new).

(** When the computation returns, its result and steps satisfy [Q]. *)
Definition traces_by {S} (view : Event → option S) {A} (m : M A) (Q : A → list S → Prop) : Prop :=
  ∀ w a w', m w = (Some a, w') → ∃ new, hist w' = new ++ hist w ∧ Q a (steps_by view new).

(** The computation never returns, and its steps satisfy [Q]. *)
Definition ends_by {S} (view : Event → option S) {A} (m : M A) (Q : list S → Prop) : Prop :=
  ∀ w, ∃ w' new, m w = (None, w') ∧ hist w' = new ++ hist w ∧ Q (steps_by view new).

(** As [traces_by], from a state that satisfies an invariant. *)
Definition traces_under {S} (I : Shared → Prop) (view : Event → option S) {A} (m : M A)
    (Q : A → list S → Prop) : Prop :=
  ∀ w a w', I (shared w) → m w = (Some a, w') → ∃ new, hist w' = new ++ hist w ∧ Q a (steps_by view new).

(** No step. *)
Definition unseen {S} (view : Event → option S) (e : Event) : Prop := view e = None.

Section rules.
Context {Step : Type} {view : Event → option Step}.
#[local] Abbreviation traces := (traces_by view).
#[local] Abbreviation silent := (unseen view).

Lemma traces_ret {A} (a : A) (Q : A → list Step → Prop) : Q a [] → traces (mret a) Q.
Proof. intros HQ w b w' [= <- <-]. by exists []. Qed.

Lemma traces_silent {A} (m : M A) (Q : A → list Step → Prop) :
  emits silent m → (∀ a, Q a []) → traces m Q.
Proof.
  intros Hm HQ w a w' Hr. destruct (Hm w) as (new & Hh & Hn). rewrite Hr in Hh. exists new. split; [done|].
  assert (steps_by view new = []) as ->; [|done].
  unfold steps_by. apply Forall_reverse in Hn. induction Hn as [|e l He _ IH]; [done|]. simpl. by rewrite He.
Qed.

Lemma traces_weaken {A} (m : M A) (Q Q' : A → list Step → Prop) :
  traces m Q' → (∀ a t, Q' a t → Q a t) → traces m Q.
Proof. intros Hm HQ w a w' (new & ? & ?)%Hm. eauto. Qed.

(** The steps of a computation before those of its continuation. *)
Lemma traces_bind {A B} (m : M A) (f : A → M B) R Q :
  traces m R → (∀ a t, R a t → traces (f a) (λ b t', Q b (t ++ t'))) → traces (m ≫= f) Q.
Proof.
  intros Hm Hf w b w' (a & w1 & (new & Hn & HR)%Hm & Hb)%bind_Some.
  destruct (Hf a _ HR _ _ _ Hb) as (new' & Hn' & HQ). exists (new' ++ new).
  rewrite Hn', Hn, app_assoc. split; [done|]. unfold steps_by in *. by rewrite reverse_app, omap_app.
Qed.

Lemma traces_silent_bind {A B} (m : M A) (f : A → M B) Q :
  emits silent m → (∀ a, traces (f a) Q) → traces (m ≫= f) Q.
Proof.
  intros Hm Hf. eapply (traces_bind _ _ (λ _ t, t = [])); [by apply traces_silent|]. intros a t ->. apply Hf.
Qed.

(** A silent computation that returns. *)
Lemma silent_run `{Host} {A} (m : M A) w :
  returns m → emits silent m →
  ∃ a w1 new, m w = (Some a, w1) ∧ hist w1 = new ++ hist w ∧ steps_by view new = [].
Proof.
  intros Hret Hm. destruct (Hret w) as (a & w1 & Ha & _). exists a, w1.
  destruct (traces_silent m (λ _ t, t = []) Hm (λ _, eq_refl) _ _ _ Ha) as (new & Hn & Ht). by exists new.
Qed.

(** The steps of a silent computation do not show in what follows. *)
Lemma silent_prefix {A B} (m : M A) (Q : B → list Step → Prop) b w a w1 w' :
  emits silent m → m w = (Some a, w1) → (∃ new, hist w' = new ++ hist w1 ∧ Q b (steps_by view new)) →
  ∃ new, hist w' = new ++ hist w ∧ Q b (steps_by view new).
Proof.
  intros Hm Ha (new' & Hn' & HQ).
  destruct (traces_silent m (λ _ t, t = []) Hm (λ _, eq_refl) _ _ _ Ha) as (new & Hn & Ht). exists (new' ++ new).
  rewrite Hn', Hn, app_assoc. split; [done|]. unfold steps_by in *. by rewrite reverse_app, omap_app, Ht.
Qed.

(** As above, for what the computation may return. *)
Lemma traces_silent_yields {A B} (P : A → Prop) (m : M A) (f : A → M B) Q :
  emits silent m → yields P m → (∀ a, P a → traces (f a) Q) → traces (m ≫= f) Q.
Proof.
  intros Hm Hy Hf w b w' (a & w1 & Ha & Hb)%bind_Some.
  eapply silent_prefix; [done..|]. apply (Hf a (Hy _ _ _ Ha) _ _ _ Hb).
Qed.

Lemma traces_asks {A} (answer : list Event → A) e s (Q : A → list Step → Prop) :
  view e = Some s → (∀ a, Q a [s]) → traces (asks answer e) Q.
Proof. intros He HQ w a w' [= <- <-]. exists [e]. split; [done|]. unfold steps_by; simpl. by rewrite He. Qed.

Lemma traces_effect e s (Q : unit → list Step → Prop) :
  view e = Some s → Q tt [s] → traces (effect e) Q.
Proof. intros He HQ w [] w' [= <-]. exists [e]. split; [done|]. unfold steps_by; simpl. by rewrite He. Qed.

Lemma traces_for_each {A} (l : list A) body (P : A → list Step → Prop) :
  (∀ a, traces (body a) (λ _ t, P a t)) →
  traces (for_each_m l body) (λ _ t, ∃ ts, t = concat ts ∧ Forall2 P l ts).
Proof.
  intros Hb. induction l as [|a l IH]; [apply traces_ret; by exists []|].
  eapply traces_bind; [apply Hb|]. intros [] t Ht. eapply traces_weaken; [exact IH|].
  intros _ t' (ts & -> & Hts). exists (t :: ts). split; [done|by constructor].
Qed.

Lemma concat_singles {A} (f : A → Step) (l : list A) (ts : list (list Step)) :
  Forall2 (λ a t, t = [f a]) l ts → concat ts = f <$> l.
Proof. induction 1 as [|a t l ts -> _ IH]; [done|]. simpl. by rewrite IH. Qed.

(** Each body takes the same single step. *)
Lemma traces_for_each_one {A} (l : list A) body (f : A → Step) :
  (∀ a, traces (body a) (λ _ t, t = [f a])) → traces (for_each_m l body) (λ _ t, t = f <$> l).
Proof.
  intros Hb. eapply traces_weaken; [by apply (traces_for_each _ _ (λ a t, t = [f a]))|].
  intros _ t (ts & -> & Hts). by apply concat_singles.
Qed.

(** A loop that may fail: all the steps, or those of a prefix. *)
Lemma traces_try_each {A} (l : list A) body (P : A → list Step → Prop) :
  (∀ a, traces (body a) (λ _ t, P a t)) →
  traces (try_each_m l body)
    (λ r t, ∃ k ts, t = concat ts ∧ Forall2 P (take k l) ts ∧ (r = Ok tt → take k l = l)).
Proof.
  intros Hb. induction l as [|a l IH]; [apply traces_ret; by exists 0, []|].
  eapply traces_bind; [apply Hb|]. intros r t Ht. destruct r as [[]|e].
  - eapply traces_weaken; [exact IH|]. intros r t' (k & ts & -> & Hts & Hk). exists (S k), (t :: ts).
    split; [done|]. split; [by constructor|]. intros Hr. simpl. by rewrite Hk.
  - apply traces_ret. exists 1, [t]. split; [by rewrite app_nil_r; simpl; rewrite app_nil_r|].
    split; [|done]. simpl. rewrite take_0. by constructor.
Qed.

Lemma traces_then_silent {A B} (m : M A) (f : A → M B) (t0 : list Step) :
  traces m (λ _ t, t = t0) → (∀ a, emits silent (f a)) → traces (m ≫= f) (λ _ t, t = t0).
Proof.
  intros Hm Hf. eapply traces_bind; [exact Hm|]. intros a t ->. apply traces_silent; [apply Hf|].
  intros _. apply app_nil_r.
Qed.

(** A computation that returns, before one that ends. *)
Lemma ends_bind {A B} (m : M A) (f : A → M B) R (Q : list Step → Prop) :
  returns m → traces m R → (∀ a t, R a t → ends_by view (f a) (λ t', Q (t ++ t'))) →
  ends_by view (m ≫= f) Q.
Proof.
  intros Hret Hm Hf w. destruct (Hret w) as (a & w1 & Ha & _). destruct (Hm w a w1 Ha) as (new & Hn & HR).
  destruct (Hf a _ HR w1) as (w2 & new' & Hr & Hn' & HQ). exists w2, (new' ++ new).
  rewrite (bind_step _ _ _ _ _ Ha), Hr, Hn', Hn, app_assoc. split; [done|]. split; [done|].
  unfold steps_by in *. by rewrite reverse_app, omap_app.
Qed.

Lemma ends_silent_bind {A B} (m : M A) (f : A → M B) (Q : list Step → Prop) :
  returns m → emits silent m → (∀ a, ends_by view (f a) Q) → ends_by view (m ≫= f) Q.
Proof.
  intros Hret Hm Hf. eapply (ends_bind _ _ (λ _ t, t = [])); [done|by apply traces_silent|]. intros a t ->. apply Hf.
Qed.

Lemma ends_effect_bind {A} e s (k : unit → M A) (Q : list Step → Prop) :
  view e = Some s → ends_by view (k tt) (λ t, Q (s :: t)) → ends_by view (effect e ≫= k) Q.
Proof.
  intros He Hk. eapply (ends_bind _ _ (λ _ t, t = [s])); [apply returns_effect|by eapply traces_effect|].
  by intros [] t ->.
Qed.

Lemma ends_no_return {A} (Q : list Step → Prop) : Q [] → ends_by view (no_return (A := A)) Q.
Proof. intros HQ w. by exists w, []. Qed.

Lemma ends_weaken {A} (m : M A) (Q Q' : list Step → Prop) :
  ends_by view m Q' → (∀ t, Q' t → Q t) → ends_by view m Q.
Proof. intros Hm HQ w. destruct (Hm w) as (w' & new & Hr & Hh & Ht). exists w', new. eauto. Qed.

Lemma traces_under_all {A} I (m : M A) (Q : A → list Step → Prop) : traces m Q → traces_under I view m Q.
Proof. intros Hm w a w' _. apply Hm. Qed.

Lemma traces_under_bind {A B} (I : Shared → Prop) (m : M A) (f : A → M B) R Q :
  survives I m → traces m R → (∀ a t, R a t → traces_under I view (f a) (λ b t', Q b (t ++ t'))) →
  traces_under I view (m ≫= f) Q.
Proof.
  intros Hk Hm Hf w b w' Hw (a & w1 & Ha & Hb)%bind_Some. destruct (Hm _ _ _ Ha) as (new & Hn & HR).
  specialize (Hk w Hw). rewrite Ha in Hk. simpl in Hk. destruct (Hf a _ HR _ _ _ Hk Hb) as (new' & Hn' & HQ).
  exists (new' ++ new). rewrite Hn', Hn, app_assoc. split; [done|].
  unfold steps_by in *. by rewrite reverse_app, omap_app.
Qed.

Lemma traces_under_silent {A B} (I : Shared → Prop) (m : M A) (f : A → M B) Q :
  survives I m → emits silent m → (∀ a, traces_under I view (f a) Q) → traces_under I view (m ≫= f) Q.
Proof.
  intros Hk Hm Hf. eapply (traces_under_bind _ _ _ (λ _ t, t = [])); [done|by apply traces_silent|].
  intros a t ->. apply Hf.
Qed.

(** As above, for what the computation may return. *)
Lemma traces_under_yields {A B} (I : Shared → Prop) (P : A → Prop) (m : M A) (f : A → M B) Q :
  survives I m → emits silent m → (∀ w a w', I (shared w) → m w = (Some a, w') → P a) →
  (∀ a, P a → traces_under I view (f a) Q) → traces_under I view (m ≫= f) Q.
Proof.
  intros Hk Hm Hy Hf w b w' Hw (a & w1 & Ha & Hb)%bind_Some. specialize (Hk w Hw). rewrite Ha in Hk.
  eapply silent_prefix; [done..|]. apply (Hf a (Hy _ _ _ Hw Ha) _ _ _ Hk Hb).
Qed.

(** What is read from a state satisfying [I], with the rest from any state. *)
Lemma traces_under_read {A B} (I : Shared → Prop) (P : A → Prop) (m : M A) (f : A → M B) Q :
  emits silent m → (∀ w a w', I (shared w) → m w = (Some a, w') → P a) →
  (∀ a, P a → traces (f a) Q) → traces_under I view (m ≫= f) Q.
Proof.
  intros Hm Hy Hf w b w' Hw (a & w1 & Ha & Hb)%bind_Some.
  eapply silent_prefix; [done..|]. apply (Hf a (Hy _ _ _ Hw Ha) _ _ _ Hb).
Qed.

(** The first part is traced under the invariant, the rest from any state. *)
Lemma traces_under_then {A B} (I : Shared → Prop) (m : M A) (f : A → M B) R Q :
  traces_under I view m R → (∀ a t, R a t → traces (f a) (λ b t', Q b (t ++ t'))) →
  traces_under I view (m ≫= f) Q.
Proof.
  intros Hm Hf w b w' Hw (a & w1 & Ha & Hb)%bind_Some. destruct (Hm _ _ _ Hw Ha) as (new & Hn & HR).
  destruct (Hf a _ HR _ _ _ Hb) as (new' & Hn' & HQ). exists (new' ++ new).
  rewrite Hn', Hn, app_assoc. split; [done|]. unfold steps_by in *. by rewrite reverse_app, omap_app.
Qed.

(** An update that establishes the invariant. *)
Lemma traces_updates_under `{Host} {A} (I : Shared → Prop) f (k : unit → M A) (Q : A → list Step → Prop) :
  (∀ s s', silent (EvStep s s')) → (∀ s, I (f s)) → traces_under I view (k tt) Q → traces (updates f ≫= k) Q.
Proof.
  intros Hs HI Hk w a w' Hr. unfold updates in Hr. rewrite atomic_bind in Hr.
  destruct (Hk (stepped w (f (entered w))) a w' (HI _) Hr) as (new & Hh & HQ).
  exists (new ++ [EvStep (entered w) (f (entered w))]). simpl in Hh. rewrite Hh, <-app_assoc. split; [done|].
  unfold steps_by in *. rewrite reverse_app, omap_app. simpl. by rewrite Hs.
Qed.
End rules.
