(* ===== verification/EnvFile.v ===== *)
(** Environment files of the supervised processes: [envfile.rs]. *)

From Stdlib Require Import Ascii.
From S2P Require Import Prelude RustStr Error Config World.
#[local] Open Scope stdpp_scope.

Definition quote_chars : list ascii := [ascii_of_N 34; ascii_of_N 39].

(** One line of [parse]. *)
Definition parse_env_line (line : string) : option (string * string) :=
  let line := trim line in
  if decide (line = "") then None
  else if starts_with "#" line then None
  else match split_once (ascii_of_N 61) line with
  | None => None
  | Some (key, value) =>
      let key := trim key in
      if decide (key = "") then None else Some (key, trim_matches quote_chars (trim value))
  end.

(** [parse]: the last duplicate wins. *)
Definition parse_env (text : string) : gmap string string :=
  foldl (λ out line, match parse_env_line line with
                     | Some (key, value) => <[key := value]> out
                     | None => out
                     end) ∅ (lines text).

Section env.
Context `{Host}.

(** [load_file]: a file that cannot be read changes nothing. *)
Definition load_file (path : string) (into : gmap string string) : M (gmap string string) :=
  fs_read path ≫= λ r,
  mret (match r with Ok data => parse_env data ∪ into | Err _ => into end).

(** [load_paths]: later files win. *)
Fixpoint load_paths_into (paths : list string) (into : gmap string string) :
    M (gmap string string) :=
  match paths with
  | [] => mret into
  | p :: paths => load_file p into ≫= load_paths_into paths
  end.
Definition load_paths (paths : list string) : M (gmap string string) := load_paths_into paths ∅.

(** [install], [load_into_cache], [snapshot] *)
Definition env_install (map : gmap string string) : M unit := updates (set_env map).
Definition load_into_cache (paths : list string) : M unit := load_paths paths ≫= env_install.
Definition env_snapshot : M (gmap string string) := reads sh_env.
End env.
