(* ===== verification/Service.v ===== *)
(** Running shell commands for services: [service.rs], with the timed wait of the
    exit registry ([reaper.rs]). *)

From S2P Require Import Prelude Constants RustStr Error Security Config Protocol Reaper World.
From S2P Require Import EnvFile.
#[local] Open Scope stdpp_scope.

Definition SHELL : string := "/bin/sh".
Definition DEFAULT_SERVICE_PATH : string :=
  "/usr/local/sbin:/usr/local/bin:/usr/sbin:/usr/bin:/sbin:/bin".

(** ** Commands *)

(** Set a variable of the command unless one of the maps does. *)
Definition set_unless (key value : string) (maps : list (gmap string string))
    (env : gmap string string) : gmap string string :=
  if forallb (λ m, bool_decide (m !! key = None)) maps then <[key := value]> env else env.

(** The environment of [build_shell_command]: the default path, the environment
    files, the service's variables, the extra ones, then the identity's where
    none of those sets them. *)
Definition command_env (file_env : gmap string string) (cfg : ServiceConfig)
    (env_extra : gmap string string) (ident : option ResolvedIdentity) : gmap string string :=
  let env := env_extra ∪ (sc_env cfg ∪ (file_env ∪ {[ "PATH" := DEFAULT_SERVICE_PATH ]})) in
  let maps := [file_env; sc_env cfg; env_extra] in
  match ident with
  | None => env
  | Some ident =>
      let env := match ri_home ident with
                 | Some home => set_unless "HOME" home maps env
                 | None => env
                 end in
      match ri_username ident with
      | Some user => set_unless "LOGNAME" user maps (set_unless "USER" user maps env)
      | None => env
      end
  end.

Section service.
Context `{Host, Nss}.

(** [build_shell_command] *)
Definition build_shell_command (cmd : string) (cfg : ServiceConfig) (env_extra : gmap string string)
    (ident : option ResolvedIdentity) : M ShellCommand :=
  env_snapshot ≫= λ file_env,
  mret {|
    cm_args := [SHELL; "-c"; cmd];
    cm_cwd := sc_cwd cfg;
    cm_env := command_env file_env cfg env_extra ident;
    cm_quiet := false;
    cm_pre_exec :=
      match ident with
      | Some i => if is_noop i || already_current_without_caps i then None else Some i
      | None => None
      end;
  |}.

(** [resolve_sec] *)
Definition resolve_sec (cfg : ServiceConfig) : Result (option ResolvedIdentity) :=
  match sc_security_context cfg with
  | None => Ok None
  | Some ctx =>
      match sc_resolved_security cfg with
      | Some cached => Ok (Some cached)
      | None => resolve ctx
      end
  end.

(** [Command::spawn], with the error as the service's. *)
Definition spawn_command (c : ShellCommand) (cfg : ServiceConfig) : M (Result Z) :=
  asks (λ h, spawn_answer h c) (EvSpawn c) ≫= λ r,
  mret (map_err (Error.Service (sc_name cfg)) r).

(** [spawn_shell]: the pid of the child. *)
Definition spawn_shell (cmd : string) (cfg : ServiceConfig) : M (Result Z) :=
  ident <-? mret (resolve_sec cfg);
  build_shell_command cmd cfg ∅ ident ≫= λ c, spawn_command c cfg.

(** [spawn_shell_cmd] *)
Definition spawn_shell_cmd (cmd : string) (cfg : ServiceConfig) (env_extra : gmap string string)
    (quiet : bool) : M (Result Z) :=
  ident <-? mret (resolve_sec cfg);
  build_shell_command cmd cfg env_extra ident ≫= λ c,
  spawn_command (if quiet then mkShellCommand (cm_args c) (cm_cwd c) (cm_env c) true (cm_pre_exec c)
                 else c) cfg.

(** ** Waiting *)

(** [ExitRegistry::take] *)
Definition registry_take (pid : Z) : M (option Z) :=
  atomic (λ s, let '(r, m) := exits_take pid (sh_exits s) in (r, set_exits m s)).

(** The loop of [ExitRegistry::wait_take]; the last wait times out. *)
Fixpoint wait_take_loop (n : nat) (pid : Z) (deadline : N) : M (option Z) :=
  registry_take pid ≫= λ r,
  match r with
  | Some code => mret (Some code)
  | None =>
      instant_now ≫= λ now,
      if decide (deadline ≤ now)%N then mret None
      else effect (EvTimedWait (deadline - now)) ≫= λ _,
           match n with
           | O => registry_take pid
           | S n => wait_take_loop n pid deadline
           end
  end.

(** [ExitRegistry::wait_take] *)
Definition wait_take (pid : Z) (timeout : N) : M (option Z) :=
  instant_now ≫= λ now,
  instant_add now timeout ≫= λ deadline,
  asks wakeups EvPoll ≫= λ n, wait_take_loop n pid deadline.

(** A polling loop [while now < deadline { body; sleep(period) }] that [body] may
    leave with a result.  Each round sleeps, so the rounds are bounded by the
    wait over the period. *)
Fixpoint poll {A} (fuel : nat) (deadline : N) (period : N → M N) (body : M (option A)) :
    M (option A) :=
  match fuel with
  | O => no_return
  | S fuel =>
      instant_now ≫= λ now,
      if decide (now < deadline)%N then
        body ≫= λ r,
        match r with
        | Some a => mret (Some a)
        | None => period deadline ≫= λ d, sleep d ≫= λ _, poll fuel deadline period body
        end
      else mret None
  end.

(** Rounds enough for a wait of [d] with sleeps of [period]. *)
Definition rounds (d period : N) : nat := S (S (N.to_nat (d / period))).

(** [terminate_pid] *)
Definition terminate_pid (pid : Z) (grace_secs : N) : M unit :=
  effect (EvKill pid KillTerm) ≫= λ _,
  if decide (grace_secs = 0)%N then effect (EvKill pid KillKill)
  else
    instant_now ≫= λ now,
    instant_add now (from_secs grace_secs) ≫= λ deadline,
    poll (rounds (from_secs grace_secs) TERMINATE_POLL) deadline (λ _, mret TERMINATE_POLL)
      (asks (λ h, kill_no_process h pid) (EvKill pid KillProbe) ≫= λ gone,
       mret (if gone : bool then Some tt else None)) ≫= λ r,
    match r with
    | Some _ => mret tt
    | None => effect (EvKill pid KillKill)
    end.

Inductive ChildWait := Forever | TimeoutAfter (d : N).

(** The unbounded wait on the registry, in slices. *)
Fixpoint wait_forever (fuel : nat) (pid : Z) : M (option Z) :=
  match fuel with
  | O => no_return
  | S fuel =>
      wait_take pid CHILD_WAIT_SLICE ≫= λ r,
      match r with
      | Some code => mret (Some code)
      | None => wait_forever fuel pid
      end
  end.

(** [wait_via_registry] *)
Definition wait_via_registry (pid : Z) (bound : ChildWait) : M (Result (option Z)) :=
  match bound with
  | Forever =>
      asks patience EvPoll ≫= λ n, wait_forever n pid ≫= λ r, mret (Ok r)
  | TimeoutAfter timeout =>
      wait_take pid timeout ≫= λ r,
      match r with
      | Some code => mret (Ok (Some code))
      | None =>
          terminate_pid pid 0 ≫= λ _,
          wait_take pid REAP_AFTER_KILL ≫= λ _, mret (Ok None)
      end
  end.

(** [wait_via_owned] *)
Definition wait_via_owned (pid : Z) (name : string) (bound : ChildWait) : M (Result (option Z)) :=
  match bound with
  | Forever =>
      asks (λ h, child_wait_answer h pid) (EvChildWait pid) ≫= λ r,
      mret (match r with
            | Ok code => Ok (Some (default 1%Z code))
            | Err e => Err (Error.Service name e)
            end)
  | TimeoutAfter timeout =>
      instant_now ≫= λ now,
      instant_add now timeout ≫= λ deadline,
      let fix go (fuel : nat) : M (Result (option Z)) :=
        match fuel with
        | O => no_return
        | S fuel =>
            asks (λ h, try_wait_answer h pid) (EvTryWait pid) ≫= λ r,
            match r with
            | Ok (Some code) => mret (Ok (Some (default 1%Z code)))
            | Ok None =>
                instant_now ≫= λ now,
                if decide (deadline ≤ now)%N then
                  terminate_pid pid 0 ≫= λ _,
                  asks (λ h, child_wait_answer h pid) (EvChildWait pid) ≫= λ _, mret (Ok None)
                else sleep CHILD_WAIT_POLL ≫= λ _, go fuel
            | Err e => mret (Err (Error.Service name e))
            end
        end in
      go (rounds timeout CHILD_WAIT_POLL)
  end.

(** [wait_spawned_child] *)
Definition wait_spawned_child (pid : Z) (name : string) (bound : ChildWait) : M (Result (option Z)) :=
  reads sh_reaper_started ≫= λ running,
  if running : bool then wait_via_registry pid bound else wait_via_owned pid name bound.

(** [run_shell] *)
Definition run_shell (cmd : string) (cfg : ServiceConfig) (env_extra : gmap string string) :
    M (Result Z) :=
  pid <-? spawn_shell_cmd cmd cfg env_extra false;
  code <-? wait_spawned_child pid (sc_name cfg) Forever;
  mret (Ok (default 1%Z code)).

(** [run_shell_quiet] *)
Definition run_shell_quiet (cmd : string) (cfg : ServiceConfig) : M (Result Z) :=
  pid <-? spawn_shell_cmd cmd cfg ∅ true;
  code <-? wait_spawned_child pid (sc_name cfg) Forever;
  mret (Ok (default 1%Z code)).

(** [run_shell_quiet_timeout] *)
Definition run_shell_quiet_timeout (cmd : string) (cfg : ServiceConfig) (timeout : N) :
    M (Result (option Z)) :=
  pid <-? spawn_shell_cmd cmd cfg ∅ true;
  wait_spawned_child pid (sc_name cfg) (TimeoutAfter timeout).

(** ** Identity of a running process *)

(** One line of [/proc/<pid>/status]. *)
Definition status_line (acc : option N * option N) (line : string) : option N * option N :=
  let '(uid, gid) := acc in
  match strip_prefix "Uid:" line with
  | Some rest =>
      match split_whitespace rest with
      | tok :: _ => (parse_uint u32_max tok, gid)
      | [] => (uid, gid)
      end
  | None =>
      match strip_prefix "Gid:" line with
      | Some rest =>
          match split_whitespace rest with
          | tok :: _ => (uid, parse_uint u32_max tok)
          | [] => (uid, gid)
          end
      | None => (uid, gid)
      end
  end.

(** [Result::ok().flatten()] *)
Definition found {A} (r : result (option A) string) : option A :=
  match r with Ok o => o | Err _ => None end.

(** [read_running_identity] *)
Definition read_running_identity (pid : Z) : M (option RunningIdentity) :=
  asks (λ h, proc_status h pid) (EvRead ("/proc/" +:+ pretty pid +:+ "/status")) ≫= λ data,
  mret (match data with
    | None => None
    | Some data =>
        match foldl status_line (None, None) (lines data) with
        | (Some uid, Some gid) =>
            Some (mkRunningIdentity uid gid (pw_name <$> found (user_from_uid uid))
                    (gr_name <$> found (group_from_gid gid)))
        | _ => None
        end
    end).
End service.
