(* ===== verification/Liveness.v ===== *)
(** Liveness probes: [liveness.rs].

    The HTTP client is a third-party crate: a request answers with a status code,
    whether the client reports it as a success or as an error, or with the text
    of a transport error. *)

From S2P Require Import Prelude Constants RustStr Error Security Config World Service.
#[local] Open Scope stdpp_scope.

Inductive ProbeResult := ProbeOk | ProbeFail (reason : string).

Definition probe_ok (r : ProbeResult) : bool :=
  match r with ProbeOk => true | ProbeFail _ => false end.

Inductive ProbeKind := ProbeCmd (cmd : string) | ProbeTcp (addr : string) | ProbeHttp (url : string).

(** [as_deref().map(str::trim).filter(non-empty)] *)
Definition trimmed (o : option string) : option string :=
  match o with
  | Some s => if decide (trim s = "") then None else Some (trim s)
  | None => None
  end.

Definition probe_kind (p : LivenessProbe) : option ProbeKind :=
  match trimmed (lp_cmd p), trimmed (lp_tcp_addr p), trimmed (lp_http_url p) with
  | Some c, None, None => Some (ProbeCmd c)
  | None, Some t, None => Some (ProbeTcp t)
  | None, None, Some h => Some (ProbeHttp h)
  | _, _, _ => None
  end.

Section liveness.
Context `{Host, Nss}.

(** The connection attempts of [run_tcp_probe], in order. *)
Fixpoint try_connect (addr last_err : string) (addrs : list string) : M ProbeResult :=
  match addrs with
  | [] => mret (ProbeFail ("tcp " +:+ addr +:+ ": " +:+ last_err))
  | sa :: addrs =>
      asks (λ h, connect_answer h sa) (EvConnect sa) ≫= λ r,
      match r with
      | None => mret ProbeOk
      | Some e => try_connect addr e addrs
      end
  end.

Definition run_tcp_probe (addr : string) (timeout : N) : M ProbeResult :=
  asks (λ h, resolve_answer h addr) EvPoll ≫= λ r,
  match r with
  | Err e => mret (ProbeFail ("resolve " +:+ addr +:+ ": " +:+ e))
  | Ok [] => mret (ProbeFail ("resolve " +:+ addr +:+ ": no addresses"))
  | Ok addrs => try_connect addr "" addrs
  end.

Definition run_http_probe (url method : string) (accepted : list N) (timeout : N) : M ProbeResult :=
  let method := trim method in
  if decide (method = "") then mret (ProbeFail "httpMethod empty")
  else
    asks (λ h, http_answer h method url) (EvHttp method url) ≫= λ r,
    mret (match r with
      | Ok code => if decide (code ∈ accepted) then ProbeOk else ProbeFail ("HTTP " +:+ pretty code)
      | Err e => ProbeFail ("http: " +:+ e)
      end).

Definition run_probe (p : LivenessProbe) (cfg : ServiceConfig) : M ProbeResult :=
  let timeout := from_secs (N.max (lp_timeout p) 1) in
  match probe_kind p with
  | Some (ProbeCmd cmd) =>
      run_shell_quiet_timeout cmd cfg timeout ≫= λ r,
      mret (match r with
        | Ok (Some code) =>
            if probe_is_success p code then ProbeOk else ProbeFail ("exit " +:+ pretty code)
        | Ok None => ProbeFail "timeout"
        | Err e => ProbeFail (Error.to_string e)
        end)
  | Some (ProbeTcp addr) => run_tcp_probe addr timeout
  | Some (ProbeHttp url) => run_http_probe url (lp_http_method p) (lp_http_accepted_codes p) timeout
  | None => mret (ProbeFail "no probe kind configured")
  end.
End liveness.

(** A probe that passed validation always has a kind, so it is really run:
    "no probe kind configured" cannot be the reason of a valid probe. *)
Theorem probe_kind_valid p :
  valid_probe p →
  match probe_kind p with
  | Some (ProbeCmd c) => ∃ s, lp_cmd p = Some s ∧ c = trim s ∧ c ≠ ""
  | Some (ProbeTcp a) => ∃ s, lp_tcp_addr p = Some s ∧ a = trim s ∧ a ≠ ""
  | Some (ProbeHttp u) => ∃ s, lp_http_url p = Some s ∧ u = trim s ∧ u ≠ "" ∧
                              trim (lp_http_method p) ≠ "" ∧ lp_http_accepted_codes p ≠ []
  | None => False
  end.
Proof.
  assert (∀ o, present o → ∃ s, o = Some s ∧ trimmed o = Some (trim s) ∧ trim s ≠ "") as Hp.
  { intros o (s & -> & Hs). exists s. simpl. by rewrite decide_False. }
  assert (∀ o, ¬ present o → trimmed o = None) as Hn.
  { intros [s|] Hs; [|done]. simpl. case_decide; [done|]. destruct Hs. by exists s. }
  unfold probe_kind. intros [[(Hc & Hh & Ht & _)|[(Hc & Hh & Ht & Hcodes & Hm)|(Hc & Hh & Ht)]] _].
  - apply Hp in Hc as (s & Hs & -> & ?). rewrite (Hn _ Hh), (Hn _ Ht). eauto.
  - apply Hp in Hh as (s & Hs & -> & ?). rewrite (Hn _ Hc), (Hn _ Ht). naive_solver.
  - apply Hp in Ht as (s & Hs & -> & ?). rewrite (Hn _ Hh), (Hn _ Hc). eauto.
Qed.

Definition example_probe : LivenessProbe := {|
  lp_cmd := None; lp_http_url := Some " http://127.0.0.1/health "; lp_tcp_addr := Some " ";
  lp_success_exit_codes := [0%Z]; lp_http_accepted_codes := [200%N]; lp_http_method := "GET";
  lp_interval := 30; lp_timeout := 5; lp_failure_threshold := 3;
|}.

Lemma probe_kind_valid_witness :
  valid_probe example_probe ∧
  probe_kind example_probe = Some (ProbeHttp "http://127.0.0.1/health") ∧
  trim (lp_http_method example_probe) ≠ "".
Proof.
  assert (valid_probe example_probe) as Hv.
  { apply (validate_probe_ok "web"). vm_compute. reflexivity. }
  split; [exact Hv|]. split; [vm_compute; reflexivity|].
  pose proof (probe_kind_valid example_probe Hv) as Hk. vm_compute in Hk.
  destruct Hk as (s & _ & _ & _ & Hm & _). exact Hm.
Defined.
