(* ===== verification/Store.v ===== *)
(** Configuration files: the loading and saving half of [config.rs] and the lookup
    of a service's source object ([supervisor.rs]).

    JSON text is read and printed by parameters, one pair per file type.  Paths
    are strings with [/] between components and no trailing one. *)

From Stdlib Require Import Ascii.
From S2P Require Import Prelude RustStr BTree Error Security Config Protocol World EnvFile.
#[local] Open Scope stdpp_scope.

(** [serde_json], for the types the crate reads and writes. *)
Class Json := {
  json_value : Type;
  parse_overrides : string → result (gmap string bool) string;
  print_overrides : gmap string bool → result string string;
  parse_config : string → result Config string;
  print_config : Config → result string string;
  parse_dropin : string → result (list ServiceConfig) string;
  parse_early_boot : string → result EarlyBootConfig string;
  parse_value : string → result json_value string;
  (** [root.get("services").and_then(as_array)] *)
  services_of : json_value → option (list json_value);
  (** [svc.get("name").and_then(as_str)] *)
  name_of : json_value → option string;
}.

(** ** Paths *)

Definition slash : ascii := ascii_of_N 47.
Definition dot : ascii := ascii_of_N 46.

(** [Path::parent]: [None] for the root. *)
Definition path_parent (p : string) : option string :=
  if decide (p = "/") then None
  else match rsplit_once slash p with
  | Some ("", _) => Some "/"
  | Some (dir, _) => Some dir
  | None => Some ""
  end.

(** [Path::file_name] of a path that does not end in [..]. *)
Definition path_file_name (p : string) : string :=
  match rsplit_once slash p with Some (_, f) => f | None => p end.

(** [Path::extension] *)
Definition path_extension (p : string) : option string :=
  match rsplit_once dot (path_file_name p) with
  | Some ("", _) => None
  | Some (_, ext) => Some ext
  | None => None
  end.

(** [Path::with_extension] *)
Definition with_extension (ext p : string) : string :=
  let name := path_file_name p in
  let stem := match rsplit_once dot name with
              | Some ("", _) => name
              | Some (stem, _) => stem
              | None => name
              end in
  match rsplit_once slash p with
  | Some (dir, _) => dir +:+ "/" +:+ stem +:+ "." +:+ ext
  | None => stem +:+ "." +:+ ext
  end.

(** [Path::join] with a relative path. *)
Definition path_join (dir p : string) : string := if decide (dir = "") then p else dir +:+ "/" +:+ p.

(** Paths compare component by component. *)
Fixpoint components_le (a b : list string) : bool :=
  match a, b with
  | [], _ => true
  | _ :: _, [] => false
  | x :: a, y :: b => if decide (x = y) then components_le a b else bool_decide (ord_le x y)
  end.
Definition path_le (p q : string) : Prop := Is_true (components_le (split slash p) (split slash q)).
#[export] Instance path_le_dec : RelDecision path_le.
Proof. intros p q. unfold path_le. apply _. Defined.

Definition entry_le (e f : string * result FileType io_error) : Prop := ord_le e.1 f.1.
#[export] Instance entry_le_dec : RelDecision entry_le.
Proof. intros e f. unfold entry_le. apply _. Defined.

Section store.
Context `{Host, Json, Nss, DataDir}.

(** The [?] that turns an I/O or JSON error into the crate's. *)
Definition io_err {A} (r : result A io_error) : Result A := map_err Error.Io r.
Definition json_err {A} (r : result A string) : Result A := map_err Error.Json r.

(** ** Writing *)

(** [write_json_atomic], given the printed value. *)
Definition write_json_atomic (path : string) (printed : result string string) : M (Result unit) :=
  _ <-? match path_parent path with
        | Some parent =>
            if decide (parent = "") then mret (Ok tt)
            else fs_mkdirs parent ≫= λ r, mret (map_err (Error.io_at parent) r)
        | None => mret (Ok tt)
        end;
  let tmp := with_extension "json.tmp" path in
  data <-? mret (json_err printed);
  (fs_write tmp (data +:+ String newline "") ≫= λ r, mret (map_err (Error.io_at tmp) r)) ≫= λ r,
  match r with
  | Err e => mret (Err e)
  | Ok _ => fs_rename tmp path ≫= λ r, mret (map_err (Error.io_at path) r)
  end.

Definition save_override (path : string) (map : gmap string bool) : M (Result unit) :=
  write_json_atomic path (print_overrides map).

Definition save_config (path : string) (c : Config) : M (Result unit) :=
  write_json_atomic path (print_config c).

(** ** Reading *)

Definition load_override (path : string) : M (Result (gmap string bool)) :=
  fs_exists path ≫= λ exists_,
  if negb exists_ then mret (Ok ∅)
  else
    fs_read path ≫= λ r,
    mret (let? data := io_err r in json_err (parse_overrides data)).

(** What follows parsing in both loading functions. *)
Definition finish_load (c : Config) : M (Result Config) :=
  _ <-? mret (validate c);
  load_into_cache (cf_env_file c) ≫= λ _, mret (prepare_security c).

Definition load_config (path : string) : M (Result Config) :=
  fs_read path ≫= λ r,
  c <-? mret (let? data := map_err (Error.io_at path) r in json_err (parse_config data));
  finish_load c.

(** [peek_early_boot_capture] *)
Definition peek_early_boot_capture (config_path : string) : M EarlyBootCapturePeek :=
  fs_exists config_path ≫= λ is_file,
  if negb is_file then mret PeekAbsent
  else
    fs_read config_path ≫= λ r,
    mret (match r with
      | Err _ => PeekAbsent
      | Ok data =>
          match parse_early_boot data with
          | Err _ => PeekAbsent
          | Ok e =>
              if negb (eb_capture_logs e) then PeekDisabled
              else if decide (trim (eb_logs_path e) = "") then PeekDisabled
              else PeekEnabled (trim (eb_logs_path e))
          end
      end).

(** The [walk] of [collect_dropin_rel_paths]; [rel] is the directory relative to
    the root. *)
Fixpoint walk (fuel : nat) (root rel : string) (out : list string) : M (Result (list string)) :=
  match fuel with
  | O => no_return
  | S fuel =>
      let dir := if decide (rel = "") then root else path_join root rel in
      asks (λ h, read_dir_answer h dir) (EvReadDir dir) ≫= λ r,
      match r with
      | Err e => mret (Err (Error.Io e))
      | Ok entries =>
          let fix go (entries : list (string * result FileType io_error)) (out : list string) :
              M (Result (list string)) :=
            match entries with
            | [] => mret (Ok out)
            | (name, ft) :: entries =>
                let path := path_join rel name in
                match ft with
                | Err e => mret (Err (Error.Io e))
                | Ok IsDir => out <-? walk fuel root path out; go entries out
                | Ok IsFile =>
                    go entries (if decide (path_extension path = Some "json") then out ++ [path]
                                else out)
                | Ok IsOther => go entries out
                end
            end in
          go (merge_sort entry_le entries) out
      end
  end.

(** [collect_dropin_rel_paths]; [is_dir] tells whether the root is a directory. *)
Definition collect_dropin_rel_paths (root : string) : M (Result (list string)) :=
  asks (λ h, read_dir_answer h root) (EvReadDir root) ≫= λ is_dir,
  match is_dir with
  | Err _ => mret (Ok [])
  | Ok _ =>
      out <-? walk dir_depth root "" [];
      mret (Ok (merge_sort path_le out))
  end.

(** [merge_service_dropins]: each file is read and merged in turn. *)
Fixpoint merge_files (root : string) (rels : list string) (services : list ServiceConfig) :
    M (Result (list ServiceConfig)) :=
  match rels with
  | [] => mret (Ok services)
  | rel :: rels =>
      let path := path_join root rel in
      fs_read path ≫= λ r,
      defs <-? mret (let? data := io_err r in
                     map_err (λ e, Error.Config ("drop-in " +:+ path +:+ ": " +:+ e))
                       (parse_dropin data));
      merge_files root rels (foldl merge_service services defs)
  end.
Definition merge_service_dropins (c : Config) (dropins_root : string) : M (Result Config) :=
  rels <-? collect_dropin_rel_paths dropins_root;
  services <-? merge_files dropins_root rels (cf_services c);
  mret (Ok (set_cf_services services c)).

(** Write a file only when it does not exist. *)
Definition create_if_missing (path : string) (c : Config) : M (Result unit) :=
  fs_exists path ≫= λ exists_,
  if exists_ : bool then mret (Ok tt) else save_config path c.

(** [load_or_create_with_dropins] *)
Definition load_or_create_with_dropins (config_path example_path override_path dropins_root : string) :
    M (Result Config) :=
  _ <-? match path_parent config_path with
        | Some parent => fs_mkdirs parent ≫= λ r, mret (io_err r)
        | None => mret (Ok tt)
        end;
  _ <-? create_if_missing example_path example_config;
  _ <-? create_if_missing config_path default_config;
  fs_read config_path ≫= λ r,
  c <-? mret (let? data := io_err r in json_err (parse_config data));
  c <-? merge_service_dropins c dropins_root;
  overrides <-? load_override override_path;
  finish_load (apply_enabled_override c overrides).

(** [load_or_create] *)
Definition load_or_create (config_path example_path override_path : string) : M (Result Config) :=
  load_or_create_with_dropins config_path example_path override_path default_dropins_dir.

(** ** The source object of a service *)

(** [extract_service_json] *)
Definition extract_service_json (path name : string) : M (Result (option json_value)) :=
  fs_exists path ≫= λ exists_,
  if negb exists_ then mret (Ok None)
  else
    fs_read path ≫= λ r,
    mret (let? data := map_err (Error.io_at path) r in
          let? root := json_err (parse_value data) in
          Ok (match services_of root with
              | None => None
              | Some services =>
                  find_first (λ svc, bool_decide (name_of svc = Some name)) services
              end)).

(** The loop over the drop-ins in [find_service_source]. *)
Fixpoint find_in_dropins (root name : string) (rels : list string)
    (found : option (ServiceSource json_value)) : M (Result (option (ServiceSource json_value))) :=
  match rels with
  | [] => mret (Ok found)
  | rel :: rels =>
      let path := path_join root rel in
      json <-? extract_service_json path name;
      find_in_dropins root name rels
        (match json with Some j => Some (mkServiceSource path j) | None => found end)
  end.

(** [find_service_source] *)
Definition find_service_source (dropins_dir config_path name : string) :
    M (Result (option (ServiceSource json_value))) :=
  collect_dropin_rel_paths dropins_dir ≫= λ r,
  found <-? match r with
            | Ok rels => find_in_dropins dropins_dir name rels None
            | Err _ => mret (Ok None)
            end;
  match found with
  | Some _ => mret (Ok found)
  | None =>
      json <-? extract_service_json config_path name;
      mret (Ok (mkServiceSource config_path <$> json))
  end.
End store.

(** ** Lemmas *)

(** The temporary file is another file. *)
Lemma with_extension_ne path : with_extension "json.tmp" path ≠ path.
Proof.
  assert (∀ name, (match rsplit_once dot name with Some ("", _) => name | Some (stem, _) => stem | None => name end)
     +:+ "." +:+ "json.tmp" ≠ name) as Hn.
  { intros name. assert (name +:+ "." +:+ "json.tmp" ≠ name) as Hself.
    { intros H%(f_equal String.length). rewrite length_string_app in H. simpl in H. lia. }
    destruct (rsplit_once dot name) as [[stem ext]|] eqn:Hr; [|done].
    destruct stem as [|c stem]; [done|]. apply rsplit_once_Some in Hr as [-> Hd].
    intros H%app_inj_r. injection H as <-. vm_compute in Hd. done. }
  unfold with_extension, path_file_name. destruct (rsplit_once slash path) as [[dir f]|] eqn:Hp; [|apply Hn].
  apply rsplit_once_Some in Hp as [-> _]. intros H%app_inj_r. 
  change (String slash f) with ("/" +:+ f) in H. apply app_inj_r in H. by apply Hn in H.
Qed.

Section files.
Context `{Host}.

(** What the file operations do, for the files they find when they are entered. *)
Lemma fs_write_run p d w :
  ∃ w', fs_write p d w = (Some (match fs_fault (hist w) with None => Ok tt | Some e => Err e end), w') ∧
    let files := sh_files (interfere (EvWrite p d :: hist w) (shared w)) in
    sh_files (shared w') = match fs_fault (hist w) with
      | None => <[p := d]> files
      | Some _ => match fs_partial (hist w) with Some c => <[p := c]> files | None => files end
      end.
Proof.
  unfold fs_write, asks, atomic, mbind, M_bind; simpl.
  destruct (fs_fault (hist w)) as [e|]; [destruct (fs_partial (hist w))|]; eexists; by split.
Qed.
End files.

(** ** An example of a JSON library

    Overrides are printed as lines [name=1] and [name=0]; the other types are
    not read. *)
Definition print_override_line (kv : string * bool) : string :=
  kv.1 +:+ "=" +:+ (if kv.2 then "1" else "0") +:+ String newline "".

Definition example_json : Json := {|
  json_value := string;
  parse_overrides text := Ok (list_to_map (omap (λ line,
    (λ '(k, v), (k, bool_decide (v = "1"))) <$> split_once (ascii_of_N 61) line) (lines text)));
  print_overrides m := Ok (String.concat "" (print_override_line <$> map_to_list m));
  parse_config _ := Err "expected value at line 1 column 1";
  print_config _ := Ok "{}";
  parse_dropin _ := Err "expected value at line 1 column 1";
  parse_early_boot _ := Err "expected value at line 1 column 1";
  parse_value text := Ok text;
  services_of _ := None;
  name_of _ := None;
|}.
