(* ===== verification/Console.v ===== *)
(** The boot console ([console.rs]): status lines on a device, or on the error output
    when it cannot be opened, with a copy in the log hub. *)

From Stdlib Require Import Ascii.
From S2P Require Import Prelude RustStr Protocol Logs World.
#[local] Open Scope stdpp_scope.

Definition escape (s : string) : string := String (ascii_of_N 27) s.
Definition GREEN : string := escape "[0;32m".
Definition RED : string := escape "[0;31m".
Definition RESET : string := escape "[0m".
Definition WIDTH : nat := 48.

(** The device that is open, if any, and whether lines are copied to the hub. *)
Record Console := mkConsole { co_device : option string; co_hub : bool }.

(** The status line, padded with dots to the width. *)
Definition status_text (name : string) (ok : bool) : string :=
  let pad := if decide (String.length name < WIDTH)
             then String.concat "" (replicate (WIDTH - String.length name) ".") else "" in
  String carriage_return ("  " +:+ name +:+ pad +:+ " " +:+ (if ok then GREEN else RED)
    +:+ (if ok then "[  OK  ]" else "[ FAIL ]") +:+ RESET +:+ String newline "").

Section console.
Context `{Host}.

(** [Console::open_with_hub] *)
Definition open_with_hub (path : string) (hub : bool) : M Console :=
  opened ← fs_open path false;
  mret (mkConsole (if opened : bool then Some path else None) hub).

(** [Console::open], [Console::stderr] *)
Definition console_open (path : string) : M Console := open_with_hub path false.
Definition console_stderr : Console := mkConsole None false.

Variable self : Console.

(** [LogHub::emit_init_console_mirror] on the hub of the console, when it has one. *)
Definition console_mirror (level : LogLevel.t) (msg : string) : M unit :=
  if co_hub self then
    ts ← utc_now;
    publish_line (mkLogLine (rfc3339_secs ts) INIT_SERVICE level msg) false
  else mret tt.

(** [Console::info] *)
Definition console_info (msg : string) : M unit :=
  effect (EvConsole (co_device self) ("microinit: " +:+ msg +:+ String newline ""));;
  console_mirror LogLevel.Info msg.

(** [Console::starting] *)
Definition console_starting (name : string) : M unit :=
  effect (EvConsole (co_device self) ("  Starting " +:+ name +:+ "..."));;
  console_mirror LogLevel.Info ("Starting " +:+ name +:+ "...").

(** [Console::status], [Console::ok], [Console::fail] *)
Definition console_status (name : string) (ok : bool) : M unit :=
  effect (EvConsole (co_device self) (status_text name ok));;
  console_mirror (if ok then LogLevel.Info else LogLevel.Error)
    (name +:+ (if ok then ": OK" else ": FAIL")).

Definition console_ok (name : string) : M unit := console_status name true.
Definition console_fail (name : string) : M unit := console_status name false.
End console.
