(* ===== verification/Supervisor.v ===== *)
(** The supervisor: the shared operations of [supervisor.rs], with the start of the
    reaper thread ([reaper.rs]).

    The monitor threads are in [Monitor.v] and the rich status in [Describe.v]. *)

From Stdlib Require Import Ascii.
From S2P Require Import Prelude Constants RustStr BTree Error Security Config Graph Protocol.
From S2P Require Import Logs Watch Reaper Runtime World Console EnvFile Service Store.
#[local] Open Scope stdpp_scope.

(** The fields of [Supervisor] that do not change. *)
Record Supervisor := mkSupervisor {
  sv_override_path : string;
  sv_config_path : string;
  sv_dropins_dir : string;
  sv_started_at : N;
  sv_mode : DaemonMode.t;
  sv_console : Console;
}.

(** [Supervisor::new]: the runtimes of the configured services. *)
Definition initial_runtimes (c : Config) : gmap string Runtime :=
  foldl (λ m svc, <[sc_name svc := new_runtime (sc_enabled svc)]> m) ∅ (cf_services c).

(** [Supervisor::new]: the state it creates, around the log hub it is given, in a
    process in which nothing else has happened. *)
Definition new_shared (c : Config) (hub : LogHub) : Shared := {|
  sh_runtimes := initial_runtimes c;
  sh_stop_all := false;
  sh_config := c;
  sh_ctl := ∅;
  sh_chans := ∅;
  sh_next_chan := 0;
  sh_exits := ∅;
  sh_reaper_started := false;
  sh_hub := hub;
  sh_watch := watch_new;
  sh_env := ∅;
  sh_files := ∅;
  sh_signals := mkSignalState SHUT_NONE false;
  sh_process_env := ∅;
  sh_otel_cache := mkFileCache None ∅;
  sh_version := None;
  sh_bridge := false;
|}.

(** [ServiceMetrics]; the uptime in nanoseconds. *)
Record ServiceMetrics := mkServiceMetrics {
  sm_name : string;
  sm_restarts : N;
  sm_liveness_failures : N;
  sm_pid : option Z;
  sm_enabled : bool;
  sm_state : ServiceState.t;
  sm_uptime : N;
}.

Section supervisor.
Context `{Host, Nss, HashOrder, Json, DataDir}.
Variable self : Supervisor.

(** ** Runtime updates and watchers *)

(** Update the runtime of a service, when it has one. *)
Definition update_runtime (name : string) (f : N → N → Runtime → Runtime) : M unit :=
  atomic_at (λ now utc s, (tt, set_runtimes (alter (f now utc) name (sh_runtimes s)) s)).

Definition set_state (name : string) (st : ServiceState.t) (pid : option Z) : M unit :=
  update_runtime name (λ now utc, set_state_rt now utc st pid).

Definition bump_restarts (name : string) : M unit :=
  update_runtime name (λ _ utc, bump_restarts_rt utc).

Definition bump_liveness_failures (name : string) (detail : option string) : M unit :=
  update_runtime name (λ _ utc, bump_liveness_rt utc detail).

(** [Shared::set_enabled] *)
Definition shared_set_enabled (name : string) (enabled : bool) : M unit :=
  next ← atomic (λ s,
    match sh_runtimes s !! name with
    | None => (None, s)
    | Some rt => (enabled_next enabled (rt_state rt),
                  set_runtimes (<[name := set_enabled_rt enabled rt]> (sh_runtimes s)) s)
    end);
  match next with
  | Some st => set_state name st None
  | None => mret tt
  end.

(** The status built from a runtime. *)
Definition status_of (name : string) (rt : Runtime) (labels : gmap string string) : ServiceStatus :=
  mkServiceStatus name (rt_state rt) (rt_pid rt) (rt_restarts rt) (rt_liveness_failures rt)
    (rt_enabled rt) labels.

Definition list_services (s : Shared) : list ServiceStatus :=
  omap (λ svc, (λ rt, status_of (sc_name svc) rt (sc_labels svc)) <$> (sh_runtimes s !! sc_name svc))
    (cf_services (sh_config s)).

(** [Supervisor::list] *)
Definition list_ : M (list ServiceStatus) := reads list_services.

Definition notify_watchers : M unit :=
  n ← reads (λ s, follower_count (sh_watch s));
  if decide (n = 0) then mret tt
  else
    services ← list_;
    updates (λ s, set_watch (watch_publish services (sh_watch s)) s).

Definition watch_subscribe (label_keys : list string) : M (option nat) :=
  sub ← atomic (λ s, let '(r, h) := watch_try_subscribe label_keys (sh_watch s) in (r, set_watch h s));
  match sub with
  | None => mret None
  | Some id => notify_watchers;; mret (Some id)
  end.

Definition apply_state (name : string) (st : ServiceState.t) (pid : option Z) : M unit :=
  set_state name st pid;; notify_watchers.

Definition apply_enabled (name : string) (enabled : bool) : M unit :=
  shared_set_enabled name enabled;; notify_watchers.

(** [Supervisor::status] *)
Definition status (name : string) : M (Result ServiceStatus) :=
  reads (λ s,
    match sh_runtimes s !! name with
    | None => Err (Error.UnknownService name)
    | Some rt =>
        let labels := default ∅ (sc_labels <$> cf_get name (sh_config s)) in
        Ok (status_of name rt labels)
    end).

(** [Shared::wait_settled]; the last wait times out. *)
Fixpoint wait_settled_loop (n : nat) (name : string) (deadline : N) : M ServiceState.t :=
  st ← reads (λ s, default ServiceState.Failed (current_state name (sh_runtimes s)));
  if is_settled st then mret st
  else
    now ← instant_now;
    if decide (deadline ≤ now)%N then mret st
    else
      effect (EvTimedWait (deadline - now));;
      match n with
      | O => reads (λ s, default ServiceState.Failed (current_state name (sh_runtimes s)))
      | S n => wait_settled_loop n name deadline
      end.

Definition wait_settled (name : string) (timeout : N) : M ServiceState.t :=
  now ← instant_now;
  deadline ← instant_add now timeout;
  n ← asks wakeups EvPoll;
  wait_settled_loop n name deadline.

(** ** Requests *)

(** [Sender::send] on a channel, [false] when its receiver is gone. *)
Definition chan_send (c : nat) (msg : CtlMsg) (chans : gmap nat Chan) : bool * gmap nat Chan :=
  match chans !! c with
  | Some ch =>
      if ch_receiver ch
      then (true, <[c := mkChan (ch_queue ch ++ [msg]) (ch_sender ch) true]> chans)
      else (false, chans)
  | None => (false, chans)
  end.

Definition send_ctl (name : string) (msg : CtlMsg) : M (Result unit) :=
  r ← atomic (λ s,
    match sh_ctl s !! name with
    | None => (Err (Error.UnknownService name), s)
    | Some c =>
        let '(ok, chans) := chan_send c msg (sh_chans s) in
        (if ok then Ok tt else Err (Error.Service name "control channel closed"),
         set_channels (sh_ctl s) chans (sh_next_chan s) s)
    end);
  effect (EvSend name msg (is_ok r));;
  mret r.

Definition service_cfg (name : string) : M (Result ServiceConfig) :=
  reads (λ s, ok_or (cf_get name (sh_config s)) (Error.UnknownService name)).

(** The loads of the [enabled] flag and of [stop_all]. *)
Definition load_enabled (name : string) : M (Result bool) :=
  reads (λ s, is_enabled name (sh_runtimes s)).
Definition load_stop_all : M bool := reads sh_stop_all.

Definition start_service (name : string) (force : bool) : M (Result string) :=
  enabled <-? load_enabled name;
  if negb enabled then mret (Err (Error.Disabled name))
  else
    cfg <-? service_cfg name;
    unmet <-? reads (λ s, unmet_deps (sc_depends_on cfg) (sh_runtimes s));
    let message :=
      if decide (unmet = []) then name +:+ ": starting"
      else if force then
        name +:+ ": starting with --force (unmet dependencies: " +:+ join ", " unmet +:+ ")"
      else name +:+ ": waiting for dependencies (" +:+ join ", " unmet +:+ ")" in
    emit_init LogLevel.Info ("request: start " +:+ name +:+ (if force then " --force" else ""));;
    _ <-? send_ctl name (CtlStart force);
    mret (Ok message).

Definition stop_service (name : string) : M (Result unit) :=
  emit_init LogLevel.Info ("request: stop " +:+ name);;
  send_ctl name CtlStop.

Definition restart_service (name : string) : M (Result unit) :=
  enabled <-? load_enabled name;
  if negb enabled then mret (Err (Error.Disabled name))
  else
    emit_init LogLevel.Info ("request: restart " +:+ name);;
    send_ctl name CtlRestart.

(** [Supervisor::set_enabled]: the configuration changes before the override file
    is read or written. *)
Definition set_enabled (name : string) (enabled : bool) : M (Result unit) :=
  _ <-? atomic (λ s,
    match cf_get name (sh_config s) with
    | None => (Err (Error.UnknownService name), s)
    | Some _ =>
        (Ok tt, set_config (set_cf_services
          (update_first name (set_sc_enabled enabled) (cf_services (sh_config s))) (sh_config s)) s)
    end);
  map <-? load_override (sv_override_path self);
  _ <-? save_override (sv_override_path self) (<[name := enabled]> map);
  emit_init LogLevel.Info ("request: " +:+ (if enabled then "enable" else "disable") +:+ " " +:+ name);;
  apply_enabled name enabled;;
  send_ctl name (if enabled then CtlStart false else CtlStop).

(** ** Boot *)

(** [ensure_reaper_thread] *)
Definition ensure_reaper_thread : M unit :=
  started ← atomic (λ s, (sh_reaper_started s, set_reaper_started true s));
  if started : bool then mret tt
  else asks thread_fault EvReaperThread ≫= λ _, mret tt.

(** One end of a channel is dropped. *)
Definition drop_sender (c : nat) (chans : gmap nat Chan) : gmap nat Chan :=
  alter (λ ch, mkChan (ch_queue ch) false (ch_receiver ch)) c chans.
Definition drop_receiver (c : nat) (chans : gmap nat Chan) : gmap nat Chan :=
  alter (λ ch, mkChan [] (ch_sender ch) false) c chans.

(** [spawn_monitor]: inserting the new sender drops the old one. *)
Definition spawn_monitor (name : string) : M (Result unit) :=
  c ← atomic (λ s,
    let c := sh_next_chan s in
    let chans := match sh_ctl s !! name with
                 | Some old => drop_sender old (sh_chans s)
                 | None => sh_chans s
                 end in
    (c, set_channels (<[name := c]> (sh_ctl s)) (<[c := mkChan [] true true]> chans) (S c) s));
  fault ← asks thread_fault (EvMonitor name c);
  match fault with
  | None => mret (Ok tt)
  | Some e =>
      updates (λ s, set_channels (sh_ctl s) (drop_receiver c (sh_chans s)) (sh_next_chan s) s);;
      mret (Err (Error.Other e))
  end.

(** Report a message that could not be sent. *)
Definition send_or_log (verb name : string) (msg : CtlMsg) : M bool :=
  r ← send_ctl name msg;
  match r with
  | Ok _ => mret true
  | Err e =>
      emit_init LogLevel.Error (verb +:+ " " +:+ name +:+ ": " +:+ Error.to_string e);; mret false
  end.

Definition boot_foreground (name : string) : M unit :=
  console_starting (sv_console self) name;;
  sent ← send_or_log "start" name (CtlStart false);
  if negb sent then console_fail (sv_console self) name
  else
    st ← wait_settled name BOOT_FG_SETTLE;
    if is_ready st then console_ok (sv_console self) name else console_fail (sv_console self) name.

Definition boot_background (name : string) : M unit :=
  st ← wait_settled name BOOT_BG_SETTLE;
  match st with
  | ServiceState.Running | ServiceState.Succeeded | ServiceState.Starting
  | ServiceState.Pending | ServiceState.WaitingForDependency => console_ok (sv_console self) name
  | _ => console_fail (sv_console self) name
  end.

Definition boot : M (Result unit) :=
  services ← reads (λ s, cf_services (sh_config s));
  _ <-? try_each_m services (λ svc, spawn_monitor (sc_name svc));
  ensure_reaper_thread;;
  groups <-? mret (partition_boot services);
  let '(foreground, background) := groups in
  for_each_m background (λ name, send_or_log "start" name (CtlStart false) ≫= λ _, mret tt);;
  for_each_m foreground boot_foreground;;
  for_each_m background boot_background;;
  mret (Ok tt).

(** ** Shutdown *)

Definition stop_all_ordered : M unit :=
  updates (set_stop_all true);;
  services ← reads (λ s, cf_services (sh_config s));
  order ← match shutdown_order services with
          | Ok o => mret o
          | Err e =>
              emit_init LogLevel.Error ("shutdown order failed (" +:+ Error.to_string e
                +:+ "); using reverse config order");;
              mret (reverse (sc_name <$> services))
          end;
  for_each_m order (λ name, send_or_log "stop" name CtlStop ≫= λ _, mret tt);;
  sleep SHUTDOWN_STOP_WAIT;;
  for_each_m order (λ name, send_or_log "quit" name CtlQuit ≫= λ _, mret tt);;
  sleep SHUTDOWN_QUIT_WAIT.

(** ** Reload *)

(** [definition_eq]: equality up to [enabled] and the cached identity. *)
Definition definition_eq (a b : ServiceConfig) : bool :=
  bool_decide (set_sc_resolved_security None (set_sc_enabled true a)
             = set_sc_resolved_security None (set_sc_enabled true b)).

Definition name_set (services : list ServiceConfig) : gmap string unit :=
  list_to_map ((λ s, (sc_name s, tt)) <$> services).

(** The names of the old services that are gone, in hash order. *)
Definition removed_names (old new : list ServiceConfig) : list string :=
  filter (λ n, name_set new !! n = None) (fst <$> hash_iter (name_set old)).

Definition reload_remove (name : string) : M unit :=
  emit_init LogLevel.Info ("reload: removing service " +:+ name);;
  send_ctl name CtlStop;;
  sleep (from_millis 200);;
  sent ← atomic (λ s,
    match sh_ctl s !! name with
    | None => (false, s)
    | Some c =>
        let '(ok, chans) := chan_send c CtlQuit (sh_chans s) in
        (ok, set_channels (delete name (sh_ctl s)) (drop_sender c chans) (sh_next_chan s) s)
    end);
  effect (EvSend name CtlQuit sent);;
  updates (λ s, set_runtimes (delete name (sh_runtimes s)) s).

(** The configuration in force after a reload. *)
Definition reload_applied (old new : Config) : Config :=
  mkConfig (cf_version new) (cf_logs old) (cf_early_boot new) (cf_socket old) (cf_console old)
    (cf_socket_allow_users new) (cf_open_telemetry new) (cf_env_file new) (cf_services new).

(** The loop body over the new services. *)
Definition reload_service (old : Config) (svc : ServiceConfig) : M (Result unit) :=
  let name := sc_name svc in
  if decide (name_set (cf_services old) !! name = None) then
    emit_init LogLevel.Info ("reload: adding service " +:+ name);;
    updates (λ s, set_runtimes (<[name := new_runtime (sc_enabled svc)]> (sh_runtimes s)) s);;
    _ <-? spawn_monitor name;
    (if sc_enabled svc then send_ctl name (CtlStart false) ≫= λ _, mret tt else mret tt);;
    mret (Ok tt)
  else
    match cf_get name old with
    | None => mret (Ok tt)
    | Some old_svc =>
        (if decide (sc_enabled old_svc ≠ sc_enabled svc) then
           apply_enabled name (sc_enabled svc);;
           send_ctl name (if sc_enabled svc then CtlStart false else CtlStop) ≫= λ _, mret tt
         else mret tt);;
        (if negb (definition_eq old_svc svc) then
           emit_init LogLevel.Info ("reload: definition changed for " +:+ name);;
           if sc_enabled svc then send_ctl name CtlRestart ≫= λ _, mret tt else mret tt
         else mret tt);;
        mret (Ok tt)
    end.

Definition warn_if (b : bool) (msg : string) : M unit :=
  if b then emit_init LogLevel.Warn msg else mret tt.

Definition reload (new_cfg : Config) : M (Result unit) :=
  old ← reads sh_config;
  warn_if (bool_decide (cf_socket old ≠ cf_socket new_cfg))
    "reload: socket change ignored (restart microinit required)";;
  warn_if (bool_decide (cf_logs old ≠ cf_logs new_cfg))
    "reload: logs.* change ignored (restart microinit required)";;
  warn_if (bool_decide (cf_early_boot old ≠ cf_early_boot new_cfg))
    "reload: earlyBoot change ignored (restart microinit required)";;
  warn_if (bool_decide (cf_console old ≠ cf_console new_cfg))
    "reload: console change ignored (restart microinit required)";;
  for_each_m (removed_names (cf_services old) (cf_services new_cfg)) reload_remove;;
  let applied := reload_applied old new_cfg in
  updates (set_config applied);;
  _ <-? try_each_m (cf_services applied) (reload_service old);
  emit_init LogLevel.Info "configuration reloaded";;
  notify_watchers;;
  mret (Ok tt).

(** ** Metrics *)

Definition metrics_le (a b : ServiceMetrics) : Prop := ord_le (sm_name a) (sm_name b).
#[local] Instance metrics_le_dec : RelDecision metrics_le.
Proof. intros a b. unfold metrics_le. apply _. Defined.

Definition metrics_of (now : N) (nr : string * Runtime) : ServiceMetrics :=
  let '(name, rt) := nr in
  mkServiceMetrics name (rt_restarts rt) (rt_liveness_failures rt) (rt_pid rt) (rt_enabled rt)
    (rt_state rt) (default 0%N ((λ t, now - t)%N <$> rt_running_since rt)).

Definition metrics_snapshot : M (list ServiceMetrics) :=
  atomic_at (λ now _ s, (merge_sort metrics_le (metrics_of now <$> hash_iter (sh_runtimes s)), s)).
End supervisor.

(** ** An example *)

Definition example_supervisor : Supervisor :=
  mkSupervisor "/etc/microinit/override.json" "/etc/microinit/config.json" "/etc/microinit/conf.d" 0
    DaemonMode.Init (mkConsole (Some "/dev/console") true).

Definition example_cfg (services : list ServiceConfig) : Config := {|
  cf_version := 1;
  cf_logs := mkLogsConfig "/dev/tty2" "/dev/tty3" 3 None false;
  cf_early_boot := default_early_boot_config;
  cf_socket := "/run/microinit.sock";
  cf_console := "/dev/console";
  cf_socket_allow_users := [];
  cf_open_telemetry := default_open_telemetry;
  cf_env_file := [];
  cf_services := services;
|}.

Definition example_hub : LogHub := hub_new 3 false false None.

Definition example_shared (services : list ServiceConfig) : Shared :=
  new_shared (example_cfg services) example_hub.
