(* ===== verification/EarlyBoot.v ===== *)
(** The early-boot script: [early_boot.rs], with the script lookup of [unmount.rs].

    The bytes the script writes are read through a pipe in chunks and kept as
    lines in a bounded buffer, which is written to a file after the script exits.
    The pipe, the process and the threads are given by their answers. *)

From Stdlib Require Import Ascii.
From S2P Require Import Prelude Constants RustStr Utf8 Error Security Config World Store.
#[local] Open Scope stdpp_scope.

(** ** Capturing the output *)

(** [Collected], with the other variables of [collect_lines]. *)
Record Capture := mkCapture {
  cp_lines : list string;
  cp_dropped : N;
  cp_bytes : N;
  cp_cur : string;
  cp_overflowed : bool;
}.

Definition no_capture : Capture := mkCapture [] 0 0 "" false.

Definition string_len (s : string) : N := N.of_nat (String.length s).

(** The loop of [push_captured_line]: drop the oldest lines until the new one fits
    or no line is left. *)
Fixpoint make_room (add : N) (lines : list string) (bytes dropped : N) : list string * N * N :=
  match lines with
  | [] => ([], bytes, dropped)
  | old :: rest =>
      if decide (MAX_EARLY_BOOT_CAPTURE_LINES ≤ N.of_nat (length lines) ∨
                 MAX_EARLY_BOOT_CAPTURE_BYTES < bytes + add)%N
      then make_room add rest (bytes - string_len old) (dropped + 1)
      else (lines, bytes, dropped)
  end.

(** [push_captured_line] *)
Definition push_captured_line (raw : string) (c : Capture) : Capture :=
  let msg := from_utf8_lossy raw in
  let add := string_len msg in
  let '(lines, bytes, dropped) := make_room add (cp_lines c) (cp_bytes c) (cp_dropped c) in
  mkCapture (lines ++ [msg]) dropped (bytes + add) (cp_cur c) (cp_overflowed c).

(** The body of the loop over the bytes of a chunk. *)
Definition capture_byte (c : Capture) (b : ascii) : Capture :=
  if decide (b = newline) then
    let c := push_captured_line (cp_cur c) c in
    mkCapture (cp_lines c) (cp_dropped c) (cp_bytes c) "" false
  else if cp_overflowed c then c
  else if decide (MAX_EARLY_BOOT_LINE_BYTES ≤ string_len (cp_cur c))%N
  then mkCapture (cp_lines c) (cp_dropped c) (cp_bytes c) (cp_cur c) true
  else mkCapture (cp_lines c) (cp_dropped c) (cp_bytes c) (cp_cur c +:+ String b "") false.

Definition capture_bytes (c : Capture) (bytes : string) : Capture :=
  foldl capture_byte c (String.list_ascii_of_string bytes).

(** The answers of [fill_buf] before the end of the pipe. *)
Inductive ReadAnswer := Chunk (bytes : string) | ReadInterrupted | ReadFailed.

(** The loop of [collect_lines], with what it writes to stderr. *)
Fixpoint capture_loop (reads : list ReadAnswer) (c : Capture) : Capture * string :=
  match reads with
  | [] => (c, "")
  | Chunk bytes :: reads =>
      if decide (bytes = "") then (c, "")
      else let '(c, tee) := capture_loop reads (capture_bytes c bytes) in (c, bytes +:+ tee)
  | ReadInterrupted :: reads => capture_loop reads c
  | ReadFailed :: _ => (c, "")
  end.

(** [Collected] *)
Record Collected := mkCollected { co_lines : list string; co_dropped : N }.

(** [collect_lines] *)
Definition collect_lines (reads : list ReadAnswer) : Collected * string :=
  let '(c, tee) := capture_loop reads no_capture in
  let c := if decide (cp_cur c = "") then c else push_captured_line (cp_cur c) c in
  (mkCollected (cp_lines c) (cp_dropped c), tee).

(** ** Running the script *)

Record EarlyBootOutput := mkEarlyBootOutput {
  eo_lines : list string;
  eo_dropped : N;
  eo_captured : bool;
  eo_source : string;
  eo_exit_code : option Z;
  eo_signal : option Z;
}.

(** [EarlyBootOutput { source, ..default() }] *)
Definition no_output (source : string) : EarlyBootOutput := mkEarlyBootOutput [] 0 false source None None.

Definition output_from_collected (source : string) (c : Collected) (captured : bool) : EarlyBootOutput :=
  mkEarlyBootOutput (co_lines c) (co_dropped c) captured source None None.

(** [start_capture] and [join_capture]: the pipe's reads, when there is a pipe. *)
Definition join_capture (pipe : option (list ReadAnswer)) : Collected :=
  match pipe with Some reads => (collect_lines reads).1 | None => mkCollected [] 0 end.

(** The status of a child: its exit code, or the signal that ended it. *)
Inductive ExitStatus := Exited (code : Z) | Signaled (sig : Z).

Definition st_code (st : ExitStatus) : option Z := match st with Exited c => Some c | Signaled _ => None end.
Definition st_signal (st : ExitStatus) : option Z := match st with Exited _ => None | Signaled s => Some s end.

Definition exit_result (mk : Z → Error.t) (code : option Z) : Result unit :=
  match code with
  | Some 0%Z => Ok tt
  | Some code => Err (mk code)
  | None => Err (mk 1%Z)
  end.

(** [finish_wait] *)
Definition finish_wait (status : result ExitStatus string) (pipe : option (list ReadAnswer))
    (source : string) : EarlyBootOutput * Result unit :=
  let captured := bool_decide (is_Some pipe) in
  let out := output_from_collected source (join_capture pipe) captured in
  match status with
  | Ok st =>
      (mkEarlyBootOutput (eo_lines out) (eo_dropped out) (eo_captured out) (eo_source out)
         (st_code st) (st_signal st),
       exit_result Error.EarlyBoot (st_code st))
  | Err e => (out, Err (Error.Other ("failed to wait for early-boot: " +:+ e)))
  end.

(** How the process of a script ran: whether it was spawned, the pipe, the error of
    writing the script to its stdin, and its status. *)
Record ScriptRun := mkScriptRun {
  sr_spawn : result unit string;
  sr_pipe : option (list ReadAnswer);
  sr_stdin : result unit string;
  sr_status : result ExitStatus string;
}.

(** [run_command] *)
Definition run_command (source : string) (r : ScriptRun) : EarlyBootOutput * Result unit :=
  match sr_spawn r with
  | Err e => (no_output source, Err (Error.Other ("failed to exec " +:+ source +:+ ": " +:+ e)))
  | Ok _ => finish_wait (sr_status r) (sr_pipe r) source
  end.

(** [run_script_bytes] *)
Definition run_script_bytes (r : ScriptRun) : EarlyBootOutput * Result unit :=
  match sr_spawn r with
  | Err e => (no_output "embedded", Err (Error.Other ("failed to exec /bin/sh -s: " +:+ e)))
  | Ok _ =>
      match sr_stdin r with
      | Err e =>
          (output_from_collected "embedded" (join_capture (sr_pipe r)) (bool_decide (is_Some (sr_pipe r))),
           Err (Error.Other ("failed to write early-boot script: " +:+ e)))
      | Ok _ => finish_wait (sr_status r) (sr_pipe r) "embedded"
      end
  end.

(** [ScriptSource] *)
Inductive ScriptSource := ScriptPath (path : string) | Embedded.

(** ** Files *)

(** How the scripts run. *)
Class Scripts `{Host} := { script_ran : list Event → ScriptSource → ScriptRun }.

(** The terminals a script is told about. *)
Record Terminals := mkTerminals { tm_logs : string; tm_init_logs : string; tm_console : string }.

Section files.
Context `{Host, DataDir, !Scripts}.

(** The override of a script, then the script of the image, then the embedded one. *)
Definition resolve_among (override base : string) : M ScriptSource :=
  over ← fs_exists override;
  if over : bool then mret (ScriptPath override)
  else
    image ← fs_exists base;
    mret (if image : bool then ScriptPath base else Embedded).

(** [early_boot::resolve_script], [unmount::resolve_script] *)
Definition resolve_early_boot (paths : Paths) : M ScriptSource :=
  resolve_among (ps_early_boot_override paths) (ps_early_boot paths).
Definition resolve_unmount (paths : Paths) : M ScriptSource :=
  resolve_among (ps_unmount_override paths) (ps_unmount paths).

Definition source_name (source : ScriptSource) : string :=
  match source with ScriptPath path => path | Embedded => "embedded" end.

(** The environment of a script. *)
Definition script_env (tm : Terminals) : list (string * string) := [
  ("MICROINIT_LOGS_TTY", tm_logs tm);
  ("MICROINIT_INIT_LOGS_TTY", tm_init_logs tm);
  ("MICROINIT_CONSOLE", tm_console tm);
  ("DATA_DIR", data_root)
].

(** Running a script; the use of the embedded one is noted on stderr. *)
Definition run_script (note : string) (source : ScriptSource) (tm : Terminals) : M ScriptRun :=
  (match source with Embedded => effect (EvStderr note) | ScriptPath _ => mret tt end);;
  asks (λ h, script_ran h source) (EvScript (source_name source) (script_env tm)).

Definition early_boot_result (source : ScriptSource) (ran : ScriptRun) : EarlyBootOutput * Result unit :=
  match source with
  | ScriptPath script => run_command script ran
  | Embedded => run_script_bytes ran
  end.

(** [early_boot::run] *)
Definition run_early_boot (paths : Paths) (tm : Terminals) : M (EarlyBootOutput * Result unit) :=
  source ← resolve_early_boot paths;
  ran ← run_script "microinit: using embedded early-boot.sh" source tm;
  mret (early_boot_result source ran).

(** [unmount::run_script]: [Command::status] starts the script and waits for it. *)
Definition run_unmount_script (script : string) (r : ScriptRun) : Result unit :=
  match (match sr_spawn r with Err e => Err e | Ok _ => sr_status r end) with
  | Err e => Err (Error.Other ("failed to exec " +:+ script +:+ ": " +:+ e))
  | Ok st => exit_result Error.Unmount (st_code st)
  end.

(** [unmount::run_script_bytes] *)
Definition run_unmount_bytes (r : ScriptRun) : Result unit :=
  match sr_spawn r with
  | Err e => Err (Error.Other ("failed to exec /bin/sh -s: " +:+ e))
  | Ok _ =>
      match sr_stdin r with
      | Err e => Err (Error.Other ("failed to write unmount script: " +:+ e))
      | Ok _ =>
          match sr_status r with
          | Ok st => exit_result Error.Unmount (st_code st)
          | Err e => Err (Error.Other ("failed to wait for unmount: " +:+ e))
          end
      end
  end.

(** [unmount::run] *)
Definition run_unmount (paths : Paths) (tm : Terminals) : M (Result unit) :=
  source ← resolve_unmount paths;
  ran ← run_script "microinit: using embedded unmount.sh" source tm;
  mret (match source with
        | ScriptPath script => run_unmount_script script ran
        | Embedded => run_unmount_bytes ran
        end).

(** [exit_header] *)
Definition exit_header (out : EarlyBootOutput) : string :=
  match eo_exit_code out, eo_signal out with
  | Some c, _ => pretty c
  | None, Some sig => "signal:" +:+ pretty sig
  | None, None => "unknown"
  end.

Definition line_of (text : string) : string := text +:+ String newline "".

(** The text [write_captured] writes. *)
Definition captured_text (ts : string) (out : EarlyBootOutput) : string :=
  line_of ("# early-boot ts=" +:+ ts +:+ " source=" +:+ eo_source out +:+ " exit=" +:+ exit_header out) +:+
  (if decide (0 < eo_dropped out)%N
   then line_of ("... " +:+ pretty (eo_dropped out) +:+ " earlier line(s) dropped") else "") +:+
  String.concat "" (line_of <$> eo_lines out).

(** [write_captured]: the number of lines written.  The writes go to one open file. *)
Definition write_captured (path : string) (out : EarlyBootOutput) : M (Result nat) :=
  _ <-? match path_parent path with
        | Some parent =>
            if decide (parent = "") then mret (Ok tt)
            else fs_mkdirs parent ≫= λ r, mret (map_err (Error.io_at parent) r)
        | None => mret (Ok tt)
        end;
  ts ← utc_now;
  r ← fs_write path (captured_text (rfc3339_secs ts) out);
  mret (match r with
        | Ok _ => Ok (length (eo_lines out))
        | Err e => Err (Error.io_at path e)
        end).
End files.

(** ** Specification of the capture *)

(** The bytes read before the end or the failure of the pipe. *)
Fixpoint text_of (reads : list ReadAnswer) : string :=
  match reads with
  | Chunk "" :: _ | ReadFailed :: _ | [] => ""
  | Chunk bytes :: reads => bytes +:+ text_of reads
  | ReadInterrupted :: reads => text_of reads
  end.

Fixpoint string_take (n : nat) (s : string) : string :=
  match n, s with
  | S n, String c s => String c (string_take n s)
  | _, _ => ""
  end.

(** The lines of a text; the last one may not be terminated. *)
Definition raw_lines (text : string) : list string :=
  match reverse (split newline text) with
  | "" :: rest => reverse rest
  | _ => split newline text
  end.

(** What is kept of a line: its first bytes, as text. *)
Definition clip (raw : string) : string :=
  from_utf8_lossy (string_take (N.to_nat MAX_EARLY_BOOT_LINE_BYTES) raw).

Fixpoint total_len (l : list string) : N :=
  match l with [] => 0 | s :: l => string_len s + total_len l end.

(** The lines fit into the buffer. *)
Definition fits (l : list string) : Prop :=
  (N.of_nat (length l) ≤ MAX_EARLY_BOOT_CAPTURE_LINES)%N ∧ (total_len l ≤ MAX_EARLY_BOOT_CAPTURE_BYTES)%N.

(** The longest part at the end of the lines that fits. *)
Definition keeps_newest (all kept : list string) : Prop :=
  kept `suffix_of` all ∧ fits kept ∧ ∀ l, l `suffix_of` all → fits l → l `suffix_of` kept.

Lemma total_len_app l1 l2 : total_len (l1 ++ l2) = (total_len l1 + total_len l2)%N.
Proof. induction l1 as [|s l1 IH]; simpl; [done|]. rewrite IH. lia. Qed.

Lemma fits_suffix l1 l2 : l1 `suffix_of` l2 → fits l2 → fits l1.
Proof.
  intros [k ->] [Hn Hb]. rewrite length_app in Hn. rewrite total_len_app in Hb. split; lia.
Qed.

Lemma fits_app l1 l2 : fits (l1 ++ l2) → fits l1.
Proof. intros [Hn Hb]. rewrite length_app in Hn. rewrite total_len_app in Hb. split; lia. Qed.

Lemma suffix_snoc_inv {A} (l all : list A) x :
  l `suffix_of` all ++ [x] → l = [] ∨ ∃ l', l = l' ++ [x] ∧ l' `suffix_of` all.
Proof.
  intros Hs. destruct l as [|y l _] using rev_ind; [by left|]. right. destruct Hs as [k Hk].
  rewrite app_assoc in Hk. apply app_inj_tail in Hk as [-> ->]. exists l. split; [done|]. by exists k.
Qed.

(** Making room keeps the longest part that fits with the new line. *)
Lemma make_room_spec x lines dropped kept bytes dropped' :
  fits [x] → make_room (string_len x) lines (total_len lines) dropped = (kept, bytes, dropped') →
  bytes = total_len kept ∧ kept `suffix_of` lines ∧ fits (kept ++ [x]) ∧
  (dropped' = dropped + N.of_nat (length lines - length kept))%N ∧
  ∀ l, l `suffix_of` lines → fits (l ++ [x]) → l `suffix_of` kept.
Proof.
  intros Hx. revert dropped. induction lines as [|old rest IH]; intros dropped; cbn [make_room].
  { intros [= <- <- <-]. split_and!; try done. simpl. lia. }
  case_decide as Hfull.
  - cbn [total_len]. rewrite N.add_comm, N.add_sub. intros (-> & Hsuf & Hfits & -> & Hmax)%IH.
    split_and!; [done|by apply suffix_cons_r|done| |].
    + apply suffix_length in Hsuf. cbn [length]. lia.
    + intros l [[|o k] Hk] Hfl; [simpl in Hk; subst l|by injection Hk as -> ->; apply Hmax; [by exists k|]].
      exfalso. destruct Hfl as [Hn Hb]. rewrite length_app in Hn. rewrite total_len_app in Hb. simpl in *. lia.
  - intros [= <- <- <-]. split_and!; try done.
    + split; rewrite ?length_app, ?total_len_app; simpl in *; lia.
    + rewrite Nat.sub_diag. lia.
Qed.

Lemma clip_len raw : (string_len (clip raw) ≤ MAX_EARLY_BOOT_CAPTURE_BYTES)%N.
Proof.
  unfold clip. set (t := string_take _ raw).
  assert (String.length t ≤ N.to_nat MAX_EARLY_BOOT_LINE_BYTES) as Ht.
  { unfold t. generalize (N.to_nat MAX_EARLY_BOOT_LINE_BYTES). intros n. clear t. revert raw.
    induction n as [|n IH]; intros [|c raw]; simpl; try lia. specialize (IH raw). lia. }
  pose proof (from_utf8_lossy_length t) as Hl. unfold string_len, MAX_EARLY_BOOT_CAPTURE_BYTES, MAX_EARLY_BOOT_LINE_BYTES in *.
  lia.
Qed.

Lemma clip_fits raw : fits [clip raw].
Proof. split; [done|]. simpl. rewrite N.add_0_r. apply clip_len. Qed.

(** The buffer holds the newest of the lines [all]. *)
Definition holds (all : list string) (c : Capture) : Prop :=
  cp_bytes c = total_len (cp_lines c) ∧ keeps_newest all (cp_lines c) ∧
  (cp_dropped c = N.of_nat (length all - length (cp_lines c)))%N.

Lemma holds_push all raw c :
  string_take (N.to_nat MAX_EARLY_BOOT_LINE_BYTES) raw = raw →
  holds all c → holds (all ++ [clip raw]) (push_captured_line raw c).
Proof.
  intros Hraw (Hb & (Hsuf & Hfit & Hmax) & Hd). unfold push_captured_line.
  pose proof (clip_fits raw) as Hx. assert (clip raw = from_utf8_lossy raw) as Hc by (unfold clip; by rewrite Hraw).
  rewrite Hc in Hx |- *. set (x := from_utf8_lossy raw) in *. clearbody x. clear Hraw Hc.
  destruct (make_room _ _ _ _) as [[kept bytes] dropped] eqn:Hroom. rewrite Hb in Hroom.
  apply make_room_spec in Hroom as (-> & Hs & Hf & -> & Hm); [|done].
  apply suffix_length in Hsuf as Hlen. apply suffix_length in Hs as Hlen'.
  split_and!; simpl.
  - rewrite total_len_app. cbn [total_len]. by rewrite N.add_0_r.
  - split; [|split; [done|]].
    + destruct Hsuf as [k Hk], Hs as [k' Hk']. exists (k ++ k'). by rewrite Hk, Hk', !(assoc_L (++)).
    + intros l [->|(l' & -> & Hl')]%suffix_snoc_inv Hl; [apply suffix_nil|].
      apply suffix_app. apply Hm; [|done]. apply Hmax; [done|].
      by apply fits_app in Hl.
  - rewrite !length_app, Hd. simpl. lia.
Qed.

(** Taking the first bytes of a string. *)
Lemma string_take_length n s : String.length (string_take n s) = Nat.min n (String.length s).
Proof. revert s. induction n as [|n IH]; intros [|c s]; simpl; auto. Qed.

Lemma string_take_all n s : String.length s ≤ n → string_take n s = s.
Proof. revert s. induction n as [|n IH]; intros [|c s]; simpl; [done|lia|done|]. intros Hs. rewrite IH; [done|lia]. Qed.

Lemma string_take_app n s t : n ≤ String.length s → string_take n (s +:+ t) = string_take n s.
Proof.
  revert s. induction n as [|n IH]; intros [|c s]; simpl; [by destruct t|done|lia|].
  intros Hs. change (String c s +:+ t) with (String c (s +:+ t)). simpl. rewrite IH; [done|lia].
Qed.

Lemma string_take_take n s : string_take n (string_take n s) = string_take n s.
Proof. apply string_take_all. rewrite string_take_length. lia. Qed.

(** The lines completed and the current line, without bounds. *)
Definition split_step (st : list string * string) (b : ascii) : list string * string :=
  if decide (b = newline) then (st.1 ++ [st.2], "") else (st.1, st.2 +:+ String b "").

(** The capture after the lines and the current line of [st]. *)
Definition capture_inv (c : Capture) (st : list string * string) : Prop :=
  holds (clip <$> st.1) c ∧
  cp_cur c = string_take (N.to_nat MAX_EARLY_BOOT_LINE_BYTES) st.2 ∧
  (cp_overflowed c = true → N.to_nat MAX_EARLY_BOOT_LINE_BYTES ≤ String.length st.2).

Lemma holds_push_cur lines raw c :
  holds (clip <$> lines) c →
  holds (clip <$> (lines ++ [raw]))
    (push_captured_line (string_take (N.to_nat MAX_EARLY_BOOT_LINE_BYTES) raw) c).
Proof.
  intros Hc. rewrite fmap_app. cbn [fmap list_fmap].
  assert (clip raw = clip (string_take (N.to_nat MAX_EARLY_BOOT_LINE_BYTES) raw)) as ->
    by (unfold clip; by rewrite string_take_take).
  apply holds_push; [apply string_take_take|done].
Qed.

Lemma capture_byte_inv c st b : capture_inv c st → capture_inv (capture_byte c b) (split_step st b).
Proof.
  intros (Hh & Hcur & Hover). unfold capture_byte, split_step. set (max := N.to_nat MAX_EARLY_BOOT_LINE_BYTES) in *.
  case_decide as Hb.
  - rewrite Hcur. pose proof (holds_push_cur _ st.2 _ Hh) as Hp. split_and!; [exact Hp|done|done].
  - destruct (cp_overflowed c) eqn:Ho.
    + specialize (Hover eq_refl). split_and!; [done| |].
      * cbn [fst snd cp_cur]. by rewrite string_take_app.
      * intros _. cbn [fst snd]. rewrite length_string_app. lia.
    + case_decide as Hfull; unfold string_len in Hfull; rewrite Hcur, string_take_length in Hfull.
      * assert (max ≤ String.length st.2) as Hlen by (unfold max in *; lia). split_and!; [done| |].
        -- cbn [fst snd cp_cur]. by rewrite string_take_app.
        -- intros _. cbn [fst snd]. rewrite length_string_app. lia.
      * assert (String.length st.2 < max) as Hlen by (unfold max in *; lia). split_and!; [done| |done].
        cbn [fst snd cp_cur]. rewrite Hcur, string_take_all by lia. symmetry. apply string_take_all.
        rewrite length_string_app. simpl. lia.
Qed.

Lemma capture_bytes_inv c st bytes :
  capture_inv c st →
  capture_inv (capture_bytes c bytes) (foldl split_step st (String.list_ascii_of_string bytes)).
Proof.
  unfold capture_bytes. revert c st. induction (String.list_ascii_of_string bytes) as [|b l IH]; intros c st Hc; [done|].
  simpl. by apply IH, capture_byte_inv.
Qed.

Lemma list_ascii_app s t :
  String.list_ascii_of_string (s +:+ t) = String.list_ascii_of_string s ++ String.list_ascii_of_string t.
Proof.
  induction s as [|c s IH]; [done|]. change (String c s +:+ t) with (String c (s +:+ t)). simpl. by rewrite IH.
Qed.

Lemma capture_loop_inv reads c st c' tee :
  capture_inv c st → capture_loop reads c = (c', tee) →
  tee = text_of reads ∧
  capture_inv c' (foldl split_step st (String.list_ascii_of_string (text_of reads))).
Proof.
  revert c st c' tee. induction reads as [|[bytes| |] reads IH]; intros c st c' tee Hc; cbn [capture_loop].
  - by intros [= <- <-].
  - case_decide as Hb; [intros [= <- <-]; by subst|].
    destruct (capture_loop reads _) as [c1 tee1] eqn:Hl. intros [= <- <-].
    apply (IH _ (foldl split_step st (String.list_ascii_of_string bytes))) in Hl as [-> Hi].
    2: by apply capture_bytes_inv.
    assert (text_of (Chunk bytes :: reads) = bytes +:+ text_of reads) as -> by by destruct bytes.
    by rewrite list_ascii_app, foldl_app.
  - by apply IH.
  - by intros [= <- <-].
Qed.

(** The reference splitting agrees with [split]. *)
Lemma split_steps text lines cur :
  let st := foldl split_step (lines, cur) (String.list_ascii_of_string text) in
  st.1 ++ [st.2] = lines ++ match split newline text with x :: l => (cur +:+ x) :: l | [] => [] end.
Proof.
  revert lines cur. induction text as [|c text IH]; intros lines cur; simpl.
  - by rewrite string_app_nil.
  - unfold split_step at 2 4; simpl. case_decide as Hc; simpl; rewrite IH.
    + rewrite <-app_assoc, string_app_nil. simpl. by destruct (split newline text).
    + destruct (split newline text) as [|x l] eqn:Hs.
      * by destruct text; simpl in Hs; repeat case_match.
      * rewrite string_app_assoc. done.
Qed.

Lemma raw_lines_steps text :
  let st := foldl split_step ([], "") (String.list_ascii_of_string text) in
  raw_lines text = if decide (st.2 = "") then st.1 else st.1 ++ [st.2].
Proof.
  intros st. assert (split newline text = st.1 ++ [st.2]) as Hs.
  { unfold st. rewrite split_steps. simpl. destruct (split newline text) as [|x l] eqn:Hs; [|done].
    by destruct text; simpl in Hs; repeat case_match. }
  unfold raw_lines. rewrite Hs, reverse_snoc. destruct (st.2) as [|c s]; case_decide; try done.
  by rewrite reverse_involutive.
Qed.

Lemma no_capture_inv : capture_inv no_capture ([], "").
Proof.
  split; [|done]. split; [done|]. split; [|done]. split; [apply suffix_nil|]. split; [done|].
  intros l Hl _. by apply suffix_nil_inv in Hl as ->.
Qed.

(** ** Properties *)

(** Capturing the early-boot output shows every byte read on stderr and keeps,
    however the bytes were split into chunks, the newest lines that fit into the
    bounded buffer: at most the maximal number of lines and bytes, none missing
    between them, and no line dropped that would still fit; each line is clipped to
    its maximal length and decoded, and the lines dropped are counted. *)
Theorem collect_lines_spec reads c tee :
  collect_lines reads = (c, tee) →
  let all := clip <$> raw_lines (text_of reads) in
  tee = text_of reads ∧ keeps_newest all (co_lines c) ∧
  co_dropped c = N.of_nat (length all - length (co_lines c)).
Proof.
  unfold collect_lines. destruct (capture_loop reads no_capture) as [c0 tee0] eqn:Hl. intros Hr. injection Hr as <- <-.
  set (all := clip <$> raw_lines (text_of reads)). cbn zeta.
  apply (capture_loop_inv _ _ _ _ _ no_capture_inv) in Hl as [-> (Hh & Hcur & _)]. split; [done|].
  unfold all. rewrite raw_lines_steps. set (st := foldl split_step _ _) in *.
  destruct (decide (st.2 = "")) as [He|He].
  - rewrite Hcur, He. cbn. by destruct Hh as (_ & ? & ?).
  - rewrite decide_False.
    + rewrite Hcur. apply (holds_push_cur _ st.2) in Hh as (_ & ? & ?). done.
    + rewrite Hcur. by destruct (st.2).
Qed.

Lemma collect_lines_spec_witness :
  let reads := [Chunk "a"; ReadInterrupted; Chunk (String newline "bc"); ReadFailed; Chunk "d"] in
  collect_lines reads = (mkCollected ["a"; "bc"] 0, "a" +:+ String newline "bc") ∧
  keeps_newest ["a"; "bc"] ["a"; "bc"].
Proof.
  intros reads.
  assert (collect_lines reads = (mkCollected ["a"; "bc"] 0, "a" +:+ String newline "bc")) as Hr by (vm_compute; reflexivity).
  split; [exact Hr|].
  assert (clip <$> raw_lines (text_of reads) = ["a"; "bc"]) as Hall by (vm_compute; reflexivity).
  rewrite <-Hall at 1. exact (proj1 (proj2 (collect_lines_spec reads _ _ Hr))).
Defined.
