(* ===== verification/LogIO.v ===== *)
(** The log hub and the machine: opening its terminals, notes before it exists, the
    threads that copy the output of a service into it ([logs.rs]) and the bridge of
    the [log] crate ([log_bridge.rs]). *)

From Stdlib Require Import Ascii.
From S2P Require Import Prelude Constants RustStr Utf8 Protocol Logs World Logic EarlyBoot.
#[local] Open Scope stdpp_scope.

Section hub.
Context `{Host}.

(** [open_tty] *)
Definition open_tty (path : string) : M bool :=
  opened ← fs_open path false;
  if opened : bool then mret true else fs_open path true.

(** [Option::and_then(open_tty)] *)
Definition and_then_open (tty : option string) : M bool :=
  match tty with Some path => open_tty path | None => mret false end.

(** [LogHub::new] *)
Definition log_hub_new (capacity : nat) (service_tty init_tty log_dir : option string) : M LogHub :=
  (match log_dir with Some dir => fs_mkdirs dir ≫= λ _, mret tt | None => mret tt end);;
  service ← and_then_open service_tty;
  init ← and_then_open init_tty;
  mret (hub_new capacity service init log_dir).

(** [boot_note] *)
Definition boot_note (init_logs_tty : option string) (msg : string) : M unit :=
  let line := "microinit: " +:+ msg in
  effect (EvStderr line);;
  match init_logs_tty with
  | Some path =>
      opened ← open_tty path;
      if opened : bool then effect (EvBootNote path line) else mret tt
  | None => mret tt
  end.

(** ** Copying a pipe: [capture_stream] *)

(** The lines completed by the bytes, after those of the line begun, and the line
    begun then; without line ends. *)
Fixpoint take_lines (cur bytes : string) : list string * string :=
  match bytes with
  | "" => ([], cur)
  | String b bytes =>
      if decide (b = newline) then
        let '(ls, rest) := take_lines "" bytes in (cur :: ls, rest)
      else take_lines (cur +:+ String b "") bytes
  end.

(** Log completed lines, until one is not UTF-8: whether there was none. *)
Fixpoint emit_raw (service : string) (level : LogLevel.t) (raws : list string) : M bool :=
  match raws with
  | [] => mret true
  | raw :: raws =>
      match from_utf8 (strip_cr raw) with
      | Some msg => emit service level msg;; emit_raw service level raws
      | None => mret false
      end
  end.

(** The loop over [BufRead::lines] with the line begun; a line at the end of the pipe
    need not be terminated. *)
Fixpoint capture_lines (service : string) (level : LogLevel.t) (cur : string) (reads : list ReadAnswer) :
    M unit :=
  let finish :=
    if decide (cur = "") then mret tt
    else match from_utf8 cur with Some msg => emit service level msg | None => mret tt end in
  match reads with
  | [] => finish
  | Chunk bytes :: reads =>
      if decide (bytes = "") then finish
      else
        let '(raws, cur) := take_lines cur bytes in
        go_on ← emit_raw service level raws;
        if go_on : bool then capture_lines service level cur reads else mret tt
  | ReadInterrupted :: reads => capture_lines service level cur reads
  | ReadFailed :: _ => mret tt
  end.

(** The thread of [capture_stream]; [reads] is what reading the pipe gives. *)
Definition capture_stream (service : string) (level : LogLevel.t) (reads : list ReadAnswer) : M unit :=
  capture_lines service level "" reads.

(** ** The bridge *)

(** [log::Level] *)
Inductive CrateLevel := CrateError | CrateWarn | CrateInfo | CrateDebug | CrateTrace.

(** [Bridge::enabled] *)
Definition bridge_enabled (level : CrateLevel) (target : string) : bool :=
  match level with CrateError | CrateWarn | CrateInfo => true | CrateDebug | CrateTrace => false end
  && starts_with "bigfred_shared_daemon" target.

Definition crate_level (level : CrateLevel) : LogLevel.t :=
  match level with
  | CrateError => LogLevel.Error
  | CrateWarn => LogLevel.Warn
  | _ => LogLevel.Info
  end.

(** [Bridge::log] *)
Definition bridge_log (level : CrateLevel) (target msg : string) : M unit :=
  if negb (bridge_enabled level target) then mret tt
  else
    hub ← reads sh_bridge;
    if hub : bool then emit INIT_SERVICE (crate_level level) msg
    else effect (EvStderr ("microinit: " +:+ msg)).

(** [set_hub] *)
Definition bridge_set_hub : M unit := updates (set_bridge true).

(** ** What is captured *)

(** The lines before the first that is not UTF-8. *)
Fixpoint valid_prefix (raws : list string) : list string :=
  match raws with
  | [] => []
  | raw :: raws =>
      match from_utf8 raw with Some msg => msg :: valid_prefix raws | None => [] end
  end.

(** Whether reading ends without a failure. *)
Fixpoint reads_end (reads : list ReadAnswer) : bool :=
  match reads with
  | [] | Chunk "" :: _ => true
  | ReadFailed :: _ => false
  | _ :: reads => reads_end reads
  end.

(** The messages of a text: its lines, and what follows the last line end when the
    pipe ended there. *)
Definition messages (cur : string) (ended : bool) (text : string) : list string :=
  let '(raws, rest) := take_lines cur text in
  valid_prefix ((strip_cr <$> raws) ++ (if ended && bool_decide (rest ≠ "") then [rest] else [])).

Lemma take_lines_app cur s t :
  take_lines cur (s +:+ t) =
  let '(ls, rest) := take_lines cur s in let '(ls', rest') := take_lines rest t in (ls ++ ls', rest').
Proof.
  revert cur. induction s as [|b s IH]; intros cur.
  { change ("" +:+ t) with t. cbn [take_lines]. by destruct (take_lines cur t). }
  cbn [take_lines]. change (String b s +:+ t) with (String b (s +:+ t)). cbn [take_lines].
  case_decide; [|apply IH]. rewrite IH. destruct (take_lines "" s) as [ls rest]. by destruct (take_lines rest t).
Qed.

(** Logging the messages of lines that end with some more. *)
Lemma emit_raw_then service level raws more (k : M unit) w :
  (∀ w, k w = for_each_m (valid_prefix more) (emit service level) w) →
  (go_on ← emit_raw service level raws; if go_on : bool then k else mret tt) w
  = for_each_m (valid_prefix ((strip_cr <$> raws) ++ more)) (emit service level) w.
Proof.
  intros Hk. revert w. induction raws as [|raw raws IH]; intros w; simpl; [apply Hk|].
  unfold mbind, M_bind in *. destruct (from_utf8 (strip_cr raw)) as [msg|]; [|reflexivity]. simpl.
  destruct (emit service level msg w) as [[[]|] w1]; [|done]. apply IH.
Qed.

Lemma capture_lines_spec service level reads : ∀ cur w,
  capture_lines service level cur reads w
  = for_each_m (messages cur (reads_end reads) (text_of reads)) (emit service level) w.
Proof.
  assert (∀ cur w,
    (if decide (cur = "") then mret tt
     else match from_utf8 cur with Some msg => emit service level msg | None => mret tt end) w
    = for_each_m (messages cur true "") (emit service level) w) as Hfinish.
  { intros cur w. unfold messages. simpl. case_decide as Hc; [by subst|].
    rewrite bool_decide_eq_true_2 by done. simpl. destruct (from_utf8 cur) as [msg|]; [|done]. simpl.
    unfold mbind, M_bind. by destruct (emit service level msg w) as [[[]|] ?]. }
  induction reads as [|[bytes| |] reads IH]; intros cur w; cbn [capture_lines].
  - apply Hfinish.
  - destruct bytes as [|b bytes]; [apply Hfinish|]. rewrite decide_False by done.
    cbn [reads_end text_of]. set (chunk := String b bytes). unfold messages. rewrite take_lines_app.
    destruct (take_lines cur chunk) as [raws rest]. specialize (IH rest). unfold messages in IH.
    destruct (take_lines rest (text_of reads)) as [raws' rest']. rewrite fmap_app, <-(assoc_L (++)).
    by apply emit_raw_then.
  - apply IH.
  - unfold messages. simpl. by destruct (take_lines cur "") eqn:He; simpl in He; injection He as <- <-.
Qed.

(** C18: Capturing the output of a service logs its lines in order, without their ends,
    however the pipe splits them, and a last line without an end; it stops for good at
    the first line that is not UTF-8 and where reading fails. *)
Theorem capture_stream_spec service level reads w :
  capture_stream service level reads w
  = for_each_m (messages "" (reads_end reads) (text_of reads)) (emit service level) w.
Proof. apply capture_lines_spec. Qed.
End hub.

(** The second line ends the capture. *)
Example capture_example :
  messages "" true ("one" +:+ bytes [13; 10; 255; 10; 50]%N) = ["one"].
Proof. vm_compute. reflexivity. Qed.
