(* ===== verification/Version.v ===== *)
(** The version section of the executable: [version.rs].

    [usize] has 64 bits.  The build checks additions for overflow, so an addition
    without [checked_add] that does not fit panics, and a panic aborts. *)

From Stdlib Require Import Ascii.
From S2P Require Import Prelude RustStr Utf8 Error Security Config World.
#[local] Open Scope stdpp_scope.

Definition SECTION_NAME : string := ".microinit.version".

Definition usize_max : N := u64_max.

(** ** Lookups

    The result of code that may leave with [?] on [None], or panic. *)

Inductive lookup_result (A : Type) := Found (a : A) | Absent | Panics.
Arguments Found {A} a.
Arguments Absent {A}.
Arguments Panics {A}.

#[export] Instance lookup_ret : MRet lookup_result := λ A a, Found a.
#[export] Instance lookup_bind : MBind lookup_result := λ A B f m,
  match m with Found a => f a | Absent => Absent | Panics => Panics end.

Definition or_absent {A} (o : option A) : lookup_result A :=
  match o with Some a => Found a | None => Absent end.

(** [+], [checked_add] and [checked_mul] on [usize]. *)
Definition plain_add (a b : N) : lookup_result N :=
  if decide (a + b ≤ usize_max)%N then Found (a + b)%N else Panics.
Definition checked_add (a b : N) : lookup_result N :=
  if decide (a + b ≤ usize_max)%N then Found (a + b)%N else Absent.
Definition checked_mul (a b : N) : lookup_result N :=
  if decide (a * b ≤ usize_max)%N then Found (a * b)%N else Absent.

Definition byte_len (s : string) : N := N.of_nat (String.length s).

(** [data.get(a..b)] and [data.get(a..)] *)
Definition slice (data : string) (a b : N) : lookup_result string :=
  if decide (a ≤ b ∧ b ≤ byte_len data)%N
  then Found (String.substring (N.to_nat a) (N.to_nat (b - a)) data) else Absent.
Definition slice_from (data : string) (a : N) : lookup_result string := slice data a (byte_len data).

(** ** Numbers *)

Fixpoint le_value (s : string) : N :=
  match s with "" => 0 | String c s => byte_val c + 256 * le_value s end.
Fixpoint be_value_from (acc : N) (s : string) : N :=
  match s with "" => acc | String c s => be_value_from (256 * acc + byte_val c) s end.

Definition uint_at (width : N) (data : string) (off : N) (le : bool) : lookup_result N :=
  stop ← plain_add off width;
  b ← slice data off stop;
  mret (if le then le_value b else be_value_from 0 b).

Definition u16_at : string → N → bool → lookup_result N := uint_at 2.
Definition u32_at : string → N → bool → lookup_result N := uint_at 4.
Definition u64_at : string → N → bool → lookup_result N := uint_at 8.

(** ** Sections *)

Fixpoint before_nul (s : string) : string :=
  match s with
  | "" => ""
  | String c s => if decide (byte_val c = 0%N) then "" else String c (before_nul s)
  end.

Definition cstr_at (data : string) (off : N) : lookup_result string :=
  s ← slice_from data off;
  or_absent (from_utf8 (before_nul s)).

(** What differs between [elf64_section] and [elf32_section]. *)
Record ElfLayout := mkElfLayout {
  el_word_at : string → N → bool → lookup_result N;
  el_shoff : N;
  el_shentsize : N;
  el_shnum : N;
  el_shstrndx : N;
  el_min_entsize : N;
  el_offset : N;
  el_size : N;
}.

Definition elf64_layout : ElfLayout := mkElfLayout u64_at 40 58 60 62 64 24 32.
Definition elf32_layout : ElfLayout := mkElfLayout u32_at 32 46 48 50 40 16 20.

Section elf.
Context (layout : ElfLayout) (data : string) (le : bool).

(** A field of the section header at [hdr]. *)
Definition header_field (hdr off : N) : lookup_result N :=
  at_ ← plain_add hdr off; el_word_at layout data at_ le.

(** The bytes of the section whose header is at [hdr]. *)
Definition section_bytes (hdr : N) : lookup_result string :=
  offset ← header_field hdr (el_offset layout);
  size ← header_field hdr (el_size layout);
  stop ← checked_add offset size;
  slice data offset stop.

(** The loop over the section headers, [n] of them left. *)
Fixpoint find_section (name strtab : string) (shoff shentsize : N) (n : nat) (i : N) :
    lookup_result string :=
  match n with
  | O => Absent
  | S n =>
      rel ← checked_mul i shentsize;
      hdr ← checked_add shoff rel;
      name_off ← u32_at data hdr le;
      sec_name ← cstr_at strtab name_off;
      if decide (sec_name = name) then section_bytes hdr
      else find_section name strtab shoff shentsize n (i + 1)
  end.

Definition elf_section (name : string) : lookup_result string :=
  shoff ← el_word_at layout data (el_shoff layout) le;
  shentsize ← u16_at data (el_shentsize layout) le;
  shnum ← u16_at data (el_shnum layout) le;
  shstrndx ← u16_at data (el_shstrndx layout) le;
  if decide (shentsize < el_min_entsize layout ∨ shnum = 0 ∨ shnum ≤ shstrndx)%N then Absent
  else
    rel ← checked_mul shstrndx shentsize;
    str_hdr ← checked_add shoff rel;
    strtab ← section_bytes str_hdr;
    find_section name strtab shoff shentsize (N.to_nat shnum) 0.
End elf.

Definition elf64_section : string → bool → string → lookup_result string := elf_section elf64_layout.
Definition elf32_section : string → bool → string → lookup_result string := elf_section elf32_layout.

Definition ELF_MAGIC : string := bytes [127; 69; 76; 70]%N.

Definition byte_at (s : string) (n : nat) : N :=
  match String.get n s with Some c => byte_val c | None => 0%N end.

Definition elf_section_data (data name : string) : lookup_result string :=
  if decide (byte_len data < 16)%N then Absent
  else if negb (starts_with ELF_MAGIC data) then Absent
  else
    let endian := byte_at data 5 in
    let le := bool_decide (endian = 1%N) in
    if negb le && bool_decide (endian ≠ 2%N) then Absent
    else if decide (byte_at data 4 = 1%N) then elf32_section data le name
    else if decide (byte_at data 4 = 2%N) then elf64_section data le name
    else Absent.

(** ** Version information *)

(** The build environment, the paths of the executable and of the loaded library,
    and the JSON payload of the section. *)
Class VersionEnv := {
  git_commit : option string;
  build_time : option string;
  current_exe : result string string;
  loaded_library_path : option string;
  parse_payload : string → result (string * string) string;
}.

Section info.
Context `{Host, VersionEnv}.

(** The version and commit in the bytes of a section. *)
Definition section_version (raw : string) : option (string * string) :=
  if decide (raw = "") then None
  else match parse_payload raw with
  | Ok (version, commit) =>
      let v := trim version in
      let c := trim commit in
      if decide (v = "" ∧ c = "") then None else Some (v, c)
  | Err _ =>
      let v := trim (from_utf8_lossy raw) in
      if decide (v = "") then None else Some (v, "")
  end.

(** [read_section_from] *)
Definition read_section_from (path : string) : M (option (string * string)) :=
  r ← fs_read path;
  match r with
  | Err _ => mret None
  | Ok data =>
      match elf_section_data data SECTION_NAME with
      | Found raw => mret (section_version raw)
      | Absent => mret None
      | Panics => no_return
      end
  end.

(** [binary_paths_for_version] *)
Definition binary_paths_for_version : list string :=
  let paths := match current_exe with Ok p => [p] | Err _ => [] end in
  match loaded_library_path with
  | Some p => if decide (p ∈ paths) then paths else paths ++ [p]
  | None => paths
  end.

(** The loop of [load]. *)
Fixpoint load_from (paths : list string) (out : Info) : M Info :=
  match paths with
  | [] => mret out
  | path :: paths =>
      r ← read_section_from path;
      match r with
      | None => load_from paths out
      | Some (v, c) =>
          let out := mkInfo (if decide (v = "") then vi_version out else v)
                            (if decide (c = "") then vi_tag_commit out else c)
                            (vi_build_commit out) (vi_build_time out) in
          if decide (vi_version out ≠ "" ∧ vi_version out ≠ "dev") then mret out
          else load_from paths out
      end
  end.

(** [load] *)
Definition version_load : M Info :=
  load_from binary_paths_for_version
    (mkInfo "dev" "" (default "unknown" git_commit) (default "" build_time)).

(** [info]: the version is loaded once. *)
Definition version_info : M Info :=
  cached ← reads sh_version;
  match cached with
  | Some i => mret i
  | None =>
      i ← version_load;
      atomic (λ s, match sh_version s with
                   | Some i => (i, s)
                   | None => (i, set_version (Some i) s)
                   end)
  end.

(** [hostname] *)
Definition hostname : M string :=
  r ← fs_read "/proc/sys/kernel/hostname";
  r ← match r with Ok s => mret (Ok s) | Err _ => fs_read "/etc/hostname" end;
  mret (match r with
        | Ok s => if decide (trim s = "") then "unknown" else trim s
        | Err _ => "unknown"
        end).
End info.

(** ** Lemmas *)

Lemma byte_len_app a b : byte_len (a +:+ b) = (byte_len a + byte_len b)%N.
Proof. unfold byte_len. rewrite length_string_app. lia. Qed.

Lemma substring_app_l n a b : n ≤ String.length a → String.substring 0 n (a +:+ b) = String.substring 0 n a.
Proof.
  revert a. induction n as [|n IH]; intros [|c a] Hn; simpl in Hn; try lia.
  - by destruct b.
  - done.
  - change (String c a +:+ b) with (String c (a +:+ b)). simpl. rewrite IH; [done|lia].
Qed.

Lemma substring_shift a b m n : String.substring (String.length a + m) n (a +:+ b) = String.substring m n b.
Proof. induction a as [|c a IH]; [done|]. exact IH. Qed.

Lemma substring_all a : String.substring 0 (String.length a) a = a.
Proof. induction a as [|c a IH]; [done|]. simpl. by rewrite IH. Qed.

Lemma substring_inside a b m n :
  m + n ≤ String.length a → String.substring m n (a +:+ b) = String.substring m n a.
Proof.
  revert m. induction a as [|c a IH]; intros m Hm; simpl in Hm.
  - assert (m = 0) as -> by lia. assert (n = 0) as -> by lia. by destruct b.
  - change (String c a +:+ b) with (String c (a +:+ b)). destruct m as [|m].
    + destruct n as [|n]; [done|]. simpl. rewrite substring_app_l; [done|lia].
    + simpl. apply IH. lia.
Qed.

Lemma found_bind {A B} (a : A) (k : A → lookup_result B) : (Found a ≫= k) = k a.
Proof. done. Qed.
Lemma checked_add_ok a b : (a + b ≤ usize_max)%N → checked_add a b = Found (a + b)%N.
Proof. intros Hab. unfold checked_add. by rewrite decide_True. Qed.
Lemma checked_mul_ok a b : (a * b ≤ usize_max)%N → checked_mul a b = Found (a * b)%N.
Proof. intros Hab. unfold checked_mul. by rewrite decide_True. Qed.

(** A slice of the first part of a file. *)
Lemma slice_inside a b m n s : slice a m n = Found s → slice (a +:+ b) m n = Found s.
Proof.
  unfold slice. rewrite byte_len_app. case_decide as Ha; [|done]. intros [= <-].
  rewrite decide_True by lia. f_equal. apply substring_inside. unfold byte_len in Ha. lia.
Qed.

(** The slice that a part of a file is. *)
Lemma slice_part a b c :
  slice (a +:+ b +:+ c) (byte_len a) (byte_len a + byte_len b) = Found b.
Proof.
  unfold slice. rewrite !byte_len_app. rewrite decide_True by lia. f_equal.
  replace (byte_len a + byte_len b - byte_len a)%N with (byte_len b) by lia.
  unfold byte_len. rewrite !Nat2N.id. rewrite <-(Nat.add_0_r (String.length a)), substring_shift.
  rewrite substring_app_l by done. apply substring_all.
Qed.

(** A number of the given width, in either byte order. *)
Fixpoint le_bytes (width : nat) (n : N) : string :=
  match width with O => "" | S width => String (ascii_of_N (n mod 256)) (le_bytes width (n / 256)) end.
Definition write_uint (width : nat) (le : bool) (n : N) : string :=
  if le then le_bytes width n else String.rev (le_bytes width n).

Lemma le_bytes_len width n : String.length (le_bytes width n) = width.
Proof. revert n. induction width as [|w IH]; intros n; simpl; [done|]. by rewrite IH. Qed.

Lemma byte_val_of_N n : (n < 256)%N → byte_val (ascii_of_N n) = n.
Proof. apply N_ascii_embedding. Qed.

Lemma le_value_bytes width n : (n < 256 ^ N.of_nat width)%N → le_value (le_bytes width n) = n.
Proof.
  revert n. induction width as [|w IH]; intros n Hn; cbn [le_bytes le_value].
  - simpl in Hn. lia.
  - rewrite byte_val_of_N by (apply N.mod_lt; lia). rewrite IH.
    + pose proof (N.div_mod n 256). lia.
    + rewrite Nat2N.inj_succ, N.pow_succ_r' in Hn. apply N.Div0.div_lt_upper_bound. lia.
Qed.

Lemma be_value_app acc a b : be_value_from acc (a +:+ b) = be_value_from (be_value_from acc a) b.
Proof. revert acc. induction a as [|c a IH]; intros acc; [done|]. apply IH. Qed.

Lemma be_value_rev s acc :
  be_value_from acc (String.rev s) = (acc * 256 ^ N.of_nat (String.length s) + le_value s)%N.
Proof.
  induction s as [|c s IH]; cbn [String.length le_value].
  - change (be_value_from acc (String.rev "")) with acc. simpl. lia.
  - change (String.rev (String c s)) with (String.rev_app s (String c "")).
    rewrite rev_app_acc, be_value_app, IH. cbn [be_value_from].
    rewrite Nat2N.inj_succ, N.pow_succ_r'. lia.
Qed.

Definition read_uint (le : bool) (s : string) : N := if le then le_value s else be_value_from 0 s.

Lemma read_write_uint width le n :
  (n < 256 ^ N.of_nat width)%N → read_uint le (write_uint width le n) = n.
Proof.
  intros Hn. destruct le; simpl; [by apply le_value_bytes|]. rewrite be_value_rev, le_value_bytes by done. lia.
Qed.

Lemma string_rev_length s : String.length (String.rev s) = String.length s.
Proof.
  induction s as [|c s IH]; [done|]. change (String.rev (String c s)) with (String.rev_app s (String c "")).
  rewrite rev_app_acc, length_string_app, IH. simpl. lia.
Qed.

Lemma write_uint_len width le n : byte_len (write_uint width le n) = N.of_nat width.
Proof. unfold byte_len. destruct le; simpl; by rewrite ?string_rev_length, le_bytes_len. Qed.

(** Reading a number where it was written. *)
Lemma uint_at_written width (le : bool) a n c :
  (n < 256 ^ N.of_nat width)%N → (byte_len a + N.of_nat width ≤ usize_max)%N →
  uint_at (N.of_nat width) (a +:+ write_uint width le n +:+ c) (byte_len a) le = Found n.
Proof.
  intros Hn Ha. unfold uint_at, plain_add. rewrite decide_True by done. simpl.
  rewrite <-(write_uint_len width le n), slice_part. simpl.
  f_equal. by apply (read_write_uint width le n).
Qed.

(** Reading a number of the first part of a file. *)
Lemma uint_at_inside width a b off le n :
  uint_at width a off le = Found n → uint_at width (a +:+ b) off le = Found n.
Proof.
  unfold uint_at. destruct (plain_add off width) as [stop| |]; simpl; try done.
  destruct (slice a off stop) as [s| |] eqn:Hs; simpl; try done.
  by rewrite (slice_inside _ _ _ _ _ Hs).
Qed.

(** Zero bytes. *)
Definition zeros (n : N) : string := bytes (replicate (N.to_nat n) 0%N).

(** ** Panics *)

Lemma bind_Panics {A B} (m : lookup_result A) (k : A → lookup_result B) :
  (m ≫= k) = Panics → m = Panics ∨ ∃ a, m = Found a ∧ k a = Panics.
Proof. destruct m as [a| |]; simpl; [right; eauto|done|by left]. Qed.

Lemma slice_no_panic data a b : slice data a b ≠ Panics.
Proof. unfold slice. by case_decide. Qed.

Lemma uint_at_panics width data off le : uint_at width data off le = Panics → (usize_max < off + width)%N.
Proof.
  unfold uint_at. intros [H|(stop & _ & [Hs|(b & _ & ?)]%bind_Panics)]%bind_Panics.
  - unfold plain_add in H. case_decide; [done|lia].
  - by apply slice_no_panic in Hs.
  - done.
Qed.

Lemma cstr_at_no_panic data off : cstr_at data off ≠ Panics.
Proof.
  unfold cstr_at. intros [Hs|(s & _ & Hs)]%bind_Panics; [by apply slice_no_panic in Hs|].
  by destruct (from_utf8 _).
Qed.

Lemma checked_no_panic a b : checked_add a b ≠ Panics ∧ checked_mul a b ≠ Panics.
Proof. unfold checked_add, checked_mul. split; by case_decide. Qed.

Lemma checked_Found a b c :
  (checked_add a b = Found c → c = a + b)%N ∧ (checked_mul a b = Found c → c = a * b)%N.
Proof. unfold checked_add, checked_mul. split; case_decide; by intros [= <-]. Qed.

(** The layouts of the two classes: fields are at most eight bytes wide and in the
    first 64 bytes of the file or of a section header. *)
Definition layout_wf (layout : ElfLayout) : Prop :=
  (∃ width, el_word_at layout = uint_at width ∧
     el_offset layout + width ≤ 64 ∧ el_size layout + width ≤ 64 ∧ el_shoff layout + width ≤ 64)%N ∧
  (el_shentsize layout ≤ 62 ∧ el_shnum layout ≤ 62 ∧ el_shstrndx layout ≤ 62)%N.

Section panics.
Context (layout : ElfLayout) (data : string) (le : bool) (Hwf : layout_wf layout).

Lemma section_bytes_panics hdr : section_bytes layout data le hdr = Panics → (usize_max < hdr + 64)%N.
Proof.
  destruct Hwf as [(width & Hw & Ho & Hs & _) _].
  assert (∀ off, (off + width ≤ 64)%N → header_field layout data le hdr off = Panics → usize_max < hdr + 64)%N as Hf.
  { intros off Hoff. unfold header_field. rewrite Hw. intros [H|(a & Ha & H)]%bind_Panics.
    - unfold plain_add in H. case_decide; [done|lia].
    - apply uint_at_panics in H. unfold plain_add in Ha. case_decide; [|done]. injection Ha as <-. lia. }
  unfold section_bytes.
  intros [H|(o & _ & [H|(sz & _ & [H|(stop & _ & H)]%bind_Panics)]%bind_Panics)]%bind_Panics.
  - by apply Hf in H.
  - by apply Hf in H.
  - by apply checked_no_panic in H.
  - by apply slice_no_panic in H.
Qed.

Lemma find_section_panics name strtab shoff entsize n i :
  find_section layout data le name strtab shoff entsize n i = Panics →
  ∃ j, (i ≤ j < i + N.of_nat n ∧ usize_max < shoff + j * entsize + 64)%N.
Proof.
  revert i. induction n as [|n IH]; intros i; cbn [find_section]; [done|].
  intros [H|(rel & Hrel & [H|(hdr & Hhdr & H)]%bind_Panics)]%bind_Panics.
  - by apply checked_no_panic in H.
  - by apply checked_no_panic in H.
  - apply checked_Found in Hrel as ->. apply checked_Found in Hhdr as ->.
    apply bind_Panics in H as [H|(name_off & _ & [H|(nm & _ & H)]%bind_Panics)].
    + apply uint_at_panics in H. exists i. lia.
    + by apply cstr_at_no_panic in H.
    + case_decide.
      * apply section_bytes_panics in H. exists i. lia.
      * apply IH in H as (j & Hj & Ho). exists j. lia.
Qed.

(** The section header table of the file ends beyond the address space. *)
Definition table_overflows : Prop :=
  ∃ shoff entsize shnum,
    el_word_at layout data (el_shoff layout) le = Found shoff ∧
    u16_at data (el_shentsize layout) le = Found entsize ∧
    u16_at data (el_shnum layout) le = Found shnum ∧
    (usize_max < shoff + shnum * entsize + 64)%N.

Lemma elf_section_panics name : elf_section layout data le name = Panics → table_overflows.
Proof.
  pose proof Hwf as [(width & Hw & _ & _ & Hso) (He & Hn & Hx)].
  assert (∀ w off, (off + w ≤ 64)%N → uint_at w data off le ≠ Panics) as Hno.
  { intros w off Hoff H%uint_at_panics. unfold usize_max, u64_max in H. lia. }
  unfold elf_section. intros [H|(shoff & Hshoff & H)]%bind_Panics.
  { rewrite Hw in H. by apply Hno in H. }
  apply bind_Panics in H as [H|(entsize & Hent & H)]; [apply Hno in H; [done|lia]|].
  apply bind_Panics in H as [H|(shnum & Hnum & H)]; [apply Hno in H; [done|lia]|].
  apply bind_Panics in H as [H|(strndx & _ & H)]; [apply Hno in H; [done|lia]|].
  case_decide as Hbad; [done|]. apply Decidable.not_or in Hbad as [_ [_ Hlt]%Decidable.not_or].
  exists shoff, entsize, shnum. split_and!; [done..|].
  apply bind_Panics in H as [H|(rel & Hrel & H)]; [by apply checked_no_panic in H|].
  apply bind_Panics in H as [H|(hdr & Hhdr & H)]; [by apply checked_no_panic in H|].
  apply checked_Found in Hrel as ->. apply checked_Found in Hhdr as ->.
  apply bind_Panics in H as [H|(strtab & _ & H)].
  - apply section_bytes_panics in H. assert (strndx * entsize ≤ shnum * entsize)%N by (apply N.mul_le_mono_r; lia). lia.
  - apply find_section_panics in H as (j & Hj & Ho).
    assert (j * entsize ≤ shnum * entsize)%N by (apply N.mul_le_mono_r; lia). lia.
Qed.
End panics.

Lemma elf64_layout_wf : layout_wf elf64_layout.
Proof. split; [exists 8%N; split; [reflexivity|]|]; simpl; lia. Qed.
Lemma elf32_layout_wf : layout_wf elf32_layout.
Proof. split; [exists 4%N; split; [reflexivity|]|]; simpl; lia. Qed.

(** A file of 64 bytes whose section headers start at the end of the address space. *)
Definition overflowing_file : string :=
  ELF_MAGIC +:+ bytes [2; 1]%N +:+ zeros 34 +:+ write_uint 8 true usize_max +:+ zeros 10 +:+
  write_uint 2 true 64 +:+ write_uint 2 true 1 +:+ write_uint 2 true 0.

(** ** Properties *)

(** C37: Looking up a section panics only in an ELF file whose section header table
    ends beyond the address space (the additions to a header's position are not
    checked), and there is such a file of 64 bytes. *)
Theorem elf_section_panics_bound data name :
  (elf_section_data data name = Panics →
     ∃ le, table_overflows elf64_layout data le ∨ table_overflows elf32_layout data le) ∧
  (byte_len overflowing_file = 64%N ∧ elf_section_data overflowing_file name = Panics).
Proof.
  split.
  - unfold elf_section_data. repeat case_match; try done; intros Hp; eexists.
    + right. by eapply elf_section_panics; [apply elf32_layout_wf|].
    + left. by eapply elf_section_panics; [apply elf64_layout_wf|].
  - split; [vm_compute; reflexivity|]. unfold elf_section_data.
    change (elf64_section overflowing_file true name = Panics). unfold elf64_section, elf_section.
    vm_compute. reflexivity.
Qed.
