(* ===== verification/ElfFile.v ===== *)
(** Executables as the ELF format has them, and the lookup of a section in one
    ([version.rs]).

    The files are written from the format's own tables of fields ([Elf32_Ehdr],
    [Elf64_Ehdr] and the section headers), not from the offsets that the lookup reads. *)

From Stdlib Require Import Ascii.
From S2P Require Import Prelude RustStr Utf8 Version.
#[local] Open Scope stdpp_scope.

(** ** The format *)

(** A field: its size in bytes and its value. *)
Definition Field : Type := nat * N.

(** What the format leaves to the linker: of the file and of a section. *)
Record ElfHeader := mkElfHeader {
  e_osabi : N; e_type : N; e_machine : N; e_version : N; e_entry : N; e_phoff : N; e_flags : N;
  e_phentsize : N; e_phnum : N;
}.

Record ElfSection := mkElfSection {
  es_name : string; es_data : string;
  sh_type : N; sh_flags : N; sh_addr : N; sh_link : N; sh_info : N; sh_addralign : N; sh_entsize : N;
}.

Section format.
Context (class64 le : bool).

(** The size of an address or an offset. *)
Definition word : nat := if class64 then 8 else 4.

Fixpoint joined (l : list string) : string := match l with [] => "" | s :: l => s +:+ joined l end.

(** Consecutive fields. *)
Fixpoint fields (l : list Field) : string :=
  match l with [] => "" | (size, value) :: l => write_uint size le value +:+ fields l end.

Definition fields_size (l : list Field) : nat := sum_list_with fst l.

(** [e_ident]: the magic, the class, the byte order, the version, the ABI and padding. *)
Definition e_ident (h : ElfHeader) : list Field :=
  [(1, 127%N); (1, 69%N); (1, 76%N); (1, 70%N); (1, if class64 then 2%N else 1%N); (1, if le then 1%N else 2%N);
   (1, 1%N); (1, e_osabi h)] ++ replicate 8 (1, 0%N).

(** A section header, for the offsets of the name and of the contents. *)
Definition section_header (s : ElfSection) (name offset : N) : list Field :=
  [(4, name); (4, sh_type s); (word, sh_flags s); (word, sh_addr s); (word, offset); (word, byte_len (es_data s));
   (4, sh_link s); (4, sh_info s); (word, sh_addralign s); (word, sh_entsize s)].

Definition null_section : ElfSection := mkElfSection "" "" 0 0 0 0 0 0 0.
Definition shentsize : nat := fields_size (section_header null_section 0 0).

(** The file header, for the offset of the section headers, how many they are, and
    which is that of the names. *)
Definition file_header (h : ElfHeader) (shoff shnum shstrndx : N) : list Field :=
  e_ident h ++
  [(2, e_type h); (2, e_machine h); (4, e_version h); (word, e_entry h); (word, e_phoff h); (word, shoff); (4, e_flags h);
   (2, N.of_nat (40 + 3 * word)); (2, e_phentsize h); (2, e_phnum h); (2, N.of_nat shentsize); (2, shnum); (2, shstrndx)].

(** The names, each with a NUL after it, and the contents. *)
Definition names_of (l : list ElfSection) : string := joined ((λ s, es_name s +:+ bytes [0%N]) <$> l).
Definition contents (l : list ElfSection) : string := joined (es_data <$> l).

(** Their headers, from these offsets on. *)
Fixpoint headers (name offset : N) (l : list ElfSection) : string :=
  match l with
  | [] => ""
  | s :: l =>
      fields (section_header s name offset) +:+
      headers (name + byte_len (es_name s) + 1) (offset + byte_len (es_data s)) l
  end.

(** The sections of a file that has these: before them the null section, after them
    the one with the names. *)
Definition shstrtab (sections : list ElfSection) : ElfSection :=
  mkElfSection ".shstrtab"
    (names_of (null_section :: sections) +:+ ".shstrtab" +:+ bytes [0%N]) 3 0 0 0 0 1 0.
Definition all_sections (sections : list ElfSection) : list ElfSection := sections ++ [shstrtab sections].

(** A file: the header, anything (the program headers), the contents and the section
    headers. *)
Definition elf_file (h : ElfHeader) (segments : string) (sections : list ElfSection) : string :=
  let l := all_sections sections in
  let start := (N.of_nat (40 + 3 * word) + byte_len segments)%N in
  fields (file_header h (start + byte_len (contents l)) (N.of_nat (S (length l))) (N.of_nat (length l))) +:+
  segments +:+ contents l +:+ fields (section_header null_section 0 0) +:+ headers 1 start l.
End format.

(** ** Reading it *)

Lemma fields_len le l : byte_len (fields le l) = N.of_nat (fields_size l).
Proof.
  induction l as [|[size v] l IH]; [done|]. simpl. rewrite byte_len_app, write_uint_len, IH. unfold fields_size; simpl. lia.
Qed.

Lemma fields_app le l1 l2 : fields le (l1 ++ l2) = fields le l1 +:+ fields le l2.
Proof. induction l1 as [|[size v] l1 IH]; [done|]. simpl. by rewrite IH, string_app_assoc. Qed.

Lemma fields_size_app l1 l2 : fields_size (l1 ++ l2) = fields_size l1 + fields_size l2.
Proof. apply sum_list_with_app. Qed.

(** A field is read where the fields before it end. *)
Lemma field_at le a l c k size v :
  l !! k = Some (size, v) → (v < 256 ^ N.of_nat size)%N → (byte_len a + N.of_nat (fields_size l) ≤ usize_max)%N →
  uint_at (N.of_nat size) (a +:+ fields le l +:+ c) (byte_len a + N.of_nat (fields_size (take k l))) le = Found v.
Proof.
  intros Hk Hv Hlen. pose proof (take_drop_middle l k _ Hk) as Hl.
  assert (fields le l = fields le (take k l) +:+ write_uint size le v +:+ fields le (drop (S k) l)) as ->
    by (rewrite <-Hl at 1; apply fields_app).
  assert (fields_size l = fields_size (take k l) + (size + fields_size (drop (S k) l))) as Hsize
    by (rewrite <-Hl at 1; apply fields_size_app).
  rewrite !string_app_assoc, <-(string_app_assoc a).
  rewrite <-(fields_len le), <-byte_len_app. apply uint_at_written; [done|]. rewrite byte_len_app, fields_len. lia.
Qed.

Definition layout_of (class64 : bool) : ElfLayout := if class64 then elf64_layout else elf32_layout.

Lemma word_at class64 : el_word_at (layout_of class64) = uint_at (N.of_nat (word class64)).
Proof. by destruct class64. Qed.

Lemma small_word class64 v : (v < 2 ^ 32)%N → (v < 256 ^ N.of_nat (word class64))%N.
Proof. intros Hv. eapply N.lt_le_trans; [exact Hv|]. destruct class64; vm_compute; discriminate. Qed.

(** A name that can be written: text without NUL. *)
Definition name_ok (n : string) : Prop := before_nul n = n ∧ is_utf8 n = true.

Lemma before_nul_name n z : before_nul n = n → before_nul (n +:+ bytes [0%N] +:+ z) = n.
Proof.
  induction n as [|c n IH]; [done|]. change (String c n +:+ ?x) with (String c (n +:+ x)). cbn [before_nul].
  case_decide; [done|]. intros [= Hn]. by rewrite IH.
Qed.

Lemma cstr_at_name b n z : name_ok n → cstr_at (b +:+ n +:+ bytes [0%N] +:+ z) (byte_len b) = Found n.
Proof.
  intros [Hn Hu]. unfold cstr_at, slice_from. rewrite (byte_len_app b).
  pose proof (slice_part b (n +:+ bytes [0%N] +:+ z) "") as Hs. rewrite string_app_nil in Hs. rewrite Hs. simpl.
  rewrite before_nul_name by done. unfold from_utf8. by rewrite Hu.
Qed.

Lemma headers_len class64 le n o l :
  byte_len (headers class64 le n o l) = (N.of_nat (length l) * N.of_nat (shentsize class64))%N.
Proof.
  revert n o. induction l as [|s l IH]; intros n o; [done|]. cbn [headers length]. rewrite byte_len_app, fields_len, IH.
  change (fields_size (section_header class64 s n o)) with (shentsize class64). lia.
Qed.

Section lookup.
Context (class64 le : bool) (file strtab name : string) (shoff : N).
Context (Hsmall : (byte_len file < 2 ^ 32)%N) (Htable : (byte_len strtab < 2 ^ 32)%N).

#[local] Abbreviation layout := (layout_of class64).
#[local] Abbreviation entsize := (N.of_nat (shentsize class64)).

(** The contents of the section whose header is at the end of [a]. *)
Lemma section_bytes_at s n o a c d e :
  file = a +:+ fields le (section_header class64 s n o) +:+ c → file = d +:+ es_data s +:+ e → byte_len d = o →
  section_bytes layout file le (byte_len a) = Found (es_data s).
Proof.
  intros Ha Hd Ho. pose proof (f_equal byte_len Ha) as HlA. pose proof (f_equal byte_len Hd) as HlD.
  rewrite !byte_len_app, fields_len in HlA. rewrite !byte_len_app in HlD.
  assert (∀ k off v, section_header class64 s n o !! k = Some (word class64, v) → (v < 2 ^ 32)%N →
    off = N.of_nat (fields_size (take k (section_header class64 s n o))) →
    header_field layout file le (byte_len a) off = Found v) as Hfield.
  { intros k off v Hk Hv ->. unfold header_field, plain_add. rewrite decide_True.
    2:{ pose proof (take_drop k (section_header class64 s n o)) as Htd. apply (f_equal fields_size) in Htd.
        rewrite fields_size_app in Htd. unfold usize_max, u64_max. simpl N.pow in Hsmall. lia. }
    rewrite found_bind, word_at, Ha. apply field_at; [done|by apply small_word|]. unfold usize_max, u64_max. simpl N.pow in Hsmall. lia. }
  unfold section_bytes.
  rewrite (Hfield 4 (el_offset layout) o), (Hfield 5 (el_size layout) (byte_len (es_data s))); try (by destruct class64); try lia.
  rewrite !found_bind, checked_add_ok, found_bind; [|unfold usize_max, u64_max; simpl N.pow in Hsmall; lia].
  rewrite <-Ho, Hd. apply slice_part.
Qed.

(** One round of the loop. *)
Lemma find_section_step s k i n o a c d e b z :
  file = a +:+ fields le (section_header class64 s n o) +:+ c → byte_len a = (shoff + i * entsize)%N →
  file = d +:+ es_data s +:+ e → byte_len d = o →
  strtab = b +:+ es_name s +:+ bytes [0%N] +:+ z → byte_len b = n → name_ok (es_name s) →
  find_section layout file le name strtab shoff entsize (S k) i =
  if decide (es_name s = name) then Found (es_data s) else find_section layout file le name strtab shoff entsize k (i + 1).
Proof.
  intros Ha Hi Hd Ho Hb Hn Hok. pose proof (f_equal byte_len Ha) as HlA. pose proof (f_equal byte_len Hb) as HlB.
  rewrite !byte_len_app, fields_len in HlA. rewrite !byte_len_app in HlB. cbn [find_section].
  assert (usize_max = 18446744073709551615%N) as Hmax by reflexivity. simpl N.pow in *.
  rewrite checked_mul_ok, found_bind by lia. rewrite checked_add_ok, found_bind by lia. rewrite <-Hi.
  assert (u32_at file (byte_len a) le = Found n) as ->.
  { pose proof (field_at le a (section_header class64 s n o) c 0 4 n eq_refl) as H0. rewrite <-Ha in H0.
    change (N.of_nat (fields_size (take 0 (section_header class64 s n o)))) with 0%N in H0. rewrite N.add_0_r in H0.
    apply H0; simpl N.pow; lia. }
  rewrite found_bind, Hb, <-Hn, cstr_at_name by done. rewrite found_bind. case_decide; [|done].
  by eapply section_bytes_at.
Qed.

(** The loop over the sections. *)
Lemma find_in_headers l i n o a c d e b z :
  file = a +:+ headers class64 le n o l +:+ c → byte_len a = (shoff + i * entsize)%N →
  file = d +:+ contents l +:+ e → byte_len d = o →
  strtab = b +:+ names_of l +:+ z → byte_len b = n → Forall (λ s, name_ok (es_name s)) l →
  find_section layout file le name strtab shoff entsize (length l) i =
  match find_first (λ s, bool_decide (es_name s = name)) l with Some s => Found (es_data s) | None => Absent end.
Proof.
  revert i n o a d b. induction l as [|s l IH]; intros i n o a d b Ha Hi Hd Ho Hb Hn Hok; [done|].
  inversion_clear Hok as [|? ? Hs Hl]. cbn [headers length] in *.
  change (contents (s :: l)) with (es_data s +:+ contents l) in Hd.
  change (names_of (s :: l)) with ((es_name s +:+ bytes [0%N]) +:+ names_of l) in Hb.
  rewrite !string_app_assoc in Ha, Hd, Hb. rewrite ?(string_app_assoc (es_name s) (bytes [0%N])) in Hb.
  erewrite find_section_step; [|exact Ha|exact Hi|exact Hd|exact Ho|exact Hb|exact Hn|exact Hs].
  cbn [find_first List.find]. unfold find_first in *. simpl. destruct (decide (es_name s = name)) as [Heq|Hne].
  { by rewrite bool_decide_true. }
  rewrite bool_decide_false by done.
  eapply (IH (i + 1)%N _ _ (a +:+ fields le (section_header class64 s n o)) (d +:+ es_data s) (b +:+ es_name s +:+ bytes [0%N])); [by rewrite string_app_assoc| |by rewrite string_app_assoc| | | |done].
  - rewrite byte_len_app, fields_len. change (fields_size (section_header class64 s n o)) with (shentsize class64). lia.
  - rewrite byte_len_app. lia.
  - by rewrite !string_app_assoc.
  - rewrite !byte_len_app. change (byte_len (bytes [0%N])) with 1%N. lia.
Qed.
End lookup.

(** ** Looking up a section in a file *)

Section file.
Context (class64 le : bool) (h : ElfHeader) (segments : string) (sections : list ElfSection) (name : string).

#[local] Abbreviation file := (elf_file class64 le h segments sections).
#[local] Abbreviation layout := (layout_of class64).
#[local] Abbreviation entsize := (N.of_nat (shentsize class64)).
#[local] Abbreviation l := (all_sections sections).
#[local] Abbreviation strtab := (es_data (shstrtab sections)).
#[local] Abbreviation start := (N.of_nat (40 + 3 * word class64) + byte_len segments)%N.
#[local] Abbreviation shoff := (start + byte_len (contents l))%N.
#[local] Abbreviation shnum := (N.of_nat (S (length l))).
#[local] Abbreviation header := (file_header class64 le h shoff shnum (N.of_nat (length l))).

Context (Hnames : Forall (λ s, name_ok (es_name s)) sections).
Context (Hcount : (N.of_nat (length sections) < 65000)%N) (Hsmall : (byte_len file < 2 ^ 32)%N).

Lemma header_len : fields_size header = 40 + 3 * word class64.
Proof. by destruct class64, le. Qed.

Lemma names_of_app l1 l2 : names_of (l1 ++ l2) = names_of l1 +:+ names_of l2.
Proof.
  induction l1 as [|s l1 IH]; [done|]. change (names_of ((s :: l1) ++ l2)) with ((es_name s +:+ bytes [0%N]) +:+ names_of (l1 ++ l2)).
  rewrite IH. change (names_of (s :: l1)) with ((es_name s +:+ bytes [0%N]) +:+ names_of l1). by rewrite !string_app_assoc.
Qed.

Lemma contents_app l1 l2 : contents (l1 ++ l2) = contents l1 +:+ contents l2.
Proof.
  induction l1 as [|s l1 IH]; [done|]. change (contents ((s :: l1) ++ l2)) with (es_data s +:+ contents (l1 ++ l2)).
  rewrite IH. change (contents (s :: l1)) with (es_data s +:+ contents l1). by rewrite string_app_assoc.
Qed.

Lemma headers_app n o l1 s : ∃ n' , headers class64 le n o (l1 ++ [s]) =
  headers class64 le n o l1 +:+ fields le (section_header class64 s n' (o + byte_len (contents l1))).
Proof.
  revert n o. induction l1 as [|s1 l1 IH]; intros n o.
  - exists n. cbn [app headers]. rewrite string_app_nil. by rewrite N.add_0_r.
  - cbn [app headers]. destruct (IH (n + byte_len (es_name s1) + 1)%N (o + byte_len (es_data s1))%N) as [n' ->].
    exists n'. change (contents (s1 :: l1)) with (es_data s1 +:+ contents l1).
    by rewrite byte_len_app, string_app_assoc, N.add_assoc.
Qed.

Lemma strtab_names : strtab = bytes [0%N] +:+ names_of l.
Proof.
  unfold all_sections. rewrite names_of_app. change (names_of (null_section :: sections)) with (bytes [0%N] +:+ names_of sections).
  cbn [shstrtab es_data]. change (names_of (null_section :: sections)) with (bytes [0%N] +:+ names_of sections).
  change (names_of [shstrtab sections]) with ((".shstrtab" +:+ bytes [0%N]) +:+ ""). by rewrite string_app_nil, !string_app_assoc.
Qed.

(** The lengths of its parts. *)
Lemma file_parts : byte_len file = (shoff + entsize + N.of_nat (length l) * entsize)%N.
Proof.
  unfold elf_file. rewrite !byte_len_app, !fields_len, header_len, headers_len. fold (shentsize class64). lia.
Qed.

Lemma strtab_small : (byte_len strtab < 2 ^ 32)%N.
Proof.
  pose proof file_parts as Hp. unfold all_sections in Hp at 1. rewrite contents_app, byte_len_app in Hp.
  change (contents [shstrtab sections]) with (strtab +:+ "") in Hp. rewrite string_app_nil in Hp. lia.
Qed.

(** A field of the file header. *)
Lemma header_at k size v off :
  header !! k = Some (size, v) → (v < 256 ^ N.of_nat size)%N → off = N.of_nat (fields_size (take k header)) →
  uint_at (N.of_nat size) file off le = Found v.
Proof.
  intros Hk Hv ->. apply (field_at le "" header _ k size v Hk Hv). rewrite header_len. by destruct class64.
Qed.

Lemma contents_all : contents l = contents sections +:+ strtab.
Proof.
  unfold all_sections. rewrite contents_app. change (contents [shstrtab sections]) with (strtab +:+ "").
  by rewrite string_app_nil.
Qed.

#[local] Abbreviation null_header := (fields le (section_header class64 null_section 0 0)).

Lemma strtab_found : section_bytes layout file le (shoff + N.of_nat (length l) * entsize) = Found strtab.
Proof.
  destruct (headers_app 1 start sections (shstrtab sections)) as [n' Hn].
  change (sections ++ [shstrtab sections]) with l in Hn.
  assert (file = (fields le header +:+ segments +:+ contents l +:+ null_header +:+ headers class64 le 1 start sections) +:+
    fields le (section_header class64 (shstrtab sections) n' (start + byte_len (contents sections))) +:+ "") as Hf.
  { unfold elf_file. rewrite Hn, string_app_nil. by rewrite !string_app_assoc. }
  assert ((shoff + N.of_nat (length l) * entsize)%N = byte_len (fields le header +:+ segments +:+ contents l +:+
    null_header +:+ headers class64 le 1 start sections)) as ->.
  { rewrite !byte_len_app, !fields_len, header_len, headers_len. fold (shentsize class64).
    change (length l) with (length (sections ++ [shstrtab sections])). rewrite length_app. simpl length. lia. }
  eapply section_bytes_at with (d := fields le header +:+ segments +:+ contents sections); [exact Hsmall|exact strtab_small|exact Hf| |].
  - transitivity (fields le header +:+ segments +:+ (contents sections +:+ strtab) +:+ null_header +:+ headers class64 le 1 start l).
    + by rewrite <-contents_all.
    + rewrite !string_app_assoc. reflexivity.
  - rewrite !byte_len_app, fields_len, header_len. lia.
Qed.

Lemma lookup_file :
  elf_section layout file le name =
  match find_first (λ s, bool_decide (es_name s = name)) (null_section :: l) with Some s => Found (es_data s) | None => Absent end.
Proof.
  pose proof file_parts as Hparts. assert (shnum < 65536)%N as Hnum.
  { change (length l) with (length (sections ++ [shstrtab sections])). rewrite length_app. simpl length. lia. }
  assert (usize_max = 18446744073709551615%N) as Hmax by reflexivity. simpl N.pow in Hsmall.
  unfold elf_section. rewrite word_at, (header_at 21 (word class64) shoff); [|by destruct class64, le| |by destruct class64, le].
  2:{ apply small_word. simpl N.pow. lia. }
  rewrite found_bind. unfold u16_at. change (uint_at 2) with (uint_at (N.of_nat 2)).
  rewrite (header_at 26 2 entsize (el_shentsize layout)), found_bind; try (by destruct class64, le).
  rewrite (header_at 27 2 shnum (el_shnum layout)), found_bind; try (by destruct class64, le).
  rewrite (header_at 28 2 (N.of_nat (length l)) (el_shstrndx layout)), found_bind; try (by destruct class64, le); [|simpl N.pow; lia].
  rewrite decide_False.
  2:{ assert (entsize = el_min_entsize layout) by by destruct class64. lia. }
  rewrite checked_mul_ok, found_bind by lia. rewrite checked_add_ok, found_bind by lia.
  rewrite strtab_found, found_bind, Nat2N.id.
  set (front := fields le header +:+ segments +:+ contents l).
  assert (file = front +:+ null_header +:+ headers class64 le 1 start l) as Hfront by (unfold front, elf_file; by rewrite !string_app_assoc).
  assert (byte_len front = shoff) as Hlen by (unfold front; rewrite !byte_len_app, fields_len, header_len; lia).
  erewrite (find_section_step class64 le file strtab name shoff Hsmall strtab_small null_section (length l) 0 0 0 front _ "" file "" (names_of l));
    [|exact Hfront|lia|reflexivity..|exact strtab_names|reflexivity|done].
  cbn [find_first List.find es_name null_section]. destruct (decide ("" = name)) as [Heq|Hne]; [by rewrite bool_decide_true|].
  rewrite bool_decide_false by done.
  eapply (find_in_headers class64 le file strtab name shoff Hsmall strtab_small l (0 + 1) 1 start (front +:+ null_header) ""
    (fields le header +:+ segments) (null_header +:+ headers class64 le 1 start l) (bytes [0%N]) "").
  - rewrite Hfront, string_app_nil, string_app_assoc. reflexivity.
  - rewrite byte_len_app, fields_len, Hlen. fold (shentsize class64). lia.
  - unfold elf_file. by rewrite !string_app_assoc.
  - rewrite byte_len_app, fields_len, header_len. lia.
  - by rewrite string_app_nil, <-strtab_names.
  - done.
  - apply Forall_app. split; [done|]. constructor; [by split|constructor].
Qed.

(** The identification of the file. *)
Lemma elf_section_data_ident : elf_section_data file name = elf_section layout file le name.
Proof.
  pose proof file_parts as Hparts. unfold elf_section_data. rewrite decide_False by (destruct class64; simpl word in Hparts; lia).
  unfold elf_file. destruct class64, le; reflexivity.
Qed.
End file.

(** ** Properties *)

(** C36: A section is read back from an ELF file as the format has it: for either class
    and either byte order, whatever the linker's fields, the program headers and the
    other sections are, looking up a name gives exactly the bytes of the first section
    with that name, and nothing when there is none (the names are text without NUL, the
    file is smaller than 4 GiB and has fewer than 65000 sections). *)
Theorem elf_section_roundtrip class64 le h segments sections name :
  Forall (λ s, name_ok (es_name s)) sections → (N.of_nat (length sections) < 65000)%N →
  (byte_len (elf_file class64 le h segments sections) < 2 ^ 32)%N →
  elf_section_data (elf_file class64 le h segments sections) name =
  match find_first (λ s, bool_decide (es_name s = name)) (null_section :: all_sections sections) with
  | Some s => Found (es_data s)
  | None => Absent
  end.
Proof. intros Hn Hc Hs. rewrite elf_section_data_ident by done. by apply lookup_file. Qed.

(** An executable with a text section and the version. *)
Definition example_header : ElfHeader := mkElfHeader 0 2 62 1 4198400 64 0 56 0.
Definition example_sections : list ElfSection :=
  [mkElfSection ".text" (bytes [15; 5]%N) 1 6 4198400 0 0 16 0; mkElfSection SECTION_NAME "v1.2.3" 1 0 0 0 0 1 0].

Lemma elf_section_roundtrip_witness :
  (byte_len (elf_file true true example_header "" example_sections) < 2 ^ 32)%N ∧
  elf_section_data (elf_file true true example_header "" example_sections) SECTION_NAME = Found "v1.2.3".
Proof.
  assert (byte_len (elf_file true true example_header "" example_sections) < 2 ^ 32)%N as Hs by (vm_compute; reflexivity).
  split; [exact Hs|].
  assert (Forall (λ s, name_ok (es_name s)) example_sections) as Hn by (repeat constructor).
  rewrite (elf_section_roundtrip true true example_header "" example_sections SECTION_NAME Hn eq_refl Hs).
  vm_compute. reflexivity.
Defined.
