(* ===== verification/OtelEnv.v ===== *)
(** The OpenTelemetry settings from the environment: [otelenv.rs].

    The process environment and the cache of the settings file are shared state;
    the modification time of the file is an answer of the host. *)

From Stdlib Require Import Ascii.
From S2P Require Import Prelude RustStr Utf8 Error Security Config Protocol Logs Watch Reaper.
From S2P Require Import Runtime World Logic EnvFile.
#[local] Open Scope stdpp_scope.

(** One line of [parse]: like [envfile::parse], but the key is upper-cased first. *)
Definition parse_otel_line (line : string) : option (string * string) :=
  let line := trim line in
  if decide (line = "") then None
  else if starts_with "#" line then None
  else match split_once (ascii_of_N 61) line with
  | None => None
  | Some (key, value) =>
      let key := to_ascii_uppercase (trim key) in
      if decide (key = "") then None else Some (key, trim_matches quote_chars (trim value))
  end.

(** [parse] *)
Definition parse_otel (text : string) : gmap string string :=
  foldl (λ out line, match parse_otel_line line with
                     | Some (key, value) => <[key := value]> out
                     | None => out
                     end) ∅ (lines text).

Definition nul : ascii := ascii_of_N 0.

(** What [std::env::set_var] accepts. *)
Definition settable (key value : string) : bool :=
  bool_decide (key ≠ "") && negb (contains_char (ascii_of_N 61) key) && negb (contains_char nul key)
  && negb (contains_char nul value).

(** The loop of [load] over the parsed entries: variables that are set stay.
    [None] is a panic of [set_var]. *)
Fixpoint set_absent (entries : list (string * string)) (env : gmap string string) :
    option (gmap string string) :=
  match entries with
  | [] => Some env
  | (k, v) :: entries =>
      match env !! k with
      | Some _ => set_absent entries env
      | None => if settable k v then set_absent entries (<[k := v]> env) else None
      end
  end.

(** [lookup]: the process environment wins, where [std::env::var] can read it. *)
Definition lookup_env (env file : gmap string string) (key : string) : option string :=
  match env !! key ≫= from_utf8 with Some v => Some v | None => file !! key end.

Definition is_truthy (v : string) : bool :=
  bool_decide (to_ascii_lowercase (trim v) ∈ ["1"; "true"; "yes"; "on"]).

Definition has_scheme (s : string) : bool := starts_with "http://" s || starts_with "https://" s.

(** [normalize_http_endpoint] *)
Definition normalize_http_endpoint (raw : string) : string :=
  let s := trim raw in
  if has_scheme s then s
  else match rsplit_once (ascii_of_N 58) s with
  | Some (host, "4317") => "http://" +:+ host +:+ ":4318"
  | _ => "http://" +:+ s
  end.

(** One part of [parse_headers]. *)
Definition parse_header (part : string) : option (string * string) :=
  let part := trim part in
  if decide (part = "") then None
  else match split_once (ascii_of_N 61) part with
  | None => None
  | Some (k, v) => let k := trim k in if decide (k = "") then None else Some (k, trim v)
  end.

Definition parse_headers (raw : string) : gmap string string :=
  foldl (λ out part, match parse_header part with
                     | Some (k, v) => <[k := v]> out
                     | None => out
                     end) ∅ (split (ascii_of_N 44) raw).

(** The protocol names that mean HTTP. *)
Definition protocol_name (proto : string) : string :=
  if decide (proto ∈ ["http/protobuf"; "http/json"; "http"]) then "http" else proto.

(** A setting that only counts when it is not blank. *)
Definition non_blank (v : option string) : option string :=
  v ≫= λ v, if decide (trim v = "") then None else Some (trim v).

(** The updates of [overlay_config], for the variables as [lookup] sees them. *)
Definition overlay_config (vars : string → option string) (base : OpenTelemetryConfig) : OpenTelemetryConfig :=
  let enable := match vars "ENABLE_TELEMETRY" with Some v => is_truthy v | None => ot_enable base end in
  let enable := match vars "OTEL_SDK_DISABLED" with
                | Some v => if is_truthy v then false else enable
                | None => enable
                end in
  {|
    ot_enable := enable;
    ot_endpoint :=
      match non_blank (vars "OTEL_EXPORTER_OTLP_ENDPOINT") with
      | Some ep => normalize_http_endpoint ep
      | None => ot_endpoint base
      end;
    ot_protocol :=
      match non_blank (vars "OTEL_EXPORTER_OTLP_PROTOCOL") with
      | Some proto => protocol_name proto
      | None => ot_protocol base
      end;
    ot_service_name := default (ot_service_name base) (non_blank (vars "OTEL_SERVICE_NAME"));
    ot_export_interval_secs :=
      match vars "OTEL_METRIC_EXPORT_INTERVAL" with
      | Some ms =>
          match parse_uint u64_max (trim ms) with
          | Some ms => N.max (ms / 1000) 1
          | None => ot_export_interval_secs base
          end
      | None => ot_export_interval_secs base
      end;
    ot_headers :=
      match vars "OTEL_EXPORTER_OTLP_HEADERS" with
      | Some hdrs => let parsed := parse_headers hdrs in
                     if decide (parsed = ∅) then ot_headers base else parsed
      | None => ot_headers base
      end;
  |}.

(** The modification time of a file, when it can be read. *)
Class FileTimes `{Host} := { file_mtime : list Event → string → option N }.

Section settings.
Context `{HashOrder, DataDir, FileTimes}.

(** [default_path] *)
Definition otel_path : string := data_path ["etc"; "otel.env"].

(** [load] *)
Definition load_otel (path : string) : M (result unit string) :=
  fs_read path ≫= λ r,
  match r with
  | Err e =>
      mret (if decide (io_kind_of e = NotFound) then Ok tt
            else Err ("read " +:+ path +:+ ": " +:+ io_msg e))
  | Ok data =>
      atomic (λ s, match set_absent (hash_iter (parse_otel data)) (sh_process_env s) with
                   | Some env => (true, set_process_env env s)
                   | None => (false, s)
                   end) ≫= λ done_,
      if done_ : bool then mret (Ok tt) else no_return
  end.

Definition load_otel_default : M (result unit string) := load_otel otel_path.

(** [read_file_map] *)
Definition read_file_map : M (gmap string string) :=
  asks (λ h, file_mtime h otel_path) (EvMetadata otel_path) ≫= λ mtime,
  reads sh_otel_cache ≫= λ cache,
  if decide (fc_mtime cache = mtime) then mret (fc_data cache)
  else
    fs_read otel_path ≫= λ r,
    let data := match r with Ok text => parse_otel text | Err _ => ∅ end in
    updates (set_otel_cache (mkFileCache mtime data)) ≫= λ _,
    mret data.

(** [overlay_config] of the configuration [base]. *)
Definition overlay (base : OpenTelemetryConfig) : M OpenTelemetryConfig :=
  read_file_map ≫= λ file,
  reads (λ s, overlay_config (lookup_env (sh_process_env s) file) base).
End settings.

(** ** Lemmas *)

(** Every entry is set already or can be set. *)
Definition loadable (entries : list (string * string)) (env : gmap string string) : bool :=
  forallb (λ kv, bool_decide (is_Some (env !! kv.1)) || settable kv.1 kv.2) entries.

Lemma loadable_insert k v entries env :
  k ∉ entries.*1 → loadable entries (<[k := v]> env) = loadable entries env.
Proof.
  unfold loadable. induction entries as [|[k' v'] entries IH]; simpl; [done|].
  intros [Hk Hn]%not_elem_of_cons. by rewrite IH, lookup_insert_ne.
Qed.

(** The loop over distinct keys adds those that are not set, or panics. *)
Lemma set_absent_spec entries env :
  NoDup entries.*1 →
  set_absent entries env
  = if loadable entries env then Some (env ∪ list_to_map entries) else None.
Proof.
  revert env. induction entries as [|[k v] entries IH]; intros env; simpl.
  { intros _. by rewrite (right_id_L ∅ (∪)). }
  intros [Hk Hn]%NoDup_cons. unfold loadable in *. simpl.
  destruct (env !! k) as [v'|] eqn:He.
  - rewrite IH by done. rewrite bool_decide_eq_true_2 by done. simpl.
    destruct (forallb _ entries); [|done]. f_equal. apply map_eq. intros x. rewrite !lookup_union, lookup_insert.
    destruct (decide (k = x)); subst; [|done]. by rewrite He; destruct (list_to_map entries !! x).
  - rewrite bool_decide_eq_false_2 by by intros []%is_Some_None. simpl.
    destruct (settable k v); simpl; [|done].
    rewrite IH by done. fold (loadable entries (<[k := v]> env)) (loadable entries env).
    rewrite loadable_insert by done. destruct (loadable entries env); [|done]. f_equal.
    apply map_eq. intros x. rewrite !lookup_union, !lookup_insert.
    destruct (decide (k = x)); subst; [|done]. by rewrite He; destruct (list_to_map entries !! x).
Qed.

Lemma hash_iter_NoDup `{HashOrder} {V} (m : gmap string V) : NoDup (hash_iter m).*1.
Proof. rewrite hash_iter_perm. apply NoDup_fst_map_to_list. Qed.

Lemma hash_iter_to_map `{HashOrder} {V} (m : gmap string V) : list_to_map (hash_iter m) = m.
Proof.
  rewrite <-(list_to_map_to_list m) at 2. apply list_to_map_proper; [apply hash_iter_NoDup|].
  apply hash_iter_perm.
Qed.

Lemma set_absent_parsed `{HashOrder} (m env : gmap string string) :
  set_absent (hash_iter m) env = if loadable (hash_iter m) env then Some (env ∪ m) else None.
Proof. by rewrite set_absent_spec, hash_iter_to_map by apply hash_iter_NoDup. Qed.

Lemma normalize_has_scheme raw : has_scheme (normalize_http_endpoint raw) = true.
Proof.
  assert (∀ s, has_scheme ("http://" +:+ s) = true) as Hs by done.
  unfold normalize_http_endpoint. destruct (has_scheme (trim raw)) eqn:Ht; [done|].
  destruct (rsplit_once _ _) as [[host port]|]; [|apply Hs].
  repeat (case_match; try apply Hs).
Qed.

Lemma parse_headers_keys raw : parse_headers raw !! "" = None.
Proof.
  unfold parse_headers. set (step := λ _ _, _).
  assert (∀ parts m, m !! "" = None → foldl step m parts !! "" = None) as H; [|by apply H].
  intros parts. induction parts as [|part parts IH]; intros m Hm; [done|]. simpl. apply IH.
  unfold step. unfold parse_header.
  repeat (case_match; simplify_eq; try done). by rewrite lookup_insert_ne.
Qed.

Lemma lookup_env_set env file key v :
  env !! key = Some v → is_utf8 v = true → lookup_env env file key = Some v.
Proof. intros He Hu. unfold lookup_env, from_utf8. rewrite He. simpl. by rewrite Hu. Qed.

(** ** Properties *)

Section properties.
Context `{HashOrder, DataDir, FileTimes}.

(** Loading the settings file adds exactly its entries for the variables that
    are not set, in whatever order the hash map is walked; it does nothing when
    there is no file, fails for another error, and panics exactly when an entry to
    be added cannot be set. *)
Theorem load_otel_spec path w :
  let w1 := mkWorld (shared w) (EvRead path :: hist w) in
  let read := match fs_fault (hist w) with
              | Some e => Err e
              | None => ok_or (sh_files (entered w1) !! path)
                          (mkIoError NotFound "No such file or directory (os error 2)")
              end in
  match read with
  | Err e => (load_otel path w).1 = Some (if decide (io_kind_of e = NotFound) then Ok tt
                                           else Err ("read " +:+ path +:+ ": " +:+ io_msg e)) ∧
             sh_process_env (shared (load_otel path w).2) = sh_process_env (entered w1)
  | Ok text =>
      let w2 := stepped w1 (entered w1) in
      let env := sh_process_env (entered w2) in
      if loadable (hash_iter (parse_otel text)) env
      then (load_otel path w).1 = Some (Ok tt) ∧
           sh_process_env (shared (load_otel path w).2) = env ∪ parse_otel text
      else (load_otel path w).1 = None
  end.
Proof.
  intros w1 read.
  assert (fs_read path w = (Some read, stepped w1 (entered w1))) as Hr by done.
  unfold load_otel. rewrite (bind_step _ _ _ _ _ Hr). clear Hr.
  destruct read as [text|e]; [|by split].
  rewrite atomic_bind. set (env := sh_process_env (entered _)). rewrite set_absent_parsed. by destruct (loadable _ env).
Qed.

(** Once the settings file has been loaded at boot, editing the variables it
    defined or that were in the environment changes nothing: two later versions of
    the file that agree on the other variables give the same configuration. *)
Theorem edits_after_load_ignored env text0 text1 text2 base :
  map_Forall (λ _ v, is_utf8 v = true) (env ∪ parse_otel text0) →
  (∀ k, env !! k = None → parse_otel text0 !! k = None → parse_otel text1 !! k = parse_otel text2 !! k) →
  ∀ loaded, set_absent (hash_iter (parse_otel text0)) env = Some loaded →
  overlay_config (lookup_env loaded (parse_otel text1)) base
  = overlay_config (lookup_env loaded (parse_otel text2)) base.
Proof.
  intros Hutf Hagree loaded. rewrite set_absent_parsed. case_match; [|done]. intros [= <-].
  assert (∀ k, lookup_env (env ∪ parse_otel text0) (parse_otel text1) k
             = lookup_env (env ∪ parse_otel text0) (parse_otel text2) k) as Hk.
  { intros k. destruct ((env ∪ parse_otel text0) !! k) as [v|] eqn:Hv.
    - rewrite !(lookup_env_set _ _ _ v Hv); [done|by eapply Hutf..].
    - unfold lookup_env. rewrite Hv. simpl. apply lookup_union_None in Hv as [??]. by apply Hagree. }
  unfold overlay_config. by rewrite !Hk.
Qed.
End properties.

(** Overlaying the environment on a configuration: [OTEL_SDK_DISABLED] only ever
    disables, an endpoint that is taken from a variable has a scheme, the export
    interval is at least one second, headers are replaced by a non-empty set of
    named ones, and without variables nothing changes. *)
Theorem overlay_config_spec vars base :
  let cfg := overlay_config vars base in
  let flag key := is_truthy <$> vars key in
  ot_enable cfg = default (ot_enable base) (flag "ENABLE_TELEMETRY")
                  && negb (default false (flag "OTEL_SDK_DISABLED")) ∧
  (if decide (non_blank (vars "OTEL_EXPORTER_OTLP_ENDPOINT") = None) then ot_endpoint cfg = ot_endpoint base
   else has_scheme (ot_endpoint cfg) = true) ∧
  (ot_export_interval_secs cfg = ot_export_interval_secs base ∨ (1 ≤ ot_export_interval_secs cfg)%N) ∧
  (ot_headers cfg = ot_headers base ∨ ot_headers cfg ≠ ∅ ∧ ot_headers cfg !! "" = None) ∧
  overlay_config (λ _, None) base = base.
Proof.
  intros cfg flag. unfold cfg, flag, overlay_config. cbn. split_and!.
  - destruct (vars "ENABLE_TELEMETRY"), (vars "OTEL_SDK_DISABLED") as [v|]; simpl; try destruct (is_truthy v);
      by rewrite ?andb_true_r, ?andb_false_r.
  - destruct (non_blank _); [|by rewrite decide_True].
    rewrite decide_False by done. apply normalize_has_scheme.
  - destruct (vars "OTEL_METRIC_EXPORT_INTERVAL") as [ms|]; [|by left].
    destruct (parse_uint _ _); [|by left]. right. lia.
  - destruct (vars "OTEL_EXPORTER_OTLP_HEADERS") as [h|]; [|by left]. case_decide; [by left|].
    right. split; [done|apply parse_headers_keys].
  - by destruct base.
Qed.

Definition example_otel : OpenTelemetryConfig := default_open_telemetry.

Lemma edits_after_load_ignored_witness :
  let text0 := "otel_service_name=hub" in
  let text1 := "OTEL_SERVICE_NAME=edited" in
  overlay_config (lookup_env {[ "OTEL_SERVICE_NAME" := "hub" ]} (parse_otel text1)) example_otel
  = overlay_config (lookup_env {[ "OTEL_SERVICE_NAME" := "hub" ]} (parse_otel "")) example_otel ∧
  ot_service_name (overlay_config (lookup_env {[ "OTEL_SERVICE_NAME" := "hub" ]} (parse_otel text1)) example_otel)
  = "hub".
Proof.
  cbv zeta. split; [|by vm_compute].
  apply (edits_after_load_ignored (H := canonical_hash_order) ∅ "otel_service_name=hub"
    "OTEL_SERVICE_NAME=edited" "" example_otel).
  - refine (proj1 (bool_decide_eq_true (map_Forall _ _)) _). by vm_compute.
  - intros k _ Hk. destruct (decide (k = "OTEL_SERVICE_NAME")) as [->|Hne]; [by vm_compute in Hk|].
    assert (parse_otel "OTEL_SERVICE_NAME=edited" = <["OTEL_SERVICE_NAME" := "edited"]> ∅) as ->
      by (vm_compute; reflexivity).
    assert (parse_otel "" = ∅) as ->
      by (vm_compute; reflexivity). by rewrite lookup_insert_ne.
  - vm_compute. reflexivity.
Defined.
