(* ===== verification/DaemonInfo.v ===== *)
(** The daemon's description of itself: [Supervisor::info] and
    [Supervisor::open_telemetry]. *)

From S2P Require Import Prelude Constants Error Security Config Protocol Logs Watch Reaper Runtime World Console Logic.
From S2P Require Import EnvFile Service Store Supervisor OtelEnv Version.
#[local] Open Scope stdpp_scope.

(** [std::process::id] *)
Class Process := { process_id : N }.

Section info.
Context `{Host, HashOrder, Json, DataDir, !FileTimes, VersionEnv, Process}.
Variable self : Supervisor.

(** [Supervisor::open_telemetry] *)
Definition open_telemetry : M OpenTelemetryConfig :=
  base ← reads (λ s, cf_open_telemetry (sh_config s));
  overlay base.

(** The services whose state is [Running]. *)
Definition running_services (m : gmap string Runtime) : nat :=
  size (filter (λ nr, rt_state nr.2 = ServiceState.Running) m).

(** [Supervisor::info] *)
Definition info : M DaemonInfo :=
  ver ← version_info;
  otel ← open_telemetry;
  counts ← reads (λ s, (size (sh_runtimes s), running_services (sh_runtimes s), cf_socket (sh_config s)));
  let '(total, running, socket) := counts in
  host ← hostname;
  now ← instant_now;
  mret {|
    di_version := vi_version ver;
    di_tag_commit := vi_tag_commit ver;
    di_build_commit := vi_build_commit ver;
    di_build_time := vi_build_time ver;
    di_pid := process_id;
    di_hostname := host;
    di_uptime_secs := (now - sv_started_at self) / from_secs 1;
    di_socket := socket;
    di_mode := sv_mode self;
    di_services_total := total;
    di_services_running := running;
    di_otel_enabled := ot_enable otel;
    di_otel_endpoint := ot_endpoint otel;
    di_otel_protocol := ot_protocol otel;
    di_otel_service_name := ot_service_name otel;
    di_otel_export_interval_secs := ot_export_interval_secs otel;
  |}.
End info.
