(* ===== verification/Monitor.v ===== *)
(** The monitor thread of a service: starting, watching and stopping its process
    ([supervisor.rs]). *)

From S2P Require Import Prelude Constants RustStr Error Security Config Protocol Reaper.
From S2P Require Import Runtime World EnvFile Service Liveness Store Supervisor.
#[local] Open Scope stdpp_scope.

(** The local variables of [monitor_loop]. *)
Record Local := mkLocal {
  lo_tracked : option Z;
  lo_next_liveness : option N;
  lo_streak : N;
}.

(** How an iteration of the loop ends. *)
Inductive Flow := Continue (l : Local) | Break.

Section monitor.
Context `{Host, Nss, HashOrder, Json, DataDir}.
Variable self : Supervisor.

(** ** Starting *)

(** Report an error of [do_start]: the [if let Err(e)] of its callers. *)
Definition start_failed (name prefix : string) (r : Result unit) : M unit :=
  match r with
  | Ok _ => mret tt
  | Err e =>
      emit_init LogLevel.Error (name +:+ ": " +:+ prefix +:+ Error.to_string e);;
      apply_state name ServiceState.Failed None
  end.

(** The wait for a daemon to stay up: its exit code if it ends before the deadline. *)
Definition await_early_exit (pid : Z) (wait : N) : M (option Z) :=
  now ← instant_now;
  deadline ← instant_add now wait;
  r ← poll (rounds wait CTL_POLL) deadline
        (λ deadline, now ← instant_now; mret (N.min (deadline - now) CTL_POLL))
        (registry_take pid);
  match r with
  | Some code => mret (Some code)
  | None => registry_take pid
  end.

(** The end of [do_start] for a daemon. *)
Definition finish_daemon (cfg : ServiceConfig) (tracked : option Z) (pid : Z) :
    M (Result unit * option Z) :=
  let name := sc_name cfg in
  let wait := if decide (0 < sc_start_wait_secs cfg)%N then from_secs (sc_start_wait_secs cfg)
              else DAEMONIZE_GRACE in
  early_exit ← await_early_exit pid wait;
  match early_exit with
  | Some code =>
      if bool_decide (sc_start_wait_secs cfg = 0)%N && is_success cfg code then
        apply_state name ServiceState.Running None;; mret (Ok tt, None)
      else
        apply_state name ServiceState.Failed None;;
        mret (Err (Error.Service name
          (if decide (0 < sc_start_wait_secs cfg)%N
           then "exited during startWaitSecs (code " +:+ pretty code +:+ ")"
           else "exited with code " +:+ pretty code)), tracked)
  | None =>
      apply_state name ServiceState.Running (Some pid);; mret (Ok tt, Some pid)
  end.

(** The end of [do_start] for a job. *)
Definition finish_job (cfg : ServiceConfig) (tracked : option Z) (pid : Z) :
    M (Result unit * option Z) :=
  let name := sc_name cfg in
  r ← wait_take pid DEP_WAIT;
  match r with
  | None =>
      terminate_pid pid STOP_GRACE_SECS;;
      wait_take pid (from_secs STOP_GRACE_SECS) ≫= λ _,
      apply_state name ServiceState.Failed None;;
      mret (Err (Error.Service name "job timed out"), tracked)
  | Some code =>
      if is_success cfg code then
        apply_state name ServiceState.Succeeded None;; mret (Ok tt, None)
      else
        apply_state name ServiceState.Failed None;;
        mret (Err (Error.Service name ("exited with code " +:+ pretty code)), None)
  end.

(** Spawn the start command and wait for its outcome. *)
Definition launch (cfg : ServiceConfig) (tracked : option Z) : M (Result unit * option Z) :=
  let name := sc_name cfg in
  apply_state name ServiceState.Starting None;;
  match resolve_start cfg with
  | Err e => mret (Err e, tracked)
  | Ok cmd =>
      r ← spawn_shell cmd cfg;
      match r with
      | Err e => mret (Err e, tracked)
      | Ok pid =>
          effect (EvCapture name LogLevel.Stdout pid);;
          effect (EvCapture name LogLevel.Stderr pid);;
          if sc_daemon cfg then finish_daemon cfg tracked pid else finish_job cfg tracked pid
      end
  end.

(** The dependency check: whether it passed. *)
Definition check_deps (cfg : ServiceConfig) (force : bool) : M (Result bool) :=
  if force || bool_decide (sc_depends_on cfg = []) then mret (Ok true)
  else reads (λ s, deps_ready (sc_depends_on cfg) (sh_runtimes s)).

(** The warning of a forced start. *)
Definition warn_forced (cfg : ServiceConfig) (force : bool) : M (Result unit) :=
  if force && negb (bool_decide (sc_depends_on cfg = [])) then
    unmet <-? reads (λ s, unmet_deps (sc_depends_on cfg) (sh_runtimes s));
    (if decide (unmet = []) then mret tt
     else emit_init LogLevel.Warn (sc_name cfg +:+ ": starting with --force (unmet dependencies: "
       +:+ join ", " unmet +:+ ")"));;
    mret (Ok tt)
  else mret (Ok tt).

(** [do_start]: its result and the tracked pid afterwards. *)
Definition do_start (cfg : ServiceConfig) (tracked : option Z) (force : bool) :
    M (Result unit * option Z) :=
  let name := sc_name cfg in
  enabled ← load_enabled name;
  match enabled with
  | Err e => mret (Err e, tracked)
  | Ok false =>
      apply_state name ServiceState.Disabled None;; mret (Err (Error.Disabled name), tracked)
  | Ok true =>
      ready ← check_deps cfg force;
      match ready with
      | Err e => mret (Err e, tracked)
      | Ok false =>
          st ← reads (λ s, current_state name (sh_runtimes s));
          (if decide (st = Some ServiceState.WaitingForDependency) then mret tt
           else emit_init LogLevel.Info (name +:+ ": waiting for dependencies ("
             +:+ join ", " (sc_depends_on cfg) +:+ ")"));;
          apply_state name ServiceState.WaitingForDependency None;;
          mret (Ok tt, tracked)
      | Ok true =>
          warned ← warn_forced cfg force;
          match warned with
          | Err e => mret (Err e, tracked)
          | Ok _ => launch cfg tracked
          end
      end
  end.

(** ** Stopping *)

(** Run a command whose outcome is ignored. *)
Definition run_stop (cfg : ServiceConfig) : M unit :=
  match resolve_stop cfg with
  | Ok stop => run_shell stop cfg ∅ ≫= λ _, mret tt
  | Err _ => mret tt
  end.

(** [stop_tracked]: afterwards nothing is tracked. *)
Definition stop_tracked (cfg : ServiceConfig) (tracked : option Z) : M unit :=
  let grace := sc_shutdown_wait_secs cfg in
  run_stop cfg;;
  match tracked with
  | Some pid =>
      terminate_pid pid grace;;
      wait_take pid (from_secs (sat_add u64_max grace 1)) ≫= λ _, mret tt
  | None => mret tt
  end.

(** ** Exits *)

(** [Shared::is_enabled(..).unwrap_or(..)] *)
Definition enabled_or (d : bool) (name : string) : M bool :=
  r ← load_enabled name; mret (default d (result_ok r)).

Definition exit_state (success : bool) : ServiceState.t :=
  if success then ServiceState.Succeeded else ServiceState.Failed.

(** [on_process_exit]: the tracked pid afterwards. *)
Definition on_process_exit (cfg : ServiceConfig) (tracked : option Z) (code : Z) : M (option Z) :=
  let name := sc_name cfg in
  apply_state name ServiceState.Pending None;;
  let success := is_success cfg code in
  enabled ← enabled_or true name;
  if negb (sc_daemon cfg) then
    apply_state name (exit_state success) None;; mret tracked
  else
    stop_all ← load_stop_all;
    if negb (RestartPolicy.should_restart (sc_restart_policy cfg) success && enabled && negb stop_all)
    then apply_state name (exit_state success) None;; mret tracked
    else
      apply_state name ServiceState.Restarting None;;
      bump_restarts name;;
      emit_init LogLevel.Info (name +:+ ": exited " +:+ pretty code +:+ ", restarting in "
        +:+ pretty (sc_restart_backoff cfg) +:+ "s");;
      sleep (from_secs (sc_restart_backoff cfg));;
      r ← do_start cfg tracked false;
      start_failed name "" r.1;;
      mret r.2.

(** ** Liveness *)

(** [schedule_liveness] *)
Definition schedule_liveness (cfg : ServiceConfig) : M (option N) :=
  match sc_liveness_probe cfg with
  | None => mret None
  | Some p =>
      now ← instant_now;
      t ← instant_add now (from_secs (lp_interval p));
      mret (Some t)
  end.

(** What [maybe_liveness] does with a failed probe: the streak and the tracked pid. *)
Definition probe_failed (cfg : ServiceConfig) (probe : LivenessProbe) (reason : string) (l : Local) :
    M Local :=
  let name := sc_name cfg in
  let streak := sat_add u32_max (lo_streak l) 1 in
  let threshold := N.max (lp_failure_threshold probe) 1 in
  bump_liveness_failures name (Some reason);;
  if decide (streak < threshold)%N then
    emit_init LogLevel.Warn (name +:+ ": livenessProbe failed (" +:+ reason +:+ ") ("
      +:+ pretty streak +:+ "/" +:+ pretty threshold +:+ ")");;
    mret (mkLocal (lo_tracked l) (lo_next_liveness l) streak)
  else
    emit_init LogLevel.Warn (name +:+ ": livenessProbe failed (" +:+ reason +:+ "), restarting");;
    apply_state name ServiceState.Restarting None;;
    bump_restarts name;;
    stop_tracked cfg (lo_tracked l);;
    r ← do_start cfg None false;
    start_failed name "liveness restart: " r.1;;
    next ← schedule_liveness cfg;
    mret (mkLocal r.2 next 0).

(** The states in which a service is probed. *)
Definition probed (st : ServiceState.t) : bool :=
  match st with
  | ServiceState.Running | ServiceState.Succeeded | ServiceState.Failed => true
  | _ => false
  end.

(** Run the probe and act on its outcome. *)
Definition probe_now (cfg : ServiceConfig) (probe : LivenessProbe) (st : ServiceState.t) (l : Local) :
    M Local :=
  outcome ← run_probe probe cfg;
  now ← instant_now;
  next ← instant_add now (from_secs (lp_interval probe));
  match outcome with
  | ProbeOk =>
      (if bool_decide (st = ServiceState.Failed) && negb (sc_daemon cfg)
       then apply_state (sc_name cfg) ServiceState.Succeeded None else mret tt);;
      mret (mkLocal (lo_tracked l) (Some next) 0)
  | ProbeFail reason =>
      probe_failed cfg probe reason (mkLocal (lo_tracked l) (Some next) (lo_streak l))
  end.

(** [maybe_liveness] *)
Definition maybe_liveness (cfg : ServiceConfig) (l : Local) : M Local :=
  match sc_liveness_probe cfg with
  | None => mret (mkLocal (lo_tracked l) None (lo_streak l))
  | Some probe =>
      state ← reads (λ s, current_state (sc_name cfg) (sh_runtimes s));
      match state with
      | None => mret l
      | Some st =>
          if negb (probed st) then mret l
          else
            enabled ← enabled_or false (sc_name cfg);
            if negb enabled then mret l
            else
              now ← instant_now;
              match lo_next_liveness l with
              | Some t => if decide (t ≤ now)%N then probe_now cfg probe st l else mret l
              | None =>
                  t ← instant_add now (from_secs (lp_interval probe));
                  mret (mkLocal (lo_tracked l) (Some t) (lo_streak l))
              end
      end
  end.

(** ** The loop *)

Inductive Received := Message (m : CtlMsg) | NoMessage | Disconnected.

(** [Receiver::recv_timeout] *)
Definition recv_timeout (c : nat) (d : N) : M Received :=
  effect (EvRecv d);;
  atomic (λ s,
    match sh_chans s !! c with
    | Some ch =>
        match ch_queue ch with
        | m :: q => (Message m, set_channels (sh_ctl s)
                       (<[c := mkChan q (ch_sender ch) (ch_receiver ch)]> (sh_chans s))
                       (sh_next_chan s) s)
        | [] => (if ch_sender ch then NoMessage else Disconnected, s)
        end
    | None => (Disconnected, s)
    end).

(** Start and schedule the next probe: what [Start] and [Restart] end with. *)
Definition start_and_schedule (cfg : ServiceConfig) (tracked : option Z) (force : bool) (streak : N) :
    M Local :=
  r ← do_start cfg tracked force;
  start_failed (sc_name cfg) "" r.1;;
  next ← schedule_liveness cfg;
  mret (mkLocal r.2 next streak).

(** The restart command: whether it took the place of a start. *)
Definition run_restart (cfg : ServiceConfig) : M bool :=
  match resolve_restart cfg with
  | Err _ => mret false
  | Ok restart =>
      r ← run_shell restart cfg ∅;
      let code := default 1%Z (result_ok r) in
      mret (sc_daemon cfg && is_success cfg code)
  end.

(** The handling of a message. *)
Definition handle_msg (cfg : ServiceConfig) (msg : CtlMsg) (l : Local) : M Flow :=
  let name := sc_name cfg in
  match msg with
  | CtlQuit =>
      stop_tracked cfg (lo_tracked l);;
      apply_state name ServiceState.Stopped None;;
      mret Break
  | CtlStop =>
      emit_init LogLevel.Info ("stopping " +:+ name);;
      apply_state name ServiceState.Stopping None;;
      stop_tracked cfg (lo_tracked l);;
      enabled ← enabled_or true name;
      apply_state name (if enabled : bool then ServiceState.Stopped else ServiceState.Disabled) None;;
      mret (Continue (mkLocal None None 0))
  | CtlRestart =>
      emit_init LogLevel.Info ("restarting " +:+ name);;
      stop_tracked cfg (lo_tracked l);;
      restarted ← run_restart cfg;
      if restarted : bool then
        apply_state name ServiceState.Running None;;
        next ← schedule_liveness cfg;
        mret (Continue (mkLocal None next 0))
      else l' ← start_and_schedule cfg None false 0; mret (Continue l')
  | CtlStart force =>
      if decide (is_Some (lo_tracked l)) then mret (Continue l)
      else l' ← start_and_schedule cfg (lo_tracked l) force 0; mret (Continue l')
  end.

(** The iteration without a message: the exit of the tracked process, or a start
    that waits for its dependencies. *)
Definition watch_process (name : string) (l : Local) : M Local :=
  match lo_tracked l with
  | Some pid =>
      exit ← registry_take pid;
      match exit with
      | None => mret l
      | Some code =>
          cfg ← service_cfg name;
          match cfg with
          | Err _ => mret (mkLocal None (lo_next_liveness l) 0)
          | Ok cfg =>
              tracked ← on_process_exit cfg None code;
              next ← schedule_liveness cfg;
              mret (mkLocal tracked next 0)
          end
      end
  | None =>
      stop_all ← load_stop_all;
      if stop_all : bool then mret l
      else
        st ← reads (λ s, current_state name (sh_runtimes s));
        if decide (st = Some ServiceState.WaitingForDependency) then
          cfg ← service_cfg name;
          match cfg with
          | Err _ => mret l
          | Ok cfg => start_and_schedule cfg None false (lo_streak l)
          end
        else mret l
  end.

(** One iteration of [monitor_loop]. *)
Definition monitor_step (name : string) (c : nat) (l : Local) : M Flow :=
  stop_all ← load_stop_all;
  if stop_all : bool then
    cfg ← service_cfg name;
    match cfg with Ok cfg => stop_tracked cfg (lo_tracked l) | Err _ => mret tt end;;
    apply_state name ServiceState.Stopped None;;
    mret Break
  else
    received ← recv_timeout c CTL_POLL;
    match received with
    | Disconnected => mret Break
    | Message msg =>
        cfg ← service_cfg name;
        match cfg with
        | Err _ => mret Break
        | Ok cfg => handle_msg cfg msg l
        end
    | NoMessage =>
        l ← watch_process name l;
        stop_all ← load_stop_all;
        if stop_all : bool then mret (Continue l)
        else
          cfg ← service_cfg name;
          match cfg with
          | Err _ => mret (Continue l)
          | Ok cfg => l ← maybe_liveness cfg l; mret (Continue l)
          end
    end.

(** [monitor_loop], for at most [n] iterations; leaving it drops the receiver. *)
Fixpoint monitor_run (n : nat) (name : string) (c : nat) (l : Local) : M unit :=
  match n with
  | O => no_return
  | S n =>
      flow ← monitor_step name c l;
      match flow with
      | Break => updates (λ s, set_channels (sh_ctl s) (drop_receiver c (sh_chans s)) (sh_next_chan s) s)
      | Continue l => monitor_run n name c l
      end
  end.

Definition monitor_loop (n : nat) (name : string) (c : nat) : M unit :=
  monitor_run n name c (mkLocal None None 0).
End monitor.
