(* ===== verification/Describe.v ===== *)
(** The rich status of a service: [Supervisor::describe] of [supervisor.rs].

    The subgraph around a service is found by a breadth-first search that follows
    the dependency edges in both directions. *)

From S2P Require Import Prelude Constants BTree Error Security Config Protocol Runtime World.
From S2P Require Import Service Store Supervisor.
#[local] Open Scope stdpp_scope.

(** ** Subgraph *)

Definition push_edge (k v : string) (m : gmap string (list string)) : gmap string (list string) :=
  <[k := default [] (m !! k) ++ [v]]> m.

(** [forward] maps a dependency to its dependents, [reverse] a service to its
    dependencies. *)
Definition build_adjacency (services_deps : list (string * list string)) :
    gmap string (list string) * gmap string (list string) :=
  foldl (λ acc '(svc_name, deps),
    foldl (λ '(forward, reverse) dep, (push_edge dep svc_name forward, push_edge svc_name dep reverse))
      acc deps) (∅, ∅) services_deps.

Record Search := mkSearch {
  se_visited : gset string;
  se_edges : gset (string * string);
  se_queue : list string;
}.

(** Record an edge and enqueue its other end when it is new. *)
Definition follow (edge : string * string) (n : string) (s : Search) : Search :=
  if decide (n ∈ se_visited s) then mkSearch (se_visited s) ({[ edge ]} ∪ se_edges s) (se_queue s)
  else mkSearch ({[ n ]} ∪ se_visited s) ({[ edge ]} ∪ se_edges s) (se_queue s ++ [n]).

(** The body of the loop, for the node taken from the queue. *)
Definition visit (forward reverse : gmap string (list string)) (cur : string) (s : Search) : Search :=
  let s := foldl (λ s dep, follow (dep, cur) dep s) s (default [] (reverse !! cur)) in
  foldl (λ s child, follow (cur, child) child s) s (default [] (forward !! cur)).

Fixpoint explore (fuel : nat) (forward reverse : gmap string (list string)) (s : Search) :
    option Search :=
  match fuel with
  | O => None
  | S fuel =>
      match se_queue s with
      | [] => Some s
      | cur :: queue =>
          explore fuel forward reverse
            (visit forward reverse cur (mkSearch (se_visited s) (se_edges s) queue))
      end
  end.

(** More rounds than there are nodes. *)
Definition explore_fuel (services_deps : list (string * list string)) : nat :=
  S (S (length services_deps + length (services_deps ≫= snd))).

Definition subgraph (name : string) (services_deps : list (string * list string)) : option Search :=
  let '(forward, reverse) := build_adjacency services_deps in
  explore (explore_fuel services_deps) forward reverse (mkSearch {[ name ]} ∅ [name]).

(** ** Result *)

Definition node_le (a b : DepNode) : Prop := ord_le (dn_name a) (dn_name b).
#[export] Instance node_le_dec : RelDecision node_le.
Proof. intros a b. unfold node_le. apply _. Defined.

(** [state_of] *)
Definition state_of (states : gmap string ServiceState.t) (n : string) : ServiceState.t :=
  default ServiceState.Pending (states !! n).

Definition node_of (states : gmap string ServiceState.t) (n : string) : DepNode :=
  mkDepNode n (state_of states n).

Definition sorted_nodes (states : gmap string ServiceState.t) (names : list string) : list DepNode :=
  merge_sort node_le (node_of states <$> names).

(** The services that list [name] among their dependencies. *)
Definition dependents_of (name : string) (services_deps : list (string * list string)) : list string :=
  fst <$> filter (λ nd, name ∈ nd.2) services_deps.

(** [as_secs] *)
Definition as_secs (d : N) : N := (d / from_secs 1)%N.

(** The uptime reported while running. *)
Definition uptime_of (now : N) (rt : Runtime) : option N :=
  if decide (rt_state rt = ServiceState.Running)
  then (λ since, as_secs (now - since)) <$> rt_running_since rt else None.

(** What is read under the lock of the runtimes. *)
Record RuntimeView := mkRuntimeView {
  rv_status : ServiceStatus;
  rv_uptime : option N;
  rv_events : list ServiceEvent;
  rv_states : gmap string ServiceState.t;
  rv_pid : option Z;
}.

Section describe.
Context `{Host, Nss, HashOrder, Json, DataDir}.
Variable self : Supervisor.

Definition view_runtime (name : string) (now : N) (m : gmap string Runtime) : Result RuntimeView :=
  match m !! name with
  | None => Err (Error.UnknownService name)
  | Some rt => Ok {|
      rv_status := status_of name rt ∅;
      rv_uptime := uptime_of now rt;
      rv_events := to_protocol rfc3339_ms <$> last_n EVENT_RETURN (rt_events rt);
      rv_states := rt_state <$> m;
      rv_pid := rt_pid rt;
    |}
  end.

Definition set_labels (labels : gmap string string) (st : ServiceStatus) : ServiceStatus :=
  mkServiceStatus (ss_name st) (ss_state st) (ss_pid st) (ss_restarts st) (ss_liveness_failures st)
    (ss_enabled st) labels.

(** [Supervisor::describe] *)
Definition describe (name : string) (output : DescribeOutput) :
    M (Result (ServiceDescribe json_value)) :=
  view <-? atomic_at (λ now _ s, (view_runtime name now (sh_runtimes s), s));
  running_as ← match rv_pid view with
               | Some pid => read_running_identity pid
               | None => mret None
               end;
  cfg <-? reads (λ s,
    match cf_get name (sh_config s) with
    | None => Err (Error.UnknownService name)
    | Some svc =>
        Ok (svc, (λ s, (sc_name s, sc_depends_on s)) <$> cf_services (sh_config s))
    end);
  let '(svc, services_deps) := cfg in
  let states := rv_states view in
  match subgraph name services_deps with
  | None => no_return
  | Some found =>
      source <-? match output with
                 | Protocol.Json =>
                     find_service_source (sv_dropins_dir self) (sv_config_path self) name
                 | Human => mret (Ok None)
                 end;
      mret (Ok {|
        sd_status := set_labels (sc_labels svc) (rv_status view);
        sd_uptime_secs := rv_uptime view;
        sd_depends_on := sorted_nodes states (sc_depends_on svc);
        sd_dependents := sorted_nodes states (dependents_of name services_deps);
        sd_dep_nodes := sorted_nodes states (elements (se_visited found));
        sd_dep_edges := bset_iter (se_edges found);
        sd_events := rv_events view;
        sd_running_as := running_as;
        sd_security_context := sc_security_context svc;
        sd_source := source;
      |})
  end.
End describe.

(** ** Specification of the subgraph *)

(** [s] lists [d] among its dependencies. *)
Definition dep_edge (services_deps : list (string * list string)) (d s : string) : Prop :=
  ∃ deps, (s, deps) ∈ services_deps ∧ d ∈ deps.

Definition linked (services_deps : list (string * list string)) (a b : string) : Prop :=
  dep_edge services_deps a b ∨ dep_edge services_deps b a.

(** The neighbours recorded for a node. *)
Definition neighbours (m : gmap string (list string)) (n : string) : list string := default [] (m !! n).

Lemma push_edge_neighbours k v m n x :
  x ∈ neighbours (push_edge k v m) n ↔ x ∈ neighbours m n ∨ (n = k ∧ x = v).
Proof.
  unfold neighbours, push_edge. rewrite lookup_insert. case_decide as Hk; simpl.
  - subst. rewrite elem_of_app, list_elem_of_singleton. naive_solver.
  - naive_solver.
Qed.

(** What the maps hold is given by a relation. *)
Definition adjacency (acc : gmap string (list string) * gmap string (list string))
    (E : string → string → Prop) : Prop :=
  ∀ d s, (s ∈ neighbours acc.1 d ↔ E d s) ∧ (d ∈ neighbours acc.2 s ↔ E d s).

Lemma build_adjacency_spec services_deps :
  adjacency (build_adjacency services_deps) (dep_edge services_deps).
Proof.
  unfold build_adjacency.
  apply (foldl_inv (λ l acc, adjacency acc (dep_edge l))).
  { intros d s. unfold neighbours, dep_edge. simpl. rewrite !lookup_empty. simpl.
    split; (split; [by intros ?%elem_of_nil|by intros (? & ?%elem_of_nil & ?)]). }
  intros l1 [svc deps] l2 acc _ Hacc.
  assert (adjacency (foldl (λ '(forward, reverse) dep,
      (push_edge dep svc forward, push_edge svc dep reverse)) acc deps)
      (λ d s, dep_edge l1 d s ∨ (s = svc ∧ d ∈ deps))) as Hin.
  { apply (foldl_inv (λ ds acc, adjacency acc (λ d s, dep_edge l1 d s ∨ (s = svc ∧ d ∈ ds)))).
    - intros d s. destruct (Hacc d s) as [-> ->]. rewrite elem_of_nil. tauto.
    - intros ds dep _ [f r] _ Hds d s. simpl. rewrite !push_edge_neighbours.
      destruct (Hds d s) as [H1 H2]. simpl in H1, H2. rewrite H1, H2.
      rewrite elem_of_app, list_elem_of_singleton. naive_solver. }
  intros d s. destruct (Hin d s) as [-> ->].
  assert (dep_edge l1 d s ∨ s = svc ∧ d ∈ deps ↔ dep_edge (l1 ++ [(svc, deps)]) d s); [|tauto].
  unfold dep_edge. setoid_rewrite elem_of_app. setoid_rewrite list_elem_of_singleton. split.
  - intros [(ds & ? & ?)|[-> ?]]; eauto.
  - intros (ds & [?|[= -> ->]] & ?); eauto.
Qed.

(** What following the edges to a list of nodes does. *)
Lemma follow_all (e : string → string * string) l s :
  let s' := foldl (λ s n, follow (e n) n s) s l in
  (∀ n, n ∈ se_visited s' ↔ n ∈ se_visited s ∨ n ∈ l) ∧
  (∀ x, x ∈ se_edges s' ↔ x ∈ se_edges s ∨ ∃ n, n ∈ l ∧ x = e n) ∧
  (∃ new, se_queue s' = se_queue s ++ new ∧ NoDup new ∧
    se_visited s' = list_to_set new ∪ se_visited s ∧ ∀ n, n ∈ new → n ∉ se_visited s).
Proof.
  simpl. revert s. induction l as [|n l IH]; intros s; simpl.
  { split_and!; [set_solver|set_solver|]. exists []. rewrite app_nil_r. split_and!; [done|constructor|set_solver|set_solver]. }
  destruct (IH (follow (e n) n s)) as (Hv & He & new & Hq & Hnd & Hvn & Hnew). split_and!.
  - intros m. rewrite Hv. unfold follow. case_decide; simpl; set_solver.
  - intros x. rewrite He. unfold follow. case_decide; simpl; set_solver.
  - rewrite Hq, Hvn. unfold follow in *. case_decide; simpl in *.
    + exists new. split_and!; done.
    + exists (n :: new). rewrite <-app_assoc. split_and!; [done| |set_solver|].
      * constructor; [|done]. intros Hn%Hnew. set_solver.
      * intros m [->|Hm]%elem_of_cons; [done|]. apply Hnew in Hm. set_solver.
Qed.

Section universe.
Context (name : string) (services_deps : list (string * list string)).

(** Every node is a service or a dependency, or the start. *)
Definition universe : gset string :=
  {[ name ]} ∪ list_to_set (fst <$> services_deps) ∪ list_to_set (services_deps ≫= snd).

Lemma universe_size : size universe < explore_fuel services_deps.
Proof.
  unfold universe, explore_fuel.
  assert (∀ l : list string, size (list_to_set l : gset string) ≤ length l) as Hl.
  { intros l. induction l as [|x l IH]; [by rewrite list_to_set_nil, size_empty|].
    rewrite list_to_set_cons, size_union_alt, size_singleton.
    assert (size ((list_to_set l : gset string) ∖ {[x]}) ≤ size (list_to_set l : gset string))
      by (apply subseteq_size; set_solver). simpl. lia. }
  pose proof (Hl (fst <$> services_deps)) as H1. rewrite length_fmap in H1.
  pose proof (Hl (services_deps ≫= snd)) as H2.
  rewrite !size_union_alt, size_singleton.
  assert (∀ X Y : gset string, size (X ∖ Y) ≤ size X) as Hd by (intros; apply subseteq_size; set_solver).
  pose proof (Hd (list_to_set (services_deps ≫= snd)) ({[name]} ∪ list_to_set (fst <$> services_deps))).
  pose proof (Hd (list_to_set (fst <$> services_deps)) {[name]}). lia.
Qed.

End universe.

Section search.
Context (name : string) (services_deps : list (string * list string)).
Context (forward reverse : gmap string (list string)).
Context (Hadj : adjacency (forward, reverse) (dep_edge services_deps)).

#[local] Abbreviation reached := (rtc (linked services_deps) name).
#[local] Abbreviation universe := (universe name services_deps).

(** What one iteration does. *)
Lemma visit_spec cur s :
  let s' := visit forward reverse cur s in
  (∀ n, n ∈ se_visited s' ↔ n ∈ se_visited s ∨ linked services_deps cur n) ∧
  (∀ d t, (d, t) ∈ se_edges s' ↔
    (d, t) ∈ se_edges s ∨ (dep_edge services_deps d t ∧ (d = cur ∨ t = cur))) ∧
  (∃ new, se_queue s' = se_queue s ++ new ∧ NoDup new ∧
    se_visited s' = list_to_set new ∪ se_visited s ∧ ∀ n, n ∈ new → n ∉ se_visited s).
Proof.
  unfold visit. fold (neighbours reverse cur) (neighbours forward cur). simpl.
  destruct (follow_all (λ dep, (dep, cur)) (neighbours reverse cur) s)
    as (Hv1 & He1 & new1 & Hq1 & Hnd1 & Hvn1 & Hnew1).
  set (s1 := foldl _ s (neighbours reverse cur)) in *.
  destruct (follow_all (λ child, (cur, child)) (neighbours forward cur) s1)
    as (Hv2 & He2 & new2 & Hq2 & Hnd2 & Hvn2 & Hnew2).
  set (s2 := foldl _ s1 _) in *. pose proof Hadj as Ha. unfold adjacency in Ha. simpl in Ha. split_and!.
  - intros n. rewrite Hv2, Hv1. destruct (Ha n cur) as [_ ->]. destruct (Ha cur n) as [-> _].
    unfold linked. tauto.
  - intros d t. rewrite He2, He1. split.
    + intros [[?|(n & Hn & [= -> ->])]|(n & Hn & [= -> ->])]; [by left| |].
      * apply (Ha n cur) in Hn. auto.
      * apply (Ha cur n) in Hn. auto.
    + intros [?|[Hd [->| ->]]]; [by left; left| |].
      * right. exists t. split; [|done]. by apply (Ha cur t).
      * left. right. exists d. split; [|done]. by apply (Ha d cur).
  - exists (new1 ++ new2). rewrite Hq2, Hq1, Hvn2, Hvn1, <-app_assoc. split_and!; [done| | |].
    + apply NoDup_app. split_and!; [done| |done]. intros n Hn1 Hn2. apply (Hnew2 n Hn2).
      rewrite Hvn1. set_solver.
    + rewrite list_to_set_app_L. set_solver.
    + intros n [Hn|Hn]%elem_of_app; [auto|]. intros Hs. apply (Hnew2 n Hn). rewrite Hv1. by left.
Qed.

(** The invariant of the loop: a visited node is queued or its edges are done. *)
Definition search_inv (s : Search) : Prop :=
  name ∈ se_visited s ∧
  (∀ n, n ∈ se_visited s → reached n) ∧
  NoDup (se_queue s) ∧
  (∀ n, n ∈ se_queue s → n ∈ se_visited s) ∧
  (∀ n m, n ∈ se_visited s → n ∉ se_queue s → linked services_deps n m → m ∈ se_visited s) ∧
  (∀ d t, dep_edge services_deps d t →
    (d ∈ se_visited s ∧ d ∉ se_queue s) ∨ (t ∈ se_visited s ∧ t ∉ se_queue s) →
    (d, t) ∈ se_edges s) ∧
  (∀ d t, (d, t) ∈ se_edges s → dep_edge services_deps d t ∧ reached d).

Lemma visit_inv cur queue s :
  se_queue s = cur :: queue → search_inv s →
  search_inv (visit forward reverse cur (mkSearch (se_visited s) (se_edges s) queue)).
Proof.
  intros Hq (Hname & Hreach & Hnd & Hsub & Hclosed & Hedges & Hsound).
  destruct (visit_spec cur (mkSearch (se_visited s) (se_edges s) queue))
    as (Hv & He & new & Hq' & Hnd' & Hvn & Hnew).
  set (s' := visit _ _ _ _) in *. simpl in *. rewrite Hq in *.
  apply NoDup_cons in Hnd as [Hcur Hnd].
  assert (cur ∈ se_visited s) as Hcv by (apply Hsub; set_solver).
  assert (∀ n, n ∈ se_visited s' → n ∉ se_queue s' → n ∈ se_visited s ∧ (n = cur ∨ n ∉ cur :: queue))
    as Hdone.
  { intros n Hn Hnq. rewrite Hvn in Hn. rewrite Hq' in Hnq. split; [set_solver|].
    destruct (decide (n = cur)); [by left|right]. set_solver. }
  unfold search_inv. split_and!.
  - apply Hv. by left.
  - intros n [Hn|Hn]%Hv; [by apply Hreach|]. eapply rtc_r; [by apply Hreach|done].
  - rewrite Hq'. apply NoDup_app. split_and!; [done| |done].
    intros n Hn Hn'. apply (Hnew n Hn'). apply Hsub. set_solver.
  - intros n. rewrite Hq', Hvn. intros [Hn|Hn]%elem_of_app; [|set_solver].
    apply elem_of_union_r. apply Hsub. by right.
  - intros n m Hn Hnq Hl. destruct (Hdone n Hn Hnq) as [Hns [->|Hncq]].
    + apply Hv. by right.
    + apply Hv. left. by eapply Hclosed.
  - intros d t Hd Hdt. apply He.
    assert ((d ∈ se_visited s ∧ (d = cur ∨ d ∉ cur :: queue)) ∨
            (t ∈ se_visited s ∧ (t = cur ∨ t ∉ cur :: queue))) as [[Hs [->|Hx]]|[Hs [->|Hx]]].
    { destruct Hdt as [[??]|[??]]; [left|right]; by apply Hdone. }
    + right. auto.
    + left. apply Hedges; [done|]. by left.
    + right. auto.
    + left. apply Hedges; [done|]. by right.
  - intros d t [Hdt|[Hd [->| ->]]]%He; [by apply Hsound|split; [done|by apply Hreach]|].
    split; [done|]. eapply rtc_r; [by apply Hreach|]. by right.
Qed.

Lemma reached_universe n : reached n → n ∈ universe.
Proof.
  revert n. apply rtc_ind_r; [unfold Describe.universe; set_solver|]. intros n m _ [(ds & Hin & Hm)|(ds & Hin & Hm)] _;
    unfold Describe.universe; rewrite !elem_of_union, !elem_of_list_to_set.
  - left. right. apply list_elem_of_fmap. by exists (m, ds).
  - right. apply list_elem_of_bind. by exists (n, ds).
Qed.

Lemma explore_spec fuel s :
  search_inv s → size universe - (size (se_visited s) - length (se_queue s)) < fuel →
  ∃ found, explore fuel forward reverse s = Some found ∧
    (∀ n, n ∈ se_visited found ↔ reached n) ∧
    (∀ d t, (d, t) ∈ se_edges found ↔ dep_edge services_deps d t ∧ reached d).
Proof.
  revert s. induction fuel as [|fuel IH]; intros s Hinv Hfuel; [lia|]. simpl.
  destruct (se_queue s) as [|cur queue] eqn:Hq.
  - exists s. split; [done|]. destruct Hinv as (Hname & Hreach & _ & _ & Hclosed & Hedges & Hsound).
    rewrite Hq in *.
    assert (∀ n, reached n → n ∈ se_visited s) as Hall.
    { apply rtc_ind_r; [done|]. intros n m _ Hl Hn. eapply Hclosed; [done|set_solver|done]. }
    split; [split; auto|]. intros d t. split; [by apply Hsound|]. intros [Hd Hr]. apply Hedges; [done|].
    left. split; [auto|set_solver].
  - pose proof (visit_inv cur queue s Hq Hinv) as Hinv'. apply IH; [done|].
    destruct (visit_spec cur (mkSearch (se_visited s) (se_edges s) queue))
      as (_ & _ & new & Hq' & Hnd' & Hvn & Hnew).
    set (s' := visit _ _ _ _) in *. simpl in *. rewrite Hq', length_app, Hvn.
    assert (size (list_to_set new ∪ se_visited s) = length new + size (se_visited s)) as Hsz.
    { rewrite size_union; [by rewrite size_list_to_set|]. set_solver. }
    assert (size (list_to_set new ∪ se_visited s) ≤ size universe) as Hle.
    { apply subseteq_size. intros n. rewrite <-Hvn. intros Hn. apply reached_universe. by apply Hinv'. }
    destruct Hinv as (_ & _ & Hnd & Hsub & _).
    assert (length (se_queue s) ≤ size (se_visited s)) as Hql.
    { rewrite <-(size_list_to_set (C := gset string) (se_queue s)) by done. apply subseteq_size.
      intros n. rewrite elem_of_list_to_set. apply Hsub. }
    rewrite Hq in Hql. simpl in *. lia.
Qed.
End search.

Lemma subgraph_found name services_deps :
  ∃ found, subgraph name services_deps = Some found ∧
    (∀ n, n ∈ se_visited found ↔ rtc (linked services_deps) name n) ∧
    (∀ d t, (d, t) ∈ se_edges found ↔
      dep_edge services_deps d t ∧ rtc (linked services_deps) name d).
Proof.
  unfold subgraph. pose proof (build_adjacency_spec services_deps) as Hadj.
  destruct (build_adjacency services_deps) as [forward reverse].
  apply explore_spec; [done| |].
  - unfold search_inv; simpl. split_and!.
    + set_solver.
    + intros n ->%elem_of_singleton. constructor.
    + apply NoDup_singleton.
    + intros n ->%list_elem_of_singleton. set_solver.
    + set_solver.
    + set_solver.
    + set_solver.
  - cbn [se_visited se_queue length]. rewrite size_singleton. pose proof (universe_size name services_deps). lia.
Qed.

(** ** Properties *)

(** C38: The search of [describe] always ends and finds exactly the services
    connected to the named one through dependencies in either direction, with
    exactly the dependency edges among them. *)
Theorem subgraph_spec name services_deps :
  ∃ found, subgraph name services_deps = Some found ∧
    (∀ n, n ∈ se_visited found ↔ rtc (linked services_deps) name n) ∧
    (∀ d t, (d, t) ∈ se_edges found ↔
      dep_edge services_deps d t ∧ rtc (linked services_deps) name d).
Proof. apply subgraph_found. Qed.
