(* ===== verification/Isolation.v ===== *)
(** What a monitor thread may change: its own runtime, its channel, the exits it
    takes, the logs and the watchers; and nothing else. *)

From S2P Require Import Prelude Constants Error Security Config Protocol Logs Watch Reaper.
From S2P Require Import Runtime World Logic EnvFile Service Liveness Store Supervisor.
From S2P Require Import Graph Monitor.
#[local] Open Scope stdpp_scope.

(** The updates of a runtime by its monitor. *)
Inductive monitor_update : (Runtime → Runtime) → Prop :=
  | mu_state now utc st pid :
      (is_Some pid → keeps_pid st = true) → monitor_update (set_state_rt now utc st pid)
  | mu_restarts utc : monitor_update (bump_restarts_rt utc)
  | mu_liveness utc detail : monitor_update (bump_liveness_rt utc detail).

(** A guarantee that allows what a thread does to logs, watchers, exits and its
    channel. *)
Record quiet_closed (G : Shared → Shared → Prop) : Prop := {
  mc_refl : Reflexive G;
  mc_push_service line s : G s (set_hub (push_service line (sh_hub s)) s);
  mc_push_mixed line s : G s (set_hub (push_mixed line (sh_hub s)) s);
  mc_send_line line s : G s (set_hub (send_line line (sh_hub s)) s);
  mc_watch services s : G s (set_watch (watch_publish services (sh_watch s)) s);
  mc_take pid s : G s (set_exits (delete pid (sh_exits s)) s);
  mc_recv c ch m q s :
    sh_chans s !! c = Some ch → ch_queue ch = m :: q →
    G s (set_channels (sh_ctl s) (<[c := mkChan q (ch_sender ch) (ch_receiver ch)]> (sh_chans s))
           (sh_next_chan s) s);
  mc_drop c s : G s (set_channels (sh_ctl s) (drop_receiver c (sh_chans s)) (sh_next_chan s) s);
}.

(** A guarantee that also allows the updates of the monitor of [name]. *)
Record monitor_closed (name : string) (G : Shared → Shared → Prop) : Prop := {
  mc_quiet : quiet_closed G;
  mc_runtime f s : monitor_update f → G s (set_runtimes (alter f name (sh_runtimes s)) s);
}.

(** A guarantee about parts of the state that these do not touch. *)
Ltac closed_solve :=
  repeat lazymatch goal with |- quiet_closed _ => split | |- monitor_closed _ _ => split end;
  try apply _; unfold kept, same; intros; try done.

#[export] Hint Extern 2 (Reflexive ?G) =>
  match goal with
  | HG : quiet_closed G |- _ => exact (mc_refl _ HG)
  | HG : monitor_closed _ G |- _ => exact (mc_refl _ (mc_quiet _ _ HG))
  end : typeclass_instances.

Section quiet.
Context `{Host, Nss, HashOrder, Json, DataDir}.
Context (G : Shared → Shared → Prop) (HG : quiet_closed G).

Lemma keeps_emit service level msg : guarantees G (emit service level msg).
Proof. unfold emit, publish_line. keeps_solve; intros; by apply HG. Qed.
#[local] Hint Resolve keeps_emit : keeps.

Lemma keeps_notify_watchers : guarantees G notify_watchers.
Proof. unfold notify_watchers, list_. keeps_solve; intros; by apply HG. Qed.
#[local] Hint Resolve keeps_notify_watchers : keeps.

Lemma keeps_registry_take pid : guarantees G (registry_take pid).
Proof. unfold registry_take. keeps_solve; intros; by apply HG. Qed.
#[local] Hint Resolve keeps_registry_take : keeps.

Lemma keeps_wait_take pid timeout : guarantees G (wait_take pid timeout).
Proof.
  unfold wait_take. keeps_solve. generalize dependent a1. intros n. revert a0.
  induction n as [|n IH]; intros d; simpl; keeps_solve.
Qed.
#[local] Hint Resolve keeps_wait_take : keeps.

Lemma keeps_poll {A} fuel deadline period (body : M (option A)) :
  (∀ d, guarantees G (period d)) → guarantees G body → guarantees G (poll fuel deadline period body).
Proof. intros Hp Hb. induction fuel as [|fuel IH]; simpl; keeps_solve. Qed.

Lemma keeps_terminate_pid pid grace : guarantees G (terminate_pid pid grace).
Proof. unfold terminate_pid. keeps_solve. apply keeps_poll; keeps_solve. Qed.
#[local] Hint Resolve keeps_terminate_pid : keeps.

Lemma keeps_wait_via_owned pid n bound : guarantees G (wait_via_owned pid n bound).
Proof.
  unfold wait_via_owned. destruct bound; keeps_solve. revert a0. intros deadline.
  generalize (rounds d CHILD_WAIT_POLL). intros fuel. induction fuel as [|fuel IH]; keeps_solve.
Qed.
#[local] Hint Resolve keeps_wait_via_owned : keeps.

Lemma keeps_wait_forever fuel pid : guarantees G (wait_forever fuel pid).
Proof. induction fuel as [|fuel IH]; simpl; keeps_solve. Qed.
#[local] Hint Resolve keeps_wait_forever : keeps.

Lemma keeps_spawn_shell_cmd cmd cfg env quiet : guarantees G (spawn_shell_cmd cmd cfg env quiet).
Proof. unfold spawn_shell_cmd, build_shell_command, spawn_command, env_snapshot. keeps_solve. Qed.
#[local] Hint Resolve keeps_spawn_shell_cmd : keeps.

Lemma keeps_spawn_shell cmd cfg : guarantees G (spawn_shell cmd cfg).
Proof. unfold spawn_shell, build_shell_command, spawn_command, env_snapshot. keeps_solve. Qed.
#[local] Hint Resolve keeps_spawn_shell : keeps.

Lemma keeps_wait_spawned_child pid n bound : guarantees G (wait_spawned_child pid n bound).
Proof. unfold wait_spawned_child, wait_via_registry. keeps_solve. Qed.
#[local] Hint Resolve keeps_wait_spawned_child : keeps.

Lemma keeps_run_shell cmd cfg env : guarantees G (run_shell cmd cfg env).
Proof. unfold run_shell. keeps_solve. Qed.
#[local] Hint Resolve keeps_run_shell : keeps.

Lemma keeps_run_probe probe cfg : guarantees G (run_probe probe cfg).
Proof.
  unfold run_probe, run_shell_quiet_timeout, run_tcp_probe, run_http_probe. keeps_solve.
  all: match goal with |- guarantees _ (try_connect ?a ?e ?l) => generalize e; induction l; intros; simpl; keeps_solve end.
Qed.
#[local] Hint Resolve keeps_run_probe : keeps.

Lemma keeps_emit_init level msg : guarantees G (emit_init level msg).
Proof. apply keeps_emit. Qed.
#[local] Hint Resolve keeps_emit_init : keeps.

Lemma keeps_schedule_liveness cfg : guarantees G (schedule_liveness cfg).
Proof. unfold schedule_liveness. keeps_solve. Qed.
#[local] Hint Resolve keeps_schedule_liveness : keeps.

Lemma keeps_enabled_or d n : guarantees G (enabled_or d n).
Proof. unfold enabled_or, load_enabled. keeps_solve. Qed.
#[local] Hint Resolve keeps_enabled_or : keeps.

Lemma keeps_run_stop cfg : guarantees G (run_stop cfg).
Proof. unfold run_stop. keeps_solve. Qed.
#[local] Hint Resolve keeps_run_stop : keeps.

Lemma keeps_stop_tracked cfg tracked : guarantees G (stop_tracked cfg tracked).
Proof. unfold stop_tracked. keeps_solve. Qed.
#[local] Hint Resolve keeps_stop_tracked : keeps.

Lemma keeps_recv_timeout c d : guarantees G (recv_timeout c d).
Proof.
  unfold recv_timeout. apply keeps_bind; [by apply keeps_effect|]. intros _.
  apply keeps_atomic. intros s. destruct (sh_chans s !! c) as [ch|] eqn:Hc; [|done].
  destruct (ch_queue ch) as [|m q] eqn:Hq; simpl; [done|]. by eapply mc_recv.
Qed.

Lemma keeps_await_early_exit pid wait : guarantees G (await_early_exit pid wait).
Proof. unfold await_early_exit. keeps_solve. apply keeps_poll; keeps_solve. Qed.
End quiet.

Section monitor.
Context `{Host, Nss, HashOrder, Json, DataDir}.
Context (name : string) (G : Shared → Shared → Prop) (HG : monitor_closed name G).

Lemma closed_quiet : quiet_closed G.
Proof. apply HG. Qed.
#[local] Hint Resolve closed_quiet : keeps.
#[local] Hint Resolve keeps_emit keeps_emit_init keeps_notify_watchers keeps_registry_take
  keeps_wait_take keeps_terminate_pid keeps_spawn_shell keeps_run_shell keeps_run_probe
  keeps_schedule_liveness keeps_enabled_or keeps_stop_tracked keeps_recv_timeout
  keeps_await_early_exit : keeps.

Lemma keeps_update_runtime f :
  (∀ now utc, monitor_update (f now utc)) → guarantees G (update_runtime name f).
Proof. intros Hf. unfold update_runtime. keeps_solve; intros; by apply HG. Qed.

Lemma keeps_apply_state st pid :
  (is_Some pid → keeps_pid st = true) → guarantees G (apply_state name st pid).
Proof.
  intros Hp. unfold apply_state, set_state. keeps_solve. apply keeps_update_runtime.
  intros. by constructor.
Qed.

Lemma keeps_apply_none st : guarantees G (apply_state name st None).
Proof. apply keeps_apply_state. by intros []. Qed.
#[local] Hint Resolve keeps_apply_none : keeps.

Section own.
Context (cfg : ServiceConfig) (Hcfg : sc_name cfg = name).

Lemma keeps_start_failed prefix r : guarantees G (start_failed name prefix r).
Proof. unfold start_failed. keeps_solve. Qed.
#[local] Hint Resolve keeps_start_failed : keeps.

Lemma keeps_do_start tracked force : guarantees G (do_start cfg tracked force).
Proof.
  unfold do_start, launch, finish_daemon, finish_job, check_deps, warn_forced,
    load_enabled. rewrite Hcfg. keeps_solve. by apply keeps_apply_state.
Qed.
#[local] Hint Resolve keeps_do_start : keeps.

Lemma keeps_bump_restarts : guarantees G (bump_restarts name).
Proof. apply keeps_update_runtime. intros. constructor. Qed.
#[local] Hint Resolve keeps_bump_restarts : keeps.

Lemma keeps_on_process_exit tracked code : guarantees G (on_process_exit cfg tracked code).
Proof. unfold on_process_exit, load_stop_all. rewrite Hcfg. keeps_solve. Qed.
#[local] Hint Resolve keeps_on_process_exit : keeps.

Lemma keeps_probe_now probe st l : guarantees G (probe_now cfg probe st l).
Proof.
  unfold probe_now, probe_failed, bump_liveness_failures. rewrite Hcfg. keeps_solve.
  apply keeps_update_runtime. intros. constructor.
Qed.
#[local] Hint Resolve keeps_probe_now : keeps.

Lemma keeps_maybe_liveness l : guarantees G (maybe_liveness cfg l).
Proof. unfold maybe_liveness. rewrite Hcfg. keeps_solve. Qed.

Lemma keeps_start_and_schedule tracked force streak :
  guarantees G (start_and_schedule cfg tracked force streak).
Proof. unfold start_and_schedule. rewrite Hcfg. keeps_solve. Qed.
#[local] Hint Resolve keeps_start_and_schedule : keeps.

Lemma keeps_handle_msg msg l : guarantees G (handle_msg cfg msg l).
Proof. unfold handle_msg, run_restart. rewrite Hcfg. keeps_solve. Qed.
End own.
#[local] Hint Resolve keeps_do_start
  keeps_on_process_exit keeps_start_and_schedule keeps_maybe_liveness keeps_handle_msg : keeps.

Lemma yields_service_cfg n : yields (λ r, ∀ cfg, r = Ok cfg → sc_name cfg = n) (service_cfg n).
Proof.
  apply yields_reads. intros s cfg. unfold cf_get.
  destruct (find_first _ _) as [c|] eqn:Hc; intros [= ->].
  apply find_first_Some in Hc as [_ Hc]. by apply bool_decide_eq_true in Hc.
Qed.

(** What follows the lookup of the service's definition. *)
Lemma keeps_with_cfg {B} (f : Result ServiceConfig → M B) :
  (∀ cfg, sc_name cfg = name → guarantees G (f (Ok cfg))) → (∀ e, guarantees G (f (Err e))) →
  guarantees G (service_cfg name ≫= f).
Proof.
  intros Hok Herr. eapply keeps_bind_yields; [|apply yields_service_cfg|].
  - unfold service_cfg. keeps_solve.
  - intros [cfg|e] Hc; [apply Hok; by apply Hc|apply Herr].
Qed.

#[local] Ltac keeps_cfg := repeat (
  lazymatch goal with
  | |- guarantees _ (mbind _ (service_cfg _)) => apply keeps_with_cfg; [intros ? ?|intros ?]
  | _ => keeps_step
  end || match goal with |- ∀ _, guarantees _ _ => intro end).

Lemma keeps_watch_process l : guarantees G (watch_process name l).
Proof.
  unfold watch_process, load_stop_all. keeps_cfg.
Qed.
#[local] Hint Resolve keeps_watch_process : keeps.

Lemma keeps_monitor_step c l : guarantees G (monitor_step name c l).
Proof.
  unfold monitor_step, load_stop_all. keeps_cfg.
Qed.
#[local] Hint Resolve keeps_monitor_step : keeps.

(** A monitor keeps whatever its updates and the other threads keep. *)
Lemma keeps_monitor_loop n c : guarantees G (monitor_loop n name c).
Proof.
  unfold monitor_loop. generalize (mkLocal None None 0). induction n as [|n IH]; intros l; simpl; keeps_solve.
  intros; by apply HG.
Qed.
End monitor.

(** ** Isolation *)

(** Everything but the runtime of [name] itself, the channels' contents, the exits,
    the logs and the watchers; the [enabled] flags and the set of services in full. *)
Definition others (name : string) (s : Shared) :=
  (delete name (sh_runtimes s), rt_enabled <$> sh_runtimes s, (sh_stop_all s, sh_config s),
   (sh_ctl s, sh_next_chan s), (sh_env s, sh_files s, sh_reaper_started s),
   (sh_signals s, sh_process_env s, sh_otel_cache s), (sh_version s, sh_bridge s)).

Lemma monitor_update_enabled f rt : monitor_update f → rt_enabled (f rt) = rt_enabled rt.
Proof. intros [now utc st pid _|utc|utc d]; [|done..]. unfold set_state_rt; simpl. by case_decide. Qed.

Lemma others_closed name : monitor_closed name (same (others name)).
Proof.
  split; [by split; intros|]. intros f s Hf. unfold same, others; simpl.
  rewrite delete_alter_eq. do 6 f_equal. apply map_eq. intros n. rewrite !lookup_fmap.
  destruct (decide (n = name)) as [->|Hn]; [|by rewrite lookup_alter_ne].
  rewrite lookup_alter_eq. destruct (sh_runtimes s !! name); simpl; [|done].
  f_equal. by apply monitor_update_enabled.
Qed.

(** C12: However long it runs and whatever the other threads do, no atomic section of
    the monitor thread of a service changes another service's runtime, an [enabled]
    flag, which services exist, the configuration, the stop flag, the control
    channels' senders, the environment cache, the files, the signal flags (so it asks
    for no shutdown and no reload), the process environment, the settings cache, the
    version or the log bridge; so these are what they were after it, when the other
    threads leave them alone too.  What it may change besides its runtime are the
    channels' contents, the exits, the log hub and the watchers: nothing is said of those. *)
Theorem monitor_isolation `{Host, Nss} n name c w :
  (∃ new, ran w new (monitor_loop n name c w).2 ∧ Forall (within (same (others name))) new) ∧
  ((∀ h s, others name (interfere h s) = others name s) →
   others name (shared (monitor_loop n name c w).2) = others name (shared w)).
Proof.
  assert (guarantees (same (others name)) (monitor_loop n name c)) as Hk
    by (apply keeps_monitor_loop, others_closed).
  split; [apply Hk|]. intros Hrely.
  by apply (keeps_survives (λ s, others name s = others name (shared w)) _ (λ h s Hs, eq_trans (Hrely h s) Hs)
    (guarantees_same_kept _ (λ x, x = _) _ Hk)).
Qed.

(** A run of the monitor of [web] that starts the process while the other threads
    only report exits. *)
Definition start_web : Shared :=
  set_channels {[ "web" := 0 ]} {[ 0 := mkChan [CtlStart true] true true ]} 1
    (example_shared example_services).

Lemma monitor_isolation_witness :
  let w := (monitor_loop (H := quiet_host) (H0 := example_nss) 3 "web" 0 (mkWorld start_web [])).2 in
  (rt_state <$> sh_runtimes (shared w) !! "web" = Some ServiceState.Running) ∧
  others "web" (shared w) = others "web" start_web.
Proof.
  split; [vm_compute; reflexivity|].
  apply (proj2 (monitor_isolation (H := quiet_host) (H0 := example_nss) 3 "web" 0 (mkWorld start_web []))).
  done.
Defined.
