(* ===== verification/Timing.v ===== *)
(** Time and events: waiting loops end, termination escalates, and a process is
    only spawned when it may be. *)

From S2P Require Import Prelude Constants RustStr Error Security Config Graph Protocol Logs Watch.
From S2P Require Import Reaper Runtime World Logic EnvFile Service Supervisor Monitor.
#[local] Open Scope stdpp_scope.

(** ** Clocks *)

(** The monotonic clock never goes back, and sleeping takes at least its duration. *)
Class ClockLaws `{Host} : Prop := {
  clock_mono e h : (clock h ≤ clock (e :: h))%N;
  clock_sleep d h : (clock h + d ≤ clock (EvSleep d :: h))%N;
}.

#[export] Instance example_clock_laws others : ClockLaws (H := example_host others).
Proof.
  split; simpl.
  - intros e h. assert (∀ d, (elapsed h ≤ d + elapsed h)%N) by (intros; lia). destruct e; simpl; lia.
  - intros d h. lia.
Qed.

Lemma clock_app `{ClockLaws} new h : (clock h ≤ clock (new ++ h))%N.
Proof.
  induction new as [|e new IH]; simpl; [lia|]. etrans; [exact IH|]. apply clock_mono.
Qed.

Section poll.
Context `{ClockLaws} {A : Type}.
Context (deadline per : N) (period : N → M N) (body : M (option A)).
Context (Hper : (0 < per)%N).

(** A body that always returns, and a period at least [per] or to the deadline. *)
Context (Hbody : returning body (λ _ _, True)).
Context (Hperiod : returning (period deadline)
  (λ d w, (per ≤ d)%N ∨ (deadline ≤ clock (hist w) + d)%N)).

Lemma poll_returns fuel w :
  0 < fuel →
  ((clock (hist w) < deadline)%N → 2 + N.to_nat ((deadline - clock (hist w)) / per) ≤ fuel) →
  ∃ r w', poll fuel deadline period body w = (Some r, w') ∧ later w w' ∧
    (r = None → (deadline ≤ clock (hist w'))%N).
Proof.
  revert w. induction fuel as [|fuel IH]; intros w Hf Hfuel; [lia|]. cbn [poll].
  unfold instant_now at 1, asks, mbind, M_bind. cbn [hist shared].
  set (w1 := mkWorld (shared w) (EvNow :: hist w)).
  assert (later w w1) as Hw1 by by exists [EvNow].
  case_decide as Hlt.
  2:{ exists None, w1. split; [done|]. split; [done|]. intros _.
      pose proof (clock_mono EvNow (hist w)). simpl. lia. }
  destruct (Hbody w1) as (r & w2 & Hb & Hw2 & _). rewrite Hb. destruct r as [a|].
  { exists (Some a), w2. split; [done|]. split; [by eapply later_trans|done]. }
  destruct (Hperiod w2) as (d & w3 & Hp & Hw3 & Hd). rewrite Hp.
  unfold sleep, effect. set (w4 := mkWorld (shared w3) (EvSleep d :: hist w3)).
  assert (later w w3) as Hl3 by (do 2 (eapply later_trans; [eassumption|]); exact Hw3).
  assert (later w3 w4) as Hl4 by by exists [EvSleep d].
  assert (clock (hist w) + d ≤ clock (hist w4))%N as Hclock.
  { destruct Hl3 as [new Hnew]. pose proof (clock_sleep d (hist w3)). pose proof (clock_app new (hist w)).
    rewrite <-Hnew in *. simpl. lia. }
  assert (clock (hist w3) + d ≤ clock (hist w4))%N as Hclock3 by apply clock_sleep.
  specialize (Hfuel Hlt).
  set (q := N.to_nat ((deadline - clock (hist w)) / per)) in Hfuel.
  destruct (IH w4) as (r & w5 & Hr & Hw5 & Hlast); [lia| |].
  - intros Hlt4. destruct Hd as [Hd|Hd]; [|lia].
    assert ((deadline - clock (hist w4)) / per + 1 ≤ (deadline - clock (hist w)) / per)%N as Hdiv.
    2:{ set (q' := ((deadline - clock (hist w4)) / per)%N) in *. unfold q in Hfuel.
        set (q0 := ((deadline - clock (hist w)) / per)%N) in *. lia. }
    rewrite <-N.div_add with (b := 1%N) by lia. apply N.Div0.div_le_mono. lia.
  - exists r, w5. split; [exact Hr|]. split; [|done].
    eapply later_trans; [exact Hl3|]. by eapply later_trans.
Qed.
End poll.

(** A polling loop that ends with a result ends with its body. *)
Lemma poll_Some `{Host} {A} fuel deadline period (body : M (option A)) w a w' :
  poll fuel deadline period body w = (Some (Some a), w') → ∃ w1, body w1 = (Some (Some a), w').
Proof.
  revert w. induction fuel as [|fuel IH]; intros w; cbn [poll]; [done|].
  intros (now & w1 & _ & Hr)%bind_Some. case_decide; [|done].
  apply bind_Some in Hr as (r & w2 & Hb & Hr). destruct r as [a'|].
  - injection Hr as -> ->. eauto.
  - apply bind_Some in Hr as (d & w3 & _ & Hr). apply bind_Some in Hr as ([] & w4 & _ & Hr).
    by eapply IH.
Qed.

Lemma emits_poll `{Host} {A} P fuel deadline period (body : M (option A)) :
  P EvNow → (∀ d, P (EvSleep d)) → emits P body → (∀ d, emits P (period d)) →
  emits P (poll fuel deadline period body).
Proof. intros Hn Hs Hb Hp. induction fuel as [|fuel IH]; cbn [poll]; emits_solve. Qed.

Lemma rounds_enough (wait per now deadline : N) :
  (deadline - now ≤ wait)%N → 2 + N.to_nat ((deadline - now) / per) ≤ rounds wait per.
Proof.
  intros Hle. unfold rounds. pose proof (N.Div0.div_le_mono (deadline - now) wait per Hle) as Hd.
  set (x := ((deadline - now) / per)%N) in *. set (y := (wait / per)%N) in *. lia.
Qed.

Section waits.
Context `{ClockLaws}.

Lemma instant_add_fits t d : (t + d ≤ INSTANT_MAX)%N → instant_add t d = mret (t + d)%N.
Proof. intros Hd. unfold instant_add. by rewrite decide_True. Qed.

Lemma instant_add_overflow t d : (INSTANT_MAX < t + d)%N → instant_add t d = no_return.
Proof. intros Hd. unfold instant_add. rewrite decide_False; [done|]. apply N.lt_nge, Hd. Qed.

(** The events of waiting for a process to go away. *)
Definition probing (pid : Z) (e : Event) : Prop :=
  e = EvNow ∨ e = EvKill pid KillProbe ∨ ∃ d, e = EvSleep d.

(** How [terminate_pid] ends, after the first signal: a probe found no such process,
    or the grace period has passed and the process is killed. *)
Definition terminated (pid : Z) (grace : N) (h new : list Event) : Prop :=
  (∃ h', new ++ h = EvKill pid KillProbe :: h' ∧ kill_no_process h' pid = true ∧
         Forall (probing pid) new) ∨
  (∃ new', new = EvKill pid KillKill :: new' ∧ Forall (probing pid) new' ∧
           (clock h + from_secs grace ≤ clock (new' ++ h))%N).

Lemma terminate_pid_waits pid grace w :
  (grace ≠ 0)%N →
  let h := EvKill pid KillTerm :: hist w in
  if decide (clock h + from_secs grace ≤ INSTANT_MAX)%N then
    ∃ new w', terminate_pid pid grace w = (Some tt, w') ∧ hist w' = new ++ h ∧
      terminated pid grace h new
  else (terminate_pid pid grace w).1 = None.
Proof.
  intros Hg h. unfold terminate_pid. rewrite (decide_False (P := (grace = 0)%N)) by done.
  set (body := asks _ _ ≫= _). set (K := λ r : option unit, _).
  change ((effect (EvKill pid KillTerm) ≫= λ _, _) w) with
    ((instant_now ≫= λ now, instant_add now (from_secs grace) ≫= λ deadline,
      poll (rounds (from_secs grace) TERMINATE_POLL) deadline (λ _, mret TERMINATE_POLL) body ≫= K)
      (mkWorld (shared w) h)).
  set (w1 := mkWorld (shared w) (EvNow :: h)).
  change (mbind (M := M) _ instant_now _) with
    ((instant_add (clock h) (from_secs grace) ≫= λ deadline,
      poll (rounds (from_secs grace) TERMINATE_POLL) deadline (λ _, mret TERMINATE_POLL) body ≫= K) w1).
  case_decide as Hfit.
  2:{ rewrite instant_add_overflow by (apply N.nle_gt, Hfit). done. }
  rewrite instant_add_fits by done. set (deadline := (clock h + from_secs grace)%N).
  change (mbind (M := M) _ (mret deadline) w1) with
    ((poll (rounds (from_secs grace) TERMINATE_POLL) deadline (λ _, mret TERMINATE_POLL) body ≫= K) w1).
  assert (clock h ≤ clock (hist w1))%N as Hmono by apply clock_mono.
  destruct (poll_returns deadline TERMINATE_POLL (λ _, mret TERMINATE_POLL) body)
    with (fuel := rounds (from_secs grace) TERMINATE_POLL) (w := w1) as (r & w2 & Hr & Hl & Hlast).
  - done.
  - intros w0. eexists _, _. split; [reflexivity|]. split; [|done]. by exists [EvKill pid KillProbe].
  - intros w0. eexists _, _. split; [reflexivity|]. split; [apply later_refl|]. by left.
  - apply Nat.lt_0_succ.
  - intros _. apply rounds_enough. unfold deadline. lia.
  - assert (∃ new, hist w2 = new ++ h ∧ Forall (probing pid) new) as (new & Hnew & Hp).
    { destruct (emits_poll (probing pid) (rounds (from_secs grace) TERMINATE_POLL) deadline
        (λ _, mret TERMINATE_POLL) body) with (w := w1) as (new & Hn & Hp).
      - by left.
      - intros d. right. right. eauto.
      - unfold body. emits_solve. right. by left.
      - intros d. emits_solve.
      - rewrite Hr in Hn. simpl in Hn. exists (new ++ [EvNow]). rewrite Hn, <-app_assoc. split; [done|].
        apply Forall_app. split; [done|]. constructor; [by left|done]. }
    unfold mbind at 1, M_bind. rewrite Hr. destruct r as [[]|]; unfold K.
    + exists new, w2. split; [done|]. split; [done|]. left.
      apply poll_Some in Hr as (w3 & Hb). unfold body in Hb.
      injection Hb as Hgone Hw. exists (hist w3). subst w2. simpl in Hnew. rewrite <-Hnew.
      split; [done|]. split; [by destruct (kill_no_process (hist w3) pid)|done].
    + exists (EvKill pid KillKill :: new), (mkWorld (shared w2) (EvKill pid KillKill :: hist w2)).
      split; [done|]. split; [simpl; by rewrite Hnew|]. right. exists new. split; [done|]. split; [done|].
      rewrite <-Hnew. by apply Hlast.
Qed.
End waits.

(** ** Computations that always return *)

Section returning.
Context `{Host}.

Lemma returns_notify_watchers : returns notify_watchers.
Proof. unfold notify_watchers, list_. returns_solve. Qed.
#[local] Hint Resolve returns_notify_watchers : returns.

Lemma returns_apply_state name st pid : returns (apply_state name st pid).
Proof. unfold apply_state, set_state, update_runtime. returns_solve. Qed.

Lemma returns_registry_take pid : returns (registry_take pid).
Proof. apply returns_atomic. Qed.

Lemma returns_emit service level msg : returns (emit service level msg).
Proof. unfold emit, publish_line. returns_solve. Qed.

Lemma returns_emit_init level msg : returns (emit_init level msg).
Proof. apply returns_emit. Qed.

Lemma returns_send_ctl name msg : returns (send_ctl name msg).
Proof. unfold send_ctl. returns_solve. Qed.
End returning.
#[export] Hint Resolve returns_notify_watchers returns_apply_state returns_registry_take : returns.
#[export] Hint Resolve returns_emit returns_emit_init returns_send_ctl : returns.

Section daemon.
Context `{Host, Nss, !ClockLaws}.

(** Waiting for a daemon ends exactly when the deadline can be represented; without
    an exit, the whole wait has passed. *)
Lemma await_early_exit_returns pid wait w :
  if decide (clock (hist w) + wait ≤ INSTANT_MAX)%N then
    ∃ r w', await_early_exit pid wait w = (Some r, w') ∧ later w w' ∧
      (r = None → clock (hist w) + wait ≤ clock (hist w'))%N
  else (await_early_exit pid wait w).1 = None.
Proof.
  unfold await_early_exit.
  set (K := λ r : option Z, match r with Some code => mret (M := M) (Some code) | None => registry_take pid end).
  set (w1 := mkWorld (shared w) (EvNow :: hist w)).
  change (mbind (M := M) _ instant_now w) with
    (mbind (M := M) (λ deadline, mbind (M := M) K
      (poll (rounds wait CTL_POLL) deadline
        (λ deadline, now ← instant_now; mret (N.min (deadline - now) CTL_POLL))
        (registry_take pid))) (instant_add (clock (hist w)) wait) w1).
  case_decide as Hfit.
  2:{ by rewrite instant_add_overflow by (apply N.nle_gt, Hfit). }
  rewrite instant_add_fits by done. set (deadline := (clock (hist w) + wait)%N).
  set (period := λ deadline, (now ← instant_now; mret (N.min (deadline - now) CTL_POLL)) : M N).
  assert (clock (hist w) ≤ clock (hist w1))%N as Hmono by apply clock_mono.
  destruct (poll_returns deadline CTL_POLL period (registry_take pid))
    with (fuel := rounds wait CTL_POLL) (w := w1) as (r & w2 & Hr & Hl & Hlast).
  - done.
  - apply returns_registry_take.
  - intros w0. unfold period. eexists _, _. split; [reflexivity|]. split; [by exists [EvNow]|].
    cbn [hist]. pose proof (clock_mono EvNow (hist w0)). lia.
  - apply Nat.lt_0_succ.
  - intros _. apply rounds_enough. unfold deadline. lia.
  - assert (later w w2) as Hl2 by (eapply later_trans; [|exact Hl]; by exists [EvNow]).
    assert (∀ k : option Z → M (option Z),
      mbind (M := M) k (poll (rounds wait CTL_POLL) deadline period (registry_take pid)) w1 = k r w2) as Hk.
    { intros k. unfold mbind, M_bind. by rewrite Hr. }
    change (mbind (M := M) _ (mret deadline) w1) with
      ((poll (rounds wait CTL_POLL) deadline period (registry_take pid) ≫= K) w1).
    rewrite Hk. unfold K. destruct r as [code|].
    + exists (Some code), w2. by split_and!.
    + destruct (returns_registry_take pid w2) as (r & w3 & Hr3 & Hl3 & _). exists r, w3.
      split; [exact Hr3|]. split; [by eapply later_trans|]. intros _.
      specialize (Hlast eq_refl). destruct Hl3 as [new Hnew]. pose proof (clock_app new (hist w2)) as Hc.
      rewrite <-Hnew in Hc. unfold deadline in Hlast. lia.
Qed.

(** The time a daemon has to stay up. *)
Definition start_wait (cfg : ServiceConfig) : N :=
  if decide (0 < sc_start_wait_secs cfg)%N then from_secs (sc_start_wait_secs cfg) else DAEMONIZE_GRACE.

Lemma finish_daemon_returns cfg tracked pid w :
  if decide (clock (hist w) + start_wait cfg ≤ INSTANT_MAX)%N then
    ∃ r t w', finish_daemon cfg tracked pid w = (Some (r, t), w') ∧
      (r = Ok tt → t = Some pid → clock (hist w) + start_wait cfg ≤ clock (hist w'))%N
  else (finish_daemon cfg tracked pid w).1 = None.
Proof.
  unfold finish_daemon. fold (start_wait cfg).
  pose proof (await_early_exit_returns pid (start_wait cfg) w) as Hwait.
  case_decide as Hfit.
  2:{ unfold mbind at 1, M_bind. destruct (await_early_exit _ _ _) as [[?|] ?]; done. }
  destruct Hwait as (r & w1 & Hr & Hl & Hlast). unfold mbind at 1, M_bind. rewrite Hr.
  assert (∀ st p (x : Result unit * option Z), ∃ w2,
    (apply_state (sc_name cfg) st p;; mret x) w1 = (Some x, w2) ∧ later w1 w2) as Happly.
  { intros st p x. destruct (returns_apply_state (sc_name cfg) st p w1) as ([] & w2 & Ha & Hl2 & _).
    exists w2. split; [|done]. apply bind_Some. exists (), w2. done. }
  destruct r as [code|].
  - destruct (bool_decide _ && _).
    + destruct (Happly ServiceState.Running None (Ok tt, None)) as (w2 & Ha & _).
      eexists _, _, _. split; [exact Ha|]. done.
    + match goal with |- context[mret (Err ?e, tracked)] =>
        destruct (Happly ServiceState.Failed None (Err e, tracked)) as (w2 & Ha & _) end.
      eexists _, _, _. split; [exact Ha|]. done.
  - destruct (Happly ServiceState.Running (Some pid) (Ok tt, Some pid)) as (w2 & Ha & new & Hnew).
    eexists _, _, _. split; [exact Ha|]. intros _ _. specialize (Hlast eq_refl).
    pose proof (clock_app new (hist w1)) as Hc. rewrite <-Hnew in Hc. lia.
Qed.
End daemon.

(** ** Properties *)

(** C25: Terminating a process always ends: it sends SIGTERM, then either a probe
    finds the process gone, or the whole grace period passes and it sends SIGKILL,
    with nothing but probes and sleeps in between; without a grace period the two
    signals follow at once.  It panics exactly when the end of the grace period
    cannot be represented. *)
Theorem terminate_pid_spec `{ClockLaws} pid grace w :
  let h := EvKill pid KillTerm :: hist w in
  if decide (grace = 0)%N then
    terminate_pid pid grace w = (Some tt, mkWorld (shared w) (EvKill pid KillKill :: h))
  else if decide (clock h + from_secs grace ≤ INSTANT_MAX)%N then
    ∃ new w', terminate_pid pid grace w = (Some tt, w') ∧ hist w' = new ++ h ∧
      terminated pid grace h new
  else (terminate_pid pid grace w).1 = None.
Proof.
  intros h. case_decide as Hg; [|by apply terminate_pid_waits].
  unfold terminate_pid. by rewrite decide_True.
Qed.

(** C26: Watching a started daemon ends, and panics exactly when the end of its start
    wait cannot be represented; the daemon is only tracked as up after the whole
    wait ([startWaitSecs], or the daemonize grace) has passed. *)
Theorem daemon_wait_spec `{ClockLaws, Nss} cfg pid w :
  if decide (clock (hist w) + start_wait cfg ≤ INSTANT_MAX)%N then
    ∃ r t w', finish_daemon cfg None pid w = (Some (r, t), w') ∧
      (t = Some pid → clock (hist w) + start_wait cfg ≤ clock (hist w'))%N
  else (finish_daemon cfg None pid w).1 = None.
Proof.
  pose proof (finish_daemon_returns cfg None pid w) as Hr. case_decide; [|done].
  destruct Hr as (r & t & w' & Hr & Hlast). exists r, t, w'. split; [done|]. intros ->.
  apply Hlast; [|done]. destruct r as [[]|e]; [done|]. exfalso. revert Hr. unfold finish_daemon.
  intros (x & w1 & _ & Hr)%bind_Some. destruct x as [code|]; [destruct (_ && _)|];
    apply bind_Some in Hr as (? & ? & _ & ?); by simplify_eq.
Qed.

Lemma terminate_pid_spec_witness :
  ∃ new w', terminate_pid (H := quiet_host) 7 5 (mkWorld (new_shared (example_cfg []) example_hub) [])
      = (Some tt, w') ∧ hist w' = new ++ [EvKill 7 KillTerm] ∧
    terminated (H := quiet_host) 7 5 [EvKill 7 KillTerm] new.
Proof.
  exact (terminate_pid_spec (H := quiet_host) 7 5 (mkWorld (new_shared (example_cfg []) example_hub) [])).
Defined.

Lemma daemon_wait_spec_witness :
  (finish_daemon (H := quiet_host) (example_service "web" [] 100 false) None 7
    (mkWorld (example_shared example_services) [])).1 = Some (Ok tt, Some 7%Z) ∧
  ∃ r t w', finish_daemon (H := quiet_host) (example_service "web" [] 100 false) None 7
      (mkWorld (example_shared example_services) []) = (Some (r, t), w') ∧
    (t = Some 7%Z → 0 + DAEMONIZE_GRACE ≤ clock (Host := quiet_host) (hist w'))%N.
Proof.
  split; [vm_compute; reflexivity|].
  exact (daemon_wait_spec (H := quiet_host) (H0 := _) (H1 := example_nss)
    (example_service "web" [] 100 false) 7 (mkWorld (example_shared example_services) [])).
Defined.
