(* ===== verification/Acts.v ===== *)
(** What a computation does, as predicates on the events it adds to the history: the
    processes it spawns, the exits it sees and the signals it sends. *)

From S2P Require Import Prelude Constants RustStr Error Security Config Reaper World Logic EnvFile Service Liveness.
From S2P Require Import Supervisor Monitor Timing.
#[local] Open Scope stdpp_scope.

(** ** Predicates on new events *)

(** Of new events, given those before them; the latest come first in both. *)
Definition Acts : Type := list Event → list Event → Prop.

Definition anything : Acts := λ _ _, True.
Definition nothing : Acts := λ _ new, new = [].

(** One event. *)
Definition one (φ : list Event → Event → Prop) : Acts := λ h new, ∃ e, new = [e] ∧ φ h e.

(** First these, then those. *)
Definition next (R S : Acts) : Acts := λ h new, ∃ n1 n2, new = n2 ++ n1 ∧ R h n1 ∧ S (n1 ++ h) n2.
Infix "⨾" := next (at level 60, right associativity) : microinit_scope.

Definition somewhere (R : Acts) : Acts := anything ⨾ R ⨾ anything.

(** For some value. *)
Definition of_some {X} (R : X → Acts) : Acts := λ h new, ∃ x, R x h new.

(** Every event. *)
Definition every (P : Event → Prop) : Acts := λ _ new, Forall P new.

(** What [m] returns and the events it adds, after the history [h]. *)
Definition acts_after (h : list Event) {A} (m : M A) (Q : A → list Event → Prop) : Prop :=
  ∀ w a w', hist w = h → m w = (Some a, w') → ∃ new, hist w' = new ++ h ∧ Q a new.

(** The same after any history. *)
Definition acts {A} (m : M A) (R : A → Acts) : Prop := ∀ h, acts_after h m (λ a, R a h).

Lemma next_intro (R S : Acts) h n1 n2 : R h n1 → S (n1 ++ h) n2 → (R ⨾ S) h (n2 ++ n1).
Proof. intros HR HS. by exists n1, n2. Qed.

Lemma next_mono (R R' S S' : Acts) h new :
  (∀ h n, R h n → R' h n) → (∀ h n, S h n → S' h n) → (R ⨾ S) h new → (R' ⨾ S') h new.
Proof. intros HR HS (n1 & n2 & -> & ? & ?). apply next_intro; auto. Qed.

Lemma next_assoc (R S T : Acts) h new : ((R ⨾ S) ⨾ T) h new ↔ (R ⨾ S ⨾ T) h new.
Proof.
  split.
  - intros (? & n3 & -> & (n1 & n2 & -> & HR & HS) & HT). rewrite (assoc_L (++)). apply next_intro; [done|].
    apply next_intro; [done|]. by rewrite (assoc_L (++)).
  - intros (n1 & ? & -> & HR & (n2 & n3 & -> & HS & HT)). rewrite <-(assoc_L (++)). apply next_intro; [|].
    + by apply next_intro.
    + by rewrite <-(assoc_L (++)).
Qed.

Lemma anything_then (R : Acts) h n1 n2 : (anything ⨾ R) (n1 ++ h) n2 → (anything ⨾ R) h (n2 ++ n1).
Proof.
  intros (m1 & m2 & -> & _ & HR). rewrite <-(assoc_L (++)). apply next_intro; [done|]. by rewrite <-(assoc_L (++)).
Qed.

Lemma anything_here (R : Acts) h n : R h n → (anything ⨾ R) h n.
Proof. intros HR. exists [], n. by rewrite app_nil_r. Qed.

Lemma anything_one φ h e l : φ (l ++ h) e → (anything ⨾ one φ) h (e :: l).
Proof. intros He. apply (next_intro anything (one φ) h l [e]); [done|]. by eexists. Qed.

(** What has happened somewhere has happened in a longer run. *)
Lemma somewhere_intro (R : Acts) h new : R h new → somewhere R h new.
Proof. intros HR. exists [], new. rewrite app_nil_r. split; [done|]. split; [done|]. by exists new, []. Qed.

Lemma somewhere_first (R : Acts) h n1 n2 : somewhere R h n1 → somewhere R h (n2 ++ n1).
Proof.
  intros (a & b & -> & _ & (c & d & -> & HR & _)). exists a, (n2 ++ d ++ c). rewrite <-!(assoc_L (++)).
  split; [done|]. split; [done|]. exists c, (n2 ++ d). by rewrite <-(assoc_L (++)).
Qed.

Lemma somewhere_then (R : Acts) h n1 n2 : somewhere R (n1 ++ h) n2 → somewhere R h (n2 ++ n1).
Proof.
  intros (a & b & -> & _ & Hb). exists (a ++ n1), b. rewrite <-!(assoc_L (++)). split; [done|].
  split; [done|]. by rewrite (assoc_L (++)) in Hb |- *.
Qed.

Lemma somewhere_mono (R S : Acts) h new : (∀ h n, R h n → S h n) → somewhere R h new → somewhere S h new.
Proof. intros HR. apply next_mono; [done|]. intros ? ?. by apply next_mono. Qed.

Lemma somewhere_one φ h e l1 l2 : φ (l2 ++ h) e → somewhere (one φ) h (l1 ++ e :: l2).
Proof. intros He. exists l2, (l1 ++ [e]). rewrite <-(assoc_L (++)). split; [done|]. split; [done|]. exists [e], l1. by split; [|split; [eexists|]]. Qed.

(** ** Rules *)

Section rules.
Context `{Host} {A : Type}.

Lemma acts_run (m : M A) R w a w' :
  acts m R → m w = (Some a, w') → ∃ new, hist w' = new ++ hist w ∧ R a (hist w) new.
Proof. intros Hm. by apply Hm. Qed.

Lemma acts_weaken h (m : M A) (Q Q' : A → list Event → Prop) :
  acts_after h m Q → (∀ a n, Q a n → Q' a n) → acts_after h m Q'.
Proof. intros Hm HQ w a w' Hh Hr. destruct (Hm w a w' Hh Hr) as (new & ? & ?). eauto. Qed.

Lemma acts_call h (m : M A) R (Q : A → list Event → Prop) :
  acts m R → (∀ a n, R a h n → Q a n) → acts_after h m Q.
Proof. intros Hm. by apply acts_weaken. Qed.

Lemma acts_ret h (a : A) (Q : A → list Event → Prop) : Q a [] → acts_after h (mret a) Q.
Proof. intros HQ w b w' <- [= <- <-]. by exists []. Qed.

Lemma acts_no_return h (Q : A → list Event → Prop) : acts_after h no_return Q.
Proof. by intros w a w' _ ?. Qed.

Lemma acts_bind {B} h (m : M A) (f : A → M B) (Q1 : A → list Event → Prop) (Q : B → list Event → Prop) :
  acts_after h m Q1 → (∀ a n1, Q1 a n1 → acts_after (n1 ++ h) (f a) (λ b n2, Q b (n2 ++ n1))) →
  acts_after h (m ≫= f) Q.
Proof.
  intros Hm Hf w b w' Hh (a & w1 & Ha & Hb)%bind_Some. destruct (Hm w a w1 Hh Ha) as (n1 & Hh1 & HQ1).
  destruct (Hf a n1 HQ1 w1 b w' Hh1 Hb) as (n2 & Hh2 & HQ). exists (n2 ++ n1). by rewrite Hh2, (assoc_L (++)).
Qed.

Lemma acts_asks h (answer : list Event → A) e (Q : A → list Event → Prop) :
  Q (answer h) [e] → acts_after h (asks answer e) Q.
Proof. intros HQ w a w' <- [= <- <-]. by exists [e]. Qed.

Lemma acts_effect h e (Q : unit → list Event → Prop) : Q tt [e] → acts_after h (effect e) Q.
Proof. intros HQ w [] w' <- [= <-]. by exists [e]. Qed.

Lemma acts_atomic h (f : Shared → A * Shared) (Q : A → list Event → Prop) :
  (∀ s, Q (f s).1 [EvStep s (f s).2]) → acts_after h (atomic f) Q.
Proof.
  intros HQ w a w' <- Hr. destruct (ran_atomic f w) as [Hh _]. rewrite Hr in Hh. eexists. split; [exact Hh|].
  unfold atomic in Hr. fold (entered w) in Hr. specialize (HQ (entered w)). destruct (f (entered w)). by injection Hr as <- _.
Qed.

Lemma acts_emits P (m : M A) : emits P m → acts m (λ _, every P).
Proof. intros Hm h w a w' <- Hr. specialize (Hm w). by rewrite Hr in Hm. Qed.

Lemma acts_guarantees G (m : M A) : guarantees G m → acts m (λ _, every (within G)).
Proof. intros Hm h w a w' <- Hr. destruct (Hm w) as (new & (Hh & _) & Hn). rewrite Hr in Hh. eauto. Qed.

Lemma acts_and (m : M A) R S : acts m R → acts m S → acts m (λ a h n, R a h n ∧ S a h n).
Proof.
  intros HR HS h w a w' Hh Hr. destruct (HR h w a w' Hh Hr) as (n1 & Hh1 & ?), (HS h w a w' Hh Hr) as (n2 & Hh2 & ?).
  rewrite Hh1 in Hh2. apply app_inv_tail in Hh2 as ->. eauto.
Qed.

(** Events that do not matter, first. *)
Lemma acts_skip {B} h (m : M A) (f : A → M B) (Q : B → list Event → Prop) :
  emits (λ _, True) m → (∀ a n1, acts_after (n1 ++ h) (f a) (λ b n2, Q b (n2 ++ n1))) → acts_after h (m ≫= f) Q.
Proof.
  intros Hm Hf. apply (acts_bind _ _ _ (λ _ _, True)); [|auto].
  eapply acts_call; [by apply acts_emits|done].
Qed.
End rules.

(** One after the other. *)
Fixpoint each {X} (R : X → Acts) (l : list X) : Acts :=
  match l with [] => nothing | x :: l => R x ⨾ each R l end.

Lemma acts_for_each `{Host} {X} (l : list X) body (R : X → Acts) :
  (∀ x, acts (body x) (λ _, R x)) → acts (for_each_m l body) (λ _, each R l).
Proof.
  intros Hb. induction l as [|x l IH]; intros h; [by apply acts_ret|].
  eapply acts_bind; [apply Hb|]. intros [] n1 Hn1. eapply acts_call; [apply IH|]. intros [] n2 Hn2. by apply next_intro.
Qed.

(** ** Processes *)

(** The registry is asked for the exit of a process, and forgets it. *)
Definition asked_exit (pid : Z) (r : option Z) (_ : list Event) (e : Event) : Prop :=
  ∃ s s', e = EvStep s s' ∧ sh_exits s !! pid = r ∧ sh_exits s' = delete pid (sh_exits s).

Definition asked (pid : Z) : Acts := somewhere (of_some (λ r, one (asked_exit pid r))).

Section processes.
Context `{Host, Nss}.

(** The exit of a child is seen, in the registry or by waiting for it. *)
Definition saw_exit (pid code : Z) (h : list Event) (e : Event) : Prop :=
  asked_exit pid (Some code) h e ∨
  (e = EvChildWait pid ∧ ∃ c, child_wait_answer h pid = Ok c ∧ code = default 1%Z c) ∨
  (e = EvTryWait pid ∧ ∃ c, try_wait_answer h pid = Ok (Some c) ∧ code = default 1%Z c).

(** A command of the service is given to the shell, and this came of it. *)
Definition spawned (cfg : ServiceConfig) (cmd : string) (r : result Z string) (h : list Event) (e : Event) : Prop :=
  ∃ c, e = EvSpawn c ∧ cm_args c = [SHELL; "-c"; cmd] ∧ cm_cwd c = sc_cwd cfg ∧ spawn_answer h c = r.

(** It could not be spawned. *)
Definition not_spawned (cfg : ServiceConfig) (cmd : string) (err : Error.t) : Acts := λ h new,
  resolve_sec cfg = Err err ∨
  ∃ msg, err = Error.Service (sc_name cfg) msg ∧ somewhere (one (spawned cfg cmd (Err msg))) h new.

(** The process is told to end; then it is found gone, or killed. *)
Definition killed (pid : Z) : Acts :=
  one (λ _ e, e = EvKill pid KillTerm) ⨾ anything ⨾
  one (λ h e, e = EvKill pid KillKill ∨ (e = EvKill pid KillProbe ∧ kill_no_process h pid = true)).

Lemma acts_registry_take pid : acts (registry_take pid) (λ r, one (asked_exit pid r)).
Proof.
  intros h. apply acts_atomic. intros s. simpl. eexists. split; [done|].
  by exists s, (set_exits (delete pid (sh_exits s)) s).
Qed.

Lemma emits_any_take pid : emits (λ _, True) (registry_take pid).
Proof. by apply emits_atomic. Qed.
#[local] Hint Resolve emits_any_take : emits.

Lemma acts_wait_take_loop n pid deadline : acts (wait_take_loop n pid deadline) (λ r, somewhere (one (asked_exit pid r))).
Proof.
  induction n as [|n IH]; intros h; cbn [wait_take_loop].
  all: eapply acts_bind; [apply acts_registry_take|intros [code|] n1 Hr; [by apply acts_ret, somewhere_intro|]].
  all: apply acts_bind with (λ _ _, True); [by apply acts_asks|intros now n2 _; case_decide].
  1,3: by apply acts_ret, (somewhere_first _ _ n1 n2), somewhere_intro.
  all: apply acts_bind with (λ _ _, True); [by apply acts_effect|intros _ n3 _].
  - eapply acts_call; [apply acts_registry_take|]. intros r n' Hr'. by do 3 apply somewhere_then; apply somewhere_intro.
  - eapply acts_call; [apply IH|]. intros r n' Hr'. by do 3 apply somewhere_then.
Qed.

Lemma acts_wait_take pid timeout : acts (wait_take pid timeout) (λ r, somewhere (one (asked_exit pid r))).
Proof.
  intros h. unfold wait_take. do 3 (apply acts_skip; [emits_solve|intros ? ?]).
  eapply acts_call; [apply acts_wait_take_loop|]. intros r n Hr. by repeat apply somewhere_then.
Qed.

Lemma emits_any_poll {A} fuel deadline period (body : M (option A)) :
  emits (λ _, True) body → (∀ d, emits (λ _, True) (period d)) → emits (λ _, True) (poll fuel deadline period body).
Proof. intros. by apply emits_poll. Qed.

(** What the last round of a polling loop did. *)
Lemma acts_poll {A} fuel deadline period (body : M (option A)) (R : A → Acts) :
  emits (λ _, True) body → (∀ d, emits (λ _, True) (period d)) → acts body (λ r, match r with Some a => R a | None => anything end) →
  acts (poll fuel deadline period body) (λ r, match r with Some a => anything ⨾ R a | None => anything end).
Proof.
  intros Hb Hp HR. induction fuel as [|fuel IH]; intros h; cbn [poll]; [apply acts_no_return|].
  apply acts_skip; [emits_solve|intros now n1]. case_decide; [|by apply acts_ret].
  eapply acts_bind; [apply HR|intros [a|] n2 Hn2]; [by apply acts_ret, next_intro|].
  do 2 (apply acts_skip; [emits_solve; apply Hp|intros ? ?]).
  eapply acts_call; [apply IH|]. intros [r|] n; [|done]. intros Hn. by do 4 apply anything_then.
Qed.

Lemma acts_await_early_exit pid wait : acts (await_early_exit pid wait) (λ r, somewhere (one (asked_exit pid r))).
Proof.
  intros h. unfold await_early_exit. do 2 (apply acts_skip; [emits_solve|intros ? ?]).
  eapply acts_bind.
  { eapply acts_poll with (R := λ code, one (asked_exit pid (Some code))); [emits_solve|intros d; emits_solve|].
    intros h'. eapply acts_call; [apply acts_registry_take|]. by intros [code|] n. }
  intros [code|] n Hn.
  - apply acts_ret. do 2 apply somewhere_then. rewrite app_nil_l. destruct Hn as (m1 & m2 & -> & _ & Hn).
    by apply somewhere_then, somewhere_intro.
  - eapply acts_call; [apply acts_registry_take|]. intros r n' Hr. by do 3 apply somewhere_then; apply somewhere_intro.
Qed.

Lemma emits_any_terminate pid grace : emits (λ _, True) (terminate_pid pid grace).
Proof. unfold terminate_pid. emits_solve. apply emits_any_poll; intros; emits_solve. Qed.

Lemma acts_terminate_pid pid grace : acts (terminate_pid pid grace) (λ _, killed pid).
Proof.
  intros h. unfold terminate_pid. eapply acts_bind; [by apply (acts_effect _ _ (λ _ n, one (λ _ e, e = EvKill pid KillTerm) h n)); eexists|].
  intros [] n1 Hn1. apply acts_weaken with (λ _ n2, (anything ⨾ one (λ h e, e = EvKill pid KillKill ∨
    (e = EvKill pid KillProbe ∧ kill_no_process h pid = true))) (n1 ++ h) n2); [|intros _ n2; by apply next_intro].
  assert (∀ h, acts_after h (effect (EvKill pid KillKill)) (λ _ n2, one (λ h e, e = EvKill pid KillKill ∨
    (e = EvKill pid KillProbe ∧ kill_no_process h pid = true)) h n2)) as Hkill.
  { intros h'. apply acts_effect. eexists. split; [done|by left]. }
  case_decide as Hg; [eapply acts_call; [exact Hkill|]; intros [] n2 Hn2; by apply anything_here|].
  apply acts_skip; [emits_solve|intros now k1]. apply acts_skip; [emits_solve|intros deadline k2]. eapply acts_bind.
  { apply acts_poll with (R := λ _, one (λ h e, e = EvKill pid KillProbe ∧ kill_no_process h pid = true)); [emits_solve|intros; emits_solve|].
    intros h'. apply acts_bind with (λ gone n, n = [EvKill pid KillProbe] ∧ gone = kill_no_process h' pid); [by apply acts_asks|].
    intros gone n [-> ->]. apply acts_ret. destruct (kill_no_process h' pid) eqn:Hk; [|done]. by eexists. }
  intros [[]|] n2 Hn2.
  - apply acts_ret. do 2 apply anything_then. rewrite app_nil_l. eapply next_mono; [| |exact Hn2]; [done|].
    intros h' n (e & -> & He). eexists. split; [done|by right].
  - eapply acts_call; [exact Hkill|]. intros [] n3 Hn3. do 3 apply anything_then. by apply anything_here.
Qed.

(** What comes of giving a command to the shell. *)
Definition spawning (cfg : ServiceConfig) (cmd : string) (r : Result Z) : Acts :=
  match r with
  | Ok pid => anything ⨾ one (spawned cfg cmd (Ok pid))
  | Err e => not_spawned cfg cmd e
  end.

Lemma acts_spawn_command cfg cmd c :
  cm_args c = [SHELL; "-c"; cmd] → cm_cwd c = sc_cwd cfg →
  acts (spawn_command c cfg) (λ r, match r with
    | Ok pid => one (spawned cfg cmd (Ok pid))
    | Err e => λ h n, ∃ msg, e = Error.Service (sc_name cfg) msg ∧ one (spawned cfg cmd (Err msg)) h n end).
Proof.
  intros Ha Hc h. unfold spawn_command. apply acts_bind with (λ r n, n = [EvSpawn c] ∧ r = spawn_answer h c); [by apply acts_asks|].
  intros r n [-> ->]. apply acts_ret. destruct (spawn_answer h c) as [pid|msg] eqn:Hr; simpl.
  - eexists. split; [done|]. by exists c.
  - exists msg. split; [done|]. eexists. split; [done|]. by exists c.
Qed.

Lemma acts_spawn_from cfg cmd (env : gmap string string) (quiet : bool) ident h :
  acts_after h (build_shell_command cmd cfg env ident ≫= λ c,
      spawn_command (if quiet then mkShellCommand (cm_args c) (cm_cwd c) (cm_env c) true (cm_pre_exec c) else c) cfg)
    (λ r n, spawning cfg cmd r h n).
Proof.
  eapply acts_bind with (λ c _, cm_args c = [SHELL; "-c"; cmd] ∧ cm_cwd c = sc_cwd cfg).
  { unfold build_shell_command, env_snapshot. apply acts_skip; [emits_solve|intros file_env n1]. by apply acts_ret. }
  intros c n1 [Ha Hc]. eapply acts_call; [apply (acts_spawn_command cfg cmd); by destruct quiet|].
  intros [pid|e] n2; simpl; [by apply next_intro|]. intros (msg & -> & Hs). right. exists msg. split; [done|].
  by apply somewhere_then, somewhere_intro.
Qed.

Lemma acts_spawn_shell_cmd cfg cmd env quiet : acts (spawn_shell_cmd cmd cfg env quiet) (spawning cfg cmd).
Proof.
  intros h. unfold spawn_shell_cmd. destruct (resolve_sec cfg) as [ident|e] eqn:He; [apply acts_spawn_from|].
  apply acts_ret. by left.
Qed.

Lemma acts_spawn_shell cfg cmd : acts (spawn_shell cmd cfg) (spawning cfg cmd).
Proof.
  intros h. unfold spawn_shell. destruct (resolve_sec cfg) as [ident|e] eqn:He; [apply (acts_spawn_from _ _ ∅ false)|].
  apply acts_ret. by left.
Qed.

(** What comes of waiting for a child, at most for the given time. *)
Definition child_waited (name : string) (pid : Z) (bound : ChildWait) (r : Result (option Z)) : Acts :=
  match r with
  | Ok (Some code) => somewhere (one (saw_exit pid code))
  | Ok None => λ h n, bound ≠ Forever ∧ somewhere (killed pid) h n
  | Err e => λ h n, ∃ msg, e = Error.Service name msg ∧
      somewhere (one (λ h ev, (ev = EvChildWait pid ∧ child_wait_answer h pid = Err msg) ∨
                              (ev = EvTryWait pid ∧ try_wait_answer h pid = Err msg))) h n
  end.

Lemma child_waited_then name pid bound r h n1 n2 :
  child_waited name pid bound r (n1 ++ h) n2 → child_waited name pid bound r h (n2 ++ n1).
Proof.
  destruct r as [[code|]|e]; simpl.
  - apply somewhere_then.
  - intros [? ?]. split; [done|]. by apply somewhere_then.
  - intros (msg & ? & ?). exists msg. split; [done|]. by apply somewhere_then.
Qed.

Lemma asked_saw pid code h n : somewhere (one (asked_exit pid (Some code))) h n → somewhere (one (saw_exit pid code)) h n.
Proof. apply somewhere_mono. intros h' n' (e & -> & He). eexists. split; [done|by left]. Qed.

Lemma acts_wait_forever name fuel pid :
  acts (wait_forever fuel pid) (λ r, child_waited name pid Forever (Ok r)).
Proof.
  induction fuel as [|fuel IH]; intros h; cbn [wait_forever]; [apply acts_no_return|].
  eapply acts_bind; [apply acts_wait_take|]. intros [code|] n1 Hn1; [by apply acts_ret, asked_saw|].
  eapply acts_call; [apply IH|]. intros r n2. apply (child_waited_then name pid Forever (Ok r)).
Qed.

Lemma killed_first pid h n1 n2 : killed pid h n1 → somewhere (killed pid) h (n2 ++ n1).
Proof. intros. by apply somewhere_first, somewhere_intro. Qed.

Lemma emits_any_wait_take pid timeout : emits (λ _, True) (wait_take pid timeout).
Proof.
  unfold wait_take. apply emits_bind; [emits_solve|intros now]. apply emits_bind; [emits_solve|intros deadline].
  apply emits_bind; [emits_solve|intros n]. induction n as [|n IH]; cbn [wait_take_loop]; emits_solve.
Qed.
#[local] Hint Resolve emits_any_wait_take : emits.

Lemma acts_wait_via_registry name pid bound :
  acts (wait_via_registry pid bound) (λ r, child_waited name pid bound r).
Proof.
  intros h. unfold wait_via_registry. destruct bound as [|d].
  - apply acts_skip; [emits_solve|intros n n1]. eapply acts_bind; [apply (acts_wait_forever name)|]. intros r n2 Hn2.
    apply acts_ret. by apply child_waited_then.
  - eapply acts_bind; [apply acts_wait_take|]. intros [code|] n1 Hn1; [by apply acts_ret, asked_saw|].
    eapply acts_bind; [apply acts_terminate_pid|]. intros [] n2 Hn2. apply acts_skip; [emits_solve|intros r n3].
    apply acts_ret. split; [done|]. apply somewhere_then. by apply (killed_first pid _ n2 n3).
Qed.

Lemma acts_wait_via_owned name pid bound :
  acts (wait_via_owned pid name bound) (λ r, child_waited name pid bound r).
Proof.
  intros h. unfold wait_via_owned. destruct bound as [|d].
  - apply acts_bind with (λ r n, n = [EvChildWait pid] ∧ r = child_wait_answer h pid); [by apply acts_asks|].
    intros r n [-> ->]. apply acts_ret. destruct (child_wait_answer h pid) as [c|msg] eqn:Hc; simpl.
    + apply somewhere_intro. eexists. split; [done|]. right; left. eauto.
    + exists msg. split; [done|]. apply somewhere_intro. eexists. split; [done|]. by left.
  - apply acts_skip; [emits_solve|intros now k1]. apply acts_skip; [emits_solve|intros deadline k2].
    generalize (rounds d CHILD_WAIT_POLL). intros fuel.
    assert (∀ r n, child_waited name pid (TimeoutAfter d) r (k2 ++ k1 ++ h) n → child_waited name pid (TimeoutAfter d) r h ((n ++ k2) ++ k1)) as Hthen.
    { intros r n Hn. by do 2 apply child_waited_then. }
    eapply acts_weaken; [|exact Hthen]. clear Hthen. generalize (k2 ++ k1 ++ h). clear h k1 k2.
    induction fuel as [|fuel IH]; intros h; [apply acts_no_return|].
    apply acts_bind with (λ r n, n = [EvTryWait pid] ∧ r = try_wait_answer h pid); [by apply acts_asks|].
    intros r n [-> ->]. destruct (try_wait_answer h pid) as [[c|]|msg] eqn:Hc.
    + apply acts_ret, (somewhere_intro (one (saw_exit pid (default 1%Z c)))). eexists. split; [done|]. right; right. eauto.
    + apply acts_skip; [emits_solve|intros now' n2]. case_decide.
      * eapply acts_bind; [apply acts_terminate_pid|]. intros [] n3 Hn3. apply acts_skip; [emits_solve|intros r n4].
        apply acts_ret. split; [done|]. do 2 apply somewhere_then. by apply killed_first.
      * apply acts_skip; [emits_solve|intros [] n3]. apply (acts_weaken _ _ _ _ (IH _)). intros r n4 Hn4.
        by do 3 apply child_waited_then.
    + apply acts_ret. exists msg. split; [done|]. apply (somewhere_intro (one _)). eexists. split; [done|]. by right.
Qed.

Lemma acts_wait_spawned_child name pid bound :
  acts (wait_spawned_child pid name bound) (λ r, child_waited name pid bound r).
Proof.
  intros h. unfold wait_spawned_child. apply acts_skip; [by apply emits_atomic|intros [] n1].
  - eapply acts_call; [apply acts_wait_via_registry|]. intros r n. apply child_waited_then.
  - eapply acts_call; [apply acts_wait_via_owned|]. intros r n. apply child_waited_then.
Qed.

(** What comes of running a command of the service, at most for the given time. *)
Definition command_ran (cfg : ServiceConfig) (cmd : string) (bound : ChildWait) (r : Result (option Z)) : Acts := λ h new,
  (∃ pid, (anything ⨾ one (spawned cfg cmd (Ok pid)) ⨾ child_waited (sc_name cfg) pid bound r) h new) ∨
  (∃ e, r = Err e ∧ not_spawned cfg cmd e h new).

Lemma acts_spawn_and_wait cfg cmd env quiet bound :
  acts (pid <-? spawn_shell_cmd cmd cfg env quiet; wait_spawned_child pid (sc_name cfg) bound) (command_ran cfg cmd bound).
Proof.
  intros h. eapply acts_bind; [apply acts_spawn_shell_cmd|]. intros [pid|e] n1 Hn1.
  - eapply acts_call; [apply acts_wait_spawned_child|]. intros r n2 Hn2. left. exists pid. apply next_assoc. by apply next_intro.
  - apply acts_ret. right. by exists e.
Qed.

Lemma acts_run_shell_quiet_timeout cfg cmd d :
  acts (run_shell_quiet_timeout cmd cfg d) (command_ran cfg cmd (TimeoutAfter d)).
Proof. apply acts_spawn_and_wait. Qed.

(** The exit code of a command run to its end. *)
Definition command_exits (cfg : ServiceConfig) (cmd : string) (r : Result Z) : Acts :=
  command_ran cfg cmd Forever (match r with Ok code => Ok (Some code) | Err e => Err e end).

Lemma acts_run_shell cfg cmd env : acts (run_shell cmd cfg env) (command_exits cfg cmd).
Proof.
  intros h. unfold run_shell, command_exits. eapply acts_bind; [apply acts_spawn_shell_cmd|]. intros [pid|e] n1 Hn1.
  2:{ apply acts_ret. right. by exists e. }
  eapply acts_bind; [apply acts_wait_spawned_child|]. intros [[code|]|e] n2 Hn2; apply acts_ret.
  1,3: left; exists pid; apply next_assoc; by apply next_intro.
  by destruct Hn2.
Qed.

(** ** Stopping and restarting *)

(** The stop command is run, if there is one; then the tracked process is killed. *)
Definition stop_done (cfg : ServiceConfig) (tracked : option Z) : Acts :=
  (match resolve_stop cfg with Ok cmd => of_some (command_exits cfg cmd) | Err _ => nothing end) ⨾
  (match tracked with Some pid => killed pid ⨾ asked pid | None => nothing end).

Lemma acts_run_stop cfg :
  acts (run_stop cfg) (λ _, match resolve_stop cfg with Ok cmd => of_some (command_exits cfg cmd) | Err _ => nothing end).
Proof.
  intros h. unfold run_stop. destruct (resolve_stop cfg) as [cmd|e]; [|by apply acts_ret].
  eapply acts_bind; [apply acts_run_shell|]. intros r n Hn. apply acts_ret. by exists r.
Qed.

Lemma acts_stop_tracked cfg tracked : acts (stop_tracked cfg tracked) (λ _, stop_done cfg tracked).
Proof.
  intros h. unfold stop_tracked. eapply acts_bind; [apply acts_run_stop|]. intros [] n1 Hn1.
  apply acts_weaken with (λ _ n2, (match tracked with Some pid => killed pid ⨾ asked pid | None => nothing end) (n1 ++ h) n2);
    [|intros _ n2; by apply next_intro].
  destruct tracked as [pid|]; [|by apply acts_ret].
  eapply acts_bind; [apply acts_terminate_pid|]. intros [] n2 Hn2.
  eapply acts_bind; [apply acts_wait_take|]. intros r n3 Hn3. apply acts_ret. rewrite app_nil_l.
  apply next_intro; [done|]. eapply somewhere_mono; [|exact Hn3]. intros h' n He. by exists r.
Qed.

(** Whether the restart command took the place of a start. *)
Definition restart_done (cfg : ServiceConfig) (b : bool) : Acts :=
  match resolve_restart cfg with
  | Err _ => λ _ new, b = false ∧ new = []
  | Ok cmd => of_some (λ r h new, command_exits cfg cmd r h new ∧
      b = sc_daemon cfg && is_success cfg (match r with Ok code => code | Err _ => 1%Z end))
  end.

Lemma acts_run_restart cfg : acts (run_restart cfg) (restart_done cfg).
Proof.
  intros h. unfold run_restart, restart_done. destruct (resolve_restart cfg) as [cmd|e]; [|by apply acts_ret].
  eapply acts_bind; [apply acts_run_shell|]. intros r n Hn. apply acts_ret. exists r. split; [done|]. by destruct r.
Qed.

(** ** Probes *)

(** What a probe is, and what its result means. *)
Definition tcp_shows (addr : string) (r : ProbeResult) (addrs : list string) : Acts := λ h new,
  match r with
  | ProbeOk => ∃ sa, sa ∈ addrs ∧ somewhere (one (λ h e, e = EvConnect sa ∧ connect_answer h sa = None)) h new
  | ProbeFail reason => ∃ last, reason = "tcp " +:+ addr +:+ ": " +:+ last ∧
      ∀ sa, sa ∈ addrs → somewhere (one (λ h e, e = EvConnect sa ∧ is_Some (connect_answer h sa))) h new
  end.

Definition probe_shows (p : LivenessProbe) (cfg : ServiceConfig) (r : ProbeResult) : Acts := λ h new,
  match probe_kind p with
  | Some (ProbeCmd cmd) => ∃ x, command_ran cfg cmd (TimeoutAfter (from_secs (N.max (lp_timeout p) 1))) x h new ∧
      match x with
      | Ok (Some code) => if probe_is_success p code then r = ProbeOk else r = ProbeFail ("exit " +:+ pretty code)
      | Ok None => r = ProbeFail "timeout"
      | Err e => r = ProbeFail (Error.to_string e)
      end
  | Some (ProbeTcp addr) =>
      match resolve_answer h addr with
      | Err e => r = ProbeFail ("resolve " +:+ addr +:+ ": " +:+ e)
      | Ok [] => r = ProbeFail ("resolve " +:+ addr +:+ ": no addresses")
      | Ok addrs => tcp_shows addr r addrs h new
      end
  | Some (ProbeHttp url) =>
      let method := trim (lp_http_method p) in
      if decide (method = "") then r = ProbeFail "httpMethod empty"
      else (one (λ h e, e = EvHttp method url ∧
        match http_answer h method url with
        | Ok code => if decide (code ∈ lp_http_accepted_codes p) then r = ProbeOk else r = ProbeFail ("HTTP " +:+ pretty code)
        | Err e => r = ProbeFail ("http: " +:+ e)
        end)) h new
  | None => r = ProbeFail "no probe kind configured"
  end.

Lemma acts_try_connect addr last addrs : acts (try_connect addr last addrs) (λ r, tcp_shows addr r addrs).
Proof.
  revert last. induction addrs as [|sa addrs IH]; intros last h; cbn [try_connect].
  { apply acts_ret. exists last. split; [done|]. by intros sa ?%elem_of_nil. }
  apply acts_bind with (λ r n, n = [EvConnect sa] ∧ r = connect_answer h sa); [by apply acts_asks|]. intros [e|] n [-> He].
  - eapply acts_call; [apply IH|]. intros [|reason] n2; simpl.
    + intros (sb & Hin & Hs). exists sb. split; [by right|]. by apply (somewhere_then _ h [EvConnect sa] n2).
    + intros (l & -> & Hall). exists l. split; [done|]. intros sb [->|Hin]%elem_of_cons.
      * apply (somewhere_first _ h [EvConnect sa] n2), somewhere_intro. eexists. split; [done|]. by rewrite <-He.
      * apply (somewhere_then _ h [EvConnect sa] n2). by apply Hall.
  - apply acts_ret. exists sa. split; [by left|]. apply (somewhere_intro (one _)). by eexists.
Qed.

Lemma acts_run_probe p cfg : acts (run_probe p cfg) (probe_shows p cfg).
Proof.
  intros h. unfold run_probe, probe_shows. destruct (probe_kind p) as [[cmd|addr|url]|]; [| | |by apply acts_ret].
  - eapply acts_bind; [apply acts_run_shell_quiet_timeout|]. intros x n Hn. apply acts_ret. exists x. split; [done|].
    destruct x as [[code|]|e]; [by destruct (probe_is_success p code)|done..].
  - unfold run_tcp_probe. apply acts_bind with (λ r n, n = [EvPoll] ∧ r = resolve_answer h addr); [by apply acts_asks|].
    intros r n [-> ->]. destruct (resolve_answer h addr) as [[|sa addrs]|e]; [by apply acts_ret| |by apply acts_ret].
    eapply acts_call; [apply acts_try_connect|]. intros [|reason] n2; simpl.
    + intros (sb & Hin & Hs). exists sb. split; [done|]. by apply (somewhere_then _ h [EvPoll] n2).
    + intros (l & -> & Hall). exists l. split; [done|]. intros sb Hin. apply (somewhere_then _ h [EvPoll] n2). by apply Hall.
  - unfold run_http_probe. case_decide; [by apply acts_ret|].
    apply acts_bind with (λ r n, n = [EvHttp (trim (lp_http_method p)) url] ∧ r = http_answer h (trim (lp_http_method p)) url); [by apply acts_asks|].
    intros r n [-> ->]. apply acts_ret. eexists. split; [done|]. split; [done|]. destruct (http_answer _ _ _); [|done]. by case_decide.
Qed.
End processes.
