(* ===== verification/MonitorSpec.v ===== *)
(** What a monitor does to its service: the outcomes of a start, the decision at an
    exit, and the handling of messages and probes, each with what was done to reach it.

    The other threads are assumed to leave the service's own runtime alone. *)

From S2P Require Import Prelude Constants Error Security Config Graph Protocol Logs Watch Reaper.
From S2P Require Import Runtime World Logic EnvFile Service Liveness Store Supervisor Monitor Isolation Acts.
#[local] Open Scope stdpp_scope.

(** ** Specification *)

(** What updates of the state leave as it was. *)
Definition restated (rt0 rt : Runtime) : Prop :=
  rt_restarts rt = rt_restarts rt0 ∧ rt_liveness_failures rt = rt_liveness_failures rt0 ∧
  rt_enabled rt = rt_enabled rt0.

(** The state of a runtime after an update: the pid is the one given, or gone, or
    for the states that keep it the previous one. *)
Definition in_state (st : ServiceState.t) (pid : option Z) (rt : Runtime) : Prop :=
  rt_state rt = st ∧
  match pid with
  | Some _ => rt_pid rt = pid
  | None => keeps_pid st = false → rt_pid rt = None
  end.

(** Nothing is done to the runtime of the service meanwhile. *)
Definition unreported (name : string) : Acts := every (within (same (λ s, sh_runtimes s !! name))).
Definition quietly (name : string) (R : Acts) : Acts := λ h new, R h new ∧ unreported name h new.

(** The state of the service is set, and the watchers told. *)
Definition reported (name : string) (st : ServiceState.t) (pid : option Z) : Acts :=
  one (λ _ e, ∃ s s' rt, e = EvStep s s' ∧ sh_runtimes s' !! name = Some rt ∧ in_state st pid rt) ⨾
  unreported name.

(** The dependencies are looked at, with this result. *)
Definition deps_found (cfg : ServiceConfig) (r : Result bool) : Acts :=
  somewhere (one (λ _ e, ∃ s, e = EvStep s s ∧ deps_ready (sc_depends_on cfg) (sh_runtimes s) = r)).

(** They let the service start. *)
Definition went_ahead (cfg : ServiceConfig) (force : bool) : Acts :=
  if force || bool_decide (sc_depends_on cfg = []) then anything else deps_found cfg (Ok true).

Section outcomes.
Context `{Host, Nss}.
Context (cfg : ServiceConfig).

#[local] Abbreviation name := (sc_name cfg).
#[local] Abbreviation quietly := (quietly name).
#[local] Abbreviation reported := (reported name).
#[local] Abbreviation unreported := (unreported name).

(** The outcomes of a start whose process [pid] has been spawned: the result, the
    tracked pid and the runtime it leaves. *)
Inductive finish_outcome (tracked : option Z) (pid : Z) (h new : list Event) :
    Result unit * option Z → Runtime → Prop :=
  | fin_up rt :
      sc_daemon cfg = true → in_state ServiceState.Running (Some pid) rt →
      (quietly (somewhere (one (asked_exit pid None))) ⨾ reported ServiceState.Running (Some pid)) h new →
      finish_outcome tracked pid h new (Ok tt, Some pid) rt
  | fin_daemonized code rt :
      sc_daemon cfg = true → sc_start_wait_secs cfg = 0%N → is_success cfg code = true →
      in_state ServiceState.Running None rt →
      (quietly (somewhere (one (asked_exit pid (Some code)))) ⨾ reported ServiceState.Running None) h new →
      finish_outcome tracked pid h new (Ok tt, None) rt
  | fin_exited code msg rt :
      sc_daemon cfg = true → sc_start_wait_secs cfg ≠ 0%N ∨ is_success cfg code = false →
      msg = (if decide (0 < sc_start_wait_secs cfg)%N
             then "exited during startWaitSecs (code " +:+ pretty code +:+ ")"
             else "exited with code " +:+ pretty code) →
      in_state ServiceState.Failed None rt →
      (quietly (somewhere (one (asked_exit pid (Some code)))) ⨾ reported ServiceState.Failed None) h new →
      finish_outcome tracked pid h new (Err (Error.Service name msg), tracked) rt
  | fin_done code rt :
      sc_daemon cfg = false → is_success cfg code = true → in_state ServiceState.Succeeded None rt →
      (quietly (somewhere (one (asked_exit pid (Some code)))) ⨾ reported ServiceState.Succeeded None) h new →
      finish_outcome tracked pid h new (Ok tt, None) rt
  | fin_failed code rt :
      sc_daemon cfg = false → is_success cfg code = false → in_state ServiceState.Failed None rt →
      (quietly (somewhere (one (asked_exit pid (Some code)))) ⨾ reported ServiceState.Failed None) h new →
      finish_outcome tracked pid h new
        (Err (Error.Service name ("exited with code " +:+ pretty code)), None) rt
  | fin_timed_out rt :
      sc_daemon cfg = false → in_state ServiceState.Failed None rt →
      (quietly (somewhere (one (asked_exit pid None)) ⨾ killed pid ⨾ asked pid) ⨾
       reported ServiceState.Failed None) h new →
      finish_outcome tracked pid h new (Err (Error.Service name "job timed out"), tracked) rt.

(** The outcomes of [do_start]. *)
Inductive start_outcome (tracked : option Z) (force enabled : bool) (h new : list Event) :
    Result unit * option Z → Runtime → Prop :=
  | out_spawned cmd pid r rt :
      enabled = true → resolve_start cfg = Ok cmd →
      (went_ahead cfg force ⨾ reported ServiceState.Starting None ⨾
       quietly (anything ⨾ one (spawned cfg cmd (Ok pid))) ⨾ unreported ⨾
       (λ h new, finish_outcome tracked pid h new r rt)) h new →
      start_outcome tracked force enabled h new r rt
  | out_not_spawned e rt :
      enabled = true → in_state ServiceState.Starting None rt →
      (went_ahead cfg force ⨾ reported ServiceState.Starting None ⨾ quietly (λ h new,
         match resolve_start cfg with Ok cmd => not_spawned cfg cmd e h new | Err err => e = err end)) h new →
      start_outcome tracked force enabled h new (Err e, tracked) rt
  | out_waiting rt :
      enabled = true → force = false → in_state ServiceState.WaitingForDependency None rt →
      (quietly (deps_found cfg (Ok false)) ⨾ reported ServiceState.WaitingForDependency None) h new →
      start_outcome tracked force enabled h new (Ok tt, tracked) rt
  | out_unknown_dep d rt :
      enabled = true → d ∈ sc_depends_on cfg →
      quietly (somewhere (one (λ _ e, ∃ s, e = EvStep s s ∧ sh_runtimes s !! d = None))) h new →
      start_outcome tracked force enabled h new (Err (Error.UnknownService d), tracked) rt
  | out_disabled rt :
      enabled = false → in_state ServiceState.Disabled None rt →
      (unreported ⨾ reported ServiceState.Disabled None) h new →
      start_outcome tracked force enabled h new (Err (Error.Disabled name), tracked) rt.

(** The outcomes of a start by the monitor with nothing tracked, which reports an error
    as [Failed]. *)
Inductive started (force enabled : bool) (t : option Z) (rt : Runtime) (h new : list Event) : Prop :=
  | st_started :
      start_outcome None force enabled h new (Ok tt, t) rt → started force enabled t rt h new
  | st_failed e rt' :
      t = None → in_state ServiceState.Failed None rt →
      ((λ h new, start_outcome None force enabled h new (Err e, None) rt') ⨾ unreported ⨾
       reported ServiceState.Failed None) h new →
      started force enabled t rt h new.

(** The outcomes of a message: how the iteration ends and the runtime it leaves. *)
Inductive msg_outcome (l : Local) (rt0 : Runtime) (h new : list Event) : CtlMsg → Flow → Runtime → Prop :=
  | mo_quit rt :
      in_state ServiceState.Stopped None rt →
      (quietly (stop_done cfg (lo_tracked l)) ⨾ reported ServiceState.Stopped None) h new →
      msg_outcome l rt0 h new CtlQuit Break rt
  | mo_stop st rt :
      st = (if rt_enabled rt0 then ServiceState.Stopped else ServiceState.Disabled) →
      in_state st None rt →
      (unreported ⨾ reported ServiceState.Stopping None ⨾ quietly (stop_done cfg (lo_tracked l)) ⨾
       unreported ⨾ reported st None) h new →
      msg_outcome l rt0 h new CtlStop (Continue (mkLocal None None 0)) rt
  | mo_start force l' rt :
      lo_tracked l = None → lo_streak l' = 0%N →
      (started force (rt_enabled rt0) (lo_tracked l') rt ⨾ unreported) h new →
      msg_outcome l rt0 h new (CtlStart force) (Continue l') rt
  | mo_already_up force pid :
      lo_tracked l = Some pid → new = [] → msg_outcome l rt0 h new (CtlStart force) (Continue l) rt0
  | mo_restart l' rt :
      lo_streak l' = 0%N →
      (unreported ⨾ quietly (stop_done cfg (lo_tracked l)) ⨾ quietly (restart_done cfg false) ⨾
       started false (rt_enabled rt0) (lo_tracked l') rt ⨾ unreported) h new →
      msg_outcome l rt0 h new CtlRestart (Continue l') rt
  | mo_restart_cmd l' rt :
      sc_daemon cfg = true → in_state ServiceState.Running None rt → lo_tracked l' = None →
      lo_streak l' = 0%N →
      (unreported ⨾ quietly (stop_done cfg (lo_tracked l)) ⨾ quietly (restart_done cfg true) ⨾
       reported ServiceState.Running None ⨾ unreported) h new →
      msg_outcome l rt0 h new CtlRestart (Continue l') rt.

(** The probe of a service that is to run now, at time [now]. *)
Definition due_probe (l : Local) (rt0 : Runtime) (now : N) : option LivenessProbe :=
  if probed (rt_state rt0) && rt_enabled rt0 &&
     match lo_next_liveness l with Some t => bool_decide (t ≤ now)%N | None => false end
  then sc_liveness_probe cfg else None.

(** The outcomes of a liveness check: the local variables and the runtime. *)
Inductive liveness_outcome (l : Local) (rt0 : Runtime) (now : N) (h new : list Event) :
    Local → Runtime → Prop :=
  | lv_idle next :
      due_probe l rt0 now = None → unreported h new →
      liveness_outcome l rt0 now h new (mkLocal (lo_tracked l) next (lo_streak l)) rt0
  | lv_passed probe next rt :
      due_probe l rt0 now = Some probe →
      (if bool_decide (rt_state rt0 = ServiceState.Failed) && negb (sc_daemon cfg)
       then restated rt0 rt ∧ in_state ServiceState.Succeeded None rt else rt = rt0) →
      (unreported ⨾ quietly (probe_shows probe cfg ProbeOk) ⨾ anything) h new →
      liveness_outcome l rt0 now h new (mkLocal (lo_tracked l) (Some next) 0) rt
  | lv_failed probe next utc reason :
      due_probe l rt0 now = Some probe →
      (sat_add u32_max (lo_streak l) 1 < N.max (lp_failure_threshold probe) 1)%N →
      (unreported ⨾ quietly (probe_shows probe cfg (ProbeFail reason)) ⨾ anything) h new →
      liveness_outcome l rt0 now h new
        (mkLocal (lo_tracked l) (Some next) (sat_add u32_max (lo_streak l) 1))
        (bump_liveness_rt utc (Some reason) rt0)
  | lv_restarted probe reason l' rt :
      due_probe l rt0 now = Some probe →
      (N.max (lp_failure_threshold probe) 1 ≤ sat_add u32_max (lo_streak l) 1)%N →
      restated (bump_restarts_rt 0 (bump_liveness_rt 0 None rt0)) rt → lo_streak l' = 0%N →
      (unreported ⨾ quietly (probe_shows probe cfg (ProbeFail reason)) ⨾ anything ⨾
       reported ServiceState.Restarting None ⨾ anything ⨾ quietly (stop_done cfg (lo_tracked l)) ⨾
       started false true (lo_tracked l') rt ⨾ unreported) h new →
      liveness_outcome l rt0 now h new l' rt.
End outcomes.

(** ** Rules *)

Section own.
Context `{Host, Nss}.
Context (name : string).
Context (own : ∀ h s, sh_runtimes (interfere h s) !! name = sh_runtimes s !! name).

(** Besides the runtime, what the monitor and the other threads keep. *)
Context (K : Shared → Prop) (rely : ∀ h s, K s → K (interfere h s)) (kept_K : monitor_closed name (kept K)).

(** What a computation returns, does to the runtime [rt] and adds to the history [h]. *)
Definition does (rt : Runtime) (h : list Event) {A} (m : M A) (Q : A → Runtime → Acts) : Prop :=
  ∀ w a w', sh_runtimes (shared w) !! name = Some rt → K (shared w) → hist w = h → m w = (Some a, w') →
  ∃ rt' new, sh_runtimes (shared w') !! name = Some rt' ∧ K (shared w') ∧ hist w' = new ++ h ∧ Q a rt' h new.

Lemma own_quiet x : quiet_closed (kept (λ s, sh_runtimes s !! name = x)).
Proof. closed_solve. Qed.

Lemma same_quiet : quiet_closed (same (λ s, sh_runtimes s !! name)).
Proof. closed_solve. Qed.

Lemma survives_kept {A} (I : Shared → Prop) (m : M A) w a w' :
  (∀ h s, I s → I (interfere h s)) → keeps I m → I (shared w) → m w = (Some a, w') → I (shared w').
Proof. intros Hrely Hm Hw Ha. pose proof (keeps_survives _ _ Hrely Hm w Hw) as Hk. by rewrite Ha in Hk. Qed.

Lemma does_weaken rt h {A} (m : M A) (Q Q' : A → Runtime → Acts) :
  does rt h m Q → (∀ a rt' n, Q a rt' h n → Q' a rt' h n) → does rt h m Q'.
Proof. intros Hm HQ w a w' Hrt HK Hh Ha. destruct (Hm w a w' Hrt HK Hh Ha) as (rt' & n & ? & ? & ? & ?). naive_solver. Qed.

Lemma does_ret rt h {A} (a : A) (Q : A → Runtime → Acts) : Q a rt h [] → does rt h (mret a) Q.
Proof. intros HQ w b w' Hrt HK <- [= <- <-]. by exists rt, []. Qed.

Lemma does_bind rt h {A B} (m : M A) (f : A → M B) (R : A → Runtime → Acts) (Q : B → Runtime → Acts) :
  does rt h m R →
  (∀ a rt1 n1, R a rt1 h n1 → does rt1 (n1 ++ h) (f a) (λ b rt2 _ n2, Q b rt2 h (n2 ++ n1))) →
  does rt h (m ≫= f) Q.
Proof.
  intros Hm Hf w b w' Hrt HK Hh (a & w1 & Ha & Hb)%bind_Some.
  destruct (Hm w a w1 Hrt HK Hh Ha) as (rt1 & n1 & Hrt1 & HK1 & Hh1 & HR).
  destruct (Hf a rt1 n1 HR w1 b w' Hrt1 HK1 Hh1 Hb) as (rt2 & n2 & Hrt2 & HK2 & Hh2 & HQ).
  exists rt2, (n2 ++ n1). rewrite Hh2, (assoc_L (++)). done.
Qed.

(** A computation that leaves the runtime alone. *)
Lemma does_quiet rt h {A} (m : M A) (R : A → Acts) :
  (∀ G, quiet_closed G → guarantees G m) → acts m R →
  does rt h m (λ a rt' h n, rt' = rt ∧ quietly name (R a) h n).
Proof.
  intros Hm HR w a w' Hrt HK Hh Ha. pose proof (acts_and m _ _ HR (acts_guarantees _ m (Hm _ same_quiet))) as Hboth.
  destruct (Hboth h w a w' Hh Ha) as (n & Hn & HQ). exists rt, n. split; [|split; [|by split]].
  2:{ by eapply (survives_kept K); [exact rely|apply Hm, kept_K|..]. }
  eapply (survives_kept (λ s, sh_runtimes s !! name = Some rt)); [intros h' s; by rewrite own|apply Hm, own_quiet|done..].
Qed.

Lemma does_quiet_bind rt h {A B} (m : M A) (f : A → M B) (R : A → Acts) Q :
  (∀ G, quiet_closed G → guarantees G m) → acts m R →
  (∀ a n1, quietly name (R a) h n1 → does rt (n1 ++ h) (f a) (λ b rt2 _ n2, Q b rt2 h (n2 ++ n1))) →
  does rt h (m ≫= f) Q.
Proof. intros Hm HR Hf. eapply does_bind; [by apply does_quiet|]. intros a rt1 n1 [-> Hn]. by apply Hf. Qed.

Lemma acts_anything {A} (m : M A) : (∀ G, quiet_closed G → guarantees G m) → acts m (λ _, anything).
Proof. intros Hm h. eapply acts_weaken; [apply (acts_guarantees _ m (Hm _ same_quiet))|done]. Qed.

(** One whose own events do not matter. *)
Lemma does_skip rt h {A B} (m : M A) (f : A → M B) Q :
  (∀ G, quiet_closed G → guarantees G m) →
  (∀ a n1, unreported name h n1 → does rt (n1 ++ h) (f a) (λ b rt2 _ n2, Q b rt2 h (n2 ++ n1))) →
  does rt h (m ≫= f) Q.
Proof.
  intros Hm Hf. eapply does_quiet_bind; [done|by apply acts_anything|]. intros a n1 [_ Hn]. by apply Hf.
Qed.

(** A section that only reads. *)
Lemma does_reads rt h {A B} (g : Shared → A) (f : A → M B) Q :
  (∀ s, sh_runtimes s !! name = Some rt → K s →
     does rt (EvStep s s :: h) (f (g s)) (λ b rt2 _ n2, Q b rt2 h (n2 ++ [EvStep s s]))) →
  does rt h (reads g ≫= f) Q.
Proof.
  intros Hf w b w' Hrt HK <- Hb. rewrite reads_bind in Hb.
  destruct (Hf (entered w)) with (w := stepped w (entered w)) (a := b) (w' := w') as (rt2 & n & Hrt2 & HK2 & Hh2 & HQ);
    try done; [by unfold entered; rewrite own|by apply rely|by simpl; unfold entered; rewrite own|by apply rely|].
  exists rt2, (n ++ [EvStep (entered w) (entered w)]). by rewrite <-(assoc_L (++)).
Qed.

(** An update of the runtime. *)
Lemma does_update rt h f :
  (∀ now utc, monitor_update (f now utc)) →
  does rt h (update_runtime name f) (λ _ rt' _ n, ∃ s now utc,
    rt' = f now utc rt ∧ n = [EvStep s (set_runtimes (alter (f now utc) name (sh_runtimes s)) s)] ∧
    sh_runtimes s !! name = Some rt).
Proof.
  intros Hf w a w' Hrt HK <- Ha. pose proof (survives_kept K _ w a w' rely (keeps_update_runtime _ _ kept_K f Hf) HK Ha) as HK'.
  injection Ha as <- <-. eexists _, [_]. simpl in *. split; [by rewrite lookup_alter_eq, own, Hrt|]. split; [done|].
  split; [done|]. eexists _, _, _. split; [done|]. split; [done|]. by rewrite own.
Qed.

Lemma does_apply_state rt h st pid :
  (is_Some pid → keeps_pid st = true) →
  does rt h (apply_state name st pid)
    (λ _ rt' h n, restated rt rt' ∧ in_state st pid rt' ∧ reported name st pid h n).
Proof.
  intros Hp. unfold apply_state. eapply does_bind; [apply does_update; by constructor|].
  intros [] rt1 n1 (s & now & utc & Hrt1 & -> & Hs).
  assert (restated rt rt1) as Hre by (rewrite Hrt1; unfold set_state_rt; case_decide; done).
  assert (in_state st pid rt1) as Hin by (rewrite Hrt1; split; [done|by destruct pid, st]). clear Hp.
  eapply does_weaken; [apply (does_quiet _ _ _ (λ _, anything)); [|apply acts_anything]; intros; by apply keeps_notify_watchers|].
  intros [] rt2 n2 [-> [_ Hn]]. split; [done|]. split; [done|]. apply next_intro; [|done]. eexists. split; [done|].
  eexists _, _, rt1. split; [done|]. split; [|done]. simpl. by rewrite lookup_alter_eq, Hs, Hrt1.
Qed.

(** Report a state and return. *)
Lemma does_apply_ret rt h st pid {A} (a : A) (Q : A → Runtime → Acts) :
  (is_Some pid → keeps_pid st = true) →
  (∀ rt' n, restated rt rt' → in_state st pid rt' → reported name st pid h n → Q a rt' h n) →
  does rt h (apply_state name st pid;; mret a) Q.
Proof.
  intros Hp HQ. eapply does_bind; [by apply does_apply_state|]. intros [] rt1 n1 (Hre & Hin & Hrep).
  apply does_ret. rewrite app_nil_l. by apply HQ.
Qed.

Lemma restated_refl rt : restated rt rt.
Proof. done. Qed.

Lemma restated_trans rt1 rt2 rt3 : restated rt1 rt2 → restated rt2 rt3 → restated rt1 rt3.
Proof. unfold restated. naive_solver congruence. Qed.

Lemma unreported_app h n1 n2 : unreported name h n1 → unreported name (n1 ++ h) n2 → unreported name h (n2 ++ n1).
Proof. intros. by apply Forall_app. Qed.

(** ** Starting *)

Section start.
Context (cfg : ServiceConfig) (Hname : sc_name cfg = name).

(** The answer of the registry, then a state reported. *)
Lemma does_report rt h n1 R st pid {A} (a : A) (Q : A → Runtime → Acts) :
  (is_Some pid → keeps_pid st = true) → quietly name R h n1 →
  (∀ rt' n, restated rt rt' → in_state st pid rt' → (quietly (sc_name cfg) R ⨾ reported (sc_name cfg) st pid) h (n ++ n1) →
     Q a rt' (n1 ++ h) n) →
  does rt (n1 ++ h) (apply_state name st pid;; mret a) Q.
Proof.
  intros Hp Hn1 HQ. apply does_apply_ret; [done|]. intros rt' n Hre Hin Hrep. apply HQ; [done..|]. rewrite Hname.
  by apply next_intro.
Qed.

Lemma does_finish_daemon rt h tracked pid :
  sc_daemon cfg = true →
  does rt h (finish_daemon cfg tracked pid)
    (λ r rt' h n, restated rt rt' ∧ finish_outcome cfg tracked pid h n r rt').
Proof.
  intros Hd. unfold finish_daemon. rewrite Hname.
  eapply does_quiet_bind; [intros; by apply keeps_await_early_exit|apply acts_await_early_exit|]. intros [code|] n1 Hn1.
  - destruct (bool_decide _ && _) eqn:Hz.
    + apply andb_true_iff in Hz as [Hz%bool_decide_eq_true Hs]. eapply does_report; [by intros []|exact Hn1|].
      intros rt' n Hre Hin Hrep. split; [done|]. by eapply fin_daemonized.
    + apply andb_false_iff in Hz as Hz. rewrite bool_decide_eq_false in Hz. eapply does_report; [by intros []|exact Hn1|].
      intros rt' n Hre Hin Hrep. split; [done|]. rewrite <-Hname. by eapply fin_exited.
  - eapply does_report; [done|exact Hn1|]. intros rt' n Hre Hin Hrep. split; [done|]. by eapply fin_up.
Qed.

Lemma does_finish_job rt h tracked pid :
  sc_daemon cfg = false →
  does rt h (finish_job cfg tracked pid)
    (λ r rt' h n, restated rt rt' ∧ finish_outcome cfg tracked pid h n r rt').
Proof.
  intros Hd. unfold finish_job. rewrite Hname.
  eapply does_quiet_bind; [intros; by apply keeps_wait_take|apply acts_wait_take|]. intros [code|] n1 Hn1.
  - destruct (is_success cfg code) eqn:Hs; (eapply does_report; [by intros []|exact Hn1|]).
    + intros rt' n Hre Hin Hrep. split; [done|]. by eapply fin_done.
    + intros rt' n Hre Hin Hrep. split; [done|]. rewrite <-Hname. by eapply fin_failed.
  - destruct Hn1 as [Hn1 Hu1].
    eapply does_quiet_bind; [intros; by apply keeps_terminate_pid|apply acts_terminate_pid|]. intros [] n2 [Hn2 Hu2].
    eapply does_quiet_bind; [intros; by apply keeps_wait_take|apply acts_wait_take|]. intros r n3 [Hn3 Hu3].
    apply does_apply_ret; [by intros []|]. intros rt' n Hre Hin Hrep. split; [done|]. rewrite <-Hname.
    eapply fin_timed_out; [done..|]. rewrite Hname, <-!(assoc_L (++)). apply next_intro.
    + split; [|by repeat apply Forall_app_2]. rewrite (assoc_L (++)). apply next_intro; [done|]. apply next_intro; [done|].
      eapply somewhere_mono; [|exact Hn3]. intros h' n' He. by exists r.
    + by rewrite <-!(assoc_L (++)).
Qed.

(** Spawn the start command and wait for its outcome. *)
Lemma does_launch rt h n0 tracked force :
  rt_enabled rt = true → went_ahead cfg force h n0 →
  does rt (n0 ++ h) (launch cfg tracked)
    (λ r rt' _ n, restated rt rt' ∧ start_outcome cfg tracked force true h (n ++ n0) r rt').
Proof.
  intros Hen Hgo. unfold launch. rewrite Hname.
  eapply does_bind; [apply does_apply_state; by intros []|]. intros [] rt1 n1 (Hre1 & Hin1 & Hrep1).
  assert (∀ e n2, quietly (sc_name cfg) (λ h new, match resolve_start cfg with
      | Ok cmd => not_spawned cfg cmd e h new | Err err => e = err end) (n1 ++ n0 ++ h) n2 →
    start_outcome cfg tracked force true h ((n2 ++ n1) ++ n0) (Err e, tracked) rt1) as Herr.
  { intros e n2 Hn2. apply out_not_spawned; [done..|]. rewrite Hname in *. apply next_intro; [done|]. by apply next_intro. }
  destruct (resolve_start cfg) as [cmd|e] eqn:Hcmd.
  2:{ apply does_ret. split; [done|]. apply Herr. by split; [|constructor]. }
  eapply does_quiet_bind; [intros; by apply keeps_spawn_shell|apply acts_spawn_shell|]. intros [pid|e] n2 Hn2.
  2:{ apply does_ret. split; [done|]. rewrite app_nil_l. apply Herr. by rewrite Hname. }
  apply does_skip; [intros; by apply keeps_effect|]. intros [] n3 Hn3.
  apply does_skip; [intros; by apply keeps_effect|]. intros [] n4 Hn4.
  assert (∀ rt' n, restated rt1 rt' ∧ finish_outcome cfg tracked pid (n4 ++ n3 ++ n2 ++ n1 ++ n0 ++ h) n.1 n.2 rt' →
    restated rt rt' ∧ start_outcome cfg tracked force true h (((((n.1 ++ n4) ++ n3) ++ n2) ++ n1) ++ n0) n.2 rt') as Hok.
  { intros rt' [n r] [Hre Hf]. simpl in *. split; [by eapply restated_trans|]. eapply out_spawned; [done..|]. rewrite Hname.
    apply next_intro; [done|]. apply next_intro; [done|]. apply next_intro; [done|]. rewrite <-(assoc_L (++)).
    apply next_intro; [by apply unreported_app|]. by rewrite <-(assoc_L (++)). }
  destruct (sc_daemon cfg) eqn:Hd.
  - eapply does_weaken; [by apply does_finish_daemon|]. intros r rt' n Hf. by apply (Hok rt' (n, r)).
  - eapply does_weaken; [by apply does_finish_job|]. intros r rt' n Hf. by apply (Hok rt' (n, r)).
Qed.

Lemma does_load_enabled rt h {B} (f : Result bool → M B) Q :
  (∀ n1, unreported name h n1 → does rt (n1 ++ h) (f (Ok (rt_enabled rt))) (λ b rt2 _ n2, Q b rt2 h (n2 ++ n1))) →
  does rt h (load_enabled name ≫= f) Q.
Proof.
  intros Hf. apply does_reads. intros s Hs _. unfold is_enabled. rewrite Hs. apply (Hf [EvStep s s]).
  constructor; [done|constructor].
Qed.

Lemma does_enabled_or rt h d {B} (f : bool → M B) Q :
  (∀ n1, unreported name h n1 → does rt (n1 ++ h) (f (rt_enabled rt)) (λ b rt2 _ n2, Q b rt2 h (n2 ++ n1))) →
  does rt h (enabled_or d name ≫= f) Q.
Proof.
  intros Hf. eapply does_bind with (R := λ e rt' h n, rt' = rt ∧ e = rt_enabled rt ∧ unreported name h n).
  - unfold enabled_or. apply does_load_enabled. intros n1 Hn1. apply does_ret. by split; [|split].
  - intros e rt1 n1 (-> & -> & Hn1). by apply Hf.
Qed.

Lemma acts_reads_look {A} (g : Shared → A) : acts (reads g) (λ r, one (λ _ e, ∃ s, e = EvStep s s ∧ g s = r)).
Proof. intros h. apply acts_atomic. intros s. eexists. split; [done|]. by exists s. Qed.

(** What is known of an unknown dependency. *)
Definition dep_missing (e : Error.t) : Acts := λ h new, ∃ d, d ∈ sc_depends_on cfg ∧ e = Error.UnknownService d ∧
  somewhere (one (λ _ e, ∃ s, e = EvStep s s ∧ sh_runtimes s !! d = None)) h new.

Lemma acts_check_deps force :
  acts (check_deps cfg force) (λ r, match r with
    | Err e => dep_missing e
    | Ok false => λ h n, force = false ∧ deps_found cfg (Ok false) h n
    | Ok true => went_ahead cfg force
    end).
Proof.
  intros h. unfold check_deps, went_ahead. destruct (force || _) eqn:Hf; [by apply acts_ret|].
  apply orb_false_iff in Hf as [-> _]. eapply acts_call; [apply acts_reads_look|]. intros r n (e & -> & s & -> & Hs).
  pose proof (deps_ready_spec (sc_depends_on cfg) (sh_runtimes s)) as Hd. rewrite Hs in Hd.
  destruct r as [[]|e].
  - apply (somewhere_intro (one _)). eexists. split; [done|]. by exists s.
  - split; [done|]. apply (somewhere_intro (one _)). eexists. split; [done|]. by exists s.
  - destruct Hd as (d & Hin & Hnone%not_elem_of_dom & ->). exists d. split; [done|]. split; [done|]. apply (somewhere_intro (one _)).
    eexists. split; [done|]. by exists s.
Qed.

Lemma acts_warn_forced force :
  acts (warn_forced cfg force) (λ r, match r with
    | Err e => dep_missing e
    | Ok _ => λ _ _, True
    end).
Proof.
  intros h. unfold warn_forced. destruct (force && _); [|by apply acts_ret].
  eapply acts_bind; [apply acts_reads_look|]. intros r n1 (e & -> & s & -> & Hs).
  pose proof (unmet_deps_spec (sc_depends_on cfg) (sh_runtimes s)) as Hd. rewrite Hs in Hd. destruct r as [out|e].
  - apply acts_skip; [unfold emit_init, emit, publish_line; emits_solve|]. intros [] n2. by apply acts_ret.
  - apply acts_ret. destruct Hd as (d & Hin & Hnone%not_elem_of_dom & ->). exists d. split; [done|]. split; [done|].
    apply (somewhere_intro (one _)). eexists. split; [done|]. by exists s.
Qed.

Lemma keeps_check_deps force G : quiet_closed G → guarantees G (check_deps cfg force).
Proof. intros HG. unfold check_deps. keeps_solve. Qed.

Lemma keeps_warn_forced force G : quiet_closed G → guarantees G (warn_forced cfg force).
Proof. intros HG. unfold warn_forced. pose proof (keeps_emit_init G HG). keeps_solve. Qed.

Lemma went_ahead_first force h n1 n2 : went_ahead cfg force h n1 → went_ahead cfg force h (n2 ++ n1).
Proof. unfold went_ahead. destruct (_ || _); [done|]. apply somewhere_first. Qed.

Lemma went_ahead_then force h n1 n2 : went_ahead cfg force (n1 ++ h) n2 → went_ahead cfg force h (n2 ++ n1).
Proof. unfold went_ahead. destruct (_ || _); [done|]. apply somewhere_then. Qed.

Lemma does_do_start rt h tracked force :
  does rt h (do_start cfg tracked force)
    (λ r rt' h n, restated rt rt' ∧ start_outcome cfg tracked force (rt_enabled rt) h n r rt').
Proof.
  unfold do_start. rewrite Hname. apply does_load_enabled. intros n1 Hn1. destruct (rt_enabled rt) eqn:Hen.
  2:{ apply does_apply_ret; [by intros []|]. intros rt' n Hre Hin Hrep. split; [done|]. rewrite <-Hname in *.
      apply out_disabled; [done..|]. by apply next_intro. }
  assert (∀ e h' n2, dep_missing e h' n2 → h' = n1 ++ h → unreported name h' n2 →
    restated rt rt ∧ start_outcome cfg tracked force true h (n2 ++ n1) (Err e, tracked) rt) as Hmissing.
  { intros e h' n2 (d & Hd & -> & Hs) -> Hn2. split; [done|]. eapply out_unknown_dep; [done..|]. rewrite Hname.
    split; [by apply somewhere_then|by apply unreported_app]. }
  eapply does_quiet_bind; [intros; by apply keeps_check_deps|apply acts_check_deps|]. intros [[]|e] n2 [Hr Hn2].
  - eapply does_quiet_bind; [intros; by apply keeps_warn_forced|apply acts_warn_forced|]. intros [[]|e] n3 [Hr3 Hn3].
    + rewrite !(assoc_L (++)). eapply does_weaken; [apply (does_launch rt h ((n3 ++ n2) ++ n1)); [done|]|].
      * by apply went_ahead_then, went_ahead_first.
      * intros r rt' n [Hre Hs]. split; [done|]. by rewrite !(assoc_L (++)) in Hs.
    + apply does_ret. rewrite app_nil_l. destruct Hr3 as (d & Hd & -> & Hs). eapply Hmissing; [|done|by apply unreported_app].
      exists d. split; [done|]. split; [done|]. by apply somewhere_then.
  - destruct Hr as [-> Hr]. apply does_skip; [intros G HG; keeps_solve|]. intros st n3 Hn3.
    apply does_skip; [intros G HG; pose proof (keeps_emit_init G HG); keeps_solve|]. intros [] n4 Hn4.
    apply does_apply_ret; [by intros []|]. intros rt' n Hre Hin Hrep. split; [done|].
    eapply out_waiting; [done..|]. rewrite Hname, <-!(assoc_L (++)). apply next_intro; [|by rewrite <-!(assoc_L (++))].
    split; [|by repeat apply Forall_app_2]. rewrite !(assoc_L (++)). apply somewhere_then.
    rewrite <-(assoc_L (++)). by apply somewhere_first, somewhere_first.
  - apply does_ret. rewrite app_nil_l. by eapply Hmissing.
Qed.

(** A start by the monitor with nothing tracked, its error reported. *)
Lemma does_start_reported rt h force prefix {B} (f : option Z → M B) Q :
  (∀ t rt' n1, restated rt rt' → started cfg force (rt_enabled rt) t rt' h n1 →
     does rt' (n1 ++ h) (f t) (λ b rt2 _ n2, Q b rt2 h (n2 ++ n1))) →
  does rt h (r ← do_start cfg None force; start_failed name prefix r.1;; f r.2) Q.
Proof.
  intros Hf. eapply does_bind; [apply does_do_start|]. intros [[[]|e] t] rt1 n1 [Hre1 Hs]; simpl.
  - intros w b w' Hrt HK Hh Hb. eapply Hf; [done|by apply st_started|done..].
  - assert (t = None) as -> by (inversion Hs; subst; try done; match goal with
      | H : ((went_ahead _ _) ⨾ _) _ _ |- _ => destruct H as (?&?&->&_&(?&?&->&_&(?&?&->&_&(?&?&->&_&Hfin)))); by inversion Hfin end).
    eapply does_bind with (R := λ _ rt' h n, restated rt rt' ∧ in_state ServiceState.Failed None rt' ∧
      (unreported name ⨾ reported name ServiceState.Failed None) h n).
    + apply does_skip; [intros; by apply keeps_emit_init|]. intros [] n2 Hn2.
      eapply does_weaken; [by apply does_apply_state; intros []|]. intros [] rt' n (Hre & Hin & Hrep).
      split; [by eapply restated_trans|]. split; [done|]. by apply next_intro.
    + intros [] rt' n2 (Hre & Hin & Hrep).
      assert (started cfg force (rt_enabled rt) None rt' h (n2 ++ n1)) as Hst.
      { eapply st_failed; [done..|]. rewrite Hname. by apply next_intro. }
      specialize (Hf None rt' (n2 ++ n1) Hre Hst). rewrite <-(assoc_L (++)) in Hf.
      eapply does_weaken; [exact Hf|]. intros b rt2 n HQ. cbn beta in *. by rewrite <-(assoc_L (++)).
Qed.

Lemma does_start_and_schedule rt h force streak :
  does rt h (start_and_schedule cfg None force streak)
    (λ l rt' h n, restated rt rt' ∧ lo_streak l = streak ∧
       (started cfg force (rt_enabled rt) (lo_tracked l) rt' ⨾ unreported name) h n).
Proof.
  unfold start_and_schedule. rewrite Hname.
  apply (does_start_reported _ _ _ _ (λ t, next ← schedule_liveness cfg; mret (mkLocal t next streak))). intros t rt' n1 Hre Hs.
  apply does_skip; [intros; by apply keeps_schedule_liveness|]. intros next n2 Hn2. apply does_ret. rewrite app_nil_l.
  split; [done|]. split; [done|]. by apply next_intro.
Qed.

(** ** Messages *)

Lemma keeps_run_restart G : quiet_closed G → guarantees G (run_restart cfg).
Proof. intros HG. unfold run_restart. pose proof (keeps_run_shell G HG). keeps_solve. Qed.

Lemma restart_done_daemon h n : restart_done cfg true h n → sc_daemon cfg = true.
Proof.
  unfold restart_done. destruct (resolve_restart cfg); [|by intros []].
  intros (r & _ & Hb). symmetry in Hb. by apply andb_true_iff in Hb as [? _].
Qed.

#[local] Abbreviation outcome := (λ rt msg l flow rt' h n, restated rt rt' ∧ msg_outcome cfg l rt h n msg flow rt').

Lemma does_stop rt h l : does rt h (handle_msg cfg CtlStop l) (outcome rt CtlStop l).
Proof.
  cbn [handle_msg]. rewrite Hname. apply does_skip; [intros; by apply keeps_emit_init|]. intros [] n1 Hn1.
  eapply does_bind; [by apply does_apply_state; intros []|]. intros [] rt1 n2 (Hre1 & Hin1 & Hrep1).
  eapply does_quiet_bind; [intros; by apply keeps_stop_tracked|apply acts_stop_tracked|]. intros [] n3 Hn3.
  apply does_enabled_or. intros n4 Hn4. destruct Hre1 as (? & ? & Hen).
  apply does_apply_ret; [by intros []|]. intros rt' n Hre Hin Hrep. split; [by eapply restated_trans|].
  rewrite Hen in *. eapply mo_stop; [done..|]. rewrite Hname. by repeat (apply next_intro; [done|]).
Qed.

Lemma does_quit rt h l : does rt h (handle_msg cfg CtlQuit l) (outcome rt CtlQuit l).
Proof.
  cbn [handle_msg]. rewrite Hname.
  eapply does_quiet_bind; [intros; by apply keeps_stop_tracked|apply acts_stop_tracked|]. intros [] n1 Hn1.
  apply does_apply_ret; [by intros []|]. intros rt' n Hre Hin Hrep. split; [done|].
  apply mo_quit; [done|]. rewrite Hname. by apply next_intro.
Qed.

Lemma does_restart rt h l : does rt h (handle_msg cfg CtlRestart l) (outcome rt CtlRestart l).
Proof.
  cbn [handle_msg]. rewrite Hname. apply does_skip; [intros; by apply keeps_emit_init|]. intros [] n1 Hn1.
  eapply does_quiet_bind; [intros; by apply keeps_stop_tracked|apply acts_stop_tracked|]. intros [] n2 Hn2.
  eapply does_quiet_bind; [intros; by apply keeps_run_restart|apply acts_run_restart|]. intros [] n3 Hn3.
  - eapply does_bind; [by apply does_apply_state; intros []|]. intros [] rt1 n4 (Hre & Hin & Hrep).
    apply does_skip; [intros; by apply keeps_schedule_liveness|]. intros next n5 Hn5. apply does_ret. rewrite app_nil_l.
    split; [done|]. apply mo_restart_cmd; [by eapply restart_done_daemon, Hn3|done..|].
    rewrite Hname. by repeat (apply next_intro; [done|]).
  - eapply does_bind; [apply does_start_and_schedule|]. intros l' rt1 n4 (Hre & Hz & Hs). apply does_ret. rewrite app_nil_l.
    split; [done|]. apply mo_restart; [done|]. rewrite Hname. by repeat (apply next_intro; [done|]).
Qed.

Lemma does_handle_msg rt h msg l : does rt h (handle_msg cfg msg l) (outcome rt msg l).
Proof.
  destruct msg as [force| | |]; [|apply does_stop|apply does_restart|apply does_quit].
  cbn [handle_msg]. case_decide as Htr.
  - destruct Htr as [pid Hpid]. apply does_ret. split; [done|]. by eapply mo_already_up.
  - apply eq_None_not_Some in Htr. rewrite Htr.
    eapply does_bind; [apply does_start_and_schedule|]. intros l' rt1 n1 (Hre & Hz & Hs). apply does_ret. rewrite app_nil_l.
    split; [done|]. apply mo_start; [done..|]. by rewrite Hname.
Qed.

(** ** Exits *)

Lemma does_bump_restarts rt h :
  does rt h (bump_restarts name) (λ _ rt' _ _, restated (bump_restarts_rt 0 rt) rt').
Proof.
  eapply does_weaken; [apply does_update; by constructor|]. intros [] rt' n (s & now & utc & -> & _). done.
Qed.

Definition restarts (b : bool) (code : Z) (rt0 : Runtime) : bool :=
  sc_daemon cfg && RestartPolicy.should_restart (sc_restart_policy cfg) (is_success cfg code)
  && rt_enabled rt0 && negb b.

(** The decision, when the stop flag is [b]. *)
Lemma does_on_process_exit rt h code b :
  (∀ s, K s → sh_stop_all s = b) →
  does rt h (on_process_exit cfg None code)
    (λ t rt' h n, if restarts b code rt
      then restated (bump_restarts_rt 0 rt) rt' ∧
        (anything ⨾ reported name ServiceState.Restarting None ⨾ anything ⨾ started cfg false (rt_enabled rt) t rt') h n
      else restated rt rt' ∧ t = None ∧ in_state (exit_state (is_success cfg code)) None rt').
Proof.
  intros HKb. unfold on_process_exit, restarts. rewrite Hname.
  eapply does_bind; [by apply does_apply_state; intros []|]. intros [] rt1 n1 (Hre1 & Hin1 & _).
  assert (rt_enabled rt1 = rt_enabled rt) as Hen by apply Hre1. apply does_enabled_or. intros n2 _. rewrite Hen.
  destruct (sc_daemon cfg); simpl.
  2:{ apply does_apply_ret; [by intros []|]. intros rt' n Hre Hin _. split; [by eapply restated_trans|done]. }
  apply does_reads. intros s _ Hs. rewrite (HKb s Hs).
  destruct (_ && rt_enabled rt && negb b); simpl.
  2:{ apply does_apply_ret; [by intros []|]. intros rt' n Hre Hin _. split; [by eapply restated_trans|done]. }
  eapply does_bind; [by apply does_apply_state; intros []|]. intros [] rt2 n3 (Hre2 & _ & Hrep).
  eapply does_bind; [apply does_bump_restarts|]. intros [] rt3 n4 Hre3.
  do 2 (apply does_skip; [intros; (by apply keeps_emit_init) || by apply keeps_effect|]; intros [] ? ?).
  apply (does_start_reported _ _ _ _ mret). intros t rt' n7 Hre Hst. apply does_ret. rewrite app_nil_l.
  assert (rt_enabled rt3 = rt_enabled rt) as Hen3 by (unfold restated in *; simpl in *; naive_solver congruence).
  rewrite Hen3 in Hst. split.
  - eapply restated_trans; [|exact Hre]. unfold restated, bump_restarts_rt in *; simpl in *. naive_solver congruence.
  - do 3 apply anything_then. apply anything_here, next_intro; [done|]. do 3 apply anything_then. by apply anything_here.
Qed.

(** ** Probes *)

Lemma does_bump_liveness rt h detail :
  does rt h (bump_liveness_failures name detail) (λ _ rt' _ _, ∃ utc, rt' = bump_liveness_rt utc detail rt).
Proof.
  eapply does_weaken; [apply does_update; by constructor|]. intros [] rt' n (s & now & utc & -> & _). by exists utc.
Qed.

Section liveness.
Context (rt0 : Runtime) (Hen : rt_enabled rt0 = true) (now : N).
Context (l : Local) (probe : LivenessProbe) (Hdue : due_probe cfg l rt0 now = Some probe).

Lemma does_probe_failed h0 n0 reason next :
  (unreported name ⨾ quietly name (probe_shows probe cfg (ProbeFail reason)) ⨾ anything) h0 n0 →
  does rt0 (n0 ++ h0) (probe_failed cfg probe reason (mkLocal (lo_tracked l) (Some next) (lo_streak l)))
    (λ l' rt' _ n, liveness_outcome cfg l rt0 now h0 (n ++ n0) l' rt').
Proof.
  intros (n1 & n23 & -> & Hn1 & (n2 & n3 & -> & Hn2 & _)). rewrite <-!(assoc_L (++)). unfold probe_failed. rewrite Hname. cbn [lo_tracked lo_streak lo_next_liveness].
  eapply does_bind; [apply does_bump_liveness|]. intros [] rt1 k1 [utc ->]. case_decide as Hth.
  - apply does_skip; [intros; by apply keeps_emit_init|]. intros [] k2 Hk2. apply does_ret.
    eapply lv_failed; [done..|]. rewrite Hname, !(assoc_L (++)). apply next_intro; [done|]. by apply next_intro.
  - apply does_skip; [intros; by apply keeps_emit_init|]. intros [] k2 Hk2.
    eapply does_bind; [by apply does_apply_state; intros []|]. intros [] rt2 k3 (Hre2 & _ & Hrep).
    eapply does_bind; [apply does_bump_restarts|]. intros [] rt3 k4 Hre3.
    eapply does_quiet_bind; [intros; by apply keeps_stop_tracked|apply acts_stop_tracked|]. intros [] k5 Hk5.
    apply (does_start_reported _ _ _ _ (λ t, next ← schedule_liveness cfg; mret (mkLocal t next 0))).
    intros t rt' k6 Hre Hst. apply does_skip; [intros; by apply keeps_schedule_liveness|]. intros next' k7 Hk7. apply does_ret.
    assert (rt_enabled rt3 = true) as Hen3 by (unfold restated in *; simpl in *; naive_solver congruence).
    rewrite Hen3 in Hst. eapply lv_restarted; [done|lia| |done|].
    + eapply restated_trans; [|exact Hre]. unfold restated, bump_restarts_rt, bump_liveness_rt in *; simpl in *. naive_solver congruence.
    + rewrite Hname, app_nil_l, !(assoc_L (++)). apply next_intro; [done|]. apply next_intro; [done|].
      do 3 apply anything_then. apply anything_here, next_intro; [done|]. apply anything_then, anything_here.
      apply next_intro; [done|]. by apply next_intro.
Qed.

Lemma does_probe_now h0 n0 :
  unreported name h0 n0 →
  does rt0 (n0 ++ h0) (probe_now cfg probe (rt_state rt0) l) (λ l' rt' _ n, liveness_outcome cfg l rt0 now h0 (n ++ n0) l' rt').
Proof.
  intros Hn0. unfold probe_now. rewrite Hname.
  eapply does_quiet_bind; [intros; by apply keeps_run_probe|apply acts_run_probe|]. intros r n1 Hn1.
  apply does_skip; [intros; by apply keeps_asks|]. intros now' n2 Hn2.
  apply does_skip; [intros; apply keeps_instant_add|]. intros next n3 Hn3.
  assert (∀ n, (unreported name ⨾ quietly name (probe_shows probe cfg r) ⨾ anything) h0 (((n ++ n2) ++ n1) ++ n0)) as Hshown.
  { intros n. by do 2 (apply next_intro; [done|]). }
  destruct r as [|reason].
  - destruct (bool_decide _ && _) eqn:Hf.
    + apply does_apply_ret; [by intros []|]. intros rt' n Hre Hin _. eapply lv_passed; [done|by rewrite Hf|].
      rewrite Hname. apply Hshown.
    + apply does_skip; [intros; apply keeps_ret|]. intros [] n4 _. apply does_ret. eapply lv_passed; [done|by rewrite Hf|].
      rewrite Hname. apply Hshown.
  - specialize (Hshown n3). eapply does_probe_failed in Hshown. rewrite <-!(assoc_L (++)) in Hshown.
    eapply does_weaken; [exact Hshown|]. intros l' rt' n HQ. cbn beta in *. by rewrite <-!(assoc_L (++)).
Qed.
End liveness.

Lemma due_probe_None rt0 l now :
  sc_liveness_probe cfg = None ∨ probed (rt_state rt0) = false ∨ rt_enabled rt0 = false ∨
  match lo_next_liveness l with Some t => (now < t)%N | None => True end →
  due_probe cfg l rt0 now = None.
Proof.
  unfold due_probe. destruct (probed _), (rt_enabled _); simpl; try done. destruct (lo_next_liveness l); [|done].
  case_bool_decide; [|done]. intros [?|[?|[?|?]]]; [done..|lia].
Qed.

(** What has been done up to a world: nothing to the runtime. *)
Definition idled rt0 (w w1 : World) : Prop :=
  sh_runtimes (shared w1) !! name = Some rt0 ∧ K (shared w1) ∧
  ∃ n, hist w1 = n ++ hist w ∧ unreported name (hist w) n.

Lemma idled_looked rt0 w w1 : idled rt0 w w1 → idled rt0 w (looked w1).
Proof.
  intros (Hrt & HK & n & Hh & Hn). split; [simpl; unfold entered; by rewrite own|]. split; [by apply rely|].
  exists (EvStep (entered w1) (entered w1) :: n). simpl. rewrite Hh. split; [done|]. by constructor.
Qed.

Lemma maybe_liveness_outcome rt0 l w l' w' :
  sh_runtimes (shared w) !! name = Some rt0 → K (shared w) → maybe_liveness cfg l w = (Some l', w') →
  ∃ rt' new, sh_runtimes (shared w') !! name = Some rt' ∧ K (shared w') ∧ hist w' = new ++ hist w ∧
    liveness_outcome cfg l rt0 (clock (hist (looked (looked w)))) (hist w) new l' rt'.
Proof.
  intros Hrt HK. set (now := clock _). set (w2 := looked (looked w)) in *.
  assert (idled rt0 w w) as H0' by (split_and!; [done..|exists []; by split; [|constructor]]).
  assert (idled rt0 w w2) as H2' by by do 2 apply idled_looked.
  assert (∀ w1 next, due_probe cfg l rt0 now = None → idled rt0 w w1 →
    mret (M := M) (mkLocal (lo_tracked l) next (lo_streak l)) w1 = (Some l', w') →
    ∃ rt' new, sh_runtimes (shared w') !! name = Some rt' ∧ K (shared w') ∧ hist w' = new ++ hist w ∧
    liveness_outcome cfg l rt0 now (hist w) new l' rt') as Hidle.
  { intros w1 next Hd (Hrt1 & HK1 & n & Hh & Hn) [= <- <-]. exists rt0, n. split_and!; [done..|]. apply lv_idle; [done|].
    by rewrite Hname. }
  assert (∀ w1, due_probe cfg l rt0 now = None → idled rt0 w w1 → mret (M := M) l w1 = (Some l', w') → _) as Hsame
    by (intros w1; destruct l as [t next k]; exact (Hidle w1 next)).
  unfold maybe_liveness. rewrite Hname. destruct (sc_liveness_probe cfg) as [probe|] eqn:Hp.
  2:{ apply Hidle; [apply due_probe_None; by left|done]. }
  rewrite reads_bind. unfold current_state at 1, entered at 1. rewrite own, Hrt. cbn [fmap option_fmap option_map].
  destruct (probed (rt_state rt0)) eqn:Hst; cbn [negb].
  2:{ apply Hsame; [apply due_probe_None; by right; left|by apply idled_looked]. }
  rewrite (bind_step _ _ _ (rt_enabled rt0) w2).
  2:{ unfold enabled_or, load_enabled. rewrite reads_bind. unfold is_enabled, entered. simpl. by rewrite !own, Hrt. }
  destruct (rt_enabled rt0) eqn:Hen; cbn [negb].
  2:{ apply Hsame; [apply due_probe_None; by right; right; left|done]. }
  destruct H2' as (Hrt2 & HK2 & n2 & Hh2 & Hn2). set (w3 := mkWorld (shared w2) (EvNow :: hist w2)).
  rewrite (bind_step _ _ _ now w3) by done.
  assert (idled rt0 w w3) as H3'.
  { split; [done|]. split; [done|]. exists (EvNow :: n2). split; [exact (f_equal (cons EvNow) Hh2)|]. by constructor. }
  destruct (lo_next_liveness l) as [t|] eqn:Hnext; [case_decide as Ht|].
  - intros Hl. destruct H3' as (Hrt3 & HK3 & n3 & Hh3 & Hn3).
    eapply (does_probe_now rt0 Hen now l probe) in Hl as (rt' & n & Hrt' & HK' & Hh' & HQ); [|..|exact Hn3|exact Hrt3|done|done].
    + exists rt', (n ++ n3). rewrite Hh', (assoc_L (++)). done.
    + unfold due_probe. by rewrite Hst, Hen, Hnext, bool_decide_true.
  - apply Hsame; [apply due_probe_None; rewrite Hnext; right; right; right; lia|done].
  - unfold instant_add. case_decide; [|done]. apply Hidle; [apply due_probe_None; rewrite Hnext; by right; right; right|done].
Qed.
End start.

(** ** Shutdown *)

Lemma does_monitor_step_stopping rt h c l cfg :
  (∀ s, K s → sh_stop_all s = true ∧ cf_get name (sh_config s) = Some cfg) →
  does rt h (monitor_step name c l) (λ flow rt' h n, flow = Break ∧ restated rt rt' ∧ in_state ServiceState.Stopped None rt' ∧
    (unreported name ⨾ quietly name (stop_done cfg (lo_tracked l)) ⨾ reported name ServiceState.Stopped None) h n).
Proof.
  intros HKs. unfold monitor_step, load_stop_all, service_cfg. apply does_reads. intros s Hs HK. rewrite (proj1 (HKs s HK)).
  apply does_reads. intros s' Hs' HK'. rewrite (proj2 (HKs s' HK')). simpl.
  eapply does_quiet_bind; [intros; by apply keeps_stop_tracked|apply acts_stop_tracked|]. intros [] n1 Hn1.
  apply does_apply_ret; [by intros []|]. intros rt' n Hre Hin Hrep. split; [done|]. split; [done|]. split; [done|].
  rewrite <-(assoc_L (++)). apply next_intro; [by repeat constructor|]. by apply next_intro.
Qed.
End own.

(** ** Properties *)

Section properties.
Context `{Host, Nss}.

(** The other threads leave the runtime of [name] alone. *)
Definition owned (name : string) : Prop :=
  ∀ h s, sh_runtimes (interfere h s) !! name = sh_runtimes s !! name.

(** A run under no further assumption. *)
Lemma does_run name {A} rt h (m : M A) Q w a w' :
  owned name →
  ((∀ (h : list Event) (s : Shared), True → True) → monitor_closed name (kept (λ _, True)) → does name (λ _, True) rt h m Q) →
  sh_runtimes (shared w) !! name = Some rt → hist w = h → m w = (Some a, w') →
  ∃ rt' new, sh_runtimes (shared w') !! name = Some rt' ∧ hist w' = new ++ h ∧ Q a rt' h new.
Proof.
  intros Hown Hm Hrt Hh Ha. destruct (Hm (λ _ _ _, I)) with (w := w) (a := a) (w' := w') as (rt' & new & ? & _ & ? & ?);
    try done; by exists rt', new.
Qed.


(** C5: A monitor answers each message as specified.  A stop reports [Stopping], runs the
    stop command and ends the tracked process (told to end, then found gone or killed)
    before it reports the service stopped, or disabled if it no longer is enabled, with
    nothing tracked; a quit does the same and ends the thread.  A restart stops it
    likewise, and then runs the restart command: the service counts as running only if
    it is a daemon whose restart command exited with a success code, and is started
    otherwise.  A start leaves the service as starting it does, and is ignored while a
    process is tracked. *)
Theorem message_outcome cfg msg l rt0 w flow w' :
  owned (sc_name cfg) → sh_runtimes (shared w) !! sc_name cfg = Some rt0 →
  handle_msg cfg msg l w = (Some flow, w') →
  ∃ rt new, sh_runtimes (shared w') !! sc_name cfg = Some rt ∧ hist w' = new ++ hist w ∧ restated rt0 rt ∧
    msg_outcome cfg l rt0 (hist w) new msg flow rt.
Proof.
  intros Hown Hrt Hr.
  apply (does_run _ rt0 (hist w) (handle_msg cfg msg l) (λ flow rt h n, restated rt0 rt ∧ msg_outcome cfg l rt0 h n msg flow rt)
    w flow w' Hown); [|done..]. intros Hrely Hk. by apply does_handle_msg.
Qed.

(** C6: Once the stop flag is up, the next iteration of the monitor of a service is its
    last: it runs the stop command and ends the tracked process (told to end, then found
    gone or killed), only then reports the service stopped, and the thread ends, whatever
    messages wait and whatever the other services do. *)
Theorem monitor_shutdown name c l cfg rt0 w flow w' :
  owned name → (∀ h s, sh_stop_all s = true → sh_stop_all (interfere h s) = true) →
  (∀ h s, sh_config (interfere h s) = sh_config s) →
  sh_runtimes (shared w) !! name = Some rt0 → cf_get name (sh_config (shared w)) = Some cfg →
  sh_stop_all (shared w) = true →
  monitor_step name c l w = (Some flow, w') →
  flow = Break ∧ ∃ rt new, sh_runtimes (shared w') !! name = Some rt ∧ hist w' = new ++ hist w ∧ restated rt0 rt ∧
    in_state ServiceState.Stopped None rt ∧
    (unreported name ⨾ quietly name (stop_done cfg (lo_tracked l)) ⨾ reported name ServiceState.Stopped None) (hist w) new.
Proof.
  intros Hown Hstop Hconfig Hrt Hcfg Hflag Hr.
  set (K := λ s, sh_stop_all s = true ∧ cf_get name (sh_config s) = Some cfg).
  assert (∀ h s, K s → K (interfere h s)) as Hrely by (intros h s [??]; unfold K; rewrite Hconfig; auto).
  assert (monitor_closed name (kept K)) as Hk by closed_solve.
  destruct (does_monitor_step_stopping name Hown K Hrely Hk rt0 (hist w) c l cfg (λ s Hs, Hs) w flow w')
    as (rt & new & ? & _ & ? & -> & ? & ? & ?); try done. split; [done|]. by exists rt, new.
Qed.

(** C7: When its process exits, a service is started again exactly if it is a daemon
    whose policy asks for it after that exit code, it is enabled and the daemon is
    not shutting down; the restart counter then grows by one.  Otherwise it ends
    as succeeded or failed after its exit code and nothing is tracked. *)
Theorem exit_decision cfg code rt0 w t w' :
  owned (sc_name cfg) → (∀ h s, sh_stop_all (interfere h s) = sh_stop_all s) →
  sh_runtimes (shared w) !! sc_name cfg = Some rt0 →
  on_process_exit cfg None code w = (Some t, w') →
  ∃ rt new, sh_runtimes (shared w') !! sc_name cfg = Some rt ∧ hist w' = new ++ hist w ∧
    rt_enabled rt = rt_enabled rt0 ∧ rt_liveness_failures rt = rt_liveness_failures rt0 ∧
    if sc_daemon cfg && RestartPolicy.should_restart (sc_restart_policy cfg) (is_success cfg code)
       && rt_enabled rt0 && negb (sh_stop_all (shared w))
    then rt_restarts rt = sat_add u32_max (rt_restarts rt0) 1 ∧
         (anything ⨾ reported (sc_name cfg) ServiceState.Restarting None ⨾ anything ⨾
          started cfg false true t rt) (hist w) new
    else rt_restarts rt = rt_restarts rt0 ∧ t = None ∧
         in_state (exit_state (is_success cfg code)) None rt.
Proof.
  intros Hown Hstop Hrt Hr. set (b := sh_stop_all (shared w)).
  assert (∀ h s, sh_stop_all s = b → sh_stop_all (interfere h s) = b) as Hrely by (intros h s <-; apply Hstop).
  destruct (does_on_process_exit _ Hown (λ s, sh_stop_all s = b) Hrely) with (rt := rt0) (h := hist w) (cfg := cfg)
    (code := code) (b := b) (w := w) (a := t) (w' := w') as (rt & new & Hrt' & _ & Hh & Hout); try done; [closed_solve|].
  exists rt, new. split; [done|]. split; [done|]. destruct (restarts cfg b code rt0) eqn:Hcond; unfold restarts in Hcond.
  - rewrite Hcond. destruct Hout as ((-> & -> & ->) & Hst). split_and!; try done.
    apply andb_true_iff in Hcond as [[_ Hen]%andb_true_iff _]. by rewrite Hen in Hst.
  - rewrite Hcond. by destruct Hout as ((-> & -> & ->) & ? & ?).
Qed.

End properties.

(** ** Concrete runs *)

Definition example_web : ServiceConfig := example_service "web" ["db"; "net"] 100 false.
Definition example_world : World := mkWorld (example_shared example_services) [].

(** A service whose probe reports failure: it exits with 0 and succeeds with 7. *)
Definition example_probe : LivenessProbe := {|
  lp_cmd := Some "check"; lp_http_url := None; lp_tcp_addr := None;
  lp_success_exit_codes := [7%Z]; lp_http_accepted_codes := [200%N]; lp_http_method := "GET";
  lp_interval := 60; lp_timeout := 5; lp_failure_threshold := 2;
|}.

Definition example_probed : ServiceConfig :=
  mkServiceConfig "web" true true RestartPolicy.Always 2 [0%Z] 0 0 false 100 [] (Some "run") None None
    None ∅ "/" (Some example_probe) ∅ None None.

Definition example_up : Runtime := set_state_rt 0 0 ServiceState.Running (Some 100%Z) (new_runtime true).

Definition example_up_world : World :=
  mkWorld (set_runtimes {[ "web" := example_up ]} (example_shared example_services)) [].


Lemma message_outcome_witness :
  let r := handle_msg (H := quiet_host) (H0 := example_nss) example_probed CtlStop
    (mkLocal (Some 100%Z) None 0) example_up_world in
  r.1 = Some (Continue (mkLocal None None 0)) ∧
  ∃ rt new, sh_runtimes (shared r.2) !! "web" = Some rt ∧ hist r.2 = new ++ [] ∧ restated example_up rt ∧
    msg_outcome (H := quiet_host) (H0 := example_nss) example_probed (mkLocal (Some 100%Z) None 0) example_up [] new CtlStop
      (Continue (mkLocal None None 0)) rt.
Proof.
  set (r := handle_msg (H := quiet_host) (H0 := example_nss) example_probed CtlStop
    (mkLocal (Some 100%Z) None 0) example_up_world).
  assert (r = (Some (Continue (mkLocal None None 0)), r.2)) as Hr by (vm_compute; reflexivity).
  assert (owned (H := quiet_host) (sc_name example_probed)) as Hown by (intros h s; reflexivity).
  assert (sh_runtimes (shared example_up_world) !! sc_name example_probed = Some example_up) as Hrt
    by (vm_compute; reflexivity).
  split; [rewrite Hr; reflexivity|].
  exact (message_outcome (H := quiet_host) (H0 := example_nss) example_probed CtlStop
    (mkLocal (Some 100%Z) None 0) example_up example_up_world (Continue (mkLocal None None 0)) r.2
    Hown Hrt Hr).
Defined.

(** The same with the stop flag up. *)
Definition example_stopping : World :=
  mkWorld (set_config (example_cfg [example_probed]) (set_stop_all true (shared example_up_world))) [].

Lemma monitor_shutdown_witness :
  let r := monitor_step (H := quiet_host) (H0 := example_nss) "web" 0 (mkLocal (Some 100%Z) None 0) example_stopping in
  ∃ flow rt new, r.1 = Some flow ∧ flow = Break ∧ sh_runtimes (shared r.2) !! "web" = Some rt ∧ rt_state rt = ServiceState.Stopped ∧
    (unreported "web" ⨾ quietly "web" (stop_done (H := quiet_host) (H0 := example_nss) example_probed (Some 100%Z)) ⨾
     reported "web" ServiceState.Stopped None) [] new.
Proof.
  intros r. assert (∃ flow, r = (Some flow, r.2)) as [flow Hr] by (eexists; vm_compute; reflexivity).
  assert (owned (H := quiet_host) "web") as Hown by (intros h s; reflexivity).
  destruct (monitor_shutdown (H := quiet_host) (H0 := example_nss) "web" 0 (mkLocal (Some 100%Z) None 0) example_probed
    example_up example_stopping flow r.2 Hown (λ _ _ Hs, Hs) (λ _ _, eq_refl) eq_refl eq_refl eq_refl Hr)
    as (Hf & rt & new & Hrt & _ & _ & Hin & Hacts).
  exists flow, rt, new. split; [rewrite Hr; reflexivity|]. split; [exact Hf|]. split; [exact Hrt|].
  split; [exact (proj1 Hin)|exact Hacts].
Defined.

Lemma exit_decision_witness :
  let r := on_process_exit (H := quiet_host) (H0 := example_nss) example_probed None 0 example_up_world in
  r.1 = Some (Some 100%Z) ∧
  ∃ rt new, sh_runtimes (shared r.2) !! "web" = Some rt ∧ hist r.2 = new ++ [] ∧ rt_restarts rt = 1%N ∧
    (anything ⨾ reported "web" ServiceState.Restarting None ⨾ anything ⨾
     started (H := quiet_host) (H0 := example_nss) example_probed false true (Some 100%Z) rt) [] new.
Proof.
  set (r := on_process_exit (H := quiet_host) (H0 := example_nss) example_probed None 0 example_up_world).
  assert (r = (Some (Some 100%Z), r.2)) as Hr by (vm_compute; reflexivity).
  split; [rewrite Hr; reflexivity|].
  assert (owned (H := quiet_host) (sc_name example_probed)) as Hown by (intros h s; reflexivity).
  assert (∀ h s, sh_stop_all (interfere (Host := quiet_host) h s) = sh_stop_all s) as Hstop
    by (intros h s; reflexivity).
  assert (sh_runtimes (shared example_up_world) !! sc_name example_probed = Some example_up) as Hrt0
    by (vm_compute; reflexivity).
  destruct (exit_decision (H := quiet_host) (H0 := example_nss) example_probed 0 example_up
    example_up_world (Some 100%Z) r.2 Hown Hstop Hrt0 Hr) as (rt & new & Hrt & Hh & _ & _ & Hout).
  exists rt, new. split; [exact Hrt|]. split; [exact Hh|].
  assert (sc_daemon example_probed && RestartPolicy.should_restart (sc_restart_policy example_probed)
    (is_success example_probed 0) && rt_enabled example_up
    && negb (sh_stop_all (shared example_up_world)) = true) as Hc by (vm_compute; reflexivity).
  rewrite Hc in Hout. destruct Hout as [Hone Hst]. split; [exact Hone|exact Hst].
Defined.

