(* ===== verification/Spawning.v ===== *)
(** When a monitor spawns a process: the events of a start. *)

From S2P Require Import Prelude Constants RustStr Error Security Config Graph Protocol Logs Watch.
From S2P Require Import Reaper Runtime World Logic EnvFile Service Supervisor Monitor Timing.
#[local] Open Scope stdpp_scope.

(** What an event is, for spawning. *)
Definition spawns (P : ShellCommand → Prop) (e : Event) : Prop :=
  match e with EvSpawn c => P c | _ => True end.

(** Neither the start of a process nor the capture of its output. *)
Definition unspawned (e : Event) : bool :=
  match e with EvSpawn _ | EvCapture _ _ _ => false | _ => true end.

Section unspawned.
Context `{Host, Nss}.
Context (P : Event → Prop) (HP : ∀ e, Is_true (unspawned e) → P e).

#[local] Ltac unspawned_solve := emits_solve; try (intros; by apply HP).

Lemma emits_emit service level msg : emits P (emit service level msg).
Proof. unfold emit, publish_line. unspawned_solve; intros; by apply HP. Qed.
Lemma emits_emit_init level msg : emits P (emit_init level msg).
Proof. apply emits_emit. Qed.
#[local] Hint Resolve emits_emit_init : emits.

Lemma emits_notify_watchers : emits P notify_watchers.
Proof. unfold notify_watchers, list_. unspawned_solve. Qed.
#[local] Hint Resolve emits_notify_watchers : emits.

Lemma emits_apply_state name st pid : emits P (apply_state name st pid).
Proof. unfold apply_state, set_state, update_runtime. unspawned_solve. Qed.
#[local] Hint Resolve emits_apply_state : emits.

Lemma emits_registry_take pid : emits P (registry_take pid).
Proof. unfold registry_take. unspawned_solve. Qed.
#[local] Hint Resolve emits_registry_take : emits.

Lemma emits_wait_take pid timeout : emits P (wait_take pid timeout).
Proof.
  unfold wait_take. apply emits_bind; [unspawned_solve|intros now]. apply emits_bind; [unspawned_solve|intros deadline].
  apply emits_bind; [unspawned_solve|intros n]. induction n as [|n IH]; cbn [wait_take_loop]; unspawned_solve.
Qed.
#[local] Hint Resolve emits_wait_take : emits.

Lemma emits_terminate_pid pid grace : emits P (terminate_pid pid grace).
Proof. unfold terminate_pid. unspawned_solve. apply emits_poll; intros; unspawned_solve. Qed.
#[local] Hint Resolve emits_terminate_pid : emits.

Lemma emits_await_early_exit pid wait : emits P (await_early_exit pid wait).
Proof. unfold await_early_exit. unspawned_solve. apply emits_poll; intros; unspawned_solve. Qed.
#[local] Hint Resolve emits_await_early_exit : emits.

Lemma emits_finish_daemon cfg tracked pid : emits P (finish_daemon cfg tracked pid).
Proof. unfold finish_daemon. unspawned_solve. Qed.
Lemma emits_finish_job cfg tracked pid : emits P (finish_job cfg tracked pid).
Proof. unfold finish_job. unspawned_solve. Qed.

Lemma emits_check_deps cfg force : emits P (check_deps cfg force).
Proof. unfold check_deps. unspawned_solve. Qed.
Lemma emits_warn_forced cfg force : emits P (warn_forced cfg force).
Proof. unfold warn_forced. unspawned_solve. Qed.

Lemma emits_start_failed name prefix r : emits P (start_failed name prefix r).
Proof. unfold start_failed. unspawned_solve. Qed.
Lemma emits_enabled_or d name : emits P (enabled_or d name).
Proof. unfold enabled_or, load_enabled. unspawned_solve. Qed.
Lemma emits_schedule_liveness cfg : emits P (schedule_liveness cfg).
Proof. unfold schedule_liveness. unspawned_solve. Qed.
End unspawned.

Section spawning.
Context `{Host, Nss}.
Context (P : ShellCommand → Prop).
#[local] Abbreviation E := (spawns P).

Lemma unspawned_spawns e : Is_true (unspawned e) → E e.
Proof. by destruct e. Qed.
#[local] Hint Resolve unspawned_spawns emits_emit_init emits_apply_state emits_finish_daemon emits_finish_job
  emits_check_deps emits_warn_forced : emits.

Lemma emits_launch cfg tracked :
  (∀ cmd env ident, resolve_start cfg = Ok cmd → P (mkShellCommand [SHELL; "-c"; cmd] (sc_cwd cfg) env false ident)) →
  emits E (launch cfg tracked).
Proof.
  intros HP. unfold launch. apply emits_bind; [emits_solve|intros _].
  destruct (resolve_start cfg) as [cmd|e]; [|emits_solve].
  apply emits_bind; [|intros []; emits_solve]. unfold spawn_shell.
  apply emits_bind; [emits_solve|intros [ident|e]; [|emits_solve]].
  apply (emits_bind_yields E P).
  - unfold build_shell_command, env_snapshot. emits_solve.
  - unfold build_shell_command. apply (yields_bind (λ _, True)); [done|]. intros env _.
    apply yields_ret. by apply HP.
  - intros c Hc. unfold spawn_command. emits_solve.
Qed.

(** What the checks before a start found, from the state each of them read. *)
Definition start_allowed (cfg : ServiceConfig) (force : bool) (w : World) : Prop :=
  let s1 := entered w in
  let s2 := entered (stepped w s1) in
  is_enabled (sc_name cfg) (sh_runtimes s1) = Ok true ∧
  (force = true ∨ sc_depends_on cfg = [] ∨ deps_ready (sc_depends_on cfg) (sh_runtimes s2) = Ok true).

Lemma emits_do_start cfg tracked force w :
  (start_allowed cfg force w → ∀ cmd env ident, resolve_start cfg = Ok cmd →
     P (mkShellCommand [SHELL; "-c"; cmd] (sc_cwd cfg) env false ident)) →
  ∃ new, hist (do_start cfg tracked force w).2 = new ++ hist w ∧ Forall E new.
Proof.
  intros HP. unfold do_start, load_enabled. rewrite reads_bind.
  set (w1 := stepped w (entered w)).
  assert (∀ A (m : M A), emits E m → ∃ new, hist (m w1).2 = new ++ hist w ∧ Forall E new) as Hfrom.
  { intros A m Hm. destruct (Hm w1) as (new & Hh & Hn). eexists (new ++ [EvStep _ _]).
    rewrite Hh, <-app_assoc. split; [done|]. apply Forall_app. split; [done|]. by constructor. }
  destruct (is_enabled _ _) as [[]|e] eqn:Hen; [|apply Hfrom; emits_solve..].
  assert (emits E (launch cfg tracked) ∨ ¬ start_allowed cfg force w) as Hlaunch.
  { destruct (decide (force = true)) as [Hf|Hf]; [left; apply emits_launch, HP; by split; [|left]|].
    destruct (decide (sc_depends_on cfg = [])) as [Hd|Hd].
    { left. apply emits_launch, HP. split; [done|]. right. by left. }
    destruct (decide (deps_ready (sc_depends_on cfg) (sh_runtimes (entered w1)) = Ok true)) as [Hr|Hr].
    { left. apply emits_launch, HP. split; [done|]. right. by right. }
    right. intros [_ [?|[?|?]]]; done. }
  destruct Hlaunch as [Hlaunch|Hno].
  - apply Hfrom. apply emits_bind; [eauto with emits|]. intros [[]|e]; [|emits_solve..].
    apply emits_bind; [eauto with emits|]. intros [[]|e]; [done|emits_solve].
  - unfold check_deps at 1. destruct (force || _) eqn:Hor.
    { destruct Hno. split; [done|]. apply orb_true_iff in Hor as [->|Hd%bool_decide_eq_true]; auto. }
    rewrite reads_bind. set (w2 := stepped w1 (entered w1)).
    destruct (deps_ready _ _) as [[]|e] eqn:Hr.
    + destruct Hno. split; [done|]. auto.
    + assert (∀ A (m : M A), emits E m → ∃ new, hist (m w2).2 = new ++ hist w ∧ Forall E new) as Hfrom2.
      { intros A m Hm. destruct (Hm w2) as (new & Hh & Hn). eexists (new ++ [EvStep _ _; EvStep _ _]).
        rewrite Hh, <-app_assoc. split; [done|]. apply Forall_app. split; [done|]. by repeat constructor. }
      apply Hfrom2. emits_solve.
    + eexists [EvStep _ _; EvStep _ _]. split; [done|]. by repeat constructor.
Qed.
End spawning.

(** C4: A start spawns nothing but the service's resolved start command, run by the
    shell in its directory, and only when the service was enabled and either the
    start was forced, or it has no dependencies, or they were all ready when they
    were checked; whatever the other threads do. *)
Theorem do_start_guard `{Host, Nss} cfg tracked force w :
  ∃ new, hist (do_start cfg tracked force w).2 = new ++ hist w ∧
    ∀ c, EvSpawn c ∈ new →
      start_allowed cfg force w ∧
      ∃ cmd, resolve_start cfg = Ok cmd ∧ cm_args c = [SHELL; "-c"; cmd] ∧ cm_cwd c = sc_cwd cfg.
Proof.
  destruct (emits_do_start (λ c, start_allowed cfg force w ∧
      ∃ cmd, resolve_start cfg = Ok cmd ∧ cm_args c = [SHELL; "-c"; cmd] ∧ cm_cwd c = sc_cwd cfg)
    cfg tracked force w) as (new & Hh & Hn).
  - intros Hallowed cmd env ident Hcmd. split; [done|]. by exists cmd.
  - exists new. split; [done|]. intros c Hc. by eapply (proj1 (Forall_forall _ _) Hn) in Hc.
Qed.
