(* ===== verification/Processes.v ===== *)
(** The processes of a service: its monitor starts another only when the one before
    has ended or was told to. *)

From S2P Require Import Prelude Constants RustStr Error Security Config Graph Protocol Logs Watch.
From S2P Require Import Reaper Runtime World Logic EnvFile Service Liveness Supervisor Monitor Isolation Timing Spawning.
#[local] Open Scope stdpp_scope.

(** ** Histories *)

(** From any history satisfying [P], what the computation adds keeps the history [ok]
    at every moment, whether or not it returns; when it does, [Q] holds. *)
Definition safely (ok : list Event → Prop) {A} (P : list Event → Prop) (m : M A) (Q : A → list Event → Prop) : Prop :=
  ∀ w h, ok h → P h →
  ∃ new, hist (m w).2 = new ++ hist w ∧ ok (new ++ h) ∧ ∀ a, (m w).1 = Some a → Q a (new ++ h).

Section safely.
Context {ok : list Event → Prop}.

Lemma safely_ret {A} (P : list Event → Prop) (Q : A → list Event → Prop) a : (∀ h, P h → Q a h) → safely ok P (mret a) Q.
Proof. intros HQ w h Hok HP. exists []. split_and!; [done..|]. intros b [= <-]. by apply HQ. Qed.

Lemma safely_no_return {A} (P : list Event → Prop) (Q : A → list Event → Prop) : safely ok P no_return Q.
Proof. intros w h Hok HP. by exists []. Qed.

Lemma safely_bind {A B} P (m : M A) R (f : A → M B) Q :
  safely ok P m R → (∀ a, safely ok (R a) (f a) Q) → safely ok P (m ≫= f) Q.
Proof.
  intros Hm Hf w h Hok HP. destruct (Hm w h Hok HP) as (new & Hh & Hok1 & HR). unfold mbind, M_bind.
  destruct (m w) as [[a|] w1]; [|by exists new]. simpl in Hh.
  destruct (Hf a w1 _ Hok1 (HR a eq_refl)) as (new' & Hh' & Hok2 & HQ). exists (new' ++ new).
  rewrite Hh', Hh, <-!(assoc_L (++)). done.
Qed.

Lemma safely_weaken {A} (P P' : list Event → Prop) (m : M A) (Q Q' : A → list Event → Prop) :
  safely ok P' m Q' → (∀ h, P h → P' h) → (∀ a h, Q' a h → Q a h) → safely ok P m Q.
Proof.
  intros Hm HP HQ w h Hok Hh. destruct (Hm w h Hok (HP h Hh)) as (new & ? & ? & HQ'). exists new.
  split_and!; [done..|]. intros a Ha. by apply HQ, HQ'.
Qed.

Lemma safely_yields {A} (R : A → Prop) P (m : M A) Q :
  safely ok P m Q → yields R m → safely ok P m (λ a h, Q a h ∧ R a).
Proof.
  intros Hm Hr w h Hok HP. destruct (Hm w h Hok HP) as (new & Hh & Hok' & HQ). exists new. split_and!; [done..|].
  intros a Ha. split; [by apply HQ|]. specialize (Hr w). destruct (m w) as [o w']. simpl in Ha. subst o. by eapply Hr.
Qed.

Lemma safely_given {A} (X : Prop) P (m : M A) Q : (X → safely ok P m Q) → safely ok (λ h, P h ∧ X) m Q.
Proof. intros Hm w h Hok [HP HX]. by apply Hm. Qed.
End safely.

(** ** Starts and ends of processes *)

(** The process whose start an event is; its output is captured from then on. *)
Definition started (name : string) (e : Event) : option Z :=
  match e with
  | EvCapture n LogLevel.Stdout pid => if decide (n = name) then Some pid else None
  | _ => None
  end.

(** The process is told to end, or its exit is taken from the registry. *)
Definition ended (e : Event) (pid : Z) : Prop :=
  match e with
  | EvKill p (KillTerm | KillKill) => p = pid
  | EvStep s s' => is_Some (sh_exits s !! pid) ∧ sh_exits s' !! pid = None
  | _ => False
  end.

#[export] Instance ended_dec e pid : Decision (ended e pid).
Proof. unfold ended. repeat case_match; apply _. Defined.

Section processes.
Context (name : string).

(** The processes started and not ended, latest first; newest events first. *)
Fixpoint outstanding (h : list Event) : list Z :=
  match h with
  | [] => []
  | e :: h =>
      match started name e with
      | Some pid => pid :: outstanding h
      | None => filter (λ pid, ¬ ended e pid) (outstanding h)
      end
  end.

(** No process was started while another was outstanding. *)
Fixpoint one_by_one (h : list Event) : Prop :=
  match h with
  | [] => True
  | e :: h => (is_Some (started name e) → outstanding h = []) ∧ one_by_one h
  end.

(** At most the tracked process is outstanding. *)
Definition held (tracked : option Z) (h : list Event) : Prop := ∀ pid, pid ∈ outstanding h → tracked = Some pid.

#[local] Abbreviation safe := (safely one_by_one).

Lemma held_None h : held None h ↔ outstanding h = [].
Proof.
  unfold held. split; [|by intros -> ? ?%elem_of_nil].
  intros Hh. destruct (outstanding h) as [|pid l]; [done|]. by specialize (Hh pid (list_elem_of_here _ _)).
Qed.

(** ** What does not start a process *)

Definition calm (e : Event) : Prop := started name e = None.

Lemma unspawned_calm e : Is_true (unspawned e) → calm e.
Proof. by destruct e. Qed.

Lemma outstanding_calm new h : Forall calm new → outstanding (new ++ h) ⊆ outstanding h.
Proof.
  induction 1 as [|e new He _ IH]; [done|]. simpl. rewrite He. intros pid [_ Hp]%list_elem_of_filter. by apply IH.
Qed.

Lemma one_by_one_calm new h : Forall calm new → one_by_one h → one_by_one (new ++ h).
Proof.
  intros Hn Hh. induction Hn as [|e new He _ IH]; [done|]. simpl. rewrite He. split; [by intros [? ?]|done].
Qed.

Lemma safe_calm {A} t (m : M A) : emits calm m → safe (held t) m (λ _, held t).
Proof.
  intros Hm w h Hok Hh. destruct (Hm w) as (new & Hn & Hc). exists new. split; [done|].
  split; [by apply one_by_one_calm|]. intros _ _ pid Hp. by apply Hh, (outstanding_calm new).
Qed.

Lemma safe_calm_bind {A B} t (m : M A) (f : A → M B) Q :
  emits calm m → (∀ a, safe (held t) (f a) Q) → safe (held t) (m ≫= f) Q.
Proof. intros Hm Hf. eapply safely_bind; [by apply safe_calm|done]. Qed.

(** An event that ends the tracked process. *)
Lemma held_ended e pid h : calm e → ended e pid → held (Some pid) h → held None (e :: h).
Proof.
  intros Hc He Hh p Hp. simpl in Hp. rewrite Hc in Hp. apply list_elem_of_filter in Hp as [Hne Hp].
  apply Hh in Hp as [= ->]. done.
Qed.

(** ** The computations of a monitor *)

Context `{Host, Nss}.

(** What is tracked when an exit was or was not found. *)
Definition after_exit (pid : Z) (exit : option Z) : option Z :=
  match exit with Some _ => None | None => Some pid end.

Lemma safe_registry_take pid : safe (held (Some pid)) (registry_take pid) (λ r, held (after_exit pid r)).
Proof.
  intros w h Hok Hh. unfold registry_take, atomic, exits_take. eexists [_]. split; [done|].
  split; [by apply (one_by_one_calm [_]); [constructor|]|]. intros r [= <-]. simpl. destruct (_ !! pid) as [code|] eqn:Hp.
  - apply (held_ended _ pid); [done| |done]. simpl. rewrite Hp, lookup_delete_eq. by split.
  - intros p [_ Hin]%list_elem_of_filter. by apply Hh.
Qed.

Lemma safe_wait_take pid timeout : safe (held (Some pid)) (wait_take pid timeout) (λ r, held (after_exit pid r)).
Proof.
  unfold wait_take. apply safe_calm_bind; [emits_solve|intros now]. apply safe_calm_bind; [emits_solve|intros deadline].
  apply safe_calm_bind; [emits_solve|intros n].
  assert (∀ m, safe (held (Some pid)) m (λ r, held (after_exit pid r)) →
    safe (held (Some pid)) (registry_take pid ≫= λ r, match r with
      | Some code => mret (Some code)
      | None => instant_now ≫= λ now, if decide (deadline ≤ now)%N then mret None
                else effect (EvTimedWait (deadline - now)) ≫= λ _, m
      end) (λ r, held (after_exit pid r))) as Hround.
  { intros m Hm. eapply safely_bind; [apply safe_registry_take|intros [code|]; [by apply safely_ret|]].
    apply safe_calm_bind; [emits_solve|intros now']. case_decide; [by apply safely_ret|].
    apply safe_calm_bind; [emits_solve|done]. }
  induction n as [|n IH]; cbn [wait_take_loop]; apply Hround; [apply safe_registry_take|exact IH].
Qed.

(** A terminated process counts as ended. *)
Lemma safe_terminate_pid pid grace : safe (held (Some pid)) (terminate_pid pid grace) (λ _, held None).
Proof.
  unfold terminate_pid. eapply (safely_bind _ _ (λ _, held None)).
  - intros w h Hok Hh. exists [EvKill pid KillTerm]. split; [done|]. split; [by apply (one_by_one_calm [_]); [constructor|]|].
    intros _ _. by apply (held_ended _ pid).
  - intros _. apply safe_calm. emits_solve. apply emits_poll; intros; try done; emits_solve.
Qed.

#[local] Hint Resolve unspawned_calm emits_emit_init emits_notify_watchers emits_apply_state emits_registry_take
  emits_wait_take emits_terminate_pid emits_check_deps emits_warn_forced emits_start_failed emits_enabled_or
  emits_schedule_liveness : emits.

Lemma calm_wait_child pid n bound : emits calm (wait_spawned_child pid n bound).
Proof.
  unfold wait_spawned_child, wait_via_registry, wait_via_owned. emits_solve.
  - induction a as [|n' IH]; cbn [wait_forever]; emits_solve.
  - match goal with |- emits _ (_ ?rounds) => generalize rounds end. intros fuel. induction fuel as [|fuel IH]; emits_solve.
Qed.
#[local] Hint Resolve calm_wait_child : emits.

Lemma calm_spawn_shell cmd cfg : emits calm (spawn_shell cmd cfg).
Proof. unfold spawn_shell, build_shell_command, spawn_command, env_snapshot. emits_solve. Qed.
Lemma calm_spawn_shell_cmd cmd cfg env quiet : emits calm (spawn_shell_cmd cmd cfg env quiet).
Proof. unfold spawn_shell_cmd, build_shell_command, spawn_command, env_snapshot. emits_solve. Qed.
#[local] Hint Resolve calm_spawn_shell calm_spawn_shell_cmd : emits.

Lemma calm_run_shell cmd cfg env : emits calm (run_shell cmd cfg env).
Proof. unfold run_shell. emits_solve. Qed.
#[local] Hint Resolve calm_run_shell : emits.

Lemma calm_run_probe probe cfg : emits calm (run_probe probe cfg).
Proof.
  unfold run_probe, run_shell_quiet_timeout, run_tcp_probe, run_http_probe. emits_solve.
  all: match goal with |- emits _ (try_connect ?a ?e ?l) => generalize e; induction l; intros; simpl; emits_solve end.
Qed.
#[local] Hint Resolve calm_run_probe : emits.

(** ** Stopping and starting *)

Lemma safe_stop_tracked cfg tracked : safe (held tracked) (stop_tracked cfg tracked) (λ _, held None).
Proof.
  unfold stop_tracked. apply safe_calm_bind; [unfold run_stop; emits_solve|intros _].
  destruct tracked as [pid|]; [|by apply safely_ret]. eapply safely_bind; [apply safe_terminate_pid|intros []].
  apply safe_calm. emits_solve.
Qed.

Lemma safe_await_early_exit pid wait :
  safe (held (Some pid)) (await_early_exit pid wait) (λ r, held (after_exit pid r)).
Proof.
  unfold await_early_exit. apply safe_calm_bind; [emits_solve|intros now]. apply safe_calm_bind; [emits_solve|intros deadline].
  eapply (safely_bind _ _ (λ r, held (after_exit pid r))); [|intros [code|]; [by apply safely_ret|apply safe_registry_take]].
  generalize (rounds wait CTL_POLL). intros n. induction n as [|n IH]; cbn [poll]; [apply safely_no_return|].
  apply safe_calm_bind; [emits_solve|intros now']. case_decide; [|by apply safely_ret].
  eapply safely_bind; [apply safe_registry_take|intros [code|]; [by apply safely_ret|]].
  apply safe_calm_bind; [emits_solve|intros d]. apply safe_calm_bind; [emits_solve|intros _]. exact IH.
Qed.

Lemma safe_finish_daemon cfg pid : safe (held (Some pid)) (finish_daemon cfg None pid) (λ r, held r.2).
Proof.
  unfold finish_daemon. eapply safely_bind; [apply safe_await_early_exit|intros [code|]; simpl].
  - case_match; (apply safe_calm_bind; [emits_solve|intros _; by apply safely_ret]).
  - apply safe_calm_bind; [emits_solve|intros _; by apply safely_ret].
Qed.

Lemma safe_finish_job cfg pid : safe (held (Some pid)) (finish_job cfg None pid) (λ r, held r.2).
Proof.
  unfold finish_job. eapply safely_bind; [apply safe_wait_take|intros [code|]; simpl].
  - case_match; (apply safe_calm_bind; [emits_solve|intros _; by apply safely_ret]).
  - eapply safely_bind; [apply safe_terminate_pid|intros []].
    do 2 (apply safe_calm_bind; [emits_solve|intros _]). by apply safely_ret.
Qed.

(** A start while nothing is outstanding. *)
Lemma safe_captured pid :
  safe (held None) (effect (EvCapture name LogLevel.Stdout pid)) (λ _, held (Some pid)).
Proof.
  intros w h Hok Hh%held_None. eexists [_]. split; [done|]. split; [by split|]. intros _ _ p. simpl.
  rewrite decide_True by done. rewrite Hh. by intros ->%list_elem_of_singleton.
Qed.

Lemma safe_launch cfg : sc_name cfg = name → safe (held None) (launch cfg None) (λ r, held r.2).
Proof.
  intros Hname. unfold launch. rewrite Hname. apply safe_calm_bind; [emits_solve|intros _].
  destruct (resolve_start cfg) as [cmd|e]; [|by apply safely_ret].
  apply safe_calm_bind; [emits_solve|intros [pid|e]; [|by apply safely_ret]].
  eapply safely_bind; [apply safe_captured|intros []]. apply safe_calm_bind; [emits_solve|intros _].
  destruct (sc_daemon cfg); [apply safe_finish_daemon|apply safe_finish_job].
Qed.

Lemma safe_do_start cfg force : sc_name cfg = name → safe (held None) (do_start cfg None force) (λ r, held r.2).
Proof.
  intros Hname. unfold do_start. apply safe_calm_bind; [unfold load_enabled; emits_solve|].
  intros [[]|e]; [|apply safe_calm_bind; [emits_solve|intros _]; by apply safely_ret|by apply safely_ret].
  apply safe_calm_bind; [emits_solve|intros [[]|e]; [| |by apply safely_ret]].
  - apply safe_calm_bind; [emits_solve|intros [[]|e]; [by apply safe_launch|by apply safely_ret]].
  - do 3 (apply safe_calm_bind; [emits_solve|intros ?]). by apply safely_ret.
Qed.

Lemma safe_start_and_schedule cfg force streak :
  sc_name cfg = name → safe (held None) (start_and_schedule cfg None force streak) (λ l, held (lo_tracked l)).
Proof.
  intros Hname. unfold start_and_schedule. eapply safely_bind; [by apply safe_do_start|intros r].
  do 2 (apply safe_calm_bind; [emits_solve|intros ?]). by apply safely_ret.
Qed.

Lemma safe_start_failed prefix (r : Result unit * option Z) :
  safe (held r.2) (start_failed name prefix r.1) (λ _, held r.2).
Proof. apply safe_calm. emits_solve. Qed.

(** ** Exits, probes and messages *)

Lemma safe_on_process_exit cfg code : sc_name cfg = name → safe (held None) (on_process_exit cfg None code) held.
Proof.
  intros Hname. unfold on_process_exit. do 2 (apply safe_calm_bind; [emits_solve|intros ?]).
  assert (∀ st, safe (held None) (apply_state (sc_name cfg) st None;; mret None) held) as Hdone
    by (intros st; apply safe_calm_bind; [emits_solve|intros _; by apply safely_ret]).
  case_match; [apply Hdone|]. apply safe_calm_bind; [unfold load_stop_all; emits_solve|intros stop_all].
  case_match; [apply Hdone|].
  do 4 (apply safe_calm_bind; [unfold bump_restarts, update_runtime; emits_solve|intros ?]).
  eapply safely_bind; [by apply safe_do_start|intros r]. rewrite Hname.
  eapply safely_bind; [apply safe_start_failed|intros []]. by apply safely_ret.
Qed.

Lemma safe_probe_now cfg probe st l :
  sc_name cfg = name → safe (held (lo_tracked l)) (probe_now cfg probe st l) (λ l', held (lo_tracked l')).
Proof.
  intros Hname. unfold probe_now, probe_failed. do 3 (apply safe_calm_bind; [emits_solve|intros ?]).
  case_match; [apply safe_calm_bind; [emits_solve|intros _]; by apply safely_ret|].
  apply safe_calm_bind; [unfold bump_liveness_failures, update_runtime; emits_solve|intros _].
  case_decide; [apply safe_calm_bind; [emits_solve|intros _]; by apply safely_ret|].
  do 3 (apply safe_calm_bind; [unfold bump_restarts, update_runtime; emits_solve|intros _]).
  eapply safely_bind; [apply safe_stop_tracked|intros []]. eapply safely_bind; [by apply safe_do_start|intros r].
  rewrite Hname. eapply safely_bind; [apply safe_start_failed|intros []].
  apply safe_calm_bind; [emits_solve|intros next]. by apply safely_ret.
Qed.

Lemma safe_maybe_liveness cfg l :
  sc_name cfg = name → safe (held (lo_tracked l)) (maybe_liveness cfg l) (λ l', held (lo_tracked l')).
Proof.
  intros Hname. unfold maybe_liveness. destruct (sc_liveness_probe cfg) as [probe|]; [|by apply safely_ret].
  apply safe_calm_bind; [emits_solve|intros [st|]; [|by apply safely_ret]]. case_match; [by apply safely_ret|].
  apply safe_calm_bind; [emits_solve|intros enabled]. case_match; [by apply safely_ret|].
  apply safe_calm_bind; [emits_solve|intros now]. destruct (lo_next_liveness l).
  - case_decide; [by apply safe_probe_now|by apply safely_ret].
  - apply safe_calm_bind; [emits_solve|intros next]. by apply safely_ret.
Qed.

(** What is outstanding after an iteration. *)
Definition flow_held (flow : Flow) (h : list Event) : Prop :=
  match flow with Continue l => held (lo_tracked l) h | Break => True end.

Lemma safe_handle_msg cfg msg l :
  sc_name cfg = name → safe (held (lo_tracked l)) (handle_msg cfg msg l) flow_held.
Proof.
  intros Hname. pose proof (safe_stop_tracked cfg (lo_tracked l)) as Hstop.
  assert (∀ t force streak, t = None → safe (held t) (start_and_schedule cfg t force streak ≫= λ l, mret (Continue l))
    flow_held) as Hstart.
  { intros t force streak ->. eapply safely_bind; [by apply safe_start_and_schedule|intros l'; by apply safely_ret]. }
  destruct msg as [force| | |]; unfold handle_msg.
  - case_decide as Ht; [by apply safely_ret|]. apply Hstart. by apply eq_None_not_Some.
  - do 2 (apply safe_calm_bind; [emits_solve|intros _]). eapply safely_bind; [exact Hstop|intros []].
    do 2 (apply safe_calm_bind; [emits_solve|intros ?]). by apply safely_ret.
  - apply safe_calm_bind; [emits_solve|intros _]. eapply safely_bind; [exact Hstop|intros []].
    apply safe_calm_bind; [unfold run_restart; emits_solve|intros [|]; [|by apply Hstart]].
    do 2 (apply safe_calm_bind; [emits_solve|intros ?]). by apply safely_ret.
  - eapply safely_bind; [exact Hstop|intros []]. apply safe_calm_bind; [emits_solve|intros _]. by apply safely_ret.
Qed.

(** What follows the lookup of the service's definition. *)
Lemma safe_with_cfg {B} t (f : Result ServiceConfig → M B) Q :
  (∀ cfg, sc_name cfg = name → safe (held t) (f (Ok cfg)) Q) → (∀ e, safe (held t) (f (Err e)) Q) →
  safe (held t) (service_cfg name ≫= f) Q.
Proof.
  intros Hok Herr. eapply safely_bind.
  - apply safely_yields; [apply safe_calm; unfold service_cfg; emits_solve|apply yields_service_cfg].
  - intros [cfg|e]; apply safely_given; intros Hc; [apply Hok; by apply Hc|apply Herr].
Qed.

Lemma safe_watch_process l : safe (held (lo_tracked l)) (watch_process name l) (λ l', held (lo_tracked l')).
Proof.
  unfold watch_process. destruct (lo_tracked l) as [pid|] eqn:Ht.
  - eapply safely_bind; [apply safe_registry_take|intros [code|]; [|by apply safely_ret; rewrite Ht]].
    apply safe_with_cfg; [intros cfg Hname|intros e; by apply safely_ret].
    eapply safely_bind; [by apply safe_on_process_exit|intros tracked]. apply safe_calm_bind; [emits_solve|intros next].
    by apply safely_ret.
  - apply safe_calm_bind; [unfold load_stop_all; emits_solve|intros [|]; [by apply safely_ret; rewrite Ht|]].
    apply safe_calm_bind; [emits_solve|intros st]. case_decide; [|by apply safely_ret; rewrite Ht].
    apply safe_with_cfg; [intros cfg Hname; by apply safe_start_and_schedule|intros e; by apply safely_ret; rewrite Ht].
Qed.

Lemma safe_monitor_step c l : safe (held (lo_tracked l)) (monitor_step name c l) flow_held.
Proof.
  unfold monitor_step. apply safe_calm_bind; [unfold load_stop_all; emits_solve|intros [|]].
  - apply safe_with_cfg.
    + intros cfg Hname. eapply safely_bind; [apply safe_stop_tracked|intros []].
      apply safe_calm_bind; [emits_solve|intros _]. by apply safely_ret.
    + intros e. do 2 (apply safe_calm_bind; [emits_solve|intros _]). by apply safely_ret.
  - apply safe_calm_bind; [unfold recv_timeout; emits_solve|intros [msg| |]; [| |by apply safely_ret]].
    + apply safe_with_cfg; [intros cfg Hname; by apply safe_handle_msg|intros e; by apply safely_ret].
    + eapply safely_bind; [apply safe_watch_process|intros l'].
      apply safe_calm_bind; [unfold load_stop_all; emits_solve|intros [|]; [by apply safely_ret|]].
      apply safe_with_cfg; [intros cfg Hname|intros e; by apply safely_ret].
      eapply safely_bind; [by apply safe_maybe_liveness|intros l'']. by apply safely_ret.
Qed.

Lemma safe_monitor_run n c l : safe (held (lo_tracked l)) (monitor_run n name c l) (λ _ _, True).
Proof.
  revert l. induction n as [|n IH]; intros l; cbn [monitor_run]; [apply safely_no_return|].
  eapply safely_bind; [apply safe_monitor_step|intros [l'|]; [apply IH|]].
  intros w h Hok _. destruct (emits_updates calm (λ _ _, eq_refl)
    (λ s, set_channels (sh_ctl s) (drop_receiver c (sh_chans s)) (sh_next_chan s) s) w) as (new & Hh & Hn).
  exists new. split; [done|]. split; [by apply one_by_one_calm|done].
Qed.

(** ** Between two starts *)

Lemma outstanding_until between pid earlier e :
  started name e = Some pid → Forall (λ e, ¬ ended e pid) between → pid ∈ outstanding (between ++ e :: earlier).
Proof.
  intros He. induction 1 as [|e' between He' _ IH]; simpl; [rewrite He; by left|].
  destruct (started name e') as [p|]; [by right|]. by apply list_elem_of_filter.
Qed.

Lemma one_by_one_between later e2 between e1 earlier pid1 :
  one_by_one (later ++ e2 :: between ++ e1 :: earlier) → is_Some (started name e2) → started name e1 = Some pid1 →
  ∃ e, e ∈ between ∧ ended e pid1.
Proof.
  intros Hone Hs2 Hs1. assert (outstanding (between ++ e1 :: earlier) = []) as Hnone.
  { induction later as [|e later IH]; destruct Hone as [Hnow Hone]; [by apply Hnow|by apply IH]. }
  destruct (decide (Exists (λ e, ended e pid1) between)) as [(e & ? & ?)%Exists_exists|Hnot%not_Exists_Forall]; [by exists e| |apply _].
  apply (outstanding_until between pid1 earlier e1 Hs1) in Hnot. rewrite Hnone in Hnot. by apply elem_of_nil in Hnot.
Qed.
End processes.

(** C9: The monitor of a service keeps its processes apart, however long it runs and
    whatever the other threads do: between the starts of two of them, the first one's
    exit was taken from the registry of exits, or it was told to end. *)
Theorem processes_apart `{Host, Nss} n name c w :
  ∃ new, hist (monitor_loop n name c w).2 = new ++ hist w ∧
    ∀ later pid2 between pid1 earlier,
      new = later ++ EvCapture name LogLevel.Stdout pid2 :: between ++ EvCapture name LogLevel.Stdout pid1 :: earlier →
      ∃ e, e ∈ between ∧ ended e pid1.
Proof.
  destruct (safe_monitor_run name n c (mkLocal None None 0) w []) as (new & Hh & Hone & _); [done|by intros ? ?%elem_of_nil|].
  exists new. split; [exact Hh|]. intros later pid2 between pid1 earlier ->. rewrite app_nil_r in Hone.
  eapply one_by_one_between; [exact Hone|simpl..]; by rewrite decide_True.
Qed.

(** [web] is started, stopped and started again. *)
Definition restarted_web : World :=
  (monitor_loop (H := quiet_host) (H0 := example_nss) 3 "web" 0
     (mkWorld (set_channels {[ "web" := 0 ]} {[ 0 := mkChan [CtlStart true; CtlStop; CtlStart true] true true ]} 1
        (example_shared [example_service "web" [] 100 true])) [])).2.

Lemma processes_apart_witness :
  let h := hist restarted_web in
  omap (started "web") h = [100%Z; 100%Z] ∧ ∃ e, e ∈ take 52 (drop 15 h) ∧ ended e 100.
Proof.
  intros h. split; [vm_compute; reflexivity|].
  destruct (processes_apart (H := quiet_host) (H0 := example_nss) 3 "web" 0
    (mkWorld (set_channels {[ "web" := 0 ]} {[ 0 := mkChan [CtlStart true; CtlStop; CtlStart true] true true ]} 1
      (example_shared [example_service "web" [] 100 true])) [])) as (new & Hh & Hapart).
  assert (h = new) as <- by exact (eq_trans Hh (app_nil_r new)). clear Hh.
  assert (h !! 14 = Some (EvCapture "web" LogLevel.Stdout 100)) as H2 by (vm_compute; reflexivity).
  assert (drop 15 h !! 52 = Some (EvCapture "web" LogLevel.Stdout 100)) as H1 by (vm_compute; reflexivity).
  apply (Hapart (take 14 h) 100%Z _ 100%Z (drop 53 (drop 15 h))).
  by rewrite (take_drop_middle _ _ _ H1), (take_drop_middle _ _ _ H2).
Defined.
