(* ===== verification/Persistence.v ===== *)
(** What is written to disk: atomic replacement of a file, the overrides file read
    back, and enabling or disabling a service. *)

From Stdlib Require Import Ascii.
From S2P Require Import Prelude RustStr BTree Error Security Config Protocol Logs Watch Reaper.
From S2P Require Import Runtime World Logic EnvFile Service Store Supervisor Graph Isolation Timing.
#[local] Open Scope stdpp_scope.

Section files.
Context `{Host}.

(** ** The file operations, for the state they find *)

Lemma fs_mkdirs_run p w :
  fs_mkdirs p w = (Some (match fs_fault (hist w) with Some e => Err e | None => Ok tt end),
                   mkWorld (shared w) (EvMkdirs p :: hist w)).
Proof. done. Qed.

Lemma fs_rename_run from to w :
  let w1 := mkWorld (shared w) (EvRename from to :: hist w) in
  ∃ r w', fs_rename from to w = (Some r, w') ∧
    match r with
    | Ok _ => ∃ c, sh_files (entered w1) !! from = Some c ∧
        sh_files (shared w') = <[to := c]> (delete from (sh_files (entered w1)))
    | Err _ => sh_files (shared w') = sh_files (entered w1)
    end.
Proof.
  intros w1. unfold fs_rename, asks, atomic, mbind, M_bind; simpl. fold w1.
  change (interfere (EvRename from to :: hist w) (shared w)) with (entered w1).
  destruct (fs_fault (hist w)) as [e|]; [eexists _, _; by split|].
  destruct (sh_files (entered w1) !! from) as [c|] eqn:Hc; eexists _, _; split; try reflexivity.
  by exists c.
Qed.
End files.

(** ** Replacing a file *)

Section replace.
Context `{Host}.
Context (path : string) (printed : result string string) (old : option string).
#[local] Abbreviation tmp := (with_extension "json.tmp" path).

(** The file is whole: as it was before, or completely written. *)
Definition whole (s : Shared) : Prop :=
  sh_files s !! path = old ∨
  ∃ text, printed = Ok text ∧ sh_files s !! path = Some (text +:+ String newline "").

(** The other threads leave the file and the temporary one alone while it is whole. *)
Context (rely : ∀ h s, whole s →
  sh_files (interfere h s) !! path = sh_files s !! path ∧
  sh_files (interfere h s) !! tmp = sh_files s !! tmp).

Lemma entered_files w :
  whole (shared w) →
  sh_files (entered w) !! path = sh_files (shared w) !! path ∧
  sh_files (entered w) !! tmp = sh_files (shared w) !! tmp.
Proof. apply rely. Qed.

Lemma write_tmp_run text w :
  sh_files (shared w) !! path = old →
  ∃ r w', fs_write tmp text w = (Some r, w') ∧ sh_files (shared w') !! path = old ∧
    (r = Ok tt → sh_files (shared w') !! tmp = Some text).
Proof.
  intros Hold. destruct (fs_write_run tmp text w) as (w' & Hr & Hf). eexists _, w'. split; [exact Hr|].
  set (w1 := mkWorld (shared w) (EvWrite tmp text :: hist w)).
  destruct (entered_files w1) as [Hp _]; [by left|]. change (entered w1) with (interfere (EvWrite tmp text :: hist w) (shared w)) in Hp.
  simpl in Hp. rewrite Hold in Hp. pose proof (with_extension_ne path) as Hne. rewrite Hf.
  destruct (fs_fault (hist w)) as [e|]; [destruct (fs_partial (hist w))|].
  - rewrite lookup_insert_ne by done. by split.
  - by split.
  - rewrite lookup_insert_ne, lookup_insert_eq by done. by split.
Qed.

Lemma write_json_atomic_run `{Json} w :
  sh_files (shared w) !! path = old →
  ∃ r w', write_json_atomic path printed w = (Some r, w') ∧
    match r with
    | Ok _ => ∃ text, printed = Ok text ∧
        sh_files (shared w') !! path = Some (text +:+ String newline "") ∧
        sh_files (shared w') !! tmp = None
    | Err _ => sh_files (shared w') !! path = old
    end.
Proof.
  intros Hold. pose proof (with_extension_ne path) as Hne. unfold write_json_atomic.
  match goal with |- ∃ r w', (?pre ≫= ?k) w = _ ∧ _ =>
    assert (∃ r w1, pre w = (Some r, w1) ∧ shared w1 = shared w) as (r & w1 & Hpre & Hs) end.
  { destruct (path_parent path) as [parent|]; [|eexists _, _; by split].
    destruct (decide (parent = "")); eexists _, _; (split; [reflexivity|done]). }
  rewrite (bind_step _ _ _ _ _ Hpre). rewrite <-Hs in Hold.
  destruct r as [[]|e]; [|eexists _, _; by split].
  destruct printed as [text|e] eqn:Hprinted; [|eexists _, _; by split].
  rewrite bind_ret. cbn [json_err map_err].
  destruct (write_tmp_run (text +:+ String newline "") w1 Hold) as (r & w2 & Hw & Hp & Ht).
  erewrite bind_step; [|erewrite bind_step; [reflexivity|exact Hw]].
  destruct r as [[]|e]; [|eexists _, _; by split]. specialize (Ht eq_refl). cbn [map_err].
  destruct (fs_rename_run tmp path w2) as (r & w3 & Hr & Hf). rewrite (bind_step _ _ _ _ _ Hr).
  set (w2' := mkWorld (shared w2) (EvRename tmp path :: hist w2)) in *.
  destruct (entered_files w2') as [Hp' Ht']; [by left|]. simpl in Hp', Ht'.
  destruct r as [[]|e]; simpl; eexists _, _; (split; [reflexivity|]).
  - destruct Hf as (c & Hc & ->). exists text. split; [done|]. rewrite Ht', Ht in Hc. injection Hc as <-.
    rewrite lookup_insert_eq, lookup_insert_ne, lookup_delete_eq by done. done.
  - by rewrite Hf, Hp'.
Qed.
End replace.

(** ** Enabling and disabling *)

Section enabling.
Context `{Host, Json}.
Context (self : Supervisor) (name : string).
#[local] Abbreviation path := (sv_override_path self).

(** What the request concerns: the configuration, the files and the flag of the
    service's runtime.  The other threads leave them alone. *)
Definition flag (s : Shared) : option bool := rt_enabled <$> sh_runtimes s !! name.
Definition settings (s : Shared) := (sh_config s, sh_files s, flag s).
Context (rely : ∀ h s, settings (interfere h s) = settings s).

Lemma settings_closed x : quiet_closed (kept (λ s, settings s = x)).
Proof. closed_solve. Qed.

Lemma settings_survive x {A} (m : M A) : keeps (λ s, settings s = x) m → survives (λ s, settings s = x) m.
Proof. apply keeps_survives. intros h s Hs. by rewrite rely. Qed.

Lemma settings_rely h s : sh_files (interfere h s) = sh_files s.
Proof. pose proof (rely h s) as Hr. by injection Hr. Qed.

(** The overrides on disk. *)
Definition stored (p : string) (s : Shared) : result (gmap string bool) string :=
  match sh_files s !! p with Some data => parse_overrides data | None => Ok ∅ end.

Lemma load_override_run p w :
  ∃ r w', load_override p w = (Some r, w') ∧ settings (shared w') = settings (shared w) ∧
    (∀ m, r = Ok m → stored p (shared w) = Ok m).
Proof.
  pose proof (rely (hist w) (shared w)) as Hr. set (s1 := entered w). fold (entered w) in Hr. fold s1 in Hr.
  assert (sh_files s1 = sh_files (shared w)) as Hf1 by apply settings_rely.
  unfold load_override, fs_exists, fs_read, stored.
  rewrite reads_bind. fold s1. rewrite Hf1.
  case_bool_decide as Hex; cbn [negb].
  2:{ eexists _, _. split; [reflexivity|]. split; [exact Hr|]. intros m [= <-].
      by rewrite (proj2 (eq_None_not_Some _) Hex). }
  eexists _, _. split; [reflexivity|]. split; [exact (eq_trans (rely _ _) Hr)|]. cbn [hist shared].
  intros m.
  rewrite settings_rely, Hf1.
  destruct (fs_fault _); [done|]. destruct Hex as [data ->]. simpl.
  by destruct (parse_overrides data); [intros [= ->]|].
Qed.

Lemma config_survives x m : survives (λ s, (sh_config s, flag s) = x) (save_override path m).
Proof.
  assert (∀ h s, (sh_config s, flag s) = x → (sh_config (interfere h s), flag (interfere h s)) = x) as Hrely.
  { intros h s <-. pose proof (rely h s) as Hr. injection Hr as -> _ ->. done. }
  apply (keeps_survives _ _ Hrely). unfold save_override, write_json_atomic, fs_write, fs_rename, fs_mkdirs.
  keeps_solve; intros s Hs; by repeat case_match.
Qed.

Lemma save_override_run m w :
  ∃ r w', save_override path m w = (Some r, w') ∧
    (sh_config (shared w'), flag (shared w')) = (sh_config (shared w), flag (shared w)) ∧
    match r with
    | Ok _ => ∃ text, print_overrides m = Ok text ∧
        sh_files (shared w') !! path = Some (text +:+ String newline "")
    | Err _ => sh_files (shared w') !! path = sh_files (shared w) !! path
    end.
Proof.
  assert (∀ h s, sh_files (interfere h s) !! path = sh_files s !! path ∧
    sh_files (interfere h s) !! with_extension "json.tmp" path = sh_files s !! with_extension "json.tmp" path)
    as Hrely by (intros; by rewrite settings_rely).
  destruct (write_json_atomic_run path (print_overrides m) (sh_files (shared w) !! path)
    (λ h s _, Hrely h s) w eq_refl) as (r & w' & Hr & Hout).
  exists r, w'. split; [exact Hr|]. split.
  - pose proof (config_survives _ m w eq_refl) as Hk. unfold save_override in Hk. by rewrite Hr in Hk.
  - destruct r as [[]|e]; [|done]. destruct Hout as (text & ? & ? & _). by exists text.
Qed.

(** The announcement of the new flag, after the file is written. *)
Lemma settings_send_ctl x msg : survives (λ s, settings s = x) (send_ctl name msg).
Proof.
  apply settings_survive. unfold send_ctl. apply keeps_bind; [apply keeps_atomic|keeps_solve].
  intros s <-. destruct (sh_ctl s !! name) as [c|]; [|done]. by destruct (chan_send _ _ _).
Qed.

Lemma apply_enabled_run b w :
  ∃ w', apply_enabled name b w = (Some tt, w') ∧ sh_config (shared w') = sh_config (shared w) ∧
    sh_files (shared w') = sh_files (shared w) ∧ flag (shared w') = (λ _, b) <$> flag (shared w).
Proof.
  set (x := (sh_config (shared w), sh_files (shared w), (λ _, b) <$> flag (shared w))).
  pose proof (rely (hist w) (shared w)) as Hr. fold (entered w) in Hr. injection Hr as Hc Hf Hfl.
  assert (∃ next w1, atomic (λ s, match sh_runtimes s !! name with
      | None => (None, s)
      | Some rt => (enabled_next b (rt_state rt), set_runtimes (<[name := set_enabled_rt b rt]> (sh_runtimes s)) s)
      end) w = (Some next, w1) ∧ settings (shared w1) = x) as (next & w1 & H1 & Hs1).
  { unfold atomic. fold (entered w). unfold settings, flag in *.
    destruct (sh_runtimes (entered w) !! name) as [rt|] eqn:Hrt; eexists _, _; (split; [reflexivity|]); simpl.
    - rewrite lookup_insert_eq, Hc, Hf. unfold x, flag. by rewrite <-Hfl.
    - rewrite Hrt, Hc, Hf. unfold x, flag. by rewrite <-Hfl. }
  assert (survives (λ s, settings s = x) (match next with Some st => set_state name st None | None => mret tt end;; notify_watchers)) as Hk.
  { apply settings_survive. keeps_solve; [|apply keeps_notify_watchers, settings_closed].
    apply keeps_atomic_at. intros now utc s <-. unfold settings, flag; simpl.
    rewrite lookup_alter_eq. destruct (sh_runtimes s !! name) as [rt|]; simpl; [|done].
    do 2 f_equal. apply (monitor_update_enabled (set_state_rt now utc _ None)). constructor. by intros []. }
  assert (returns (match next with Some st => set_state name st None | None => mret tt end;; notify_watchers)) as Hret.
  { unfold set_state, update_runtime. returns_solve. }
  destruct (Hret w1) as ([] & w2 & H2 & _). specialize (Hk w1 Hs1). rewrite H2 in Hk. injection Hk as ? ? ?.
  exists w2. split; [|done]. unfold apply_enabled, shared_set_enabled.
  apply bind_Some in H2 as ([] & w3 & Hset & Hnot). apply bind_Some. exists (), w3. split; [|exact Hnot].
  apply bind_Some. by exists next, w1.
Qed.
End enabling.

(** ** Properties *)

(** Writing a JSON file replaces it atomically: the call returns, with the new
    text and a final newline in place and no temporary file on success, and with the
    file as it was on any error.  The other threads may do anything once the file is
    neither as it was nor complete, so it never is. *)
Theorem write_json_atomic_spec `{Host, Json} path printed w :
  let old := sh_files (shared w) !! path in
  let tmp := with_extension "json.tmp" path in
  (∀ h s, whole path printed old s →
     sh_files (interfere h s) !! path = sh_files s !! path ∧
     sh_files (interfere h s) !! tmp = sh_files s !! tmp) →
  ∃ r w', write_json_atomic path printed w = (Some r, w') ∧
    match r with
    | Ok _ => ∃ text, printed = Ok text ∧
        sh_files (shared w') !! path = Some (text +:+ String newline "") ∧
        sh_files (shared w') !! tmp = None
    | Err _ => sh_files (shared w') !! path = old
    end.
Proof. intros old tmp Hrely. by apply write_json_atomic_run. Qed.

(** C24: Enabling or disabling a service always returns.  An unknown service changes
    nothing.  Otherwise the service's flag changes in the configuration, even when
    the overrides file then cannot be read or written; the file is replaced by what
    it held with the flag set, or is left as it was; and after a success it has
    been replaced and the runtime has the flag. *)
Theorem set_enabled_spec `{Host, Json} self name b w :
  let c := sh_config (shared w) in
  let path := sv_override_path self in
  let written s := ∃ m text, stored path (shared w) = Ok m ∧
    print_overrides (<[name := b]> m) = Ok text ∧
    sh_files s !! path = Some (text +:+ String newline "") in
  (∀ h s, settings name (interfere h s) = settings name s) →
  ∃ r w', set_enabled self name b w = (Some r, w') ∧
    match cf_get name c with
    | None => r = Err (Error.UnknownService name) ∧ settings name (shared w') = settings name (shared w)
    | Some svc =>
        (∀ n, cf_get n (sh_config (shared w'))
              = if decide (n = name) then Some (set_sc_enabled b svc) else cf_get n c) ∧
        (written (shared w') ∨ sh_files (shared w') !! path = sh_files (shared w) !! path) ∧
        (r = Ok tt → written (shared w') ∧
           flag name (shared w') = (λ _, b) <$> flag name (shared w))
    end.
Proof.
  intros c path written Hrely. unfold set_enabled.
  pose proof (Hrely (hist w) (shared w)) as Hr. fold (entered w) in Hr. pose proof Hr as Hr'.
  injection Hr' as Hc Hf Hfl.
  rewrite atomic_bind, Hc. fold c. destruct (cf_get name c) as [svc|] eqn:Hsvc.
  2:{ eexists _, _. split; [reflexivity|]. split; [done|exact Hr]. }
  set (c' := set_cf_services (update_first name (set_sc_enabled b) (cf_services c)) c).
  set (w1 := stepped w (set_config c' (entered w))).
  assert (∀ n, cf_get n c' = if decide (n = name) then Some (set_sc_enabled b svc) else cf_get n c) as Hget.
  { intros n. change (cf_get n c') with (find_first (named n) (update_first name (set_sc_enabled b) (cf_services c))).
    rewrite find_update_first by done. change (find_first (named n) (cf_services c)) with (cf_get n c).
    repeat case_decide; subst; try done. by rewrite Hsvc. }
  destruct (load_override_run name Hrely path w1) as (r & w2 & H2 & Hs2 & Hm). rewrite (bind_step _ _ _ _ _ H2).
  injection Hs2 as Hc2 Hf2 Hfl2. simpl in Hc2, Hf2. rewrite Hf in Hf2.
  destruct r as [m|e]; [|eexists _, _; split; [reflexivity|]; rewrite Hc2, Hf2; split_and!; auto; done].
  specialize (Hm m eq_refl). assert (stored path (shared w) = Ok m) as Hst.
  { rewrite <-Hm. unfold stored. simpl. by rewrite Hf. }
  destruct (save_override_run self name Hrely (<[name := b]> m) w2) as (r & w3 & H3 & Hk3 & Hout).
  rewrite (bind_step _ _ _ _ _ H3). injection Hk3 as Hc3 Hfl3. fold path in Hout.
  destruct r as [[]|e]; [|eexists _, _; split; [reflexivity|]; rewrite Hc3, Hc2, Hout, Hf2; split_and!; auto; done].
  match goal with |- context[mbind (M := M) _ (emit_init ?l ?t)] =>
    destruct (returns_emit_init l t w3) as ([] & w4 & H4 & _);
    pose proof (settings_survive name Hrely _ _ (keeps_emit_init _ (settings_closed name (settings name (shared w3))) l t) w3 eq_refl) as Hk4 end.
  rewrite (bind_step _ _ _ _ _ H4). rewrite H4 in Hk4. injection Hk4 as Hc4 Hf4 Hfl4.
  destruct (apply_enabled_run name Hrely b w4) as (w5 & H5 & Hc5 & Hf5 & Hfl5). rewrite (bind_step _ _ _ _ _ H5).
  set (msg := if b then CtlStart false else CtlStop).
  destruct (returns_send_ctl name msg w5) as (r & w6 & H6 & _).
  pose proof (settings_send_ctl name Hrely (settings name (shared w5)) msg w5 eq_refl) as Hk6.
  rewrite H6 in Hk6. injection Hk6 as Hc6 Hf6 Hfl6. exists r, w6. split; [exact H6|].
  assert (written (shared w6)) as Hw.
  { destruct Hout as (text & Hp & Hfile). exists m, text. split_and!; [done..|]. by rewrite Hf6, Hf5, Hf4. }
  split; [|split; [by left|intros _; split; [done|]]].
  - intros n. by rewrite Hc6, Hc5, Hc4, Hc3, Hc2.
  - rewrite Hfl6, Hfl5, Hfl4, Hfl3, Hfl2. unfold w1, flag at 1. simpl. by rewrite <-Hfl.
Qed.

(** Overrides that were saved are read back as they were, or reading the file
    fails: saving and loading are inverse for every JSON library that reads back
    what it printed. *)
Theorem override_roundtrip `{Host, Json} path m w w1 :
  (∀ h s, sh_files (interfere h s) = sh_files s) →
  (∀ text, print_overrides m = Ok text → parse_overrides (text +:+ String newline "") = Ok m) →
  save_override path m w = (Some (Ok tt), w1) →
  (load_override path w1).1
    = Some (match fs_fault (hist (looked w1)) with Some e => Err (Error.Io e) | None => Ok m end).
Proof.
  intros Hrely Hlaw Hsave.
  assert (∀ h s, sh_files (interfere h s) !! path = sh_files s !! path ∧
    sh_files (interfere h s) !! with_extension "json.tmp" path = sh_files s !! with_extension "json.tmp" path)
    as Hr by (intros; by rewrite Hrely).
  destruct (write_json_atomic_run path (print_overrides m) (sh_files (shared w) !! path)
    (λ h s _, Hr h s) w eq_refl) as (r & w' & Hr' & Hout).
  unfold save_override in Hsave. rewrite Hsave in Hr'. injection Hr' as <- <-.
  destruct Hout as (text & Hprint & Hfile & _). specialize (Hlaw text Hprint).
  unfold load_override, fs_exists, fs_read. rewrite reads_bind. unfold entered. rewrite Hrely, Hfile.
  rewrite bool_decide_true by done. cbn [negb].
  unfold asks, reads, atomic, mbind, M_bind; simpl. rewrite !Hrely, Hfile. unfold entered.
  destruct (fs_fault _); simpl; [done|]. by rewrite Hlaw.
Qed.

(** ** Concrete runs *)

Definition example_store : World := mkWorld (example_shared example_services) [].
Definition example_overrides : gmap string bool := {[ "db" := false; "web" := true ]}.

Lemma write_json_atomic_spec_witness :
  ∃ r w', write_json_atomic (H := quiet_host) "/d/o.json" (Ok "{}") example_store = (Some r, w') ∧
    match r with
    | Ok _ => ∃ text, Ok (E := string) "{}" = Ok text ∧
        sh_files (shared w') !! "/d/o.json" = Some (text +:+ String newline "") ∧
        sh_files (shared w') !! "/d/o.json.tmp" = None
    | Err _ => sh_files (shared w') !! "/d/o.json" = None
    end.
Proof. exact (write_json_atomic_spec (H := quiet_host) (H0 := example_json) "/d/o.json" (Ok "{}") example_store (λ h s _, conj eq_refl eq_refl)). Defined.

Lemma set_enabled_spec_witness :
  is_Some (cf_get "web" (sh_config (shared example_store))) ∧
  ∃ r w', set_enabled (H := quiet_host) (H2 := example_json) example_supervisor "web" false example_store
      = (Some r, w') ∧
    (r = Ok tt → flag "web" (shared w') = Some false).
Proof.
  split; [vm_compute; eauto|].
  destruct (set_enabled_spec (H := quiet_host) (H0 := example_json) example_supervisor "web" false example_store)
    as (r & w' & Hr & Hout); [done|].
  exists r, w'. split; [exact Hr|]. intros Hok.
  assert (∃ svc, cf_get "web" (sh_config (shared example_store)) = Some svc) as [svc Hsvc] by (vm_compute; eauto).
  rewrite Hsvc in Hout. destruct Hout as (_ & _ & Hout). by apply Hout in Hok as [_ ->].
Defined.

Lemma override_roundtrip_witness :
  let w1 := (save_override (H := quiet_host) (H0 := example_json) "/d/o.json" example_overrides example_store).2 in
  (load_override (H := quiet_host) (H0 := example_json) "/d/o.json" w1).1 = Some (Ok example_overrides).
Proof.
  apply (override_roundtrip (H := quiet_host) (H0 := example_json) "/d/o.json" example_overrides example_store).
  - done.
  - intros text Ht. vm_compute in Ht. injection Ht as <-. vm_compute. reflexivity.
  - vm_compute. reflexivity.
Defined.
