(* ===== verification/Commands.v ===== *)
(** The commands a service is run with: the environment files, the environment of a
    process and the identity it runs under. *)

From Stdlib Require Import Ascii.
From S2P Require Import Prelude Constants RustStr Error Security Config Protocol Logs Watch Reaper.
From S2P Require Import Runtime World Logic EnvFile Service Store Supervisor Graph.
#[local] Open Scope stdpp_scope.

(** The value of a key in a list of assignments: that of the last one. *)
Definition assigned (k : string) (l : list (string * string)) : option string :=
  snd <$> last (filter (λ kv, kv.1 = k) l).

Lemma assigned_nil k : assigned k [] = None.
Proof. done. Qed.

Lemma assigned_snoc k l kv :
  assigned k (l ++ [kv]) = if decide (kv.1 = k) then Some kv.2 else assigned k l.
Proof.
  unfold assigned. rewrite filter_app. destruct (decide (kv.1 = k)) as [Hk|Hk].
  - rewrite filter_cons_True, filter_nil, last_snoc by done. done.
  - rewrite filter_cons_False, filter_nil, app_nil_r by done. done.
Qed.

Lemma parse_env_lookup text k :
  parse_env text !! k = assigned k (omap parse_env_line (lines text)).
Proof.
  unfold parse_env. induction (lines text) as [|line ls IH] using rev_ind; [done|].
  rewrite foldl_app, omap_app. simpl. destruct (parse_env_line line) as [[key value]|].
  - rewrite assigned_snoc. cbn [fst snd]. case_decide as Hk; [subst; by rewrite lookup_insert_eq|].
    by rewrite lookup_insert_ne.
  - by rewrite app_nil_r.
Qed.

(** The value of a key in files read in order: that of the last one that has it. *)
Definition from_files (files : gmap string string) (paths : list string) (k : string) : option string :=
  foldl (λ v p, (files !! p ≫= λ text, assigned k (omap parse_env_line (lines text))) ∪ v) None paths.

Section files.
Context `{Host}.
Context (rely : ∀ h s, sh_files (interfere h s) = sh_files s) (no_fault : ∀ h, fs_fault h = None).

Lemma load_file_run p into w :
  ∃ w', load_file p into w
      = (Some (match sh_files (shared w) !! p with Some text => parse_env text ∪ into | None => into end), w') ∧
    sh_files (shared w') = sh_files (shared w).
Proof.
  unfold load_file, fs_read, asks, reads, atomic, mbind, M_bind; simpl. rewrite !rely, no_fault.
  eexists. split; [by destruct (sh_files (shared w) !! p)|]. simpl. apply rely.
Qed.

Lemma load_paths_run paths into w :
  ∃ m w', load_paths_into paths into w = (Some m, w') ∧ sh_files (shared w') = sh_files (shared w) ∧
    ∀ k, m !! k = foldl (λ v p, (sh_files (shared w) !! p ≫= λ text, parse_env text !! k) ∪ v)
                    (into !! k) paths.
Proof.
  revert into w. induction paths as [|p paths IH]; intros into w; [by exists into, w|]. cbn [load_paths_into].
  destruct (load_file_run p into w) as (w1 & H1 & Hf1). rewrite (bind_step _ _ _ _ _ H1).
  match type of H1 with _ = (Some ?m, _) => destruct (IH m w1) as (m' & w2 & H2 & Hf2 & Hm) end.
  exists m', w2. split; [exact H2|]. split; [by rewrite Hf2|]. intros k. rewrite Hm, Hf1. simpl. f_equal.
  destruct (sh_files (shared w) !! p); simpl; [apply lookup_union|by destruct (into !! k)].
Qed.
End files.

(** ** The environment of a command *)

(** The variables that come from the identity. *)
Definition identity_var (ident : option ResolvedIdentity) (k : string) : option string :=
  ident ≫= λ i,
  if decide (k = "HOME") then ri_home i
  else if decide (k = "USER" ∨ k = "LOGNAME") then ri_username i else None.

Definition unset (k : string) (maps : list (gmap string string)) : bool :=
  forallb (λ m, bool_decide (m !! k = None)) maps.

Lemma set_unless_lookup key value maps env k :
  set_unless key value maps env !! k
  = if bool_decide (k = key) && unset k maps then Some value else env !! k.
Proof.
  unfold set_unless. fold (unset key maps). case_bool_decide as Hk; simpl.
  - subst. destruct (unset key maps); [apply lookup_insert_eq|done].
  - destruct (unset key maps); [by rewrite lookup_insert_ne|done].
Qed.

Lemma command_env_lookup file_env cfg extra ident k :
  command_env file_env cfg extra ident !! k
  = extra !! k ∪ (sc_env cfg !! k ∪ (file_env !! k ∪
      (identity_var ident k ∪ (if decide (k = "PATH") then Some DEFAULT_SERVICE_PATH else None)))).
Proof.
  unfold command_env. set (maps := [file_env; sc_env cfg; extra]).
  set (base := extra ∪ _).
  assert (base !! k = extra !! k ∪ (sc_env cfg !! k ∪ (file_env !! k ∪
    (if decide (k = "PATH") then Some DEFAULT_SERVICE_PATH else None)))) as Hbase.
  { unfold base. rewrite !lookup_union. do 3 f_equal.
    case_decide; [subst; apply lookup_singleton_eq|by apply lookup_singleton_ne]. }
  assert (unset k maps = bool_decide (file_env !! k = None) &&
    (bool_decide (sc_env cfg !! k = None) && (bool_decide (extra !! k = None) && true))) as Hset by done.
  destruct (unset k maps) eqn:Hu.
  - symmetry in Hset. apply andb_true_iff in Hset as [Hf%bool_decide_eq_true Hset].
    apply andb_true_iff in Hset as [Hc%bool_decide_eq_true Hset].
    apply andb_true_iff in Hset as [He%bool_decide_eq_true _].
    rewrite Hf, Hc, He in Hbase. rewrite Hf, Hc, He. clearbody base.
    destruct ident as [i|]; [|rewrite Hbase; by case_decide]. unfold identity_var; simpl.
    destruct (ri_home i) as [home|], (ri_username i) as [user|]; rewrite ?set_unless_lookup, ?Hu, ?Hbase;
      repeat (case_bool_decide || case_decide); subst; simpl; naive_solver.
  - assert (∀ (o : gmap string string), o !! k = base !! k → ∀ key v, set_unless key v maps o !! k = base !! k) as Hl.
    { intros o Ho key v. by rewrite set_unless_lookup, Hu, andb_false_r. }
    trans (base !! k).
    { destruct ident as [i|]; [|reflexivity]. destruct (ri_home i), (ri_username i); auto. }
    rewrite Hbase. clear Hl.
    destruct (extra !! k), (sc_env cfg !! k), (file_env !! k), (identity_var ident k); case_decide; done.
Qed.

(** ** Properties *)

(** Loading the environment files returns a map in which each key has the value
    of its last assignment in the last of the files that assign it; files that do
    not exist are skipped. *)
Theorem load_paths_spec `{Host} paths w :
  (∀ h s, sh_files (interfere h s) = sh_files s) → (∀ h, fs_fault h = None) →
  ∃ m w', load_paths paths w = (Some m, w') ∧ ∀ k, m !! k = from_files (sh_files (shared w)) paths k.
Proof.
  intros Hrely Hfault. destruct (load_paths_run Hrely Hfault paths ∅ w) as (m & w' & Hr & _ & Hm).
  exists m, w'. split; [exact Hr|]. intros k. rewrite Hm, lookup_empty. unfold from_files. generalize (None (A := string)). clear Hr Hm.
  induction paths as [|p paths IH]; intros v; [done|]. simpl. rewrite IH. f_equal.
  destruct (sh_files (shared w) !! p); simpl; [by rewrite parse_env_lookup|done].
Qed.

(** A service's command is spawned exactly when its security context resolves:
    by the shell, in the service's directory, with the privilege drop unless there
    is nothing to drop, and with an environment in which the service's variables
    come before the environment files, those before the user's own variables and
    all before the default path.  A failed spawn is an error of the service. *)
Theorem spawn_shell_spec `{Host, Nss} cmd cfg w :
  match resolve_sec cfg with
  | Err e => spawn_shell cmd cfg w = (Some (Err e), w)
  | Ok ident =>
      let h := hist (looked w) in
      ∃ c, spawn_shell cmd cfg w
          = (Some (map_err (Error.Service (sc_name cfg)) (spawn_answer h c)), mkWorld (entered w) (EvSpawn c :: h)) ∧
        cm_args c = [SHELL; "-c"; cmd] ∧ cm_cwd c = sc_cwd cfg ∧
        cm_pre_exec c = (ident ≫= λ i, if is_noop i || already_current_without_caps i then None else Some i) ∧
        ∀ k, cm_env c !! k
          = sc_env cfg !! k ∪ (sh_env (entered w) !! k ∪ (identity_var ident k ∪
              (if decide (k = "PATH") then Some DEFAULT_SERVICE_PATH else None)))
  end.
Proof.
  unfold spawn_shell. destruct (resolve_sec cfg) as [ident|e]; [|done]. eexists. split; [reflexivity|].
  split_and!; try done. intros k. cbn [cm_env].
  rewrite command_env_lookup, lookup_empty. fold (entered w). by destruct (sc_env cfg !! k), (sh_env (entered w) !! k), (identity_var ident k); case_decide.
Qed.

Lemma load_paths_spec_witness :
  let w := mkWorld (set_files {[ "a" := "A=1"; "b" := "A=2" ]} (example_shared [])) [] in
  ∃ m w', load_paths (H := quiet_host) ["a"; "c"; "b"] w = (Some m, w') ∧
    ∀ k, m !! k = from_files {[ "a" := "A=1"; "b" := "A=2" ]} ["a"; "c"; "b"] k.
Proof. intros w. exact (load_paths_spec (H := quiet_host) ["a"; "c"; "b"] w (λ _ _, eq_refl) (λ _, eq_refl)). Defined.
