(* ===== verification/Loading.v ===== *)
(** Loading the configuration: what the files say is what is in force. *)

From Stdlib Require Import Ascii.
From S2P Require Import Prelude BTree Constants RustStr Error Security Config Protocol Logs Watch Reaper.
From S2P Require Import Runtime World Logic EnvFile Service Store Supervisor Graph Commands.
#[local] Open Scope stdpp_scope.

#[export] Instance path_le_total : Total path_le.
Proof.
  intros p q. unfold path_le. generalize (split slash p), (split slash q). intros a.
  induction a as [|x a IH]; intros [|y b]; simpl; [by left..|by right|].
  destruct (decide (x = y)) as [->|Hne]; [rewrite decide_True by done; apply IH|rewrite decide_False by done].
  destruct (total ord_le x y); [left|right]; by apply bool_decide_pack.
Qed.

Section loading.
Context `{Host, Nss, Json, DataDir}.
Context (rely : ∀ h s, sh_files (interfere h s) = sh_files s).

#[local] Abbreviation files w := (sh_files (shared w)).

(** The computation leaves the files as they were. *)
#[local] Abbreviation reading m := (guarantees (same sh_files) m).

Lemma reading_files {A} (m : M A) w o w' : reading m → m w = (o, w') → files w' = files w.
Proof.
  intros Hm Hr. pose proof (keeps_survives (λ s, sh_files s = files w) m (λ h s Hs, eq_trans (rely h s) Hs)
    (guarantees_same_kept sh_files (λ x, x = files w) m Hm) w eq_refl) as Hk. by rewrite Hr in Hk.
Qed.

Lemma reading_fs_exists p : reading (fs_exists p).
Proof. unfold fs_exists. keeps_solve. Qed.
Lemma reading_fs_read p : reading (fs_read p).
Proof. unfold fs_read. keeps_solve. Qed.
#[local] Hint Resolve reading_fs_exists reading_fs_read : keeps.

Lemma reading_load_override p : reading (load_override p).
Proof. unfold load_override. keeps_solve. Qed.

Lemma reading_walk fuel root rel out : reading (walk fuel root rel out).
Proof.
  revert rel out. induction fuel as [|fuel IH]; intros rel out; cbn [walk]; [keeps_solve|].
  apply keeps_bind; [by apply keeps_asks|intros [entries|e]; [|apply keeps_ret]].
  revert out. generalize (merge_sort entry_le entries). intros l. induction l as [|[name ft] l IHl]; intros out; [apply keeps_ret|].
  destruct ft as [[]|e]; [apply keeps_bind; [apply IH|intros [?|?]; [apply IHl|apply keeps_ret]]|apply IHl..|apply keeps_ret].
Qed.
#[local] Hint Resolve reading_walk : keeps.

Lemma reading_collect root : reading (collect_dropin_rel_paths root).
Proof. unfold collect_dropin_rel_paths. keeps_solve. Qed.

Lemma reading_merge_files root rels services : reading (merge_files root rels services).
Proof. revert services. induction rels as [|rel rels IH]; intros services; cbn [merge_files]; keeps_solve. Qed.

Lemma reading_load_paths_into paths into : reading (load_paths_into paths into).
Proof. revert into. induction paths as [|p paths IH]; intros into; cbn [load_paths_into]; unfold load_file; keeps_solve. Qed.
#[local] Hint Resolve reading_load_paths_into : keeps.

Lemma reading_finish_load c : reading (finish_load c).
Proof. unfold finish_load, load_into_cache, load_paths, env_install. keeps_solve. done. Qed.

(** ** What was read *)

Lemma fs_read_Ok p w text w' : fs_read p w = (Some (Ok text), w') → files w' !! p = Some text.
Proof.
  intros Hr. rewrite (reading_files _ _ _ _ (reading_fs_read p) Hr).
  unfold fs_read in Hr. apply bind_Some in Hr as (fault & w1 & Hf & Hr). injection Hf as _ <-.
  injection Hr as Hr _. rewrite rely in Hr. simpl in Hr. destruct fault; [done|].
  destruct (files w !! p) as [t|]; [|done]. by injection Hr as ->.
Qed.

Lemma fs_exists_spec p w b w' : fs_exists p w = (Some b, w') → b = bool_decide (is_Some (files w' !! p)).
Proof.
  intros Hr. rewrite (reading_files _ _ _ _ (reading_fs_exists p) Hr). injection Hr as <- _. by rewrite rely.
Qed.

(** The text of a file parses to the value. *)
Definition holds {A} (F : gmap string string) (p : string) (parse : string → result A string) (a : A) : Prop :=
  ∃ text, F !! p = Some text ∧ parse text = Ok a.

Lemma load_override_Ok p w m w' :
  load_override p w = (Some (Ok m), w') →
  files w' = files w ∧
  match files w' !! p with Some text => parse_overrides text = Ok m | None => m = ∅ end.
Proof.
  intros Hr. split; [by eapply reading_files, Hr; apply reading_load_override|].
  unfold load_override in Hr. apply bind_Some in Hr as (b & w1 & Hb & Hr).
  pose proof (fs_exists_spec _ _ _ _ Hb) as ->. case_bool_decide as Hp; simpl in Hr.
  - apply bind_Some in Hr as (r & w2 & Hd & Hr). destruct r as [text|e]; [|by injection Hr].
    pose proof (fs_read_Ok _ _ _ _ Hd) as Ht. injection Hr as Hr <-. rewrite Ht. simpl in Hr.
    by destruct (parse_overrides text); simpl in Hr; simplify_eq.
  - injection Hr as <- <-. apply eq_None_not_Some in Hp. by rewrite Hp.
Qed.

Lemma merge_files_Ok root rels services w merged w' :
  merge_files root rels services w = (Some (Ok merged), w') →
  files w' = files w ∧
  ∃ defs, Forall2 (λ rel d, holds (files w') (path_join root rel) parse_dropin d) rels defs ∧
    merged = merge_dropins services defs.
Proof.
  intros Hr. split; [by eapply reading_files, Hr; apply reading_merge_files|].
  revert services w Hr. induction rels as [|rel rels IH]; intros services w Hr; cbn [merge_files] in Hr.
  { injection Hr as <- <-. exists []. by split. }
  apply bind_Some in Hr as (r & w1 & Hd & Hr). destruct r as [text|e]; [|by injection Hr].
  pose proof (fs_read_Ok _ _ _ _ Hd) as Ht. simpl in Hr. destruct (parse_dropin text) as [d|e] eqn:Hp; [|by injection Hr].
  pose proof (reading_files _ _ _ _ (reading_merge_files root rels _) Hr) as Hf.
  destruct (IH _ _ Hr) as (defs & Hdefs & ->). exists (d :: defs). split; [|done].
  constructor; [|done]. exists text. by rewrite Hf.
Qed.

(** ** The drop-ins *)

(** What the directories hold, which does not change meanwhile. *)
Section listing.
Context (tree : string → result (list (string * result FileType io_error)) io_error).
Context (listing : ∀ h dir, read_dir_answer h dir = tree dir).

(** The [.json] files in the directory [rel] below the root, in it or deeper; links
    and anything but files and directories do not count. *)
Inductive json_file (root rel : string) : string → Prop :=
  | json_here entries name :
      tree (if decide (rel = "") then root else path_join root rel) = Ok entries → (name, Ok IsFile) ∈ entries →
      path_extension (path_join rel name) = Some "json" → json_file root rel (path_join rel name)
  | json_below entries name p :
      tree (if decide (rel = "") then root else path_join root rel) = Ok entries → (name, Ok IsDir) ∈ entries →
      json_file root (path_join rel name) p → json_file root rel p.

(** What a list of entries of the directory contributes. *)
Definition contributed (root rel : string) (entries : list (string * result FileType io_error)) (p : string) : Prop :=
  ∃ name, (name, Ok IsFile) ∈ entries ∧ path_extension (path_join rel name) = Some "json" ∧ p = path_join rel name ∨
          (name, Ok IsDir) ∈ entries ∧ json_file root (path_join rel name) p.

Lemma json_file_contributed root rel entries p :
  tree (if decide (rel = "") then root else path_join root rel) = Ok entries →
  json_file root rel p ↔ contributed root rel entries p.
Proof.
  intros Ht. split.
  - destruct 1 as [entries' name Ht' Hin Hext|entries' name p Ht' Hin Hp]; rewrite Ht in Ht'; injection Ht' as <-; exists name; eauto.
  - intros (name & [(Hin & Hext & ->)|[Hin Hp]]); eauto using json_file.
Qed.

Lemma walk_Ok fuel root rel out w out' w' :
  walk fuel root rel out w = (Some (Ok out'), w') → ∃ new, out' = out ++ new ∧ ∀ p, p ∈ new ↔ json_file root rel p.
Proof.
  revert rel out w w' out'. induction fuel as [|fuel IH]; intros rel out w w' out' Hr; cbn [walk] in Hr; [done|].
  apply bind_Some in Hr as (r & w1 & [= <- <-] & Hr). rewrite listing in Hr.
  destruct (tree (if decide (rel = "") then root else path_join root rel)) as [entries|e] eqn:Ht; [|by injection Hr].
  setoid_rewrite (json_file_contributed root rel entries _ Ht).
  assert (∀ p, contributed root rel entries p ↔ contributed root rel (merge_sort entry_le entries) p) as Hsorted
    by (intros p; unfold contributed; by setoid_rewrite (merge_sort_Permutation entry_le entries)).
  setoid_rewrite Hsorted. clear Hsorted Ht. revert out Hr. generalize (mkWorld (shared w) (EvReadDir (if decide (rel = "") then root else path_join root rel) :: hist w)).
  generalize (merge_sort entry_le entries). clear entries. intros l.
  induction l as [|[name ft] l IHl]; intros w1 out Hr.
  { injection Hr as <- <-. exists []. split; [by rewrite app_nil_r|]. intros p. unfold contributed. set_solver. }
  assert (∀ p, contributed root rel ((name, ft) :: l) p ↔ (ft = Ok IsFile ∧ path_extension (path_join rel name) = Some "json" ∧
    p = path_join rel name ∨ ft = Ok IsDir ∧ json_file root (path_join rel name) p) ∨ contributed root rel l p) as Hcons.
  { intros p. unfold contributed. setoid_rewrite elem_of_cons. naive_solver. }
  setoid_rewrite Hcons. destruct ft as [[]|e]; [|..|by injection Hr].
  - apply bind_Some in Hr as (r & w2 & Hd & Hr). destruct r as [out1|]; [|by injection Hr].
    apply IH in Hd as (new1 & -> & Hnew1). apply IHl in Hr as (new2 & -> & Hnew2). exists (new1 ++ new2).
    split; [by rewrite (assoc_L (++))|]. intros p. rewrite elem_of_app, Hnew1, Hnew2. naive_solver.
  - apply IHl in Hr as (new & -> & Hnew). case_decide as Hext.
    + exists (path_join rel name :: new). split; [by rewrite <-(assoc_L (++))|]. intros p. rewrite elem_of_cons, Hnew. naive_solver.
    + exists new. split; [done|]. intros p. rewrite Hnew. naive_solver.
  - apply IHl in Hr as (new & -> & Hnew). exists new. split; [done|]. intros p. rewrite Hnew. naive_solver.
Qed.

Lemma collect_Ok root w rels w' :
  collect_dropin_rel_paths root w = (Some (Ok rels), w') →
  files w' = files w ∧ Sorted path_le rels ∧ ∀ p, p ∈ rels ↔ json_file root "" p.
Proof.
  intros Hr. split; [by eapply reading_files, Hr; apply reading_collect|]. unfold collect_dropin_rel_paths in Hr.
  apply bind_Some in Hr as (r & w1 & [= <- <-] & Hr). rewrite listing in Hr. destruct (tree root) as [entries|e] eqn:Ht.
  - apply bind_Some in Hr as (r & w2 & Hw & Hr). destruct r as [out|e]; [|by injection Hr]. injection Hr as <- _.
    split; [apply Sorted_merge_sort, _|]. apply walk_Ok in Hw as (new & -> & Hnew). intros p.
    rewrite (merge_sort_Permutation path_le), <-Hnew. done.
  - injection Hr as <- _. split; [constructor|]. intros p. split; [by intros ?%elem_of_nil|].
    destruct 1 as [entries' name Ht'|entries' name p Ht']; simpl in Ht'; congruence.
Qed.
End listing.

Lemma finish_load_Ok c w c' w' :
  finish_load c w = (Some (Ok c'), w') → files w' = files w ∧ validate c = Ok tt ∧ prepare_security c = Ok c'.
Proof.
  intros Hr. split; [by eapply reading_files, Hr; apply reading_finish_load|]. unfold finish_load in Hr.
  destruct (validate c) as [[]|e] eqn:Hv; [|by injection Hr].
  apply bind_Some in Hr as ([] & w1 & [= <-] & Hr). apply bind_Some in Hr as ([] & w2 & _ & Hr).
  by injection Hr as Hr _.
Qed.

(** ** Services *)

(** The definition of a service: its last one in the drop-ins, else that of the base,
    with the [enabled] flag of the override file. *)
Definition defined (base : Config) (defs : list (list ServiceConfig)) (overrides : gmap string bool)
    (name : string) : option ServiceConfig :=
  (λ s, set_sc_enabled (default (sc_enabled s) (overrides !! name)) s) <$>
  match last_named name (mjoin defs) with Some s => Some s | None => cf_get name base end.

(** A service with its security context resolved. *)
Definition secured (s s' : ServiceConfig) : Prop :=
  ∃ r, s' = set_sc_resolved_security r s ∧
    match sc_security_context s with Some ctx => resolve ctx = Ok r | None => r = None end.

Lemma cf_get_secured name c services :
  Forall2 secured (cf_services c) services →
  option_Forall2 secured (cf_get name c) (cf_get name (set_cf_services services c)).
Proof.
  unfold cf_get. simpl. induction 1 as [|s s' l l' Hs _ IH]; [constructor|]. simpl.
  destruct Hs as (r & -> & Hr). simpl. case_bool_decide; [|done]. constructor. by exists r.
Qed.

(** C32: A configuration that is loaded is the one the files hold afterwards: the main
    file and every drop-in (exactly the [.json] files in the drop-in directory, at any
    depth), in the order of their paths, and the override file, if there is one, parse;
    the merged configuration is valid; and each service has its last definition among
    the drop-ins, or else that of the main file, with the [enabled] flag of the override
    file and its security context resolved.  The directories are taken to stay as they
    are meanwhile, and the files to be changed by this thread only. *)
Theorem load_or_create_spec tree config_path example_path override_path root w c w' :
  (∀ h dir, read_dir_answer h dir = tree dir) →
  load_or_create_with_dropins config_path example_path override_path root w = (Some (Ok c), w') →
  let F := files w' in
  ∃ rels base defs overrides,
    (∀ p, p ∈ rels ↔ json_file tree root "" p) ∧ Sorted path_le rels ∧
    holds F config_path parse_config base ∧
    Forall2 (λ rel d, holds F (path_join root rel) parse_dropin d) rels defs ∧
    match F !! override_path with Some text => parse_overrides text = Ok overrides | None => overrides = ∅ end ∧
    valid_config (apply_enabled_override (set_cf_services (merge_dropins (cf_services base) defs) base) overrides) ∧
    ∀ name, option_Forall2 secured (defined base defs overrides name) (cf_get name c).
Proof.
  intros listing. intros Hr F. unfold load_or_create_with_dropins in Hr.
  do 3 (apply bind_Some in Hr as (r & ? & _ & Hr); destruct r as [[]|]; [|by injection Hr]).
  apply bind_Some in Hr as (r & w1 & Hbase & Hr).
  destruct r as [text|]; [|by injection Hr].
  apply fs_read_Ok in Hbase. simpl in Hr. destruct (parse_config text) as [base|] eqn:Hparse; [|by injection Hr].
  apply bind_Some in Hr as (r & ? & [= <- <-] & Hr). simpl in Hr.
  apply bind_Some in Hr as (r & w2 & Hmerge & Hr). destruct r as [merged|]; [|by injection Hr].
  unfold merge_service_dropins in Hmerge. apply bind_Some in Hmerge as (r & w3 & Hcollect & Hmerge).
  destruct r as [rels|]; [|by injection Hmerge]. apply bind_Some in Hmerge as (r & w4 & Hfiles & Hmerge).
  destruct r as [services|]; [|by injection Hmerge]. injection Hmerge as <- <-.
  apply bind_Some in Hr as (r & w5 & Hover & Hr). destruct r as [overrides|]; [|by injection Hr].
  apply (collect_Ok _ listing) in Hcollect as (Hf1 & Hsorted & Hrels). apply merge_files_Ok in Hfiles as (Hf2 & defs & Hdefs & ->).
  apply load_override_Ok in Hover as [Hf3 Hover]. apply finish_load_Ok in Hr as (Hf4 & Hvalid & Hprep).
  rewrite <-Hf4 in Hover. rewrite <-Hf3, <-Hf4 in Hdefs. rewrite <-Hf1, <-Hf2, <-Hf3, <-Hf4 in Hbase.
  exists rels, base, defs, overrides. split_and!; [done|done|by exists text|done|done|by apply validate_ok|]. intros name.
  pose proof (prepare_security_spec (apply_enabled_override (set_cf_services (merge_dropins (cf_services base) defs) base) overrides)) as Hs.
  rewrite Hprep in Hs. destruct Hs as (services & -> & Hs). apply (cf_get_secured name) in Hs.
  destruct (effective_services_spec base defs overrides) as [_ Hget]. specialize (Hget name).
  unfold defined. rewrite <-Hget. exact Hs.
Qed.
End loading.

(** ** A concrete load *)

(** A main file with the example services, which the override file enables or not, and
    two drop-ins, one of them in a subdirectory, that redefine [db]. *)
Definition loading_json : Json := {|
  json_value := string;
  parse_overrides := parse_overrides (Json := example_json);
  print_overrides := print_overrides (Json := example_json);
  parse_config _ := Ok (example_cfg example_services);
  print_config _ := Ok "{}";
  parse_dropin text := Ok [example_service "db" [] (if decide (text = "first") then 1 else 2) false];
  parse_early_boot _ := Err "expected value at line 1 column 1";
  parse_value text := Ok text;
  services_of _ := None;
  name_of _ := None;
|}.

Definition dropin_tree (dir : string) : result (list (string * result FileType io_error)) io_error :=
  if decide (dir = "/data/etc/services")
  then Ok [("notes.txt", Ok IsFile); ("local", Ok IsDir); ("base.json", Ok IsFile)]
  else if decide (dir = "/data/etc/services/local") then Ok [("db.json", Ok IsFile)]
  else Err (mkIoError NotFound "No such file or directory (os error 2)").

Definition loading_host : Host := {|
  interfere _ s := s;
  clock := elapsed;
  utc_clock := elapsed;
  rfc3339_secs := pretty;
  rfc3339_ms := pretty;
  wakeups _ := 0;
  spawn_answer _ _ := Ok 100%Z;
  child_wait_answer _ _ := Ok (Some 0%Z);
  try_wait_answer _ _ := Ok (Some (Some 0%Z));
  patience _ := 1;
  kill_no_process _ _ := true;
  thread_fault _ := None;
  fs_fault _ := None;
  fs_partial _ := None;
  read_dir_answer _ := dropin_tree;
  dir_depth := 8;
  resolve_answer _ a := Ok [a];
  connect_answer _ _ := None;
  http_answer _ _ _ := Ok 200%N;
  proc_status _ _ := None;
  opens _ _ _ := true;
|}.

Definition loading_files : gmap string string := {[
  "/data/etc/microinit.json" := "{}"; "/data/etc/override.json" := "db=0" +:+ String newline "";
  "/data/etc/services/base.json" := "first"; "/data/etc/services/local/db.json" := "second" ]}.

Definition load_example : option (Result Config) * World :=
  load_or_create_with_dropins (H := loading_host) (H0 := loading_json) (H1 := example_nss)
    (H2 := {| data_root := "/data"; data_path l := join "/" ("/data" :: l) |})
    "/data/etc/microinit.json" "/data/etc/example.json" "/data/etc/override.json" "/data/etc/services"
    (mkWorld (set_files loading_files (example_shared [])) []).

Lemma load_or_create_spec_witness :
  ∃ c (rels : list string) base defs overrides, load_example.1 = Some (Ok c) ∧
    (λ s, (sc_enabled s, sc_order_priority s)) <$> cf_get "db" c = Some (false, 2%N) ∧ "local/db.json" ∈ rels ∧
    (∀ p, p ∈ rels ↔ json_file dropin_tree "/data/etc/services" "" p) ∧
    holds (sh_files (shared load_example.2)) "/data/etc/microinit.json" (parse_config (Json := loading_json)) base ∧
    option_Forall2 (secured (H0 := example_nss)) (defined base defs overrides "db") (cf_get "db" c).
Proof.
  assert (∃ c, load_example.1 = Some (Ok c) ∧ (λ s, (sc_enabled s, sc_order_priority s)) <$> cf_get "db" c = Some (false, 2%N)) as (c & Hr & Hdb)
    by (eexists; split; vm_compute; reflexivity).
  destruct (load_or_create_spec (H := loading_host) (H0 := example_nss) (H1 := loading_json)
    (H2 := {| data_root := "/data"; data_path l := join "/" ("/data" :: l) |}) (λ _ _, eq_refl) dropin_tree
    "/data/etc/microinit.json" "/data/etc/example.json" "/data/etc/override.json" "/data/etc/services"
    (mkWorld (set_files loading_files (example_shared [])) []) c load_example.2)
    as (rels & base & defs & overrides & Hrels & _ & Hbase & _ & _ & _ & Hc).
  { exact (λ _ _, eq_refl). }
  { rewrite <-Hr. exact (surjective_pairing load_example). }
  exists c, rels, base, defs, overrides. split; [exact Hr|]. split; [exact Hdb|]. split.
  - apply Hrels. apply (json_below dropin_tree "/data/etc/services" "" [("notes.txt", Ok IsFile); ("local", Ok IsDir); ("base.json", Ok IsFile)] "local").
    + reflexivity.
    + right; left.
    + apply (json_here dropin_tree "/data/etc/services" "local" [("db.json", Ok IsFile)] "db.json"); [reflexivity|left|reflexivity].
  - split; [exact Hrels|]. split; [exact Hbase|]. apply Hc.
Defined.
