(* ===== verification/Sequencing.v ===== *)
(** The sequences of the supervisor: what boot, shutdown and reload do, in order. *)

From S2P Require Import Prelude Constants RustStr Error Security Config Graph Protocol Logs Watch.
From S2P Require Import Reaper Runtime World Console Logic Trace EnvFile Service Store Supervisor Isolation Timing Acts.
#[local] Open Scope stdpp_scope.

(** ** Traces *)

(** The steps of a sequence: a monitor is spawned, a message sent (whether or not
    its monitor is still there), a line shown on the console, a pause. *)
Inductive Step :=
  | Monitored (name : string)
  | Sent (name : string) (msg : CtlMsg)
  | Shown (text : string)
  | Paused (d : N).

Definition step_of (e : Event) : option Step :=
  match e with
  | EvMonitor name _ => Some (Monitored name)
  | EvSend name msg _ => Some (Sent name msg)
  | EvConsole _ text => Some (Shown text)
  | EvSleep d => Some (Paused d)
  | _ => None
  end.

Definition steps_of : list Event → list Step := steps_by step_of.

#[global] Abbreviation traces := (traces_by step_of).
#[global] Abbreviation silent := (unseen step_of).

(** ** Computations without steps *)

Section rules.
Context `{Host}.

Lemma silent_emit service level msg : emits silent (emit service level msg).
Proof. unfold emit, publish_line. emits_solve. Qed.

Lemma silent_emit_init level msg : emits silent (emit_init level msg).
Proof. apply silent_emit. Qed.

Lemma silent_notify_watchers : emits silent notify_watchers.
Proof. unfold notify_watchers, list_. emits_solve. Qed.

Lemma silent_apply_enabled name b : emits silent (apply_enabled name b).
Proof.
  unfold apply_enabled, shared_set_enabled, set_state, update_runtime. emits_solve. apply silent_notify_watchers.
Qed.

Lemma silent_wait_settled name timeout : emits silent (wait_settled name timeout).
Proof.
  unfold wait_settled. apply emits_bind; [emits_solve|intros now]. apply emits_bind; [emits_solve|intros deadline].
  apply emits_bind; [emits_solve|intros n]. induction n as [|n IH]; cbn [wait_settled_loop]; emits_solve.
Qed.
End rules.
#[export] Hint Resolve silent_emit_init silent_notify_watchers silent_apply_enabled silent_wait_settled : emits.

Section sequences.
Context `{Host, HashOrder}.
Variable self : Supervisor.

(** ** Steps of the parts *)

Lemma traces_send_ctl name msg : traces (send_ctl name msg) (λ _ t, t = [Sent name msg]).
Proof.
  unfold send_ctl. apply traces_silent_bind; [emits_solve|intros r].
  eapply traces_bind; [apply (traces_effect _ (Sent name msg) (λ _ t, t = [Sent name msg])); done|].
  intros [] t ->. by apply traces_ret.
Qed.

Lemma traces_send_or_log verb name msg : traces (send_or_log verb name msg) (λ _ t, t = [Sent name msg]).
Proof. apply traces_then_silent; [apply traces_send_ctl|]. intros r. emits_solve. Qed.

Lemma traces_spawn_monitor name : traces (spawn_monitor name) (λ _ t, t = [Monitored name]).
Proof.
  unfold spawn_monitor. apply traces_silent_bind; [emits_solve|intros c].
  apply traces_then_silent; [by apply (traces_asks _ _ (Monitored name))|]. intros fault. emits_solve.
Qed.

Lemma silent_console_mirror level msg : emits silent (console_mirror (sv_console self) level msg).
Proof. unfold console_mirror, publish_line. emits_solve. Qed.

Lemma traces_console_status name ok :
  traces (console_status (sv_console self) name ok) (λ _ t, t = [Shown (status_text name ok)]).
Proof.
  apply traces_then_silent; [by apply (traces_effect _ (Shown (status_text name ok)))|].
  intros _. apply silent_console_mirror.
Qed.

Definition starting_text (name : string) : string := "  Starting " +:+ name +:+ "...".

Lemma traces_console_starting name :
  traces (console_starting (sv_console self) name) (λ _ t, t = [Shown (starting_text name)]).
Proof.
  apply traces_then_silent; [by apply (traces_effect _ (Shown (starting_text name)))|].
  intros _. apply silent_console_mirror.
Qed.

(** ** Boot *)

(** A foreground service is announced, started, and its outcome shown. *)
Definition foreground_steps (name : string) (t : list Step) : Prop :=
  ∃ ok, t = [Shown (starting_text name); Sent name (CtlStart false); Shown (status_text name ok)].
Definition status_step (name : string) (t : list Step) : Prop := ∃ ok, t = [Shown (status_text name ok)].

Lemma traces_status name b :
  traces (if b : bool then console_ok (sv_console self) name else console_fail (sv_console self) name)
    (λ _ t, status_step name t).
Proof.
  destruct b; (eapply traces_weaken; [apply traces_console_status|]); intros [] t ->; eexists; reflexivity.
Qed.

Lemma traces_boot_foreground name : traces (boot_foreground self name) (λ _ t, foreground_steps name t).
Proof.
  unfold boot_foreground. eapply traces_bind; [apply traces_console_starting|]. intros [] t ->.
  eapply traces_bind; [apply traces_send_or_log|]. intros sent t ->.
  destruct sent; simpl.
  - apply traces_silent_bind; [emits_solve|intros st].
    eapply traces_weaken; [apply traces_status|]. intros _ t [ok ->]. by exists ok.
  - eapply traces_weaken; [apply (traces_status name false)|]. intros _ t [ok ->]. by exists ok.
Qed.

Lemma traces_boot_background name : traces (boot_background self name) (λ _ t, status_step name t).
Proof.
  unfold boot_background. apply traces_silent_bind; [emits_solve|intros st].
  destruct st; first [apply (traces_status name true)|apply (traces_status name false)].
Qed.

(** The steps of a boot: every service is monitored, the background services are
    sent a start, the foreground services are brought up one after the other, and
    the outcomes of the background services are shown. *)
Definition boot_steps (services : list ServiceConfig) (foreground background : list string)
    (t : list Step) : Prop :=
  ∃ fs bs,
    t = (Monitored ∘ sc_name <$> services) ++ ((λ n, Sent n (CtlStart false)) <$> background)
        ++ concat fs ++ concat bs ∧
    Forall2 foreground_steps foreground fs ∧ Forall2 status_step background bs.

Definition boot_outcome (services : list ServiceConfig) (r : Result unit) (t : list Step) : Prop :=
  match r with
  | Ok _ => ∃ foreground background,
      partition_boot services = Ok (foreground, background) ∧ boot_steps services foreground background t
  | Err e => ∃ k, t = Monitored ∘ sc_name <$> take k services
  end.

Lemma traces_send_starts names :
  traces (for_each_m names (λ name, send_or_log "start" name (CtlStart false) ≫= λ _, mret tt))
    (λ _ t, t = (λ n, Sent n (CtlStart false)) <$> names).
Proof.
  apply traces_for_each_one. intros name. apply traces_then_silent; [apply traces_send_or_log|].
  intros ok. emits_solve.
Qed.

Lemma traces_boot_groups services foreground background :
  partition_boot services = Ok (foreground, background) →
  traces (for_each_m background (λ name, send_or_log "start" name (CtlStart false) ≫= λ _, mret tt);;
          for_each_m foreground (boot_foreground self);;
          for_each_m background (boot_background self);;
          mret (Ok tt))
    (λ r t, boot_outcome services r ((Monitored ∘ sc_name <$> services) ++ t)).
Proof.
  intros Hpart. eapply traces_bind; [apply traces_send_starts|]. intros [] t ->.
  eapply traces_bind; [apply traces_for_each, traces_boot_foreground|]. intros [] t (fs & -> & Hfs).
  eapply traces_bind; [apply traces_for_each, traces_boot_background|]. intros [] t (bs & -> & Hbs).
  apply traces_ret. exists foreground, background. split; [done|]. exists fs, bs. by rewrite app_nil_r.
Qed.

Lemma traces_boot services :
  traces (_ <-? try_each_m services (λ svc, spawn_monitor (sc_name svc));
          ensure_reaper_thread;;
          groups <-? mret (partition_boot services);
          let '(foreground, background) := groups in
          for_each_m background (λ name, send_or_log "start" name (CtlStart false) ≫= λ _, mret tt);;
          for_each_m foreground (boot_foreground self);;
          for_each_m background (boot_background self);;
          mret (Ok tt))
    (boot_outcome services).
Proof.
  eapply traces_bind.
  { apply (traces_try_each _ _ (λ svc t, t = [Monitored (sc_name svc)])). intros svc. apply traces_spawn_monitor. }
  intros r t (k & ts & -> & Hts & Hk). rewrite (concat_singles (Monitored ∘ sc_name) _ _ Hts).
  destruct r as [[]|e]; [rewrite Hk by done|apply traces_ret; exists k; by rewrite app_nil_r].
  apply traces_silent_bind; [unfold ensure_reaper_thread; emits_solve|intros []].
  destruct (partition_boot services) as [[foreground background]|e] eqn:Hpart.
  - by apply traces_boot_groups.
  - apply traces_ret. exists (length services). by rewrite app_nil_r, firstn_all.
Qed.

(** ** The waits of the boot *)

(** The state of the service is looked at, and found to be this. *)
Definition look (name : string) (st : ServiceState.t) : Acts :=
  one (λ _ e, ∃ s, e = EvStep s s ∧ default ServiceState.Failed (current_state name (sh_runtimes s)) = st).

(** It was settled when last looked at, or it was not and the deadline had passed, or it
    was looked at for the last time after a wait up to the deadline. *)
Inductive settle_outcome (name : string) (deadline : N) (st : ServiceState.t) (h new : list Event) : Prop :=
  | so_settled : is_settled st = true → (anything ⨾ look name st) h new → settle_outcome name deadline st h new
  | so_overdue n :
      new = EvNow :: n → (deadline ≤ clock (n ++ h))%N → (anything ⨾ look name st) h n → settle_outcome name deadline st h new
  | so_timed_out n l :
      new = l ++ EvTimedWait (deadline - clock (n ++ h)) :: EvNow :: n →
      look name st (EvTimedWait (deadline - clock (n ++ h)) :: EvNow :: n ++ h) l → settle_outcome name deadline st h new.

Lemma settle_outcome_then name deadline st h n1 n2 :
  settle_outcome name deadline st (n1 ++ h) n2 → settle_outcome name deadline st h (n2 ++ n1).
Proof.
  destruct 1 as [Hs Hn|n -> Hd Hn|n l -> Hn].
  - apply so_settled; [done|by apply anything_then].
  - apply (so_overdue _ _ _ _ _ (n ++ n1)); [done|by rewrite <- ?(assoc_L (++))|by apply anything_then].
  - apply (so_timed_out _ _ _ _ _ (n ++ n1) l); by rewrite <- ?(assoc_L (++)).
Qed.

Lemma acts_look name : acts (reads (λ s, default ServiceState.Failed (current_state name (sh_runtimes s)))) (look name).
Proof. intros h. apply acts_atomic. intros s. eexists. split; [done|]. by exists s. Qed.

Lemma acts_wait_settled_loop n name deadline :
  acts (wait_settled_loop n name deadline) (settle_outcome name deadline).
Proof.
  induction n as [|n IH]; intros h; cbn [wait_settled_loop].
  all: eapply acts_bind; [apply acts_look|intros st n1 Hn1].
  all: destruct (is_settled st) eqn:Hs; [by apply acts_ret, so_settled, anything_here|].
  all: apply acts_bind with (λ now n2, n2 = [EvNow] ∧ now = clock (n1 ++ h)); [by apply acts_asks|intros now n2 [-> ->]].
  all: case_decide; [apply acts_ret; eapply (so_overdue _ _ _ _ _ n1); [done..|by apply anything_here]|].
  all: eapply acts_bind; [by apply (acts_effect _ _ (λ _ k, k = [EvTimedWait (deadline - clock (n1 ++ h))]))|intros [] n3 ->].
  - eapply acts_call; [apply acts_look|]. intros st' l Hl. rewrite <-!(assoc_L (++)). by eapply (so_timed_out _ _ _ _ _ n1 l).
  - eapply acts_call; [apply IH|]. intros st' l Hl. by do 3 apply settle_outcome_then.
Qed.

(** The wait for a service to settle, from the moment it begins. *)
Definition waits (name : string) (timeout : N) (st : ServiceState.t) : Acts := λ h new,
  ∃ n, new = n ++ [EvPoll; EvNow] ∧ settle_outcome name (clock h + timeout) st (EvPoll :: EvNow :: h) n.

Lemma acts_wait_settled name timeout : acts (wait_settled name timeout) (waits name timeout).
Proof.
  intros h. unfold wait_settled. apply acts_bind with (λ now n, n = [EvNow] ∧ now = clock h); [by apply acts_asks|intros now n1 [-> ->]].
  unfold instant_add. case_decide; [|intros w a w' _ ?; done]. apply acts_bind with (λ d n, n = [] ∧ d = (clock h + timeout)%N); [by apply acts_ret|].
  intros d n2 [-> ->]. apply acts_bind with (λ _ n, n = [EvPoll]); [by apply acts_asks|intros k n3 ->].
  eapply acts_call; [apply acts_wait_settled_loop|]. intros st n Hn. exists n. by rewrite <-!(assoc_L (++)).
Qed.

(** Without a step. *)
Definition quiet : Acts := every silent.

(** A line is shown on the console, then mirrored to the logs. *)
Definition shows (text : string) : Acts := one (λ _ e, ∃ device, e = EvConsole device text) ⨾ quiet.

(** A message is put at the end of the queue of the service's channel, when its monitor
    listens, or else is not sent. *)
Definition delivery (name : string) (msg : CtlMsg) (sent : bool) (s s' : Shared) : Prop :=
  if sent then
    ∃ c ch, sh_ctl s !! name = Some c ∧ sh_chans s !! c = Some ch ∧ ch_receiver ch = true ∧
      sh_chans s' !! c = Some (mkChan (ch_queue ch ++ [msg]) (ch_sender ch) true)
  else
    sh_chans s' = sh_chans s ∧
    ∀ c ch, sh_ctl s !! name = Some c → sh_chans s !! c = Some ch → ch_receiver ch = false.

Definition delivered (name : string) (msg : CtlMsg) (sent : bool) : Acts :=
  one (λ _ e, ∃ s s', e = EvStep s s' ∧ delivery name msg sent s s') ⨾ one (λ _ e, e = EvSend name msg sent).

(** The whole of a foreground service: announced, sent a start, waited for, and shown as
    OK exactly if it was found running or done; FAIL at once if the start did not reach
    its monitor. *)
Definition brought_up (name : string) : Acts :=
  shows (starting_text name) ⨾ of_some (λ sent, delivered name (CtlStart false) sent ⨾ quiet ⨾
    if sent : bool then of_some (λ st, waits name BOOT_FG_SETTLE st ⨾ shows (status_text name (is_ready st)))
    else shows (status_text name false)).

(** The states in which a background service is shown as OK. *)
Definition background_ok (st : ServiceState.t) : bool :=
  match st with
  | ServiceState.Running | ServiceState.Succeeded | ServiceState.Starting
  | ServiceState.Pending | ServiceState.WaitingForDependency => true
  | _ => false
  end.

Definition checked (name : string) : Acts :=
  of_some (λ st, waits name BOOT_BG_SETTLE st ⨾ shows (status_text name (background_ok st))).

Lemma acts_quiet {A} (m : M A) : emits silent m → acts m (λ _, quiet).
Proof. apply acts_emits. Qed.

Lemma acts_shows {A} dev text (k : M A) :
  emits silent k → acts (effect (EvConsole dev text) ≫= λ _, k) (λ _, shows text).
Proof.
  intros Hk h. eapply acts_bind; [apply (acts_effect _ _ (λ _ n, n = [EvConsole dev text])); done|intros [] n1 ->].
  eapply acts_call; [by apply acts_quiet|]. intros a n2 Hn2. apply next_intro; [|done]. eexists. split; [done|]. by exists dev.
Qed.

Lemma acts_status name b : acts (console_status (sv_console self) name b) (λ _, shows (status_text name b)).
Proof. apply acts_shows, silent_console_mirror. Qed.

Lemma acts_starting name : acts (console_starting (sv_console self) name) (λ _, shows (starting_text name)).
Proof. apply acts_shows, silent_console_mirror. Qed.

Lemma quiet_app h n1 n2 : quiet h n1 → quiet (n1 ++ h) n2 → quiet h (n2 ++ n1).
Proof. intros. by apply Forall_app. Qed.

Lemma acts_send_ctl name msg : acts (send_ctl name msg) (λ r, delivered name msg (is_ok r)).
Proof.
  intros h. unfold send_ctl. eapply acts_bind with (λ r, one (λ _ e, ∃ s s', e = EvStep s s' ∧ delivery name msg (is_ok r) s s') h).
  - apply acts_atomic. intros s. eexists. split; [done|]. eexists _, _. split; [done|]. unfold delivery, chan_send.
    destruct (sh_ctl s !! name) as [c|] eqn:Hc; simpl; [|by split].
    destruct (sh_chans s !! c) as [ch|] eqn:Hch; [destruct (ch_receiver ch) eqn:Hr|]; simpl.
    + exists c, ch. by rewrite lookup_insert_eq.
    + split; [done|]. intros c' ch' [= <-]. rewrite Hch. by intros [= <-].
    + split; [done|]. intros c' ch' [= <-]. by rewrite Hch.
  - intros r n1 Hn1. eapply acts_bind; [apply (acts_effect _ _ (λ _ n, n = [EvSend name msg (is_ok r)])); done|intros [] n2 ->].
    apply acts_ret. rewrite app_nil_l. apply next_intro; [done|]. by eexists.
Qed.

Lemma acts_send_or_log verb name msg :
  acts (send_or_log verb name msg) (λ sent, delivered name msg sent ⨾ quiet).
Proof.
  intros h. unfold send_or_log. eapply acts_bind; [apply acts_send_ctl|]. intros r n1 Hn1.
  destruct r as [[]|e]; [by apply acts_ret, next_intro; [|constructor]|].
  eapply acts_bind; [apply (acts_quiet (emit_init _ _)); emits_solve|intros [] n2 Hn2].
  apply acts_ret. rewrite app_nil_l. by apply next_intro.
Qed.

Lemma acts_boot_foreground name : acts (boot_foreground self name) (λ _, brought_up name).
Proof.
  intros h. unfold boot_foreground. eapply acts_bind; [apply acts_starting|]. intros [] n1 Hn1.
  eapply acts_bind; [apply acts_send_or_log|]. intros sent n2 Hn2. unfold brought_up.
  assert (∀ k, (if sent then of_some (λ st, waits name BOOT_FG_SETTLE st ⨾ shows (status_text name (is_ready st)))
    else shows (status_text name false)) (n2 ++ n1 ++ h) k → brought_up name h ((k ++ n2) ++ n1)) as Hall.
  { intros k Hk. apply next_intro; [done|]. exists sent. apply (next_assoc (delivered _ _ _) quiet). by apply next_intro. }
  destruct sent; simpl.
  - eapply acts_bind; [apply acts_wait_settled|]. intros st n3 Hn3.
    assert (acts (if is_ready st then console_ok (sv_console self) name else console_fail (sv_console self) name)
      (λ _, shows (status_text name (is_ready st)))) as Hs by (destruct (is_ready st); apply acts_status).
    eapply acts_call; [exact Hs|]. intros [] n4 Hn4. apply Hall. exists st. by apply next_intro.
  - eapply acts_call; [apply acts_status|]. intros [] n3 Hn3. by apply Hall.
Qed.

Lemma acts_boot_background name : acts (boot_background self name) (λ _, checked name).
Proof.
  intros h. unfold boot_background. eapply acts_bind; [apply acts_wait_settled|]. intros st n1 Hn1.
  assert (acts (match st with
    | ServiceState.Running | ServiceState.Succeeded | ServiceState.Starting
    | ServiceState.Pending | ServiceState.WaitingForDependency => console_ok (sv_console self) name
    | _ => console_fail (sv_console self) name
    end) (λ _, shows (status_text name (background_ok st)))) as Hs by (destruct st; apply acts_status).
  eapply acts_call; [exact Hs|]. intros [] n2 Hn2. exists st. by apply next_intro.
Qed.

(** A boot that succeeds: monitors and starts first, then each foreground service brought
    up, then each background service checked. *)
Lemma acts_boot services :
  acts (_ <-? try_each_m services (λ svc, spawn_monitor (sc_name svc));
        ensure_reaper_thread;;
        groups <-? mret (partition_boot services);
        let '(foreground, background) := groups in
        for_each_m background (λ name, send_or_log "start" name (CtlStart false) ≫= λ _, mret tt);;
        for_each_m foreground (boot_foreground self);;
        for_each_m background (boot_background self);;
        mret (Ok tt))
    (λ r h n, r = Ok tt → ∃ foreground background, partition_boot services = Ok (foreground, background) ∧
      (anything ⨾ each brought_up foreground ⨾ each checked background) h n).
Proof.
  intros h. apply acts_skip; [unfold spawn_monitor; emits_solve|]. intros [[]|e] n1; [|by apply acts_ret].
  apply acts_skip; [unfold ensure_reaper_thread; emits_solve|]. intros [] n2.
  apply acts_bind with (λ r n, n = [] ∧ r = partition_boot services); [by apply acts_ret|]. intros r n0 [-> ->].
  destruct (partition_boot services) as [[fg bg]|e]; [|by apply acts_ret].
  apply acts_skip; [unfold send_or_log, send_ctl, emit_init, emit, publish_line; emits_solve|]. intros [] n3.
  eapply acts_bind; [apply acts_for_each, acts_boot_foreground|]. intros [] n4 Hn4.
  eapply acts_bind; [apply acts_for_each, acts_boot_background|]. intros [] n5 Hn5.
  apply acts_ret. intros _. exists fg, bg. split; [done|]. rewrite app_nil_l. do 4 apply anything_then.
  by apply anything_here, next_intro.
Qed.

(** ** Shutdown *)

(** The order of the shutdown: dependents first, or the reverse of the configuration
    when the dependencies cannot be ordered. *)
Definition stop_order (services : list ServiceConfig) : list string :=
  match shutdown_order services with
  | Ok order => order
  | Err _ => reverse (sc_name <$> services)
  end.

Definition stop_steps (order : list string) : list Step :=
  ((λ n, Sent n CtlStop) <$> order) ++ [Paused SHUTDOWN_STOP_WAIT] ++
  ((λ n, Sent n CtlQuit) <$> order) ++ [Paused SHUTDOWN_QUIT_WAIT].

Lemma traces_send_all verb msg names :
  traces (for_each_m names (λ name, send_or_log verb name msg ≫= λ _, mret tt))
    (λ _ t, t = (λ n, Sent n msg) <$> names).
Proof.
  apply traces_for_each_one. intros name. apply traces_then_silent; [apply traces_send_or_log|].
  intros ok. emits_solve.
Qed.

Lemma traces_pause d : traces (sleep d) (λ _ t, t = [Paused d]).
Proof. by apply (traces_effect _ (Paused d)). Qed.

Lemma traces_stop services :
  traces (order ← match shutdown_order services with
                  | Ok o => mret o
                  | Err e =>
                      emit_init LogLevel.Error ("shutdown order failed (" +:+ Error.to_string e
                        +:+ "); using reverse config order");;
                      mret (reverse (sc_name <$> services))
                  end;
          for_each_m order (λ name, send_or_log "stop" name CtlStop ≫= λ _, mret tt);;
          sleep SHUTDOWN_STOP_WAIT;;
          for_each_m order (λ name, send_or_log "quit" name CtlQuit ≫= λ _, mret tt);;
          sleep SHUTDOWN_QUIT_WAIT)
    (λ _ t, t = stop_steps (stop_order services)).
Proof.
  eapply (traces_bind _ _ (λ order t, order = stop_order services ∧ t = [])).
  { unfold stop_order. destruct (shutdown_order services) as [o|e]; [by apply traces_ret|].
    apply traces_silent_bind; [emits_solve|]. intros _. by apply traces_ret. }
  intros order t [-> ->]. simpl. unfold stop_steps.
  eapply traces_bind; [apply traces_send_all|]. intros [] t ->.
  eapply traces_bind; [apply traces_pause|]. intros [] t ->.
  eapply traces_bind; [apply traces_send_all|]. intros [] t ->.
  eapply traces_weaken; [apply traces_pause|]. intros [] t ->. done.
Qed.

(** Each service is sent a message, in order. *)
Definition told (msg : CtlMsg) : list string → Acts := each (λ name, of_some (λ sent, delivered name msg sent) ⨾ quiet).

(** The shutdown: the stops, a pause, the quits, another pause. *)
Definition stop_acts (order : list string) : Acts :=
  quiet ⨾ told CtlStop order ⨾ one (λ _ e, e = EvSleep SHUTDOWN_STOP_WAIT) ⨾
  told CtlQuit order ⨾ one (λ _ e, e = EvSleep SHUTDOWN_QUIT_WAIT).

Lemma acts_told verb msg names :
  acts (for_each_m names (λ name, send_or_log verb name msg ≫= λ _, mret tt)) (λ _, told msg names).
Proof.
  apply acts_for_each. intros name h. eapply acts_bind; [apply acts_send_or_log|]. intros sent n Hn. apply acts_ret.
  rewrite app_nil_l. eapply next_mono; [|done|exact Hn]. intros h' n' Hn'. by exists sent.
Qed.

Lemma acts_pause d : acts (sleep d) (λ _, one (λ _ e, e = EvSleep d)).
Proof. intros h. apply acts_effect. by eexists. Qed.

Lemma acts_stop services :
  acts (order ← match shutdown_order services with
                | Ok o => mret o
                | Err e =>
                    emit_init LogLevel.Error ("shutdown order failed (" +:+ Error.to_string e
                      +:+ "); using reverse config order");;
                    mret (reverse (sc_name <$> services))
                end;
        for_each_m order (λ name, send_or_log "stop" name CtlStop ≫= λ _, mret tt);;
        sleep SHUTDOWN_STOP_WAIT;;
        for_each_m order (λ name, send_or_log "quit" name CtlQuit ≫= λ _, mret tt);;
        sleep SHUTDOWN_QUIT_WAIT)
    (λ _, stop_acts (stop_order services)).
Proof.
  intros h. eapply acts_bind with (λ order n, order = stop_order services ∧ quiet h n).
  { unfold stop_order. destruct (shutdown_order services) as [o|e]; [by apply acts_ret; split; [|constructor]|].
    eapply acts_bind; [apply (acts_quiet (emit_init _ _)); emits_solve|intros [] n2 Hn2]. by apply acts_ret. }
  intros order n1 [-> Hn1]. eapply acts_bind; [apply acts_told|]. intros [] n2 Hn2.
  eapply acts_bind; [apply acts_pause|]. intros [] n3 Hn3. eapply acts_bind; [apply acts_told|]. intros [] n4 Hn4.
  eapply acts_call; [apply acts_pause|]. intros [] n5 Hn5. by repeat (apply next_intro; [done|]).
Qed.

Lemma returns_stop_all_ordered : returns stop_all_ordered.
Proof.
  unfold stop_all_ordered, send_or_log. returns_solve.
Qed.
End sequences.

Lemma boot_run `{Host, HashOrder} self w r w' :
  boot self w = (Some r, w') →
  ∃ new, hist w' = new ++ hist w ∧ boot_outcome (cf_services (sh_config (entered w))) r (steps_of new).
Proof.
  unfold boot. rewrite reads_bind. set (w1 := stepped w (entered w)).
  intros (new & Hh & Hout)%traces_boot. eexists (new ++ [EvStep _ _]). rewrite Hh, <-app_assoc. split; [done|].
  unfold steps_of, steps_by in *. rewrite reverse_app, omap_app. done.
Qed.

(** ** Properties *)


(** The shutdown order stops every service once, dependents before their dependencies
    unless the dependencies cannot be ordered. *)
Definition shutdown_ordered `{HashOrder} (services : list ServiceConfig) (order : list string) : Prop :=
  order ≡ₚ (sc_name <$> services) ∧
  match topological_sort services with
  | Ok _ => ∀ d n, depends services d n → before n d order
  | Err _ => order = reverse (sc_name <$> services)
  end.

Lemma stop_order_ordered `{HashOrder} services :
  NoDup (sc_name <$> services) → shutdown_ordered services (stop_order services).
Proof.
  intros Hnd. unfold shutdown_ordered, stop_order. pose proof (shutdown_order_sound services) as Hs.
  destruct (shutdown_order services) as [order|e] eqn:Ho.
  - destruct (Hs order Hnd eq_refl) as [Hp Hb]. split; [done|]. unfold shutdown_order in Ho.
    by destruct (topological_sort services).
  - split; [by rewrite reverse_Permutation|]. unfold shutdown_order in Ho. by destruct (topological_sort services).
Qed.

(** The shutdown always returns, with the stop flag raised: it sends every
    service a stop, dependents before their dependencies (or in the reverse order of
    the configuration if the dependencies cannot be ordered), waits, sends every
    service a quit in the same order, and waits again. *)
Lemma shutdown_sequence `{Host, HashOrder} w :
  let services := cf_services (sh_config (shared w)) in
  NoDup (sc_name <$> services) →
  (∀ h s, sh_config (interfere h s) = sh_config s) →
  (∀ h s, sh_stop_all s = true → sh_stop_all (interfere h s) = true) →
  ∃ order new w', stop_all_ordered w = (Some tt, w') ∧ hist w' = new ++ hist w ∧
    shutdown_ordered services order ∧ steps_of new = stop_steps order ∧
    (one (λ _ e, ∃ s, e = EvStep s (set_stop_all true s)) ⨾ stop_acts order) (hist w) new ∧
    sh_stop_all (shared w') = true.
Proof.
  intros services Hnd Hconfig Hstop. exists (stop_order services). destruct (returns_stop_all_ordered w) as ([] & w' & Hr & _).
  pose proof Hr as Hr'. unfold stop_all_ordered in Hr.
  match type of Hr with (updates ?f ≫= ?k) w = _ =>
    set (w1 := stepped w (f (entered w))); set (K := k);
    change ((updates f ≫= k) w) with (K tt w1) in Hr end.
  unfold K in Hr. rewrite reads_bind in Hr.
  assert (cf_services (sh_config (entered w1)) = services) as Hs.
  { unfold entered. rewrite Hconfig. simpl. unfold entered. by rewrite Hconfig. }
  rewrite Hs in Hr. set (w2 := stepped w1 (entered w1)) in Hr.
  pose proof Hr as Htr. apply traces_stop in Htr as (new & Hh & Ht).
  destruct (acts_stop services (hist w2) w2 tt w' eq_refl Hr) as (new' & Hh' & Hacts).
  assert (new' = new) as -> by (rewrite Hh in Hh'; by apply app_inv_tail in Hh').
  eexists (new ++ [EvStep _ _; EvStep _ _]), w'. split; [exact Hr'|]. split; [by rewrite Hh, <-app_assoc|].
  split; [by apply stop_order_ordered|]. split; [unfold steps_of, steps_by in *; by rewrite reverse_app, omap_app|].
  split.
  { exists [EvStep (entered w) (set_stop_all true (entered w))], (new ++ [EvStep (entered w1) (entered w1)]).
    rewrite <-(assoc_L (++)). split; [done|]. split.
    - eexists. split; [done|]. by eexists.
    - clear Hh Hh' Ht. destruct Hacts as (k1 & k2 & -> & Hk1 & Hk2). rewrite <-(assoc_L (++)). apply next_intro.
      + apply Forall_app. split; [done|]. by constructor.
      + by rewrite <-(assoc_L (++)). }
  assert (quiet_closed (kept (λ s, sh_stop_all s = true))) as Hq by closed_solve.
  assert (∀ x, keeps (λ s, sh_stop_all s = true) x → x w2 = (Some tt, w') → sh_stop_all (shared w') = true) as Hk.
  { intros x Hx Hxr. assert (sh_stop_all (shared (x w2).2) = true) as Hf; [|by rewrite Hxr in Hf].
    apply (keeps_survives _ _ Hstop Hx). by apply Hstop. }
  eapply Hk; [|exact Hr]. unfold send_or_log, send_ctl.
  pose proof (keeps_emit_init _ Hq) as Hemit. keeps_solve; try done.
  all: intros s Hs'; destruct (sh_ctl s !! _); [|done]; by destruct (chan_send _ _ _).
Qed.

(** ** Concrete runs *)

Definition example_boot : World := mkWorld (example_shared example_services) [].


Lemma shutdown_sequence_witness :
  NoDup (sc_name <$> example_services) ∧
  ∃ order new w', stop_all_ordered (H := quiet_host) (H1 := canonical_hash_order) example_boot = (Some tt, w') ∧
    hist w' = new ++ [] ∧ shutdown_ordered (H := canonical_hash_order) example_services order ∧
    steps_of new = stop_steps order ∧
    (one (λ _ e, ∃ s, e = EvStep s (set_stop_all true s)) ⨾ stop_acts order) [] new ∧ sh_stop_all (shared w') = true.
Proof.
  assert (NoDup (sc_name <$> example_services)) as Hnd by (apply (bool_decide_unpack _); vm_compute; exact I).
  split; [exact Hnd|].
  exact (shutdown_sequence (H := quiet_host) (H0 := canonical_hash_order) example_boot Hnd
    (λ _ _, eq_refl) (λ _ _ H, H)).
Defined.
