(* ===== verification/Reload.v ===== *)
(** Reloading the configuration: the messages it sends, and that the supervisor
    serves exactly the configured services after a boot and after every reload. *)

From S2P Require Import Prelude Constants RustStr Error Security Config Graph Protocol Logs Watch.
From S2P Require Import Reaper Runtime World Console Logic Trace EnvFile Service Store Supervisor Isolation Timing.
From S2P Require Import Sequencing.
#[local] Open Scope stdpp_scope.

Section steps.
Context `{Host, HashOrder}.

(** ** Names *)

Lemma name_set_None services n : name_set services !! n = None ↔ n ∉ (sc_name <$> services).
Proof.
  unfold name_set. rewrite <-not_elem_of_list_to_map. f_equiv. f_equiv.
  rewrite <-list_fmap_compose. done.
Qed.

Lemma cf_get_None n c : cf_get n c = None ↔ n ∉ (sc_name <$> cf_services c).
Proof. apply find_named_None. Qed.

Lemma elem_of_hash_names services n :
  n ∈ (fst <$> hash_iter (name_set services)) ↔ n ∈ (sc_name <$> services).
Proof.
  rewrite list_elem_of_fmap. split.
  - intros ([k []] & -> & Hk%elem_of_hash_iter). simpl.
    destruct (decide (k ∈ (sc_name <$> services))) as [|Hn]; [done|]. apply name_set_None in Hn. congruence.
  - intros Hin. destruct (name_set services !! n) as [[]|] eqn:Hn.
    + exists (n, ()). split; [done|]. by apply elem_of_hash_iter.
    + by apply name_set_None in Hn.
Qed.

Lemma elem_of_removed old new n :
  n ∈ removed_names old new ↔ n ∈ (sc_name <$> old) ∧ n ∉ (sc_name <$> new).
Proof.
  unfold removed_names. rewrite list_elem_of_filter, name_set_None, elem_of_hash_names. tauto.
Qed.

(** ** Messages *)

(** A service that is gone is stopped, then its monitor quits. *)
Definition remove_steps (name : string) : list Step :=
  [Sent name CtlStop; Paused (from_millis 200); Sent name CtlQuit].

(** What a reload asks the monitor of a configured service. *)
Definition service_steps (old : Config) (svc : ServiceConfig) : list Step :=
  let name := sc_name svc in
  match cf_get name old with
  | None => Monitored name :: (if sc_enabled svc then [Sent name (CtlStart false)] else [])
  | Some old_svc =>
      (if decide (sc_enabled old_svc = sc_enabled svc) then []
       else [Sent name (if sc_enabled svc then CtlStart false else CtlStop)]) ++
      (if negb (definition_eq old_svc svc) && sc_enabled svc then [Sent name CtlRestart] else [])
  end.

Lemma traces_reload_remove name : traces (reload_remove name) (λ _ t, t = remove_steps name).
Proof.
  unfold reload_remove. apply traces_silent_bind; [emits_solve|intros _].
  eapply traces_bind; [apply traces_send_ctl|]. intros _ t ->.
  eapply traces_bind; [apply traces_pause|]. intros [] t ->.
  apply traces_silent_bind; [emits_solve|intros sent].
  eapply traces_weaken; [apply (traces_then_silent _ _ [Sent name CtlQuit])|by intros [] t ->].
  - by apply (traces_effect _ (Sent name CtlQuit)).
  - intros _. emits_solve.
Qed.

Lemma traces_message name (b : bool) msg :
  traces (if b then send_ctl name msg ≫= λ _, mret tt else mret tt)
    (λ _ t, t = if b then [Sent name msg] else []).
Proof.
  destruct b; [|by apply traces_ret]. apply traces_then_silent; [apply traces_send_ctl|]. intros r. emits_solve.
Qed.

(** The steps for a service; a monitor that cannot be spawned is an error. *)
Lemma traces_reload_service old svc :
  traces (reload_service old svc)
    (λ r t, if is_ok r then t = service_steps old svc else t = [Monitored (sc_name svc)]).
Proof.
  unfold reload_service, service_steps. set (name := sc_name svc).
  destruct (cf_get name old) as [old_svc|] eqn:Hold.
  - rewrite decide_False.
    2:{ rewrite name_set_None, <-cf_get_None. by rewrite Hold. }
    eapply (traces_bind _ _ (λ _ t, t = if decide (sc_enabled old_svc = sc_enabled svc) then []
       else [Sent name (if sc_enabled svc then CtlStart false else CtlStop)])).
    { case_decide as He; case_decide as He'; try done; [|by apply traces_ret].
      apply traces_silent_bind; [emits_solve|intros _].
      apply traces_then_silent; [apply traces_send_ctl|]. intros r. emits_solve. }
    intros _ t ->.
    eapply (traces_bind _ _ (λ _ t, t = if negb (definition_eq old_svc svc) && sc_enabled svc then [Sent name CtlRestart] else [])).
    { destruct (negb (definition_eq old_svc svc)); simpl; [|by apply traces_ret].
      apply traces_silent_bind; [emits_solve|intros _]. apply (traces_message name). }
    intros _ t ->. apply traces_ret. by rewrite app_nil_r.
  - rewrite decide_True by by rewrite name_set_None, <-cf_get_None.
    apply traces_silent_bind; [emits_solve|intros _]. apply traces_silent_bind; [emits_solve|intros _].
    eapply traces_bind; [apply traces_spawn_monitor|]. intros r t ->. destruct r as [[]|e]; [|by apply traces_ret].
    eapply traces_bind; [apply (traces_message name)|]. intros _ t ->. apply traces_ret. by rewrite app_nil_r.
Qed.

(** A loop that succeeds ran every body. *)
Lemma traces_try_each_ok {A} (l : list A) body (f : A → list Step) :
  (∀ a, traces (body a) (λ r t, is_ok r → t = f a)) →
  traces (try_each_m l body) (λ r t, is_ok r → t = concat (f <$> l)).
Proof.
  intros Hb. induction l as [|a l IH]; [by apply traces_ret|].
  eapply traces_bind; [apply Hb|]. intros [[]|e] t Ht; [|by apply traces_ret].
  eapply traces_weaken; [exact IH|]. intros r t' Ht' Hr. simpl. by rewrite Ht, Ht'.
Qed.

Definition reload_steps (old new : Config) : list Step :=
  concat (remove_steps <$> removed_names (cf_services old) (cf_services new)) ++
  concat (service_steps old <$> cf_services new).

Lemma traces_reload_each names :
  traces (for_each_m names reload_remove) (λ _ t, t = concat (remove_steps <$> names)).
Proof.
  eapply traces_weaken; [apply (traces_for_each _ _ (λ n t, t = remove_steps n)), traces_reload_remove|].
  intros [] t (ts & -> & Hts). f_equal. induction Hts as [|n t ns ts -> _ IH]; [done|]. simpl. by rewrite IH.
Qed.

Lemma traces_reload_body old cfg :
  traces (for_each_m (removed_names (cf_services old) (cf_services cfg)) reload_remove;;
          updates (set_config (reload_applied old cfg));;
          _ <-? try_each_m (cf_services (reload_applied old cfg)) (reload_service old);
          emit_init LogLevel.Info "configuration reloaded";;
          notify_watchers;;
          mret (Ok tt))
    (λ r t, is_ok r → t = reload_steps old cfg).
Proof.
  eapply traces_bind; [apply traces_reload_each|]. intros [] t ->.
  apply traces_silent_bind; [emits_solve|intros _].
  eapply traces_bind.
  { apply (traces_try_each_ok _ _ (service_steps old)). intros svc.
    eapply traces_weaken; [apply traces_reload_service|]. by intros [[]|e] t. }
  intros [[]|e] t Ht; [|by apply traces_ret]. rewrite Ht by done.
  apply traces_silent_bind; [emits_solve|intros _]. apply traces_silent_bind; [emits_solve|intros _].
  apply traces_ret. intros _. by rewrite app_nil_r.
Qed.

Lemma silent_warn_if b msg : emits silent (warn_if b msg).
Proof. unfold warn_if. emits_solve. Qed.
End steps.

(** ** The services that are served *)

(** The configuration and the names of the services with a runtime and of those
    with a monitor. *)
Definition serving (s : Shared) : Config * gset string * gset string :=
  (sh_config s, dom (sh_runtimes s), dom (sh_ctl s)).

Definition names (c : Config) : gset string := list_to_set (sc_name <$> cf_services c).

(** Exactly the configured services have a runtime and a monitor. *)
Definition served (s : Shared) : Prop := serving s = (sh_config s, names (sh_config s), names (sh_config s)).

Section serving.
Context `{Host, HashOrder, Json}.
Context (rely : ∀ h s, serving (interfere h s) = serving s).

#[local] Abbreviation at_ x := (λ w, serving (shared w) = x).

Lemma serving_closed x : quiet_closed (kept (λ s, serving s = x)).
Proof. closed_solve. Qed.

Lemma serving_rely x h s : serving s = x → serving (interfere h s) = x.
Proof. intros <-. apply rely. Qed.

Section fixed.
Context (x : Config * gset string * gset string).
#[local] Abbreviation I := (λ s, serving s = x).

Lemma serving_emit_init level msg : keeps I (emit_init level msg).
Proof. apply keeps_emit_init, serving_closed. Qed.
Lemma serving_notify : keeps I notify_watchers.
Proof. apply keeps_notify_watchers, serving_closed. Qed.
#[local] Hint Resolve serving_emit_init serving_notify : keeps.

Lemma serving_send_ctl name msg : keeps I (send_ctl name msg).
Proof.
  unfold send_ctl. apply keeps_bind; [apply keeps_atomic|keeps_solve].
  intros s <-. destruct (sh_ctl s !! name) as [c|]; [|done]. by destruct (chan_send _ _ _).
Qed.
#[local] Hint Resolve serving_send_ctl : keeps.

Lemma serving_alter f name s :
  serving s = x → serving (set_runtimes (alter f name (sh_runtimes s)) s) = x.
Proof. intros <-. unfold serving; simpl. by rewrite dom_alter_L. Qed.

Lemma serving_apply_enabled name b : keeps I (apply_enabled name b).
Proof.
  unfold apply_enabled, shared_set_enabled. keeps_solve.
  - intros s <-. destruct (sh_runtimes s !! name) as [rt|] eqn:Hrt; [|done]. unfold serving; simpl.
    rewrite dom_insert_lookup_L; [done|by rewrite Hrt].
  - unfold set_state, update_runtime. keeps_solve. intros now utc s Hs. by apply serving_alter.
Qed.
#[local] Hint Resolve serving_apply_enabled : keeps.

Lemma serving_warn_if b msg : keeps I (warn_if b msg).
Proof. unfold warn_if. keeps_solve. Qed.

Lemma serving_send_or_log verb name msg : keeps I (send_or_log verb name msg).
Proof. unfold send_or_log. keeps_solve. Qed.

Lemma serving_console_status self name ok : keeps I (console_status (sv_console self) name ok).
Proof. unfold console_status, console_mirror, publish_line. keeps_solve; by intros ? ?. Qed.

Lemma serving_console_starting self name : keeps I (console_starting (sv_console self) name).
Proof. unfold console_starting, console_mirror, publish_line. keeps_solve; by intros ? ?. Qed.

Lemma serving_wait_settled name timeout : keeps I (wait_settled name timeout).
Proof.
  unfold wait_settled. keeps_solve. revert a0 a1. intros d n. revert d.
  induction n as [|n IH]; intros d; simpl; keeps_solve.
Qed.
#[local] Hint Resolve serving_console_status serving_console_starting serving_wait_settled
  serving_send_or_log : keeps.

Lemma serving_boot_groups self foreground background :
  keeps I (for_each_m background (λ name, send_or_log "start" name (CtlStart false) ≫= λ _, mret tt);;
           for_each_m foreground (boot_foreground self);;
           for_each_m background (boot_background self);;
           mret (Ok (E := Error.t) tt)).
Proof. unfold boot_foreground, boot_background, console_ok, console_fail. keeps_solve. Qed.
End fixed.

Lemma at_keeps {A} x (m : M A) : keeps (λ s, serving s = x) m → triple (at_ x) m (λ _, at_ x).
Proof. apply triple_keeps, serving_rely. Qed.

(** An update of the shared state, from the state the others left. *)
Lemma at_updates x y f :
  (∀ s, serving s = x → serving (f s) = y) → triple (at_ x) (updates f) (λ _, at_ y).
Proof. intros Hf w a w' Hw [= <- <-]. apply Hf. by apply serving_rely. Qed.

Lemma at_spawn_monitor name c R C :
  triple (at_ (c, R, C)) (spawn_monitor name) (λ _, at_ (c, R, {[ name ]} ∪ C)).
Proof.
  unfold spawn_monitor. eapply (triple_bind _ _ (λ _, at_ (c, R, {[ name ]} ∪ C))).
  - intros w a w' Hw Hr. unfold atomic in Hr. injection Hr as <- <-.
    pose proof (serving_rely _ (hist w) _ Hw) as Hs. unfold serving in *; simpl.
    injection Hs as -> -> <-. by rewrite dom_insert_L.
  - intros n. apply at_keeps. keeps_solve. by intros ? ?.
Qed.

Lemma at_reload_remove name c R C :
  triple (at_ (c, R, C)) (reload_remove name) (λ _, at_ (c, R ∖ {[ name ]}, C ∖ {[ name ]})).
Proof.
  unfold reload_remove.
  eapply triple_bind; [apply at_keeps, serving_emit_init|intros u1]; cbn beta.
  eapply triple_bind; [apply at_keeps, serving_send_ctl|intros u2]; cbn beta.
  eapply triple_bind; [by apply at_keeps, keeps_effect|intros u3]; cbn beta.
  eapply (triple_bind _ _ (λ _, at_ (c, R, C ∖ {[ name ]}))).
  { intros w r w' Hw Hr. unfold atomic in Hr. fold (entered w) in Hr.
    pose proof (serving_rely _ (hist w) _ Hw) as Hs. fold (entered w) in Hs.
    destruct (sh_ctl (entered w) !! name) as [n|] eqn:Hn.
    - destruct (chan_send n CtlQuit _) as [ok chans]. injection Hr as <- <-. unfold serving in *; simpl.
      injection Hs as -> -> <-. by rewrite dom_delete_L.
    - injection Hr as <- <-. unfold serving in *; simpl. injection Hs as -> -> <-.
      apply not_elem_of_dom in Hn. f_equal. set_solver. }
  intros sent; cbn beta. eapply triple_bind; [by apply at_keeps, keeps_effect|intros u4]; cbn beta.
  apply at_updates. intros s Hs. unfold serving in *; simpl. injection Hs as -> <- ->. by rewrite dom_delete_L.
Qed.

Lemma at_removals l c R C :
  triple (at_ (c, R, C)) (for_each_m l reload_remove)
    (λ _, at_ (c, R ∖ list_to_set l, C ∖ list_to_set l)).
Proof.
  revert R C. induction l as [|n l IH]; intros R C; simpl.
  - apply triple_ret. intros w ->. f_equal; [f_equal|]; set_solver.
  - eapply triple_bind; [apply at_reload_remove|]. intros [].
    eapply triple_weaken; [apply (IH (R ∖ {[ n ]}) (C ∖ {[ n ]}))|auto|]. intros [] w ->. f_equal; [f_equal|]; set_solver.
Qed.

(** The names a reload adds. *)
Definition added (old : Config) (services : list ServiceConfig) : gset string :=
  list_to_set (filter (λ n, n ∉ (sc_name <$> cf_services old)) (sc_name <$> services)).

Lemma at_reload_service old svc c R C :
  triple (at_ (c, R, C)) (reload_service old svc)
    (λ _, at_ (c, added old [svc] ∪ R, added old [svc] ∪ C)).
Proof.
  unfold reload_service. destruct (decide _) as [Hn|Hn]; rewrite name_set_None in Hn.
  - assert (added old [svc] = {[ sc_name svc ]}) as ->.
    { unfold added. simpl. rewrite filter_cons_True, filter_nil by done. simpl. set_solver. }
    eapply triple_bind; [apply at_keeps, serving_emit_init|intros u5]; cbn beta.
    eapply (triple_bind _ _ (λ _, at_ (c, {[ sc_name svc ]} ∪ R, C))).
    { apply at_updates. intros s Hs. unfold serving in *; simpl. injection Hs as -> <- ->. by rewrite dom_insert_L. }
    intros _. eapply triple_bind; [apply at_spawn_monitor|]. intros r. apply at_keeps.
    pose proof (serving_send_ctl (c, {[ sc_name svc ]} ∪ R, {[ sc_name svc ]} ∪ C)) as Hsend. keeps_solve.
  - assert (added old [svc] = ∅) as ->.
    { unfold added. simpl. rewrite filter_cons_False, filter_nil by done. done. }
    rewrite !(left_id_L ∅ (∪)). apply at_keeps.
    pose proof (serving_send_ctl (c, R, C)) as Hsend. pose proof (serving_apply_enabled (c, R, C)) as Hen.
    pose proof (serving_emit_init (c, R, C)) as Hemit. keeps_solve.
Qed.

Lemma at_services old services c R C :
  triple (at_ (c, R, C)) (try_each_m services (reload_service old))
    (λ r w, r = Ok tt → at_ (c, added old services ∪ R, added old services ∪ C) w).
Proof.
  revert R C. induction services as [|svc services IH]; intros R C; simpl.
  - apply triple_ret. intros w -> _. unfold added; simpl. by rewrite !(left_id_L ∅ (∪)).
  - eapply triple_bind; [apply at_reload_service|]; cbn beta. intros [[]|e]; [|by apply triple_ret].
    eapply triple_weaken; [apply (IH (added old [svc] ∪ R) (added old [svc] ∪ C))|auto|]. intros r w Hw Hr. rewrite (Hw Hr).
    assert (added old (svc :: services) = added old services ∪ added old [svc]) as ->.
    { unfold added. rewrite !fmap_cons. rewrite filter_cons, (filter_cons _ _ (sc_name <$> [])).
      case_decide; simpl; set_solver. }
    by rewrite !(assoc_L (∪)).
Qed.

Lemma at_reload old cfg :
  triple (at_ (old, names old, names old)) (
      for_each_m (removed_names (cf_services old) (cf_services cfg)) reload_remove;;
      updates (set_config (reload_applied old cfg));;
      _ <-? try_each_m (cf_services (reload_applied old cfg)) (reload_service old);
      emit_init LogLevel.Info "configuration reloaded";;
      notify_watchers;;
      mret (Ok tt))
    (λ r w, r = Ok tt → at_ (reload_applied old cfg, names cfg, names cfg) w).
Proof.
  set (gone := list_to_set (removed_names (cf_services old) (cf_services cfg)) : gset string).
  eapply triple_bind; [apply at_removals|]. intros []; cbn beta. fold gone.
  eapply (triple_bind _ _ (λ _, at_ (reload_applied old cfg, names old ∖ gone, names old ∖ gone))).
  { apply at_updates. intros s Hs. unfold serving in *; simpl. by injection Hs as _ -> ->. }
  intros ?; cbn beta. eapply triple_bind; [apply at_services|]. intros [[]|e]; [|by apply triple_ret].
  assert (added old (cf_services cfg) ∪ names old ∖ gone = names cfg) as Hnames.
  { unfold added, names, gone. apply set_eq. intros n.
    rewrite elem_of_union, elem_of_difference, !elem_of_list_to_set, list_elem_of_filter, elem_of_removed.
    destruct (decide (n ∈ (sc_name <$> cf_services old))), (decide (n ∈ (sc_name <$> cf_services cfg))); tauto. }
  simpl. rewrite Hnames.
  eapply (triple_pre _ (at_ (reload_applied old cfg, names cfg, names cfg))); [|by intros w Hw; apply Hw].
  eapply triple_weaken; [apply (at_keeps (reload_applied old cfg, names cfg, names cfg))|auto|by intros r w Hw _].
  pose proof (serving_emit_init (reload_applied old cfg, names cfg, names cfg)) as Hemit.
  pose proof (serving_notify (reload_applied old cfg, names cfg, names cfg)) as Hnot. keeps_solve.
Qed.

Lemma at_spawns services c R C :
  triple (at_ (c, R, C)) (try_each_m services (λ svc, spawn_monitor (sc_name svc)))
    (λ r w, r = Ok tt → at_ (c, R, list_to_set (sc_name <$> services) ∪ C) w).
Proof.
  revert C. induction services as [|svc services IH]; intros C; simpl.
  - apply triple_ret. intros w -> _. by rewrite (left_id_L ∅ (∪)).
  - eapply triple_bind; [apply at_spawn_monitor|]; cbn beta. intros [[]|e]; [|by apply triple_ret].
    eapply triple_weaken; [apply (IH ({[sc_name svc]} ∪ C))|auto|]. intros r w Hw Hr. rewrite (Hw Hr).
    f_equal. set_solver.
Qed.

Lemma at_boot self c w' w :
  serving (shared w) = (c, names c, ∅) → boot self w = (Some (Ok tt), w') →
  serving (shared w') = (c, names c, names c).
Proof.
  intros Hw. unfold boot. rewrite reads_bind. set (w1 := stepped w (entered w)).
  assert (serving (shared w1) = (c, names c, ∅)) as Hw1 by by apply serving_rely.
  assert (sh_config (entered w) = c) as -> by by injection Hw1.
  intros (r & w2 & H2 & Hr)%bind_Some. destruct r as [[]|e]; [|done].
  pose proof (at_spawns _ _ _ _ w1 _ _ Hw1 H2 eq_refl) as Hw2. rewrite (right_id_L ∅ (∪)) in Hw2.
  fold (names c) in Hw2. apply bind_Some in Hr as ([] & w3 & H3 & Hr).
  assert (serving (shared w3) = (c, names c, names c)) as Hw3.
  { eapply (at_keeps _ ensure_reaper_thread); [|exact Hw2|exact H3]. unfold ensure_reaper_thread. keeps_solve. by intros ? ?. }
  rewrite bind_ret in Hr. destruct (partition_boot (cf_services c)) as [[fg bg]|e]; [|done].
  eapply at_keeps; [apply (serving_boot_groups _ self fg bg)|exact Hw3|exact Hr].
Qed.

Lemma dom_initial_runtimes c : dom (initial_runtimes c) = names c.
Proof.
  unfold initial_runtimes, names. induction (cf_services c) as [|svc l IH] using rev_ind; [done|].
  rewrite foldl_app, fmap_app, list_to_set_app_L. simpl. rewrite dom_insert_L, IH. set_solver.
Qed.
End serving.

(** ** Properties *)

(** The world after the warnings a reload starts with. *)
Lemma reload_unfold `{Host, HashOrder} cfg w r w' :
  reload cfg w = (Some r, w') →
  let old := sh_config (entered w) in
  ∃ w1, (for_each_m (removed_names (cf_services old) (cf_services cfg)) reload_remove;;
         updates (set_config (reload_applied old cfg));;
         _ <-? try_each_m (cf_services (reload_applied old cfg)) (reload_service old);
         emit_init LogLevel.Info "configuration reloaded";;
         notify_watchers;;
         mret (Ok tt)) w1 = (Some r, w') ∧
    (∃ new, hist w1 = new ++ hist w ∧ steps_of new = []) ∧
    ∀ I, quiet_closed (kept I) → (∀ h s, I s → I (interfere h s)) → I (shared w) → I (shared w1).
Proof.
  unfold reload. rewrite reads_bind. intros Hr. set (old := sh_config (entered w)) in *.
  set (w0 := stepped w (entered w)) in Hr.
  set (warnings := warn_if (bool_decide (cf_socket old ≠ cf_socket cfg))
      "reload: socket change ignored (restart microinit required)";;
    warn_if (bool_decide (cf_logs old ≠ cf_logs cfg))
      "reload: logs.* change ignored (restart microinit required)";;
    warn_if (bool_decide (cf_early_boot old ≠ cf_early_boot cfg))
      "reload: earlyBoot change ignored (restart microinit required)";;
    warn_if (bool_decide (cf_console old ≠ cf_console cfg))
      "reload: console change ignored (restart microinit required)").
  assert (∃ w1, warnings w0 = (Some tt, w1) ∧
    (for_each_m (removed_names (cf_services old) (cf_services cfg)) reload_remove;;
         updates (set_config (reload_applied old cfg));;
         _ <-? try_each_m (cf_services (reload_applied old cfg)) (reload_service old);
         emit_init LogLevel.Info "configuration reloaded";;
         notify_watchers;;
         mret (Ok tt)) w1 = (Some r, w')) as (w1 & Hw & Hrest).
  { unfold warnings. do 4 (apply bind_Some in Hr as ([] & ? & ? & Hr)). eexists. split; [|exact Hr].
    repeat (apply bind_Some; do 2 eexists; split; [eassumption|]). eassumption. }
  exists w1. split; [exact Hrest|]. split.
  - assert (emits silent warnings) as Hs by (unfold warnings, warn_if; emits_solve).
    destruct (Hs w0) as (new & Hh & Hn). rewrite Hw in Hh. simpl in Hh. eexists (new ++ [EvStep _ _]).
    split; [by rewrite Hh, <-app_assoc|]. apply (traces_silent _ (λ _ t, t = [])) in Hs; [|done].
    destruct (Hs _ _ _ Hw) as (new' & Hh' & Ht). rewrite Hh in Hh'. apply app_inv_tail in Hh' as ->.
    unfold steps_of, steps_by in *. by rewrite reverse_app, omap_app.
  - intros I HI Hrely Hw0. assert (keeps I warnings) as Hk.
    { pose proof (keeps_emit_init _ HI) as Hemit. unfold warnings, warn_if. keeps_solve. }
    assert (I (shared (warnings w0).2)) as Hf; [|by rewrite Hw in Hf].
    apply (keeps_survives _ _ Hrely Hk). by apply Hrely.
Qed.

(** A successful reload from a state in which the configured services are served. *)
Lemma reload_serves `{Host, HashOrder} cfg w w' :
  (∀ h s, serving (interfere h s) = serving s) →
  served (shared w) → reload cfg w = (Some (Ok tt), w') →
  served (shared w') ∧ sh_config (shared w') = reload_applied (sh_config (shared w)) cfg.
Proof.
  intros Hrely Hw (w1 & Hr & _ & Hk)%reload_unfold. unfold served in Hw.
  assert (sh_config (entered w) = sh_config (shared w)) as Hc by (pose proof (Hrely (hist w) (shared w)) as Hi; by injection Hi).
  rewrite Hc in Hr. set (old := sh_config (shared w)) in *.
  eapply at_reload in Hr; [|done|]. 
  + specialize (Hr eq_refl). unfold served. injection Hr as Hcf Hrt Hctl. unfold serving. 
    rewrite Hrt, Hctl, Hcf. done.
  + apply Hk; [apply serving_closed|by apply serving_rely|done].
Qed.

(** C14: A successful reload first stops, then quits the monitor of each service that
    is gone; then, in the order of the new configuration, it spawns a monitor for
    each new service, with a start if it is enabled, and tells the monitor of each
    other service that its service was enabled or disabled, or to restart if it is
    enabled and its definition changed.  It sends nothing else. *)
Theorem reload_sequence `{Host, HashOrder} cfg w w' :
  reload cfg w = (Some (Ok tt), w') →
  ∃ new, hist w' = new ++ hist w ∧ steps_of new = reload_steps (sh_config (entered w)) cfg.
Proof.
  intros (w1 & Hr & (new & Hh & Hs) & _)%reload_unfold.
  apply traces_reload_body in Hr as (new' & Hh' & Ht). exists (new' ++ new). rewrite Hh', Hh, app_assoc.
  split; [done|]. unfold steps_of, steps_by in *. rewrite reverse_app, omap_app, Hs. by apply Ht.
Qed.

(** C23: After a successful boot of a new supervisor, and after every successful
    reload, exactly the configured services have a runtime and a monitor; the
    configuration in force is then the new one with the old logs, socket and
    console. *)
Theorem serves_configuration `{Host, HashOrder} self c hub h :
  (∀ h s, serving (interfere h s) = serving s) →
  (∀ w', boot self (mkWorld (new_shared c hub) h) = (Some (Ok tt), w') → served (shared w')) ∧
  ∀ cfg w w', served (shared w) → reload cfg w = (Some (Ok tt), w') →
    served (shared w') ∧ sh_config (shared w') = reload_applied (sh_config (shared w)) cfg.
Proof.
  intros Hrely. split.
  - intros w' Hr. eapply at_boot in Hr; [|done|].
    + unfold served. injection Hr as Hc Hrt Hctl. unfold serving. by rewrite Hrt, Hctl, Hc.
    + unfold serving. simpl. by rewrite dom_initial_runtimes, dom_empty_L.
  - intros cfg w w'. by apply reload_serves.
Qed.

(** ** Concrete runs *)

(** A reload that removes [log], adds [cache] and changes [db]. *)
Definition example_reloaded : Config := example_cfg [
  example_service "web" ["db"; "net"] 100 false;
  example_service "db" ["net"] 50 true;
  example_service "net" [] 10 false;
  example_service "cache" [] 100 true ].

Definition example_running : World :=
  (boot (H := quiet_host) (H1 := canonical_hash_order) example_supervisor example_boot).2.

Lemma reload_sequence_witness :
  let r := reload (H := quiet_host) (H1 := canonical_hash_order) example_reloaded example_running in
  r.1 = Some (Ok tt) ∧
  ∃ new, hist r.2 = new ++ hist example_running ∧
    steps_of new = reload_steps (H0 := canonical_hash_order)
      (sh_config (entered (H := quiet_host) example_running)) example_reloaded.
Proof.
  intros r. assert (r.1 = Some (Ok tt)) as Hr by (vm_compute; reflexivity). split; [exact Hr|].
  refine (reload_sequence (H := quiet_host) (H0 := canonical_hash_order) example_reloaded example_running r.2 _).
  rewrite <-Hr. exact (surjective_pairing r).
Defined.

Example reload_example :
  reload_steps (H0 := canonical_hash_order) (example_cfg example_services) example_reloaded
  = [Sent "log" CtlStop; Paused (from_millis 200); Sent "log" CtlQuit;
     Sent "db" CtlRestart; Monitored "cache"; Sent "cache" (CtlStart false)].
Proof. vm_compute. reflexivity. Qed.

Lemma serves_configuration_witness :
  (boot (H := quiet_host) (H1 := canonical_hash_order) example_supervisor example_boot).1 = Some (Ok tt) ∧
  served (shared example_running).
Proof.
  assert ((boot (H := quiet_host) (H1 := canonical_hash_order) example_supervisor example_boot).1 = Some (Ok tt)) as Hr
    by (vm_compute; reflexivity).
  split; [exact Hr|].
  refine (proj1 (serves_configuration (H := quiet_host) (H0 := canonical_hash_order) example_supervisor
    (example_cfg example_services) example_hub [] (λ _ _, eq_refl)) example_running _).
  rewrite <-Hr. exact (surjective_pairing _).
Defined.
