(* ===== verification/Events.v ===== *)
(** The operations of the supervisor only do routine things: they read and write
    files, send messages, log, show, wait; they do not answer clients, run
    processes or end the daemon. *)

From S2P Require Import Prelude Constants Error Security Config Graph Protocol Logs Watch Reaper.
From S2P Require Import Runtime World Console Logic EnvFile Service Store Supervisor EarlyBoot Describe.
From S2P Require Import Version OtelEnv DaemonInfo.
#[local] Open Scope stdpp_scope.

Definition routine (e : Event) : bool :=
  match e with
  | EvStep _ _ | EvPoll | EvNow | EvUtc | EvSleep _ | EvTimedWait _ | EvLog _ | EvConsole _ _ | EvSend _ _ _
  | EvMonitor _ _ | EvReaperThread | EvRead _ | EvWrite _ _ | EvRename _ _ | EvMkdirs _
  | EvReadDir _ | EvMetadata _ => true
  | _ => false
  end.

(** [m] only does routine things. *)
#[global] Abbreviation routinely m := (emits (λ e, Is_true (routine e)) m).

(** Computations that only read and write files. *)
Definition filing (e : Event) : bool :=
  match e with
  | EvStep _ _ | EvPoll | EvUtc | EvRead _ | EvWrite _ _ | EvRename _ _ | EvMkdirs _ | EvReadDir _ | EvMetadata _ => true
  | _ => false
  end.

#[global] Abbreviation files_only m := (emits (λ e, Is_true (filing e)) m).

Create HintDb filing discriminated.

Section filing.
Context `{Host, Nss, Json, DataDir, !FileTimes, VersionEnv}.

Lemma filing_fs_exists p : files_only (fs_exists p).
Proof. unfold fs_exists. emits_solve. Qed.
Lemma filing_fs_read p : files_only (fs_read p).
Proof. unfold fs_read. emits_solve. Qed.
Lemma filing_fs_mkdirs p : files_only (fs_mkdirs p).
Proof. unfold fs_mkdirs. emits_solve. Qed.
Lemma filing_fs_write p d : files_only (fs_write p d).
Proof. unfold fs_write. emits_solve. Qed.
Lemma filing_fs_rename p q : files_only (fs_rename p q).
Proof. unfold fs_rename. emits_solve. Qed.
#[local] Hint Resolve filing_fs_exists filing_fs_read filing_fs_mkdirs filing_fs_write
  filing_fs_rename : emits.

Lemma filing_write_json_atomic p r : files_only (write_json_atomic p r).
Proof. unfold write_json_atomic. emits_solve. Qed.
#[local] Hint Resolve filing_write_json_atomic : emits.

Lemma filing_load_override p : files_only (load_override p).
Proof. unfold load_override. emits_solve. Qed.
#[local] Hint Resolve filing_load_override : emits.

Lemma filing_walk fuel root rel out : files_only (walk fuel root rel out).
Proof.
  revert rel out. induction fuel as [|fuel IH]; intros rel out; cbn [walk]; [emits_solve|].
  apply emits_bind; [emits_solve|intros [entries|e]; [|emits_solve]].
  revert out. generalize (merge_sort entry_le entries). intros l. induction l as [|[name ft] l IHl]; intros out; [emits_solve|].
  destruct ft as [[]|e]; [apply emits_bind; [apply IH|intros [?|?]; [apply IHl|emits_solve]]|apply IHl..|emits_solve].
Qed.
#[local] Hint Resolve filing_walk : emits.

Lemma filing_collect_dropins root : files_only (collect_dropin_rel_paths root).
Proof. unfold collect_dropin_rel_paths. emits_solve. Qed.
#[local] Hint Resolve filing_collect_dropins : emits.

Lemma filing_extract_service_json p name : files_only (extract_service_json p name).
Proof. unfold extract_service_json. emits_solve. Qed.
#[local] Hint Resolve filing_extract_service_json : emits.

Lemma filing_find_in_dropins root name rels found : files_only (find_in_dropins root name rels found).
Proof. revert found. induction rels as [|rel rels IH]; intros found; cbn [find_in_dropins]; emits_solve. Qed.
#[local] Hint Resolve filing_find_in_dropins : emits.

Lemma filing_find_service_source d p name : files_only (find_service_source d p name).
Proof. unfold find_service_source. emits_solve. Qed.

Lemma filing_load_from paths out : files_only (load_from paths out).
Proof.
  revert out. induction paths as [|p paths IH]; intros out; cbn [load_from]; [emits_solve|].
  unfold read_section_from. emits_solve.
Qed.
#[local] Hint Resolve filing_load_from : emits.

Lemma filing_version_info : files_only version_info.
Proof. unfold version_info, version_load. emits_solve. Qed.

Lemma filing_open_telemetry : files_only open_telemetry.
Proof. unfold open_telemetry, overlay, read_file_map. emits_solve. Qed.

Lemma filing_hostname : files_only hostname.
Proof. unfold hostname. emits_solve. Qed.

(** *** Configuration *)

Lemma filing_load_paths_into paths into : files_only (load_paths_into paths into).
Proof.
  revert into. induction paths as [|p paths IH]; intros into; cbn [load_paths_into]; [emits_solve|].
  unfold load_file. emits_solve.
Qed.
#[local] Hint Resolve filing_load_paths_into : emits.

Lemma filing_finish_load c : files_only (finish_load c).
Proof. unfold finish_load, load_into_cache, load_paths, env_install. emits_solve. Qed.
#[local] Hint Resolve filing_finish_load : emits.

Lemma filing_merge_files root rels services : files_only (merge_files root rels services).
Proof. revert services. induction rels as [|rel rels IH]; intros services; cbn [merge_files]; emits_solve. Qed.
#[local] Hint Resolve filing_merge_files : emits.

Lemma filing_load_or_create config example override dropins :
  files_only (load_or_create_with_dropins config example override dropins).
Proof.
  unfold load_or_create_with_dropins, create_if_missing, save_config, merge_service_dropins. emits_solve.
Qed.

Lemma filing_load_otel `{HashOrder} path : files_only (load_otel path).
Proof. unfold load_otel. emits_solve. Qed.

Lemma filing_peek_early_boot p : files_only (peek_early_boot_capture p).
Proof. unfold peek_early_boot_capture. emits_solve. Qed.

Lemma filing_write_captured path out : files_only (write_captured path out).
Proof. unfold write_captured. emits_solve. Qed.
End filing.

Lemma filing_routine `{Host} {A} (m : M A) : files_only m → routinely m.
Proof. apply emits_weaken. by intros []. Qed.

#[export] Hint Resolve filing_fs_exists filing_fs_read filing_fs_mkdirs filing_fs_write filing_fs_rename
  filing_write_json_atomic filing_load_override filing_find_service_source filing_version_info
  filing_open_telemetry filing_hostname filing_load_or_create filing_load_otel filing_peek_early_boot
  filing_write_captured : filing.
#[export] Hint Extern 5 (emits _ _) => (apply filing_routine; solve [eauto with filing]) : emits.

Section routine.
Context `{Host, Nss, HashOrder, Json, DataDir, !FileTimes, VersionEnv, Process}.
Variable self : Supervisor.
#[local] Abbreviation R := (λ e, Is_true (routine e)).

Lemma routine_emit service level msg : routinely (emit service level msg).
Proof. unfold emit, publish_line. emits_solve. Qed.
Lemma routine_emit_init level msg : routinely (emit_init level msg).
Proof. apply routine_emit. Qed.
#[local] Hint Resolve routine_emit_init : emits.

Lemma routine_list : routinely list_.
Proof. unfold list_. emits_solve. Qed.
#[local] Hint Resolve routine_list : emits.

Lemma routine_notify_watchers : routinely notify_watchers.
Proof. unfold notify_watchers. emits_solve. Qed.
#[local] Hint Resolve routine_notify_watchers : emits.

Lemma routine_watch_subscribe keys : routinely (watch_subscribe keys).
Proof. unfold watch_subscribe. emits_solve. Qed.

Lemma routine_status name : routinely (status name).
Proof. unfold status. emits_solve. Qed.

Lemma routine_send_ctl name msg : routinely (send_ctl name msg).
Proof. unfold send_ctl. emits_solve. Qed.
#[local] Hint Resolve routine_send_ctl : emits.

Lemma routine_start_service name force : routinely (start_service name force).
Proof. unfold start_service, load_enabled, service_cfg. emits_solve. Qed.
Lemma routine_stop_service name : routinely (stop_service name).
Proof. unfold stop_service. emits_solve. Qed.
Lemma routine_restart_service name : routinely (restart_service name).
Proof. unfold restart_service, load_enabled. emits_solve. Qed.

Lemma routine_set_state name st pid : routinely (set_state name st pid).
Proof. unfold set_state, update_runtime. emits_solve. Qed.
#[local] Hint Resolve routine_set_state : emits.

Lemma routine_apply_enabled name b : routinely (apply_enabled name b).
Proof. unfold apply_enabled, shared_set_enabled. emits_solve. Qed.
#[local] Hint Resolve routine_apply_enabled : emits.

Lemma routine_set_enabled name b : routinely (set_enabled self name b).
Proof. unfold set_enabled, save_override. emits_solve. Qed.

Lemma routine_describe name output : routinely (describe self name output).
Proof. unfold describe, read_running_identity. emits_solve. Qed.

Lemma routine_info : routinely (info self).
Proof.
  unfold info. emits_solve.
Qed.

(** *** Boot, reload, shutdown *)

Lemma routine_spawn_monitor name : routinely (spawn_monitor name).
Proof. unfold spawn_monitor. emits_solve. Qed.
#[local] Hint Resolve routine_spawn_monitor : emits.

Lemma routine_send_or_log verb name msg : routinely (send_or_log verb name msg).
Proof. unfold send_or_log. emits_solve. Qed.
#[local] Hint Resolve routine_send_or_log : emits.

Lemma routine_console_mirror level msg : routinely (console_mirror (sv_console self) level msg).
Proof. unfold console_mirror, publish_line. emits_solve. Qed.
#[local] Hint Resolve routine_console_mirror : emits.

Lemma routine_console_status name ok : routinely (console_status (sv_console self) name ok).
Proof. unfold console_status. emits_solve. Qed.
#[local] Hint Resolve routine_console_status : emits.

Lemma routine_wait_settled name timeout : routinely (wait_settled name timeout).
Proof.
  unfold wait_settled. apply emits_bind; [emits_solve|intros now]. apply emits_bind; [emits_solve|intros deadline].
  apply emits_bind; [emits_solve|intros n]. induction n as [|n IH]; cbn [wait_settled_loop]; emits_solve.
Qed.
#[local] Hint Resolve routine_wait_settled : emits.

Lemma routine_boot : routinely (boot self).
Proof.
  unfold boot, ensure_reaper_thread, boot_foreground, boot_background, console_starting, console_ok, console_fail.
  emits_solve.
Qed.

Lemma routine_stop_all_ordered : routinely stop_all_ordered.
Proof. unfold stop_all_ordered. emits_solve. Qed.

Lemma routine_reload cfg : routinely (reload cfg).
Proof. unfold reload, warn_if, reload_remove, reload_service. emits_solve. Qed.
End routine.

#[export] Hint Resolve routine_emit_init routine_list routine_notify_watchers routine_watch_subscribe
  routine_status routine_start_service routine_stop_service routine_restart_service routine_set_enabled
  routine_describe routine_info routine_boot routine_stop_all_ordered routine_reload : emits.

(** ** What loading a configuration may change *)

(** What a section does to the files; a write may also leave a part of its text. *)
Inductive file_action : gmap string string → gmap string string → Prop :=
  | fa_write path text m : file_action m (<[path := text]> m)
  | fa_rename from to text m :
      m !! from = Some text → file_action m (<[to := text]> (delete from m)).

#[local] Hint Constructors file_action : core.

Section files_kept.
Context `{Host, Nss, Json, DataDir}.
Context (G : Shared → Shared → Prop) `{!Reflexive G}.
Context (on_files : ∀ m s, file_action (sh_files s) m → G s (set_files m s)) (on_env : ∀ m s, G s (set_env m s)).
#[local] Hint Resolve on_files on_env : core.

Lemma files_fs_exists p : guarantees G (fs_exists p).
Proof. unfold fs_exists. keeps_solve. Qed.
Lemma files_fs_read p : guarantees G (fs_read p).
Proof. unfold fs_read. keeps_solve. Qed.
Lemma files_fs_mkdirs p : guarantees G (fs_mkdirs p).
Proof. unfold fs_mkdirs. keeps_solve. Qed.
Lemma files_fs_write p d : guarantees G (fs_write p d).
Proof.
  unfold fs_write. apply keeps_bind; [by apply keeps_asks|intros [[e|] [c|]]]; apply keeps_atomic; simpl; auto.
Qed.
Lemma files_fs_rename p q : guarantees G (fs_rename p q).
Proof.
  unfold fs_rename. apply keeps_bind; [by apply keeps_asks|intros [e|]]; apply keeps_atomic; simpl; auto.
  intros s. destruct (sh_files s !! p) eqn:Hp; simpl; auto.
Qed.
#[local] Hint Resolve files_fs_exists files_fs_read files_fs_mkdirs files_fs_write files_fs_rename : keeps.

Lemma files_write_json p r : guarantees G (write_json_atomic p r).
Proof. unfold write_json_atomic. keeps_solve. Qed.
#[local] Hint Resolve files_write_json : keeps.

Lemma files_walk fuel root rel out : guarantees G (walk fuel root rel out).
Proof.
  revert rel out. induction fuel as [|fuel IH]; intros rel out; cbn [walk]; [keeps_solve|].
  apply keeps_bind; [by apply keeps_asks|intros [entries|e]; [|apply keeps_ret]].
  revert out. generalize (merge_sort entry_le entries). intros l. induction l as [|[name ft] l IHl]; intros out; [apply keeps_ret|].
  destruct ft as [[]|e]; [apply keeps_bind; [apply IH|intros [?|?]; [apply IHl|apply keeps_ret]]|apply IHl..|apply keeps_ret].
Qed.
#[local] Hint Resolve files_walk : keeps.

Lemma files_load_paths_into paths into : guarantees G (load_paths_into paths into).
Proof.
  revert into. induction paths as [|p paths IH]; intros into; cbn [load_paths_into]; [keeps_solve|].
  unfold load_file. keeps_solve.
Qed.
#[local] Hint Resolve files_load_paths_into : keeps.

Lemma files_finish_load c : guarantees G (finish_load c).
Proof. unfold finish_load, load_into_cache, load_paths, env_install. keeps_solve. auto. Qed.
#[local] Hint Resolve files_finish_load : keeps.

Lemma files_merge_files root rels services : guarantees G (merge_files root rels services).
Proof. revert services. induction rels as [|rel rels IH]; intros services; cbn [merge_files]; keeps_solve. Qed.
#[local] Hint Resolve files_merge_files : keeps.

Lemma files_load_or_create config example override dropins :
  guarantees G (load_or_create_with_dropins config example override dropins).
Proof.
  unfold load_or_create_with_dropins, create_if_missing, save_config, merge_service_dropins,
    collect_dropin_rel_paths, load_override.
  keeps_solve.
Qed.
End files_kept.
