(* ===== verification/Requests.v ===== *)
(** The control socket: the frames and the server options of [ipc.rs], and the
    handling of requests in [init.rs].

    The frame format, the server and JSON belong to libraries: encoding a reply,
    decoding a request and the faults of writing and binding are parameters. *)

From Stdlib Require Import Ascii.
From S2P Require Import Prelude Constants RustStr Error Security Config Graph Protocol Logs Watch.
From S2P Require Import Reaper Runtime World Console Logic EnvFile Service Store Supervisor Describe.
From S2P Require Import Version OtelEnv DaemonInfo.
#[local] Open Scope stdpp_scope.

(** [BindError] *)
Inductive BindError :=
  | AlreadyRunning (process_name location : string)
  | BindIo (path : string) (source : io_error).

(** What the libraries do with frames and sockets. *)
Class Wire `{Host, Json} := {
  encode_response : Response json_value → string;
  decode_request : json_value → result Request string;
  frame_fault : list Event → string → option string;
  bind_fault : list Event → string → option BindError;
  (** why a command cannot be added to a router *)
  command_fault : string → option string;
}.

(** ** The server: [ipc.rs] *)

Definition map_frame (e : string) : Error.t := Error.Ipc e.

Definition map_bind (e : BindError) : Error.t :=
  match e with
  | AlreadyRunning process_name location =>
      Error.Ipc (process_name +:+ " already running at " +:+ location)
  | BindIo path source => Error.io_at path source
  end.

(** [BindOptions] and the fields of [AcceptPolicy] that vary. *)
Record ServeOptions := mkServeOptions {
  so_path : string;
  so_mode : N;
  so_chown : option (N * N);
  so_daemon_uid : N;
  so_allow_uids : list N;
}.

(** The choice of mode and owner in [serve]; the modes are 0600 and 0660. *)
Definition serve_options (path : string) (allow : IpcAllow) : Result ServeOptions :=
  let? '(mode, chown) :=
    if decide (ia_allow_uids allow = []) then Ok (384%N, None)
    else match ia_socket_gid allow with
    | Some gid => Ok (432%N, Some (ia_daemon_uid allow, gid))
    | None => Err (Error.Config "socketAllowUsers set but no socket group could be resolved")
    end in
  Ok (mkServeOptions path mode chown (ia_daemon_uid allow) (ia_allow_uids allow)).

(** [IpcAllow::default] *)
Definition default_ipc_allow `{Nss} : IpcAllow := mkIpcAllow current_uid [] None.

(** The commands. *)
Definition command_names : list string :=
  ["list"; "start"; "stop"; "restart"; "status"; "describe"; "enable"; "logs"; "info"; "shutdown"; "watch"].

(** [handler_router]: the names of the commands it handles. *)
Definition handler_router `{Wire} : Result (list string) :=
  try_fold (λ router name,
    match command_fault name with Some e => Err (Error.Other e) | None => Ok (router ++ [name]) end)
    [] command_names.

(** The [type] of a request: its variant in snake case. *)
Definition request_type (req : Request) : string :=
  match req with
  | RqList => "list"
  | RqStart _ _ => "start"
  | RqStop _ => "stop"
  | RqRestart _ => "restart"
  | RqStatus _ => "status"
  | RqDescribe _ _ => "describe"
  | RqEnable _ _ => "enable"
  | RqLogs _ _ _ => "logs"
  | RqInfo => "info"
  | RqShutdown _ => "shutdown"
  | RqWatch _ => "watch"
  end.

(** [RejectReason] *)
Inductive RejectReason := RejectAuth | RejectBusy.

Section replies.
Context {json_value : Type}.

(** [InitHooks]: the replies to what is not handled. *)
Definition hook_unknown (type_name : string) : Response json_value :=
  RsError ("unknown variant `" +:+ type_name +:+ "`") None.
Definition hook_error (err : string) : Response json_value := RsError err None.
Definition hook_reject (reason : RejectReason) : Response json_value :=
  match reason with
  | RejectAuth => RsError "permission denied" (Some "permission_denied")
  | RejectBusy =>
      RsError ("too many concurrent IPC clients (max " +:+ pretty MAX_IPC_CLIENTS +:+ ")") (Some "busy")
  end.

(** [error_response] *)
Definition error_response (e : Error.t) : Response json_value :=
  RsError (Error.to_string e) (Error.code e).
End replies.

(** ** The log stream of a follower *)

Inductive LogReceived := LogMessage (line : LogLine) | LogTimeout | LogDisconnected.

(** [Receiver::recv_timeout] on the channel of a follower: its sender lives while
    the hub holds it. *)
Definition hub_recv (id : nat) (h : LogHub) : LogReceived * LogHub :=
  match lh_channels h !! id with
  | Some (line :: q) =>
      (LogMessage line, set_followers (lh_followers h) (<[id := q]> (lh_channels h)) (lh_next_channel h) h)
  | Some [] => (if decide (id ∈ lh_followers h) then LogTimeout else LogDisconnected, h)
  | None => (LogDisconnected, h)
  end.

(** ** Handling a request: [init.rs] *)

Section requests.
Context `{Host, Nss, Json, DataDir, !FileTimes, VersionEnv, Process, !Wire}.
Variable self : Supervisor.

(** [serve]; the clients are handled by threads of the server. *)
Definition serve (path : string) (allow : IpcAllow) : M (Result unit) :=
  opts <-? mret (serve_options path allow);
  _ <-? mret handler_router;
  asks (λ h, bind_fault h (so_path opts)) (EvListen (so_path opts)) ≫= λ fault,
  mret (match fault with None => Ok tt | Some e => Err (map_bind e) end).

(** [write_frame_to] of an encoded message, and [write_frame] *)
Definition write_frame_to (payload : string) : M (Result unit) :=
  asks (λ h, frame_fault h payload) (EvFrame payload) ≫= λ fault,
  mret (match fault with None => Ok tt | Some e => Err (map_frame e) end).

Definition write_frame (msg : Response json_value) : M (Result unit) := write_frame_to (encode_response msg).

Definition respond_start (res : Result string) : M (Result unit) :=
  match res with
  | Ok message => write_frame (RsOk (Some message))
  | Err e => write_frame (error_response e)
  end.

Definition respond_result (res : Result unit) : M (Result unit) :=
  match res with
  | Ok _ => write_frame (RsOk None)
  | Err e => write_frame (error_response e)
  end.

(** [HEARTBEAT] *)
Definition LOG_HEARTBEAT : N := from_secs 10.

(** The loop over the lines a follower receives, for at most [n] rounds. *)
Fixpoint follow_logs (n : nat) (id : nat) (name : option string) : M unit :=
  match n with
  | O => no_return
  | S n =>
      effect (EvRecv LOG_HEARTBEAT);;
      received ← atomic (λ s, let '(r, h) := hub_recv id (sh_hub s) in (r, set_hub h s));
      match received with
      | LogMessage line =>
          if (match name with Some nme => bool_decide (ln_service line ≠ nme) | None => false end)
          then follow_logs n id name
          else
            r ← write_frame (RsLog line);
            if is_ok r then follow_logs n id name else mret tt
      | LogTimeout =>
          r ← write_frame RsHeartbeat;
          if is_ok r then follow_logs n id name else mret tt
      | LogDisconnected => mret tt
      end
  end.

(** The slot of a subscription, which lives as long as it. *)
Definition slot_of (id : nat) (h : WatchHub) : Slot :=
  default (mkSlot 0 None) (fo_slot <$> find_first (λ f, bool_decide (fo_id f = id)) (wh_followers h)).

(** The loop of [WatchSub::wait_timeout]; after [n] wakeups the wait times out. *)
Fixpoint wait_timeout_loop (n : nat) (id : nat) (seen_gen deadline : N) : M WaitOutcome :=
  slot ← reads (λ s, slot_of id (sh_watch s));
  match (if decide (sl_gen slot ≠ seen_gen) then sl_snapshot slot else None) with
  | Some snap => mret (Snapshot (sl_gen slot) snap)
  | None =>
      now ← instant_now;
      if decide (deadline ≤ now)%N then mret Timeout
      else
        effect (EvTimedWait (deadline - now));;
        match n with
        | O =>
            slot ← reads (λ s, slot_of id (sh_watch s));
            mret (match (if decide (sl_gen slot = seen_gen) then None else sl_snapshot slot) with
                  | Some snap => Snapshot (sl_gen slot) snap
                  | None => Timeout
                  end)
        | S n => wait_timeout_loop n id seen_gen deadline
        end
  end.

Definition wait_timeout (id : nat) (seen_gen timeout : N) : M WaitOutcome :=
  now ← instant_now;
  deadline ← instant_add now timeout;
  n ← asks wakeups EvPoll;
  wait_timeout_loop n id seen_gen deadline.

(** The loop over the snapshots of a watcher, for at most [n] rounds. *)
Fixpoint watch_stream (n : nat) (id : nat) (seen : N) : M unit :=
  match n with
  | O => no_return
  | S n =>
      outcome ← wait_timeout id seen WATCH_HEARTBEAT;
      match outcome with
      | Snapshot gen services =>
          r ← write_frame (RsList services);
          if is_ok r then watch_stream n id gen else mret tt
      | Timeout =>
          r ← write_frame RsHeartbeat;
          if is_ok r then watch_stream n id seen else mret tt
      end
  end.

Definition busy_response : Response json_value :=
  RsError ("too many concurrent watch clients (max " +:+ pretty MAX_WATCH_FOLLOWERS +:+ ")") (Some "busy").

(** The lines a log request starts with. *)
Definition log_snapshot (name : option string) (lines : nat) (h : LogHub) : list LogLine :=
  match name with
  | Some nme => snapshot_service nme lines h
  | None => snapshot_mixed lines h
  end.

(** [handle_ipc]; a stream takes at most [n] rounds. *)
Definition handle_ipc (n : nat) (lines_default : nat) (req : Request) : M (Result unit) :=
  match req with
  | RqList =>
      services ← list_;
      write_frame (RsList services)
  | RqStatus name =>
      r ← status name;
      match r with
      | Ok status => write_frame (RsStatus status)
      | Err e => write_frame (error_response e)
      end
  | RqDescribe name output =>
      r ← describe self name output;
      match r with
      | Ok describe => write_frame (RsDescribe describe)
      | Err e => write_frame (error_response e)
      end
  | RqInfo =>
      i ← info self;
      write_frame (RsInfo i)
  | RqStart name force => start_service name force ≫= respond_start
  | RqStop name => stop_service name ≫= respond_result
  | RqRestart name => restart_service name ≫= respond_result
  | RqEnable name enabled => set_enabled self name enabled ≫= respond_result
  | RqLogs name follow lines =>
      snapshot ← reads (λ s, log_snapshot name (default lines_default lines) (sh_hub s));
      _ <-? try_each_m snapshot (λ line, write_frame (RsLog line));
      if follow then
        id ← atomic (λ s, let '(id, h) := hub_subscribe (sh_hub s) in (id, set_hub h s));
        follow_logs n id name;;
        updates (λ s, set_hub (hub_close id (sh_hub s)) s);;
        mret (Ok tt)
      else write_frame (RsOk None)
  | RqWatch label_keys =>
      sub ← watch_subscribe label_keys;
      match sub with
      | None => write_frame busy_response
      | Some id =>
          watch_stream n id 0;;
          updates (λ s, set_watch (watch_drop id (sh_watch s)) s);;
          mret (Ok tt)
      end
  | RqShutdown mode =>
      _ <-? write_frame (RsOk None);
      updates (λ s, set_signals (request_shutdown mode (sh_signals s)) s);;
      mret (Ok tt)
  end.

(** [dispatch_handler] *)
Definition dispatch_handler (n lines_default : nat) (body : json_value) : M (result unit string) :=
  match decode_request body with
  | Err e => mret (Err e)
  | Ok req => handle_ipc n lines_default req ≫= λ r, mret (map_err Error.to_string r)
  end.
End requests.
