(* ===== verification/Answers.v ===== *)
(** What each request is answered with: the replies, tied to what the daemon did to
    handle it.

    [answer] says of the events of handling a request, and of the replies written, that
    the replies are the ones of the operation; [replied_handle_ipc] proves it for
    [handle_ipc].  The operations are described by the state they found, the messages
    they delivered and the lines they received, not by the functions that compute the
    replies. *)

From Stdlib Require Import Ascii.
From S2P Require Import Prelude Constants RustStr Error Security Config Graph Protocol Logs Watch.
From S2P Require Import Reaper Runtime World Console Logic Trace EnvFile Service Store Supervisor Describe.
From S2P Require Import Version OtelEnv DaemonInfo Isolation Timing Acts Sequencing Events Requests.
#[local] Open Scope stdpp_scope.

(** ** Frames *)

Definition frame_of (e : Event) : option string := match e with EvFrame p => Some p | _ => None end.

(** The frames written among new events, oldest first. *)
Definition frames (new : list Event) : list string := steps_by frame_of new.

Lemma steps_by_app {S} (view : Event → option S) n1 n2 : steps_by view (n2 ++ n1) = steps_by view n1 ++ steps_by view n2.
Proof. unfold steps_by. by rewrite reverse_app, omap_app. Qed.

Lemma frames_app n1 n2 : frames (n2 ++ n1) = frames n1 ++ frames n2.
Proof. apply steps_by_app. Qed.

Lemma steps_by_unseen {S} (view : Event → option S) new : Forall (unseen view) new → steps_by view new = [].
Proof.
  intros Hn%Forall_reverse. unfold steps_by. induction Hn as [|e l He _ IH]; [done|]. simpl. by rewrite He.
Qed.

Lemma routine_unseen `{Host} {A} (m : M A) : routinely m → emits (unseen frame_of) m.
Proof. apply emits_weaken. by intros []. Qed.

(** ** What the daemon did *)

(** One section found the state so, and left it. *)
Definition looked_at (P : Shared → Prop) : Acts := one (λ _ e, ∃ s, e = EvStep s s ∧ P s).

(** One section changed the state so. *)
Definition changed (R : Shared → Shared → Prop) : Acts := one (λ _ e, ∃ s s', e = EvStep s s' ∧ R s s').

(** The computation was carried out, with the result. *)
Definition carried_out `{Host} {A} (m : M A) (a : A) : Acts := λ h new,
  ∃ s w', m (mkWorld s h) = (Some a, w') ∧ hist w' = new ++ h.

Lemma acts_carried_out `{Host} {A} (P : Event → Prop) (m : M A) : emits P m → acts m (carried_out m).
Proof.
  intros Hm h w a w' <- Hr. pose proof (Hm w) as Hw. rewrite Hr in Hw. destruct Hw as (new & Hh & _). exists new.
  split; [done|]. exists (shared w), w'. by destruct w.
Qed.

Lemma acts_reads `{Host} {A} (f : Shared → A) : acts (reads f) (λ a, looked_at (λ s, a = f s)).
Proof. intros h. apply acts_atomic. intros s. eexists. split; [done|]. by exists s. Qed.

Lemma looked_mono (P Q : Shared → Prop) h n : (∀ s, P s → Q s) → looked_at P h n → looked_at Q h n.
Proof. intros HP (e & -> & s & -> & Hs). eexists. split; [done|]. exists s. eauto. Qed.

(** *** Services *)

(** What a status says of a service. *)
Definition status_shows (st : ServiceStatus) (name : string) (rt : Runtime) (labels : gmap string string) : Prop :=
  ss_name st = name ∧ ss_state st = rt_state rt ∧ ss_pid st = rt_pid rt ∧ ss_restarts st = rt_restarts rt ∧
  ss_liveness_failures st = rt_liveness_failures rt ∧ ss_enabled st = rt_enabled rt ∧ ss_labels st = labels.

(** A status of each configured service that has a runtime, in the order of the configuration. *)
Definition lists (s : Shared) (services : list ServiceStatus) : Prop :=
  Forall2 (λ svc st, ∃ rt, sh_runtimes s !! sc_name svc = Some rt ∧ status_shows st (sc_name svc) rt (sc_labels svc))
    (filter (λ svc, is_Some (sh_runtimes s !! sc_name svc)) (cf_services (sh_config s))) services.

(** What the description of a service says of its runtime and of the other services, as
    found at a time and, a moment later, of the configuration. *)
Definition describes `{Host} {J} (d : ServiceDescribe J) (name : string) (output : DescribeOutput)
    (now : N) (s1 s2 : Shared) : Prop :=
  ∃ rt svc, sh_runtimes s1 !! name = Some rt ∧ cf_get name (sh_config s2) = Some svc ∧
    status_shows (sd_status d) name rt (sc_labels svc) ∧
    (sd_uptime_secs d = match rt_state rt, rt_running_since rt with
      | ServiceState.Running, Some since => Some ((now - since) / from_secs 1)%N
      | _, _ => None
      end) ∧
    sd_events d = to_protocol rfc3339_ms <$> last_n EVENT_RETURN (rt_events rt) ∧
    (∀ n, n ∈ dn_name <$> sd_depends_on d ↔ n ∈ sc_depends_on svc) ∧
    (∀ n, n ∈ dn_name <$> sd_dependents d ↔ ∃ o, o ∈ cf_services (sh_config s2) ∧ sc_name o = n ∧ name ∈ sc_depends_on o) ∧
    sd_security_context d = sc_security_context svc ∧ (output = Human → sd_source d = None).

(** *** Messages to monitors *)

(** A message that cannot be sent: there is no channel, or nobody listens. *)
Definition undelivered (name : string) (e : Error.t) : Prop :=
  e = Error.UnknownService name ∨ e = Error.Service name "control channel closed".

(** The message was handed to the monitor, and this is what came of it. *)
Definition handed (name : string) (msg : CtlMsg) (r : Result unit) : Acts := λ h new,
  (quiet ⨾ delivered name msg (is_ok r)) h new ∧ ∀ e, r = Err e → undelivered name e.

(** The check that a service is enabled. *)
Definition turned_down (name : string) (e : Error.t) (s : Shared) : Prop :=
  match sh_runtimes s !! name with
  | None => e = Error.UnknownService name
  | Some rt => rt_enabled rt = false ∧ e = Error.Disabled name
  end.

Definition allowed (name : string) (s : Shared) : Prop :=
  ∃ rt, sh_runtimes s !! name = Some rt ∧ rt_enabled rt = true.

(** Why the start of a service is refused, in the state found. *)
Definition start_refused (name : string) (e : Error.t) (s : Shared) : Prop :=
  turned_down name e s ∨
  (cf_get name (sh_config s) = None ∧ e = Error.UnknownService name) ∨
  (∃ dep, sh_runtimes s !! dep = None ∧ e = Error.UnknownService dep).

(** What a start is answered with, by the dependencies not ready. *)
Definition start_text (name : string) (force : bool) (waiting : list string) : string :=
  match waiting, force with
  | [], _ => name +:+ ": starting"
  | _, true => name +:+ ": starting with --force (unmet dependencies: " +:+ join ", " waiting +:+ ")"
  | _, false => name +:+ ": waiting for dependencies (" +:+ join ", " waiting +:+ ")"
  end.

(** The service was found enabled, then its configuration and the states of its
    dependencies were looked at, and the start was handed to its monitor. *)
Definition start_handed (name : string) (force : bool) (text : string) (r : Result unit) : Acts := λ h new,
  ∃ svc waiting, text = start_text name force waiting ∧
    (looked_at (allowed name) ⨾ looked_at (λ s, cf_get name (sh_config s) = Some svc) ⨾
     looked_at (λ s, waiting = filter (λ d, dep_met (sh_runtimes s) d = false) (sc_depends_on svc)) ⨾
     handed name (CtlStart force) r) h new.

(** *** Lines and snapshots *)

(** The buffer a log request reads. *)
Definition buffer (name : option string) (h : LogHub) : list LogLine :=
  match name with Some nme => default [] (rb_lines <$> lh_per_service h !! nme) | None => rb_lines (lh_mixed h) end.

(** The last lines of a buffer, as many as asked for. *)
Definition last_lines (n : nat) (b ls : list LogLine) : Prop :=
  ∃ older, b = older ++ ls ∧ length ls = Nat.min n (length b).

(** A follower's channel is made and registered. *)
Definition log_subscribed (id : nat) (s s' : Shared) : Prop :=
  lh_channels (sh_hub s') !! id = Some [] ∧ id ∈ lh_followers (sh_hub s').

(** The line taken from the front of a follower's channel. *)
Definition line_taken (id : nat) (e : Event) : option LogLine :=
  match e with
  | EvStep s s' =>
      match lh_channels (sh_hub s) !! id with
      | Some (line :: q) => if decide (lh_channels (sh_hub s') !! id = Some q) then Some line else None
      | _ => None
      end
  | _ => None
  end.

(** Whether a line is of the named service. *)
Definition wanted (name : option string) (line : LogLine) : bool :=
  match name with Some nme => bool_decide (ln_service line = nme) | None => true end.

Definition is_heartbeat {J} (rsp : Response J) : bool := match rsp with RsHeartbeat => true | _ => false end.

(** A watcher is added, with nothing to show yet. *)
Definition watch_subscribed (id : nat) (keys : list string) (s s' : Shared) : Prop :=
  wh_followers (sh_watch s') = wh_followers (sh_watch s) ++ [mkFollower id keys (mkSlot 0 None)].

(** ** Answers *)

Section answers.
Context `{Host, Nss, Json, DataDir, !FileTimes, VersionEnv, Process, !Wire}.
Variable self : Supervisor.
#[local] Abbreviation Reply := (Response json_value).

(** A reply is written, with success exactly if nothing is wrong with the connection. *)
Definition writes (rsp : Reply) (r : Result unit) : Acts := one (λ h e,
  e = EvFrame (encode_response rsp) ∧
  r = match frame_fault h (encode_response rsp) with None => Ok tt | Some msg => Err (Error.Ipc msg) end).

(** One reply, once the work is done. *)
Definition replying (work : Reply → Acts) (r : Result unit) (rs : list Reply) : Acts := λ h new,
  ∃ rsp, rs = [rsp] ∧ (work rsp ⨾ writes rsp r) h new.

(** The reply to what succeeds without more to say. *)
Definition plain_reply (res : Result unit) : Reply :=
  match res with Ok _ => RsOk None | Err e => error_response e end.

Definition list_work (rsp : Reply) : Acts := λ h new,
  ∃ services, rsp = RsList services ∧ looked_at (λ s, lists s services) h new.

Definition status_work (name : string) (rsp : Reply) : Acts :=
  looked_at (λ s, match sh_runtimes s !! name with
    | Some rt => ∃ st, rsp = RsStatus st ∧ status_shows st name rt (default ∅ (sc_labels <$> cf_get name (sh_config s)))
    | None => rsp = error_response (Error.UnknownService name)
    end).

Definition info_work (rsp : Reply) : Acts := λ h new,
  ∃ i ver otel, rsp = RsInfo i ∧
    (carried_out version_info ver ⨾ carried_out open_telemetry otel ⨾
     looked_at (λ s, di_services_total i = size (sh_runtimes s) ∧ di_socket i = cf_socket (sh_config s) ∧
       ∃ running : gset string, di_services_running i = size running ∧
         ∀ n, n ∈ running ↔ ∃ rt, sh_runtimes s !! n = Some rt ∧ rt_state rt = ServiceState.Running) ⨾
     carried_out hostname (di_hostname i) ⨾
     one (λ h e, e = EvNow ∧ di_uptime_secs i = ((clock h - sv_started_at self) / from_secs 1)%N)) h new ∧
    di_mode i = sv_mode self ∧ di_pid i = process_id ∧
    di_version i = vi_version ver ∧ di_tag_commit i = vi_tag_commit ver ∧ di_build_commit i = vi_build_commit ver ∧
    di_build_time i = vi_build_time ver ∧ di_otel_enabled i = ot_enable otel ∧ di_otel_endpoint i = ot_endpoint otel ∧
    di_otel_protocol i = ot_protocol otel ∧ di_otel_service_name i = ot_service_name otel ∧
    di_otel_export_interval_secs i = ot_export_interval_secs otel.

Definition describe_work (name : string) (output : DescribeOutput) (rsp : Reply) : Acts := λ h new,
  (∃ d s1 s2, rsp = RsDescribe d ∧
    (one (λ h e, e = EvStep s1 s1 ∧ describes d name output (clock h) s1 s2) ⨾ anything ⨾ looked_at (eq s2) ⨾ anything) h new) ∨
  (∃ e, rsp = error_response e ∧
    ((e = Error.UnknownService name ∧
        somewhere (looked_at (λ s, sh_runtimes s !! name = None ∨ cf_get name (sh_config s) = None)) h new) ∨
     (output = Protocol.Json ∧
        (anything ⨾ carried_out (find_service_source (sv_dropins_dir self) (sv_config_path self) name) (Err e)) h new))).

Definition start_work (name : string) (force : bool) (rsp : Reply) : Acts := λ h new,
  (∃ e, rsp = error_response e ∧ every silent h new ∧ somewhere (looked_at (start_refused name e)) h new) ∨
  (∃ text r, rsp = match r with Ok _ => RsOk (Some text) | Err e => error_response e end ∧
    start_handed name force text r h new).

Definition stop_work (name : string) (rsp : Reply) : Acts := λ h new,
  ∃ r, rsp = plain_reply r ∧ handed name CtlStop r h new.

Definition restart_work (name : string) (rsp : Reply) : Acts := λ h new,
  (∃ e, rsp = error_response e ∧ looked_at (turned_down name e) h new) ∨
  (∃ r, rsp = plain_reply r ∧
    (looked_at (allowed name) ⨾ handed name CtlRestart r) h new).

(** A success means that the monitor was told. *)
Definition enable_work (name : string) (enabled : bool) (rsp : Reply) : Acts := λ h new,
  ∃ res, rsp = plain_reply res ∧ carried_out (set_enabled self name enabled) res h new ∧
    (res = Ok tt → (quiet ⨾ delivered name (if enabled then CtlStart false else CtlStop) true) h new).

(** The lines sent after those of the buffer: exactly the wanted ones that the follower
    receives, in order, and heartbeats. *)
Definition log_followed (id : nat) (name : option string) (rest : list Reply) : Acts := λ _ new,
  filter (λ rsp, is_heartbeat rsp = false) rest
  = RsLog <$> filter (λ line, wanted name line = true) (steps_by (line_taken id) new).

(** After the lines of the buffer, the end or the stream; or a write failed before. *)
Definition logs_sent (snapshot : list LogLine) (name : option string) (follow : bool)
    (r : Result unit) (rs : list Reply) : Acts := λ h new,
  (∃ shown left msg, snapshot = shown ++ left ∧ rs = RsLog <$> shown ∧ r = Err (Error.Ipc msg)) ∨
  (∃ rest, rs = (RsLog <$> snapshot) ++ rest ∧
    if follow then
      r = Ok tt ∧ of_some (λ id, anything ⨾ changed (log_subscribed id) ⨾ log_followed id name rest ⨾
        changed (λ _ s', lh_channels (sh_hub s') !! id = None)) h new
    else rest = [RsOk None] ∧ (anything ⨾ writes (RsOk None) r) h new).

Definition logs_work (n : nat) (name : option string) (follow : bool) (r : Result unit) (rs : list Reply) : Acts := λ h new,
  ∃ snapshot, (looked_at (λ s, last_lines n (buffer name (sh_hub s)) snapshot) ⨾ logs_sent snapshot name follow r rs) h new.

(** A snapshot kept for the subscription, or a heartbeat. *)
Definition watched (id : nat) (rsp : Reply) : Acts := λ h new,
  rsp = RsHeartbeat ∨
  ∃ services, rsp = RsList services ∧ somewhere (looked_at (λ s, sl_snapshot (slot_of id (sh_watch s)) = Some services)) h new.

Definition watch_work (keys : list string) (r : Result unit) (rs : list Reply) : Acts := λ h new,
  (rs = [busy_response] ∧
    (looked_at (λ s, MAX_WATCH_FOLLOWERS ≤ length (wh_followers (sh_watch s))) ⨾ writes busy_response r) h new) ∨
  (∃ id, r = Ok tt ∧ (changed (watch_subscribed id keys) ⨾ anything ⨾ (λ h new, Forall (λ rsp, watched id rsp h new) rs) ⨾
    changed (λ _ s', id ∉ fo_id <$> wh_followers (sh_watch s'))) h new).

(** The request for a shutdown is made once its acknowledgement was written. *)
Definition shutdown_work (mode : ShutdownMode.t) (r : Result unit) (rs : list Reply) : Acts := λ h new,
  rs = [RsOk None] ∧
  (writes (RsOk None) r ⨾
    if is_ok r then changed (λ _ s', (take_shutdown (sh_signals s')).1 = Some mode) else nothing) h new.

(** The replies to a request, by what was done. *)
Definition answer (lines_default : nat) (req : Request) (r : Result unit) (rs : list Reply) : Acts :=
  match req with
  | RqList => replying list_work r rs
  | RqInfo => replying info_work r rs
  | RqStatus name => replying (status_work name) r rs
  | RqDescribe name output => replying (describe_work name output) r rs
  | RqStart name force => replying (start_work name force) r rs
  | RqStop name => replying (stop_work name) r rs
  | RqRestart name => replying (restart_work name) r rs
  | RqEnable name enabled => replying (enable_work name enabled) r rs
  | RqLogs name follow lines => logs_work (default lines_default lines) name follow r rs
  | RqWatch keys => watch_work keys r rs
  | RqShutdown mode => shutdown_work mode r rs
  end.
End answers.

(** ** The operations *)

Section operations.
Context `{Host, Nss, Json, DataDir, !FileTimes, VersionEnv, Process}.
Variable self : Supervisor.

Lemma emits_any {A} (P : Event → Prop) (m : M A) : emits P m → emits (λ _, True) m.
Proof. by apply emits_weaken. Qed.

Lemma status_of_shows name rt labels : status_shows (status_of name rt labels) name rt labels.
Proof. done. Qed.

Lemma list_services_lists s : lists s (list_services s).
Proof.
  unfold lists, list_services. induction (cf_services (sh_config s)) as [|svc l IH]; [constructor|]. simpl.
  destruct (sh_runtimes s !! sc_name svc) as [rt|] eqn:Hrt; simpl.
  - rewrite filter_cons_True by (by rewrite Hrt). constructor; [|exact IH]. exists rt. by split.
  - rewrite filter_cons_False by (rewrite Hrt; by intros []). exact IH.
Qed.

Lemma acts_list : acts list_ (λ services, looked_at (λ s, lists s services)).
Proof.
  intros h. eapply acts_call; [apply acts_reads|]. intros services n. apply looked_mono.
  intros s ->. apply list_services_lists.
Qed.

Lemma running_names (m : gmap string Runtime) :
  ∃ running : gset string, running_services m = size running ∧
    ∀ n, n ∈ running ↔ ∃ rt, m !! n = Some rt ∧ rt_state rt = ServiceState.Running.
Proof.
  exists (dom (filter (λ nr, rt_state nr.2 = ServiceState.Running) m)). split; [by rewrite size_dom|].
  intros n. rewrite elem_of_dom. split.
  - intros [rt [Hrt Hs]%map_lookup_filter_Some]. eauto.
  - intros (rt & Hrt & Hs). exists rt. by apply map_lookup_filter_Some.
Qed.

(** *** Messages *)

Lemma acts_handed name msg : acts (send_ctl name msg) (handed name msg).
Proof.
  intros h w r w' Hh Hr. destruct (acts_send_ctl name msg h w r w' Hh Hr) as (new & Hn & Hd). exists new.
  split; [done|]. split.
  - rewrite <-(app_nil_r new). by apply next_intro; [constructor|].
  - intros e ->. unfold send_ctl in Hr. rewrite atomic_bind in Hr.
    destruct (sh_ctl (entered w) !! name) as [c|]; [|injection Hr as <- _; by left].
    destruct (chan_send c msg _) as [[] chans]; [done|]. injection Hr as <- _. by right.
Qed.

Lemma handed_after name msg r h n1 n2 :
  quiet h n1 → handed name msg r (n1 ++ h) n2 → handed name msg r h (n2 ++ n1).
Proof.
  intros Hq [(q & d & -> & Hq2 & Hd) He]. split; [|done]. rewrite <-(assoc_L (++)). apply next_intro.
  - by apply Forall_app.
  - by rewrite <-(assoc_L (++)).
Qed.

Lemma acts_emit_init level text : acts (emit_init level text) (λ _, quiet).
Proof. apply acts_quiet, silent_emit_init. Qed.

Lemma acts_stop_service name : acts (stop_service name) (λ r, handed name CtlStop r).
Proof.
  intros h. eapply acts_bind; [apply acts_emit_init|]. intros [] n1 Hn1. eapply acts_call; [apply acts_handed|].
  intros r n2. by apply handed_after.
Qed.

Lemma silent_looked P h n : looked_at P h n → quiet h n.
Proof. intros (e & -> & s & -> & _). by repeat constructor. Qed.

Lemma somewhere_looked (P Q : Shared → Prop) h n1 n2 :
  (∀ s, P s → Q s) → looked_at P (n1 ++ h) n2 → somewhere (looked_at Q) h (n2 ++ n1).
Proof. intros HP Hl. apply somewhere_then, somewhere_intro. by apply (looked_mono P). Qed.

Lemma acts_load_enabled name :
  acts (load_enabled name) (λ r, looked_at (λ s, match r with
    | Ok true => allowed name s
    | Ok false => turned_down name (Error.Disabled name) s
    | Err e => turned_down name e s
    end)).
Proof.
  intros h. eapply acts_call; [apply acts_reads|]. intros r n. apply looked_mono. intros s ->.
  unfold is_enabled, allowed, turned_down. destruct (sh_runtimes s !! name) as [rt|] eqn:Hrt; simpl; [|done].
  destruct (rt_enabled rt) eqn:He; [by exists rt|done].
Qed.

Lemma acts_restart_service name :
  acts (restart_service name) (λ r h new,
    (∃ e, r = Err e ∧ looked_at (turned_down name e) h new) ∨ (looked_at (allowed name) ⨾ handed name CtlRestart r) h new).
Proof.
  intros h. eapply acts_bind; [apply acts_load_enabled|]. intros [[|]|e] n1 Hn1; simpl.
  2,3: by apply acts_ret; left; eexists.
  eapply acts_bind; [apply acts_emit_init|]. intros [] n2 Hn2. eapply acts_call; [apply acts_handed|].
  intros r n3 Hn3. right. apply next_intro; [done|]. by apply handed_after.
Qed.

Lemma start_text_spec name (force : bool) (waiting : list string) :
  (if decide (waiting = []) then name +:+ ": starting"
   else if force then name +:+ ": starting with --force (unmet dependencies: " +:+ join ", " waiting +:+ ")"
   else name +:+ ": waiting for dependencies (" +:+ join ", " waiting +:+ ")") = start_text name force waiting.
Proof. destruct waiting; [by rewrite decide_True|]. rewrite decide_False by done. by destruct force. Qed.

Lemma acts_start_service name force :
  acts (start_service name force) (λ res h new,
    (∃ e, res = Err e ∧ every silent h new ∧ somewhere (looked_at (start_refused name e)) h new) ∨
    (∃ text r, res = match r with Ok _ => Ok text | Err e => Err e end ∧ start_handed name force text r h new)).
Proof.
  intros h. unfold start_service. eapply acts_bind; [apply acts_load_enabled|]. intros [[|]|e] n1 Hn1; simpl.
  2,3: apply acts_ret; left; eexists; split; [done|]; split; [by eapply silent_looked|];
    apply somewhere_intro; eapply looked_mono; [|exact Hn1]; intros s Hs; left; exact Hs.
  eapply acts_bind; [apply acts_reads|]. intros [cfg|e] n2 Hn2.
  2:{ apply acts_ret. left. exists e. split; [done|]. split; [by apply Forall_app; split; eapply silent_looked|].
      eapply somewhere_looked; [|exact Hn2]. intros s He. unfold start_refused. right; left.
      unfold ok_or in He. destruct (cf_get name (sh_config s)); simplify_eq. done. }
  eapply acts_bind; [apply acts_reads|]. intros [unmet|e] n3 Hn3.
  2:{ apply acts_ret. left. exists e. split; [done|].
      rewrite app_nil_l. split; [apply Forall_app; split; [apply Forall_app; split|]; by eapply silent_looked|].
      apply somewhere_then. eapply somewhere_looked; [|exact Hn3]. intros s He. right; right.
      pose proof (unmet_deps_spec (sc_depends_on cfg) (sh_runtimes s)) as Hu. rewrite <-He in Hu.
      destruct Hu as (d & _ & Hd & ->). exists d. split; [by apply not_elem_of_dom|done]. }
  rewrite start_text_spec. eapply acts_bind; [apply acts_emit_init|]. intros [] n4 Hn4.
  eapply acts_bind; [apply acts_handed|]. intros r n5 Hn5.
  apply acts_weaken with (λ res n6, n6 = [] ∧ res = match r with Ok _ => Ok (start_text name force unmet) | Err e => Err e end);
    [by destruct r; apply acts_ret|].
  intros res n6 [-> ->]. right. exists (start_text name force unmet), r. split; [done|]. exists cfg, unmet.
  split; [done|]. rewrite app_nil_l. apply next_intro; [done|]. apply next_intro; [|apply next_intro].
  - eapply looked_mono; [|exact Hn2]. intros s He. unfold ok_or in He. destruct (cf_get name (sh_config s)); by simplify_eq.
  - eapply looked_mono; [|exact Hn3]. intros s He. pose proof (unmet_deps_spec (sc_depends_on cfg) (sh_runtimes s)) as Hu.
    rewrite <-He in Hu. apply Hu.
  - by apply handed_after.
Qed.

(** *** Enabling *)

Lemma silent_filing {A} (m : M A) : files_only m → emits silent m.
Proof. apply emits_weaken. by intros []. Qed.

Lemma acts_set_enabled name b :
  acts (set_enabled self name b) (λ res h new, carried_out (set_enabled self name b) res h new ∧
    (res = Ok tt → (quiet ⨾ delivered name (if b then CtlStart false else CtlStop) true) h new)).
Proof.
  apply acts_and; [eapply acts_carried_out, routine_set_enabled|]. intros h. unfold set_enabled.
  eapply acts_bind; [apply (acts_quiet (atomic _)), emits_atomic; done|]. intros [[]|e] n1 Hn1; [|by apply acts_ret].
  eapply acts_bind; [apply acts_quiet, silent_filing; eauto with filing|]. intros [m|e] n2 Hn2; [|by apply acts_ret].
  eapply acts_bind; [apply acts_quiet, silent_filing; unfold save_override; eauto with filing|].
  intros [[]|e] n3 Hn3; [|by apply acts_ret].
  eapply acts_bind; [apply acts_emit_init|]. intros [] n4 Hn4.
  eapply acts_bind; [apply acts_quiet, silent_apply_enabled|]. intros [] n5 Hn5.
  eapply acts_call; [apply acts_handed|]. intros r n6 Hn6 ->.
  assert (handed name (if b then CtlStart false else CtlStop) (Ok tt) h (((((n6 ++ n5) ++ n4) ++ n3) ++ n2) ++ n1)) as [Hd _]; [|exact Hd].
  by do 5 (apply handed_after; [done|]).
Qed.

(** *** Descriptions *)

Lemma acts_atomic_at {A} h (f : N → N → Shared → A * Shared) (Q : A → list Event → Prop) :
  (∀ s, Q (f (clock h) (utc_clock h) s).1 [EvStep s (f (clock h) (utc_clock h) s).2]) → acts_after h (atomic_at f) Q.
Proof.
  intros HQ w a w' <- Hr. unfold atomic_at in Hr. fold (entered w) in Hr. specialize (HQ (entered w)).
  destruct (f _ _ (entered w)) as [b s]. injection Hr as <- <-. by exists [EvStep (entered w) s].
Qed.

Lemma sorted_names states names n : n ∈ dn_name <$> sorted_nodes states names ↔ n ∈ names.
Proof.
  unfold sorted_nodes. rewrite (merge_sort_Permutation node_le), <-list_fmap_compose. simpl.
  rewrite (list_fmap_ext (dn_name ∘ node_of states) id names) by done. by rewrite list_fmap_id.
Qed.

Lemma dependents_names name (services : list ServiceConfig) n :
  n ∈ dependents_of name ((λ s, (sc_name s, sc_depends_on s)) <$> services) ↔
  ∃ o, o ∈ services ∧ sc_name o = n ∧ name ∈ sc_depends_on o.
Proof.
  unfold dependents_of. rewrite list_elem_of_fmap. split.
  - intros (nd & -> & [Hd (o & -> & Ho)%list_elem_of_fmap]%list_elem_of_filter). by exists o.
  - intros (o & Ho & <- & Hd). exists (sc_name o, sc_depends_on o). split; [done|]. apply list_elem_of_filter.
    split; [done|]. apply list_elem_of_fmap. by exists o.
Qed.

(** What is read of the runtimes. *)
Lemma acts_view name :
  acts (atomic_at (λ now _ s, (view_runtime name now (sh_runtimes s), s)))
    (λ r, one (λ h e, ∃ s, e = EvStep s s ∧ r = view_runtime name (clock h) (sh_runtimes s))).
Proof. intros h. apply acts_atomic_at. intros s. eexists. split; [done|]. by exists s. Qed.

Lemma describes_view name output now s1 s2 view svc nodes edges running_as source :
  view_runtime name now (sh_runtimes s1) = Ok view → cf_get name (sh_config s2) = Some svc →
  (output = Human → source = None) →
  describes (J := json_value) {|
    sd_status := set_labels (sc_labels svc) (rv_status view);
    sd_uptime_secs := rv_uptime view;
    sd_depends_on := sorted_nodes (rv_states view) (sc_depends_on svc);
    sd_dependents := sorted_nodes (rv_states view) (dependents_of name ((λ s, (sc_name s, sc_depends_on s)) <$> cf_services (sh_config s2)));
    sd_dep_nodes := nodes;
    sd_dep_edges := edges;
    sd_events := rv_events view;
    sd_running_as := running_as;
    sd_security_context := sc_security_context svc;
    sd_source := source;
  |} name output now s1 s2.
Proof.
  unfold view_runtime. destruct (sh_runtimes s1 !! name) as [rt|] eqn:Hrt; [|done]. intros [= <-] Hsvc Hs.
  exists rt, svc. simpl. split_and!; try done; [| |].
  - unfold uptime_of. case_decide as Hr; [rewrite Hr; by destruct (rt_running_since rt)|].
    by destruct (rt_state rt).
  - intros n. apply sorted_names.
  - intros n. rewrite sorted_names. apply dependents_names.
Qed.

Definition describe_reply (res : Result (ServiceDescribe json_value)) : Response json_value :=
  match res with Ok d => RsDescribe d | Err e => error_response e end.

Lemma emits_any_routine {A} (m : M A) : routinely m → acts m (λ _, anything).
Proof. intros Hm h. by eapply acts_call; [apply (acts_emits _ _ Hm)|]. Qed.

Lemma anything_more (R : Acts) h n1 n2 : (R ⨾ anything) h n1 → (R ⨾ anything) h (n2 ++ n1).
Proof. intros (m1 & m2 & -> & HR & _). rewrite (assoc_L (++)). by apply next_intro. Qed.

Lemma acts_describe name output :
  acts (describe self name output) (λ res, describe_work self name output (describe_reply res)).
Proof.
  intros h. unfold describe. eapply acts_bind; [apply acts_view|]. intros [view|e] n1 (e1 & -> & s1 & -> & Hv).
  2:{ apply acts_ret. right. exists e. split; [done|]. left.
      unfold view_runtime in Hv. destruct (sh_runtimes s1 !! name) eqn:Hrt; [done|]. injection Hv as ->. split; [done|].
      apply (somewhere_intro (looked_at _)). eexists. split; [done|]. exists s1. by split; [|left]. }
  eapply acts_bind; [apply emits_any_routine; unfold read_running_identity; emits_solve|]. intros running_as n2 _.
  eapply acts_bind; [apply acts_reads|]. intros [[svc deps]|e] n3 (e3 & -> & s2 & -> & Hc).
  2:{ apply acts_ret. right. exists e. split; [done|]. left. destruct (cf_get name (sh_config s2)) eqn:Hg; [done|].
      injection Hc as ->. split; [done|]. rewrite app_nil_l. apply somewhere_then, somewhere_then, (somewhere_intro (looked_at _)).
      eexists. split; [done|]. exists s2. by split; [|right]. }
  destruct (cf_get name (sh_config s2)) as [svc'|] eqn:Hg; [|done]. injection Hc as -> ->.
  destruct (subgraph name _) as [g|]; [|apply acts_no_return].
  eapply acts_bind with (λ r n, match r with Ok src => output = Human → src = None | Err e =>
    output = Protocol.Json ∧ carried_out (find_service_source (sv_dropins_dir self) (sv_config_path self) name) (Err e)
      ([EvStep s2 s2] ++ n2 ++ [EvStep s1 s1] ++ h) n end).
  { destruct output; [by apply acts_ret|]. eapply acts_call; [eapply acts_carried_out, filing_find_service_source|].
    by intros [src|e] n. }
  intros [src|e] n4 Hn4; apply acts_ret.
  - left. eexists _, s1, s2. split; [done|]. rewrite app_nil_l.
    apply (next_intro _ _ h [EvStep s1 s1] ((n4 ++ [EvStep s2 s2]) ++ n2)).
    { eexists. split; [done|]. split; [done|]. by apply describes_view. }
    apply next_intro; [done|]. apply next_intro; [|done]. eexists. split; [done|]. by exists s2.
  - right. exists e. split; [done|]. right. split; [apply Hn4|]. rewrite app_nil_l.
    rewrite <-!(assoc_L (++)). apply next_intro; [done|]. rewrite <-!(assoc_L (++)). apply Hn4.
Qed.

(** *** Information *)

Lemma acts_info : acts (info self) (λ i, info_work self (RsInfo i)).
Proof.
  intros h. unfold info. eapply acts_bind; [eapply acts_carried_out, filing_version_info|]. intros ver n1 Hn1.
  eapply acts_bind; [eapply acts_carried_out, filing_open_telemetry|]. intros otel n2 Hn2.
  eapply acts_bind; [apply acts_reads|]. intros [[total running] socket] n3 Hn3.
  eapply acts_bind; [eapply acts_carried_out, filing_hostname|]. intros host n4 Hn4.
  eapply acts_bind with (λ now n, n = [EvNow] ∧ now = clock (n4 ++ n3 ++ n2 ++ n1 ++ h)); [by apply acts_asks|].
  intros now n5 [-> ->]. apply acts_ret. eexists _, ver, otel. split; [done|]. split; [|done]. rewrite app_nil_l.
  do 2 (apply next_intro; [done|]). apply next_intro; [|apply next_intro; [done|by eexists]].
  eapply looked_mono; [|exact Hn3]. intros s [= -> -> ->]. split; [done|]. split; [done|]. apply running_names.
Qed.

(** *** The buffered lines *)

Lemma ring_last_lines n b : last_lines n (rb_lines b) (ring_last_n n b).
Proof.
  exists (take (length (rb_lines b) - n) (rb_lines b)). unfold ring_last_n. rewrite take_drop, length_drop. split; [done|]. lia.
Qed.

Lemma snapshot_last_lines name n hub : last_lines n (buffer name hub) (log_snapshot name n hub).
Proof.
  destruct name as [nme|]; simpl; [|apply ring_last_lines]. unfold snapshot_service.
  destruct (lh_per_service hub !! nme) as [b|]; simpl; [apply ring_last_lines|]. exists []. split; [done|]. simpl. lia.
Qed.

Lemma acts_snapshot name n :
  acts (reads (λ s, log_snapshot name n (sh_hub s))) (λ ls, looked_at (λ s, last_lines n (buffer name (sh_hub s)) ls)).
Proof.
  intros h. eapply acts_call; [apply acts_reads|]. intros ls new. apply looked_mono. intros s ->. apply snapshot_last_lines.
Qed.
End operations.

(** ** Replies *)

Section replied.
Context `{Host, Nss, Json, DataDir, !FileTimes, VersionEnv, Process, !Wire}.
Variable self : Supervisor.
#[local] Abbreviation Reply := (Response json_value).

(** After the history [h], the replies written with the new events satisfy [Q]. *)
Definition replied (h : list Event) {A} (m : M A) (Q : A → list Reply → list Event → Prop) : Prop :=
  acts_after h m (λ a new, ∃ rs, frames new = encode_response <$> rs ∧ Q a rs new).

Lemma replied_ret {A} h (a : A) (Q : A → list Reply → list Event → Prop) : Q a [] [] → replied h (mret a) Q.
Proof. intros HQ. apply acts_ret. by exists []. Qed.

Lemma replied_weaken {A} h (m : M A) (Q Q' : A → list Reply → list Event → Prop) :
  replied h m Q' → (∀ a rs n, Q' a rs n → Q a rs n) → replied h m Q.
Proof. intros Hm HQ. eapply acts_weaken; [exact Hm|]. intros a n (rs & ? & ?). eauto. Qed.

Lemma replied_bind {A B} h (m : M A) (f : A → M B) R Q :
  replied h m R → (∀ a rs n, R a rs n → replied (n ++ h) (f a) (λ b rs' n', Q b (rs ++ rs') (n' ++ n))) →
  replied h (m ≫= f) Q.
Proof.
  intros Hm Hf. eapply acts_bind; [exact Hm|]. intros a n (rs & Hn & HR). eapply acts_weaken; [by apply Hf|].
  intros b n' (rs' & Hn' & HQ). exists (rs ++ rs'). by rewrite frames_app, Hn, Hn', fmap_app.
Qed.

(** A part that writes no frame, with what it does. *)
Lemma replied_does {A B} h (m : M A) (f : A → M B) (R : A → Acts) Q :
  emits (unseen frame_of) m → acts m R →
  (∀ a n, R a h n → replied (n ++ h) (f a) (λ b rs n', Q b rs (n' ++ n))) → replied h (m ≫= f) Q.
Proof.
  intros Hs Hm Hf. eapply replied_bind with (R := λ a rs n, rs = [] ∧ R a h n).
  - eapply acts_call; [apply acts_and; [apply (acts_emits _ _ Hs)|exact Hm]|]. intros a n [Hn HR]. exists [].
    split; [by apply steps_by_unseen|done].
  - intros a rs n [-> HR]. by apply Hf.
Qed.

Lemma replied_skip {A B} h (m : M A) (f : A → M B) Q :
  emits (unseen frame_of) m → (∀ a n, replied (n ++ h) (f a) (λ b rs n', Q b rs (n' ++ n))) → replied h (m ≫= f) Q.
Proof.
  intros Hs Hf. apply (replied_does _ _ _ (λ _, anything)); [done| |auto].
  intros h'. eapply acts_call; [apply (acts_emits _ _ Hs)|done].
Qed.

Lemma replied_write h msg : replied h (write_frame msg) (λ r rs n, rs = [msg] ∧ writes msg r h n).
Proof.
  unfold write_frame, write_frame_to.
  eapply acts_bind with (λ fault n, n = [EvFrame (encode_response msg)] ∧ fault = frame_fault h (encode_response msg));
    [by apply acts_asks|]. intros fault n [-> ->]. apply acts_ret. exists [msg]. split; [done|]. split; [done|].
  eexists. split; [done|]. by destruct (frame_fault _ _).
Qed.

(** A write that fails is an error of the connection. *)
Lemma writes_error msg r h n e : writes msg r h n → r = Err e → ∃ text, e = Error.Ipc text.
Proof. intros (e' & _ & _ & ->). destruct (frame_fault _ _); [intros [= <-]; by eexists|done]. Qed.

(** Work, then the reply. *)
Lemma replied_replying {A} h (m : M A) (reply : A → Reply) (work : Reply → Acts) :
  routinely m → acts m (λ a, work (reply a)) →
  replied h (m ≫= λ a, write_frame (reply a)) (λ r rs n, replying work r rs h n).
Proof.
  intros Hs Hm. eapply replied_does; [by apply routine_unseen|exact Hm|]. intros a n Hn.
  eapply replied_weaken; [apply replied_write|]. intros r rs n' [-> Hw]. exists (reply a). split; [done|]. by apply next_intro.
Qed.

(** *** The lines that follow *)

Lemma followed_app id name rs1 rs2 h n1 n2 :
  log_followed id name rs1 h n1 → log_followed id name rs2 (n1 ++ h) n2 → log_followed id name (rs1 ++ rs2) h (n2 ++ n1).
Proof. unfold log_followed. intros Hr1 Hr2. by rewrite steps_by_app, !filter_app, fmap_app, Hr1, Hr2. Qed.

Lemma acts_hub_recv id :
  acts (atomic (λ s, let '(r, h) := hub_recv id (sh_hub s) in (r, set_hub h s)))
    (λ r _ new, steps_by (line_taken id) new = match r with LogMessage line => [line] | _ => [] end).
Proof.
  intros h. apply acts_atomic. intros s. unfold hub_recv, steps_by. simpl.
  destruct (lh_channels (sh_hub s) !! id) as [[|line q]|] eqn:Hc; simpl; rewrite ?Hc; [by case_decide| |done].
  by rewrite lookup_insert_eq, decide_True.
Qed.

Lemma writes_untaken id msg r h n : writes msg r h n → steps_by (line_taken id) n = [].
Proof. by intros (e & -> & -> & _). Qed.

Lemma replied_follow_logs n id name h :
  replied h (follow_logs n id name) (λ _ rs new, log_followed id name rs h new).
Proof.
  revert h. induction n as [|n IH]; intros h; cbn [follow_logs]; [apply acts_no_return|].
  eapply (replied_does _ _ _ (λ _ _ new, steps_by (line_taken id) new = [])); [by apply emits_effect|intros h'; by apply acts_effect|].
  intros _ n1 Hn1. eapply replied_does; [by apply emits_atomic|apply acts_hub_recv|]. intros received n2 Hn2.
  assert (steps_by (line_taken id) (n2 ++ n1) = match received with LogMessage line => [line] | _ => [] end) as Ht
    by (by rewrite steps_by_app, Hn1, Hn2).
  apply (replied_weaken _ _ _ (λ _ rs n3, log_followed id name rs h (n3 ++ (n2 ++ n1)))); [|intros [] rs n3 Hf; by rewrite <-(assoc_L (++))].
  rewrite (assoc_L (++)). clear Hn1 Hn2. revert Ht. generalize (n2 ++ n1). intros before Ht.
  assert (∀ msg, filter (λ rsp, is_heartbeat rsp = false) [msg]
      = RsLog <$> filter (λ line, wanted name line = true) (steps_by (line_taken id) before) →
    replied (before ++ h) (write_frame msg ≫= λ r, if is_ok r then follow_logs n id name else mret tt)
      (λ _ rs n3, log_followed id name rs h (n3 ++ before))) as Hwrite.
  { intros msg Hmsg. eapply replied_bind; [apply replied_write|]. intros r rs n3 [-> Hw%(writes_untaken id)].
    assert (log_followed id name [msg] h (n3 ++ before)) as Hfirst by (unfold log_followed; by rewrite steps_by_app, Hw, app_nil_r).
    destruct (is_ok r); [|by apply replied_ret]. rewrite (assoc_L (++)). eapply replied_weaken; [apply IH|].
    intros [] rs n4 Hrs. rewrite <-(assoc_L (++)). by apply (followed_app id name [msg] rs h (n3 ++ before) n4). }
  destruct received as [line| |]; cbn beta iota.
  - assert ((match name with Some nme => bool_decide (ln_service line ≠ nme) | None => false end) = negb (wanted name line)) as ->.
    { destruct name as [nme|]; [|done]. apply bool_decide_not. }
    destruct (wanted name line) eqn:Hwanted; simpl.
    + apply Hwrite. rewrite Ht. by rewrite !filter_cons_True.
    + eapply replied_weaken; [apply IH|]. intros [] rs n3 Hrs.
      apply (followed_app id name [] rs h before n3); [|done]. unfold log_followed. rewrite Ht. by rewrite filter_cons_False by congruence.
  - apply Hwrite. by rewrite Ht.
  - apply replied_ret. unfold log_followed. by rewrite app_nil_l, Ht.
Qed.
(** *** The snapshots *)

Lemma emits_any_wait_timeout id seen timeout : routinely (wait_timeout id seen timeout).
Proof.
  unfold wait_timeout. apply emits_bind; [emits_solve|intros now]. apply emits_bind; [emits_solve|intros deadline].
  apply emits_bind; [emits_solve|intros n]. induction n as [|n IH]; cbn [wait_timeout_loop]; emits_solve.
Qed.

(** The snapshot a wait returns was the one kept for the subscription. *)
Definition awaited (id : nat) (o : WaitOutcome) : Acts := λ h n,
  match o with
  | Snapshot _ services => somewhere (looked_at (λ s, sl_snapshot (slot_of id (sh_watch s)) = Some services)) h n
  | Timeout => True
  end.

Lemma awaited_then id o h n1 n2 : awaited id o (n1 ++ h) n2 → awaited id o h (n2 ++ n1).
Proof. destruct o; [apply somewhere_then|done]. Qed.

Lemma awaited_slot id seen slot h n (k : option (list ServiceStatus)) :
  looked_at (λ s, slot = slot_of id (sh_watch s)) h n →
  (∀ snap, k = Some snap → sl_snapshot slot = Some snap) →
  awaited id (match k with Some snap => Snapshot (seen slot) snap | None => Timeout end) h n.
Proof.
  intros Hl Hk. destruct k as [snap|]; [|done]. apply (somewhere_intro (looked_at _)). eapply looked_mono; [|exact Hl].
  intros s <-. by apply Hk.
Qed.

Lemma acts_wait_timeout_loop n id seen deadline : acts (wait_timeout_loop n id seen deadline) (awaited id).
Proof.
  induction n as [|n IH]; intros h; cbn [wait_timeout_loop].
  all: eapply acts_bind; [apply acts_reads|]; intros slot m1 Hm1.
  all: destruct (if decide (sl_gen slot ≠ seen) then sl_snapshot slot else None) as [snap|] eqn:Hs;
    [apply acts_ret; rewrite app_nil_l; apply (awaited_slot id sl_gen slot h m1 (Some snap)); [done|];
     intros ? [= <-]; by case_decide|].
  all: apply acts_skip; [emits_solve|intros now m2]; destruct (decide (deadline ≤ now)%N); [by apply acts_ret|].
  all: apply acts_skip; [emits_solve|intros [] m3].
  - eapply acts_bind; [apply acts_reads|]. intros slot' m4 Hm4. apply acts_ret. rewrite app_nil_l.
    do 3 apply awaited_then. apply awaited_slot; [done|]. intros snap. by destruct (decide (sl_gen slot' = seen)).
  - eapply acts_weaken; [apply IH|]. intros o m4 Hm4. by do 3 apply awaited_then.
Qed.

Lemma acts_wait_timeout id seen timeout : acts (wait_timeout id seen timeout) (awaited id).
Proof.
  intros h. unfold wait_timeout. do 3 (apply acts_skip; [emits_solve|intros ? ?]).
  eapply acts_call; [apply acts_wait_timeout_loop|]. intros o m Hm. by do 3 apply awaited_then.
Qed.

Lemma watched_first id rsp h n1 n2 : watched id rsp h n1 → watched id rsp h (n2 ++ n1).
Proof. intros [?|(l & ? & ?)]; [by left|right]. exists l. split; [done|]. by apply somewhere_first. Qed.
Lemma watched_then id rsp h n1 n2 : watched id rsp (n1 ++ h) n2 → watched id rsp h (n2 ++ n1).
Proof. intros [?|(l & ? & ?)]; [by left|right]. exists l. split; [done|]. by apply somewhere_then. Qed.

Lemma replied_watch_stream n id seen h :
  replied h (watch_stream n id seen) (λ _ rs new, Forall (λ rsp, watched id rsp h new) rs).
Proof.
  revert seen h. induction n as [|n IH]; intros seen h; cbn [watch_stream]; [apply acts_no_return|].
  eapply replied_does; [by apply routine_unseen, emits_any_wait_timeout|apply acts_wait_timeout|]. intros o n1 Ho.
  assert (∀ msg seen', watched id msg h n1 →
    replied (n1 ++ h) (write_frame msg ≫= λ r, if is_ok r then watch_stream n id seen' else mret tt)
      (λ _ rs n2, Forall (λ rsp, watched id rsp h (n2 ++ n1)) rs)) as Hwrite.
  { intros msg seen' Hmsg. eapply replied_bind; [apply replied_write|]. intros r rs n2 [-> _]. destruct (is_ok r).
    - eapply replied_weaken; [apply IH|]. intros [] rs n3 Hrs. constructor; [by apply watched_first|].
      eapply Forall_impl; [exact Hrs|]. intros rsp Hrsp. by do 2 apply watched_then.
    - apply replied_ret. constructor; [by apply watched_first|constructor]. }
  destruct o as [gen services|]; apply Hwrite; [|by left]. right. by exists services.
Qed.

(** *** The lines of the buffer *)

Lemma replied_lines h (ls : list LogLine) :
  replied h (try_each_m ls (λ line, write_frame (RsLog line)))
    (λ r rs _, ∃ shown left, ls = shown ++ left ∧ rs = RsLog <$> shown ∧
      match r with Ok _ => left = [] | Err e => ∃ msg, e = Error.Ipc msg end).
Proof.
  revert h. induction ls as [|l ls IH]; intros h; [by apply replied_ret; exists [], []|].
  eapply replied_bind; [apply replied_write|]. intros r rs n [-> Hw]. destruct r as [[]|e].
  - eapply replied_weaken; [apply IH|]. intros r rs n' (shown & left & -> & -> & Hr). by exists (l :: shown), left.
  - apply replied_ret. exists [l], ls. split; [done|]. split; [done|]. by eapply writes_error.
Qed.
(** *** The requests *)

Lemma replied_result {A} h (res : M (Result A)) (ok : A → M (Result unit)) msg (work : Reply → Acts) :
  routinely res → (∀ a, ok a = write_frame (msg a)) →
  acts res (λ r, work (match r with Ok a => msg a | Err e => error_response e end)) →
  replied h (res ≫= λ r, match r with Ok a => ok a | Err e => write_frame (error_response e) end)
    (λ r rs n, replying work r rs h n).
Proof.
  intros Hs Hok Hm. eapply replied_does; [by apply routine_unseen|exact Hm|]. intros a n Hn.
  assert ((match a with Ok a => ok a | Err e => write_frame (error_response e) end)
    = write_frame (match a with Ok a => msg a | Err e => error_response e end)) as -> by (by destruct a).
  eapply replied_weaken; [apply replied_write|]. intros r rs n' [-> Hw]. eexists. split; [done|]. by apply next_intro.
Qed.

Lemma replied_start h name force :
  replied h (start_service name force ≫= respond_start) (λ r rs n, replying (start_work name force) r rs h n).
Proof.
  apply (replied_result h _ (λ text, write_frame (RsOk (Some text))) (λ text, RsOk (Some text)));
    [apply routine_start_service|done|].
  intros h'. eapply acts_call; [apply acts_start_service|].
  intros res n [(e & -> & Hq & Hs)|(text & r & -> & Hs)]; [left; by exists e|right; exists text, r; by destruct r].
Qed.

Lemma replied_plain h (op : M (Result unit)) (work : Reply → Acts) :
  routinely op → acts op (λ r, work (plain_reply r)) → replied h (op ≫= respond_result) (λ r rs n, replying work r rs h n).
Proof. intros Hs Hm. apply (replied_result h _ (λ _, write_frame (RsOk None)) (λ _, RsOk None)); [done..|exact Hm]. Qed.

(** The end of the lines, or the stream that log_followed them. *)
Definition logs_rest (n : nat) (name : option string) (follow : bool) : M (Result unit) :=
  if follow then
    id ← atomic (λ s, let '(id, h) := hub_subscribe (sh_hub s) in (id, set_hub h s));
    follow_logs n id name;;
    updates (λ s, set_hub (hub_close id (sh_hub s)) s);;
    mret (Ok tt)
  else write_frame (RsOk None).

Lemma acts_subscribe :
  acts (atomic (λ s, let '(id, h) := hub_subscribe (sh_hub s) in (id, set_hub h s)))
    (λ id, changed (log_subscribed id)).
Proof.
  intros h. apply acts_atomic. intros s. eexists. split; [done|]. eexists _, _. split; [done|]. simpl. split; simpl.
  - by rewrite lookup_insert_eq.
  - set_solver.
Qed.

Lemma acts_close id : acts (updates (λ s, set_hub (hub_close id (sh_hub s)) s)) (λ _, changed (λ _ s', lh_channels (sh_hub s') !! id = None)).
Proof.
  intros h. apply acts_atomic. intros s. eexists. split; [done|]. eexists _, _. split; [done|]. simpl. by rewrite lookup_delete_eq.
Qed.

Lemma replied_logs_rest h n name follow :
  replied h (logs_rest n name follow) (λ r rest new,
    if follow then
      r = Ok tt ∧ of_some (λ id, changed (log_subscribed id) ⨾ log_followed id name rest ⨾
        changed (λ _ s', lh_channels (sh_hub s') !! id = None)) h new
    else rest = [RsOk None] ∧ writes (RsOk None) r h new).
Proof.
  destruct follow; [|apply replied_write]. unfold logs_rest.
  eapply replied_does; [by apply emits_atomic|apply acts_subscribe|]. intros id n1 Hn1.
  eapply replied_bind; [apply replied_follow_logs|]. intros [] rs n2 Hn2.
  eapply replied_does; [by apply emits_updates|apply acts_close|]. intros [] n3 Hn3.
  apply replied_ret. split; [done|]. exists id. rewrite app_nil_l, app_nil_r. apply next_intro; [done|]. by apply next_intro.
Qed.

Lemma replied_logs h n lines_default name follow lines :
  replied h (handle_ipc self n lines_default (RqLogs name follow lines))
    (λ r rs new, logs_work (default lines_default lines) name follow r rs h new).
Proof.
  cbn [handle_ipc]. eapply replied_does; [by apply emits_reads|apply acts_snapshot|]. intros snapshot n1 Hn1.
  eapply replied_bind; [apply replied_lines|]. intros r rs n2 (shown & left & -> & -> & Hr). destruct r as [[]|e].
  2:{ destruct Hr as [msg ->]. apply replied_ret. rewrite app_nil_l, app_nil_r. exists (shown ++ left).
      apply next_intro; [done|]. left. by exists shown, left, msg. }
  subst left. rewrite app_nil_r in *. eapply replied_weaken; [apply (replied_logs_rest _ n name follow)|].
  intros r rest n3 Hn3. exists shown. apply next_intro; [done|]. right. exists rest. split; [done|]. destruct follow.
  - destruct Hn3 as [-> [id Hn3]]. split; [done|]. exists id. by apply next_intro.
  - destruct Hn3 as [-> Hn3]. split; [done|]. by apply next_intro.
Qed.

Lemma acts_watch_subscribe keys :
  acts (watch_subscribe keys) (λ sub h n, match sub with
    | None => looked_at (λ s, MAX_WATCH_FOLLOWERS ≤ length (wh_followers (sh_watch s))) h n
    | Some id => (changed (watch_subscribed id keys) ⨾ anything) h n
    end).
Proof.
  intros h. unfold watch_subscribe. eapply acts_bind with (λ sub n, match sub with
    | None => looked_at (λ s, MAX_WATCH_FOLLOWERS ≤ length (wh_followers (sh_watch s))) h n
    | Some id => changed (watch_subscribed id keys) h n
    end).
  { apply acts_atomic. intros s. unfold watch_try_subscribe. case_decide as Hd; simpl.
    - eexists. split; [done|]. exists s. by destruct s.
    - eexists. split; [done|]. by eexists _, _. }
  intros [id|] n1 Hn1; [|by apply acts_ret].
  eapply acts_bind; [apply emits_any_routine, routine_notify_watchers|]. intros [] n2 _. apply acts_ret. by apply next_intro.
Qed.

Lemma acts_watch_drop id :
  acts (updates (λ s, set_watch (watch_drop id (sh_watch s)) s)) (λ _, changed (λ _ s', id ∉ fo_id <$> wh_followers (sh_watch s'))).
Proof.
  intros h. apply acts_atomic. intros s. eexists. split; [done|]. eexists _, _. split; [done|]. simpl.
  intros (f & -> & [Hf _]%list_elem_of_filter)%list_elem_of_fmap. done.
Qed.

Lemma replied_watch h n lines keys :
  replied h (handle_ipc self n lines (RqWatch keys)) (λ r rs new, watch_work keys r rs h new).
Proof.
  cbn [handle_ipc]. eapply replied_does; [by apply routine_unseen, routine_watch_subscribe|apply acts_watch_subscribe|].
  intros [id|] n1 Hn1.
  - destruct Hn1 as (m1 & m2 & -> & Hsub & _). eapply replied_bind; [apply replied_watch_stream|]. intros [] rs n2 Hrs.
    eapply replied_does; [by apply emits_updates|apply acts_watch_drop|]. intros [] n3 Hn3. apply replied_ret.
    right. exists id. split; [done|]. rewrite app_nil_l, app_nil_r, (assoc_L (++) (n3 ++ n2)). apply next_intro; [done|].
    rewrite <-(assoc_L (++)) in Hrs, Hn3. apply next_intro; [done|]. by apply next_intro.
  - eapply replied_weaken; [apply replied_write|]. intros r rs n2 [-> Hw]. left. split; [done|]. by apply next_intro.
Qed.

Lemma replied_shutdown h n lines mode :
  replied h (handle_ipc self n lines (RqShutdown mode)) (λ r rs new, shutdown_work mode r rs h new).
Proof.
  cbn [handle_ipc]. eapply replied_bind; [apply replied_write|]. intros r rs n1 [-> Hw].
  destruct r as [[]|e]; [|apply replied_ret; split; [done|]; by apply next_intro].
  eapply (replied_does _ _ _ (λ _, changed (λ _ s', (take_shutdown (sh_signals s')).1 = Some mode))); [by apply emits_updates| |].
  { intros h'. apply acts_atomic. intros s. eexists. split; [done|]. eexists _, _. split; [done|]. apply flag_to_mode_to_flag. }
  intros [] n2 Hn2. apply replied_ret. split; [done|]. rewrite app_nil_l. by apply next_intro.
Qed.

(** The replies of a request, whatever the other threads and the machine do. *)
Lemma replied_handle_ipc h n lines_default req :
  replied h (handle_ipc self n lines_default req) (λ r rs new, answer self lines_default req r rs h new).
Proof.
  destruct req as [|name force|name|name|name|name output|name enabled|name follow lines| |mode|keys].
  8: apply replied_logs. 9: apply replied_shutdown. 9: apply replied_watch.
  all: cbn [handle_ipc answer].
  - apply (replied_replying h list_ RsList); [apply routine_list|]. intros h'. eapply acts_call; [apply acts_list|].
    intros l n' Hn'. by exists l.
  - apply replied_start.
  - apply replied_plain; [apply routine_stop_service|]. intros h'. eapply acts_call; [apply acts_stop_service|]. intros r n' Hn'. by exists r.
  - apply replied_plain; [apply routine_restart_service|]. intros h'. eapply acts_call; [apply acts_restart_service|].
    intros r n' [(e & -> & Hn')|Hn']; [left; by exists e|right; by exists r].
  - apply (replied_result h _ (λ st, write_frame (RsStatus st)) RsStatus); [apply routine_status|done|].
    intros h'. eapply acts_call; [apply acts_reads|]. intros r n'. apply looked_mono. intros s ->.
    destruct (sh_runtimes s !! name) as [rt|]; [|done]. eexists. split; [done|]. apply status_of_shows.
  - apply (replied_result h _ (λ d, write_frame (RsDescribe d)) RsDescribe); [apply routine_describe|done|]. apply acts_describe.
  - apply replied_plain; [apply routine_set_enabled|]. intros h'. eapply acts_call; [apply acts_set_enabled|].
    intros r n' [Hn' Hd]. by exists r.
  - apply (replied_replying h (info self) RsInfo); [apply routine_info|]. apply acts_info.
Qed.
End replied.
