(* ===== verification/Replies.v ===== *)
(** What clients get: every request is answered with exactly the replies of [Answers.v],
    and those whose work is bounded always are. *)

From Stdlib Require Import Ascii.
From S2P Require Import Prelude Constants RustStr Error Security Config Graph Protocol Logs Watch.
From S2P Require Import Reaper Runtime World Console Logic Trace EnvFile Service Store Supervisor Describe.
From S2P Require Import Version OtelEnv DaemonInfo Isolation Timing MonitorSpec Acts Events Requests Answers.
#[local] Open Scope stdpp_scope.

(** A write that fails is an error of the connection. *)
Definition written (r : Result unit) : Prop := ∀ e, r = Err e → ∃ msg, e = Error.Ipc msg.

Lemma answer_written `{Host, Json, DataDir, !FileTimes, VersionEnv, Process, !Wire} self lines_default req r rs h new :
  answer self lines_default req r rs h new → written r.
Proof.
  intros Ha e ->. assert (∀ (work : Response json_value → Acts) h new, replying work (Err e) rs h new → ∃ msg, e = Error.Ipc msg) as Hone.
  { intros work h' new' (rsp & _ & (? & ? & _ & _ & Hw)). by eapply writes_error. }
  destruct req as [|name force|name|name|name|name output|name enabled|name [|] lines| |mode|keys]; simpl in Ha; try by eapply Hone.
  - destruct Ha as (? & ? & ? & _ & _ & [(? & ? & msg & _ & _ & [= ->])|(? & _ & ? & _)]); [by exists msg|done].
  - destruct Ha as (? & ? & ? & _ & _ & [(? & ? & msg & _ & _ & [= ->])|(? & _ & _ & ? & ? & _ & _ & Hw)]); [by exists msg|].
    by eapply writes_error.
  - destruct Ha as (_ & ? & ? & _ & Hw & _). by eapply writes_error.
  - destruct Ha as [(_ & ? & ? & _ & _ & Hw)|(? & ? & _)]; [by eapply writes_error|done].
Qed.

(** ** Requests about services that do not exist *)

Section unknown.
Context `{Host, Nss, Json, DataDir, !FileTimes, VersionEnv, Process, !Wire}.
Variable self : Supervisor.

(** Nothing is known under the name. *)
Definition unknown (name : string) (s : Shared) : Prop :=
  sh_runtimes s !! name = None ∧ sh_ctl s !! name = None ∧ cf_get name (sh_config s) = None.

(** The service a request names. *)
Definition subject (req : Request) : option string :=
  match req with
  | RqStart name _ | RqStop name | RqRestart name | RqStatus name | RqDescribe name _
  | RqEnable name _ => Some name
  | _ => None
  end.

Context (name : string) (rely : ∀ h s, unknown name s → unknown name (interfere h s)).
#[local] Abbreviation error := (Error.UnknownService name).

(** The operation fails with the error, having done only routine things. *)
Definition fails {A} (m : M (Result A)) : Prop :=
  ∀ w, unknown name (shared w) → ∃ w', m w = (Some (Err error), w').

Lemma fails_reads {A} (f : Shared → Result A) : (∀ s, unknown name s → f s = Err error) → fails (reads f).
Proof. intros Hf w Hw. eexists. unfold reads, atomic. rewrite Hf by by apply rely. done. Qed.

Lemma fails_bind {A B} (m : M (Result A)) (k : A → M (Result B)) :
  fails m → fails (m ≫= λ r, match r with Ok x => k x | Err e => mret (Err e) end).
Proof. intros Hm w [w' Hr]%Hm. exists w'. by rewrite (bind_step _ _ _ _ _ Hr). Qed.

Lemma unknown_closed : quiet_closed (kept (unknown name)).
Proof. closed_solve. Qed.

Lemma fails_send_ctl msg : fails (send_ctl name msg).
Proof.
  intros w Hw. unfold send_ctl. rewrite atomic_bind. destruct (rely (hist w) _ Hw) as (_ & Hc & _).
  fold (entered w) in Hc. rewrite Hc. by eexists.
Qed.

Lemma fails_after_log msg text : fails (emit_init LogLevel.Info text;; send_ctl name msg).
Proof.
  intros w Hw. destruct (returns_emit_init LogLevel.Info text w) as ([] & w1 & Hr & _).
  rewrite (bind_step _ _ _ _ _ Hr). apply fails_send_ctl.
  pose proof (keeps_survives _ _ rely (keeps_emit_init _ unknown_closed LogLevel.Info text) w Hw) as Hk. by rewrite Hr in Hk.
Qed.

Lemma fails_load_enabled : fails (load_enabled name).
Proof. apply fails_reads. intros s (Hr & _). unfold is_enabled. by rewrite Hr. Qed.
Lemma answers_error {A} (m : M (Result A)) (k : Result A → M (Result unit)) :
  fails m → routinely m → (∀ e, k (Err e) = write_frame (error_response e)) →
  ∀ w, unknown name (shared w) →
  ∃ r w' new, (m ≫= k) w = (Some r, w') ∧ hist w' = new ++ hist w ∧
    frames new = [encode_response (error_response error)].
Proof.
  intros Hm Hr Hk w Hw. destruct (Hm w Hw) as [w1 Hw1]. specialize (Hr w). rewrite Hw1 in Hr.
  destruct Hr as (new & Hh & Hn). simpl in Hh. rewrite (bind_step _ _ _ _ _ Hw1), Hk.
  eexists _, _, (_ :: new). split; [reflexivity|]. split; [simpl; by rewrite Hh|].
  unfold frames, steps_by. rewrite reverse_cons, omap_app. simpl.
  assert (omap frame_of (reverse new) = []) as ->; [|done].
  apply Forall_reverse in Hn. induction Hn as [|e l He _ IH]; [done|]. simpl. by destruct e.
Qed.
End unknown.

(** ** The allowlist *)

Lemma resolved_group `{Nss} c allow :
  resolved_ipc_allow c = Ok allow → ia_allow_uids allow ≠ [] → is_Some (ia_socket_gid allow).
Proof.
  unfold resolved_ipc_allow. destruct (try_fold _ _ _) as [[uids gid]|e] eqn:Hf; [|done]. intros [= <-]; simpl.
  revert Hf. apply (try_fold_inv (λ _ acc, acc.1 ≠ [] → is_Some acc.2)); [done|].
  intros l raw l' [us g] [us' g'] _ Hin. unfold resolve_allow_user.
  repeat (case_match; try done); intros [= <- <-]; by eauto.
Qed.

(** ** Properties *)

Section properties.
Context `{Host, Nss, Json, DataDir, !FileTimes, VersionEnv, Process, !Wire}.
Variable self : Supervisor.

(** ** Requests that are answered at once *)

(** Neither a stream, nor a request whose work the machine bounds. *)
Definition one_shot (req : Request) : bool :=
  match req with
  | RqInfo | RqDescribe _ Protocol.Json | RqLogs _ true _ | RqWatch _ => false
  | _ => true
  end.

Lemma returns_try {A B} (m : M (Result A)) (k : A → M (Result B)) :
  returns m → (∀ a, returns (k a)) → returns (m ≫= λ r, match r with Ok a => k a | Err e => mret (Err e) end).
Proof. intros Hm Hk. apply returns_bind; [done|]. intros [a|e]; [apply Hk|apply returns_ret]. Qed.

Lemma returns_write_frame msg : returns (write_frame msg).
Proof. unfold write_frame, write_frame_to. returns_solve. Qed.
#[local] Hint Resolve returns_write_frame : returns.

Lemma returns_respond_result res : returns (respond_result res).
Proof. destruct res; apply returns_write_frame. Qed.
Lemma returns_respond_start res : returns (respond_start res).
Proof. destruct res; apply returns_write_frame. Qed.

Lemma returns_try_each {A} (l : list A) (body : A → M (Result unit)) :
  (∀ a, returns (body a)) → returns (try_each_m l body).
Proof. intros Hb. induction l as [|a l IH]; [apply returns_ret|]. simpl. by apply returns_try. Qed.

Lemma returns_describe name : returns (describe self name Human).
Proof.
  unfold describe. apply returns_try; [returns_solve|]. intros view.
  apply returns_bind; [unfold read_running_identity; returns_solve|]. intros running_as.
  apply returns_try; [returns_solve|]. intros [svc deps].
  destruct (subgraph_found name deps) as (found & -> & _). returns_solve.
Qed.

Lemma returns_set_enabled name b : returns (set_enabled self name b).
Proof.
  unfold set_enabled, apply_enabled, shared_set_enabled, set_state, update_runtime, load_override,
    save_override, write_json_atomic, fs_exists, fs_read, fs_write, fs_rename, fs_mkdirs.
  returns_solve.
Qed.

Lemma returns_handle_ipc n lines_default req : one_shot req = true → returns (handle_ipc self n lines_default req).
Proof.
  pose proof returns_describe. pose proof returns_set_enabled. pose proof returns_respond_start.
  pose proof returns_respond_result.
  destruct req as [|name force|name|name|name|name [|]|name b|name [|] lines| | |]; simpl; intros Hreq; try done;
    unfold list_, status, start_service, stop_service, restart_service, load_enabled, service_cfg;
    try (returns_solve; done).
  apply returns_bind; [returns_solve|]. intros snapshot.
  apply returns_try; [apply returns_try_each; intros; returns_solve|intros _; returns_solve].
Qed.


(** A request about a service that is not known (no runtime, no monitor, not
    configured) returns, and is answered by exactly the error [not_found]. *)
Theorem unknown_service_reply n lines_default req name w :
  subject req = Some name →
  (∀ h s, unknown name s → unknown name (interfere h s)) →
  unknown name (shared w) →
  ∃ r w' new, handle_ipc self n lines_default req w = (Some r, w') ∧ hist w' = new ++ hist w ∧
    frames new = [encode_response (RsError ("unknown service '" +:+ name +:+ "'") (Some "not_found"))].
Proof.
  intros Hs Hrely. change (RsError _ _) with (error_response (json_value := json_value) (Error.UnknownService name)).
  revert w. destruct req; simplify_eq/=; apply answers_error; eauto with emits.
  - apply fails_bind, fails_load_enabled, Hrely.
  - by apply fails_after_log.
  - apply fails_bind, fails_load_enabled, Hrely.
  - apply fails_reads; [done|]. intros s (Hr & _). by rewrite Hr.
  - apply fails_bind. intros w Hw. eexists. unfold atomic_at, view_runtime.
    destruct (Hrely (hist w) _ Hw) as (Hr & _). by rewrite Hr.
  - apply fails_bind. intros w Hw. eexists. unfold atomic.
    destruct (Hrely (hist w) _ Hw) as (_ & _ & Hc). by rewrite Hc.
Qed.

(** C2: Every request other than a followed log, [watch], [info] and [describe -o json]
    is answered, whatever the other threads and the machine do: handling it returns,
    having written exactly the replies that belong to what was done, as [answer] says of
    each request.  ([info] and [describe -o json] open no stream either, but read the
    executable, which can panic, and walk a directory tree: work the request does not
    bound.) *)
Theorem requests_answered n lines_default req w :
  one_shot req = true →
  ∃ r w' new rs, handle_ipc self n lines_default req w = (Some r, w') ∧ hist w' = new ++ hist w ∧
    frames new = encode_response <$> rs ∧ answer self lines_default req r rs (hist w) new ∧ written r.
Proof.
  intros Hreq. destruct (returns_handle_ipc n lines_default req Hreq w) as (r & w' & Hr & _).
  destruct (replied_handle_ipc self (hist w) n lines_default req _ _ _ eq_refl Hr) as (new & Hh & rs & Hf & Ha).
  exists r, w', new, rs. split; [done|]. split; [done|]. split; [done|]. split; [done|]. by eapply answer_written.
Qed.

(** A shutdown request is acknowledged first and takes effect exactly when the
    acknowledgement could be written: then the main loop takes the requested mode,
    and otherwise nothing changes. *)
Theorem shutdown_request n lines_default mode w :
  let payload := encode_response (RsOk None) in
  let w' := (handle_ipc self n lines_default (RqShutdown mode) w).2 in
  match frame_fault (hist w) payload with
  | Some _ => shared w' = shared w ∧ hist w' = EvFrame payload :: hist w
  | None => (take_shutdown (sh_signals (shared w'))).1 = Some mode ∧
      ∃ before, hist w' = EvStep before (shared w') :: EvFrame payload :: hist w
  end.
Proof.
  unfold handle_ipc, write_frame, write_frame_to, asks, updates, atomic, mbind, M_bind, mret, M_ret. simpl.
  destruct (frame_fault (hist w) _); simpl; [done|]. split; [apply flag_to_mode_to_flag|by eexists].
Qed.

(** The options the control socket of a valid configuration is bound with always
    exist: it is readable and writable by the daemon's user alone when no user is
    allowed, and otherwise also by one group; only the daemon's user and the allowed users are served. *)
Theorem serve_options_resolved c allow path :
  resolved_ipc_allow c = Ok allow →
  ∃ opts, serve_options path allow = Ok opts ∧ so_path opts = path ∧
    so_daemon_uid opts = current_uid ∧ so_allow_uids opts = ia_allow_uids allow ∧
    if decide (ia_allow_uids allow = []) then so_mode opts = 384%N ∧ so_chown opts = None
    else so_mode opts = 432%N ∧ ∃ gid, so_chown opts = Some (current_uid, gid).
Proof.
  intros Hr. pose proof (resolved_group c allow Hr) as Hg.
  assert (ia_daemon_uid allow = current_uid) as Hu.
  { unfold resolved_ipc_allow in Hr. destruct (try_fold _ _ _) as [[??]|]; by simplify_eq. }
  unfold serve_options. case_decide as Hd; [eexists; by rewrite Hu|].
  destruct (Hg Hd) as [gid ->]. eexists. rewrite Hu. split_and!; try done. by eexists.
Qed.
End properties.

(** ** Concrete requests *)

Definition example_times : FileTimes (H := quiet_host) := {| file_mtime _ _ := None |}.
Definition example_version : VersionEnv := {|
  git_commit := Some "abc1234";
  build_time := None;
  current_exe := Ok "/sbin/init";
  loaded_library_path := None;
  parse_payload _ := Err "expected value at line 1 column 1";
|}.
Definition example_process : Process := {| process_id := 1 |}.

(** Replies are encoded by their type and what identifies them. *)
Definition example_wire : Wire (H := quiet_host) (H0 := example_json) := {|
  encode_response rsp := match rsp with
    | RsOk message => "ok " +:+ default "" message
    | RsError message code => "error " +:+ default "" code +:+ " " +:+ message
    | RsList services => "list " +:+ join " " (ss_name <$> services)
    | RsStatus st => "status " +:+ ss_name st
    | RsDescribe d => "describe " +:+ ss_name (sd_status d)
    | RsInfo i => "info " +:+ di_version i
    | RsLog line => "log " +:+ ln_msg line
    | RsHeartbeat => "heartbeat"
    end;
  decode_request _ := Err "missing field `type`";
  frame_fault _ _ := None;
  bind_fault _ _ := None;
  command_fault _ := None;
|}.

Definition example_data : DataDir := {| data_root := "/data"; data_path l := join "/" ("/data" :: l) |}.

(** A request on the example supervisor, answered on a machine without faults. *)
Definition ask (req : Request) : option (Result unit) * World :=
  handle_ipc (H := quiet_host) (H0 := example_nss) (H1 := example_json)
    (H2 := example_data) (H3 := example_times) (H4 := example_version) (H5 := example_process)
    (H6 := example_wire) example_supervisor 1 300 req example_world.


Lemma unknown_service_reply_witness :
  ∃ r w' new, ask (RqStop "nope") = (Some r, w') ∧ hist w' = new ++ [] ∧
    frames new = ["error not_found unknown service 'nope'"].
Proof.
  refine (unknown_service_reply (H := quiet_host) (H0 := example_nss) (H1 := example_json)
    (H2 := example_data) (H3 := example_times) (H4 := example_version) (H5 := example_process)
    (H6 := example_wire) example_supervisor 1 300 (RqStop "nope") "nope" example_world eq_refl (λ _ _ Hs, Hs) _).
  by split.
Defined.

(** The example configuration, with one allowed user. *)
Definition example_allowing : Config := {|
  cf_version := 1;
  cf_logs := cf_logs (example_cfg []);
  cf_early_boot := default_early_boot_config;
  cf_socket := "/run/microinit.sock";
  cf_console := "/dev/console";
  cf_socket_allow_users := [" nobody "];
  cf_open_telemetry := default_open_telemetry;
  cf_env_file := [];
  cf_services := [];
|}.

Lemma serve_options_resolved_witness :
  ∃ opts gid, serve_options "/run/microinit.sock" (mkIpcAllow 0 [65534%N] (Some 65534%N)) = Ok opts ∧
    so_mode opts = 432%N ∧ so_chown opts = Some (0%N, gid).
Proof.
  destruct (serve_options_resolved (H0 := example_nss) example_allowing
    (mkIpcAllow 0 [65534%N] (Some 65534%N)) "/run/microinit.sock")
    as (opts & Ho & _ & _ & _ & Hm & gid & Hg); [reflexivity|]. exists opts, gid. split; [exact Ho|].
  split; [exact Hm|exact Hg].
Defined.

Lemma requests_answered_witness :
  let req := RqEnable "web" false in
  one_shot req = true ∧
  ∃ r w', ask req = (Some r, w') ∧ r = Ok tt ∧ ∃ rsp, frames (hist w') = [encode_response (Wire := example_wire) rsp].
Proof.
  split; [reflexivity|].
  destruct (requests_answered (H := quiet_host) (H0 := example_nss) (H1 := example_json) (H2 := example_data)
    (H3 := example_times) (H4 := example_version) (H5 := example_process) (H6 := example_wire)
    example_supervisor 1 300 (RqEnable "web" false) example_world (eq_refl _))
    as (r & w' & new & rs & Hr & Hh & Hf & Ha & _).
  exists r, w'. split; [exact Hr|]. assert ((ask (RqEnable "web" false)).1 = Some (Ok tt)) as Hok by (vm_compute; reflexivity).
  unfold ask in Hok. rewrite Hr in Hok. injection Hok as ->. split; [reflexivity|].
  rewrite Hh, app_nil_r, Hf. destruct Ha as (rsp & -> & _). exists rsp. reflexivity.
Defined.
