(* ===== verification/Init.v ===== *)
(** The daemon: [init.rs] (with the [init] and [otel] features), the final step of
    [shutdown.rs], the start of the configuration watcher ([config_watch.rs]) and of
    the metrics thread ([otel.rs]), and the loop of the reaper thread ([reaper.rs]).

    The loops run for a given number of rounds.  To [run] the threads that it starts
    (clients, monitors, reaper, watcher, metrics) are interference; [System.v] puts them
    together. *)

From Stdlib Require Import Ascii.
From S2P Require Import Prelude Constants RustStr Error Security Config Graph Protocol Logs Watch.
From S2P Require Import Reaper Runtime World Console Logic EnvFile Service Store Supervisor EarlyBoot Describe.
From S2P Require Import FileWatch LogIO Version OtelEnv DaemonInfo Requests.
#[local] Open Scope stdpp_scope.

(** [InitOpts] *)
Record InitOpts := mkInitOpts {
  io_logs_tty : string;
  io_init_logs_tty : string;
  io_console : string;
  io_paths : Paths;
  io_skip_early_boot : bool;
  io_require_early_boot : bool;
  io_log_to_files : bool;
  io_early_boot_logs_path : option string;
  io_spawn_getty : bool;
  io_attach_ttys : bool;
  io_socket : string;
  io_machine_shutdown : bool;
}.

(** [InitOpts::default] *)
Definition default_init_opts `{DataDir} : InitOpts := {|
  io_logs_tty := DEFAULT_LOGS_TTY;
  io_init_logs_tty := DEFAULT_INIT_LOGS_TTY;
  io_console := DEFAULT_CONSOLE;
  io_paths := default_paths;
  io_skip_early_boot := false;
  io_require_early_boot := true;
  io_log_to_files := false;
  io_early_boot_logs_path := None;
  io_spawn_getty := true;
  io_attach_ttys := true;
  io_socket := default_socket_path;
  io_machine_shutdown := true;
|}.

Definition supervise_opts (console : string) (paths : Paths) (socket : string) (log_to_files : bool) :
    InitOpts := {|
  io_logs_tty := DEFAULT_LOGS_TTY;
  io_init_logs_tty := DEFAULT_INIT_LOGS_TTY;
  io_console := console;
  io_paths := paths;
  io_skip_early_boot := true;
  io_require_early_boot := false;
  io_log_to_files := log_to_files;
  io_early_boot_logs_path := None;
  io_spawn_getty := false;
  io_attach_ttys := false;
  io_socket := socket;
  io_machine_shutdown := false;
|}.

(** The answers of the machine to the daemon's own calls. *)
Class Machine `{Host} := {
  machine_scripts :: Scripts;
  sigaction_answer : list Event → signal → option string;
  (** what [waitpid] answers, until it is asked no more *)
  waitpid_answers : list Event → list WaitStatus;
  (** whether the watcher has sent a signal that was not received yet *)
  reload_signal : list Event → bool;
  watcher_fault : list Event → option string;
  (** the file name of the first argument *)
  arg0_name : option string;
  (** whether [reboot(2)] returns, that is, fails *)
  reboot_returns : list Event → bool;
  (** why a program could not be run to its end *)
  program_fault : list Event → list string → option string;
}.

(** What the main loop is given: the socket, whether the watcher runs, and the
    terminals chosen. *)
Record Started := mkStarted { mn_socket : string; mn_watching : bool; mn_terminals : Terminals }.

Section init.
Context `{Host, Nss, HashOrder, FirstKey, Json, DataDir, !FileTimes, VersionEnv, Process, !Wire, !Machine}.

(** ** Early-boot logs *)

(** [fatal_early_boot_logs_path] *)
Definition fatal_early_boot_logs_path (opts : InitOpts) : M (option string) :=
  match io_early_boot_logs_path opts with
  | Some p => mret (Some p)
  | None =>
      live ← peek_early_boot_capture (ps_config (io_paths opts));
      match live with
      | PeekEnabled p => mret (Some p)
      | PeekDisabled => mret None
      | PeekAbsent =>
          match path_parent (ps_early_boot (io_paths opts)) with
          | None => mret None
          | Some dir =>
              image ← peek_early_boot_capture (path_join dir "microinit.json");
              mret (match image with PeekEnabled p => Some p | _ => None end)
          end
      end
  end.

(** [persist_early_boot_logs] *)
Definition persist_early_boot_logs (preview : option string) (opts : InitOpts) (out : EarlyBootOutput) :
    M unit :=
  if negb (eo_captured out) then
    boot_note preview "early-boot log capture: stdio was not captured; nothing to write"
  else
    path ← fatal_early_boot_logs_path opts;
    match path with
    | None =>
        boot_note preview
          "early-boot logs not written (no --early-boot-logs-path and captureLogs not enabled in an existing config)"
    | Some path =>
        r ← write_captured path out;
        boot_note preview (match r with
          | Ok n => "early-boot logs written to " +:+ path +:+ " (" +:+ pretty n +:+ " lines)"
          | Err e => "early-boot logs not written to " +:+ path +:+ ": " +:+ Error.to_string e
          end)
    end.

(** [flush_early_boot_logs] *)
Definition flush_early_boot_logs (cfg : Config) (captured : option EarlyBootOutput) (skipped : bool) :
    M unit :=
  let path := eb_logs_path (cf_early_boot cfg) in
  if negb (eb_capture_logs (cf_early_boot cfg)) then
    emit_init LogLevel.Info "early-boot log capture disabled"
  else if skipped then
    emit_init LogLevel.Info "early-boot log capture not applicable (supervise / --no-early-boot)"
  else match captured with
  | None => emit_init LogLevel.Warn "early-boot log capture enabled but nothing to write"
  | Some out =>
      if negb (eo_captured out) then
        emit_init LogLevel.Warn
          ("early-boot log capture enabled but stdio was not captured; skipping " +:+ path)
      else
        r ← write_captured path out;
        match r with
        | Ok n => emit_init LogLevel.Info ("early-boot logs written to " +:+ path +:+ " (" +:+ pretty n +:+ " lines)")
        | Err e => emit_init LogLevel.Warn ("early-boot logs not written to " +:+ path +:+ ": " +:+ Error.to_string e)
        end
  end.

(** ** Shutdown *)

(** [shutdown::finalize]; it does not return. *)
Definition finalize (mode : ShutdownMode.t) : M unit :=
  effect EvSync;;
  if decide (process_id ≠ 1%N) then effect (EvExit 0);; no_return
  else
    returned ← asks reboot_returns (EvReboot mode);
    if returned : bool then
      effect (EvStderr ("microinit: reboot(" +:+ ShutdownMode.to_string mode +:+ ") failed; exiting"));;
      effect (EvExit 1);; no_return
    else no_return.

(** What the main loop does once a shutdown was requested; it does not return. *)
Definition shut_down (opts : InitOpts) (st : Started) (mode : ShutdownMode.t) : M unit :=
  emit_init LogLevel.Info ("shutdown requested: " +:+ ShutdownMode.to_string mode);;
  stop_all_ordered;;
  effect (EvRemove (mn_socket st));;
  if negb (io_machine_shutdown opts) then
    effect EvSync;;
    emit_init LogLevel.Info "supervise shutdown complete; exiting";;
    effect (EvExit 0);; no_return
  else
    emit_init LogLevel.Info "running late-shutdown unmount";;
    r ← run_unmount (io_paths opts) (mn_terminals st);
    (match r with
     | Ok _ => mret tt
     | Err e =>
         emit_init LogLevel.Warn
           ("unmount failed (continuing to " +:+ ShutdownMode.to_string mode +:+ "): " +:+ Error.to_string e)
     end);;
    finalize mode.

(** ** The main loop *)

(** Load the configuration: [load_config_after_early_boot], also on a reload. *)
Definition load_config_after_early_boot (opts : InitOpts) : M (Result Config) :=
  let paths := io_paths opts in
  cfg <-? load_or_create_with_dropins (ps_config paths) (ps_example paths) (ps_override_file paths)
            (ps_dropins_dir paths);
  mret (Ok (set_cf_socket (io_socket opts) cfg)).

(** One reload signal. *)
Definition reload_once (opts : InitOpts) : M unit :=
  cfg ← load_config_after_early_boot opts;
  match cfg with
  | Ok cfg =>
      r ← reload cfg;
      match r with
      | Ok _ => mret tt
      | Err e => emit_init LogLevel.Error ("config reload apply failed: " +:+ Error.to_string e)
      end
  | Err e => emit_init LogLevel.Warn ("config reload ignored (keep old): " +:+ Error.to_string e)
  end.

(** The reload signals waiting, for at most [n] of them. *)
Fixpoint drain_reloads (n : nat) (opts : InitOpts) (watching : bool) : M unit :=
  signal ← asks reload_signal EvReloadSignal;
  if negb (watching && signal) then mret tt
  else match n with
  | O => no_return
  | S n => reload_once opts;; drain_reloads n opts watching
  end.

(** Publish the exits of the children that have ended. *)
Definition publish_exits : M unit :=
  exits ← asks (λ h, (reap_zombies (waitpid_answers h)).1) EvReap;
  for_each_m exits (λ '(pid, code), updates (λ s, set_exits (exits_publish pid code (sh_exits s)) s)).

Definition publish_zombies : M unit :=
  updates (λ s, set_signals (sigchld_pending (sh_signals s)).2 s);;
  publish_exits.

(** The thread of [ensure_reaper_thread], for [n] rounds. *)
Fixpoint reaper_loop (n : nat) : M unit :=
  match n with
  | O => no_return
  | S n => publish_exits;; sleep CTL_POLL;; reaper_loop n
  end.

(** One round of the main loop. *)
Definition main_round (n : nat) (opts : InitOpts) (st : Started) : M unit :=
  publish_zombies;;
  drain_reloads n opts (mn_watching st);;
  mode ← atomic (λ s, let '(mode, g) := take_shutdown (sh_signals s) in (mode, set_signals g s));
  (match mode with Some mode => shut_down opts st mode | None => mret tt end);;
  sleep INIT_LOOP_SLEEP.

(** The main loop, for at most [n] rounds. *)
Fixpoint main_loop (n : nat) (opts : InitOpts) (st : Started) : M (Result unit) :=
  match n with
  | O => no_return
  | S n => main_round n opts st;; main_loop n opts st
  end.

(** ** The procedure *)

(** The terminals the options name. *)
Definition given_terminals (opts : InitOpts) : Terminals :=
  mkTerminals (io_logs_tty opts) (io_init_logs_tty opts) (io_console opts).

(** The early boot: what it printed, or the error that ends the procedure. *)
Definition early_boot_phase (preview : option string) (opts : InitOpts) :
    M (Result (option EarlyBootOutput)) :=
  if io_skip_early_boot opts then
    boot_note preview "skipping early-boot (--no-early-boot / supervise)";;
    mret (Ok None)
  else
    ran ← run_early_boot (io_paths opts) (given_terminals opts);
    let '(out, r) := ran in
    match r with
    | Ok _ =>
        boot_note preview "early-boot finished; loading configuration from disk";;
        mret (Ok (Some out))
    | Err e =>
        boot_note preview ("early-boot failed: " +:+ Error.to_string e);;
        if io_require_early_boot opts then
          persist_early_boot_logs preview opts out;;
          mret (Err e)
        else
          boot_note preview "continuing without early-boot; loading configuration from disk";;
          mret (Ok (Some out))
    end.

(** [config_watch::spawn]: whether the watcher runs. *)
Definition spawn_watcher (etc_dir dropins_dir : string) : M bool :=
  fault ← asks watcher_fault (EvWatchConfig (watch_specs etc_dir dropins_dir) DEBOUNCE);
  match fault with
  | Some e => emit_init LogLevel.Warn ("config watch unavailable: " +:+ e);; mret false
  | None =>
      dropins ← asks (λ h, read_dir_answer h dropins_dir) (EvReadDir dropins_dir);
      emit_init LogLevel.Info
        ("config watch active on " +:+ etc_dir +:+ " (drop-ins " +:+
         (if is_ok dropins then "recursive" else "pending") +:+ ")");;
      mret true
  end.

(** [otel::maybe_spawn] *)
Definition maybe_spawn (cfg : OpenTelemetryConfig) : M unit :=
  if negb (ot_enable cfg) then mret tt
  else
    fault ← asks thread_fault (EvThread "otel-metrics");
    match fault with
    | Some e => emit_init LogLevel.Warn ("otel: failed to spawn thread: " +:+ e)
    | None =>
        emit_init LogLevel.Info
          ("otel: metrics thread started (endpoint " +:+ ot_endpoint cfg +:+ ", initial sleep 10s)")
    end.

(** The getty, for a full init that is process 1. *)
Definition getty_phase (opts : InitOpts) : M unit :=
  if io_spawn_getty opts && bool_decide (process_id = 1%N) then effect (EvThread "getty")
  else if negb (io_spawn_getty opts) then emit_init LogLevel.Info "getty disabled (supervise)"
  else emit_init LogLevel.Info "not PID 1; skipping getty respawn".

(** [getty_respawn], for [n] rounds: a getty on the console, or a shell when it could
    not be run, again and again. *)
Fixpoint getty_respawn (n : nat) (console : string) : M unit :=
  match n with
  | O => no_return
  | S n =>
      let getty := ["/sbin/getty"; "-L"; "115200"; trim_start_matches "/dev/" console; "vt100"] in
      fault ← asks (λ h, program_fault h getty) (EvProgram getty);
      (match fault with
       | Some _ => effect (EvProgram ["/bin/sh"; "-l"])
       | None => mret tt
       end);;
      sleep GETTY_RESPAWN_DELAY;;
      getty_respawn n console
  end.

(** [Supervisor::new] in the running process: the statics stay as they are. *)
Definition install_supervisor (cfg : Config) (s : Shared) : Shared :=
  let new := new_shared cfg (sh_hub s) in
  set_bridge (sh_bridge s) (set_version (sh_version s) (set_otel_cache (sh_otel_cache s) (set_process_env (sh_process_env s)
    (set_signals (sh_signals s) (set_files (sh_files s) (set_env (sh_env s)
    (set_reaper_started (sh_reaper_started s) (set_exits (sh_exits s) new)))))))).

(** A terminal named by an option, unless it is the default. *)
Definition chosen_tty (given fallback configured : string) : string :=
  if decide (given = fallback) then configured else given.

Definition set_log_to_files (c : Config) : Config :=
  mkConfig (cf_version c) (mkLogsConfig (lg_tty (cf_logs c)) (lg_init_tty (cf_logs c)) (lg_lines (cf_logs c))
    (lg_dir (cf_logs c)) true) (cf_early_boot c) (cf_socket c) (cf_console c) (cf_socket_allow_users c)
    (cf_open_telemetry c) (cf_env_file c) (cf_services c).

(** The lines about the logs. *)
Definition announce_logs (opts : InitOpts) (cfg : Config) (captured : option EarlyBootOutput)
    (logs_tty init_logs_tty : string) : M unit :=
  emit_init LogLevel.Info "configuration loaded";;
  flush_early_boot_logs cfg captured (io_skip_early_boot opts);;
  (if io_attach_ttys opts then
     emit_init LogLevel.Info ("service logs on " +:+ logs_tty +:+ "; init logs on " +:+ init_logs_tty)
   else emit_init LogLevel.Info "TTY attach disabled (supervise); logs via ring/IPC");;
  match lg_dir (cf_logs cfg) with
  | Some dir =>
      if lg_log_to_files (cf_logs cfg)
      then emit_init LogLevel.Info ("logToFiles enabled; writing under " +:+ dir) else mret tt
  | None => mret tt
  end.

(** What follows the creation of the supervisor, up to the main loop: the socket, the
    watcher, the services, the metrics and the getty.  It returns whether the watcher
    runs. *)
Definition start_daemon (opts : InitOpts) (self : Supervisor) (socket_path : string) (allow : IpcAllow) :
    M (Result bool) :=
  _ <-? serve socket_path allow;
  emit_init LogLevel.Info ("IPC listening on " +:+ socket_path);;
  let etc_dir := default "/data/etc" (path_parent (ps_config (io_paths opts))) in
  watching ← spawn_watcher etc_dir (ps_dropins_dir (io_paths opts));
  emit_init LogLevel.Info "starting services";;
  _ <-? boot self;
  emit_init LogLevel.Info "boot complete";;
  otel ← open_telemetry;
  maybe_spawn otel;;
  updates (λ s, set_hub (end_boot_tee (sh_hub s)) s);;
  emit_init LogLevel.Info "boot tee ended; further lifecycle logs only on init-logs-tty";;
  getty_phase opts;;
  mret (Ok watching).

(** The part of [run] after the configuration was loaded, up to the main loop. *)
Definition start_configured (opts : InitOpts) (preview : option string) (cfg : Config)
    (captured : option EarlyBootOutput) : M (Result Started) :=
  env ← load_otel_default;
  (match env with
   | Ok _ => mret tt
   | Err e => boot_note preview ("otel.env load failed (continuing): " +:+ e)
   end);;
  let logs_tty := chosen_tty (io_logs_tty opts) DEFAULT_LOGS_TTY (lg_tty (cf_logs cfg)) in
  let init_logs_tty := chosen_tty (io_init_logs_tty opts) DEFAULT_INIT_LOGS_TTY (lg_init_tty (cf_logs cfg)) in
  let cfg := if io_log_to_files opts then set_log_to_files cfg else cfg in
  let attach tty := if io_attach_ttys opts then Some tty else None in
  hub ← log_hub_new (N.to_nat (lg_lines (cf_logs cfg))) (attach logs_tty) (attach init_logs_tty)
          (effective_log_dir (cf_logs cfg));
  updates (set_hub hub);;
  bridge_set_hub;;
  console ← open_with_hub (io_console opts) true;
  announce_logs opts cfg captured logs_tty init_logs_tty;;
  allow <-? mret (resolved_ipc_allow cfg);
  now ← instant_now;
  let self := mkSupervisor (ps_override_file (io_paths opts)) (ps_config (io_paths opts))
    (ps_dropins_dir (io_paths opts)) now
    (if io_machine_shutdown opts then DaemonMode.Init else DaemonMode.Supervise) console in
  updates (install_supervisor cfg);;
  watching <-? start_daemon opts self (cf_socket cfg) allow;
  mret (Ok (mkStarted (cf_socket cfg) watching (mkTerminals logs_tty init_logs_tty (io_console opts)))).

(** [run], with at most [n] rounds of the main loop. *)
Definition run (n : nat) (opts : InitOpts) : M (Result unit) :=
  let preview := if io_attach_ttys opts then Some (io_init_logs_tty opts) else None in
  fault ← asks (λ h, (install_handlers (sigaction_answer h) handlers).2) EvSigaction;
  (match fault with
   | Some e => boot_note preview ("warning: could not install signal handlers: " +:+ e)
   | None => mret tt
   end);;
  captured <-? early_boot_phase preview opts;
  loaded ← load_config_after_early_boot opts;
  match loaded with
  | Err e =>
      (match captured with
       | Some out => persist_early_boot_logs preview opts out
       | None => mret tt
       end);;
      mret (Err e)
  | Ok cfg =>
      started <-? start_configured opts preview cfg captured;
      main_loop n opts started
  end.

(** [should_auto_init] *)
Definition should_auto_init : bool :=
  bool_decide (process_id = 1%N) || bool_decide (arg0_name = Some "init").
End init.
