(* ===== verification/InitSpec.v ===== *)
(** What the daemon does: how it starts, reloads and shuts down. *)

From Stdlib Require Import Ascii.
From S2P Require Import Prelude Constants RustStr Error Security Config Graph Protocol Logs Watch.
From S2P Require Import Reaper Runtime World Console Logic Trace EnvFile Service Store Supervisor EarlyBoot Describe.
From S2P Require Import Version OtelEnv DaemonInfo Isolation Timing Acts MonitorSpec Sequencing Reload.
From S2P Require Import FileWatch LogIO Events Requests Replies Init.
#[local] Open Scope stdpp_scope.

(** ** The steps of the daemon *)

(** Those of the supervisor, and the daemon's own. *)
Inductive DaemonStep :=
  | Supervised (s : Step)
  | Listening (path : string)
  | Threaded (name : string)
  | Watching (specs : list WatchSpec)
  | RanScript (source : string) (env : list (string * string))
  | Removed (path : string)
  | Synced
  | Rebooted (mode : ShutdownMode.t)
  | Exited (code : Z).

Definition daemon_step (e : Event) : option DaemonStep :=
  match e with
  | EvListen path => Some (Listening path)
  | EvThread name => Some (Threaded name)
  | EvWatchConfig specs _ => Some (Watching specs)
  | EvScript source env => Some (RanScript source env)
  | EvRemove path => Some (Removed path)
  | EvSync => Some Synced
  | EvReboot mode => Some (Rebooted mode)
  | EvExit code => Some (Exited code)
  | _ => Supervised <$> step_of e
  end.

Definition daemon_steps : list Event → list DaemonStep := steps_by daemon_step.

#[local] Abbreviation dtraces := (traces_by daemon_step).
#[local] Abbreviation dends := (ends_by daemon_step).

(** Routine computations only take the steps of the supervisor. *)
Lemma routine_steps new : Forall (λ e, Is_true (routine e)) new → daemon_steps new = Supervised <$> steps_of new.
Proof.
  intros Hn%Forall_reverse. unfold daemon_steps, steps_of, steps_by. induction Hn as [|e l He _ IH]; [done|].
  cbn [omap list_omap]. destruct e; simpl in *; try done; by f_equal.
Qed.

Lemma routine_dtraces `{Host} {A} (m : M A) Q :
  routinely m → traces m Q → dtraces m (λ a t, ∃ ts, t = Supervised <$> ts ∧ Q a ts).
Proof.
  intros Hr Hm w a w' Ha. destruct (Hm w a w' Ha) as (new & Hh & HQ). exists new. split; [done|].
  exists (steps_of new). split; [|done]. apply routine_steps. specialize (Hr w). rewrite Ha in Hr.
  destruct Hr as (new' & Hh' & Hn). simpl in Hh'. rewrite Hh in Hh'. by apply app_inv_tail in Hh' as ->.
Qed.

(** A log line is no step of the daemon. *)
Definition uneventful (e : Event) : Prop := daemon_step e = None.

Section spec.
Context `{Host, Nss, HashOrder, FirstKey, Json, DataDir, !FileTimes, VersionEnv, Process, !Wire, !Machine}.

Lemma unseen_emit_init level msg : emits (unseen daemon_step) (emit_init level msg).
Proof. unfold emit_init, emit, publish_line. emits_solve. Qed.
Lemma unseen_boot_note tty msg : emits (unseen daemon_step) (boot_note tty msg).
Proof. unfold boot_note, open_tty, fs_open. emits_solve. Qed.
#[local] Hint Resolve unseen_emit_init unseen_boot_note : emits.

(** ** Shutdown *)

(** The last steps: a reboot that returns is followed by the end of the process. *)
Definition final_steps (mode : ShutdownMode.t) (t : list DaemonStep) : Prop :=
  if decide (process_id ≠ 1%N) then t = [Synced; Exited 0]
  else ∃ returned : bool, t = [Synced; Rebooted mode] ++ (if returned then [Exited 1] else []).

Lemma ends_finalize mode : dends (finalize mode) (final_steps mode).
Proof.
  unfold finalize, final_steps. eapply ends_effect_bind; [done|]. case_decide.
  - eapply ends_effect_bind; [done|]. by apply ends_no_return.
  - eapply ends_bind; [apply returns_asks|by apply (traces_asks _ _ (Rebooted mode) (λ _ t, t = [Rebooted mode]))|].
    intros [] t ->; [|apply ends_no_return; by exists false].
    apply ends_silent_bind; [apply returns_effect|by apply emits_effect|].
    intros _. eapply ends_effect_bind; [done|]. apply ends_no_return. by exists true.
Qed.

(** The only step of running a script. *)
Lemma traces_run_script note source tm :
  dtraces (run_script note source tm) (λ _ t, t = [RanScript (source_name source) (script_env tm)]).
Proof.
  unfold run_script. apply traces_silent_bind; [emits_solve|intros _]. by apply (traces_asks _ _ (RanScript (source_name source) (script_env tm))).
Qed.

Lemma traces_run_unmount paths tm :
  dtraces (run_unmount paths tm) (λ _ t, ∃ source, t = [RanScript source (script_env tm)]).
Proof.
  unfold run_unmount, resolve_unmount, resolve_among.
  eapply traces_silent_bind; [unfold fs_exists; emits_solve|intros source].
  eapply traces_bind; [apply traces_run_script|]. intros ran t ->. apply traces_ret. eauto.
Qed.

Lemma returns_run_unmount paths tm : returns (run_unmount paths tm).
Proof. unfold run_unmount, resolve_unmount, resolve_among, run_script, fs_exists. returns_solve. Qed.

(** What follows the stop of the services. *)
Definition shutdown_tail (opts : InitOpts) (st : Started) (mode : ShutdownMode.t) (t : list DaemonStep) : Prop :=
  if io_machine_shutdown opts
  then ∃ source rest, final_steps mode rest ∧
       t = Removed (mn_socket st) :: RanScript source (script_env (mn_terminals st)) :: rest
  else t = [Removed (mn_socket st); Synced; Exited 0].

Lemma ends_shutdown_tail opts st mode :
  dends (effect (EvRemove (mn_socket st));;
         if negb (io_machine_shutdown opts) then
           effect EvSync;;
           emit_init LogLevel.Info "supervise shutdown complete; exiting";;
           effect (EvExit 0);; no_return
         else
           emit_init LogLevel.Info "running late-shutdown unmount";;
           r ← run_unmount (io_paths opts) (mn_terminals st);
           (match r with
            | Ok _ => mret tt
            | Err e =>
                emit_init LogLevel.Warn
                  ("unmount failed (continuing to " +:+ ShutdownMode.to_string mode +:+ "): " +:+ Error.to_string e)
            end);;
           finalize mode)
    (shutdown_tail opts st mode).
Proof.
  eapply ends_effect_bind; [done|]. unfold shutdown_tail. destruct (io_machine_shutdown opts); simpl.
  - apply ends_silent_bind; [returns_solve|emits_solve|intros _].
    eapply ends_bind; [apply returns_run_unmount|apply traces_run_unmount|]. intros r t [source ->].
    apply ends_silent_bind; [returns_solve|emits_solve|intros _].
    eapply ends_weaken; [apply ends_finalize|]. intros t Ht. by exists source, t.
  - eapply ends_effect_bind; [done|]. apply ends_silent_bind; [returns_solve|emits_solve|intros _].
    eapply ends_effect_bind; [done|]. by apply ends_no_return.
Qed.

(** The stop flag is raised, and the services are sent their messages. *)
Definition services_told (order : list string) : Acts :=
  anything ⨾ one (λ _ e, ∃ s, e = EvStep s (set_stop_all true s)) ⨾ stop_acts order ⨾ anything.

Lemma services_told_then order h n1 n2 : services_told order (n1 ++ h) n2 → services_told order h (n2 ++ n1).
Proof. apply anything_then. Qed.

(** The whole shutdown, once a mode was taken. *)
Lemma shut_down_run opts st mode w :
  let services := cf_services (sh_config (shared w)) in
  NoDup (sc_name <$> services) →
  (∀ h s, sh_config (interfere h s) = sh_config s) →
  (∀ h s, sh_stop_all s = true → sh_stop_all (interfere h s) = true) →
  ∃ order rest new w', shut_down opts st mode w = (None, w') ∧ hist w' = new ++ hist w ∧
    shutdown_ordered services order ∧ shutdown_tail opts st mode rest ∧
    daemon_steps new = (Supervised <$> stop_steps order) ++ rest ∧ services_told order (hist w) new.
Proof.
  intros services Hnd Hconfig Hstop. unfold shut_down.
  destruct (returns_emit_init LogLevel.Info ("shutdown requested: " +:+ ShutdownMode.to_string mode) w) as ([] & w1 & Hr1 & _).
  rewrite (bind_step _ _ _ _ _ Hr1).
  assert (sh_config (shared w1) = sh_config (shared w)) as Hc.
  { assert (quiet_closed (kept (λ s, sh_config s = sh_config (shared w)))) as Hq by closed_solve.
    assert (∀ h s, sh_config s = sh_config (shared w) → sh_config (interfere h s) = sh_config (shared w)) as Hrely
      by (intros; by rewrite Hconfig).
    pose proof (keeps_survives _ _ Hrely (keeps_emit_init _ Hq LogLevel.Info
      ("shutdown requested: " +:+ ShutdownMode.to_string mode)) w eq_refl) as Hk.
    by rewrite Hr1 in Hk. }
  destruct (shutdown_sequence w1) as (order & new2 & w2 & Hr2 & Hh2 & Ho & Hs & Htold & _); [by rewrite Hc|done|done|].
  rewrite Hc in Ho. rewrite (bind_step _ _ _ _ _ Hr2).
  destruct (ends_shutdown_tail opts st mode w2) as (w3 & new3 & Hr3 & Hh3 & Ht). rewrite Hr3.
  destruct (traces_silent (view := daemon_step) _ (λ _ t, t = []) (unseen_emit_init LogLevel.Info _) (λ _, eq_refl) _ _ _ Hr1)
    as (new1 & Hh1 & Hs1).
  exists order, (daemon_steps new3), (new3 ++ new2 ++ new1), w3. split; [done|].
  split; [by rewrite Hh3, Hh2, Hh1, <-!app_assoc|]. split; [done|]. split; [done|]. split.
  2:{ rewrite (assoc_L (++)). apply services_told_then, anything_here. rewrite Hh1 in Htold.
      destruct Htold as (k1 & k2 & -> & Hk1 & Hk2). rewrite (assoc_L (++)). apply next_intro; [done|].
      by apply next_intro. }
  unfold daemon_steps in *. unfold steps_by in *. rewrite !reverse_app, !omap_app, Hs1. simpl. f_equal.
  rewrite <-Hs. symmetry. pose proof (routine_stop_all_ordered w1) as Hr. rewrite Hr2 in Hr.
  destruct Hr as (new2' & Hh2' & Hn). simpl in Hh2'. rewrite Hh2 in Hh2'. apply app_inv_tail in Hh2' as <-.
  symmetry. by apply routine_steps.
Qed.

(** ** The main loop *)

(** A shutdown in this mode has been requested. *)
Definition pending (mode : ShutdownMode.t) (s : Shared) : Prop :=
  flag_to_mode (shutdown_flag (sh_signals s)) = Some mode.

Lemma returns_publish_zombies : returns publish_zombies.
Proof. unfold publish_zombies, publish_exits. returns_solve. Qed.

Lemma unseen_publish_zombies : emits (unseen daemon_step) publish_zombies.
Proof. unfold publish_zombies, publish_exits. emits_solve. Qed.

Lemma publish_zombies_survives c mode :
  (∀ h s, sh_config (interfere h s) = sh_config s) → (∀ h s, pending mode s → pending mode (interfere h s)) →
  survives (λ s, sh_config s = c ∧ pending mode s) publish_zombies.
Proof.
  intros Hconfig Hpend.
  assert (∀ h s, sh_config s = c ∧ pending mode s → sh_config (interfere h s) = c ∧ pending mode (interfere h s)) as Hrely.
  { intros h s [<- Hp]. split; [apply Hconfig|by apply Hpend]. }
  apply (keeps_survives _ _ Hrely). unfold publish_zombies, publish_exits. keeps_solve; by intros ? ?.
Qed.

(** Without signals the reloads take no step. *)
Lemma drain_idle n opts watching w :
  watching = false ∨ (∀ h, reload_signal h = false) →
  drain_reloads n opts watching w = (Some tt, mkWorld (shared w) (EvReloadSignal :: hist w)).
Proof.
  intros Hidle. assert (watching && reload_signal (hist w) = false) as Hb.
  { destruct Hidle as [->|Hs]; [done|]. by rewrite Hs, andb_false_r. }
  unfold asks, mbind, M_bind. destruct n; simpl; unfold asks, mbind, M_bind; by rewrite Hb.
Qed.
End spec.

(** ** Starting *)

Section starting.
Context `{Host, Nss, HashOrder, FirstKey, Json, DataDir, !FileTimes, VersionEnv, Process, !Wire, !Machine}.
#[local] Hint Resolve unseen_emit_init unseen_boot_note : emits.

Lemma filing_unseen {A} (m : M A) : files_only m → emits (unseen daemon_step) m.
Proof. apply emits_weaken. by intros []. Qed.
#[local] Hint Extern 5 (emits _ _) => (apply filing_unseen; solve [eauto with filing]) : emits.

(** The script of the early boot is the only step before the configuration is loaded. *)
Definition early_steps (opts : InitOpts) (t : list DaemonStep) : Prop :=
  if io_skip_early_boot opts then t = []
  else ∃ source, t = [RanScript source (script_env (given_terminals opts))].

Lemma unseen_persist preview opts out : emits (unseen daemon_step) (persist_early_boot_logs preview opts out).
Proof. unfold persist_early_boot_logs, fatal_early_boot_logs_path. emits_solve. Qed.
#[local] Hint Resolve unseen_persist : emits.

Lemma traces_run_early_boot paths tm :
  dtraces (run_early_boot paths tm) (λ _ t, ∃ source, t = [RanScript source (script_env tm)]).
Proof.
  unfold run_early_boot, resolve_early_boot, resolve_among.
  eapply traces_silent_bind; [emits_solve|intros source].
  eapply traces_bind; [apply traces_run_script|]. intros ran t ->. apply traces_ret. eauto.
Qed.

Lemma traces_early_boot_phase preview opts :
  dtraces (early_boot_phase preview opts) (λ _ t, early_steps opts t).
Proof.
  unfold early_boot_phase, early_steps. destruct (io_skip_early_boot opts).
  { apply traces_silent; [emits_solve|done]. }
  eapply traces_bind; [apply traces_run_early_boot|]. intros [out r] t [source ->].
  apply traces_silent; [emits_solve|]. by exists source.
Qed.

(** The threads that are started once the services are. *)
Definition late_threads (opts : InitOpts) (t : list DaemonStep) : Prop :=
  ∃ otel : bool, t = (if otel then [Threaded "otel-metrics"] else []) ++
    (if io_spawn_getty opts && bool_decide (process_id = 1%N) then [Threaded "getty"] else []).

(** The directories watched. *)
Definition config_dirs (opts : InitOpts) : list WatchSpec :=
  watch_specs (default "/data/etc" (path_parent (ps_config (io_paths opts)))) (ps_dropins_dir (io_paths opts)).

(** The steps from the socket on: the socket comes first, then the watcher, then
    the boot; what follows a failure is left out. *)
Definition start_steps (opts : InitOpts) (socket_path : string) (services : list ServiceConfig)
    (r : Result bool) (t : list DaemonStep) : Prop :=
  match r with
  | Ok _ => ∃ boot rest,
      t = Listening socket_path :: Watching (config_dirs opts) :: (Supervised <$> boot) ++ rest ∧
      boot_outcome services (Ok tt) boot ∧ late_threads opts rest
  | Err e =>
      t = [Listening socket_path] ∨
      ∃ boot, t = Listening socket_path :: Watching (config_dirs opts) :: (Supervised <$> boot) ∧
        boot_outcome services (Err e) boot
  end.

Lemma traces_serve path allow :
  dtraces (serve path allow) (λ r t, t = [Listening path] ∨ (t = [] ∧ ¬ is_ok r)).
Proof.
  unfold serve. destruct (serve_options path allow) as [opts|e] eqn:Ho; [|apply traces_ret; right; by split; [|intros []]].
  assert (so_path opts = path) as Hp.
  { unfold serve_options in Ho. repeat (case_match; simplify_eq/=; try done). }
  destruct handler_router as [router|e]; [|apply traces_ret; right; by split; [|intros []]].
  change (dtraces (asks (λ h, bind_fault h (so_path opts)) (EvListen (so_path opts)) ≫= λ fault,
    mret (match fault with None => Ok tt | Some e => Err (map_bind e) end))
    (λ r t, t = [Listening path] ∨ (t = [] ∧ ¬ is_ok r))).
  rewrite Hp. eapply traces_bind; [by apply (traces_asks _ _ (Listening path) (λ _ t, t = [Listening path]))|].
  intros fault t ->. apply traces_ret. by left.
Qed.

Lemma dtraces_boot self c :
  (∀ h s, sh_config (interfere h s) = sh_config s) →
  traces_under (λ s, sh_config s = c) daemon_step (boot self)
    (λ r t, ∃ ts, t = Supervised <$> ts ∧ boot_outcome (cf_services c) r ts).
Proof.
  intros Hconfig w r w' Hc Hr. destruct (boot_run self w r w' Hr) as (new & Hh & Hb). exists new.
  split; [done|]. exists (steps_of new). unfold entered in Hb. rewrite Hconfig, Hc in Hb. split; [|done].
  pose proof (routine_boot self w) as Hn. rewrite Hr in Hn. destruct Hn as (new' & Hh' & Hn). simpl in Hh'.
  rewrite Hh in Hh'. apply app_inv_tail in Hh' as <-. by apply routine_steps.
Qed.

Lemma traces_spawn_watcher etc dropins :
  dtraces (spawn_watcher etc dropins) (λ _ t, t = [Watching (watch_specs etc dropins)]).
Proof.
  unfold spawn_watcher. apply traces_then_silent; [by apply (traces_asks _ _ (Watching (watch_specs etc dropins)))|].
  intros fault. emits_solve.
Qed.

Lemma traces_late opts :
  dtraces (otel ← open_telemetry;
           maybe_spawn otel;;
           updates (λ s, set_hub (end_boot_tee (sh_hub s)) s);;
           emit_init LogLevel.Info "boot tee ended; further lifecycle logs only on init-logs-tty";;
           getty_phase opts) (λ _ t, late_threads opts t).
Proof.
  apply traces_silent_bind; [emits_solve|intros otel].
  eapply (traces_bind _ _ (λ _ t, ∃ b : bool, t = if b then [Threaded "otel-metrics"] else [])).
  { unfold maybe_spawn. destruct (ot_enable otel); simpl; [|apply traces_ret; by exists false].
    eapply traces_weaken; [apply (traces_then_silent _ _ [Threaded "otel-metrics"])|intros [] t ->; by exists true].
    - by apply (traces_asks _ _ (Threaded "otel-metrics")).
    - intros fault. emits_solve. }
  intros [] t [b ->]. do 2 (apply traces_silent_bind; [emits_solve|intros _]).
  unfold getty_phase, late_threads. destruct (_ && _).
  - apply (traces_effect _ (Threaded "getty")); [done|]. by exists b.
  - apply traces_silent; [emits_solve|]. intros _. by exists b.
Qed.

(** The last part of the start, for the services that were booted. *)
Lemma traces_start_rest opts (watching : bool) :
  dtraces (otel ← open_telemetry;
           maybe_spawn otel;;
           updates (λ s, set_hub (end_boot_tee (sh_hub s)) s);;
           emit_init LogLevel.Info "boot tee ended; further lifecycle logs only on init-logs-tty";;
           getty_phase opts;;
           mret (Ok (E := Error.t) watching)) (λ r t, r = Ok watching ∧ late_threads opts t).
Proof.
  intros w r w' Hr. repeat (apply bind_Some in Hr as (? & ? & ? & Hr)). injection Hr as <- <-.
  match goal with H : getty_phase opts _ = (Some ?u, ?w2) |- _ =>
    destruct (traces_late opts w u w2) as (new & Hh & Ht); [|by exists new] end.
  repeat (apply bind_Some; do 2 eexists; split; [eassumption|]). eassumption.
Qed.

Lemma traces_start_daemon opts self socket_path allow c :
  (∀ h s, sh_config (interfere h s) = sh_config s) →
  traces_under (λ s, sh_config s = c) daemon_step (start_daemon opts self socket_path allow)
    (λ r t, start_steps opts socket_path (cf_services c) r t ∨ (t = [] ∧ ¬ is_ok r)).
Proof.
  intros Hconfig. set (I := λ s, sh_config s = c).
  assert (quiet_closed (kept I)) as Hq by closed_solve.
  assert (∀ h s, I s → I (interfere h s)) as Hrely by (intros h s Hs; unfold I in *; by rewrite Hconfig).
  pose proof (keeps_emit_init (kept I) Hq) as Hk. unfold start_daemon.
  eapply traces_under_bind; [apply (keeps_survives _ _ Hrely); unfold serve; keeps_solve|apply traces_serve|]. intros [[]|e] t Ht.
  2:{ apply traces_under_all, traces_ret. rewrite app_nil_r.
      destruct Ht as [->|[-> ?]]; [left; by left|right; by split; [|intros []]]. }
  destruct Ht as [->|[_ Ht]]; [|by destruct Ht].
  apply traces_under_silent; [by apply (keeps_survives _ _ Hrely)|emits_solve|intros _].
  eapply traces_under_bind; [apply (keeps_survives _ _ Hrely); unfold spawn_watcher; keeps_solve|apply traces_spawn_watcher|]. intros watching t ->.
  apply traces_under_silent; [by apply (keeps_survives _ _ Hrely)|emits_solve|intros _].
  eapply traces_under_then; [by apply dtraces_boot|]. intros [[]|e] t (ts & -> & Hb).
  2:{ apply traces_ret. left. right. exists ts. by rewrite app_nil_r. }
  apply traces_silent_bind; [emits_solve|intros _].
  eapply traces_weaken; [apply traces_start_rest|]. intros r t [-> Ht]. left. exists ts, t.
  by split; [|split].
Qed.
End starting.

(** ** The whole procedure *)

Section procedure.
Context `{Host, Nss, HashOrder, FirstKey, Json, DataDir, !FileTimes, VersionEnv, Process, !Wire, !Machine}.
#[local] Hint Resolve unseen_emit_init unseen_boot_note unseen_persist : emits.
#[local] Hint Extern 5 (emits _ _) => (apply filing_unseen; solve [eauto with filing]) : emits.

Lemma yields_load opts :
  yields (λ r, match r with Ok cfg => cf_socket cfg = io_socket opts | Err _ => True end)
    (load_config_after_early_boot opts).
Proof.
  intros w r w' Hr. unfold load_config_after_early_boot in Hr.
  apply bind_Some in Hr as ([cfg|e] & w1 & _ & Hr); by injection Hr as <- _.
Qed.

Lemma filing_load opts : files_only (load_config_after_early_boot opts).
Proof. unfold load_config_after_early_boot. apply emits_bind; [eauto with filing|]. intros [cfg|e]; emits_solve. Qed.

Lemma main_loop_never opts n st : yields (λ _, False) (main_loop n opts st).
Proof.
  induction n as [|n IH]; cbn [main_loop]; [by intros w r w' ?|].
  apply (yields_bind (λ _, True)); [done|]. intros _ _. exact IH.
Qed.

(** The steps before the main loop: nothing, or those from the socket on. *)
Definition started_steps (opts : InitOpts) (r : Result Started) (t : list DaemonStep) : Prop :=
  (t = [] ∧ ¬ is_ok r) ∨
  ∃ services, start_steps opts (io_socket opts) services
    (match r with Ok st => Ok (mn_watching st) | Err e => Err e end) t.

Lemma unseen_log_hub_new capacity service_tty init_tty log_dir :
  emits (unseen daemon_step) (log_hub_new capacity service_tty init_tty log_dir).
Proof. unfold log_hub_new, and_then_open, open_tty, fs_open. emits_solve. Qed.

Lemma emits_unseen_announce opts cfg captured tty1 tty2 :
  emits (unseen daemon_step) (announce_logs opts cfg captured tty1 tty2).
Proof. unfold announce_logs, flush_early_boot_logs. emits_solve. Qed.

Lemma traces_start_configured opts preview cfg captured :
  (∀ h s, sh_config (interfere h s) = sh_config s) → cf_socket cfg = io_socket opts →
  dtraces (start_configured opts preview cfg captured) (started_steps opts).
Proof.
  intros Hconfig Hsock. unfold start_configured, load_otel_default.
  do 2 (apply traces_silent_bind; [emits_solve|intros ?]). cbv zeta.
  set (logs_tty := chosen_tty (io_logs_tty opts) _ _). set (init_logs_tty := chosen_tty (io_init_logs_tty opts) _ _).
  set (cfg' := if io_log_to_files opts then _ else _).
  assert (cf_socket cfg' = io_socket opts) as Hsock' by (unfold cfg'; by destruct (io_log_to_files opts)).
  apply traces_silent_bind; [apply unseen_log_hub_new|intros hub].
  do 2 (apply traces_silent_bind; [unfold bridge_set_hub; emits_solve|intros _]).
  apply traces_silent_bind; [unfold open_with_hub, fs_open; emits_solve|intros console].
  apply traces_silent_bind; [apply emits_unseen_announce|intros _].
  destruct (resolved_ipc_allow cfg') as [allow|e].
  2:{ apply traces_ret. left. by split; [|intros []]. }
  change (dtraces (now ← instant_now;
    updates (install_supervisor cfg');;
    watching <-? start_daemon opts (mkSupervisor (ps_override_file (io_paths opts)) (ps_config (io_paths opts))
      (ps_dropins_dir (io_paths opts)) now
      (if io_machine_shutdown opts then DaemonMode.Init else DaemonMode.Supervise) console) (cf_socket cfg') allow;
    mret (Ok (mkStarted (cf_socket cfg') watching (mkTerminals logs_tty init_logs_tty (io_console opts)))))
    (started_steps opts)).
  apply traces_silent_bind; [emits_solve|intros now].
  apply (traces_updates_under (λ s, sh_config s = cfg')); [done|done|].
  eapply traces_under_then; [by apply traces_start_daemon|]. rewrite Hsock'.
  intros [watching|e] t Ht; apply traces_ret; rewrite app_nil_r.
  - destruct Ht as [Ht|[_ Ht]]; [|by destruct Ht]. right. by exists (cf_services cfg').
  - destruct Ht as [Ht|[-> _]]; [right; by exists (cf_services cfg')|left; by split; [|intros []]].
Qed.

Lemma traces_run n opts :
  (∀ h s, sh_config (interfere h s) = sh_config s) →
  dtraces (run n opts) (λ r t, ∃ e early rest, r = Err e ∧ t = early ++ rest ∧ early_steps opts early ∧
    started_steps opts (Err e) rest).
Proof.
  intros Hconfig. unfold run. do 2 (apply traces_silent_bind; [emits_solve|intros ?]).
  eapply traces_bind; [apply traces_early_boot_phase|]. intros captured early Hearly.
  destruct captured as [captured|e].
  2:{ apply traces_ret. exists e, early, []. split; [done|]. split; [done|]. split; [done|].
      left. by split; [|intros []]. }
  eapply traces_silent_yields; [apply filing_unseen, filing_load|apply yields_load|].
  intros [cfg|e] Hcfg.
  - eapply traces_bind; [by apply traces_start_configured|]. intros [st|e] t Ht.
    + intros w r w' Hr. by apply main_loop_never in Hr.
    + apply traces_ret. exists e, early, t. by rewrite app_nil_r.
  - apply traces_silent_bind; [emits_solve|intros _]. apply traces_ret. exists e, early, [].
    split; [done|]. split; [done|]. split; [done|]. left. by split; [|intros []].
Qed.

(** ** A required early boot *)

Lemma no_steps new : Forall uneventful new → daemon_steps new = [].
Proof.
  intros Hn%Forall_reverse. unfold daemon_steps, steps_by. induction Hn as [|e l He _ IH]; [done|].
  cbn [omap list_omap]. by rewrite He.
Qed.

(** No step of the daemon, and nothing of the files is changed. *)
Definition harmless (e : Event) : Prop :=
  match e with EvWrite _ _ | EvRename _ _ | EvMkdirs _ => False | _ => uneventful e end.

(** No step of the daemon; only the captured output is written, to the file given, if
    one is. *)
Definition saving (opts : InitOpts) (out : EarlyBootOutput) (e : Event) : Prop :=
  uneventful e ∧
  match e with
  | EvWrite path data =>
      (∃ ts, data = captured_text ts out) ∧ ∀ p, io_early_boot_logs_path opts = Some p → path = p
  | EvRename _ _ => False
  | _ => True
  end.

(** The script is run once, and its result is this. *)
Definition script_result (opts : InitOpts) (source : ScriptSource) (ran : EarlyBootOutput * Result unit) : Acts :=
  one (λ h e, e = EvScript (source_name source) (script_env (given_terminals opts)) ∧
    ran = early_boot_result source (script_ran h source)).

Lemma harmless_boot_note tty msg : emits harmless (boot_note tty msg).
Proof. unfold boot_note, open_tty, fs_open. emits_solve. Qed.

Lemma saving_write_captured opts out path :
  (∀ p, io_early_boot_logs_path opts = Some p → path = p) → emits (saving opts out) (write_captured path out).
Proof.
  intros Hp. unfold write_captured, fs_mkdirs, fs_write. apply emits_bind; [emits_solve; by split|intros [[]|e]; [|emits_solve]].
  apply emits_bind; [emits_solve; by split|intros ts]. apply emits_bind; [|intros r; emits_solve].
  apply emits_bind; [apply emits_asks; split; [done|]; split; [by eexists|done]|]. intros [fault partial]. emits_solve; by split.
Qed.

Lemma saving_persist preview opts out : emits (saving opts out) (persist_early_boot_logs preview opts out).
Proof.
  assert (∀ tty msg, emits (saving opts out) (boot_note tty msg)) as Hnote.
  { intros tty msg. eapply emits_weaken; [|apply harmless_boot_note]. intros []; try done; by split. }
  assert (∀ p, emits (saving opts out) (fs_exists p)) as Hexists by (intros p; unfold fs_exists; emits_solve; by split).
  assert (∀ p, emits (saving opts out) (fs_read p)) as Hread by (intros p; unfold fs_read; emits_solve; by split).
  unfold persist_early_boot_logs. destruct (negb _); [apply Hnote|].
  apply (emits_bind_yields _ (λ path, ∀ p, io_early_boot_logs_path opts = Some p → path = Some p)).
  - unfold fatal_early_boot_logs_path, peek_early_boot_capture. emits_solve; by auto.
  - unfold fatal_early_boot_logs_path. destruct (io_early_boot_logs_path opts) as [q|]; [|done].
    apply yields_ret. by intros p [= ->].
  - intros [path|] Hp; [|apply Hnote]. apply emits_bind; [|intros r; apply Hnote].
    apply saving_write_captured. intros p Ho. specialize (Hp p Ho). by injection Hp.
Qed.

Lemma acts_run_early_boot opts :
  acts (run_early_boot (io_paths opts) (given_terminals opts))
    (λ ran, of_some (λ source, every harmless ⨾ script_result opts source ran)).
Proof.
  intros h. unfold run_early_boot.
  eapply acts_bind; [apply (acts_emits harmless); unfold resolve_early_boot, resolve_among, fs_exists; emits_solve|intros source n1 Hn1].
  unfold run_script. eapply acts_bind with (λ ran n, ∃ n2 n3, n = n3 ++ n2 ∧ every harmless h n2 ∧
    n3 = [EvScript (source_name source) (script_env (given_terminals opts))] ∧ ran = script_ran (n2 ++ n1 ++ h) source).
  { eapply acts_bind; [apply (acts_emits harmless); emits_solve|intros [] n2 Hn2]. apply acts_asks. by eexists n2, _. }
  intros ran n (n2 & n3 & -> & Hn2 & -> & ->). apply acts_ret. exists source. rewrite app_nil_l, <-(assoc_L (++)).
  apply next_intro; [by apply Forall_app|]. eexists. split; [done|]. split; [done|]. by rewrite <-(assoc_L (++)).
Qed.

(** A required early boot that fails. *)
Lemma acts_early_boot_phase preview opts :
  io_skip_early_boot opts = false → io_require_early_boot opts = true →
  acts (early_boot_phase preview opts) (λ r h n, match r with
    | Ok _ => ∃ h source, is_ok (early_boot_result source (script_ran h source)).2
    | Err e => of_some (λ source, of_some (λ out, every harmless ⨾ script_result opts source (out, Err e) ⨾ every (saving opts out))) h n
    end).
Proof.
  intros Hskip Hreq h. unfold early_boot_phase. rewrite Hskip, Hreq.
  eapply acts_bind; [apply acts_run_early_boot|]. intros [out [[]|e]] n1 (source & k1 & k2 & -> & Hk1 & Hk2).
  - apply acts_skip; [unfold boot_note, open_tty, fs_open; emits_solve|intros [] n2]. apply acts_ret.
    destruct Hk2 as (ev & _ & _ & Hr). exists (k1 ++ h), source. by rewrite <-Hr.
  - eapply acts_bind; [apply (acts_emits harmless), harmless_boot_note|intros [] n2 Hn2].
    eapply acts_bind; [apply acts_emits, saving_persist|intros [] n3 Hn3]. apply acts_ret. rewrite app_nil_l.
    exists source, out. rewrite (assoc_L (++) _ k2 k1). apply next_intro; [done|]. apply next_intro; [done|].
    apply Forall_app. split; [done|]. eapply Forall_impl; [exact Hn2|]. intros []; try done; by split.
Qed.

Lemma returns_persist preview opts out : returns (persist_early_boot_logs preview opts out).
Proof.
  unfold persist_early_boot_logs, fatal_early_boot_logs_path, peek_early_boot_capture, write_captured, boot_note, open_tty, fs_open,
    fs_exists, fs_read, fs_write, fs_mkdirs.
  returns_solve.
Qed.

Lemma returns_early_boot_phase preview opts : returns (early_boot_phase preview opts).
Proof.
  pose proof returns_persist. unfold early_boot_phase, run_early_boot, resolve_early_boot, resolve_among, run_script,
    boot_note, open_tty, fs_open, fs_exists. returns_solve; apply returns_persist.
Qed.
End procedure.

(** ** Properties *)

Section properties.
Context `{Host, Nss, HashOrder, FirstKey, Json, DataDir, !FileTimes, VersionEnv, Process, !Wire, !Machine}.

(** C1: A requested shutdown is carried out in the next round of the main loop, when no
    reload signal is waiting (the watcher does not run, or sends none: each one is served
    first).  The daemon raises the stop flag, upon which every monitor stops its service
    in its next iteration ([monitor_shutdown]) at its own pace, in no order; then it puts
    a stop and, after a pause, a quit for every service in the queue of its monitor if
    that still listens, dependents before their dependencies, and removes its socket.  A supervisor then syncs and exits with 0; a full init runs the unmount
    script with the terminals chosen at the start, whatever comes of it, syncs, and
    reboots in the requested mode if it is process 1 (exiting with 1 only if the reboot
    returns) and otherwise exits with 0. *)
Theorem shutdown_carried_out n opts st mode w :
  let services := cf_services (sh_config (shared w)) in
  NoDup (sc_name <$> services) →
  (∀ h s, sh_config (interfere h s) = sh_config s) →
  (∀ h s, sh_stop_all s = true → sh_stop_all (interfere h s) = true) →
  (∀ h s, pending mode s → pending mode (interfere h s)) →
  mn_watching st = false ∨ (∀ h, reload_signal h = false) →
  pending mode (shared w) →
  ∃ order rest new w', main_loop (S n) opts st w = (None, w') ∧ hist w' = new ++ hist w ∧
    shutdown_ordered services order ∧ shutdown_tail opts st mode rest ∧
    daemon_steps new = (Supervised <$> stop_steps order) ++ rest ∧ services_told order (hist w) new.
Proof.
  intros services Hnd Hconfig Hstop Hpend Hidle Hp.
  destruct (returns_publish_zombies w) as ([] & w1 & Hr1 & _).
  pose proof (publish_zombies_survives (sh_config (shared w)) mode Hconfig Hpend w (conj eq_refl Hp)) as Hk.
  rewrite Hr1 in Hk. destruct Hk as [Hc1 Hp1]. simpl in Hc1, Hp1.
  destruct (traces_silent (view := daemon_step) _ (λ _ t, t = []) unseen_publish_zombies (λ _, eq_refl) _ _ _ Hr1)
    as (new1 & Hh1 & Hs1).
  set (w2 := mkWorld (shared w1) (EvReloadSignal :: hist w1)).
  set (w3 := stepped w2 (set_signals (take_shutdown (sh_signals (entered w2))).2 (entered w2))).
  assert (sh_config (shared w3) = sh_config (shared w)) as Hc3.
  { simpl. unfold entered. by rewrite Hconfig. }
  destruct (shut_down_run opts st mode w3) as (order & rest & new & w' & Hr & Hh & Ho & Ht & Hs & Htold);
    [by rewrite Hc3|done|done|]. rewrite Hc3 in Ho.
  exists order, rest, (new ++ [EvStep (entered w2) (shared w3); EvReloadSignal] ++ new1), w'. split; [|split].
  - cbn [main_loop]. unfold main_round.
    assert (atomic (λ s, let '(mode, g) := take_shutdown (sh_signals s) in (mode, set_signals g s)) w2 = (Some (Some mode), w3)) as Ha.
    { unfold atomic. fold (entered w2). cbn. do 2 f_equal. apply Hpend. exact Hp1. }
    unfold mbind, M_bind in *. rewrite Hr1, (drain_idle n opts (mn_watching st) w1 Hidle). fold w2. rewrite Ha, Hr. done.
  - rewrite Hh. simpl. rewrite Hh1. by rewrite <-!app_assoc.
  - split; [done|]. split; [done|]. split.
    + unfold daemon_steps, steps_by in *. rewrite !reverse_app, !omap_app, Hs1, Hs. done.
    + apply services_told_then. simpl. by rewrite <-Hh1.
Qed.

(** C19: The daemon never returns normally: when [run] returns it is with an error,
    and what it has done is a prefix of its start: the early-boot script unless it
    is skipped, then its socket, then the watcher, then the boot, which failed; the
    services are only started once the socket is served and the watcher runs.  (The
    operator's manual lists the socket and the watcher after the services and the
    getty.) *)
Theorem run_outcome n opts w r w' :
  (∀ h s, sh_config (interfere h s) = sh_config s) →
  run n opts w = (Some r, w') →
  ∃ e early rest new, r = Err e ∧ hist w' = new ++ hist w ∧ daemon_steps new = early ++ rest ∧
    early_steps opts early ∧ started_steps opts (Err e) rest.
Proof.
  intros Hconfig Hr. destruct (traces_run n opts Hconfig w r w' Hr) as (new & Hh & e & early & rest & ? & ? & ? & ?).
  by exists e, early, rest, new.
Qed.

(** C21: When the early boot is required and fails, the daemon runs its script once and
    returns that script's error: no socket, no threads, no services.  Besides notes on
    the terminal it changes nothing before the script has ended, and afterwards writes
    nothing but the captured output of the script, to the file given for it if one is. *)
Theorem early_boot_required n opts w :
  io_skip_early_boot opts = false → io_require_early_boot opts = true →
  (∀ h source, ¬ is_ok (early_boot_result source (script_ran h source)).2) →
  ∃ e source out new w', run n opts w = (Some (Err e), w') ∧ hist w' = new ++ hist w ∧
    daemon_steps new = [RanScript (source_name source) (script_env (given_terminals opts))] ∧
    (every harmless ⨾ script_result opts source (out, Err e) ⨾ every (saving opts out)) (hist w) new.
Proof.
  intros Hskip Hreq Hfail. unfold run.
  set (preview := if io_attach_ttys opts then _ else _).
  set (note := λ fault : option string, match fault with
      | Some e => boot_note preview ("warning: could not install signal handlers: " +:+ e)
      | None => mret tt
      end).
  assert (∀ fault, returns (note fault)) as Hnote by (intros fault; unfold note, boot_note, open_tty, fs_open; returns_solve).
  destruct (returns_asks (λ h, (install_handlers (sigaction_answer h) handlers).2) EvSigaction w) as (fault & w0 & Ha0 & _).
  pose proof Ha0 as [= _ Hw0]. rewrite (bind_step _ _ _ _ _ Ha0). fold (note fault).
  destruct (Hnote fault w0) as ([] & w1 & Ha1 & _).
  assert (emits harmless (note fault)) as Hquiet by (destruct fault; [apply harmless_boot_note|apply emits_ret]).
  destruct (acts_emits _ _ Hquiet _ _ _ _ eq_refl Ha1) as (new1 & Hh1 & Hs1). rewrite (bind_step _ _ _ _ _ Ha1).
  destruct (returns_early_boot_phase preview opts w1) as (r & w2 & Hr & _).
  destruct (acts_early_boot_phase preview opts Hskip Hreq _ _ _ _ eq_refl Hr) as (new2 & Hh2 & Hout).
  destruct r as [captured|e]; [by destruct Hout as (h & source & Hok%Hfail)|]. rewrite (bind_step _ _ _ _ _ Hr).
  destruct Hout as (source & out & k1 & k23 & -> & Hk1 & (k2 & k3 & -> & Hk2 & Hk3)).
  set (new := k3 ++ k2 ++ k1 ++ new1 ++ [EvSigaction]). exists e, source, out, new, w2.
  assert (hist w2 = new ++ hist w) as Hh by (rewrite Hh2, Hh1, <-Hw0; unfold new; by rewrite <-!(assoc_L (++))).
  assert (every harmless (hist w) (k1 ++ new1 ++ [EvSigaction])) as Hbefore
    by (apply Forall_app; split; [done|]; apply Forall_app; split; [done|]; by constructor).
  split; [done|]. split; [done|]. split.
  - unfold new. destruct Hk2 as (ev & -> & -> & _).
    assert (daemon_steps k3 = []) as Hd3 by (apply no_steps; eapply Forall_impl; [exact Hk3|]; by intros ev []).
    assert (daemon_steps (k1 ++ new1 ++ [EvSigaction]) = []) as Hd1
      by (apply no_steps; eapply Forall_impl; [exact Hbefore|]; by intros []).
    unfold daemon_steps, steps_by in *. rewrite (reverse_app k3), omap_app, Hd3, app_nil_r, reverse_app, omap_app, Hd1. done.
  - assert (hist w1 = (new1 ++ [EvSigaction]) ++ hist w) as Hw1 by (by rewrite Hh1, <-Hw0, <-(assoc_L (++))).
    rewrite Hw1 in Hk2, Hk3. unfold new. rewrite (assoc_L (++) k3 k2). apply next_intro; [done|].
    rewrite <-(assoc_L (++) k1). by apply next_intro.
Qed.

(** C22: Serving one reload signal: when the configuration cannot be loaded, the old
    one stays in force with its services, and nothing is sent to any of them; when
    it can, it is applied with the socket of the command line, and if that succeeds
    exactly its services are served. *)
Theorem reload_once_spec opts w w' :
  (∀ h s, serving (interfere h s) = serving s) →
  reload_once opts w = (Some tt, w') →
  ∃ loaded w1, load_config_after_early_boot opts w = (Some loaded, w1) ∧
    match loaded with
    | Err _ => serving (shared w') = serving (shared w) ∧
        ∃ new, hist w' = new ++ hist w ∧ daemon_steps new = []
    | Ok cfg => cf_socket cfg = io_socket opts ∧ ∃ r w2, reload cfg w1 = (Some r, w2) ∧
        (r = Ok tt → served (shared w) →
         served (shared w') ∧ sh_config (shared w') = reload_applied (sh_config (shared w)) cfg)
    end.
Proof.
  intros Hrely Hr. unfold reload_once in Hr. apply bind_Some in Hr as (loaded & w1 & Hl & Hr).
  exists loaded, w1. split; [done|].
  assert (serving (shared w1) = serving (shared w)) as Hw1.
  { assert (survives (λ s, serving s = serving (shared w)) (load_config_after_early_boot opts)) as Hk.
    { apply (keeps_survives _ _ (serving_rely Hrely _)). unfold load_config_after_early_boot. apply keeps_bind; [|intros [cfg|e]; apply keeps_ret].
      apply files_load_or_create; [apply _|by intros m s ? Hs|by intros m s Hs]. }
    specialize (Hk w eq_refl). by rewrite Hl in Hk. }
  destruct loaded as [cfg|e].
  - split; [exact (yields_load opts _ _ _ Hl)|]. apply bind_Some in Hr as (r & w2 & Hr2 & Hr).
    exists r, w2. split; [done|]. intros -> Hserved. injection Hr as <-.
    assert (sh_config (shared w1) = sh_config (shared w)) as Hc by by injection Hw1.
    rewrite <-Hc. apply reload_serves; [done| |done]. unfold served in *. by rewrite Hw1, Hc.
  - split.
    + rewrite <-Hw1. pose proof (keeps_survives _ _ (serving_rely Hrely _) (serving_emit_init (serving (shared w1)) LogLevel.Warn
        ("config reload ignored (keep old): " +:+ Error.to_string e)) w1 eq_refl) as Hk. by rewrite Hr in Hk.
    + assert (emits (unseen daemon_step) (load_config_after_early_boot opts)) as Hs by apply filing_unseen, filing_load.
      destruct (traces_silent _ (λ _ t, t = []) Hs (λ _, eq_refl) _ _ _ Hl) as (new1 & Hh1 & Ht1).
      destruct (traces_silent (view := daemon_step) _ (λ _ t, t = []) (unseen_emit_init LogLevel.Warn _) (λ _, eq_refl) _ _ _ Hr)
        as (new2 & Hh2 & Ht2).
      exists (new2 ++ new1). rewrite Hh2, Hh1, app_assoc. split; [done|].
      unfold daemon_steps, steps_by in *. by rewrite reverse_app, omap_app, Ht1, Ht2.
Qed.
End properties.

(** ** Concrete runs *)

(** A machine whose early-boot script exits with 3. *)
Definition example_scripts : Scripts (H := quiet_host) := {|
  script_ran _ _ := mkScriptRun (Ok tt) None (Ok tt) (Ok (EarlyBoot.Exited 3));
|}.
Definition example_machine : Machine (H := quiet_host) := {|
  machine_scripts := example_scripts;
  sigaction_answer _ _ := None;
  waitpid_answers _ := [];
  reload_signal _ := false;
  watcher_fault _ := None;
  arg0_name := Some "init";
  reboot_returns _ := false;
  program_fault _ _ := None;
|}.

Definition example_opts : InitOpts :=
  supervise_opts "/dev/null" (default_paths (H := example_data)) "/run/microinit.sock" false.

(** The example services, with a poweroff requested. *)
Definition example_pending : World :=
  mkWorld (set_signals (request_shutdown ShutdownMode.Poweroff (mkSignalState SHUT_NONE false))
             (example_shared example_services)) [].

Definition example_started : Started :=
  mkStarted "/run/microinit.sock" true (mkTerminals "/dev/tty2" "/dev/tty3" "/dev/null").

Lemma shutdown_carried_out_witness :
  NoDup (sc_name <$> example_services) ∧ pending ShutdownMode.Poweroff (shared example_pending) ∧
  ∃ order new w',
    main_loop (H := quiet_host) (H0 := example_nss) (H1 := canonical_hash_order) (H2 := canonical_first_key)
      (H3 := example_json) (H4 := example_data) (H7 := example_process) (H9 := example_machine) 1 example_opts
      example_started example_pending = (None, w') ∧ hist w' = new ++ [] ∧
    daemon_steps new = (Supervised <$> stop_steps order) ++ [Removed "/run/microinit.sock"; Synced; Exited 0] ∧
    services_told order [] new.
Proof.
  assert (NoDup (sc_name <$> example_services)) as Hnd by (apply (bool_decide_unpack _); vm_compute; exact I).
  split; [exact Hnd|]. split; [reflexivity|].
  destruct (shutdown_carried_out (H := quiet_host) (H0 := example_nss) (H1 := canonical_hash_order)
    (H2 := canonical_first_key) (H3 := example_json) (H4 := example_data) (H7 := example_process) (H9 := example_machine) 0 example_opts
    example_started ShutdownMode.Poweroff example_pending Hnd (λ _ _, eq_refl) (λ _ _ H, H)
    (λ _ _ H, H) (or_intror (λ _, eq_refl)) eq_refl) as (order & rest & new & w' & Hr & Hh & _ & Ht & Hs & Htold).
  exists order, new, w'. split; [exact Hr|]. split; [exact Hh|]. split; [|exact Htold]. rewrite Hs. f_equal. exact Ht.
Defined.

(** A full run whose configuration cannot be parsed. *)
Definition example_run : option (Result unit) * World :=
  run (H := quiet_host) (H0 := example_nss) (H1 := canonical_hash_order) (H2 := canonical_first_key)
    (H3 := example_json) (H4 := example_data) (H5 := example_times) (H7 := example_process)
    (H8 := example_wire) (H9 := example_machine) 1 example_opts example_boot.

Lemma run_outcome_witness :
  ∃ r e early rest new, example_run.1 = Some r ∧ r = Err e ∧ hist example_run.2 = new ++ [] ∧
    daemon_steps new = early ++ rest ∧ early_steps (H4 := example_data) example_opts early.
Proof.
  assert (∃ r, example_run.1 = Some r) as [r Hr] by (eexists; vm_compute; reflexivity).
  destruct (run_outcome (H := quiet_host) (H0 := example_nss) (H1 := canonical_hash_order) (H2 := canonical_first_key)
    (H3 := example_json) (H4 := example_data) (H5 := example_times) (H7 := example_process)
    (H8 := example_wire) (H9 := example_machine) 1 example_opts example_boot r example_run.2 (λ _ _, eq_refl))
    as (e & early & rest & new & He & Hh & Hs & Hearly & _).
  - rewrite <-Hr. exact (surjective_pairing _).
  - exists r, e, early, rest, new. split_and!; [exact Hr|exact He|exact Hh|exact Hs|exact Hearly].
Defined.

Lemma early_boot_required_witness :
  ∃ e source out new w',
    run (H := quiet_host) (H0 := example_nss) (H1 := canonical_hash_order) (H2 := canonical_first_key)
      (H3 := example_json) (H4 := example_data) (H5 := example_times) (H7 := example_process)
      (H8 := example_wire) (H9 := example_machine) 1 (default_init_opts (H := example_data)) example_boot
    = (Some (Err e), w') ∧ hist w' = new ++ [] ∧
    daemon_steps new = [RanScript (source_name source) (script_env (H0 := example_data) (given_terminals (default_init_opts (H := example_data))))] ∧
    (every harmless ⨾ script_result (H4 := example_data) (H9 := example_machine) (default_init_opts (H := example_data)) source (out, Err e) ⨾
     every (saving (default_init_opts (H := example_data)) out)) [] new.
Proof.
  refine (early_boot_required (H := quiet_host) (H0 := example_nss) (H1 := canonical_hash_order)
    (H2 := canonical_first_key) (H3 := example_json) (H4 := example_data) (H5 := example_times)
    (H7 := example_process) (H8 := example_wire) (H9 := example_machine) 1 (default_init_opts (H := example_data))
    example_boot eq_refl eq_refl _).
  intros h [path|]; simpl; intros [].
Defined.

Lemma reload_once_spec_witness :
  let r := reload_once (H := quiet_host) (H0 := example_nss) (H1 := canonical_hash_order) (H3 := example_json) (H4 := example_data) example_opts example_boot in
  r.1 = Some tt ∧
  ∃ loaded w1, load_config_after_early_boot (H := quiet_host) (H0 := example_nss)
      (H3 := example_json) (H4 := example_data) example_opts example_boot = (Some loaded, w1) ∧
    ¬ is_ok loaded ∧ serving (shared r.2) = serving (shared example_boot).
Proof.
  intros r. assert (r.1 = Some tt) as Hr by (vm_compute; reflexivity). split; [exact Hr|].
  destruct (reload_once_spec (H := quiet_host) (H0 := example_nss) (H1 := canonical_hash_order)
    (H3 := example_json) (H4 := example_data) example_opts example_boot r.2
    (λ _ _, eq_refl)) as (loaded & w1 & Hl & Hout).
  - rewrite <-Hr. exact (surjective_pairing r).
  - exists loaded, w1. split; [exact Hl|].
    assert (¬ is_ok loaded) as Hn.
    { assert (∃ e, (load_config_after_early_boot (H := quiet_host) (H0 := example_nss)
        (H3 := example_json) (H4 := example_data) example_opts example_boot).1 = Some (Err e)) as [e He]
        by (eexists; vm_compute; reflexivity).
      rewrite Hl in He. injection He as ->. intros []. }
    split; [exact Hn|]. destruct loaded as [cfg|e]; [by destruct Hn|]. exact (proj1 Hout).
Defined.
