(* ===== verification/DepTree.v ===== *)
(** The dependency tree of [describe]: [format_dep_graph] of [cli.rs].

    The text is the concatenation of its lines, which are kept apart here. *)

From S2P Require Import Prelude BTree RustStr Protocol Describe.
#[local] Open Scope stdpp_scope.

(** A line: what stands before the name, the name, its state, and whether the name
    is marked as shown already. *)
Record TreeLine := mkTreeLine {
  tl_indent : string;
  tl_name : string;
  tl_state : string;
  tl_again : bool;
}.

Definition render_line (l : TreeLine) : string :=
  tl_indent l +:+ tl_name l +:+ " (" +:+ tl_state l +:+ ")" +:+
  (if tl_again l then " [already shown]" else "") +:+ String newline "".

(** [sort_unstable] *)
Definition sorted_names (l : list string) : list string := merge_sort ord_le l.

(** The children of each name, sorted and without repetitions. *)
Definition tree_children (edges : list (string * string)) : gmap string (list string) :=
  (λ kids, dedup (sorted_names kids)) <$> foldl (λ m '(from, to), push_edge from to m) ∅ edges.

Definition tree_states (nodes : list DepNode) : gmap string DepNode :=
  foldl (λ m n, <[dn_name n := n]> m) ∅ nodes.

(** The names without a parent, or the least name when there are none. *)
Definition tree_roots (nodes : list DepNode) (edges : list (string * string)) : list string :=
  let has_parent : gset string := list_to_set (snd <$> edges) in
  match sorted_names (filter (λ n, n ∉ has_parent) (dn_name <$> nodes)) with
  | [] => take 1 (sorted_names (dn_name <$> nodes))
  | roots => roots
  end.

(** [TreeCtx] *)
Section tree.
Context (children : gmap string (list string)) (states : gmap string DepNode).

Definition tree_state (name : string) : string :=
  match states !! name with Some n => ServiceState.to_string (dn_state n) | None => "?" end.

Definition tree_indent (prefix : string) (is_root is_last : bool) : string :=
  if is_root then "  " else prefix +:+ (if is_last then "└─>" else "├─>") +:+ " ".

Definition child_prefix (prefix : string) (is_root is_last : bool) : string :=
  if is_root then "  " else if is_last then prefix +:+ "    " else prefix +:+ "│   ".

(** The loop over the children, with the names expanded so far. *)
Fixpoint visit_all (visit : string → bool → gset string → option (list TreeLine * gset string))
    (names : list string) (expanded : gset string) : option (list TreeLine * gset string) :=
  match names with
  | [] => Some ([], expanded)
  | name :: names =>
      '(lines, expanded) ← visit name (bool_decide (names = [])) expanded;
      '(rest, expanded) ← visit_all visit names expanded;
      Some (lines ++ rest, expanded)
  end.

(** [write_tree_node] *)
Fixpoint write_tree_node (fuel : nat) (prefix : string) (is_root : bool) (name : string)
    (is_last : bool) (expanded : gset string) : option (list TreeLine * gset string) :=
  match fuel with
  | O => None
  | S fuel =>
      let already := bool_decide (name ∈ expanded) in
      let line := mkTreeLine (tree_indent prefix is_root is_last) name (tree_state name) already in
      if already then Some ([line], expanded)
      else
        let expanded := {[ name ]} ∪ expanded in
        match children !! name with
        | None => Some ([line], expanded)
        | Some kids =>
            '(lines, expanded) ←
              visit_all (write_tree_node fuel (child_prefix prefix is_root is_last) false) kids expanded;
            Some (line :: lines, expanded)
        end
  end.
End tree.

(** The lines of [format_dep_graph], when there are edges; each root is last. *)
Definition tree_lines (nodes : list DepNode) (edges : list (string * string)) : option (list TreeLine) :=
  fst <$> visit_all
    (λ root _, write_tree_node (tree_children edges) (tree_states nodes)
                 (S (length nodes + length edges)) "" true root true)
    (tree_roots nodes edges) ∅.

Definition format_dep_graph (nodes : list DepNode) (edges : list (string * string)) : option string :=
  if decide (edges = []) then Some ("  (none)" +:+ String newline "")
  else (λ lines, String.concat "" (render_line <$> lines)) <$> tree_lines nodes edges.

(** The examples of the unit tests. *)
Example tree_chain :
  format_dep_graph [mkDepNode "a" ServiceState.Succeeded; mkDepNode "b" ServiceState.Running;
                    mkDepNode "c" ServiceState.Pending] [("a", "b"); ("b", "c")]
  = Some ("  a (succeeded)" +:+ String newline "" +:+ "  └─> b (running)" +:+ String newline "" +:+
          "      └─> c (pending)" +:+ String newline "").
Proof. vm_compute. reflexivity. Qed.

(** ** Lemmas *)

Lemma elem_of_sorted_names l x : x ∈ sorted_names l ↔ x ∈ l.
Proof. unfold sorted_names. by rewrite merge_sort_Permutation. Qed.

(** [x] has [y] among its children. *)
Definition kid_of (children : gmap string (list string)) (x y : string) : Prop :=
  ∃ kids, children !! x = Some kids ∧ y ∈ kids.

Lemma tree_children_spec edges x y : kid_of (tree_children edges) x y ↔ (x, y) ∈ edges.
Proof.
  unfold kid_of, tree_children. setoid_rewrite lookup_fmap.
  set (m := foldl _ _ _).
  assert (∀ x y, y ∈ neighbours m x ↔ (x, y) ∈ edges) as Hm.
  { clear x y. unfold m. induction edges as [|[a b] edges IH] using rev_ind; intros x y.
    - unfold neighbours. simpl. rewrite lookup_empty. simpl. by rewrite !elem_of_nil.
    - rewrite foldl_app. simpl. rewrite push_edge_neighbours, IH, elem_of_app, list_elem_of_singleton. naive_solver. }
  rewrite <-Hm. unfold neighbours. split.
  - intros (kids & Hk & Hy). destruct (m !! x) as [l|]; simpl in *; simplify_eq.
    by rewrite elem_of_dedup, elem_of_sorted_names in Hy.
  - destruct (m !! x) as [l|]; simpl; [|by intros ?%elem_of_nil]. intros Hy. eexists. split; [done|].
    by rewrite elem_of_dedup, elem_of_sorted_names.
Qed.

(** The names that are expanded by the lines. *)
Definition shown (lines : list TreeLine) : list string := tl_name <$> filter (λ l, tl_again l = false) lines.

Lemma shown_app l1 l2 : shown (l1 ++ l2) = shown l1 ++ shown l2.
Proof. unfold shown. by rewrite filter_app, fmap_app. Qed.

(** A line marked as shown already comes after the line that shows its name. *)
Definition marked (before : gset string) (lines : list TreeLine) : Prop :=
  ∀ l1 l l2, lines = l1 ++ l :: l2 → tl_again l = true → tl_name l ∈ before ∪ list_to_set (shown l1).

(** What visiting some names does, from the names expanded before. *)
Record visited (children : gmap string (list string)) (names : list string) (before : gset string)
    (lines : list TreeLine) (after : gset string) : Prop := {
  vs_after : after = before ∪ list_to_set (shown lines);
  vs_once : NoDup (shown lines);
  vs_new x : x ∈ shown lines → x ∉ before;
  vs_names x : x ∈ names → x ∈ after;
  vs_kids x y : x ∈ shown lines → kid_of children x y → y ∈ after;
  vs_reach x : x ∈ shown lines → ∃ n, n ∈ names ∧ rtc (kid_of children) n x;
  vs_marked : marked before lines;
}.

Lemma marked_app before l1 l2 :
  marked before l1 → marked (before ∪ list_to_set (shown l1)) l2 → marked before (l1 ++ l2).
Proof.
  intros H1 H2 k1 l k2 Heq Ha. apply app_eq_inv in Heq as [(k & -> & Hk)|(k & -> & Hk)].
  - destruct k as [|x k]; simplify_eq/=.
    + rewrite app_nil_r in H2. apply (H2 [] l k2) in Ha; [|done]. set_solver.
    + by apply (H1 k1 x k).
  - apply (H2 k l k2) in Ha; [|done]. rewrite shown_app, list_to_set_app_L. set_solver.
Qed.

Section visits.
Context (children : gmap string (list string)) (states : gmap string DepNode).
Context (universe : gset string) (closed : ∀ x y, x ∈ universe → kid_of children x y → y ∈ universe).

Lemma visited_nil before : visited children [] before [] before.
Proof.
  split; simpl; [set_solver|constructor|set_solver..|].
  intros l1 l l2 Hl. by destruct l1.
Qed.

Lemma visited_app names1 names2 e0 l1 e1 l2 e2 :
  visited children names1 e0 l1 e1 → visited children names2 e1 l2 e2 →
  visited children (names1 ++ names2) e0 (l1 ++ l2) e2.
Proof.
  intros [Ha1 Ho1 Hn1 Hs1 Hk1 Hr1 Hm1] [Ha2 Ho2 Hn2 Hs2 Hk2 Hr2 Hm2]. split.
  - rewrite shown_app, list_to_set_app_L. set_solver.
  - rewrite shown_app. apply NoDup_app. split; [done|]. split; [|done]. set_solver.
  - rewrite shown_app. set_solver.
  - set_solver.
  - rewrite shown_app. intros x y [Hx|Hx]%elem_of_app Hy; [|by eapply Hk2].
    pose proof (Hk1 x y Hx Hy). set_solver.
  - rewrite shown_app. intros x [Hx|Hx]%elem_of_app.
    + destruct (Hr1 x Hx) as (n & ? & ?). exists n. set_solver.
    + destruct (Hr2 x Hx) as (n & ? & ?). exists n. set_solver.
  - apply marked_app; [done|]. by rewrite <-Ha1.
Qed.

(** A visit that does its part for the names of the universe. *)
Definition visits (bound : nat) (visit : string → bool → gset string → option (list TreeLine * gset string)) : Prop :=
  ∀ name last e, name ∈ universe → size (universe ∖ e) < bound →
    ∃ lines e', visit name last e = Some (lines, e') ∧ visited children [name] e lines e'.

Lemma visit_all_spec bound visit names e :
  visits bound visit → (∀ n, n ∈ names → n ∈ universe) → size (universe ∖ e) < bound →
  ∃ lines e', visit_all visit names e = Some (lines, e') ∧ visited children names e lines e'.
Proof.
  intros Hv. revert e. induction names as [|name names IH]; intros e Hin Hb; cbn [visit_all].
  { exists [], e. split; [done|]. apply visited_nil. }
  destruct (Hv name (bool_decide (names = [])) e) as (l1 & e1 & -> & H1); [apply Hin; by left|done|]. simpl.
  destruct (IH e1) as (l2 & e2 & -> & H2).
  { intros n Hn. apply Hin. by right. }
  { eapply Nat.le_lt_trans; [|exact Hb]. apply subseteq_size. destruct H1. set_solver. }
  exists (l1 ++ l2), e2. split; [done|]. by apply (visited_app [name]) with e1.
Qed.

Lemma write_tree_visits fuel prefix is_root :
  visits fuel (write_tree_node children states fuel prefix is_root).
Proof.
  revert prefix is_root. induction fuel as [|fuel IH]; intros prefix is_root name last e Hu Hb; [lia|].
  cbn [write_tree_node]. set (line := mkTreeLine _ _ _ _). case_bool_decide as Hin.
  - eexists _, _. split; [reflexivity|]. split; simpl; [set_solver|constructor|set_solver..|].
    intros [|? [|? ?]] ll l2 Hl; simplify_eq/=. set_solver.
  - assert (size (universe ∖ ({[ name ]} ∪ e)) < fuel) as Hb'.
    { assert (universe ∖ ({[ name ]} ∪ e) ⊂ universe ∖ e) as Hs%subset_size; [|lia].
      split; [set_solver|]. intros Hsub. specialize (Hsub name). set_solver. }
    assert (∃ lines e', match children !! name with
        | None => Some ([line], {[ name ]} ∪ e)
        | Some kids => '(lines, expanded) ←
            visit_all (write_tree_node children states fuel (child_prefix prefix is_root last) false) kids ({[ name ]} ∪ e);
            Some (line :: lines, expanded)
        end = Some (line :: lines, e') ∧
        visited children (default [] (children !! name)) ({[ name ]} ∪ e) lines e') as (lines & e' & -> & Hv).
    { destruct (children !! name) as [kids|] eqn:Hk; simpl.
      - destruct (visit_all_spec fuel (write_tree_node children states fuel (child_prefix prefix is_root last) false) kids
          ({[ name ]} ∪ e) (IH _ _)) as (lines & e' & -> & Hv); [|done|].
        { intros n Hn. apply (closed name); [done|]. by exists kids. }
        by exists lines, e'.
      - exists [], ({[ name ]} ∪ e). split; [done|]. apply visited_nil. }
    eexists _, _. split; [reflexivity|]. destruct Hv as [Ha Ho Hn Hs Hk Hr Hm].
    assert (shown (line :: lines) = name :: shown lines) as Hsh by done.
    assert (∀ y, kid_of children name y → y ∈ default [] (children !! name)) as Hkids.
    { intros y (kids & -> & ?). done. }
    split; rewrite ?Hsh.
    + simpl. set_solver.
    + constructor; [|done]. intros Hx%Hn. set_solver.
    + intros x [->|Hx%Hn]%elem_of_cons; [done|set_solver].
    + intros x ->%list_elem_of_singleton. set_solver.
    + intros x y [->|Hx]%elem_of_cons Hy; [by apply Hs, Hkids|by eapply Hk].
    + intros x [->|Hx]%elem_of_cons; exists name; (split; [by left|]); [done|].
      destruct (Hr x Hx) as (n & Hn' & Hrtc). apply (rtc_l _ _ n); [|done].
      destruct (children !! name) as [kids|] eqn:Hc; [by exists kids|by apply elem_of_nil in Hn'].
    + apply (marked_app e [line]).
      * intros [|? [|? ?]] ll l2 Hl; simplify_eq/=. done.
      * replace (e ∪ list_to_set (shown [line])) with ({[ name ]} ∪ e) by (simpl; set_solver). done.
Qed.
End visits.

(** ** Roots *)

Lemma tree_roots_names nodes edges r : r ∈ tree_roots nodes edges → r ∈ (dn_name <$> nodes).
Proof.
  unfold tree_roots. destruct (sorted_names (filter _ _)) as [|r0 roots] eqn:Hs.
  - intros Hr. apply elem_of_sorted_names. by eapply subseteq_take.
  - rewrite <-Hs, elem_of_sorted_names, list_elem_of_filter. tauto.
Qed.

Lemma orphan_is_root nodes edges n :
  n ∈ (dn_name <$> nodes) → n ∉ (snd <$> edges) → n ∈ tree_roots nodes edges.
Proof.
  intros Hn Ho. unfold tree_roots.
  assert (n ∈ sorted_names (filter (λ n, n ∉ (list_to_set (snd <$> edges) : gset string)) (dn_name <$> nodes))) as Hin.
  { rewrite elem_of_sorted_names, list_elem_of_filter. split; [|done]. by rewrite elem_of_list_to_set. }
  destruct (sorted_names _) as [|r roots]; [by apply elem_of_nil in Hin|done].
Qed.

Lemma size_names (l : list string) : size (list_to_set l : gset string) ≤ length l.
Proof.
  induction l as [|x l IH]; [done|]. rewrite list_to_set_cons; cbn [length].
  rewrite size_union_alt, size_singleton.
  assert (size ((list_to_set l : gset string) ∖ {[ x ]}) ≤ size (list_to_set l : gset string)); [|lia].
  apply subseteq_size. set_solver.
Qed.

(** The lines are a visit of the roots. *)
Lemma tree_lines_visited nodes edges :
  ∃ lines e, tree_lines nodes edges = Some lines ∧
    visited (tree_children edges) (tree_roots nodes edges) ∅ lines e.
Proof.
  set (U := list_to_set (dn_name <$> nodes) ∪ list_to_set (snd <$> edges) : gset string).
  assert (∀ x y, x ∈ U → kid_of (tree_children edges) x y → y ∈ U) as Hclosed.
  { intros x y _ Hk%tree_children_spec. apply elem_of_union_r, elem_of_list_to_set, list_elem_of_fmap.
    by exists (x, y). }
  assert (size (U ∖ ∅) < S (length nodes + length edges)) as Hsize.
  { rewrite difference_empty_L. unfold U.
    pose proof (size_union_alt (list_to_set (dn_name <$> nodes) : gset string) (list_to_set (snd <$> edges))) as Hu.
    rewrite Hu. rewrite <-(length_fmap dn_name nodes), <-(length_fmap snd edges).
    pose proof (size_names (dn_name <$> nodes)).
    pose proof (size_names (snd <$> edges)).
    assert (size ((list_to_set (snd <$> edges) : gset string) ∖ list_to_set (dn_name <$> nodes))
      ≤ size (list_to_set (snd <$> edges) : gset string)) by (apply subseteq_size; set_solver).
    lia. }
  destruct (visit_all_spec (tree_children edges) U Hclosed (S (length nodes + length edges))
    (λ root _, write_tree_node (tree_children edges) (tree_states nodes) (S (length nodes + length edges)) "" true root true)
    (tree_roots nodes edges) ∅) as (lines & e & Hr & Hv).
  - intros name last e. apply (write_tree_visits _ (tree_states nodes) U Hclosed).
  - intros n Hn%tree_roots_names. apply elem_of_union_l. by apply elem_of_list_to_set.
  - exact Hsize.
  - exists lines, e. split; [|done]. unfold tree_lines. by rewrite Hr.
Qed.

(** ** Properties *)

(** C35: The dependency tree is printed for every graph, also a cyclic one: each name
    is expanded at most once, exactly the names reachable from the roots appear, a
    mark stands only on names expanded in an earlier line, and when the dependencies
    are acyclic no name is left out. *)
Theorem format_dep_graph_spec nodes edges :
  let edge x y := (x, y) ∈ edges in
  edges ≠ [] →
  ∃ lines, format_dep_graph nodes edges = Some (String.concat "" (render_line <$> lines)) ∧
    NoDup (shown lines) ∧ marked ∅ lines ∧
    (∀ x, x ∈ shown lines ↔ ∃ r, r ∈ tree_roots nodes edges ∧ rtc edge r x) ∧
    ((∀ x y, edge x y → x ∈ (dn_name <$> nodes) ∧ y ∈ (dn_name <$> nodes)) → (∀ x, ¬ tc edge x x) →
     ∀ x, x ∈ (dn_name <$> nodes) → x ∈ shown lines).
Proof.
  intros edge Hne. destruct (tree_lines_visited nodes edges) as (lines & e & Hl & [Ha Ho _ Hs Hk Hr Hm]).
  exists lines. unfold format_dep_graph. rewrite decide_False, Hl by done.
  assert (∀ x, x ∈ e ↔ x ∈ shown lines) as He by (intros x; rewrite Ha; set_solver).
  assert (∀ x y, x ∈ shown lines → edge x y → y ∈ shown lines) as Hstep.
  { intros x y Hx Hy. apply He. eapply Hk; [done|]. by apply tree_children_spec. }
  split_and!; [done..| |].
  - intros x. split.
    + intros (r & Hr1 & Hrtc)%Hr. exists r. split; [done|].
      eapply rtc_subrel; [|exact Hrtc]. intros a b. apply tree_children_spec.
    + intros (r & Hr1%Hs%He & Hrtc). revert Hrtc Hr1. induction 1; eauto.
  - intros Hnodes Hacyclic x Hx. destruct (decide (x ∈ shown lines)) as [|Hnot]; [done|]. exfalso.
    destruct (no_minimal_cycle edge (list_to_set (dn_name <$> nodes) ∖ list_to_set (shown lines)) x)
      as (y & Hy & _); [set_solver| |by eapply Hacyclic].
    intros y [Hy1%elem_of_list_to_set Hy2]%elem_of_difference.
    destruct (decide (y ∈ (snd <$> edges))) as [([z y'] & -> & Hz)%list_elem_of_fmap|Horphan].
    + exists z. split; [|done]. destruct (Hnodes z y' Hz) as [Hz1 _].
      apply elem_of_difference. split; [by apply elem_of_list_to_set|]. intros Hzs%elem_of_list_to_set.
      apply Hy2, elem_of_list_to_set. by apply (Hstep z).
    + destruct Hy2. apply elem_of_list_to_set, He, Hs. by apply orphan_is_root.
Qed.

(** With a root elsewhere, a cycle above the root's dependents is left out. *)
Example tree_hides_cycle :
  option_map shown (tree_lines
    (map (λ n, mkDepNode n ServiceState.Running) ["a"; "b"; "c"; "d"])
    [("a", "b"); ("b", "a"); ("a", "c"); ("d", "c")]) = Some ["d"; "c"].
Proof. vm_compute. reflexivity. Qed.

Lemma format_dep_graph_spec_witness :
  let nodes := [mkDepNode "a" ServiceState.Running; mkDepNode "b" ServiceState.Stopped] in
  ∃ lines, format_dep_graph nodes [("a", "b")] = Some (String.concat "" (render_line <$> lines)) ∧
    NoDup (shown lines).
Proof.
  intros nodes. destruct (format_dep_graph_spec nodes [("a", "b")] ltac:(discriminate)) as (lines & Hf & Hn & _).
  exists lines. split; [exact Hf|exact Hn].
Defined.
