(* ===== verification/Cli.v ===== *)
(** The texts of the client ([cli.rs]) and the arguments of [shutdown]
    ([bin/shutdown.rs]). *)

From Stdlib Require Import Ascii.
From S2P Require Import Prelude Constants RustStr BTree Error Labels Security Config Protocol Logs Watch.
From S2P Require Import DepTree.
#[local] Open Scope stdpp_scope.

(** ** The arguments of [shutdown] *)

(** [ShutdownCliMode] *)
Inductive ShutdownCliMode := CliHelp | CliMode (mode : ShutdownMode.t).

(** The mode a flag asks for. *)
Definition flag_mode (a : string) : option ShutdownMode.t :=
  if decide (a ∈ ["-h"; "-P"; "--poweroff"; "poweroff"]) then Some ShutdownMode.Poweroff
  else if decide (a ∈ ["-r"; "--reboot"; "reboot"]) then Some ShutdownMode.Reboot
  else if decide (a ∈ ["-H"; "--halt"; "halt"]) then Some ShutdownMode.Halt
  else None.

Section shutdown_args.
(** The [Debug] rendering of a string ([{a:?}]). *)
Context (fmt_debug : string → string).

(** The loop of [parse_shutdown_args]. *)
Fixpoint shutdown_args_from (args : list string) (mode : ShutdownMode.t) (seen : bool) :
    result ShutdownCliMode string :=
  match args with
  | [] => Ok (CliMode mode)
  | a :: args =>
      if decide (a ∈ ["--help"; "help"]) then Ok CliHelp
      else match flag_mode a with
      | Some m =>
          if seen && bool_decide (mode ≠ m) then Err "conflicting mode flags"
          else shutdown_args_from args m true
      | None =>
          if decide (a ∈ ["now"; "+0"; "0"]) then shutdown_args_from args mode seen
          else if starts_with "-" a then Err ("unknown option " +:+ fmt_debug a)
          else shutdown_args_from args mode seen
      end
  end.

Definition parse_shutdown_args (args : list string) : result ShutdownCliMode string :=
  shutdown_args_from args ShutdownMode.Poweroff false.

(** The first loop of [shutdown]'s [main]: the socket and the other arguments;
    [None] when the path of [--socket] is missing. *)
Fixpoint socket_args (argv : list string) (socket : string) (args : list string) :
    option (string * list string) :=
  match argv with
  | [] => Some (socket, args)
  | a :: argv =>
      if decide (a = "--socket") then
        match argv with
        | p :: argv => socket_args argv p args
        | [] => None
        end
      else match strip_prefix "--socket=" a with
      | Some p => socket_args argv p args
      | None => socket_args argv socket (args ++ [a])
      end
  end.
End shutdown_args.

(** [fallback_bin] *)
Definition fallback_bin (mode : ShutdownMode.t) : string :=
  match mode with
  | ShutdownMode.Reboot => "/sbin/reboot"
  | ShutdownMode.Halt => "/sbin/halt"
  | ShutdownMode.Poweroff => "/sbin/poweroff"
  end.

(** ** Text *)

(** [format!("{:<w$}")] and [format!("{:>w$}")]: widths count characters. *)
Fixpoint char_count (s : string) : nat :=
  match s with
  | "" => 0
  | String c s => if is_continuation c then char_count s else S (char_count s)
  end.

Definition padding (w : nat) (s : string) : string :=
  String.concat "" (replicate (w - char_count s) " ").
Definition pad_right (w : nat) (s : string) : string := s +:+ padding w s.
Definition pad_left (w : nat) (s : string) : string := padding w s +:+ s.

Definition short_commit (full : string) : string := take_chars 7 full.

Definition yes_no (b : bool) : string := if b then "yes" else "no".

(** [format_uptime] *)
Definition format_uptime (secs : option N) : string :=
  match secs with
  | None => "-"
  | Some s =>
      let days := (s / 86400)%N in
      let s := (s mod 86400)%N in
      let hours := (s / 3600)%N in
      let s := (s mod 3600)%N in
      let mins := (s / 60)%N in
      let s := (s mod 60)%N in
      if decide (0 < days)%N then pretty days +:+ "d " +:+ pretty hours +:+ "h " +:+ pretty mins +:+ "m"
      else if decide (0 < hours)%N then pretty hours +:+ "h " +:+ pretty mins +:+ "m"
      else if decide (0 < mins)%N then pretty mins +:+ "m " +:+ pretty s +:+ "s"
      else pretty s +:+ "s"
  end.

(** [format_running_as] *)
Definition format_running_as (id : option RunningIdentity) : string :=
  match id with
  | None => "-"
  | Some id =>
      default "?" (id_user id) +:+ "(" +:+ pretty (id_uid id) +:+ ") / " +:+
      default "?" (id_group id) +:+ "(" +:+ pretty (id_gid id) +:+ ")"
  end.

(** [format_security_context] *)
Definition format_security_context (sec : option SecurityContext) : string :=
  match sec with
  | None => "(none)"
  | Some sec =>
      "runAsUser=" +:+ default "-" (run_as_user sec) +:+ " runAsGroup=" +:+ default "-" (run_as_group sec) +:+
      " capabilities=" +:+
      (if decide (capabilities sec = []) then "[]" else "[" +:+ join ", " (capabilities sec) +:+ "]")
  end.

(** [format_event] *)
Definition format_event (ev : ServiceEvent) : string :=
  let state o := default "?" (ServiceState.to_string <$> o) in
  match se_kind ev with
  | ServiceEventKind.StateChange => se_ts ev +:+ "  state_change  " +:+ state (se_from ev) +:+ " -> " +:+ state (se_to ev)
  | ServiceEventKind.Restart => se_ts ev +:+ "  restart"
  | ServiceEventKind.LivenessFailed =>
      match se_detail ev with
      | Some d => se_ts ev +:+ "  liveness_failed  (" +:+ d +:+ ")"
      | None => se_ts ev +:+ "  liveness_failed"
      end
  end.

(** [print_dep_list] *)
Definition print_dep_list (nodes : list DepNode) : list string :=
  if decide (nodes = []) then ["  (none)"]
  else (λ n, "  " +:+ dn_name n +:+ " (" +:+ ServiceState.to_string (dn_state n) +:+ ")") <$> nodes.

(** A row of the list, without labels. *)
Definition list_row (name state pid restarts enabled failures : string) : string :=
  pad_right 20 name +:+ " " +:+ pad_right 22 state +:+ " " +:+ pad_left 8 pid +:+ " " +:+
  pad_left 8 restarts +:+ " " +:+ pad_left 8 enabled +:+ " " +:+ pad_left 10 failures.

Definition list_header : string := list_row "NAME" "STATE" "PID" "RESTARTS" "ENABLED" "LIVE_FAIL".

Definition status_row (s : ServiceStatus) : string :=
  list_row (ss_name s) (ServiceState.to_string (ss_state s)) (default "-" (pretty <$> ss_pid s))
    (pretty (ss_restarts s)) (yes_no (ss_enabled s)) (pretty (ss_liveness_failures s)).

(** [print_list_table] *)
Definition print_list_table (services : list ServiceStatus) : list string :=
  list_header :: (status_row <$> services).

(** [print_daemon_info] *)
Definition print_daemon_info (info : DaemonInfo) : list string :=
  let commit := short_commit (di_tag_commit info) in
  ["Version:     " +:+ di_version info;
   "Tag commit:  " +:+ (if decide (commit = "") then "-" else commit);
   "Build:       " +:+ short_commit (di_build_commit info) +:+
     (if decide (di_build_time info = "") then "" else " " +:+ di_build_time info);
   "Mode:        " +:+ DaemonMode.as_str (di_mode info);
   "PID:         " +:+ pretty (di_pid info);
   "Hostname:    " +:+ di_hostname info;
   "Uptime:      " +:+ format_uptime (Some (di_uptime_secs info));
   "Socket:      " +:+ di_socket info;
   "Services:    " +:+ pretty (di_services_total info) +:+ " total, " +:+ pretty (di_services_running info) +:+ " running";
   "OpenTelemetry:";
   "  Enabled:   " +:+ yes_no (di_otel_enabled info);
   "  Endpoint:  " +:+ di_otel_endpoint info;
   "  Protocol:  " +:+ di_otel_protocol info;
   "  Interval:  " +:+ pretty (di_otel_export_interval_secs info) +:+ "s";
   "  Service:   " +:+ di_otel_service_name info].

(** [print_describe]; the graph ends with a line break of its own. *)
Definition print_describe {json_value} (d : ServiceDescribe json_value) : list string :=
  let s := sd_status d in
  ["Service: " +:+ ss_name s;
   "State:   " +:+ ServiceState.to_string (ss_state s);
   "PID:     " +:+ default "-" (pretty <$> ss_pid s);
   "Running as: " +:+ format_running_as (sd_running_as d);
   "Security:  " +:+ format_security_context (sd_security_context d);
   "Enabled: " +:+ yes_no (ss_enabled s);
   "Restarts: " +:+ pretty (ss_restarts s);
   "Liveness failures: " +:+ pretty (ss_liveness_failures s);
   "Uptime:  " +:+ format_uptime (sd_uptime_secs d);
   ""; "Labels:"] ++
  (if decide (ss_labels s = ∅) then ["  (none)"]
   else (λ '(k, v), "  " +:+ k +:+ "=" +:+ v) <$> bmap_iter (ss_labels s)) ++
  [""; "Depends on:"] ++ print_dep_list (sd_depends_on d) ++
  [""; "Required by:"] ++ print_dep_list (sd_dependents d) ++
  [""; "Dependency graph:"; default "" (format_dep_graph (sd_dep_nodes d) (sd_dep_edges d))] ++
  ["Recent events (last " +:+ pretty (length (sd_events d)) +:+ "):"] ++
  (if decide (sd_events d = []) then ["  (none)"] else (λ ev, "  " +:+ format_event ev) <$> sd_events d).

(** The selectors of [cmd_list]; [fmt_debug] is the [Debug] rendering of strings. *)
Definition parse_selectors (fmt_debug : string → string) (selectors : list string) : Result (list (string * string)) :=
  try_fold (λ want s, let? kv := parse_selector fmt_debug s in Ok (want ++ [kv])) [] selectors.

(** ** The arguments of [shutdown]: specification *)

(** Whether an argument that is no mode flag is accepted. *)
Definition ignorable (a : string) : bool := bool_decide (a ∈ ["now"; "+0"; "0"]) || negb (starts_with "-" a).

(** One argument fits a mode: it asks for no help, and is a flag of that mode or an
    argument that is skipped. *)
Definition fits (mode : ShutdownMode.t) (a : string) : Prop :=
  (a ∉ ["--help"; "help"]) ∧
  (match flag_mode a with Some m => m = mode | None => ignorable a = true end).

Definition flags (mode : ShutdownMode.t) (a : string) : Prop := flag_mode a = Some mode.

(** The arguments ask for this mode: no help, no unknown option, and every mode flag
    says the same. *)
Definition asks_mode (args : list string) (mode : ShutdownMode.t) : Prop :=
  Forall (fits mode) args ∧ (mode = ShutdownMode.Poweroff ∨ Exists (flags mode) args).

(** The same, for a loop that has already read some arguments. *)
Definition asks_more (args : list string) (m0 : ShutdownMode.t) (seen : bool) (mode : ShutdownMode.t) : Prop :=
  Forall (fits mode) args ∧ (mode = m0 ∨ seen = false ∧ Exists (flags mode) args).

Lemma asks_more_flag a m args m0 seen mode :
  a ∉ ["--help"; "help"] → flag_mode a = Some m → (seen = true → m0 = m) →
  asks_more (a :: args) m0 seen mode ↔ asks_more args m true mode.
Proof.
  unfold asks_more. rewrite Forall_cons, Exists_cons. unfold fits at 1, flags at 1. intros Hhelp -> Hsm.
  destruct seen; [rewrite Hsm by done|]; naive_solver.
Qed.

Lemma asks_more_skip a args m0 seen mode :
  a ∉ ["--help"; "help"] → flag_mode a = None →
  asks_more (a :: args) m0 seen mode ↔ ignorable a = true ∧ asks_more args m0 seen mode.
Proof.
  unfold asks_more. rewrite Forall_cons, Exists_cons. unfold fits at 1, flags at 1. intros Hhelp ->. naive_solver.
Qed.

Lemma shutdown_args_spec fmt args m0 seen mode :
  shutdown_args_from fmt args m0 seen = Ok (CliMode mode) ↔ asks_more args m0 seen mode.
Proof.
  revert m0 seen. induction args as [|a args IH]; intros m0 seen; cbn [shutdown_args_from].
  { unfold asks_more. rewrite Forall_nil, Exists_nil. naive_solver. }
  case_decide as Hhelp.
  { split; [done|]. intros [[[? _] _]%Forall_cons _]. done. }
  destruct (flag_mode a) as [m|] eqn:Hm.
  - destruct (seen && bool_decide (m0 ≠ m)) eqn:Hc.
    + apply andb_true_iff in Hc as [-> Hc%bool_decide_eq_true]. split; [done|].
      intros [[[_ Ha] _]%Forall_cons [->|[? _]]]; [|done]. rewrite Hm in Ha. congruence.
    + rewrite IH. symmetry. apply asks_more_flag; [done..|]. intros ->.
      apply bool_decide_eq_false in Hc. by apply dec_stable.
  - rewrite asks_more_skip by done. unfold ignorable. case_decide as Hnow.
    + rewrite bool_decide_eq_true_2 by done. simpl. rewrite IH. tauto.
    + rewrite bool_decide_eq_false_2 by done. simpl. destruct (starts_with "-" a); simpl; [naive_solver|].
      rewrite IH. tauto.
Qed.

(** The arguments of [shutdown] give a mode exactly when no help is asked for,
    every option is known and all mode flags agree on it; the default is to power
    off. *)
Theorem parse_shutdown_args_spec fmt args mode :
  parse_shutdown_args fmt args = Ok (CliMode mode) ↔ asks_mode args mode.
Proof.
  unfold parse_shutdown_args, asks_mode. rewrite shutdown_args_spec. unfold asks_more. naive_solver.
Qed.

