(* ===== verification/Client.v ===== *)
(** The client: connections to the daemon ([ipc.rs]), the commands of [cli.rs] and the
    [shutdown] binary ([bin/shutdown.rs]).

    The socket, JSON and the printing of JSON are parameters.  The output can be
    closed: [println!] then panics, while the streaming commands report the error;
    writing to the error output does not fail. *)

From Stdlib Require Import Ascii.
From S2P Require Import Prelude Constants RustStr BTree Error Labels Security Config Protocol Logs Watch.
From S2P Require Import Reaper Runtime World Logic EnvFile Service Store Supervisor Describe EarlyBoot.
From S2P Require Import Version OtelEnv DaemonInfo Requests DepTree Cli.
#[local] Open Scope stdpp_scope.

(** What the libraries and the machine do for a client. *)
Class Client `{Host, Json} := {
  encode_request : Request → string;
  decode_response : string → result (Response json_value) string;
  (** why a connection cannot be made *)
  dial_fault : list Event → string → option string;
  (** the next frame on the connection *)
  incoming : list Event → result string string;
  stdout_fault : list Event → option io_error;
  (** JSON printing, and the [Debug] rendering of replies and strings *)
  print_info : DaemonInfo → result string string;
  print_value : json_value → result string string;
  print_services : list ServiceStatus → result string string;
  debug_response : Response json_value → string;
  fmt_debug : string → string;
  (** a program that is run to its end: the text of its status unless it succeeded *)
  program_status : list Event → list string → result (option string) string;
}.

Section client.
Context `{Host, Json, !Wire, !Client}.

(** ** Connections *)

(** [connect] *)
Definition connect (socket_path : string) : M (Result unit) :=
  fault ← asks (λ h, dial_fault h socket_path) (EvDial socket_path);
  mret (match fault with
        | None => Ok tt
        | Some e => Err (Error.Ipc ("cannot connect to " +:+ socket_path +:+ ": " +:+ e +:+
            " (is microinit init running?)"))
        end).

(** [read_frame_from], [read_frame] *)
Definition read_frame : M (Result (Response json_value)) :=
  frame ← asks incoming EvReadFrame;
  mret (map_err map_frame (let? text := frame in decode_response text)).

(** [request] *)
Definition request (socket_path : string) (req : Request) : M (Result (Response json_value)) :=
  _ <-? connect socket_path;
  _ <-? write_frame_to (encode_request req);
  read_frame.

(** ** Output *)

(** [println!] *)
Definition println (line : string) : M unit :=
  fault ← asks stdout_fault (EvStdout (line_of line));
  match fault with None => mret tt | Some _ => no_return end.

(** [writeln!] and a flush, of the lines of one message. *)
Definition write_stdout (text : string) : M (Result unit) :=
  fault ← asks stdout_fault (EvStdout text);
  mret (match fault with None => Ok tt | Some e => Err (Error.Io e) end).

Definition eprintln (line : string) : M unit := effect (EvStderr line).

Definition unexpected (rsp : Response json_value) : Error.t :=
  Error.Ipc ("unexpected response: " +:+ debug_response rsp).

(** What a command makes of a reply that is not the one it expects. *)
Definition refused (rsp : Response json_value) : M (Result unit) :=
  mret (Err (match rsp with RsError message _ => Error.Ipc message | rsp => unexpected rsp end)).

(** ** Commands *)

(** [simple_ok] *)
Definition simple_ok (socket : string) (req : Request) : M (Result unit) :=
  rsp <-? request socket req;
  match rsp with
  | RsOk message =>
      (match message with Some msg => println msg | None => mret tt end);;
      mret (Ok tt)
  | rsp => refused rsp
  end.

Definition cmd_start (socket name : string) (force : bool) : M (Result unit) := simple_ok socket (RqStart name force).
Definition cmd_stop (socket name : string) : M (Result unit) := simple_ok socket (RqStop name).
Definition cmd_restart (socket name : string) : M (Result unit) := simple_ok socket (RqRestart name).
Definition cmd_enable (socket name : string) : M (Result unit) := simple_ok socket (RqEnable name true).
Definition cmd_disable (socket name : string) : M (Result unit) := simple_ok socket (RqEnable name false).
Definition cmd_shutdown (socket : string) (mode : ShutdownMode.t) : M (Result unit) :=
  simple_ok socket (RqShutdown mode).

(** [cmd_info] *)
Definition cmd_info (socket : string) (json : bool) : M (Result unit) :=
  rsp <-? request socket RqInfo;
  match rsp with
  | RsInfo info =>
      if json then
        match print_info info with
        | Ok text => println text;; mret (Ok tt)
        | Err e => mret (Err (Error.Ipc ("serialize info: " +:+ e)))
        end
      else for_each_m (print_daemon_info info) println;; mret (Ok tt)
  | rsp => refused rsp
  end.

(** The lines of [cmd_list], with labels or without. *)
Definition list_lines (show_labels : bool) (services : list ServiceStatus) : list string :=
  if show_labels then
    (list_header +:+ " LABELS") ::
    ((λ s, status_row s +:+ " " +:+
           (let labels := format_labels (ss_labels s) in if decide (labels = "") then "-" else labels)) <$> services)
  else print_list_table services.

(** [cmd_list] *)
Definition cmd_list (socket : string) (show_labels : bool) (selectors : list string) : M (Result unit) :=
  want <-? mret (parse_selectors fmt_debug selectors);
  rsp <-? request socket RqList;
  match rsp with
  | RsList services =>
      for_each_m (list_lines show_labels (filter (λ s, Is_true (matches_selectors (ss_labels s) want)) services)) println;;
      mret (Ok tt)
  | rsp => refused rsp
  end.

(** [print_describe_json] *)
Definition print_describe_json (d : ServiceDescribe json_value) : M (Result unit) :=
  match sd_source d with
  | None => mret (Err (Error.Ipc "describe -o json: daemon did not return source"))
  | Some src =>
      eprintln ("# from: " +:+ src_path src);;
      match print_value (src_json src) with
      | Ok text => println text;; mret (Ok tt)
      | Err e => mret (Err (Error.Json e))
      end
  end.

(** [cmd_describe] *)
Definition cmd_describe (socket name : string) (output : DescribeOutput) : M (Result unit) :=
  rsp <-? request socket (RqDescribe name output);
  match rsp with
  | RsDescribe describe =>
      match output with
      | Protocol.Json => print_describe_json describe
      | Human => for_each_m (print_describe describe) println;; mret (Ok tt)
      end
  | rsp => refused rsp
  end.

Definition unexpected_frame (rsp : Response json_value) : Error.t := Error.Ipc ("unexpected: " +:+ debug_response rsp).

(** The text of a log line. *)
Definition log_text (line : LogLine) : string := "[" +:+ ln_ts line +:+ "] " +:+ ln_service line +:+ ": " +:+ ln_msg line.

(** The loop of [cmd_logs], for at most [n] frames. *)
Fixpoint read_logs (n : nat) : M (Result unit) :=
  match n with
  | O => no_return
  | S n =>
      rsp <-? read_frame;
      match rsp with
      | RsLog line => _ <-? write_stdout (line_of (log_text line)); read_logs n
      | RsHeartbeat => read_logs n
      | RsOk _ => mret (Ok tt)
      | RsError message _ => mret (Err (Error.Ipc message))
      | rsp => mret (Err (unexpected_frame rsp))
      end
  end.

(** [cmd_logs] *)
Definition cmd_logs (n : nat) (socket : string) (name : option string) (follow : bool) (lines : option nat) :
    M (Result unit) :=
  _ <-? connect socket;
  _ <-? write_frame_to (encode_request (RqLogs name follow lines));
  read_logs n.

(** What [cmd_watch] writes for a list. *)
Definition watch_text (json : bool) (services : list ServiceStatus) : Result string :=
  if json then
    match print_services services with
    | Ok text => Ok (line_of text)
    | Err e => Err (Error.Ipc ("serialize watch: " +:+ e))
    end
  else Ok (String.concat "" (line_of <$> (print_list_table services ++ [""]))).

(** The loop of [cmd_watch], for at most [n] frames. *)
Fixpoint read_watch (n : nat) (json : bool) : M (Result unit) :=
  match n with
  | O => no_return
  | S n =>
      rsp <-? read_frame;
      match rsp with
      | RsList services =>
          text <-? mret (watch_text json services);
          _ <-? write_stdout text;
          read_watch n json
      | RsHeartbeat => read_watch n json
      | RsError message _ => mret (Err (Error.Ipc message))
      | rsp => mret (Err (unexpected_frame rsp))
      end
  end.

(** [cmd_watch] *)
Definition cmd_watch (n : nat) (socket : string) (label_keys : list string) (json : bool) : M (Result unit) :=
  _ <-? connect socket;
  _ <-? write_frame_to (encode_request (RqWatch label_keys));
  read_watch n json.

(** ** The [shutdown] binary *)

(** [usage]; [name] is the file name of the program. *)
Definition usage (name : string) : list string := [
  "usage: " +:+ name +:+ " [-h|-H|-r|-P] [now]";
  "  (default) / -h / -P   power off via microinit";
  "  -r                   reboot via microinit";
  "  -H                   halt via microinit";
  "  --socket PATH        control socket (default " +:+ DEFAULT_SOCKET +:+ ")"
].

(** [exec_fallback] *)
Definition exec_fallback (bin : string) : M (result unit string) :=
  status ← asks (λ h, program_status h [bin]) (EvProgram [bin]);
  mret (match status with
        | Ok None => Ok tt
        | Ok (Some st) => Err (bin +:+ " exited with " +:+ st)
        | Err e => Err (bin +:+ ": " +:+ e)
        end).

(** [main]: the exit code. *)
Definition shutdown_main `{DataDir} (name : string) (argv : list string) : M N :=
  match socket_args argv default_socket_path [] with
  | None => eprintln "shutdown: --socket requires a path";; mret 2%N
  | Some (socket, args) =>
      match parse_shutdown_args fmt_debug args with
      | Ok CliHelp => for_each_m (usage name) eprintln;; mret 0%N
      | Err e => eprintln ("shutdown: " +:+ e);; for_each_m (usage name) eprintln;; mret 2%N
      | Ok (CliMode mode) =>
          r ← cmd_shutdown socket mode;
          match r with
          | Ok _ => mret 0%N
          | Err e =>
              let fb := fallback_bin mode in
              eprintln ("shutdown: microinit: " +:+ Error.to_string e +:+ " — falling back to " +:+ fb);;
              done ← exec_fallback fb;
              match done with
              | Ok _ => mret 0%N
              | Err e2 => eprintln ("shutdown: " +:+ e2);; mret 1%N
              end
          end
      end
  end.
End client.
