(* ===== verification/Main.v ===== *)
(** The main program ([main.rs]): what a process runs for its arguments, and its exit
    code.  Parsing the arguments is a library's. *)

From Stdlib Require Import Ascii.
From S2P Require Import Prelude Constants RustStr Error Security Config Protocol Logs Watch.
From S2P Require Import Reaper Runtime World Logic EnvFile Service Store Supervisor Describe EarlyBoot.
From S2P Require Import Version OtelEnv DaemonInfo Requests Trace MonitorSpec Replies Init Cli Client.
#[local] Open Scope stdpp_scope.

(** ** Choosing what to run: [main.rs] *)

(** [paths_for_config] *)
Definition paths_for_config `{DataDir} (config_path : string) : Paths :=
  let base := default_paths in
  match path_parent config_path with
  | Some parent =>
      mkPaths config_path (path_join parent "microinit.json.example")
        (path_join parent "microinit.services.enabled-override.json")
        (path_join (path_join parent "microinit.d") "services")
        (ps_early_boot base) (ps_early_boot_override base) (ps_unmount base) (ps_unmount_override base)
  | None =>
      mkPaths config_path (ps_example base) (ps_override_file base) (ps_dropins_dir base)
        (ps_early_boot base) (ps_early_boot_override base) (ps_unmount base) (ps_unmount_override base)
  end.

(** [default_init_opts] *)
Definition auto_init_opts `{DataDir} (socket : string) : InitOpts := {|
  io_logs_tty := DEFAULT_LOGS_TTY;
  io_init_logs_tty := DEFAULT_INIT_LOGS_TTY;
  io_console := DEFAULT_CONSOLE;
  io_paths := paths_for_config default_config_path;
  io_skip_early_boot := false;
  io_require_early_boot := true;
  io_log_to_files := false;
  io_early_boot_logs_path := None;
  io_spawn_getty := true;
  io_attach_ttys := true;
  io_socket := socket;
  io_machine_shutdown := true;
|}.

(** The arguments of [microinit init]. *)
Record InitArgs := mkInitArgs {
  ia_logs_tty : string;
  ia_init_logs_tty : string;
  ia_console : string;
  ia_config : string;
  ia_no_early_boot : bool;
  ia_allow_no_early_boot : bool;
  ia_log_to_files : bool;
  ia_early_boot_logs_path : option string;
}.

(** [Commands::Init] without arguments. *)
Definition default_init_args `{DataDir} : InitArgs :=
  mkInitArgs DEFAULT_LOGS_TTY DEFAULT_INIT_LOGS_TTY DEFAULT_CONSOLE default_config_path false false false None.

(** The options of [microinit init]. *)
Definition init_opts_of `{DataDir} (socket : string) (a : InitArgs) : InitOpts := {|
  io_logs_tty := ia_logs_tty a;
  io_init_logs_tty := ia_init_logs_tty a;
  io_console := ia_console a;
  io_paths := paths_for_config (ia_config a);
  io_skip_early_boot := ia_no_early_boot a;
  io_require_early_boot := negb (ia_allow_no_early_boot a) && negb (ia_no_early_boot a);
  io_log_to_files := ia_log_to_files a;
  io_early_boot_logs_path := ia_early_boot_logs_path a;
  io_spawn_getty := true;
  io_attach_ttys := true;
  io_socket := socket;
  io_machine_shutdown := true;
|}.

(** [Commands] *)
Inductive Commands :=
  | CmdInit (a : InitArgs)
  | CmdSupervise (console config : string) (log_to_files : bool)
  | CmdStart (name : string) (force : bool)
  | CmdStop (name : string)
  | CmdRestart (name : string)
  | CmdEnable (name : string)
  | CmdDisable (name : string)
  | CmdList (show_labels : bool) (selector : list string)
  | CmdDescribe (name : string) (output : DescribeOutput)
  | CmdLogs (name : option string) (follow : bool) (lines : option nat)
  | CmdInfo (json : bool)
  | CmdWatch (label_key : list string) (json : bool).

(** [Cli] *)
Record CliArgs := mkCliArgs { cl_socket : string; cl_command : option Commands }.

(** An error of the argument parser: its text and whether it belongs on the output,
    as help does. *)
Record ParseError := mkParseError { pe_text : string; pe_use_stdout : bool }.

Section main.
Context `{Host, Nss, HashOrder, FirstKey, Json, DataDir, !FileTimes, VersionEnv, Process, !Wire, !Machine, !Client}.

(** The end of [run_as_pid1], for [n] rounds. *)
Fixpoint idle (n : nat) : M N :=
  match n with
  | O => no_return
  | S n =>
      eprintln "microinit: PID 1 idle after fatal error; not exiting";;
      sleep (from_secs 3600);;
      idle n
  end.

(** [run_as_pid1] *)
Definition run_as_pid1 (n : nat) : M N :=
  eprintln "microinit: running as PID 1 (init)";;
  r ← run n (auto_init_opts default_socket_path);
  (match r with Ok _ => mret tt | Err e => eprintln ("microinit: fatal: " +:+ Error.to_string e) end);;
  idle n.

(** The last match of [main]: the exit code of a result. *)
Definition exit_code (r : Result unit) : M N :=
  match r with
  | Ok _ => mret 0%N
  | Err e => eprintln ("microinit: " +:+ Error.to_string e);; mret 1%N
  end.

(** The command that is run; streams take at most [n] rounds. *)
Definition command_result (n : nat) (socket : string) (c : Commands) : M (Result unit) :=
  match c with
  | CmdInit a => run n (init_opts_of socket a)
  | CmdSupervise console config log_to_files =>
      run n (supervise_opts console (paths_for_config config) socket log_to_files)
  | CmdStart name force => cmd_start socket name force
  | CmdStop name => cmd_stop socket name
  | CmdRestart name => cmd_restart socket name
  | CmdEnable name => cmd_enable socket name
  | CmdDisable name => cmd_disable socket name
  | CmdList show_labels selector => cmd_list socket show_labels selector
  | CmdDescribe name output => cmd_describe socket name output
  | CmdLogs name follow lines => cmd_logs n socket name follow lines
  | CmdInfo json => cmd_info socket json
  | CmdWatch label_key json => cmd_watch n socket label_key json
  end.

(** [clap::Error::print], whose own error is ignored. *)
Definition print_error (e : ParseError) : M unit :=
  if pe_use_stdout e then asks stdout_fault (EvStdout (pe_text e)) ≫= λ _, mret tt
  else effect (EvStderr (pe_text e)).

(** [main]: the exit code.  [parsed] is what the argument parser gives. *)
Definition main (n : nat) (parsed : result CliArgs ParseError) : M N :=
  if decide (process_id = 1%N) then run_as_pid1 n
  else match parsed with
  | Err e =>
      if should_auto_init then
        eprintln ("microinit: CLI parse failed (" +:+ pe_text e +:+ "); falling back to init mode");;
        run n (auto_init_opts default_socket_path) ≫= exit_code
      else print_error e;; mret 2%N
  | Ok cli =>
      match cl_command cli with
      | Some c => command_result n (cl_socket cli) c ≫= exit_code
      | None =>
          if should_auto_init then command_result n (cl_socket cli) (CmdInit default_init_args) ≫= exit_code
          else eprintln "microinit: missing subcommand (try --help)";; mret 2%N
      end
  end.
End main.

(** ** What [main] runs *)

(** Options that leave the machine alone: no early boot, no getty, no terminals, and
    a shutdown that only exits. *)
Definition leaves_machine_alone (opts : InitOpts) : Prop :=
  io_skip_early_boot opts = true ∧ io_spawn_getty opts = false ∧ io_attach_ttys opts = false ∧
  io_machine_shutdown opts = false.

(** The options of the daemon that a process other than process 1 runs for its
    arguments, if it runs one. *)
Definition daemon_opts `{Host, DataDir, Process, !Machine} (parsed : result CliArgs ParseError) : option InitOpts :=
  match parsed with
  | Err _ => if should_auto_init then Some (auto_init_opts default_socket_path) else None
  | Ok cli =>
      match cl_command cli with
      | None => if should_auto_init then Some (init_opts_of (cl_socket cli) default_init_args) else None
      | Some (CmdInit a) => Some (init_opts_of (cl_socket cli) a)
      | Some (CmdSupervise console config log_to_files) =>
          Some (supervise_opts console (paths_for_config config) (cl_socket cli) log_to_files)
      | Some _ => None
      end
  end.

Section main_spec.
Context `{Host, Nss, HashOrder, FirstKey, Json, DataDir, !FileTimes, VersionEnv, Process, !Wire, !Machine, !Client}.

Lemma idle_never n : yields (λ _, False) (idle n).
Proof.
  induction n as [|n IH]; cbn [idle]; [by intros w r w' ?|].
  do 2 (apply (yields_bind (λ _, True)); [done|intros _ _]). exact IH.
Qed.

Lemma run_as_pid1_never n : yields (λ _, False) (run_as_pid1 n).
Proof. unfold run_as_pid1. do 3 (apply (yields_bind (λ _, True)); [done|intros ? _]). apply idle_never. Qed.

(** The exit code of a result tells whether it is one. *)
Lemma exit_code_run (r : Result unit) w :
  exit_code r w = (Some (if is_ok r then 0 else 1)%N,
    mkWorld (shared w) (match r with Ok _ => [] | Err e => [EvStderr ("microinit: " +:+ Error.to_string e)] end ++ hist w)).
Proof. destruct r as [[]|e]; [by destruct w|reflexivity]. Qed.

Lemma exit_code_codes (m : M (Result unit)) : yields (λ code, code ≤ 1)%N (m ≫= exit_code).
Proof. apply (yields_bind (λ _, True)); [done|]. intros r _ w c w'. rewrite exit_code_run. intros [= <- _]. by destruct r. Qed.

End main_spec.
