(* ===== verification/Session.v ===== *)
(** A client and the daemon: what comes of a command.

    The only frame a command writes is its request.  The daemon dispatches what that
    frame carries, and the client reads the frames the daemon writes. *)

From Stdlib Require Import Ascii.
From S2P Require Import Prelude Constants RustStr Error Labels Security Config Protocol Logs Watch.
From S2P Require Import Reaper Runtime World Logic EnvFile Service Store Supervisor Describe EarlyBoot.
From S2P Require Import Version OtelEnv DaemonInfo Events Requests Trace MonitorSpec Acts Answers Replies Init InitSpec Cli Client Main.
#[local] Open Scope stdpp_scope.

(** ** What a connection delivers *)

(** What a process writes: texts on its output, lines on its error output, frames on
    its connection. *)
Inductive Output := Out (text : string) | Note (line : string) | Asked (payload : string).

Definition output_of (e : Event) : option Output :=
  match e with EvStdout text => Some (Out text) | EvStderr line => Some (Note line)
  | EvFrame payload => Some (Asked payload) | _ => None end.

Definition out_line (line : string) : Output := Out (line_of line).

(** The frames read so far. *)
Definition reads_of (h : list Event) : nat := length (steps_by (λ e, match e with EvReadFrame => Some () | _ => None end) h).

Lemma reads_of_cons e h : reads_of (e :: h) = (match e with EvReadFrame => 1 | _ => 0 end) + reads_of h.
Proof.
  unfold reads_of, steps_by. simpl. rewrite reverse_cons, omap_app, length_app. destruct e; simpl; lia.
Qed.

(** The daemon takes the connection and the request, its replies arrive in order and
    then it closes the connection, and the output is open. *)
Record connected `{Host, Json, !Wire, !Client} (frames : list string) (eof : string) : Prop := {
  dials : ∀ h path, dial_fault h path = None;
  sends : ∀ h payload, frame_fault h payload = None;
  prints : ∀ h, stdout_fault h = None;
  arrives : ∀ h, incoming h = match frames !! reads_of h with Some frame => Ok frame | None => Err eof end;
}.

(** ** What a command says, by the replies *)

Section told.
Context `{Host, Json, !Wire, !Client}.
Context (eof : string).

(** What is written and the result. *)
Definition Told : Type := list Output * Result unit.

Definition refusal (rsp : Response json_value) : Error.t :=
  match rsp with RsError message _ => Error.Ipc message | rsp => unexpected rsp end.

Definition simple_told (rsp : Response json_value) : Told :=
  match rsp with
  | RsOk message => (match message with Some msg => [out_line msg] | None => [] end, Ok tt)
  | rsp => ([], Err (refusal rsp))
  end.

Definition info_told (json : bool) (rsp : Response json_value) : Told :=
  match rsp with
  | RsInfo info =>
      if json then
        match print_info info with
        | Ok text => ([out_line text], Ok tt)
        | Err e => ([], Err (Error.Ipc ("serialize info: " +:+ e)))
        end
      else (out_line <$> print_daemon_info info, Ok tt)
  | rsp => ([], Err (refusal rsp))
  end.

Definition list_told (show_labels : bool) (want : list (string * string)) (rsp : Response json_value) : Told :=
  match rsp with
  | RsList services =>
      (out_line <$> list_lines show_labels (filter (λ s, Is_true (matches_selectors (ss_labels s) want)) services), Ok tt)
  | rsp => ([], Err (refusal rsp))
  end.

Definition describe_told (output : DescribeOutput) (rsp : Response json_value) : Told :=
  match rsp with
  | RsDescribe d =>
      match output with
      | Human => (out_line <$> print_describe d, Ok tt)
      | Protocol.Json =>
          match sd_source d with
          | None => ([], Err (Error.Ipc "describe -o json: daemon did not return source"))
          | Some src =>
              match print_value (src_json src) with
              | Ok text => ([Note ("# from: " +:+ src_path src); out_line text], Ok tt)
              | Err e => ([Note ("# from: " +:+ src_path src)], Err (Error.Json e))
              end
          end
      end
  | rsp => ([], Err (refusal rsp))
  end.

Definition saying (out : list Output) (t : Told) : Told := (out ++ t.1, t.2).

Fixpoint logs_told (rs : list (Response json_value)) : Told :=
  match rs with
  | [] => ([], Err (Error.Ipc eof))
  | RsLog line :: rs => saying [out_line (log_text line)] (logs_told rs)
  | RsHeartbeat :: rs => logs_told rs
  | RsOk _ :: _ => ([], Ok tt)
  | RsError message _ :: _ => ([], Err (Error.Ipc message))
  | rsp :: _ => ([], Err (unexpected_frame rsp))
  end.

Fixpoint watch_told (json : bool) (rs : list (Response json_value)) : Told :=
  match rs with
  | [] => ([], Err (Error.Ipc eof))
  | RsList services :: rs =>
      match watch_text json services with
      | Ok text => saying [Out text] (watch_told json rs)
      | Err e => ([], Err e)
      end
  | RsHeartbeat :: rs => watch_told json rs
  | RsError message _ :: _ => ([], Err (Error.Ipc message))
  | rsp :: _ => ([], Err (unexpected_frame rsp))
  end.

(** For a command that reads one reply. *)
Definition first_told (told : Response json_value → Told) (rs : list (Response json_value)) : Told :=
  match rs with [] => ([], Err (Error.Ipc eof)) | rsp :: _ => told rsp end.

(** The request of a command, and what it says for the replies to it; [None] for a
    command that sends no request. *)
Definition dialogue (c : Commands) : option (Request * (list (Response json_value) → Told)) :=
  match c with
  | CmdInit _ | CmdSupervise _ _ _ => None
  | CmdStart name force => Some (RqStart name force, first_told simple_told)
  | CmdStop name => Some (RqStop name, first_told simple_told)
  | CmdRestart name => Some (RqRestart name, first_told simple_told)
  | CmdEnable name => Some (RqEnable name true, first_told simple_told)
  | CmdDisable name => Some (RqEnable name false, first_told simple_told)
  | CmdList show_labels selector =>
      match parse_selectors fmt_debug selector with
      | Ok want => Some (RqList, first_told (list_told show_labels want))
      | Err _ => None
      end
  | CmdDescribe name output => Some (RqDescribe name output, first_told (describe_told output))
  | CmdLogs name follow lines => Some (RqLogs name follow lines, logs_told)
  | CmdInfo json => Some (RqInfo, first_told (info_told json))
  | CmdWatch label_key json => Some (RqWatch label_key, watch_told json)
  end.
End told.

(** ** Running a command on a connection *)

Section says.
Context `{Host, Json, !Wire, !Client}.

(** With [k] frames read, [m] returns [a], having written [out] and read up to [k']. *)
Definition says {A} (k : nat) (m : M A) (out : list Output) (a : A) (k' : nat) : Prop :=
  ∀ w, reads_of (hist w) = k → ∃ new w', m w = (Some a, w') ∧ hist w' = new ++ hist w ∧
    steps_by output_of new = out ∧ reads_of (hist w') = k'.

Lemma says_ret {A} k (a : A) : says k (mret a) [] a k.
Proof. intros w Hk. by exists [], w. Qed.

Lemma says_bind {A B} k (m : M A) out a k1 (f : A → M B) out' b k2 :
  says k m out a k1 → says k1 (f a) out' b k2 → says k (m ≫= f) (out ++ out') b k2.
Proof.
  intros Hm Hf w Hk. destruct (Hm w Hk) as (new & w1 & Ha & Hh & Ho & Hk1).
  destruct (Hf w1 Hk1) as (new' & w2 & Hb & Hh' & Ho' & Hk2). exists (new' ++ new), w2.
  rewrite (bind_step _ _ _ _ _ Ha). split; [done|]. rewrite Hh', Hh, (assoc_L (++)). split; [done|].
  split; [|by rewrite <-(assoc_L (++)), <-Hh, <-Hh']. unfold steps_by in *. by rewrite reverse_app, omap_app, Ho, Ho'.
Qed.

(** A silent first part. *)
Lemma says_then {A B} k (m : M A) a k1 (f : A → M B) out b k2 :
  says k m [] a k1 → says k1 (f a) out b k2 → says k (m ≫= f) out b k2.
Proof. intros Hm Hf. exact (says_bind _ _ [] _ _ _ _ _ _ Hm Hf). Qed.

Lemma says_weaken {A} k (m : M A) out out' (a a' : A) k' :
  says k m out a k' → out = out' → a = a' → says k m out' a' k'.
Proof. by intros Hm -> ->. Qed.

Lemma says_asks {A} k (answer : list Event → A) e a :
  e ≠ EvReadFrame → output_of e = None → (∀ h, answer h = a) → says k (asks answer e) [] a k.
Proof.
  intros He Ht Ha w Hk. eexists [e], _. unfold asks. rewrite Ha. split; [done|]. split; [done|].
  split; [unfold steps_by; simpl; by rewrite Ht|]. simpl. rewrite reads_of_cons. by destruct e.
Qed.

Context (frames : list string) (eof : string).
Hypothesis conn : connected frames eof.

Lemma says_write_frame k payload : says k (write_frame_to payload) [Asked payload] (Ok tt) k.
Proof.
  intros w Hk. exists [EvFrame payload], (mkWorld (shared w) (EvFrame payload :: hist w)).
  unfold write_frame_to, asks, mbind, M_bind. rewrite (sends _ _ conn). split_and!; try done.
  simpl. rewrite reads_of_cons. done.
Qed.

Lemma says_connect k path : says k (connect path) [] (Ok tt) k.
Proof. unfold connect. eapply says_then; [apply says_asks; [done|done|intros h; apply conn]|]. apply says_ret. Qed.

Lemma says_println k line : says k (println line) [out_line line] tt k.
Proof.
  intros w Hk. exists [EvStdout (line_of line)], (mkWorld (shared w) (EvStdout (line_of line) :: hist w)).
  unfold println, asks, mbind, M_bind. rewrite (prints _ _ conn). split_and!; try done.
  simpl. rewrite reads_of_cons. done.
Qed.

Lemma says_write_stdout k text : says k (write_stdout text) [Out text] (Ok tt) k.
Proof.
  intros w Hk. exists [EvStdout text], (mkWorld (shared w) (EvStdout text :: hist w)).
  unfold write_stdout, asks, mbind, M_bind. rewrite (prints _ _ conn). split_and!; try done.
  simpl. rewrite reads_of_cons. done.
Qed.

Lemma says_lines k ls : says k (for_each_m ls println) (out_line <$> ls) tt k.
Proof.
  induction ls as [|l ls IH]; [apply says_ret|]. simpl. apply (says_bind _ _ [out_line l] tt k); [apply says_println|exact IH].
Qed.

(** The reply in the next frame. *)
Definition reply_at (k : nat) : Result (Response json_value) :=
  map_err map_frame (match frames !! k with Some frame => decode_response frame | None => Err eof end).

Lemma says_read k : says k read_frame [] (reply_at k) (S k).
Proof.
  intros w Hk. exists [EvReadFrame], (mkWorld (shared w) (EvReadFrame :: hist w)).
  unfold read_frame, asks, mbind, M_bind. rewrite (arrives _ _ conn), Hk. split_and!; try done.
  - unfold reply_at. by destruct (frames !! k).
  - simpl. rewrite reads_of_cons. by rewrite Hk.
Qed.

Lemma says_request k path req : says k (request path req) [Asked (encode_request req)] (reply_at k) (S k).
Proof.
  unfold request. eapply says_then; [apply says_connect|].
  apply (says_bind _ _ [_] (Ok tt) k _ []); [apply says_write_frame|apply says_read].
Qed.

(** The frames hold these replies. *)
Context (rs : list (Response json_value)).
Hypothesis replies : Forall2 (λ frame rsp, decode_response frame = Ok rsp) frames rs.

Lemma reply_at_spec k : reply_at k = match rs !! k with Some rsp => Ok rsp | None => Err (Error.Ipc eof) end.
Proof.
  unfold reply_at. destruct (frames !! k) as [frame|] eqn:Hf.
  - destruct (Forall2_lookup_l _ _ _ _ _ replies Hf) as (rsp & -> & ->). done.
  - destruct (rs !! k) as [rsp|] eqn:Hr; [|done].
    destruct (Forall2_lookup_r _ _ _ _ _ replies Hr) as (frame & ? & _). congruence.
Qed.

(** A command that makes one request. *)
Lemma says_first path req (k : Response json_value → M (Result unit)) (told : Response json_value → Told) :
  (∀ rsp, says 1 (k rsp) (told rsp).1 (told rsp).2 1) →
  says 0 (request path req ≫= λ r, match r with Ok rsp => k rsp | Err e => mret (Err e) end)
    (Asked (encode_request req) :: (first_told eof told rs).1) (first_told eof told rs).2 1.
Proof.
  intros Hk. apply (says_bind _ _ [_] (reply_at 0) 1); [apply says_request|]. rewrite reply_at_spec.
  unfold first_told. destruct rs as [|rsp rs']; simpl; [apply says_ret|apply Hk].
Qed.

Lemma says_printing k ls : says k (for_each_m ls println;; mret (Ok tt)) (out_line <$> ls) (Ok (E := Error.t) tt) k.
Proof.
  rewrite <-(app_nil_r (out_line <$> ls)). eapply says_bind; [apply says_lines|apply says_ret].
Qed.

Lemma says_line k l : says k (println l;; mret (Ok tt)) [out_line l] (Ok (E := Error.t) tt) k.
Proof. eapply (says_bind _ _ [_] _ _ _ []); [apply says_println|apply says_ret]. Qed.

Lemma says_simple path req :
  says 0 (simple_ok path req) (Asked (encode_request req) :: (first_told eof simple_told rs).1)
    (first_told eof simple_told rs).2 1.
Proof.
  apply says_first. intros []; try apply says_ret. destruct message; simpl.
  - apply says_line.
  - apply (says_then _ _ tt 1); apply says_ret.
Qed.

Lemma says_info path json :
  says 0 (cmd_info path json) (Asked (encode_request RqInfo) :: (first_told eof (info_told json) rs).1)
    (first_told eof (info_told json) rs).2 1.
Proof.
  apply says_first. intros []; try apply says_ret. cbn [info_told]. destruct json; [|apply (says_printing 1 (print_daemon_info info))].
  destruct (print_info info) as [text|e]; [apply says_line|apply says_ret].
Qed.

Lemma says_list path show selector want :
  parse_selectors fmt_debug selector = Ok want →
  says 0 (cmd_list path show selector) (Asked (encode_request RqList) :: (first_told eof (list_told show want) rs).1)
    (first_told eof (list_told show want) rs).2 1.
Proof.
  intros Hs. unfold cmd_list. rewrite Hs. eapply says_then; [apply says_ret|]. apply says_first.
  intros []; try apply says_ret. apply (says_printing 1 (list_lines _ _)).
Qed.

Lemma says_describe path name output :
  says 0 (cmd_describe path name output)
    (Asked (encode_request (RqDescribe name output)) :: (first_told eof (describe_told output) rs).1)
    (first_told eof (describe_told output) rs).2 1.
Proof.
  apply says_first. intros []; try apply says_ret. cbn [describe_told].
  destruct output; [apply (says_printing 1 (print_describe _))|].
  unfold print_describe_json. destruct (sd_source describe) as [src|]; [|apply says_ret].
  assert (∀ l, says 1 (eprintln l) [Note l] tt 1) as Hnote.
  { intros l w Hk. eexists [EvStderr l], _. split; [reflexivity|]. split_and!; [done..|].
    simpl. by rewrite reads_of_cons. }
  destruct (print_value (src_json src)) as [text|e].
  - eapply says_weaken; [eapply says_bind; [apply Hnote|apply says_line]|done|done].
  - eapply says_weaken; [eapply says_bind; [apply Hnote|apply says_ret]|done|done].
Qed.
(** The result of a command, however many frames it reads. *)
Definition tells (k : nat) (m : M (Result unit)) (t : Told) : Prop := ∃ k', says k m t.1 t.2 k'.

Lemma tells_then {A} k (m : M A) a k1 f t : says k m [] a k1 → tells k1 (f a) t → tells k (m ≫= f) t.
Proof. intros Hm [k' Hf]. exists k'. by eapply says_then. Qed.

Lemma tells_saying {A} k (m : M A) out a f t :
  says k m out a k → tells k (f a) t → tells k (m ≫= f) (saying out t).
Proof. intros Hm [k' Hf]. exists k'. by eapply says_bind. Qed.

Lemma tells_ret k r : tells k (mret r) ([], r).
Proof. exists k. apply says_ret. Qed.

(** Streams, from the frames not read yet. *)
Lemma tells_read_logs n k : k ≤ length rs → length rs < n + k → tells k (read_logs n) (logs_told eof (drop k rs)).
Proof.
  revert k. induction n as [|n IH]; intros k Hk Hn; [lia|]. cbn [read_logs].
  eapply tells_then; [apply says_read|]. rewrite reply_at_spec.
  destruct (rs !! k) as [rsp|] eqn:Hr; [|rewrite drop_ge by (by apply lookup_ge_None); apply tells_ret].
  pose proof (lookup_lt_Some _ _ _ Hr). rewrite (drop_S _ _ _ Hr).
  assert (tells (S k) (read_logs n) (logs_told eof (drop (S k) rs))) as Hrest by (apply IH; lia).
  destruct rsp; try apply tells_ret; [|exact Hrest].
  cbn [logs_told]. eapply tells_saying; [apply says_write_stdout|exact Hrest].
Qed.

Lemma tells_read_watch n json k :
  k ≤ length rs → length rs < n + k → tells k (read_watch n json) (watch_told eof json (drop k rs)).
Proof.
  revert k. induction n as [|n IH]; intros k Hk Hn; [lia|]. cbn [read_watch].
  eapply tells_then; [apply says_read|]. rewrite reply_at_spec.
  destruct (rs !! k) as [rsp|] eqn:Hr; [|rewrite drop_ge by (by apply lookup_ge_None); apply tells_ret].
  pose proof (lookup_lt_Some _ _ _ Hr). rewrite (drop_S _ _ _ Hr).
  assert (tells (S k) (read_watch n json) (watch_told eof json (drop (S k) rs))) as Hrest by (apply IH; lia).
  destruct rsp; try apply tells_ret; [|exact Hrest].
  cbn [watch_told]. eapply tells_then; [apply says_ret|].
  destruct (watch_text json services) as [text|e]; [|apply tells_ret].
  eapply tells_saying; [apply says_write_stdout|exact Hrest].
Qed.
End says.

Section command.
Context `{Host, Nss, HashOrder, FirstKey, Json, DataDir, !FileTimes, VersionEnv, Process, !Wire, !Machine, !Client}.
Context (frames : list string) (eof : string) (rs : list (Response json_value)).

(** A client command, run to its end. *)
Lemma tells_command n socket c req told :
  connected frames eof → Forall2 (λ frame rsp, decode_response frame = Ok rsp) frames rs →
  length rs < n → dialogue eof c = Some (req, told) →
  tells 0 (command_result n socket c) (saying [Asked (encode_request req)] (told rs)).
Proof.
  intros Hconn Hrs Hn Hd.
  assert (∀ path req n', length rs < n' →
    (∀ k, says k (connect path) [] (Ok tt) k) ∧ (∀ k, says k (write_frame_to (encode_request req)) [Asked (encode_request req)] (Ok tt) k) ∧
    tells 0 (read_logs n') (logs_told eof rs) ∧ ∀ json, tells 0 (read_watch n' json) (watch_told eof json rs)) as Hstream.
  { intros path req' n' Hn'. split_and!; intros.
    - by eapply says_connect.
    - by eapply says_write_frame.
    - apply (tells_read_logs frames eof Hconn rs Hrs n' 0); lia.
    - apply (tells_read_watch frames eof Hconn rs Hrs n' json 0); lia. }
  destruct c; simpl in Hd; simplify_eq/=.
  - exists 1. by eapply says_simple.
  - exists 1. by eapply says_simple.
  - exists 1. by eapply says_simple.
  - exists 1. by eapply says_simple.
  - exists 1. by eapply says_simple.
  - destruct (parse_selectors fmt_debug selector) as [want|e] eqn:Hs; simplify_eq. exists 1. by eapply says_list.
  - exists 1. by eapply says_describe.
  - destruct (Hstream socket (RqLogs name follow lines) n Hn) as (? & ? & ? & _). unfold cmd_logs.
    eapply tells_then; [done|]. by eapply tells_saying.
  - exists 1. by eapply says_info.
  - destruct (Hstream socket (RqWatch label_key) n Hn) as (? & ? & _ & Hw). unfold cmd_watch.
    eapply tells_then; [done|]. eapply tells_saying; [done|]. apply Hw.
Qed.

(** What [main] adds for an error. *)
Definition result_note (r : Result unit) : list Output :=
  match r with Ok _ => [] | Err e => [Note ("microinit: " +:+ Error.to_string e)] end.

(** And its exit code. *)
Lemma command_exits n socket c req told w :
  process_id ≠ 1%N → connected frames eof → Forall2 (λ frame rsp, decode_response frame = Ok rsp) frames rs →
  length rs < n → dialogue eof c = Some (req, told) → reads_of (hist w) = 0 →
  ∃ new w', main n (Ok (mkCliArgs socket (Some c))) w = (Some (if is_ok (told rs).2 then 0 else 1)%N, w') ∧
    hist w' = new ++ hist w ∧
    steps_by output_of new = Asked (encode_request req) :: (told rs).1 ++ result_note (told rs).2.
Proof.
  intros Hpid Hconn Hrs Hn Hd Hw. unfold main. rewrite decide_False by done. cbn [cl_command cl_socket].
  destruct (tells_command n socket c req told Hconn Hrs Hn Hd) as [k' Hm].
  destruct (Hm w Hw) as (new & w1 & Hr & Hh & Ho & _). rewrite (bind_step _ _ _ _ _ Hr), exit_code_run.
  eexists (match (told rs).2 with Ok _ => [] | Err e => [EvStderr ("microinit: " +:+ Error.to_string e)] end ++ new), _.
  split; [done|]. cbn [hist]. split; [by rewrite Hh, <-(assoc_L (++))|].
  destruct (told rs).2; simpl; [by rewrite app_nil_r|]. unfold steps_by in *. by rewrite reverse_cons, omap_app, Ho.
Qed.
End command.

(** ** The daemon at the other end *)

Section exchange.
Context `{Nss, HashOrder, FirstKey, Json, DataDir, VersionEnv}.
(** The daemon and the client are processes of their own. *)
Context {Hd : Host} {Td : FileTimes (H := Hd)} {Pd : Process} {Wd : Wire (H := Hd)}.
Context {Hc : Host} {Tc : FileTimes (H := Hc)} {Pc : Process} {Wc : Wire (H := Hc)} {Mc : Machine (H := Hc)}
  {Cc : Client (H := Hc)}.
Variable self : Supervisor.

#[local] Abbreviation daemon_handles n lines req :=
  (handle_ipc (H := Hd) (H3 := Td) (H5 := Pd) (H6 := Wd) self n lines req).
#[local] Abbreviation daemon_dispatches n lines body :=
  (dispatch_handler (H := Hd) (H3 := Td) (H5 := Pd) (H6 := Wd) self n lines body).
#[local] Abbreviation client_main n parsed :=
  (main (H := Hc) (H5 := Tc) (H7 := Pc) (H8 := Wc) (H9 := Mc) (H10 := Cc) n parsed).
#[local] Abbreviation encode := (encode_response (Wire := Wd)).

(** The JSON document of a frame, as the library of the socket hands it to the daemon. *)
Variable body_of : string → json_value.

(** The daemon decodes the frame of a request to what was encoded. *)
Definition same_request (req : Request) : Prop :=
  decode_request (Wire := Wd) (body_of (encode_request (Client := Cc) req)) = Ok req.

(** The client decodes these frames of the daemon to what was encoded. *)
Definition same_wire (fs : list string) : Prop :=
  ∀ rsp, encode rsp ∈ fs → decode_response (Client := Cc) (encode rsp) = Ok rsp.

Lemma decoded (rs : list (Response json_value)) :
  same_wire (encode <$> rs) → Forall2 (λ frame rsp, decode_response (Client := Cc) frame = Ok rsp) (encode <$> rs) rs.
Proof.
  intros Hw. apply Forall2_fmap_l, Forall_Forall2_diag, Forall_forall. intros rsp Hr. by apply Hw, list_elem_of_fmap_2.
Qed.

(** The result of a command that asked the daemon to do something: success, or the
    text of the daemon's error. *)
Definition clear (rs : list (Response json_value)) (t : Told) : Prop :=
  t.2 = Ok tt ∨ ∃ e, rs = [error_response e] ∧ t = ([], Err (Error.Ipc (Error.to_string e))).

(** Printing JSON can fail. *)
Definition json_fault (json : bool) (what : string) (t : Told) : Prop :=
  json = true ∧ ∃ e, t.2 = Err (Error.Ipc ("serialize " +:+ what +:+ ": " +:+ e)).

(** What a command comes to: no reply is ever unexpected. *)
Definition verdict (eof : string) (c : Commands) (r : Result unit) (rs : list (Response json_value)) (t : Told) : Prop :=
  match c with
  | CmdInit _ | CmdSupervise _ _ _ => False
  | CmdStart _ _ | CmdStop _ | CmdRestart _ | CmdEnable _ | CmdDisable _ | CmdDescribe _ Human => clear rs t
  | CmdDescribe _ Protocol.Json =>
      clear rs t ∨ t = ([], Err (Error.Ipc "describe -o json: daemon did not return source")) ∨
      ∃ e, t.2 = Err (Error.Json e)
  | CmdInfo json => t.2 = Ok tt ∨ json_fault json "info" t
  | CmdList _ _ => t.2 = Ok tt
  | CmdLogs _ false _ =>
      r = Ok tt → ∃ ls, rs = (RsLog <$> ls) ++ [RsOk None] ∧ t = (out_line ∘ log_text <$> ls, Ok tt)
  | CmdLogs _ true _ => t.2 = Err (Error.Ipc eof)
  | CmdWatch _ json =>
      t.2 = Err (Error.Ipc eof) ∨ (∃ text, rs = [RsError text (Some "busy")] ∧ t = ([], Err (Error.Ipc text))) ∨
      json_fault json "watch" t
  end.

Lemma logs_told_lines eof (ls : list LogLine) rest :
  logs_told (H2 := Cc) eof ((RsLog <$> ls) ++ rest)
  = saying (out_line ∘ log_text <$> ls) (logs_told (H2 := Cc) eof rest).
Proof.
  induction ls as [|l ls IH]; [apply surjective_pairing|].
  change (saying [out_line (log_text l)] (logs_told (H2 := Cc) eof ((RsLog <$> ls) ++ rest))
    = saying (out_line ∘ log_text <$> l :: ls) (logs_told (H2 := Cc) eof rest)). rewrite IH. done.
Qed.

Lemma logs_told_waits eof ls (rs : list (Response json_value)) :
  filter (λ rsp, is_heartbeat rsp = false) rs = RsLog <$> ls → (logs_told (H2 := Cc) eof rs).2 = Err (Error.Ipc eof).
Proof.
  revert ls. induction rs as [|rsp rs IH]; intros ls Hf; [done|]. rewrite filter_cons in Hf. case_decide as Hh.
  - destruct ls as [|l ls]; [done|]. injection Hf as -> Hf. by apply (IH ls).
  - destruct rsp; try done. by apply (IH ls).
Qed.

Lemma watch_told_waits eof json (rs : list (Response json_value)) :
  Forall (λ rsp, rsp = RsHeartbeat ∨ ∃ services, rsp = RsList services) rs →
  (watch_told (H2 := Cc) eof json rs).2 = Err (Error.Ipc eof) ∨
  json_fault json "watch" (watch_told (H2 := Cc) eof json rs).
Proof.
  induction 1 as [|rsp rs [->|(services & ->)] _ IH]; [by left|exact IH|]. simpl.
  unfold watch_text. destruct json; [|exact IH]. destruct (print_services services) as [text|e]; [exact IH|].
  right. split; [done|]. by exists e.
Qed.

(** A reply that is one of an operation. *)
Definition operational (rsp : Response json_value) : Prop := (∃ message, rsp = RsOk message) ∨ ∃ e, rsp = error_response e.

Lemma operational_plain res : operational (plain_reply res).
Proof. destruct res; [left|right]; by eexists. Qed.

Lemma replying_clear eof (work : Response json_value → Acts) r rs h new :
  (∀ rsp h n, work rsp h n → operational rsp) → replying (H := Hd) (H6 := Wd) work r rs h new →
  clear rs (first_told eof (simple_told (H2 := Cc)) rs).
Proof.
  intros Hw (rsp & -> & n1 & n2 & _ & [(message & ->)|(e & ->)]%Hw & _); [by left|]. right. by exists e.
Qed.

Lemma verdict_answer eof lines c req told r rs h new :
  dialogue (H2 := Cc) eof c = Some (req, told) →
  answer (H := Hd) (H3 := Td) (H5 := Pd) (H6 := Wd) self lines req r rs h new → verdict eof c r rs (told rs).
Proof.
  intros Hdlg Ha. destruct c as [| |name force|name|name|name|name|show selector|name output|name follow ls|json|keys json]; simpl in Hdlg;
    try (destruct (parse_selectors _ _)); simplify_eq/=; try done.
  - eapply replying_clear; [|exact Ha]. intros rsp h' n' [(e & -> & _)|(text & res & -> & _)]; [right; by exists e|].
    destruct res; [left|right]; by eexists.
  - eapply replying_clear; [|exact Ha]. intros rsp h' n' (res & -> & _). apply operational_plain.
  - eapply replying_clear; [|exact Ha]. intros rsp h' n' [(e & -> & _)|(res & -> & _)]; [right; by exists e|apply operational_plain].
  - eapply replying_clear; [|exact Ha]. intros rsp h' n' (res & -> & _). apply operational_plain.
  - eapply replying_clear; [|exact Ha]. intros rsp h' n' (res & -> & _). apply operational_plain.
  - by destruct Ha as (rsp & -> & n1 & n2 & _ & (services & -> & _) & _).
  - destruct Ha as (rsp & -> & n1 & n2 & _ & [(d & s1 & s2 & -> & _)|(e & -> & _)] & _);
      destruct output; [by left|simpl|right; by exists e|left; right; by exists e].
    destruct (sd_source d) as [src|]; [|by right; left]. destruct (print_value (src_json src)) as [text|e]; [by left; left|].
    right. right. by exists e.
  - destruct Ha as (snapshot & n1 & n2 & _ & _ & Hs). destruct follow; [|intros ->].
    + destruct Hs as [(shown & left & msg & _ & -> & _)|(rest & -> & _ & id & m1 & m2 & _ & _ & m3 & m4 & _ & _ & m5 & m6 & _ & Hf & _)].
      * rewrite <-(app_nil_r (RsLog <$> shown)), logs_told_lines. done.
      * rewrite logs_told_lines. by eapply logs_told_waits.
    + destruct Hs as [(shown & left & msg & _ & _ & ?)|(rest & -> & -> & _)]; [done|]. exists snapshot. split; [done|].
      rewrite logs_told_lines. unfold saying. simpl. by rewrite app_nil_r.
  - destruct Ha as (rsp & -> & n1 & n2 & _ & (i & ver & otel & -> & _) & _). simpl. destruct json; [|by left].
    destruct (print_info i) as [text|e]; [by left|]. right. split; [done|]. by exists e.
  - destruct Ha as [[-> _]|(id & _ & m1 & m2 & _ & _ & m3 & m4 & _ & _ & m5 & m6 & _ & Hf & _)]; [right; left; by eexists|].
    destruct (watch_told_waits eof json rs) as [Hw|Hw]; [|by left|by right; right].
    eapply Forall_impl; [exact Hf|]. intros rsp [->|(l & -> & _)]; [by left|right; by exists l].
Qed.

(** What a command says is no frame. *)
Definition spoken (o : Output) : Prop := match o with Asked _ => False | _ => True end.

Lemma spoken_lines ls : Forall spoken (out_line <$> ls).
Proof. apply Forall_fmap, Forall_true. done. Qed.

Lemma spoken_logs eof (rs : list (Response json_value)) : Forall spoken (logs_told (H2 := Cc) eof rs).1.
Proof. induction rs as [|[] rs IH]; simpl; try done; by repeat constructor. Qed.

Lemma spoken_watch eof json (rs : list (Response json_value)) : Forall spoken (watch_told (H2 := Cc) eof json rs).1.
Proof.
  induction rs as [|[] rs IH]; simpl; try done; try by constructor.
  destruct (watch_text json services); simpl; by repeat constructor.
Qed.

Lemma spoken_dialogue eof c req told rs : dialogue (H2 := Cc) eof c = Some (req, told) → Forall spoken (told rs).1.
Proof.
  assert (∀ f : Response json_value → Told, (∀ rsp, Forall spoken (f rsp).1) → Forall spoken (first_told eof f rs).1) as Hfirst
    by (intros f Hf; destruct rs; simpl; [constructor|apply Hf]).
  assert (∀ rsp, Forall spoken (simple_told (H2 := Cc) rsp).1) as Hsimple
    by (intros [[]| | | | | | |]; simpl; repeat constructor).
  intros Hdlg. destruct c; simpl in Hdlg; try (destruct (parse_selectors _ _)); simplify_eq;
    try (by apply Hfirst); try apply spoken_logs; try apply spoken_watch; apply Hfirst; intros rsp; destruct rsp; try by constructor.
  - apply (spoken_lines (list_lines _ _)).
  - cbn [describe_told]. destruct output; [apply (spoken_lines (print_describe _))|].
    destruct (sd_source describe) as [src|]; [|constructor]. destruct (print_value (src_json src)); by repeat constructor.
  - cbn [info_told]. destruct json; [|apply (spoken_lines (print_daemon_info _))]. by destruct (print_info info); repeat constructor.
Qed.

(** What the client wrote on its connection is the frame of its request. *)
Lemma only_request payload req (t : Told) said :
  steps_by output_of said = Asked (encode_request (Client := Cc) req) :: t.1 ++ result_note t.2 →
  Forall spoken t.1 → EvFrame payload ∈ said → payload = encode_request (Client := Cc) req.
Proof.
  intros Hs Ht Hin. assert (Asked payload ∈ steps_by output_of said) as Ha.
  { apply list_elem_of_omap. exists (EvFrame payload). split; [by apply elem_of_reverse|done]. }
  rewrite Hs in Ha. apply elem_of_cons in Ha as [[= ->]|[Ha|Ha]%elem_of_app]; [done| |].
  - by destruct (proj1 (Forall_forall _ _) Ht _ Ha).
  - destruct t.2; by apply list_elem_of_singleton in Ha || apply elem_of_nil in Ha.
Qed.

Lemma dispatched n lines body req rd wd wd' :
  decode_request (Wire := Wd) body = Ok req → daemon_dispatches n lines body wd = (Some rd, wd') →
  ∃ r, rd = map_err Error.to_string r ∧ daemon_handles n lines req wd = (Some r, wd').
Proof.
  intros Hbody. unfold dispatch_handler. rewrite Hbody. intros (r & w1 & Hr & [= <- <-])%bind_Some. by exists r.
Qed.

(** Whatever is dispatched, what the daemon writes are replies. *)
Lemma dispatched_frames n lines body rd wd wd' new :
  daemon_dispatches n lines body wd = (Some rd, wd') → hist wd' = new ++ hist wd →
  ∃ rs, frames new = encode <$> rs.
Proof.
  destruct (decode_request (Wire := Wd) body) as [req|e] eqn:Hbody; intros Hr Hh.
  - destruct (dispatched _ _ _ _ _ _ _ Hbody Hr) as (r & _ & Hr').
    destruct (replied_handle_ipc (H := Hd) (H3 := Td) (H5 := Pd) (H6 := Wd) self _ _ _ _ _ _ _ eq_refl Hr') as (new' & Hh' & rs & Hf & _).
    rewrite Hh in Hh'. apply app_inv_tail in Hh' as <-. by exists rs.
  - unfold dispatch_handler in Hr. rewrite Hbody in Hr. injection Hr as _ <-.
    assert (new = []) as -> by (apply (app_inv_tail (hist wd)); by rewrite <-Hh). by exists [].
Qed.

(** The command's run, and that the daemon dispatched its request. *)
Lemma exchanged n lines payload rd wd wd' new m socket c req told eof w :
  let run := client_main m (Ok (mkCliArgs socket (Some c))) w in
  dialogue (H2 := Cc) eof c = Some (req, told) → process_id (Process := Pc) ≠ 1%N → hist w = [] →
  EvFrame payload ∈ hist run.2 → same_request req →
  daemon_dispatches n lines (body_of payload) wd = (Some rd, wd') → hist wd' = new ++ hist wd →
  same_wire (frames new) → connected (H1 := Wc) (H2 := Cc) (frames new) eof → length (frames new) < m →
  (∃ r, rd = map_err Error.to_string r ∧ daemon_handles n lines req wd = (Some r, wd')) ∧
  ∀ rs, frames new = encode <$> rs → ∃ w',
    run = (Some (if is_ok (told rs).2 then 0 else 1)%N, w') ∧
    steps_by output_of (hist w') = Asked (encode_request (Client := Cc) req) :: (told rs).1 ++ result_note (told rs).2.
Proof.
  intros run Hdlg Hpid Hw0 Hin Hreq Hr Hh Hw Hconn Hm.
  assert (∀ rs, frames new = encode <$> rs → ∃ w',
    run = (Some (if is_ok (told rs).2 then 0 else 1)%N, w') ∧
    steps_by output_of (hist w') = Asked (encode_request (Client := Cc) req) :: (told rs).1 ++ result_note (told rs).2) as Hrun.
  { intros rs Hf. rewrite Hf in Hw, Hconn, Hm. rewrite length_fmap in Hm.
    destruct (command_exits (H := Hc) (H5 := Tc) (H7 := Pc) (H8 := Wc) (H9 := Mc) (H10 := Cc) (encode <$> rs) eof rs m socket c req told w)
      as (said & w' & Hrun & Hsaid & Hout); try done; [by apply decoded|by rewrite Hw0|].
    exists w'. split; [exact Hrun|]. by rewrite Hsaid, Hw0, app_nil_r. }
  split; [|exact Hrun]. destruct (dispatched_frames _ _ _ _ _ _ _ Hr Hh) as [rs Hf].
  destruct (Hrun rs Hf) as (w' & Hr' & Hout). rewrite Hr' in Hin.
  rewrite (only_request _ _ _ _ Hout (spoken_dialogue _ _ _ _ _ Hdlg) Hin) in Hr. by eapply dispatched.
Qed.


(** The operation a request asks for, with the message it is answered with. *)
Definition operation (req : Request) : option (M (Result (option string))) :=
  match req with
  | RqStart name force => Some (r ← start_service (H := Hd) name force; mret (let? text := r in Ok (Some text)))
  | RqStop name => Some (r ← stop_service (H := Hd) name; mret (let? _ := r in Ok None))
  | RqRestart name => Some (r ← restart_service (H := Hd) name; mret (let? _ := r in Ok None))
  | RqEnable name enabled => Some (r ← set_enabled (H := Hd) self name enabled; mret (let? _ := r in Ok None))
  | _ => None
  end.

Definition operation_reply (res : Result (option string)) : Response json_value :=
  match res with Ok message => RsOk message | Err e => error_response e end.

Lemma handle_operation n lines req op wd :
  operation req = Some op →
  daemon_handles n lines req wd = (op ≫= λ res, write_frame (H6 := Wd) (operation_reply res)) wd.
Proof.
  intros Hop. destruct req; simplify_eq/=; unfold mbind, M_bind;
    match goal with |- context[match ?m wd with _ => _ end] => destruct (m wd) as [[[?|?]|] ?]; try done end.
Qed.

Lemma routine_operation req op : operation req = Some op → routinely op.
Proof.
  intros Hop. destruct req; simplify_eq/=.
  all: apply emits_bind; [|intros ?; emits_solve].
  - apply routine_start_service.
  - apply routine_stop_service.
  - apply routine_restart_service.
  - apply routine_set_enabled.
Qed.

(** What an operation comes to for the client: the exit code and the output. *)
Definition operation_code (res : Result (option string)) : N := if is_ok res then 0 else 1.
Definition operation_output (res : Result (option string)) : list Output :=
  match res with
  | Ok (Some text) => [out_line text]
  | Ok None => []
  | Err e => [Note ("microinit: " +:+ Error.to_string (Error.Ipc (Error.to_string e)))]
  end.

(** The only frame of an operation is its reply. *)
Lemma operation_frames n lines req op r wd wd' new :
  operation req = Some op → daemon_handles n lines req wd = (Some r, wd') → hist wd' = new ++ hist wd →
  ∃ res wd1, op wd = (Some res, wd1) ∧ frames new = [encode (operation_reply res)].
Proof.
  intros Hop Hr Hh. rewrite (handle_operation _ _ _ _ _ Hop) in Hr.
  apply bind_Some in Hr as (res & wd1 & Ho & Hr). exists res, wd1. split; [done|].
  pose proof (routine_unseen _ (routine_operation _ _ Hop) wd) as Hq. rewrite Ho in Hq.
  destruct Hq as (new1 & Hh1 & Hn). cbn [snd] in Hh1.
  destruct (replied_write (H6 := Wd) _ _ _ _ _ eq_refl Hr) as (new2 & Hh2 & rs & Hf & -> & _).
  rewrite Hh1, (assoc_L (++)), Hh in Hh2. apply app_inv_tail in Hh2 as ->.
  rewrite frames_app, Hf. by unfold frames; rewrite (steps_by_unseen _ _ Hn).
Qed.

(** C16: What the daemon did is what the user sees: for [start], [stop], [restart],
    [enable] and [disable], the only frame the command writes is its request; when the
    daemon dispatches what that frame carries and its reply reaches the client, exactly
    the operation of the command was carried out, and the command exits with 0 exactly
    when that is a success; it prints the message of a success and nothing else, or one
    line with the text of the operation's error. *)
Theorem command_outcome n lines payload op rd wd wd' new m socket c req told eof w :
  let run := client_main m (Ok (mkCliArgs socket (Some c))) w in
  dialogue (H2 := Cc) eof c = Some (req, told) → operation req = Some op →
  process_id (Process := Pc) ≠ 1%N → hist w = [] → EvFrame payload ∈ hist run.2 → same_request req →
  daemon_dispatches n lines (body_of payload) wd = (Some rd, wd') → hist wd' = new ++ hist wd →
  same_wire (frames new) → connected (H1 := Wc) (H2 := Cc) (frames new) eof → length (frames new) < m →
  ∃ res wd1 w', op wd = (Some res, wd1) ∧ run = (Some (operation_code res), w') ∧
    steps_by output_of (hist w') = Asked (encode_request (Client := Cc) req) :: operation_output res.
Proof.
  intros run Hdlg Hop Hpid Hw0 Hin Hreq Hr Hh Hw Hconn Hm.
  destruct (exchanged _ _ _ _ _ _ _ _ _ _ _ _ _ _ Hdlg Hpid Hw0 Hin Hreq Hr Hh Hw Hconn Hm) as [(r & -> & Hr') Hrun].
  destruct (operation_frames _ _ _ _ _ _ _ _ Hop Hr' Hh) as (res & wd1 & Ho & Hf).
  assert (told = first_told eof (simple_told (H2 := Cc))) as ->.
  { destruct c; simpl in Hdlg; try (destruct (parse_selectors _ _)); by simplify_eq/=. }
  destruct (Hrun [operation_reply res] Hf) as (w' & Hrun' & Hout).
  exists res, wd1, w'. split_and!; [done| |]; rewrite ?Hrun', ?Hout; by destruct res as [[text|]|e].
Qed.
End exchange.

(** ** Concrete sessions *)

(** An encoding that tells plain answers and missing services apart. *)
Definition plain_encode (rsp : Response (json_value (Json := example_json))) : string :=
  match rsp with
  | RsOk None => "ok"
  | RsOk (Some message) => "ok " +:+ message
  | RsError message code => if decide (code = Some "not_found") then "missing " +:+ message else "error"
  | _ => "other"
  end.

Definition plain_decode (text : string) : result (Response (json_value (Json := example_json))) string :=
  if decide (text = "ok") then Ok (RsOk None)
  else match strip_prefix "ok " text with
  | Some message => Ok (RsOk (Some message))
  | None =>
      match strip_prefix "missing " text with
      | Some message => Ok (RsError message (Some "not_found"))
      | None => Err "unknown reply"
      end
  end.

(** Requests to start or stop a service, as words. *)
Definition plain_request (req : Request) : string :=
  match req with RqStart name true => "force " +:+ name | RqStop name => "stop " +:+ name | _ => "other" end.

Definition plain_requested (text : string) : result Request string :=
  match strip_prefix "force " text, strip_prefix "stop " text with
  | Some name, _ => Ok (RqStart name true)
  | _, Some name => Ok (RqStop name)
  | _, _ => Err "missing field `type`"
  end.

Definition plain_wire : Wire (H := quiet_host) (H0 := example_json) := {|
  encode_response := plain_encode;
  decode_request := plain_requested;
  frame_fault _ _ := None;
  bind_fault _ _ := None;
  command_fault _ := None;
|}.

(** A process of its own, connected to a daemon that sends these frames. *)
Definition client_process : Process := {| process_id := 42 |}.
Definition example_client (fs : list string) : Client (H := quiet_host) (H0 := example_json) := {|
  encode_request := plain_request;
  decode_response := plain_decode;
  dial_fault _ _ := None;
  incoming h := match fs !! reads_of h with Some frame => Ok frame | None => Err "unexpected end of file" end;
  stdout_fault _ := None;
  print_info _ := Ok "{}";
  print_value text := Ok text;
  print_services _ := Ok "[]";
  debug_response _ := "Response";
  fmt_debug text := text;
  program_status _ _ := Ok None;
|}.

Lemma example_connected fs :
  connected (H1 := plain_wire) (H2 := example_client fs) fs "unexpected end of file".
Proof. by split. Qed.

(** The example supervisor with the channel of one monitor, which handles a request. *)
Definition example_served : World :=
  mkWorld (set_channels {[ "web" := 0 ]} {[ 0 := mkChan [] true true ]} 1 (shared example_world)) [].
Definition answering (payload : string) : option (result unit string) * World :=
  dispatch_handler (H := quiet_host) (H0 := example_nss) (H1 := example_json)
    (H2 := example_data) (H3 := example_times) (H4 := example_version) (H5 := example_process)
    (H6 := plain_wire) example_supervisor 1 300 payload example_served.

(** A command that receives these frames. *)
Definition calling (fs : list string) (c : Commands) : option N * World :=
  main (H := quiet_host) (H0 := example_nss) (H1 := canonical_hash_order) (H2 := canonical_first_key)
    (H3 := example_json) (H4 := example_data) (H5 := example_times) (H7 := client_process)
    (H8 := plain_wire) (H9 := example_machine) (H10 := example_client fs) 2
    (Ok (mkCliArgs "/run/microinit.sock" (Some c))) (mkWorld (shared example_served) []).

Lemma answered_once payload :
  (answering payload).1 = Some (Ok tt) →
  answering payload = (Some (Ok tt), (answering payload).2) ∧
  hist (answering payload).2 = hist (answering payload).2 ++ hist example_served.
Proof. intros Hr. rewrite app_nil_r, <-Hr. split; [apply surjective_pairing|done]. Qed.

Lemma frame_written payload h : frames h = [payload] → EvFrame payload ∈ h.
Proof.
  intros Hf. assert (payload ∈ frames h) as Hin by (rewrite Hf; by left).
  apply list_elem_of_omap in Hin as (e & He & Hp). rewrite elem_of_reverse in He. destruct e; by simplify_eq/=.
Qed.

(** The two frames below are decoded to what was encoded. *)
Lemma plain_same_wire fs client :
  Forall (λ frame, (∃ m, frame = "ok " +:+ m) ∨ ∃ m, frame = "missing " +:+ m) fs →
  same_wire (Wd := plain_wire) (Cc := example_client client) fs.
Proof.
  intros Hfs rsp Hin. rewrite Forall_forall in Hfs. specialize (Hfs _ Hin). clear Hin.
  cbn [decode_response example_client encode_response plain_wire] in *.
  destruct rsp as [[message|]|message code| | | | | |]; simpl in *; try (by destruct Hfs as [[? ?]|[? ?]]).
  destruct (decide (code = Some "not_found")) as [->|]; [reflexivity|]. by destruct Hfs as [[? ?]|[? ?]].
Qed.

Definition start_frame : string := "ok web: starting with --force (unmet dependencies: db, net)".
Definition stop_frame : string := "missing unknown service 'nope'".


Lemma command_outcome_witness :
  let run := calling [start_frame] (CmdStart "web" true) in
  ∃ res w', run = (Some (operation_code res), w') ∧
    steps_by output_of (hist w') = Asked "force web" :: operation_output res ∧
    res = Ok (Some "web: starting with --force (unmet dependencies: db, net)").
Proof.
  assert (frames (hist (answering "force web").2) = [start_frame]) as Hf by (vm_compute; reflexivity).
  destruct (answered_once "force web") as [Hr Hh]; [vm_compute; reflexivity|].
  destruct (command_outcome (H := example_nss) (H0 := canonical_hash_order) (H1 := canonical_first_key) (H2 := example_json)
    (H3 := example_data) (H4 := example_version) (Hd := quiet_host) (Td := example_times) (Pd := example_process)
    (Wd := plain_wire) (Hc := quiet_host) (Tc := example_times) (Pc := client_process) (Wc := plain_wire)
    (Mc := example_machine) (Cc := example_client [start_frame]) example_supervisor (λ payload, payload) 1 300 "force web" _ (Ok tt)
    example_served (answering "force web").2 (hist (answering "force web").2) 2 "/run/microinit.sock" (CmdStart "web" true) (RqStart "web" true)
    (first_told (H0 := example_json) "unexpected end of file" (simple_told (H0 := example_json) (H2 := example_client [start_frame])))
    "unexpected end of file"
    (mkWorld (shared example_served) []) (eq_refl _) (eq_refl _))
    as (res & wd1 & w' & Hop & Hm & Ho).
  - done.
  - reflexivity.
  - apply frame_written. vm_compute. reflexivity.
  - reflexivity.
  - exact Hr.
  - exact Hh.
  - rewrite Hf. apply plain_same_wire. constructor; [|constructor]. left. by eexists.
  - rewrite Hf. apply example_connected.
  - rewrite Hf. simpl. lia.
  - exists res, w'. split; [exact Hm|]. split; [exact Ho|].
    apply (f_equal fst) in Hop. symmetry in Hop. vm_compute in Hop. by injection Hop.
Defined.
