(* ===== verification/Float64.v ===== *)
(** Binary64 numbers: Rust's [f64], as far as the metrics use it.

    The numbers and their arithmetic are the Standard Library's specification of
    IEEE 754, rounding to nearest even. *)

From Stdlib Require Import Ascii SpecFloat.
From S2P Require Import Prelude RustStr.
#[local] Open Scope stdpp_scope.

Definition f64 : Type := spec_float.
Definition PREC : Z := 53.
Definition EMAX : Z := 1024.

(** [n as f64] *)
Definition f64_of_N (n : N) : f64 := binary_normalize PREC EMAX (Z.of_N n) 0 false.
Definition f64_zero : f64 := S754_zero false.
Definition f64_add : f64 → f64 → f64 := SFadd PREC EMAX.
Definition f64_div : f64 → f64 → f64 := SFdiv PREC EMAX.
Definition f64_le : f64 → f64 → bool := SFleb.

Definition f64_finite (x : f64) : bool :=
  match x with S754_zero _ | S754_finite _ _ _ => true | _ => false end.

Definition NANOS_PER_SEC : N := 1000000000.

(** [Duration::as_secs_f64], of nanoseconds. *)
Definition as_secs_f64 (d : N) : f64 :=
  f64_add (f64_of_N (d / NANOS_PER_SEC))
    (f64_div (f64_of_N (d mod NANOS_PER_SEC)) (f64_of_N NANOS_PER_SEC)).

(** ** [str::parse::<f64>] *)

(** The leading digits: their value after [acc], their number, and the rest. *)
Fixpoint take_digits (acc : N) (s : string) : N * N * string :=
  match s with
  | "" => (acc, 0%N, "")
  | String c r =>
      match digit_val c with
      | Some d => let '(v, n, rest) := take_digits (10 * acc + d) r in (v, (n + 1)%N, rest)
      | None => (acc, 0%N, s)
      end
  end.

(** A sign, and the rest. *)
Definition take_sign (s : string) : bool * string :=
  match s with
  | String "-"%char r => (true, r)
  | String "+"%char r => (false, r)
  | _ => (false, s)
  end.

(** The exponent at the end of a number, if it is well formed. *)
Definition parse_exponent (s : string) : option Z :=
  match s with
  | "" => Some 0%Z
  | String c r =>
      if decide (c = "e"%char ∨ c = "E"%char) then
        let '(neg, r) := take_sign r in
        let '(v, n, rest) := take_digits 0 r in
        if decide (n ≠ 0%N ∧ rest = "") then Some (if neg : bool then - Z.of_N v else Z.of_N v)%Z else None
      else None
  end.

(** The number nearest to [m * 10 ^ e]. *)
Definition decimal_value (neg : bool) (m : N) (e : Z) : f64 :=
  match m with
  | 0%N => S754_zero neg
  | Npos p =>
      if decide (0 ≤ e)%Z then
        let v := (Z.pos p * 10 ^ e)%Z in
        binary_normalize PREC EMAX (if neg then - v else v)%Z 0 neg
      else
        let '(q, ex, l) := SFdiv_core_binary PREC EMAX (Z.pos p) 0 (10 ^ (- e)) 0 in
        binary_round_aux PREC EMAX neg q ex l
  end.

(** Digits with an optional point and exponent, at least one digit before the
    exponent. *)
Definition parse_decimal (neg : bool) (s : string) : option f64 :=
  let '(v, n, rest) := take_digits 0 s in
  let '(v, n', rest) :=
    match rest with String "."%char r => take_digits v r | _ => (v, 0%N, rest) end in
  if decide (n + n' = 0)%N then None
  else e ← parse_exponent rest; Some (decimal_value neg v (e - Z.of_N n')).

Definition parse_inf_nan (neg : bool) (s : string) : option f64 :=
  let s := to_ascii_lowercase s in
  if decide (s = "inf" ∨ s = "infinity") then Some (S754_infinity neg)
  else if decide (s = "nan") then Some S754_nan else None.

Definition parse_f64 (s : string) : result f64 string :=
  if decide (s = "") then Err "cannot parse float from empty string"
  else
    let '(neg, s) := take_sign s in
    match parse_decimal neg s with
    | Some x => Ok x
    | None => ok_or (parse_inf_nan neg s) "invalid float literal"
    end.

(** ** Lemmas *)

(** Neither negative nor undefined. *)
Definition not_negative (x : f64) : Prop :=
  match x with
  | S754_nan => False
  | S754_zero s | S754_infinity s | S754_finite s _ _ => s = false
  end.

(** A mantissa that is not negative stays so when bits are shifted out. *)
Lemma shr_nonneg r e n : (0 ≤ shr_m r)%Z → (0 ≤ shr_m (shr r e n).1)%Z.
Proof.
  intros Hr. assert (∀ (p : positive) r, (0 ≤ shr_m r)%Z → (0 ≤ shr_m (SpecFloat.iter_pos shr_1 p r))%Z) as Hiter.
  { assert (∀ r, (0 ≤ shr_m r)%Z → (0 ≤ shr_m (shr_1 r))%Z) as H1.
    { intros [[|[p|p|]|p] b s] Hm; simpl in *; lia. }
    intros p. induction p as [p IH|p IH|]; intros r' Hr'; simpl; auto. }
  destruct n; simpl; auto.
Qed.

Lemma round_not_negative m e l : (0 ≤ m)%Z → not_negative (binary_round_aux PREC EMAX false m e l).
Proof.
  intros Hm. unfold binary_round_aux, shr_fexp.
  pose proof (shr_nonneg (shr_record_of_loc m l) e (fexp PREC EMAX (Zdigits2 m + e) - e)) as H1.
  destruct (shr (shr_record_of_loc m l) e _) as [r1 e1]. simpl in H1.
  assert (0 ≤ shr_m r1)%Z as Hr1 by (apply H1; destruct l as [|[]]; simpl; done). clear H1.
  set (m2 := round_nearest_even _ _).
  assert (0 ≤ m2)%Z as Hm2 by (unfold m2, round_nearest_even; destruct (loc_of_shr_record r1) as [|[]]; try destruct (Z.even (shr_m r1)); lia).
  pose proof (shr_nonneg (shr_record_of_loc m2 loc_Exact) e1 (fexp PREC EMAX (Zdigits2 m2 + e1) - e1) Hm2) as H2.
  destruct (shr (shr_record_of_loc m2 loc_Exact) e1 _) as [r2 e2]. simpl in H2.
  destruct (shr_m r2) as [|p|p]; [done|by destruct (_ <=? _)%Z|lia].
Qed.

Lemma of_N_not_negative n : not_negative (f64_of_N n).
Proof.
  unfold f64_of_N, binary_normalize. destruct n as [|p]; [done|]. simpl Z.of_N. cbv iota.
  unfold binary_round. destruct (shl_align _ _ _) as [m e]. by apply round_not_negative.
Qed.

(** A quotient is not negative, unless it is undefined. *)
Lemma div_not_negative x y :
  not_negative x → not_negative y → f64_div x y = S754_nan ∨ not_negative (f64_div x y).
Proof.
  unfold f64_div, SFdiv. destruct x as [sx|sx| |sx mx ex], y as [sy|sy| |sy my ey]; simpl; try done;
    try (intros -> ->; auto; fail).
  intros -> ->. right. unfold SFdiv_core_binary. set (m := match _ with Z0 => _ | _ => _ end).
  assert (0 ≤ m)%Z as Hm.
  { unfold m. destruct (_ - _ - _)%Z eqn:Hs; [lia| |lia]. by apply Z.shiftl_nonneg. }
  pose proof (Z_div_nonneg_nonneg m (Z.pos my) Hm ltac:(lia)) as Hq. unfold Z.div in Hq.
  destruct (Z.div_eucl m (Z.pos my)) as [q r]. by apply round_not_negative.
Qed.

Example parse_tenth : parse_f64 "0.1" = Ok (f64_div (f64_of_N 1) (f64_of_N 10)).
Proof. vm_compute. reflexivity. Qed.
Example parse_load : parse_f64 "1.25e1" = Ok (f64_div (f64_of_N 25) (f64_of_N 2)).
Proof. vm_compute. reflexivity. Qed.
Example parse_bad : parse_f64 "1.2.3" = Err "invalid float literal" ∧ parse_f64 "-inf" = Ok (S754_infinity true).
Proof. vm_compute. split; reflexivity. Qed.
