(* ===== verification/Otel.v ===== *)
(** The metrics exporter: [otel.rs].

    The documents sent are JSON values; printing them, the HTTP client and the files
    under [/proc] are parameters.  The exporter thread runs for a given number of
    rounds; its stop flag is never set by the program, but it is read. *)

From Stdlib Require Import Ascii.
From S2P Require Import Prelude Constants RustStr BTree Error Security Config Graph Protocol Logs Watch.
From S2P Require Import Reaper Runtime World Logic EnvFile Service Store Supervisor OtelEnv Version.
From S2P Require Import DaemonInfo Float64.
#[local] Open Scope stdpp_scope.
#[local] Set Warnings "-register-all".

(** ** Documents *)

(** [serde_json::Value]; the fields of an object are in the order written. *)
Inductive Value :=
  | VNull
  | VBool (b : bool)
  | VInt (n : Z)
  | VNumber (x : f64)
  | VString (s : string)
  | VArray (l : list Value)
  | VObject (fields : list (string * Value)).

(** A number in a document: JSON has no infinities. *)
Definition json_f64 (x : f64) : Value := if f64_finite x then VNumber x else VNull.

(** [attrs_json] *)
Definition attrs_json (attrs : list (string * string)) : Value :=
  VArray ((λ '(k, v), VObject [("key", VString k); ("value", VObject [("stringValue", VString v)])]) <$> attrs).

Definition gauge_point (value : f64) (attrs : list (string * string)) (ts : string) : Value :=
  VObject [("asDouble", json_f64 value); ("timeUnixNano", VString ts); ("attributes", attrs_json attrs)].

Definition gauge_metric (name : string) (data_points : list Value) : Value :=
  VObject [("name", VString name); ("gauge", VObject [("dataPoints", VArray data_points)])].

Definition gauge (name : string) (value : f64) (attrs : list (string * string)) (ts : string) : Value :=
  gauge_metric name [gauge_point value attrs ts].

Definition sum_metric (name : string) (data_points : list Value) : Value :=
  VObject [("name", VString name);
           ("sum", VObject [("aggregationTemporality", VInt 2); ("isMonotonic", VBool true);
                            ("dataPoints", VArray data_points)])].

Definition sum_point (value : f64) (attrs : list (string * string)) (ts : string) : Value :=
  VObject [("asDouble", json_f64 value); ("timeUnixNano", VString ts); ("attributes", attrs_json attrs)].

(** ** Where documents go *)

(** [metrics_url] *)
Definition metrics_url (endpoint protocol : string) : result string string :=
  if decide (to_ascii_lowercase protocol = "grpc") then
    Err "protocol grpc not supported in this build (use http)"
  else
    let base := trim_end_matches ["/"%char] endpoint in
    if ends_with "/v1/metrics" base then Ok base else Ok (base +:+ "/v1/metrics").

(** The answers of the HTTP client: [Ok] with a status, [Error::Status], or another
    error. *)
Inductive PostAnswer := PostOk (status : N) | PostStatus (code : N) | PostFailed (e : string).

(** ** The machine *)

(** [/proc/meminfo], in bytes. *)
Record MemInfo := mkMemInfo {
  mi_total : N;
  mi_avail : N;
  mi_free : N;
  mi_swap_total : N;
  mi_swap_free : N;
}.

Definition saturating_mul_u64 (a b : N) : N := N.min (a * b) u64_max.

(** The number of a line, in bytes. *)
Definition meminfo_value (word : option string) : N :=
  saturating_mul_u64 (default 0%N (word ≫= parse_uint u64_max)) 1024.

(** The body of the loop of [read_meminfo]. *)
Definition meminfo_line (m : MemInfo) (line : string) : MemInfo :=
  let parts := split_whitespace line in
  let val := meminfo_value (parts !! 1) in
  let '(mkMemInfo total avail free swap_total swap_free) := m in
  let key := default "" (parts !! 0) in
  if decide (key = "MemTotal:") then mkMemInfo val avail free swap_total swap_free
  else if decide (key = "MemAvailable:") then mkMemInfo total val free swap_total swap_free
  else if decide (key = "MemFree:") then mkMemInfo total avail val swap_total swap_free
  else if decide (key = "SwapTotal:") then mkMemInfo total avail free val swap_free
  else if decide (key = "SwapFree:") then mkMemInfo total avail free swap_total val
  else m.

(** What [read_meminfo] makes of the text: total and available memory, total and free
    swap. *)
Definition parse_meminfo (data : string) : N * N * N * N :=
  let m := foldl meminfo_line (mkMemInfo 0 0 0 0 0) (lines data) in
  let avail := if decide (mi_avail m = 0)%N then mi_free m else mi_avail m in
  (mi_total m, avail, mi_swap_total m, mi_swap_free m).

(** The first word of a file, as a number. *)
Definition parse_first (path data : string) : result f64 string :=
  match split_whitespace data with
  | [] => Err ("empty " +:+ path)
  | first :: _ => parse_f64 first
  end.

(** What [read_rss_bytes] makes of the text. *)
Fixpoint rss_of (ls : list string) : option N :=
  match ls with
  | [] => None
  | line :: ls =>
      match strip_prefix "VmRSS:" line with
      | Some rest =>
          kb ← head (split_whitespace rest) ≫= parse_uint u64_max;
          Some (saturating_mul_u64 kb 1024)
      | None => rss_of ls
      end
  end.

(** What [read_cpu_ticks] makes of the text: the user and system times after the last
    parenthesis. *)
Definition cpu_ticks_of (data : string) : option N :=
  '(_, rest) ← rsplit_once ")"%char data;
  let fields := split_whitespace rest in
  utime ← fields !! 11 ≫= parse_uint u64_max;
  stime ← fields !! 12 ≫= parse_uint u64_max;
  Some (N.min (utime + stime) u64_max).

Record HostStats := mkHostStats {
  hs_uptime : f64;
  hs_load1 : f64;
  hs_ncpu : N;
  hs_mem_free : N;
  hs_mem_used : N;
  hs_swap_used : N;
  hs_swap_free : N;
}.

Definition INITIAL_SLEEP : N := from_secs 10.
Definition RETRY_SLEEP : N := from_secs 30.

(** The interval between two looks at the stop flag. *)
Definition STOP_POLL : N := from_millis 200.

(** [ticks_per_second] *)
Definition ticks_per_second : f64 := f64_of_N 100.

(** The processor time and the instant of the last sample of each process. *)
Abbreviation Samples := (gmap Z (N * N)).

(** The share of a processor used between two samples. *)
Definition cpu_ratio (prev : option (N * N)) (ticks now : N) : f64 :=
  match prev with
  | Some (prev_ticks, prev_t) =>
      let dt := as_secs_f64 (now - prev_t) in
      if f64_le dt f64_zero then f64_zero
      else f64_div (f64_div (f64_of_N (ticks - prev_ticks)) ticks_per_second) dt
  | None => f64_zero
  end.

(** ** A document *)

Record Points := mkPoints {
  pt_restarts : list Value;
  pt_liveness : list Value;
  pt_uptime : list Value;
  pt_cpu : list Value;
  pt_mem : list Value;
}.

Definition no_points : Points := mkPoints [] [] [] [] [].

(** The points of one service, with its memory and processor share if known. *)
Definition add_points (ts : string) (svc : ServiceMetrics) (rss : option N) (ratio : option f64) (p : Points) :
    Points :=
  let attrs := [("service", sm_name svc)] in
  mkPoints
    (pt_restarts p ++ [sum_point (f64_of_N (sm_restarts svc)) attrs ts])
    (pt_liveness p ++ [sum_point (f64_of_N (sm_liveness_failures svc)) attrs ts])
    (pt_uptime p ++ [gauge_point (as_secs_f64 (sm_uptime svc)) attrs ts])
    (pt_cpu p ++ match ratio with Some r => [gauge_point r attrs ts] | None => [] end)
    (pt_mem p ++ match rss with Some b => [gauge_point (f64_of_N b) attrs ts] | None => [] end).

Definition host_metrics (ts : string) (host : HostStats) : list Value := [
  gauge "microinit_system_uptime_seconds" (hs_uptime host) [] ts;
  gauge "microinit_cpu_count" (f64_of_N (hs_ncpu host)) [] ts;
  gauge "microinit_cpu_load_ratio"
    (if decide (0 < hs_ncpu host)%N then f64_div (hs_load1 host) (f64_of_N (hs_ncpu host)) else f64_zero) [] ts;
  gauge "microinit_memory_free_bytes" (f64_of_N (hs_mem_free host)) [] ts;
  gauge "microinit_memory_used_bytes" (f64_of_N (hs_mem_used host)) [] ts;
  gauge "microinit_swap_used_bytes" (f64_of_N (hs_swap_used host)) [] ts;
  gauge "microinit_swap_free_bytes" (f64_of_N (hs_swap_free host)) [] ts
].

Definition service_metrics (p : Points) : list Value :=
  [sum_metric "microinit_service_restarts_total" (pt_restarts p);
   sum_metric "microinit_service_liveness_failures_total" (pt_liveness p);
   gauge_metric "microinit_service_uptime_seconds" (pt_uptime p)] ++
  (match pt_cpu p with [] => [] | points => [gauge_metric "microinit_service_cpu_ratio" points] end) ++
  (match pt_mem p with [] => [] | points => [gauge_metric "microinit_service_memory_bytes" points] end).

Definition document (service_name version : string) (metrics : list Value) : Value :=
  VObject [("resourceMetrics", VArray [VObject [
    ("resource", VObject [("attributes", VArray [
      VObject [("key", VString "service.name"); ("value", VObject [("stringValue", VString service_name)])]])]);
    ("scopeMetrics", VArray [VObject [
      ("scope", VObject [("name", VString "microinit"); ("version", VString version)]);
      ("metrics", VArray metrics)]])]])].

(** ** The thread *)

(** What the exporter asks the machine. *)
Class Exporter `{Host} := {
  (** [fs::read_to_string] of a file under [/proc] *)
  proc_file : list Event → string → result string string;
  parallelism : list Event → option N;
  (** why the wall clock gives no time since the epoch *)
  before_epoch : list Event → option string;
  print_document : Value → string;
  post_answer : list Event → string → list (string * string) → string → PostAnswer;
  stop_flag : list Event → bool;
  (** [CARGO_PKG_VERSION] *)
  package_version : string;
}.

Section exporter.
Context `{Host, HashOrder, Json, DataDir, !FileTimes, !Exporter}.

Definition read_proc (path : string) : M (result string string) := asks (λ h, proc_file h path) (EvRead path).

(** [system_time_nanos] *)
Definition system_time_nanos : M (result string string) :=
  asks (λ h, match before_epoch h with Some e => Err e | None => Ok (pretty (utc_clock h)) end) EvUtc.

(** [read_uptime], [read_loadavg1] *)
Definition read_first (path : string) : M (result f64 string) :=
  data ← read_proc path;
  mret (let? data := data in parse_first path data).

Definition read_meminfo : M (result (N * N * N * N) string) :=
  data ← read_proc "/proc/meminfo";
  mret (let? data := data in Ok (parse_meminfo data)).

Definition host_stats : M (result HostStats string) :=
  uptime ← read_first "/proc/uptime";
  match uptime with
  | Err e => mret (Err e)
  | Ok uptime =>
      load1 ← read_first "/proc/loadavg";
      match load1 with
      | Err e => mret (Err e)
      | Ok load1 =>
          ncpu ← asks parallelism EvPoll;
          mem ← read_meminfo;
          mret (let? '(mem_total, mem_avail, swap_total, swap_free) := mem in
                Ok (mkHostStats uptime load1 (default 1%N ncpu) mem_avail (mem_total - mem_avail)
                      (swap_total - swap_free) swap_free))
      end
  end.

Definition read_rss_bytes (pid : Z) : M (option N) :=
  data ← read_proc ("/proc/" +:+ pretty pid +:+ "/status");
  mret (result_ok data ≫= λ data, rss_of (lines data)).

Definition read_cpu_ticks (pid : Z) : M (option N) :=
  data ← read_proc ("/proc/" +:+ pretty pid +:+ "/stat");
  mret (result_ok data ≫= cpu_ticks_of).

Definition service_cpu_ratio (pid : Z) (samples : Samples) : M (option f64 * Samples) :=
  ticks ← read_cpu_ticks pid;
  match ticks with
  | None => mret (None, samples)
  | Some ticks =>
      now ← instant_now;
      mret (Some (cpu_ratio (samples !! pid) ticks now), <[pid := (ticks, now)]> samples)
  end.

(** The loop over the services. *)
Fixpoint collect_services (ts : string) (svcs : list ServiceMetrics) (p : Points) (samples : Samples) :
    M (Points * Samples) :=
  match svcs with
  | [] => mret (p, samples)
  | svc :: svcs =>
      match sm_pid svc with
      | None => collect_services ts svcs (add_points ts svc None None p) samples
      | Some pid =>
          rss ← read_rss_bytes pid;
          cpu ← service_cpu_ratio pid samples;
          let '(ratio, samples) := cpu in
          collect_services ts svcs (add_points ts svc rss ratio p) samples
      end
  end.

(** [export_http] *)
Definition export_http (cfg : OpenTelemetryConfig) (body : Value) : M (result unit string) :=
  match metrics_url (ot_endpoint cfg) (ot_protocol cfg) with
  | Err e => mret (Err e)
  | Ok url =>
      let headers := ("Content-Type", "application/json") :: hash_iter (ot_headers cfg) in
      let text := print_document body in
      answer ← asks (λ h, post_answer h url headers text) (EvPost url headers text);
      mret (match answer with
            | PostOk status =>
                if decide (200 ≤ status < 300)%N then Ok tt else Err ("HTTP " +:+ pretty status)
            | PostStatus code => Err ("HTTP " +:+ pretty code)
            | PostFailed e => Err e
            end)
  end.

(** [collect_and_export], with the samples it leaves. *)
Definition collect_and_export (cfg : OpenTelemetryConfig) (samples : Samples) :
    M (result unit string * Samples) :=
  ts ← system_time_nanos;
  match ts with
  | Err e => mret (Err e, samples)
  | Ok ts =>
      host ← host_stats;
      match host with
      | Err e => mret (Err e, samples)
      | Ok host =>
          svcs ← metrics_snapshot;
          collected ← collect_services ts svcs no_points samples;
          let '(points, samples) := collected in
          r ← export_http cfg
                (document (ot_service_name cfg) package_version (host_metrics ts host ++ service_metrics points));
          mret (r, samples)
      end
  end.

(** Waiting for a while, unless the stop flag is seen: whether it was. *)
Definition pause (d : N) : M bool :=
  now ← instant_now;
  deadline ← instant_add now d;
  r ← poll (rounds d STOP_POLL) deadline (λ _, mret STOP_POLL)
        (stop ← asks stop_flag EvPoll; mret (if stop : bool then Some tt else None));
  mret (bool_decide (is_Some r)).

(** One round of [run_loop]: whether to stop, and the samples. *)
Definition export_round (samples : Samples) : M (bool * Samples) :=
  cfg ← open_telemetry;
  if negb (ot_enable cfg) then sleep RETRY_SLEEP;; mret (false, samples)
  else
    let interval := from_secs (N.max (ot_export_interval_secs cfg) 1) in
    done ← collect_and_export cfg samples;
    let '(r, samples) := done in
    stop ← match r with
           | Ok _ => pause interval
           | Err e =>
               emit INIT_SERVICE LogLevel.Warn ("otel: export failed: " +:+ e +:+ "; retry in 30s");;
               pause RETRY_SLEEP
           end;
    mret (stop, samples).

(** The loop of [run_loop], for at most [n] rounds. *)
Fixpoint export_loop (n : nat) (samples : Samples) : M unit :=
  stop ← asks stop_flag EvPoll;
  if stop : bool then mret tt
  else match n with
  | O => no_return
  | S n =>
      round ← export_round samples;
      let '(stop, samples) := round in
      if stop : bool then mret tt else export_loop n samples
  end.

(** [run_loop] *)
Definition run_loop (n : nat) : M unit := sleep INITIAL_SLEEP;; export_loop n ∅.
End exporter.
