(* ===== verification/Steps.v ===== *)
(** The atomic steps of the daemon: what any of its threads may do to the shared state
    in one section, as a relation, and that each of them does nothing else. *)

From Stdlib Require Import Ascii.
From S2P Require Import Prelude Constants Error Security Config Graph Protocol Logs Watch Reaper.
From S2P Require Import Runtime FileWatch World Console Logic Trace EnvFile Service Store Supervisor EarlyBoot LogIO.
From S2P Require Import Version OtelEnv DaemonInfo Monitor Describe Isolation Events Requests.
From S2P Require Import Init Otel.
#[local] Open Scope stdpp_scope.

(** ** The steps *)

(** What a section does to the log hub: each buffer and the followers of a published
    line have their own. *)
Inductive hub_action : LogHub → LogHub → Prop :=
  | ha_push_service line h : hub_action h (push_service line h)
  | ha_push_mixed line h : hub_action h (push_mixed line h)
  | ha_send_line line h : hub_action h (send_line line h)
  | ha_receive id h : hub_action h (hub_recv id h).2
  | ha_step h h' : hub_step h h' → hub_action h h'.

(** What a section does to the flags of the signals. *)
Inductive signal_action : SignalState → SignalState → Prop :=
  | sa_handle sig handler g : (sig, handler) ∈ handlers → signal_action g (handler g)
  | sa_request mode g : signal_action g (request_shutdown mode g)
  | sa_take g : signal_action g (take_shutdown g).2
  | sa_sigchld g : signal_action g (sigchld_pending g).2.

(** What a section does to the senders and the channels of the monitors. *)
Inductive channel_action : (gmap string nat * gmap nat Chan * nat) → (gmap string nat * gmap nat Chan * nat) → Prop :=
  | ca_send name c msg ctl chans next :
      ctl !! name = Some c → channel_action (ctl, chans, next) (ctl, (chan_send c msg chans).2, next)
  | ca_receive c ch msg q ctl chans next :
      chans !! c = Some ch → ch_queue ch = msg :: q →
      channel_action (ctl, chans, next) (ctl, <[c := mkChan q (ch_sender ch) (ch_receiver ch)]> chans, next)
  | ca_hang_up c ctl chans next : channel_action (ctl, chans, next) (ctl, drop_receiver c chans, next)
  | ca_register name ctl chans next :
      channel_action (ctl, chans, next)
        (<[name := next]> ctl,
         <[next := mkChan [] true true]> (match ctl !! name with Some old => drop_sender old chans | None => chans end),
         S next)
  | ca_quit name c ctl chans next :
      ctl !! name = Some c →
      channel_action (ctl, chans, next)
        (delete name ctl, drop_sender c (chan_send c CtlQuit chans).2, next).

(** What a section does to the runtimes. *)
Inductive runtime_action : gmap string Runtime → gmap string Runtime → Prop :=
  | ra_monitor name f m : monitor_update f → runtime_action m (alter f name m)
  | ra_enable name enabled rt m :
      m !! name = Some rt → runtime_action m (<[name := set_enabled_rt enabled rt]> m)
  | ra_add name enabled m : runtime_action m (<[name := new_runtime enabled]> m)
  | ra_remove name m : runtime_action m (delete name m).

Definition channels (s : Shared) : gmap string nat * gmap nat Chan * nat := (sh_ctl s, sh_chans s, sh_next_chan s).

(** One atomic section of the daemon. *)
Inductive shared_step `{FirstKey} : Shared → Shared → Prop :=
  | ds_read s : shared_step s s
  | ds_hub h s : hub_action (sh_hub s) h → shared_step s (set_hub h s)
  | ds_watch h s : watch_step (sh_watch s) h → shared_step s (set_watch h s)
  | ds_signals g s : signal_action (sh_signals s) g → shared_step s (set_signals g s)
  | ds_channels ctl chans next s :
      channel_action (channels s) (ctl, chans, next) → shared_step s (set_channels ctl chans next s)
  | ds_runtimes m s : runtime_action (sh_runtimes s) m → shared_step s (set_runtimes m s)
  | ds_take pid s : shared_step s (set_exits (delete pid (sh_exits s)) s)
  | ds_exit pid code s : shared_step s (set_exits (exits_publish pid code (sh_exits s)) s)
  | ds_stop_all s : shared_step s (set_stop_all true s)
  | ds_config c s : shared_step s (set_config c s)
  | ds_reaper s : shared_step s (set_reaper_started true s)
  | ds_env m s : shared_step s (set_env m s)
  | ds_files m s : file_action (sh_files s) m → shared_step s (set_files m s)
  | ds_process_env m s : shared_step s (set_process_env m s)
  | ds_otel_cache c s : shared_step s (set_otel_cache c s)
  | ds_version v s : shared_step s (set_version v s)
  | ds_bridge s : shared_step s (set_bridge true s)
  | ds_new_hub capacity service_tty init_tty log_dir s :
      shared_step s (set_hub (hub_new capacity service_tty init_tty log_dir) s)
  | ds_install cfg s : shared_step s (install_supervisor cfg s).

#[export] Instance shared_step_refl `{FirstKey} : Reflexive shared_step := ds_read.

Create HintDb steps discriminated.
#[export] Hint Constructors hub_action hub_step watch_step signal_action channel_action runtime_action monitor_update
  file_action shared_step : steps.

(** Every section is a step. *)
#[global] Abbreviation stepping m := (guarantees shared_step m).

Ltac section_solve :=
  intros; first [solve [eauto with steps] | repeat case_match; simplify_eq/=; eauto with steps].
Ltac steps_solve := keeps_solve; try (solve [section_solve]).

(** ** The supervisor *)

Section operations.
Context `{Host, Nss, HashOrder, FirstKey, Json, DataDir}.
Variable self : Supervisor.

Lemma shared_step_closed name : monitor_closed name shared_step.
Proof. split; [split|]; try apply _; eauto 6 with steps. Qed.

Lemma steps_emit_init level msg : stepping (emit_init level msg).
Proof. apply keeps_emit_init, (shared_step_closed ""). Qed.
#[local] Hint Resolve steps_emit_init : keeps.

Lemma steps_notify : stepping notify_watchers.
Proof. apply keeps_notify_watchers, (shared_step_closed ""). Qed.
#[local] Hint Resolve steps_notify : keeps.

Lemma steps_send_ctl name msg : stepping (send_ctl name msg).
Proof.
  unfold send_ctl. apply keeps_bind; [apply keeps_atomic|keeps_solve].
  intros s. destruct (sh_ctl s !! name) as [c|] eqn:Hc; [|apply ds_read].
  pose proof (ca_send name c msg (sh_ctl s) (sh_chans s) (sh_next_chan s) Hc) as Hs.
  destruct (chan_send _ _ _) as [ok chans]. by apply ds_channels.
Qed.
#[local] Hint Resolve steps_send_ctl : keeps.

Lemma steps_set_enabled_rt name enabled : stepping (apply_enabled name enabled).
Proof.
  unfold apply_enabled, shared_set_enabled. steps_solve.
  unfold set_state. apply (keeps_update_runtime name _ (shared_step_closed name)).
  intros. constructor. by intros [].
Qed.
#[local] Hint Resolve steps_set_enabled_rt : keeps.

(** Updates of what the invariant does not mention. *)
Lemma steps_fs_exists path : stepping (fs_exists path).
Proof. unfold fs_exists. keeps_solve. Qed.
Lemma steps_fs_read path : stepping (fs_read path).
Proof. unfold fs_read. keeps_solve. Qed.
Lemma steps_fs_mkdirs path : stepping (fs_mkdirs path).
Proof. unfold fs_mkdirs. keeps_solve. Qed.
Lemma steps_fs_write path data : stepping (fs_write path data).
Proof. unfold fs_write. steps_solve. Qed.
Lemma steps_fs_rename from to : stepping (fs_rename from to).
Proof. unfold fs_rename. steps_solve. Qed.
#[local] Hint Resolve steps_fs_exists steps_fs_read steps_fs_mkdirs steps_fs_write steps_fs_rename : keeps.

Lemma steps_save_override path m : stepping (save_override path m).
Proof. unfold save_override, write_json_atomic. keeps_solve. Qed.
Lemma steps_load_override path : stepping (load_override path).
Proof. unfold load_override. keeps_solve. Qed.
#[local] Hint Resolve steps_save_override steps_load_override : keeps.

Lemma steps_set_enabled name enabled : stepping (set_enabled self name enabled).
Proof. unfold set_enabled. steps_solve. Qed.

Lemma steps_spawn_monitor name : stepping (spawn_monitor name).
Proof.
  unfold spawn_monitor. steps_solve.
Qed.
#[local] Hint Resolve steps_spawn_monitor : keeps.

Lemma steps_console_status name ok : stepping (console_status (sv_console self) name ok).
Proof.
  unfold console_status, console_mirror, publish_line. steps_solve.
Qed.
Lemma steps_console_starting name : stepping (console_starting (sv_console self) name).
Proof.
  unfold console_starting, console_mirror, publish_line. steps_solve.
Qed.
#[local] Hint Resolve steps_console_status steps_console_starting : keeps.

Lemma steps_wait_settled name timeout : stepping (wait_settled name timeout).
Proof.
  unfold wait_settled. apply keeps_bind; [keeps_solve|intros now]. apply keeps_bind; [keeps_solve|intros deadline].
  apply keeps_bind; [keeps_solve|intros n]. induction n as [|n IH]; simpl; keeps_solve.
Qed.
#[local] Hint Resolve steps_wait_settled : keeps.

Lemma steps_send_or_log verb name msg : stepping (send_or_log verb name msg).
Proof. unfold send_or_log. keeps_solve. Qed.
#[local] Hint Resolve steps_send_or_log : keeps.

Lemma steps_boot : stepping (boot self).
Proof.
  unfold boot, ensure_reaper_thread, boot_foreground, boot_background, console_ok, console_fail.
  steps_solve.
Qed.

Lemma steps_stop_all_ordered : stepping stop_all_ordered.
Proof. unfold stop_all_ordered. steps_solve. Qed.

Lemma steps_reload_remove name : stepping (reload_remove name).
Proof.
  unfold reload_remove. steps_solve.
  intros s. destruct (sh_ctl s !! name) as [c|] eqn:Hc; [|apply ds_read].
  pose proof (ca_quit name c (sh_ctl s) (sh_chans s) (sh_next_chan s) Hc) as Hs.
  destruct (chan_send _ _ _) as [ok chans]. by apply ds_channels.
Qed.
#[local] Hint Resolve steps_reload_remove : keeps.

Lemma steps_reload_service old svc : stepping (reload_service old svc).
Proof.
  unfold reload_service. steps_solve.
Qed.
#[local] Hint Resolve steps_reload_service : keeps.

Lemma steps_reload cfg : stepping (reload cfg).
Proof. unfold reload, warn_if. steps_solve. Qed.

Lemma steps_requests name force :
  stepping (start_service name force) ∧ stepping (stop_service name) ∧ stepping (restart_service name).
Proof. unfold start_service, stop_service, restart_service, load_enabled, service_cfg. split_and!; keeps_solve. Qed.

Lemma steps_watch_subscribe keys : stepping (watch_subscribe keys).
Proof.
  unfold watch_subscribe. keeps_solve. intros s. pose proof (wstep_subscribe (sh_watch s) keys) as Hs.
  destruct (watch_try_subscribe _ _). by apply ds_watch.
Qed.
End operations.

(** ** What the threads do outside the supervisor *)

Section parts.
Context `{Host, Nss, HashOrder, FirstKey, Json, DataDir, !FileTimes, VersionEnv, Process, !Wire, !Machine}.
Variable self : Supervisor.

#[local] Hint Resolve steps_emit_init steps_notify steps_send_ctl steps_fs_exists steps_fs_read steps_fs_mkdirs
  steps_fs_write steps_fs_rename steps_save_override steps_load_override steps_set_enabled steps_boot
  steps_stop_all_ordered steps_reload : keeps.

Lemma steps_emit service level msg : stepping (emit service level msg).
Proof. apply keeps_emit, (shared_step_closed ""). Qed.
#[local] Hint Resolve steps_emit : keeps.

Lemma steps_load_or_create config example override dropins :
  stepping (load_or_create_with_dropins config example override dropins).
Proof. apply files_load_or_create; [apply _|eauto with steps..]. Qed.
#[local] Hint Resolve steps_load_or_create : keeps.

Lemma steps_read_section path : stepping (read_section_from path).
Proof. unfold read_section_from. steps_solve. Qed.
#[local] Hint Resolve steps_read_section : keeps.

Lemma steps_version_info : stepping version_info.
Proof.
  unfold version_info, version_load. keeps_solve; [|section_solve].
  generalize binary_paths_for_version. intros paths. match goal with |- guarantees _ (load_from _ ?out) => generalize out end.
  induction paths as [|p paths IH]; intros out; simpl; steps_solve.
Qed.
#[local] Hint Resolve steps_version_info : keeps.

Lemma steps_overlay base : stepping (overlay base).
Proof. unfold overlay, read_file_map. steps_solve. Qed.
#[local] Hint Resolve steps_overlay : keeps.

Lemma steps_open_telemetry : stepping open_telemetry.
Proof. unfold open_telemetry. steps_solve. Qed.
#[local] Hint Resolve steps_open_telemetry : keeps.

Lemma steps_load_otel path : stepping (load_otel path).
Proof. unfold load_otel. steps_solve. Qed.
#[local] Hint Resolve steps_load_otel : keeps.

Lemma steps_hostname : stepping hostname.
Proof. unfold hostname. steps_solve. Qed.
#[local] Hint Resolve steps_hostname : keeps.

Lemma steps_info : stepping (info self).
Proof. unfold info. steps_solve. Qed.
#[local] Hint Resolve steps_info : keeps.

Lemma steps_extract_service_json path name : stepping (extract_service_json path name).
Proof. unfold extract_service_json. steps_solve. Qed.
#[local] Hint Resolve steps_extract_service_json : keeps.

Lemma steps_find_in_dropins root name rels found : stepping (find_in_dropins root name rels found).
Proof. revert found. induction rels as [|rel rels IH]; intros found; simpl; steps_solve. Qed.
#[local] Hint Resolve steps_find_in_dropins : keeps.

Lemma steps_walk fuel root rel out : stepping (walk fuel root rel out).
Proof. apply files_walk; apply _. Qed.
#[local] Hint Resolve steps_walk : keeps.

Lemma steps_find_service_source dropins config name : stepping (find_service_source dropins config name).
Proof. unfold find_service_source, collect_dropin_rel_paths. steps_solve. Qed.
#[local] Hint Resolve steps_find_service_source : keeps.

Lemma steps_describe name output : stepping (describe self name output).
Proof. unfold describe, read_running_identity. steps_solve. Qed.
#[local] Hint Resolve steps_describe : keeps.

(** ** Requests *)

Lemma steps_write_frame msg : stepping (write_frame msg).
Proof. unfold write_frame, write_frame_to. steps_solve. Qed.
#[local] Hint Resolve steps_write_frame : keeps.

Lemma steps_follow_logs n id name : stepping (follow_logs n id name).
Proof.
  induction n as [|n IH]; simpl; [apply keeps_no_return|]. apply keeps_bind; [by apply keeps_effect|intros _].
  apply keeps_bind; [|intros received; steps_solve].
  apply keeps_atomic. intros s. pose proof (ha_receive id (sh_hub s)) as Hs.
  destruct (hub_recv id (sh_hub s)) as [r h]. by apply ds_hub.
Qed.
#[local] Hint Resolve steps_follow_logs : keeps.

Lemma steps_wait_timeout id seen timeout : stepping (wait_timeout id seen timeout).
Proof.
  unfold wait_timeout. do 3 (apply keeps_bind; [steps_solve|intros ?]).
  match goal with |- guarantees _ (wait_timeout_loop ?n _ _ _) => induction n as [|n IH]; simpl; steps_solve end.
Qed.
#[local] Hint Resolve steps_wait_timeout : keeps.

Lemma steps_watch_stream n id seen : stepping (watch_stream n id seen).
Proof. revert seen. induction n as [|n IH]; intros seen; simpl; steps_solve. Qed.
#[local] Hint Resolve steps_watch_stream steps_watch_subscribe : keeps.

(** A thread that serves a client. *)
Lemma steps_handle_ipc n lines_default req : stepping (handle_ipc self n lines_default req).
Proof.
  assert (∀ name force,
      stepping (start_service name force) ∧ stepping (stop_service name) ∧ stepping (restart_service name))
    as Hreq by apply steps_requests.
  assert (∀ name force, stepping (start_service name force)) by apply Hreq.
  assert (∀ name, stepping (stop_service name)) by (intros name; apply (Hreq name false)).
  assert (∀ name, stepping (restart_service name)) by (intros name; apply (Hreq name false)).
  destruct req; simpl; unfold list_, status, respond_start, respond_result; steps_solve.
Qed.

(** ** The main thread *)

Lemma steps_boot_note tty msg : stepping (boot_note tty msg).
Proof. unfold boot_note, open_tty, fs_open. steps_solve. Qed.
#[local] Hint Resolve steps_boot_note : keeps.

Lemma steps_write_captured path out : stepping (write_captured path out).
Proof. unfold write_captured. steps_solve. Qed.
#[local] Hint Resolve steps_write_captured : keeps.

Lemma steps_persist preview opts out : stepping (persist_early_boot_logs preview opts out).
Proof. unfold persist_early_boot_logs, fatal_early_boot_logs_path, peek_early_boot_capture. steps_solve. Qed.
#[local] Hint Resolve steps_persist : keeps.

Lemma steps_early_boot_phase preview opts : stepping (early_boot_phase preview opts).
Proof.
  unfold early_boot_phase, run_early_boot, resolve_early_boot, resolve_among, run_script. steps_solve.
Qed.
#[local] Hint Resolve steps_early_boot_phase : keeps.

Lemma steps_load_config opts : stepping (load_config_after_early_boot opts).
Proof. unfold load_config_after_early_boot. steps_solve. Qed.
#[local] Hint Resolve steps_load_config : keeps.

Lemma steps_publish_exits : stepping publish_exits.
Proof. unfold publish_exits. steps_solve. Qed.
#[local] Hint Resolve steps_publish_exits : keeps.

Lemma steps_publish_zombies : stepping publish_zombies.
Proof. unfold publish_zombies. steps_solve. Qed.
#[local] Hint Resolve steps_publish_zombies : keeps.

Lemma steps_reaper_loop n : stepping (reaper_loop n).
Proof. induction n as [|n IH]; simpl; steps_solve. Qed.
#[local] Hint Resolve steps_reaper_loop : keeps.

Lemma steps_drain_reloads n opts watching : stepping (drain_reloads n opts watching).
Proof. induction n as [|n IH]; simpl; unfold reload_once; steps_solve. Qed.
#[local] Hint Resolve steps_drain_reloads : keeps.

Lemma steps_shut_down opts st mode : stepping (shut_down opts st mode).
Proof. unfold shut_down, finalize, run_unmount, resolve_unmount, resolve_among, run_script. steps_solve. Qed.
#[local] Hint Resolve steps_shut_down : keeps.

Lemma steps_main_loop n opts st : stepping (main_loop n opts st).
Proof.
  induction n as [|n IH]; simpl; unfold main_round; steps_solve. intros s.
  pose proof (sa_take (sh_signals s)) as Hs. destruct (take_shutdown _). by apply ds_signals.
Qed.
#[local] Hint Resolve steps_main_loop : keeps.

Lemma yields_log_hub_new capacity service_tty init_tty log_dir :
  yields (λ h, ∃ c s i d, h = hub_new c s i d) (log_hub_new capacity service_tty init_tty log_dir).
Proof.
  unfold log_hub_new. do 3 (apply (yields_bind (λ _, True)); [done|intros ? _]). apply yields_ret. by do 4 eexists.
Qed.

Lemma steps_start_daemon opts self' socket_path allow : stepping (start_daemon opts self' socket_path allow).
Proof.
  unfold start_daemon, serve, spawn_watcher, maybe_spawn, getty_phase. pose proof (steps_boot self'). steps_solve.
Qed.
#[local] Hint Resolve steps_start_daemon : keeps.

Lemma steps_start_configured opts preview cfg captured : stepping (start_configured opts preview cfg captured).
Proof.
  unfold start_configured. apply keeps_bind; [steps_solve|intros env]. apply keeps_bind; [steps_solve|intros _].
  eapply keeps_bind_yields; [|apply yields_log_hub_new|intros hub (? & ? & ? & ? & ->)].
  { unfold log_hub_new, and_then_open, open_tty, fs_open. steps_solve. }
  apply keeps_bind; [steps_solve|intros _].
  unfold bridge_set_hub, open_with_hub, fs_open, announce_logs, flush_early_boot_logs. steps_solve.
Qed.
#[local] Hint Resolve steps_start_configured : keeps.

(** The main thread. *)
Lemma steps_run n opts : stepping (run n opts).
Proof. unfold run. steps_solve. Qed.

(** ** The other threads *)

(** Copying the output of a service. *)
Lemma steps_capture service level reads : stepping (capture_stream service level reads).
Proof.
  intros w. unfold capture_stream.
  assert (stepping (for_each_m (messages "" (reads_end reads) (text_of reads)) (emit service level))) as Hk by steps_solve.
  destruct (Hk w) as (new & Hr & Hn). exists new. by rewrite capture_lines_spec.
Qed.

(** The metrics thread. *)
Section exporter.
Context `{!Exporter}.

Lemma steps_collect_services ts svcs p samples : stepping (collect_services ts svcs p samples).
Proof.
  revert p samples. induction svcs as [|svc svcs IH]; intros p samples; simpl;
    unfold read_rss_bytes, service_cpu_ratio, read_cpu_ticks, read_proc; steps_solve.
Qed.
#[local] Hint Resolve steps_collect_services : keeps.

Lemma steps_collect_and_export cfg samples : stepping (collect_and_export cfg samples).
Proof.
  unfold collect_and_export, system_time_nanos, host_stats, read_first, read_meminfo, read_proc,
    metrics_snapshot, export_http. steps_solve.
Qed.
#[local] Hint Resolve steps_collect_and_export : keeps.

Lemma steps_pause d : stepping (pause d).
Proof. unfold pause. steps_solve. apply keeps_poll; intros; steps_solve. Qed.
#[local] Hint Resolve steps_pause : keeps.

Lemma steps_run_loop n : stepping (run_loop n).
Proof.
  unfold run_loop. apply keeps_bind; [steps_solve|intros _]. generalize (∅ : Samples).
  induction n as [|n IH]; intros samples; simpl; unfold export_round; steps_solve.
Qed.
End exporter.

Lemma steps_getty n console : stepping (getty_respawn n console).
Proof. induction n as [|n IH]; simpl; steps_solve. Qed.

Lemma steps_bridge_log level target msg : stepping (bridge_log level target msg).
Proof. unfold bridge_log. steps_solve. Qed.

End parts.

#[export] Hint Resolve steps_emit_init steps_notify steps_send_ctl steps_set_enabled_rt steps_fs_exists
  steps_fs_read steps_fs_mkdirs steps_fs_write steps_fs_rename steps_save_override steps_load_override
  steps_spawn_monitor steps_console_status steps_console_starting steps_wait_settled steps_send_or_log
  steps_reload_remove steps_reload_service steps_set_enabled steps_boot steps_stop_all_ordered steps_reload
  steps_emit steps_load_or_create steps_read_section steps_version_info steps_overlay steps_open_telemetry
  steps_load_otel steps_hostname steps_info steps_extract_service_json steps_find_in_dropins steps_walk
  steps_find_service_source steps_describe steps_write_frame steps_follow_logs steps_wait_timeout
  steps_watch_stream steps_watch_subscribe steps_boot_note steps_write_captured steps_persist
  steps_early_boot_phase steps_load_config steps_publish_zombies steps_reaper_loop steps_drain_reloads steps_shut_down
  steps_main_loop steps_start_daemon steps_start_configured steps_collect_services steps_collect_and_export
  steps_pause : keeps.
