(* ===== verification/Invariant.v ===== *)
(** The invariant of the state the threads share, kept by every atomic step. *)

From S2P Require Import Prelude Constants Error Config Protocol Logs Watch Reaper.
From S2P Require Import Runtime World Supervisor Isolation Requests Init Steps.
#[local] Open Scope stdpp_scope.

(** A registered sender is that of a live channel of its own, and a channel has a
    sender exactly while it is registered. *)
Definition channels_wf (ctl : gmap string nat) (chans : gmap nat Chan) (next : nat) : Prop :=
  (∀ n c, ctl !! n = Some c → ∃ ch, chans !! c = Some ch ∧ ch_sender ch = true) ∧
  (∀ c ch, chans !! c = Some ch → ch_sender ch = true → ∃ n, ctl !! n = Some c) ∧
  (∀ c, is_Some (chans !! c) → c < next) ∧
  (∀ n1 n2 c, ctl !! n1 = Some c → ctl !! n2 = Some c → n1 = n2).

Definition shared_inv (s : Shared) : Prop :=
  wf_runtimes (sh_runtimes s) ∧ size (sh_exits s) ≤ MAX_EXIT_REGISTRY_ENTRIES ∧
  watch_wf (sh_watch s) ∧ hub_wf (sh_hub s) ∧
  channels_wf (sh_ctl s) (sh_chans s) (sh_next_chan s).

(** ** Updates *)

Lemma hub_wf_push_service line h : hub_wf h → hub_wf (push_service line h).
Proof. done. Qed.
Lemma hub_wf_push_mixed line h : hub_wf h → hub_wf (push_mixed line h).
Proof. done. Qed.
Lemma hub_wf_send_line line h : hub_wf h → hub_wf (send_line line h).
Proof.
  intros Hh. assert (hub_wf (publish_inner line true h).1) as Hp
    by (by apply (hub_step_wf h); [constructor|]).
  revert Hp. unfold publish_inner, send_line; simpl. by destruct (send_all _ _ _).
Qed.

Lemma wf_runtimes_alter f n m :
  (∀ rt, wf_runtime rt → wf_runtime (f rt)) → wf_runtimes m → wf_runtimes (alter f n m).
Proof.
  intros Hf Hm k rt. destruct (decide (k = n)) as [->|Hk].
  - rewrite lookup_alter_eq. destruct (m !! n) as [rt0|] eqn:Hn; simpl; [|done].
    intros [= <-]. apply Hf. by apply (Hm n).
  - rewrite lookup_alter_ne by done. apply Hm.
Qed.

Lemma wf_runtimes_insert rt n m : wf_runtime rt → wf_runtimes m → wf_runtimes (<[n := rt]> m).
Proof. intros Hrt Hm. by apply map_Forall_insert_2. Qed.

Lemma wf_runtimes_delete n m : wf_runtimes m → wf_runtimes (delete n m).
Proof. intros Hm. by apply map_Forall_delete. Qed.

Lemma monitor_update_wf f rt : monitor_update f → wf_runtime rt → wf_runtime (f rt).
Proof. intros []; [by apply set_state_rt_wf|auto with microinit..]. Qed.

(** An update of channels that keeps their senders. *)
Lemma channels_wf_map ctl chans chans' next :
  (∀ c, ch_sender <$> chans' !! c = ch_sender <$> chans !! c) →
  channels_wf ctl chans next → channels_wf ctl chans' next.
Proof.
  intros Heq (Hs & Hr & Hn & Hi). split_and!; [| | |done].
  - intros n c (ch & Hch & Ht)%Hs. specialize (Heq c). rewrite Hch in Heq.
    destruct (chans' !! c) as [ch'|]; [|done]. exists ch'. split; [done|]. simpl in Heq. congruence.
  - intros c ch' Hch' Ht. specialize (Heq c). rewrite Hch' in Heq.
    destruct (chans !! c) as [ch|] eqn:Hch; [|done]. eapply Hr; [done|]. simpl in Heq. congruence.
  - intros c [ch' Hch']. specialize (Heq c). rewrite Hch' in Heq. apply Hn.
    destruct (chans !! c); [eauto|done].
Qed.

Lemma alter_sender f c (chans : gmap nat Chan) c' :
  (∀ ch, ch_sender (f ch) = ch_sender ch) →
  ch_sender <$> alter f c chans !! c' = ch_sender <$> chans !! c'.
Proof.
  intros Hf. destruct (decide (c' = c)) as [->|Hc].
  - rewrite lookup_alter_eq. destruct (chans !! c); simpl; [by rewrite Hf|done].
  - by rewrite lookup_alter_ne.
Qed.

Lemma insert_sender ch c (chans : gmap nat Chan) c' :
  Some (ch_sender ch) = ch_sender <$> chans !! c →
  ch_sender <$> (<[c := ch]> chans) !! c' = ch_sender <$> chans !! c'.
Proof. intros Hc. rewrite lookup_insert. by case_decide; subst. Qed.

Lemma chan_send_sender c msg chans c' :
  ch_sender <$> (chan_send c msg chans).2 !! c' = ch_sender <$> chans !! c'.
Proof.
  unfold chan_send. destruct (chans !! c) as [ch|] eqn:Hc; [|done].
  destruct (ch_receiver ch); [|done]. apply insert_sender. by rewrite Hc.
Qed.

(** Registering a new channel drops the old sender of the service. *)
Lemma channels_wf_register name ctl chans next :
  channels_wf ctl chans next →
  channels_wf (<[name := next]> ctl)
    (<[next := mkChan [] true true]>
       (match ctl !! name with Some old => drop_sender old chans | None => chans end)) (S next).
Proof.
  intros (Hs & Hr & Hn & Hi).
  set (chans' := match ctl !! name with Some old => drop_sender old chans | None => chans end).
  assert (∀ c, c = next → chans !! c = None) as Hnew.
  { intros c ->. destruct (chans !! next) eqn:Hc; [|done]. exfalso. apply (Nat.lt_irrefl next), Hn. eauto. }
  assert (∀ c, chans' !! c = (if decide (ctl !! name = Some c)
      then (λ ch, mkChan (ch_queue ch) false (ch_receiver ch)) <$> chans !! c else chans !! c)) as Hc'.
  { intros c. unfold chans', drop_sender. destruct (ctl !! name) as [old|]; [|done].
    destruct (decide (c = old)) as [->|Hc].
    - by rewrite lookup_alter_eq, decide_True.
    - rewrite lookup_alter_ne, decide_False by congruence. done. }
  split_and!.
  - intros n c. rewrite lookup_insert. case_decide as Hname.
    + intros [= <-]. rewrite lookup_insert, decide_True by done. eauto.
    + intros Hctl. destruct (Hs n c Hctl) as (ch & Hch & Ht). rewrite lookup_insert, Hc'.
      rewrite decide_False by (intros <-; rewrite Hnew in Hch; done).
      rewrite decide_False by (intros Hname'; apply Hname; by eapply Hi). eauto.
  - intros c ch. rewrite lookup_insert, Hc'. case_decide as Hc.
    + intros _ _. exists name. by rewrite lookup_insert, decide_True, Hc.
    + case_decide as Hold.
      * by intros (? & _ & ->)%fmap_Some.
      * intros Hch Ht. destruct (Hr c ch Hch Ht) as [n Hctl]. exists n. rewrite lookup_insert.
        rewrite decide_False; [done|]. intros <-. congruence.
  - intros c [ch Hch]. rewrite lookup_insert, Hc' in Hch. case_decide; [lia|].
    assert (is_Some (chans !! c)) as Hch' by (case_decide; [|eauto]; apply fmap_Some in Hch as (? & ? & _); eauto).
    apply Hn in Hch'. lia.
  - intros n1 n2 c. rewrite !lookup_insert.
    assert (∀ n, ctl !! n ≠ Some next) as Hfresh.
    { intros n (ch & Hch & _)%Hs. by rewrite Hnew in Hch. }
    destruct (decide (name = n1)) as [<-|], (decide (name = n2)) as [<-|]; [done| | |apply Hi].
    + intros [= <-] Hc. by destruct (Hfresh n2).
    + intros Hc [= <-]. by destruct (Hfresh n1).
Qed.

(** Removing a service from the channel map drops its sender. *)
Lemma channels_wf_unregister name c ctl chans next :
  ctl !! name = Some c →
  channels_wf ctl chans next → channels_wf (delete name ctl) (drop_sender c chans) next.
Proof.
  intros Hname (Hs & Hr & Hn & Hi). unfold drop_sender. split_and!.
  - intros n c'. rewrite lookup_delete. case_decide; [done|]. intros Hc'.
    destruct (Hs n c' Hc') as (ch & Hch & Ht). rewrite lookup_alter_ne; [eauto|].
    intros ->. by destruct (Hi n name c').
  - intros c' ch. destruct (decide (c' = c)) as [->|Hc].
    + rewrite lookup_alter_eq. by intros (? & _ & ->)%fmap_Some.
    + rewrite lookup_alter_ne by done. intros Hch Ht. destruct (Hr c' ch Hch Ht) as [n Hctl].
      exists n. rewrite lookup_delete, decide_False; [done|]. intros <-. congruence.
  - intros c' Hc'. apply Hn. destruct (decide (c' = c)) as [->|Hc].
    + rewrite lookup_alter_eq, fmap_is_Some in Hc'. done.
    + by rewrite lookup_alter_ne in Hc'.
  - intros n1 n2 c'. rewrite !lookup_delete. repeat case_decide; try done. apply Hi.
Qed.

Lemma watch_wf_publish services h : watch_wf h → watch_wf (watch_publish services h).
Proof. apply watch_step_wf. constructor. Qed.

(** ** Steps *)

Lemma hub_action_wf h h' : hub_action h h' → hub_wf h → hub_wf h'.
Proof.
  destruct 1; [done|done|apply hub_wf_send_line| |by apply hub_step_wf].
  unfold hub_recv. by repeat case_match.
Qed.

Lemma hub_new_wf capacity service_tty init_tty log_dir : hub_wf (hub_new capacity service_tty init_tty log_dir).
Proof. split_and!; simpl; [lia|constructor|by intros id ?%elem_of_nil]. Qed.

Lemma runtime_action_wf m m' : runtime_action m m' → wf_runtimes m → wf_runtimes m'.
Proof.
  destruct 1 as [name f m Hf|name enabled rt m Hrt|name enabled m|name m]; intros Hm.
  - apply wf_runtimes_alter; [|done]. intros rt. by apply monitor_update_wf.
  - apply wf_runtimes_insert; [|done]. apply set_enabled_rt_wf. by apply (Hm name).
  - apply wf_runtimes_insert; auto with microinit.
  - by apply wf_runtimes_delete.
Qed.

Definition channels_ok (x : gmap string nat * gmap nat Chan * nat) : Prop := channels_wf x.1.1 x.1.2 x.2.

Lemma channel_action_wf x y : channel_action x y → channels_ok x → channels_ok y.
Proof.
  unfold channels_ok. destruct 1; simpl.
  - apply channels_wf_map. intros c'. apply chan_send_sender.
  - apply channels_wf_map. intros c'. apply insert_sender. by simplify_map_eq.
  - apply channels_wf_map. intros c'. by apply alter_sender.
  - apply channels_wf_register.
  - intros Hx. apply channels_wf_unregister; [done|]. revert Hx. apply channels_wf_map.
    intros c'. apply chan_send_sender.
Qed.

(** The state the supervisor starts from. *)
Lemma shared_inv_new c hub : hub_wf hub → shared_inv (new_shared c hub).
Proof.
  intros Hhub. split; [|split; [|split; [|split; [exact Hhub|]]]].
  - apply (foldl_inv (λ _ m, wf_runtimes m)); [apply map_Forall_empty|].
    intros _ svc _ m _ Hm. apply wf_runtimes_insert; [apply new_runtime_wf|done].
  - simpl. rewrite map_size_empty. unfold MAX_EXIT_REGISTRY_ENTRIES. lia.
  - apply watch_reachable_wf. constructor.
  - split_and!; simpl.
    + by intros n c' ?%lookup_empty_Some.
    + by intros c' ch ?%lookup_empty_Some.
    + by intros c' [ch ?%lookup_empty_Some].
    + by intros n1 n2 c' ?%lookup_empty_Some.
Qed.

(** Every step keeps the invariant. *)
Lemma shared_step_inv `{FirstKey} s s' : shared_step s s' → shared_inv s → shared_inv s'.
Proof.
  destruct 1; intros HI; pose proof HI as (Hr & He & Hw & Hh & Hc); try done;
    try (split_and!; try done; simpl).
  - by eapply hub_action_wf.
  - by eapply watch_step_wf.
  - by apply (channel_action_wf (channels s) (ctl, chans, next)).
  - by eapply runtime_action_wf.
  - etransitivity; [apply map_subseteq_size, delete_subseteq|done].
  - by apply exits_publish_size.
  - apply hub_new_wf.
  - apply (shared_inv_new cfg (sh_hub s) Hh).
  - apply (shared_inv_new cfg (sh_hub s) Hh).
  - apply (shared_inv_new cfg (sh_hub s) Hh).
Qed.
