(* ===== verification/Delivery.v ===== *)
(** The queues of the log followers: what each atomic step does to the lines waiting
    for a follower. *)

From S2P Require Import Prelude Constants Error Config Protocol Logs Reaper Runtime World Supervisor Isolation.
From S2P Require Import Requests Init Steps Invariant.
#[local] Open Scope stdpp_scope.

(** ** Queues *)

(** Nothing changes, an element comes last, or the first one is taken. *)
Inductive queued {A} : list A → list A → Prop :=
  | queued_same q : queued q q
  | queued_send a q : queued q (q ++ [a])
  | queued_receive a q : queued (a :: q) q.

Section queue.
Context {A : Type} (waiting : Shared → list A).

(** What a section puts into the queue and what it takes out, by how its length
    changes. *)
Definition sent (x : Shared * Shared) : list A := drop (length (waiting x.1)) (waiting x.2).
Definition received (x : Shared * Shared) : list A :=
  take (length (waiting x.1) - length (waiting x.2)) (waiting x.1).

(** What is received comes out first, what is sent goes in last. *)
Lemma queued_section x :
  queued (waiting x.1) (waiting x.2) →
  received x ++ waiting x.2 = waiting x.1 ++ sent x ∧ length (received x) + length (sent x) ≤ 1.
Proof.
  unfold received, sent. intros Hq. generalize dependent (waiting x.1). generalize (waiting x.2).
  intros q' q Hq. destruct Hq as [q|a q|a q].
  - rewrite Nat.sub_diag, drop_all, app_nil_r. simpl. split; [done|lia].
  - rewrite length_app, drop_app_length. simpl. replace (length q - (length q + 1)) with 0 by lia.
    split; [done|simpl; lia].
  - rewrite drop_ge by (simpl; lia). rewrite app_nil_r. replace (length (a :: q) - length q) with 1 by (simpl; lia).
    split; [done|simpl; lia].
Qed.
End queue.

(** ** The lines for a follower *)

(** A follower of the logs that the hub sends to. *)
Definition following (id : nat) (s : Shared) : Prop :=
  id ∈ lh_followers (sh_hub s) ∧ is_Some (lh_channels (sh_hub s) !! id).

(** The lines waiting for a follower, oldest first. *)
Definition lines_for (id : nat) (s : Shared) : list LogLine := default [] (lh_channels (sh_hub s) !! id).

(** The same lines come last for each follower that stays, or one takes a line. *)
Definition fans_out (h h' : LogHub) (lines : list LogLine) : Prop :=
  length lines ≤ 1 ∧ ∀ id q q', id ∈ lh_followers h → lh_channels h !! id = Some q → lh_channels h' !! id = Some q' →
    q' = q ++ lines ∨ lines = [] ∧ ∃ line, q = line :: q'.

Lemma fans_out_nothing h h' :
  (∀ id, id ∈ lh_followers h → is_Some (lh_channels h' !! id) → lh_channels h' !! id = lh_channels h !! id) →
  fans_out h h' [].
Proof.
  intros Heq. split; [simpl; lia|]. intros id q q' Hid Hq Hq'. left. rewrite Heq in Hq' by eauto. rewrite app_nil_r. congruence.
Qed.

Lemma fans_out_line line h : NoDup (lh_followers h) → fans_out h (send_line line h) [line].
Proof.
  intros Hnd. split; [done|]. intros id q q' Hid Hq.
  pose proof (send_all_kept line (lh_followers h) (lh_channels h) Hnd) as (_ & _ & Hs).
  unfold send_line. destruct (send_all _ _ _) as [fs cs]. simpl in *. rewrite Hs, Hq. simpl.
  rewrite decide_True by done. intros [= <-]. by left.
Qed.

Lemma fans_out_follower fs h : hub_wf h → fans_out h (add_follower fs h).2 [].
Proof.
  intros (_ & _ & Hnext). apply fans_out_nothing. intros id Hid _. simpl. apply lookup_insert_ne.
  apply Hnext in Hid. lia.
Qed.

Lemma hub_action_fans_out h h' : hub_action h h' → hub_wf h → ∃ lines, fans_out h h' lines.
Proof.
  intros Hstep Hwf. pose proof Hwf as (_ & Hnd & _). destruct Hstep as [line h|line h|line h|id h|h h' Hstep].
  - exists []. by apply fans_out_nothing.
  - exists []. by apply fans_out_nothing.
  - exists [line]. by apply fans_out_line.
  - exists []. split; [simpl; lia|]. intros id' q q' Hid Hq Hq'. unfold hub_recv in Hq'.
    destruct (lh_channels h !! id) as [[|line l]|] eqn:Hid'; simpl in Hq'; [left; rewrite app_nil_r; congruence| |left; rewrite app_nil_r; congruence].
    destruct (decide (id = id')) as [->|Hne].
    + rewrite lookup_insert_eq in Hq'. right. split; [done|]. exists line. congruence.
    + rewrite lookup_insert_ne in Hq' by done. left. rewrite app_nil_r. congruence.
  - destruct Hstep as [h line tee|h|h|h id|h].
    + exists [line]. by apply (fans_out_line line (push_mixed line (push_service line h))).
    + exists []. by apply fans_out_follower.
    + exists []. unfold hub_try_subscribe. case_decide; [by apply fans_out_nothing|]. by apply fans_out_follower.
    + exists []. apply fans_out_nothing. intros id' _ [q Hq]. simpl in *. rewrite lookup_delete in *. by case_decide.
    + exists []. by apply fans_out_nothing.
Qed.

(** What a step does for the followers: all that stay are sent the same lines. *)
Lemma lines_step `{FirstKey} s s' :
  shared_step s s' → shared_inv s →
  ∃ lines, ∀ id, following id s → following id s' →
    queued (lines_for id s) (lines_for id s') ∧ sent (lines_for id) (s, s') = lines.
Proof.
  intros Hstep (_ & _ & _ & Hwf & _).
  assert (sh_hub s' = sh_hub s ∨ lh_followers (sh_hub s') = [] ∨ hub_action (sh_hub s) (sh_hub s')) as [Heq|[Hnone|Hhub]]
    by (destruct Hstep; simpl; auto).
  - exists []. intros id _ _. unfold sent, lines_for; simpl. rewrite Heq, drop_all. by split; [constructor|].
  - exists []. intros id _ [Hin _]. rewrite Hnone in Hin. by apply elem_of_nil in Hin.
  - apply hub_action_fans_out in Hhub as (lines & Hl & Hf); [|done]. exists lines.
    intros id [Hin [q Hq]] [_ [q' Hq']]. unfold sent, lines_for; simpl. rewrite Hq, Hq'. simpl.
    destruct (Hf id q q' Hin Hq Hq') as [->|[-> [line ->]]].
    + rewrite drop_app_length. split; [|done]. destruct lines as [|line [|]]; [rewrite app_nil_r| |simpl in Hl; lia]; constructor.
    + rewrite drop_ge by (simpl; lia). by split; [constructor|].
Qed.
