(* ===== verification/OtelSpec.v ===== *)
(** What the metrics exporter sends, and how often. *)

From Stdlib Require Import Ascii SpecFloat.
From S2P Require Import Prelude Constants RustStr BTree Error Security Config Graph Protocol Logs Watch.
From S2P Require Import Reaper Runtime World Logic Trace EnvFile Service Store Supervisor OtelEnv Version.
From S2P Require Import DaemonInfo EarlyBoot Describe Isolation Invariant MonitorSpec Events Timing Requests Replies Float64 Otel.
#[local] Open Scope stdpp_scope.

(** ** How often *)

Definition is_post (e : Event) : bool := match e with EvPost _ _ _ => true | _ => false end.

Section times.
Context `{ClockLaws}.

(** The instants at which documents were sent, oldest first. *)
Fixpoint post_times (h : list Event) : list N :=
  match h with
  | [] => []
  | e :: h => post_times h ++ (if is_post e then [clock h] else [])
  end.

Lemma post_times_quiet new h : Forall (λ e, is_post e = false) new → post_times (new ++ h) = post_times h.
Proof. induction 1 as [|e new He _ IH]; [done|]. simpl. by rewrite He, app_nil_r. Qed.

Lemma post_times_past h t : t ∈ post_times h → (t ≤ clock h)%N.
Proof.
  revert t. induction h as [|e h IH]; intros t; simpl; [by intros ?%elem_of_nil|].
  pose proof (clock_mono e h) as Hm. rewrite elem_of_app. intros [Ht%IH|Ht]; [lia|].
  destruct (is_post e); [apply list_elem_of_singleton in Ht as ->; lia|by apply elem_of_nil in Ht].
Qed.

Lemma post_times_new new h t : t ∈ post_times (new ++ h) → t ∈ post_times h ∨ (clock h ≤ t)%N.
Proof.
  induction new as [|e new IH]; simpl; [by left|]. rewrite elem_of_app. intros [Ht|Ht]; [by apply IH|].
  destruct (is_post e); [|by apply elem_of_nil in Ht]. apply list_elem_of_singleton in Ht as ->.
  right. apply clock_app.
Qed.

Context (gap : N).

(** Documents are at least [gap] apart. *)
Definition spaced (l : list N) : Prop := StronglySorted (λ t t', t + gap ≤ t')%N l.

Lemma spaced_snoc l t : spaced l → (∀ x, x ∈ l → x + gap ≤ t)%N → spaced (l ++ [t]).
Proof.
  induction 1 as [|x l Hl IH Hx]; intros Ht; simpl.
  - constructor; [constructor|done].
  - constructor.
    + apply IH. intros y Hy. apply Ht. by right.
    + apply Forall_app. split; [done|]. constructor; [|done]. apply Ht. by left.
Qed.

(** So far documents were spaced; and the last one is [gap] ago. *)
Definition spaced_so_far (h : list Event) : Prop := spaced (post_times h).
Definition rested (h : list Event) : Prop := spaced_so_far h ∧ ∀ t, t ∈ post_times h → (t + gap ≤ clock h)%N.

(** From a history satisfying [P] the computation leaves documents spaced, whether it
    returns or not, and a history satisfying [Q] when it does. *)
Definition paced {A} (P : list Event → Prop) (m : M A) (Q : A → list Event → Prop) : Prop :=
  ∀ w, P (hist w) → spaced_so_far (hist (m w).2) ∧ ∀ a w', m w = (Some a, w') → Q a (hist w').

Lemma paced_bind {A B} P (m : M A) R (f : A → M B) Q :
  paced P m R → (∀ a, paced (R a) (f a) Q) → paced P (m ≫= f) Q.
Proof.
  intros Hm Hf w HP. destruct (Hm w HP) as [Hs HR]. destruct (m w) as [[a|] w1] eqn:Ha.
  - rewrite (bind_step _ _ _ _ _ Ha). apply Hf. by apply HR.
  - unfold mbind, M_bind. rewrite Ha. by split.
Qed.

Lemma paced_ret {A} (a : A) (Q : A → list Event → Prop) : (∀ h, Q a h → spaced_so_far h) → paced (Q a) (mret a) Q.
Proof. intros HQ w Hw. split; [by apply HQ|]. by intros b w' [= <- <-]. Qed.

Lemma paced_weaken {A} (P P' : list Event → Prop) (m : M A) (Q Q' : A → list Event → Prop) :
  (∀ h, P h → P' h) → paced P' m Q' → (∀ a h, Q' a h → Q a h) → paced P m Q.
Proof. intros HP Hm HQ w Hw. destruct (Hm w (HP _ Hw)) as [Hs Hr]. eauto. Qed.

(** A computation that sends nothing. *)
Lemma quiet_spaced {A} (m : M A) : emits (λ e, is_post e = false) m → paced spaced_so_far m (λ _, spaced_so_far).
Proof.
  intros Hm w Hw. destruct (Hm w) as (new & Hh & Hn).
  assert (spaced_so_far (hist (m w).2)) as Hs by (unfold spaced_so_far; by rewrite Hh, post_times_quiet).
  split; [done|]. intros a w' Hr. by rewrite Hr in Hs.
Qed.

Lemma quiet_rested {A} (m : M A) : emits (λ e, is_post e = false) m → paced rested m (λ _, rested).
Proof.
  intros Hm w [Hw Ht]. destruct (Hm w) as (new & Hh & Hn).
  assert (rested (hist (m w).2)) as Hs.
  { split; [unfold spaced_so_far; by rewrite Hh, post_times_quiet|].
    intros t. rewrite Hh, post_times_quiet by done. intros Hin. pose proof (clock_app new (hist w)).
    specialize (Ht t Hin). lia. }
  split; [apply Hs|]. intros a w' Hr. by rewrite Hr in Hs.
Qed.

(** Sending a document. *)
Lemma paced_post {A} (answer : list Event → A) e : paced rested (asks answer e) (λ _, spaced_so_far).
Proof.
  intros w [Hw Ht]. assert (spaced_so_far (e :: hist w)) as Hs.
  { unfold spaced_so_far. simpl. destruct (is_post e); [by apply spaced_snoc|by rewrite app_nil_r]. }
  split; [exact Hs|]. by intros a w' [= <- <-].
Qed.

(** A wait that was not left early has passed its deadline. *)
Lemma poll_None fuel deadline period (body : M (option unit)) w w' :
  poll fuel deadline period body w = (Some None, w') → (deadline ≤ clock (hist w'))%N.
Proof.
  revert w. induction fuel as [|fuel IH]; intros w; cbn [poll]; [done|].
  intros (now & w1 & Hn & Hr)%bind_Some. injection Hn as <- <-. case_decide as Hlt.
  - apply bind_Some in Hr as (r & w2 & _ & Hr). destruct r as [a|]; [by injection Hr as ? ?|].
    apply bind_Some in Hr as (d & w3 & _ & Hr). apply bind_Some in Hr as ([] & w4 & _ & Hr). by eapply IH.
  - injection Hr as <-. pose proof (clock_mono EvNow (hist w)). simpl. lia.
Qed.
End times.

Section spacing.
Context `{Host, !ClockLaws, HashOrder, Json, DataDir, !FileTimes, !Exporter}.
Context (gap : N).
#[local] Abbreviation quiet m := (emits (λ e, is_post e = false) m).

Lemma quiet_routine {A} (m : M A) : routinely m → quiet m.
Proof. apply emits_weaken. by intros []. Qed.
#[local] Hint Extern 5 (emits _ _) => (apply quiet_routine, filing_routine; solve [eauto with filing]) : emits.

Lemma quiet_emit service level msg : quiet (emit service level msg).
Proof. unfold emit, publish_line. emits_solve. Qed.
#[local] Hint Resolve quiet_emit : emits.

Lemma quiet_pause d : quiet (pause d).
Proof.
  unfold pause. apply emits_bind; [emits_solve|intros now]. apply emits_bind; [emits_solve|intros deadline].
  apply emits_bind; [|intros r; emits_solve]. by apply emits_poll; [| |emits_solve|intros ?; emits_solve].
Qed.

(** After a pause that was not left early everything sent is at least that long ago. *)
Lemma paced_pause d :
  (gap ≤ d)%N → paced gap (spaced_so_far gap) (pause d) (λ stop h, if stop then spaced_so_far gap h else rested gap h).
Proof.
  intros Hd w Hw. destruct (quiet_spaced gap (pause d) (quiet_pause d) w Hw) as [Hs Hq]. split; [done|].
  intros stop w' Hr. specialize (Hq _ _ Hr). destruct stop; [done|]. split; [done|]. intros t Ht.
  destruct (quiet_pause d w) as (new & Hh & Hn). rewrite Hr in Hh. simpl in Hh.
  rewrite Hh, post_times_quiet in Ht by done. apply post_times_past in Ht.
  unfold pause in Hr. apply bind_Some in Hr as (now & w1 & Hnow & Hr). injection Hnow as <- <-.
  apply bind_Some in Hr as (deadline & w2 & Hdl & Hr). apply bind_Some in Hr as (r & w3 & Hp & Hr).
  injection Hr as Hstop <-. destruct r as [[]|]; [done|]. apply poll_None in Hp.
  unfold instant_add in Hdl. case_decide; [|done]. injection Hdl as <- _. lia.
Qed.

Lemma quiet_collect ts svcs p samples : quiet (collect_services ts svcs p samples).
Proof.
  revert p samples. induction svcs as [|svc svcs IH]; intros p samples; cbn [collect_services]; [emits_solve|].
  destruct (sm_pid svc); [|apply IH]. unfold read_rss_bytes, service_cpu_ratio, read_cpu_ticks, read_proc.
  repeat (apply emits_bind; [emits_solve|intros ?]). case_match. apply IH.
Qed.

Lemma quiet_host_stats : quiet host_stats.
Proof. unfold host_stats, read_first, read_meminfo, read_proc. emits_solve. Qed.

(** At most one document is sent, after everything else. *)
Lemma paced_collect cfg samples : paced gap (rested gap) (collect_and_export cfg samples) (λ _, spaced_so_far gap).
Proof.
  assert (∀ {A} (a : A), paced gap (rested gap) (mret a) (λ _, spaced_so_far gap)) as Hret.
  { intros A a. apply (paced_weaken gap _ (spaced_so_far gap) _ _ (λ _, spaced_so_far gap)); [by intros h []| |done].
    by apply (paced_ret gap a (λ _, spaced_so_far gap)). }
  unfold collect_and_export.
  eapply paced_bind; [apply quiet_rested; unfold system_time_nanos; emits_solve|]. intros [ts|e]; [|apply Hret].
  eapply paced_bind; [apply quiet_rested, quiet_host_stats|]. intros [host|e]; [|apply Hret].
  eapply paced_bind; [apply quiet_rested; unfold metrics_snapshot; emits_solve|]. intros svcs.
  eapply paced_bind; [apply quiet_rested, quiet_collect|]. intros [points samples'].
  eapply paced_bind; [|intros r; by apply (paced_ret gap (r, samples') (λ _, spaced_so_far gap))].
  unfold export_http. destruct (metrics_url _ _) as [url|e]; [|apply Hret].
  eapply paced_bind; [apply paced_post|]. intros answer. by apply (paced_ret gap _ (λ _, spaced_so_far gap)).
Qed.

Lemma emits_some {A} (P : Event → Prop) (m : M A) : emits P m → emits (λ _, True) m.
Proof. by apply emits_weaken. Qed.

Lemma emits_anything n samples : emits (λ _, True) (export_loop n samples).
Proof.
  pose proof (λ d, emits_some _ _ (quiet_pause d)) as Hpause.
  pose proof (λ ts svcs p samples, emits_some _ _ (quiet_collect ts svcs p samples)) as Hcollect.
  pose proof (emits_some _ _ quiet_host_stats) as Hhost.
  pose proof (λ s l m, emits_some _ _ (quiet_emit s l m)) as Hemit.
  pose proof (emits_some _ open_telemetry filing_open_telemetry) as Hconfig.
  revert samples. induction n as [|n IH]; intros samples; cbn [export_loop]; [emits_solve|].
  unfold export_round, collect_and_export, system_time_nanos, metrics_snapshot, export_http.
  repeat first [apply Hpause | apply Hcollect | apply Hhost | apply Hemit | apply Hconfig | apply IH | emits_step | intro].
Qed.

Context (Hgap : (gap ≤ RETRY_SLEEP)%N).
Context (Hinterval : yields (λ cfg, gap ≤ from_secs (N.max (ot_export_interval_secs cfg) 1))%N open_telemetry).

Lemma paced_round samples :
  paced gap (rested gap) (export_round samples)
    (λ r h, if r.1 : bool then spaced_so_far gap h else rested gap h).
Proof.
  unfold export_round.
  apply (paced_bind gap _ _ (λ cfg h, rested gap h ∧ gap ≤ from_secs (N.max (ot_export_interval_secs cfg) 1))%N).
  { intros w Hw. destruct (quiet_rested gap open_telemetry ltac:(emits_solve) w Hw) as [Hs Hr]. split; [done|].
    intros cfg w' Hc. split; [by eapply Hr|by eapply Hinterval]. }
  intros cfg. destruct (ot_enable cfg); simpl.
  2:{ eapply paced_bind.
      - eapply paced_weaken; [by intros h [? _]|apply (quiet_rested gap (sleep RETRY_SLEEP)); emits_solve|done].
      - intros [] w Hw. split; [apply Hw|]. by intros ? ? [= <- <-]. }
  set (long := (gap ≤ from_secs (N.max (ot_export_interval_secs cfg) 1))%N).
  apply (paced_bind gap _ _ (λ _ h, spaced_so_far gap h ∧ long)).
  { intros w [Hw Hl]. destruct (paced_collect cfg samples w Hw) as [Hs Hr]. split; [done|].
    intros r w' Hc. by split; [eapply Hr|]. }
  intros [r samples'].
  apply (paced_bind gap _ _ (λ (stop : bool) h, if stop then spaced_so_far gap h else rested gap h)).
  - assert (∀ P, (long → paced gap (spaced_so_far gap) P (λ (stop : bool) h, if stop then spaced_so_far gap h else rested gap h)) →
      paced gap (λ h, spaced_so_far gap h ∧ long) P (λ (stop : bool) h, if stop then spaced_so_far gap h else rested gap h)) as Hcurry.
    { intros P HP w [Hw Hl]. by apply HP. }
    apply Hcurry. intros Hl. destruct r as [[]|e]; [by apply paced_pause|].
    eapply paced_bind; [apply quiet_spaced; emits_solve|]. intros []. by apply paced_pause.
  - intros stop w Hw. split; [destruct stop; apply Hw|]. by intros ? ? [= <- <-].
Qed.

Lemma paced_loop n samples : paced gap (rested gap) (export_loop n samples) (λ _, spaced_so_far gap).
Proof.
  revert samples. induction n as [|n IH]; intros samples; cbn [export_loop];
    (eapply paced_bind; [apply quiet_rested; emits_solve|intros [|]]).
  1, 3: intros w Hw; split; [apply Hw|by intros ? ? [= <- <-]; apply Hw].
  - intros w Hw. split; [apply Hw|done].
  - eapply paced_bind; [apply paced_round|]. intros [[|] samples']; simpl; [|apply IH].
    by apply (paced_ret gap () (λ _, spaced_so_far gap)).
Qed.
End spacing.

(** ** What is sent *)

Definition post_of (e : Event) : option (string * list (string * string) * string) :=
  match e with EvPost url headers body => Some (url, headers, body) | _ => None end.

(** What is known of a service: its metrics, its memory and its processor share. *)
Definition Row : Type := ServiceMetrics * option N * option f64.
Definition row_name (r : Row) : string := sm_name r.1.1.

(** Memory and processor are only known of a service with a process; the memory is a
    64-bit number and the share is not negative. *)
Definition row_ok (r : Row) : Prop :=
  let '(svc, rss, ratio) := r in
  (sm_pid svc = None → rss = None ∧ ratio = None) ∧
  (∀ b, rss = Some b → b ≤ u64_max)%N ∧
  (∀ x, ratio = Some x → x = S754_nan ∨ not_negative x).

(** The points of the services: a counter of restarts, one of failed probes and the
    uptime of each, and memory and share where they are known. *)
Definition service_points (ts : string) (rows : list Row) : Points :=
  let attrs svc := [("service", sm_name svc)] in
  mkPoints
    ((λ '(svc, _, _), sum_point (f64_of_N (sm_restarts svc)) (attrs svc) ts) <$> rows)
    ((λ '(svc, _, _), sum_point (f64_of_N (sm_liveness_failures svc)) (attrs svc) ts) <$> rows)
    ((λ '(svc, _, _), gauge_point (as_secs_f64 (sm_uptime svc)) (attrs svc) ts) <$> rows)
    (omap (λ '(svc, _, ratio), (λ r, gauge_point r (attrs svc) ts) <$> ratio) rows)
    (omap (λ '(svc, rss, _), (λ b, gauge_point (f64_of_N b) (attrs svc) ts) <$> rss) rows).

Definition append_points (p q : Points) : Points :=
  mkPoints (pt_restarts p ++ pt_restarts q) (pt_liveness p ++ pt_liveness q) (pt_uptime p ++ pt_uptime q)
    (pt_cpu p ++ pt_cpu q) (pt_mem p ++ pt_mem q).

Lemma append_no_points_r p : append_points p no_points = p.
Proof. unfold append_points. simpl. rewrite !app_nil_r. by destruct p. Qed.

Lemma add_points_row ts svc rss ratio rows p :
  append_points (add_points ts svc rss ratio p) (service_points ts rows)
  = append_points p (service_points ts ((svc, rss, ratio) :: rows)).
Proof.
  unfold append_points, add_points, service_points. simpl. rewrite <-!app_assoc.
  by destruct rss, ratio.
Qed.

(** The numbers of the machine are 64-bit numbers. *)
Definition host_ok (host : HostStats) : Prop :=
  (hs_mem_free host ≤ u64_max ∧ hs_mem_used host ≤ u64_max ∧
   hs_swap_used host ≤ u64_max ∧ hs_swap_free host ≤ u64_max)%N.

Lemma saturating_mul_le a b : (saturating_mul_u64 a b ≤ u64_max)%N.
Proof. apply N.le_min_r. Qed.

Lemma parse_meminfo_bounds data :
  let '(total, avail, swap_total, swap_free) := parse_meminfo data in
  (total ≤ u64_max ∧ avail ≤ u64_max ∧ swap_total ≤ u64_max ∧ swap_free ≤ u64_max)%N.
Proof.
  unfold parse_meminfo.
  set (fits := λ m, (mi_total m ≤ u64_max ∧ mi_avail m ≤ u64_max ∧ mi_free m ≤ u64_max ∧
    mi_swap_total m ≤ u64_max ∧ mi_swap_free m ≤ u64_max)%N).
  assert (∀ ls m, fits m → fits (foldl meminfo_line m ls)) as Hf.
  { intros ls. induction ls as [|l ls IH]; intros m Hm; [done|]. apply IH.
    unfold meminfo_line. pose proof (saturating_mul_le (default 0%N ((split_whitespace l !! 1) ≫= parse_uint u64_max)) 1024) as Hv.
    destruct m as [total avail free st sf]. fold (meminfo_value (split_whitespace l !! 1)) in Hv.
    repeat case_decide; unfold fits in *; simpl in *; tauto. }
  destruct (Hf (lines data) (mkMemInfo 0 0 0 0 0)) as (? & ? & ? & ? & ?); [by repeat split|].
  case_decide; auto.
Qed.

Lemma rss_bound ls b : rss_of ls = Some b → (b ≤ u64_max)%N.
Proof.
  induction ls as [|l ls IH]; cbn [rss_of]; [done|]. destruct (strip_prefix _ l); [|done].
  intros (kb & _ & [= <-])%option.bind_Some. apply saturating_mul_le.
Qed.

Lemma cpu_ratio_ok prev ticks now : cpu_ratio prev ticks now = S754_nan ∨ not_negative (cpu_ratio prev ticks now).
Proof.
  destruct prev as [[pt pi]|]; simpl; [|by right]. destruct (f64_le _ _) eqn:Hle; [by right|].
  assert (not_negative ticks_per_second) as Hhz by apply of_N_not_negative.
  destruct (div_not_negative (f64_of_N (ticks - pt)) ticks_per_second (of_N_not_negative _) Hhz) as [->|Hd].
  { left. by destruct (as_secs_f64 _). }
  destruct (as_secs_f64 (now - pi)) as [s|[]| |[] m e]; try done; try (by apply div_not_negative).
  left. by destruct (f64_div (f64_of_N (ticks - pt)) ticks_per_second).
Qed.

Section documents.
Context `{Host, HashOrder, Json, DataDir, !FileTimes, !Exporter}.
#[local] Abbreviation silent m := (emits (unseen post_of) m).

Lemma silent_collect ts svcs p samples : silent (collect_services ts svcs p samples).
Proof.
  revert p samples. induction svcs as [|svc svcs IH]; intros p samples; cbn [collect_services]; [emits_solve|].
  destruct (sm_pid svc); [|apply IH]. unfold read_rss_bytes, service_cpu_ratio, read_cpu_ticks, read_proc.
  repeat (apply emits_bind; [emits_solve|intros ?]). case_match. apply IH.
Qed.

Lemma yields_cpu pid samples :
  yields (λ r, (∀ x, r.1 = Some x → x = S754_nan ∨ not_negative x) ∧ dom samples ⊆ dom r.2)
    (service_cpu_ratio pid samples).
Proof.
  unfold service_cpu_ratio. apply (yields_bind (λ _, True)); [done|]. intros [ticks|] _; [|by apply yields_ret].
  apply (yields_bind (λ _, True)); [done|]. intros now _. apply yields_ret. split; simpl.
  - intros x [= <-]. apply cpu_ratio_ok.
  - rewrite dom_insert. set_solver.
Qed.

Lemma yields_rss pid : yields (λ r, ∀ b, r = Some b → (b ≤ u64_max)%N) (read_rss_bytes pid).
Proof.
  unfold read_rss_bytes. apply (yields_bind (λ _, True)); [done|]. intros data _. apply yields_ret.
  intros b. destruct data as [data|e]; simpl; [|done]. apply rss_bound.
Qed.

(** The points collected are those of the services, in order. *)
Lemma yields_collect ts svcs p samples :
  yields (λ r, dom samples ⊆ dom r.2 ∧ ∃ rows, ((λ r, r.1.1) <$> rows) = svcs ∧ Forall row_ok rows ∧
    r.1 = append_points p (service_points ts rows)) (collect_services ts svcs p samples).
Proof.
  revert p samples. induction svcs as [|svc svcs IH]; intros p samples; cbn [collect_services].
  { apply yields_ret. split; [done|]. exists []. by rewrite append_no_points_r. }
  assert (∀ rss ratio samples', row_ok (svc, rss, ratio) → dom samples ⊆ dom samples' →
    yields (λ r, dom samples ⊆ dom r.2 ∧ ∃ rows, ((λ r, r.1.1) <$> rows) = svc :: svcs ∧ Forall row_ok rows ∧
      r.1 = append_points p (service_points ts rows))
      (collect_services ts svcs (add_points ts svc rss ratio p) samples')) as Hstep.
  { intros rss ratio samples' Hrow Hdom w r w' Hr.
    destruct (IH _ _ w r w' Hr) as (Hd & rows & <- & Hrows & Hp). split; [set_solver|].
    exists ((svc, rss, ratio) :: rows). split; [done|]. split; [by constructor|]. by rewrite Hp, add_points_row. }
  destruct (sm_pid svc) as [pid|] eqn:Hpid.
  - eapply yields_bind; [apply yields_rss|]. intros rss Hrss.
    eapply yields_bind; [apply yields_cpu|]. intros [ratio samples'] [Hratio Hdom].
    apply Hstep; [|done]. split; [by rewrite Hpid|done].
  - by apply Hstep.
Qed.

Lemma yields_host_stats : yields (λ r, ∀ host, r = Ok host → host_ok host) host_stats.
Proof.
  unfold host_stats. apply (yields_bind (λ _, True)); [done|]. intros [uptime|e] _; [|apply yields_ret; by intros ? [=]].
  apply (yields_bind (λ _, True)); [done|]. intros [load1|e] _; [|apply yields_ret; by intros ? [=]].
  apply (yields_bind (λ _, True)); [done|]. intros ncpu _. unfold read_meminfo.
  eapply (yields_bind (λ r, ∀ m, r = Ok m → ∃ data, m = parse_meminfo data)).
  - apply (yields_bind (λ _, True)); [done|]. intros [data|e] _; apply yields_ret; [|by intros ? [=]].
    intros m [= <-]. by exists data.
  - intros [mem|e] Hmem; apply yields_ret; [|by intros ? [=]]. destruct (Hmem _ eq_refl) as [data ->].
    pose proof (parse_meminfo_bounds data) as Hb. destruct (parse_meminfo data) as [[[total avail] st] sf].
    intros host [= <-]. unfold host_ok. simpl. lia.
Qed.

(** The services are listed by name, each once. *)
Lemma yields_metrics_snapshot :
  yields (λ svcs, NoDup (sm_name <$> svcs) ∧ StronglySorted ord_le (sm_name <$> svcs)) metrics_snapshot.
Proof.
  intros w svcs w' [= <- _]. set (m := sh_runtimes _). set (now := clock _). split.
  - rewrite merge_sort_Permutation, <-list_fmap_compose.
    assert ((sm_name ∘ metrics_of now <$> hash_iter m) = (hash_iter m).*1) as ->; [|apply hash_iter_NoDup].
    apply list_fmap_ext. by intros i [name rt] _.
  - assert (Total metrics_le) as Ht by (intros a b; exact (ord_total (K := string) (sm_name a) (sm_name b))).
    assert (Transitive metrics_le) as Htr by (intros a b c Hab Hbc; exact (transitivity (R := ord_le (K := string)) Hab Hbc)).
    apply (StronglySorted_fmap _ metrics_le ord_le); [done|]. by apply StronglySorted_merge_sort.
Qed.

(** The services are those of the state at some time [now]. *)
Definition snapshot_of (s : Shared) (svcs : list ServiceMetrics) : Prop :=
  ∃ h now, svcs ≡ₚ (metrics_of now <$> map_to_list (sh_runtimes (interfere h s))).

Lemma metrics_snapshot_of w svcs w' : metrics_snapshot w = (Some svcs, w') → snapshot_of (shared w) svcs.
Proof.
  intros [= <- _]. exists (hist w), (clock (hist w)). rewrite merge_sort_Permutation. apply fmap_Permutation, hash_iter_perm.
Qed.

(** What an export sends: nothing when it fails, or one document, about the machine
    and about every service by name.  The samples of processes are kept for ever. *)
Definition sent_ok (s : Shared) (cfg : OpenTelemetryConfig) (samples : Samples) (r : result unit string) (samples' : Samples)
    (sent : list (string * list (string * string) * string)) : Prop :=
  dom samples ⊆ dom samples' ∧
  ((sent = [] ∧ ¬ is_ok r) ∨
   ∃ url ts host rows, metrics_url (ot_endpoint cfg) (ot_protocol cfg) = Ok url ∧
     host_ok host ∧ Forall row_ok rows ∧ snapshot_of s ((λ r, r.1.1) <$> rows) ∧
     NoDup (row_name <$> rows) ∧ StronglySorted ord_le (row_name <$> rows) ∧
     sent = [(url, ("Content-Type", "application/json") :: hash_iter (ot_headers cfg),
       print_document (document (ot_service_name cfg) package_version
         (host_metrics ts host ++ service_metrics (service_points ts rows))))]).

Lemma host_stats_survives s : survives (λ s', s' = s) host_stats.
Proof.
  apply stepless_survives; unfold host_stats, read_first, read_meminfo, read_proc; [keeps_solve|emits_solve].
Qed.

Lemma traces_collect s cfg samples :
  traces_under (λ s', s' = s) post_of (collect_and_export cfg samples)
    (λ r sent, sent_ok s cfg samples r.1 r.2 sent).
Proof.
  assert (∀ e samples', dom samples ⊆ dom samples' →
    traces_by post_of (mret (Err (A := unit) e, samples')) (λ r sent, sent_ok s cfg samples r.1 r.2 sent)) as Hfail.
  { intros e samples' Hd. apply traces_ret. split; [done|]. left. by split; [|intros []]. }
  unfold collect_and_export.
  apply traces_under_silent; [intros w ?; done|unfold system_time_nanos; emits_solve|].
  intros [ts|e]; [|by apply traces_under_all, Hfail].
  eapply traces_under_yields; [apply host_stats_survives|unfold host_stats, read_first, read_meminfo, read_proc; emits_solve
    |intros w x w' _; exact (yields_host_stats w x w')|]. intros [host|e] Hhost; [|by apply traces_under_all, Hfail].
  eapply (traces_under_read _ (λ svcs, snapshot_of s svcs ∧ NoDup (sm_name <$> svcs) ∧
    StronglySorted ord_le (sm_name <$> svcs))); [unfold metrics_snapshot; emits_solve| |].
  { intros w svcs w' <- Hr. split; [by eapply metrics_snapshot_of|by eapply yields_metrics_snapshot]. }
  intros svcs (Hof & Hnd & Hsorted).
  eapply traces_silent_yields; [apply silent_collect|apply yields_collect|].
  intros [points samples'] (Hdom & rows & <- & Hrows & Hp). simpl in Hdom, Hp. subst points.
  change (append_points no_points (service_points ts rows)) with (service_points ts rows).
  unfold export_http. destruct (metrics_url (ot_endpoint cfg) (ot_protocol cfg)) as [url|e] eqn:Hurl.
  2:{ apply (Hfail e samples' Hdom). }
  rewrite <-list_fmap_compose in Hnd, Hsorted.
  set (post := (url, ("Content-Type", "application/json") :: hash_iter (ot_headers cfg),
    print_document (document (ot_service_name cfg) package_version
      (host_metrics ts host ++ service_metrics (service_points ts rows))))).
  eapply (traces_bind _ _ (λ _ t, t = [post])).
  - eapply (traces_bind _ _ (λ _ t, t = [post])); [by eapply traces_asks|].
    intros answer t ->. by apply traces_ret.
  - intros r t ->. apply traces_ret. split; [done|]. right. exists url, ts, host, rows. split_and!; try done. by apply Hhost.
Qed.
End documents.

(** ** Properties *)

Section properties.
Context `{Host, !ClockLaws, HashOrder, Json, DataDir, !FileTimes, !Exporter}.


(** C40: The exporter never floods its collector, whatever the clock, the machine and
    the other threads do: for as long as it runs, documents are at least [gap] apart
    when that is no more than the interval of every configuration and the 30 seconds
    after a failure, and none is sent in the first ten seconds. *)
Theorem exports_spaced gap n w :
  (gap ≤ RETRY_SLEEP)%N →
  yields (λ cfg, gap ≤ from_secs (N.max (ot_export_interval_secs cfg) 1))%N open_telemetry →
  post_times (hist w) = [] →
  let sent := post_times (hist (run_loop n w).2) in
  spaced gap sent ∧ Forall (λ t, clock (hist w) + INITIAL_SLEEP ≤ t)%N sent.
Proof.
  intros Hgap Hyield Hnone. set (w1 := mkWorld (shared w) (EvSleep INITIAL_SLEEP :: hist w)).
  assert (run_loop n w = export_loop n ∅ w1) as -> by done.
  assert (post_times (hist w1) = []) as Hnone1 by (simpl; by rewrite Hnone).
  split.
  - apply (paced_loop gap Hgap Hyield). split; [unfold spaced_so_far; rewrite Hnone1; constructor|].
    rewrite Hnone1. by intros t ?%elem_of_nil.
  - destruct (emits_anything n ∅ w1) as (new & -> & _). apply Forall_forall. intros t Ht.
    apply post_times_new in Ht as [Ht|Ht]; [rewrite Hnone1 in Ht; by apply elem_of_nil in Ht|].
    pose proof (clock_sleep INITIAL_SLEEP (hist w)). simpl in Ht. lia.
Qed.
End properties.

(** ** A concrete machine *)

(** A machine up for a minute and a half, whose collector accepts documents. *)
Definition example_exporter : Exporter (H := quiet_host) := {|
  proc_file _ path :=
    if decide (path = "/proc/uptime") then Ok "90.50 80.00"
    else if decide (path = "/proc/loadavg") then Ok "0.25 0.10 0.05 1/40 77"
    else if decide (path = "/proc/meminfo") then Ok "MemTotal: 2048 kB"
    else Err "No such file or directory";
  parallelism _ := Some 4%N;
  before_epoch _ := None;
  print_document _ := "{}";
  post_answer _ _ _ _ := PostOk 200;
  stop_flag _ := false;
  package_version := "0.1.0";
|}.

Definition example_export : option (result unit string * Samples) * World :=
  collect_and_export (H := quiet_host) (H0 := canonical_hash_order) (H4 := example_exporter)
    default_open_telemetry ∅ example_world.


(** The example services, with telemetry enabled. *)
Definition exporting_world : World :=
  mkWorld (set_process_env {["ENABLE_TELEMETRY" := "true"]} (example_shared example_services)) [].

Lemma exports_spaced_witness :
  let sent := post_times (H := quiet_host) (hist (run_loop (H := quiet_host) (H0 := canonical_hash_order)
    (H2 := example_data) (H3 := example_times) (H4 := example_exporter) 3 exporting_world).2) in
  length sent = 3 ∧ spaced (from_secs 1) sent.
Proof.
  intros sent. split; [vm_compute; reflexivity|].
  refine (proj1 (exports_spaced (H := quiet_host) (H1 := canonical_hash_order)
    (H3 := example_data) (H4 := example_times) (H5 := example_exporter)
    (from_secs 1) 3 exporting_world _ _ eq_refl)).
  - by apply (bool_decide_unpack _).
  - intros w cfg w' _. apply N.mul_le_mono_r. apply N.le_max_r.
Defined.
