(* ===== verification/System.v ===== *)
(** The daemon as a system of threads: every interleaving of their atomic sections
    keeps the invariant of the shared state, and delivers the lines of the logs once and
    in order. *)

From Stdlib Require Import Ascii.
From S2P Require Import Prelude RustStr Constants Error Security Config Graph Protocol Logs Watch Reaper.
From S2P Require Import Runtime FileWatch World Console Logic Trace EnvFile Service Store Supervisor EarlyBoot LogIO.
From S2P Require Import Version OtelEnv DaemonInfo Monitor Describe Isolation Events Requests Replies.
From S2P Require Import Init InitSpec Otel Steps Invariant Delivery OtelSpec.
#[local] Open Scope stdpp_scope.

(** ** Descriptions *)

Definition event_step (e : ServiceEvent) : Step := (se_kind e, se_from e, se_to e).

(** A description agrees with itself: an uptime exactly while running, a pid only
    while the process may be up, and events that lead to the state. *)
Definition consistent {json_value} (d : ServiceDescribe json_value) : Prop :=
  let st := ss_state (sd_status d) in
  (is_Some (sd_uptime_secs d) ↔ st = ServiceState.Running) ∧
  (is_Some (ss_pid (sd_status d)) → keeps_pid st = true) ∧
  length (sd_events d) ≤ EVENT_RETURN ∧ ∃ from, leads from (event_step <$> sd_events d) st.

Lemma view_runtime_consistent `{Host} name now m view :
  wf_runtimes m → view_runtime name now m = Ok view →
  let st := ss_state (rv_status view) in
  (is_Some (rv_uptime view) ↔ st = ServiceState.Running) ∧
  (is_Some (ss_pid (rv_status view)) → keeps_pid st = true) ∧
  length (rv_events view) ≤ EVENT_RETURN ∧ ∃ from, leads from (event_step <$> rv_events view) st.
Proof.
  unfold view_runtime. intros Hm. destruct (m !! name) as [rt|] eqn:Hn; [|done]. intros [= <-]. simpl.
  destruct (Hm _ _ Hn) as (_ & Hrun & Hp & _ & _ & Hh). split_and!.
  - unfold uptime_of. case_decide as Hst; [|by split; [intros []|]]. rewrite fmap_is_Some. tauto.
  - done.
  - rewrite length_fmap, length_last_n. lia.
  - apply (history_wf_drop (length (rt_events rt) - EVENT_RETURN)) in Hh as [from Hl]. exists from.
    by rewrite <-list_fmap_compose.
Qed.

Section parts.
Context `{Host, Nss, HashOrder, FirstKey, Json, DataDir, !FileTimes, VersionEnv, Process, !Wire, !Machine}.
Variable self : Supervisor.

(** Steps keep the invariant. *)
Lemma stepping_keeps {A} (m : M A) : stepping m → keeps shared_inv m.
Proof. intros Hm. eapply guarantees_weaken; [exact shared_step_inv|exact Hm]. Qed.

(** ** What clients are told *)

Lemma found_consistent name output w d w' new :
  describe self name output w = (Some (Ok d), w') → hist w' = new ++ hist w →
  Forall (finds shared_inv) new → consistent d.
Proof.
  intros Hr Hh Hn. unfold describe in Hr.
  assert (shared_inv (entered w)) as HI.
  { match type of Hr with (atomic_at ?f ≫= ?k) w = _ =>
      assert (∀ r, keeps shared_inv (k r)) as Hk by (intros r; apply stepping_keeps; destruct r;
        unfold read_running_identity; steps_solve) end.
    apply bind_Some in Hr as (view & w1 & Hv & Hr). destruct (Hk view w1) as (new1 & (Hh1 & _) & _).
    cbn beta in Hh1. rewrite Hr in Hh1. injection Hv as _ <-. cbn [snd hist] in Hh1.
    rewrite Hh1, cons_middle, (assoc_L (++)) in Hh. apply app_inv_tail in Hh as <-.
    apply Forall_app in Hn as [_ Hn]. by inversion Hn. }
  apply bind_Some in Hr as ([view|e] & w1 & Hv & Hr); [|by injection Hr].
  unfold atomic_at in Hv. injection Hv as Hv _. apply (view_runtime_consistent _ _ _ _ (proj1 HI)) in Hv.
  apply bind_Some in Hr as (id & w2 & _ & Hr).
  apply bind_Some in Hr as ([[svc deps]|e] & w3 & _ & Hr); [|by injection Hr].
  destruct (subgraph name deps); [|done].
  apply bind_Some in Hr as ([src|e] & w4 & _ & Hr); [|by injection Hr]. by injection Hr as <- _.
Qed.
End parts.

(** ** The threads *)

(** A schedule: whose section comes next, with the states it found and left. *)
#[global] Abbreviation Schedule := (list (nat * (Shared * Shared))).

Section system.
Context `{Nss, HashOrder, FirstKey, Json, DataDir, VersionEnv, Process}.
Variable self : Supervisor.

(** The programs of the threads: the main thread, the reaper, a monitor for each
    service, one thread for each client and for each output of a service, the metrics,
    the getty and the lines of the watcher's library; a signal handler interrupts any of
    them. *)
Inductive thread `{Host, !FileTimes, !Wire, !Machine, !Exporter} : ∀ {A}, M A → Prop :=
  | thread_main n opts : thread (run n opts)
  | thread_reaper n : thread (reaper_loop n)
  | thread_monitor n name c : thread (monitor_loop n name c)
  | thread_client n lines body : thread (dispatch_handler self n lines body)
  | thread_capture service level reads : thread (capture_stream service level reads)
  | thread_metrics n : thread (run_loop n)
  | thread_getty n console : thread (getty_respawn n console)
  | thread_bridge level target msg : thread (bridge_log level target msg)
  | thread_handler sig handler :
      (sig, handler) ∈ handlers → thread (updates (λ s, set_signals (handler (sh_signals s)) s)).

Lemma steps_thread `{Host, !FileTimes, !Wire, !Machine, !Exporter} {A} (m : M A) : thread m → stepping m.
Proof.
  destruct 1.
  - apply steps_run.
  - apply steps_reaper_loop.
  - apply keeps_monitor_loop, shared_step_closed.
  - unfold dispatch_handler. destruct (decode_request body); [|apply keeps_ret].
    apply keeps_bind; [apply steps_handle_ipc|intros r; apply keeps_ret].
  - apply steps_capture.
  - apply steps_run_loop.
  - apply steps_getty.
  - apply steps_bridge_log.
  - apply keeps_updates. intros s. by eapply ds_signals, sa_handle.
Qed.

(** The atomic sections of a run, oldest first: the states found and left. *)
Definition section_of (e : Event) : option (Shared * Shared) :=
  match e with EvStep before after => Some (before, after) | _ => None end.
Definition sections (new : list Event) : list (Shared * Shared) := steps_by section_of new.

(** What a thread has done so far: the first sections of a run of its program, with
    whatever the other threads and the machine did meanwhile. *)
Inductive behaves (l : list (Shared * Shared)) : Prop :=
  | behaves_intro (Hh : Host) (Ht : FileTimes) (Hw : Wire) (Hm : Machine) (He : Exporter) A (m : M A) w new :
      thread m → ran w new (m w).2 → l `prefix_of` sections new → behaves l.

Definition of_thread (i : nat) (sched : Schedule) : list (Shared * Shared) :=
  snd <$> filter (λ x, x.1 = i) sched.

(** Each section finds the state the section before it left. *)
Fixpoint follows (s : Shared) (sched : Schedule) : Prop :=
  match sched with
  | [] => True
  | (_, (before, after)) :: sched => before = s ∧ follows after sched
  end.

(** Any number of threads, interleaved in any way. *)
Definition system_run (s : Shared) (sched : Schedule) : Prop :=
  follows s sched ∧ ∀ i, behaves (of_thread i sched).

Lemma elem_of_sections s s' new : (s, s') ∈ sections new ↔ EvStep s s' ∈ new.
Proof.
  unfold sections, steps_by. rewrite list_elem_of_omap. split.
  - intros (e & He & Hs). rewrite elem_of_reverse in He. destruct e; simpl in Hs; by simplify_eq.
  - intros He. exists (EvStep s s'). by rewrite elem_of_reverse.
Qed.

Lemma behaves_run `{Host, !FileTimes, !Wire, !Machine, !Exporter} {A} (m : M A) s l :
  thread m → l `prefix_of` sections (hist (m (mkWorld s [])).2) → behaves l.
Proof.
  intros Hm Hl. destruct (steps_thread m Hm (mkWorld s [])) as (new & Hran & _).
  pose proof (proj1 Hran) as Hh. simpl in Hh. rewrite app_nil_r in Hh. eapply behaves_intro; [exact Hm|exact Hran|].
  by rewrite <-Hh.
Qed.

(** A section of a thread is a step. *)
Lemma behaves_step l s s' : behaves l → (s, s') ∈ l → shared_step s s'.
Proof.
  intros [Hh Ht Hw Hm He A m w new Hth Hran Hpre] Hin.
  destruct (steps_thread m Hth w) as (new' & Hran' & Hn). pose proof (proj1 Hran') as Heq.
  rewrite (proj1 Hran) in Heq. apply app_inv_tail in Heq as <-. rewrite Forall_forall in Hn.
  apply (Hn (EvStep s s')), elem_of_sections. destruct Hpre as [k ->]. set_solver.
Qed.

Lemma system_steps s sched : system_run s sched → Forall (λ x, shared_step x.2.1 x.2.2) sched.
Proof.
  intros [_ Hb]. apply Forall_forall. intros [i [s1 s2]] Hin. apply (behaves_step _ _ _ (Hb i)). unfold of_thread.
  apply list_elem_of_fmap. exists (i, (s1, s2)). split; [done|]. by apply list_elem_of_filter.
Qed.

(** The state after a schedule. *)
Fixpoint state_at_end (s : Shared) (sched : Schedule) : Shared :=
  match sched with [] => s | (_, (_, after)) :: sched => state_at_end after sched end.

Lemma follows_app s sched1 sched2 :
  follows s sched1 → follows (state_at_end s sched1) sched2 → follows s (sched1 ++ sched2).
Proof.
  revert s. induction sched1 as [|[i [s1 s2]] sched1 IH]; intros s; [done|]. simpl. intros [-> Hf] Hf2.
  split; [done|by apply IH].
Qed.

Lemma of_thread_app i sched1 sched2 : of_thread i (sched1 ++ sched2) = of_thread i sched1 ++ of_thread i sched2.
Proof. unfold of_thread. by rewrite list.filter_app, fmap_app. Qed.

Lemma of_thread_pair i j l : of_thread i (pair j <$> l) = if decide (i = j) then l else [].
Proof.
  unfold of_thread. case_decide as Hij; [subst|]; induction l as [|x l IH]; try done.
  - rewrite fmap_cons, filter_cons_True by done. simpl. by f_equal.
  - by rewrite fmap_cons, filter_cons_False by (simpl; congruence).
Qed.

(** A thread that no other interrupts. *)
Lemma undisturbed_follows `{Host} w new w' i :
  (∀ h s, interfere h s = s) → ran w new w' →
  follows (shared w) (pair i <$> sections new) ∧ state_at_end (shared w) (pair i <$> sections new) = shared w'.
Proof.
  intros Hquiet (_ & -> & Hl). induction new as [|e new IH]; [done|]. destruct Hl as [Hl He].
  destruct (IH Hl) as [Hf Hs]. unfold sections, steps_by in *. rewrite reverse_cons, omap_app, fmap_app.
  assert (∀ sched s, state_at_end s (sched ++ (pair i <$> omap section_of [e])) =
    match e with EvStep _ s' => s' | _ => state_at_end s sched end) as Hend.
  { induction sched as [|[j [s1 s2]] sched IHs]; intros s; [by destruct e|]. simpl. apply IHs. }
  split; [|rewrite Hend; by destruct e]. apply follows_app; [done|]. rewrite Hs. destruct e; try done. simpl.
  by rewrite He, Hquiet.
Qed.

(** Two threads, one after the other. *)
Lemma one_after_another `{Host, !FileTimes, !Wire, !Machine, !Exporter} {A B} (m1 : M A) (m2 : M B) s :
  (∀ h s, interfere h s = s) → thread m1 → thread m2 →
  let w1 := (m1 (mkWorld s [])).2 in let w2 := (m2 (mkWorld (shared w1) [])).2 in
  system_run s ((pair 0 <$> sections (hist w1)) ++ (pair 1 <$> sections (hist w2))).
Proof.
  intros Hquiet Hm1 Hm2 w1 w2. assert (∀ {C} (m : M C) s i, thread m → let w' := (m (mkWorld s [])).2 in
    follows s (pair i <$> sections (hist w')) ∧ state_at_end s (pair i <$> sections (hist w')) = shared w') as Halone.
  { intros C m s' i Hm. cbv zeta. destruct (steps_thread m Hm (mkWorld s' [])) as (new & Hran & _).
    pose proof (undisturbed_follows _ _ _ i Hquiet Hran) as Hf. destruct Hran as [Hh _]. simpl in Hh.
    rewrite app_nil_r in Hh. by rewrite Hh. }
  destruct (Halone _ m1 s 0 Hm1) as [Hf1 He1]. destruct (Halone _ m2 (shared w1) 1 Hm2) as [Hf2 _].
  cbv zeta in He1. fold w1 in He1. split; [apply follows_app; [done|by rewrite He1]|]. intros i. rewrite of_thread_app, !of_thread_pair.
  destruct i as [|[|i]]; simpl.
  - rewrite app_nil_r. by apply (behaves_run m1 s).
  - by apply (behaves_run m2 (shared w1)).
  - apply (behaves_run m1 s); [done|apply prefix_nil].
Qed.

(** What every step keeps holds of every state found and left. *)
Lemma follows_keeps (I : Shared → Prop) s sched :
  (∀ s s', shared_step s s' → I s → I s') → I s → follows s sched →
  Forall (λ x, shared_step x.2.1 x.2.2) sched → Forall (λ x, I x.2.1 ∧ I x.2.2) sched.
Proof.
  intros Hk Hs Hf Hall. revert s Hs Hf. induction Hall as [|[i [s1 s2]] sched Hstep _ IH]; intros s Hs Hf; [constructor|].
  destruct Hf as [-> Hf]. assert (I s2) by (by eapply Hk). constructor; [done|]. by eapply IH.
Qed.

(** C10: However many threads run and however their atomic sections are interleaved,
    every state any of them ever finds or leaves is well formed: bounded event rings
    that lead to the state of their service, an uptime exactly while running and a pid
    only while the process may be up, saturating counters, a bounded exit registry,
    consistent watch and log hubs, and one live channel per monitored service.  So
    each description of a service that is sent agrees with itself: its events lead to
    its state, and its uptime and pid belong to it. *)
Theorem system_invariant s sched :
  shared_inv s → system_run s sched →
  Forall (λ x, shared_inv x.2.1 ∧ shared_inv x.2.2) sched ∧
  ∀ (Hh : Host) name output w d w' new,
    describe self name output w = (Some (Ok d), w') → hist w' = new ++ hist w →
    sections new ⊆ snd <$> sched → consistent d.
Proof.
  intros Hs Hrun. pose proof (follows_keeps shared_inv s sched shared_step_inv Hs (proj1 Hrun) (system_steps s sched Hrun)) as Hall.
  split; [done|].
  intros Hh name output w d w' new Hr Hn Hsub. eapply found_consistent; [done..|].
  apply Forall_forall. intros e He. destruct e; try done. apply elem_of_sections, Hsub in He.
  apply list_elem_of_fmap in He as ([i [s1 s2]] & [= -> ->] & Hin). rewrite Forall_forall in Hall.
  by apply (Hall _ Hin).
Qed.

(** A queue that each step leaves [queued] while it is open delivers what is put into
    it exactly once and in order. *)
Lemma in_order {A} (waiting : Shared → list A) (open : Shared → Prop) s sched :
  (∀ s s', shared_step s s' → shared_inv s → open s → open s' → queued (waiting s) (waiting s')) →
  shared_inv s → system_run s sched → open s → Forall (λ x, open x.2.2) sched →
  concat (received waiting ∘ snd <$> sched) ++ waiting (state_at_end s sched)
    = waiting s ++ concat (sent waiting ∘ snd <$> sched) ∧
  Forall (λ x, length (received waiting x.2) + length (sent waiting x.2) ≤ 1) sched.
Proof.
  intros Hstep Hs Hrun Ho Hopen. pose proof (system_steps s sched Hrun) as Hall. destruct Hrun as [Hf _].
  revert s Hs Hf Ho. induction Hall as [|[i [s1 s2]] sched Hnow _ IH]; intros s Hs Hf Ho; [by rewrite app_nil_r|].
  destruct Hf as [-> Hf]. apply Forall_cons in Hopen as [Ho2 Hopen]. simpl in *.
  destruct (queued_section waiting (s, s2)) as [Hq Hl]; [by apply Hstep|].
  destruct (IH Hopen s2) as [Hqs Hls]; [by eapply shared_step_inv|done..|]. split; [|by constructor].
  simpl in Hq. transitivity ((received waiting (s, s2) ++ waiting s2) ++ concat (sent waiting ∘ snd <$> sched)).
  - rewrite <-!app_assoc. f_equal. exact Hqs.
  - by rewrite Hq, <-app_assoc.
Qed.

(** The sections of a schedule send every follower that stays the same lines. *)
Lemma lines_sent s sched :
  shared_inv s → system_run s sched →
  ∃ lines, ∀ id, following id s → Forall (λ x, following id x.2.2) sched → sent (lines_for id) ∘ snd <$> sched = lines.
Proof.
  intros Hs Hrun. pose proof (system_steps s sched Hrun) as Hall. destruct Hrun as [Hf _].
  revert s Hs Hf. induction Hall as [|[i [s1 s2]] sched Hnow _ IH]; intros s Hs Hf; [by exists []|].
  destruct Hf as [-> Hf]. simpl in *. destruct (lines_step s s2 Hnow Hs) as [here Hhere].
  destruct (IH s2) as [later Hlater]; [by eapply shared_step_inv|done|].
  exists (here :: later). intros id Hid Hstay. apply Forall_cons in Hstay as [Hid2 Hstay].
  simpl. f_equal; [by apply Hhere|by apply Hlater].
Qed.

(** C11: However the threads are interleaved, all followers of the logs see the same
    lines: there is one sequence of lines, at most one for each atomic section, such
    that every follower that stays subscribed is sent each of them exactly once and
    takes them in that order, after those that waited for it at first and before those
    that wait for it at the end. *)
Theorem lines_in_order s sched :
  shared_inv s → system_run s sched →
  ∃ lines, ∀ id, following id s → Forall (λ x, following id x.2.2) sched →
    sent (lines_for id) ∘ snd <$> sched = lines ∧
    concat (received (lines_for id) ∘ snd <$> sched) ++ lines_for id (state_at_end s sched)
      = lines_for id s ++ concat lines ∧
    Forall (λ l, length l ≤ 1) lines.
Proof.
  intros Hs Hrun. destruct (lines_sent s sched Hs Hrun) as [lines Hlines]. exists lines. intros id Hid Hstay.
  specialize (Hlines id Hid Hstay). subst lines. split; [done|].
  destruct (in_order (lines_for id) (following id) s sched) as [Hq Hl]; [|done..|].
  - intros s1 s2 Hnow Hs1 Hf1 Hf2. destruct (lines_step s1 s2 Hnow Hs1) as [here Hhere]. by apply Hhere.
  - split; [done|]. apply Forall_fmap. eapply Forall_impl; [exact Hl|]. simpl. intros x ?. lia.
Qed.
End system.

(** ** A concrete interleaving *)

(** The capture of one line, interrupted after two of its sections by a signal. *)
Definition interrupted : Host := example_host (λ h s,
  if decide (length (sections h) = 2) then set_signals (handle_reboot (sh_signals s)) s else s).
Definition start : Shared := example_shared example_services.
Definition captured : World :=
  (capture_stream (H := interrupted) "web" LogLevel.Info
    [Chunk (String "h" (String "i" (String newline "")))] (mkWorld start [])).2.
Definition handled (s : Shared) : World :=
  (updates (H := quiet_host) (λ s, set_signals (handle_reboot (sh_signals s)) s) (mkWorld s [])).2.
Definition example_schedule : Schedule :=
  let l := sections (hist captured) in
  let s := from_option snd start (last (take 2 l)) in
  (pair 0 <$> take 2 l) ++ (pair 1 <$> sections (hist (handled s))) ++ (pair 0 <$> drop 2 l).

(** The instances of the interrupted machine; they answer as in the other examples. *)
Definition interrupted_times : FileTimes (H := interrupted) := {| file_mtime _ _ := None |}.
Definition interrupted_wire : Wire (H := interrupted) (H0 := example_json) := {|
  encode_response := encode_response (Wire := example_wire);
  decode_request := decode_request (Wire := example_wire);
  frame_fault _ _ := None;
  bind_fault _ _ := None;
  command_fault _ := None;
|}.
Definition interrupted_machine : Machine (H := interrupted) := {|
  machine_scripts := {| script_ran := script_ran (Scripts := example_scripts) |};
  sigaction_answer _ _ := None;
  waitpid_answers _ := [];
  reload_signal _ := false;
  watcher_fault _ := None;
  arg0_name := Some "init";
  reboot_returns _ := false;
  program_fault _ _ := None;
|}.
Definition interrupted_exporter : Exporter (H := interrupted) := {|
  proc_file := proc_file (Exporter := example_exporter);
  parallelism _ := Some 4%N;
  before_epoch _ := None;
  print_document _ := "{}";
  post_answer _ _ _ _ := PostOk 200;
  stop_flag _ := false;
  package_version := "0.1.0";
|}.

Lemma example_runs : system_run (H := example_nss) (H0 := canonical_hash_order) (H1 := canonical_first_key)
  (H2 := example_json) (H3 := example_data) (H4 := example_version) (H5 := example_process)
  example_supervisor start example_schedule.
Proof.
  split; [vm_compute; by repeat split|].
  pose proof (behaves_run (H := example_nss) (H0 := canonical_hash_order) (H1 := canonical_first_key)
    (H2 := example_json) (H3 := example_data) (H4 := example_version) (H5 := example_process) example_supervisor
    (H6 := interrupted) (H7 := interrupted_times) (H8 := interrupted_wire) (H9 := interrupted_machine)
    (H10 := interrupted_exporter) (A := unit)) as Hcapture.
  intros [|[|i]].
  - apply (Hcapture (capture_stream (H := interrupted) "web" LogLevel.Info
      [Chunk (String "h" (String "i" (String newline "")))]) start);
      [apply thread_capture|vm_compute; by exists []].
  - eapply (behaves_run (H6 := quiet_host) (H7 := example_times) (H8 := example_wire) (H9 := example_machine)
      (H10 := example_exporter) example_supervisor (updates (H := quiet_host) (λ s, set_signals (handle_reboot (sh_signals s)) s))
      (from_option snd start (last (take 2 (sections (hist captured))))));
      [apply (thread_handler _ SIGTERM); right; left|vm_compute; by exists []].
  - apply (Hcapture (capture_stream (H := interrupted) "web" LogLevel.Info []) start); [apply thread_capture|].
    replace (of_thread _ _) with (@nil (Shared * Shared)) by (vm_compute; reflexivity). apply prefix_nil.
Qed.

(** The handler runs between two sections of the capture. *)
Example schedule_example : fst <$> example_schedule = [0; 0; 1; 0; 0].
Proof. vm_compute. reflexivity. Qed.

Lemma system_invariant_witness :
  system_run (H := example_nss) (H0 := canonical_hash_order) (H1 := canonical_first_key)
    (H2 := example_json) (H3 := example_data) (H4 := example_version) (H5 := example_process)
    example_supervisor start example_schedule ∧
  Forall (λ x, shared_inv x.2.1 ∧ shared_inv x.2.2) example_schedule.
Proof.
  split; [exact example_runs|].
  refine (proj1 (system_invariant example_supervisor start example_schedule _ example_runs)).
  apply shared_inv_new, hub_new_wf.
Defined.

(** Two followers of the logs while a service writes two lines. *)
Definition followed : Shared :=
  set_hub (hub_subscribe (hub_subscribe (sh_hub start)).2).2 start.
Definition writing : World :=
  (capture_stream (H := quiet_host) "web" LogLevel.Info
    [Chunk (String "a" (String newline "")); Chunk (String "b" (String newline ""))] (mkWorld followed [])).2.
Definition noting : World :=
  (updates (H := quiet_host) (λ s, set_signals (handle_reboot (sh_signals s)) s) (mkWorld (shared writing) [])).2.
Definition writing_schedule : Schedule := (pair 0 <$> sections (hist writing)) ++ (pair 1 <$> sections (hist noting)).

Lemma writing_runs : system_run (H := example_nss) (H0 := canonical_hash_order) (H1 := canonical_first_key)
  (H2 := example_json) (H3 := example_data) (H4 := example_version) (H5 := example_process)
  example_supervisor followed writing_schedule.
Proof.
  unfold writing_schedule, noting, writing.
  exact (one_after_another example_supervisor (H6 := quiet_host) (H7 := example_times) (H8 := example_wire) (H9 := example_machine)
    (H10 := example_exporter) (H1 := canonical_first_key) _ _ followed (λ _ _, eq_refl)
    (thread_capture example_supervisor "web" LogLevel.Info _)
    (thread_handler example_supervisor SIGTERM handle_reboot (list_elem_of_further _ _ _ (list_elem_of_here _ _)))).
Qed.

(** Both followers stay. *)
Definition stays (id : nat) (s : Shared) : bool :=
  bool_decide (id ∈ lh_followers (sh_hub s)) && bool_decide (is_Some (lh_channels (sh_hub s) !! id)).

Lemma stays_following id s : stays id s → following id s.
Proof. unfold stays. by rewrite andb_True, !bool_decide_spec. Qed.

Lemma stays_throughout id (sched : Schedule) :
  forallb (λ x, stays id x.2.2) sched → Forall (λ x, following id x.2.2) sched.
Proof. rewrite forallb_True. intros Hs. eapply Forall_impl; [exact Hs|]. intros x. apply stays_following. Qed.

Lemma lines_in_order_witness :
  lines_for 0 (state_at_end followed writing_schedule) = lines_for 1 (state_at_end followed writing_schedule) ∧
  ln_msg <$> lines_for 1 (state_at_end followed writing_schedule) = ["a"; "b"].
Proof.
  split; [|vm_compute; reflexivity].
  destruct (lines_in_order (H := example_nss) (H0 := canonical_hash_order) (H1 := canonical_first_key)
    (H2 := example_json) (H3 := example_data) (H4 := example_version) (H5 := example_process)
    example_supervisor followed writing_schedule) as [lines Hlines].
  - apply (shared_step_inv (set_hub (hub_subscribe (sh_hub start)).2 start)).
    + apply (ds_hub (hub_subscribe (hub_subscribe (sh_hub start)).2).2 (set_hub _ start)), ha_step, step_subscribe.
    + apply (shared_step_inv start); [apply ds_hub, ha_step, step_subscribe|by apply shared_inv_new, hub_new_wf].
  - exact writing_runs.
  - destruct (Hlines 0) as (_ & H0 & _); [apply stays_following; vm_compute; exact I|apply stays_throughout; vm_compute; exact I|].
    destruct (Hlines 1) as (_ & H1 & _); [apply stays_following; vm_compute; exact I|apply stays_throughout; vm_compute; exact I|].
    assert (concat (received (lines_for 0) ∘ snd <$> writing_schedule) = []) as R0 by (vm_compute; reflexivity).
    assert (concat (received (lines_for 1) ∘ snd <$> writing_schedule) = []) as R1 by (vm_compute; reflexivity).
    rewrite R0, app_nil_l in H0. rewrite R1, app_nil_l in H1.
    assert (lines_for 0 followed = lines_for 1 followed) as E by (vm_compute; reflexivity).
    rewrite E in H0. rewrite H0, H1. reflexivity.
Defined.
